(* ===== verification/_CoqProject ===== *)
-Q . S2P
Prelude.v
Text.v
Tuning.v
Budget.v
Pool.v
Journey.v
Keys.v
Storage.v
SmallStorage.v
Points.v
Sending.v
Departure.v
Sequence.v
Due.v
Renewal.v
SendStep.v
Admission.v
Pass.v
Scan.v
MessageAct.v
Dispatch.v
Stopping.v
Receiving.v
Serving.v
Configured.v
StreamShare.v
Fresh.v
Vouched.v
Pickup.v
PickupSteps.v
HeldWork.v
StreamLedger.v
Arrival.v
Publication.v
Split.v
WorkTurn.v
WorkStep.v
Held.v
Role.v
Call.v
Applied.v
Served.v
Board.v
Following.v
Bound.v
Relayed.v
Figures.v
Replay.v
Workers.v
Deadline.v
Validated.v
Mood.v
StoragePlan.v
Linked.v
Started.v
Certified.v
Snapshot.v
Boundary.v
Wire.v
Crossing.v
Handles.v
Secure.v
Signed.v
Registration.v
Ending.v
Facts.v
AuditChain.v
Catalogue.v
Loading.v
Planned.v
LocalEnd.v
Listening.v
Opened.v
Exports.v
Watching.v
Sessions.v
