(* ===== verification/Prelude.v ===== *)
(** * The Xmip runtime, verified

    Xmip's core runtime takes Streams in at Receive Locations, publishes each
    as a Message with a Journey for every Subscription that wants it, and
    sends every such Message from the queue of its destination: a claimed
    Message passes to its Send Port, the pass's end is one write in Xmip
    Storage (the doorway to the Ledger), and what may be sent again waits.
    A Message may first be taken by a Work Process, which reads its queue
    and takes turns of it, or be held by its Subscription and picked up
    later; operators act on all of it through callers a node proves, follow
    it through surfaces, and reach it from C through a boundary of handles.
    This library models the parts of that which carry the runtime's own
    logic, as the Rust source writes them, and proves what each promises.
    This file is the prelude the others share: results and the asking of a
    state, machine-width integers, sums, and the bound a falling measure
    puts on a run.

    ** The files, and the source each models

    - [Tuning]: [src/tuning.rs], [src/tuning/declared.rs]. Every key of
      [[tuning]] with its kind and bounds, and the pools' bounds and the
      chunk calculated from them.
    - [Budget]: [src/budget.rs]. [hold], [hold_up_to], [release], [split];
      a budget's holders interleaved ([budget_step]); the node's budgets.
    - [Pool]: [src/pool.rs]. [run], the serving thread's loop ([serve_top],
      [woken]) and [Drop] as critical sections, interleaved ([pool_step]).
    - [Journey], [Storage], [SmallStorage]: other crates' types the runtime
      reads and writes, under the fields it names, and what it asks of them:
      the classes [JourneyOps]/[JourneyLaws] and [XmipStorage], the interface
      the sends' theorems are proved against. [SmallStorage] is an instance
      that computes, at which the witnesses run them.
    - [Keys], [Points], [Sequence], [Configured]: [src/work_step/keys.rs],
      [src/sequence.rs], [src/sequence/late.rs], [src/sequence/group.rs],
      [src/sequence/configured.rs]. The key a Message has in a Correlation,
      the sequences it takes places in, who heads one, what a process
      remembers of heading, and the points a configuration names.
    - [Sending], [Departure]: [src/sending.rs], [src/departure.rs]. Where a
      destination is sent and one pass of it: retries, failover, the claim
      asked for before each send.
    - [SendStep], [Due], [Renewal], [Admission]: [src/send_step.rs],
      [src/send_step/admission.rs], [due.rs], [renewal.rs].
      The step's state and every critical section on it ([SendStep]); when a
      queue's retries are due ([Due]); claims renewed while they fly
      ([Renewal]); the sections of every holder of a place interleaved
      ([Admission]).
    - [Figures]: [src/send_step/figures.rs]. What a Port's sends are counted
      as, and what is published of it.
    - [Pass], [Scan], [MessageAct], [Dispatch]: [src/send_step/pass.rs],
      [under_claim.rs], [reading.rs], [scan.rs], [message_act.rs],
      [failed.rs], [dispatch.rs]. A Message's pass from its claim to its
      hand-on; a queue scanned; an operator's Retry and Dismiss; the
      dispatching's turn that puts them together.
    - [StreamShare]: [src/stream_share.rs], [src/stream_share/one_read.rs].
      The departures of one Stream taking its chunks from shared reads.
    - [Stopping], [Receiving], [Serving]: [src/stopping.rs],
      [src/receiving.rs] and [src/receiving/]. A rest the stop or a word
      ends; how long a Location rests and drains and the turn its far ends
      are told in; its serve loop with the threads that carry.

    - [StreamLedger]: [src/ledger.rs].
      A Stream written to Xmip Storage a chunk at a time, its end with its
      last chunk, and read back.
    - [Arrival], [Publication]: [src/arrival.rs],
      [src/arrival/identity_context.rs], [src/outcome.rs],
      [src/ledger/publication.rs], [src/dead_message.rs],
      [src/message_path.rs]. The gates one arrival
      passes, whom its decisions permit it to go to, and the write that
      carries the Message, its Journeys and what is counted of it.
    - [Split]: [src/split.rs]. A Message split into the Streams of its
      records, all or none.
    - [WorkTurn], [WorkStep]: [src/work_step/turning.rs], [acts.rs],
      [running.rs], [src/work_step.rs], [src/work_step/dispatch.rs]. A turn of a Work
      Process's unit, the acts it asks for and the one write it ends in; and
      which queues are read when, and what a turn is taken of.
    - [Pickup], [PickupSteps], [HeldWork], [Replay]: [src/pickup.rs] and
      [src/pickup/], [src/held_work.rs]. A Subscription's standing and
      what is held under it, its operations alone and interleaved, the
      picking up of one held Message, and a Replay from the Dead Message
      Queue.
    - [Fresh], [Vouched], [Held], [Role]: [src/plane/fresh.rs], [vouched.rs],
      [possessed.rs], [handle.rs], [src/plane/held.rs],
      [src/plane/role.rs]. Nonces issued and spent; the
      callers a relay proves; the handles of the callers a process proved,
      and the nodes each is vouched to; which role may ask which method.
    - [Workers], [Deadline]: [src/plane/workers.rs],
      [src/plane/deadline.rs]. The threads a listener answers on, kept and
      let go; the one thread that ends calls whose moment passed.
    - [Text], [Call], [Applied], [Served]: the standard library's text the
      rest reads; [src/plane/call.rs], [src/plane/applied.rs],
      [secret.rs], [src/plane/served.rs], [src/plane/caller.rs]. A request of the
      operate service read from its bytes; an act applied to the node; one
      call on the listener, from its caller to its answer.
    - [Board], [Following]: [src/plane/board.rs], [shared.rs],
      [follow.rs]. What listeners answer from, and the surfaces that wait on
      it, woken or ended, interleaved.
    - [Bound], [Relayed]: [src/plane/remote.rs] and
      [src/plane/remote/] ([asking.rs], [fresh.rs], [relayed.rs],
      [secret.rs]). Nonces a relay binds a handshake to, each once; what a
      surface asks of another node for a caller it proved.
    - [Secure]: [src/secure_listener.rs]. A web host's HTTPS listener: its
      accepting thread, its callers and its end, interleaved.
    - [Validated], [StoragePlan], [Linked], [Started]:
      [src/execution_tree.rs], [src/storage.rs], [src/storage/opened.rs],
      [reached.rs], [src/linked.rs], [src/capability_registry.rs],
      [src/host.rs], [src/parties.rs], [src/receiving/gate.rs],
      [src/startup.rs], [src/running.rs] ([Running::start]),
      [src/service.rs]. What of a configuration starts; how a node reaches
      its Xmip Storage; what a program was built with; and the start, its
      phases in order.
    - [Signed]: [src/signed.rs]. A slice the cluster signed, and what of it
      an instance may run.
    - [Mood], [Certified], [Snapshot], [Ending]: the health another crate
      names; [src/running/certificate_standing.rs]; [src/outcome.rs],
      [src/running/publication.rs] and [stopped.rs]; [src/running/serving.rs]
      and [src/running.rs] (its halt). What a running node publishes of itself
      and when it reads its certificates, and how its threads end.
    - [Registration]: [src/registration.rs], [src/windows_scm.rs],
      [src/service_control.rs]. What a host asks of systemd, launchd and the
      Windows service manager.
    - [Facts], [AuditChain]: [src/ledger/record.rs],
      [src/ledger/audit_chain.rs]. What the Ledger keeps beside a form, and
      the audit's verdict over a chain of them.
    - [Catalogue]: [src/catalogue.rs], [src/configured_subscription.rs].
    - [Loading], [Opened]: [src/library.rs], [src/ffi/loaded_module.rs],
      [loaded_contract.rs], [loaded_work_process.rs];
      [src/work_step/opened.rs], [running.rs]. The Modules opened from their
      libraries, driven and let go, and the Work Processes taken of them.
    - [Planned]: [src/start.rs], [src/operator.rs], [src/ffi/start.rs]. A
      configuration read, planned and validated for a surface, and what a
      process publishes.
    - [LocalEnd], [Listening]: [src/plane/local.rs],
      [src/plane/local/unix.rs]; [src/plane/listener.rs],
      [src/running/operate.rs]. A node's local endpoint, whom it admits, and
      the listeners a node starts: accepting, answering and stopping.
    - [Exports]: [src/ffi/message.rs], [subscription.rs], [dead_message.rs],
      [order.rs], [remote.rs], [event/subscription.rs],
      [src/send_step/registered.rs]. Acts, orders and remotes from C.
    - [Watching]: [src/directory_watch.rs] and [src/directory_watch/],
      [src/ffi/directory_watch.rs], [src/receiving/watched.rs]. A drop
      directory's changes told to the Location that lists it.
    - [Boundary], [Wire], [Crossing], [Handles]: [src/ffi/text.rs],
      [src/ffi/rule.rs] and [src/ffi/rule/node.rs]; [src/wire.rs];
      [src/ffi/event/crossing.rs] and [gate.rs]; [src/ffi/event/hub.rs],
      [subscription.rs], [unheard.rs]. Texts, integers and events across the
      C boundary, and the boxes whose addresses its callers hold.

    ** How they interact

    A Location's serve holds places of the node's [Budget] and carries on a
    [Pool]; what it publishes takes places in sequences ([Points.place])
    and is lined up with the send step ([SendStep.line_up]). The dispatching
    ([Dispatch.turn]) admits Messages to the Send pool's room
    ([SendStep.admit_places]), scans queues ([Scan.scan]) and runs each claimed
    Message's pass ([Pass.send], which runs [Departure.depart_to]) on a send
    thread ([Dispatch.sent]); the renewing thread keeps their claims
    ([Renewal]); what may be sent again is due later ([Due]).

    An arrival's Stream is written first ([StreamLedger]), what its gates
    decide of it ([Arrival]) says who is offered the Message, and one
    Publication ([Publication.carry]) writes it and lines every Journey up:
    in a work queue ([WorkStep.ask]), a destination's ([SendStep.line_up]),
    or held ([Pickup.published]). A held Message is picked up by a scan of
    its own queue and moves on in one write ([HeldWork]); a Replay is a
    Publication of Journeys that are held at once ([Replay.replay]). A turn
    the work step takes ([WorkStep.scan_entry]) runs the unit
    ([WorkTurn.turn]), splitting first where the Process debatches ([Split]),
    and publishes what the unit emits in the write that ends it. An act
    on the operate plane is for a caller the table holds ([Held.proof]),
    proven and of a role the method's rule grants ([Role.act_admitted]); a
    call relayed from another node is proven over a nonce that node was
    issued ([Vouched.possessed], [Fresh.spend]). A listener answers each on
    its threads ([Workers]); a call asked of a node of the same machine is
    let go of at its deadline ([Deadline]).

    One call on the listener is [Served.called]: its request is read by
    [Call], its caller is the one the connection proved ([Served.connected])
    or the one held for a relay ([Vouched]), and what it is granted is
    applied to the node ([Applied.apply]). A surface follows a node by a wait
    the node answers from its [Board], and tells each of its followers
    ([Following]). A relay binds a browser's handshake to a nonce the node
    issued ([Bound]) and asks under the handle the node answered for the
    caller it proved ([Relayed], [Held]).

    A running node's publication ([Snapshot]) puts together its Ports'
    figures ([Figures]), its certificates' standing ([Certified]), what is
    said of its Storage ([StoragePlan.published]) and what its arrivals came
    to ([Snapshot]'s tally). Its
    threads end together: the stop is asked of all, then each is waited for
    ([Ending]). The slice a node starts by is one its cluster signed
    ([Signed]). From C, every text goes into a
    buffer the caller owns ([Boundary]), an event crosses as integers and
    texts ([Crossing]), and a handle is an address of a live box ([Handles]).

    A node starts ([Started.running_start]) by the phases in order: what its
    document says is validated and bound ([Validated.build_execution_tree],
    whose [[tuning]] is [Tuning.read]'s), how it reaches Xmip Storage is
    planned ([StoragePlan.plan]), what its program linked is registered and
    its Locations' transports opened ([Linked], [Started.open_locations]),
    their sequences and gates read ([Configured], [Linked]), and only then
    does it serve. The libraries of its Modules are opened first, all or none
    ([Loading.open_all]); its Work Processes are taken of them
    ([Opened.opened]) and a turn is asked of a unit through its table
    ([Loading.turn]). Its listeners are begun together, the local endpoint
    first ([Listening.operate]), over a socket made for those it admits
    ([LocalEnd.acceptor_bind]). A surface that starts no node of its own reads
    and plans the same file ([Planned.start]). What a program asks of its own
    nodes through the header ([Exports.acted_on_message] and the others) is
    what their listeners apply ([Served.acted]), and is shown to be answered
    alike. A browser's session is one thread's run of the table of callers
    ([Sessions.session_steps]), so what holds of the table holds of it
    ([Sessions.session_proven]). A Location rests ([Stopping]) until the thread that watches its
    drop directory tells it ([Watching.tells]).

    ** How it is modelled

    A lock's critical section is a function on the state it guards, and
    threads interleave as a step relation over those functions: [budget_step],
    [pool_step], [Admission]'s moves, [Renewal]'s rounds, [rest_step],
    [turn_step], [serve_step], [share_step], [fresh_step], [held_step],
    [work_step], [PickupSteps]'s steps, [surface_step], [bound_step],
    [workers_step], [deadline_step], [Secure.listener_step],
    [Listening.listener_step], [watch_step], [Ending.node_step]; calls over
    the C boundary are runs of [Handles]' operations, and those a node makes
    of its libraries a trace of calls, each with what it answered
    ([Loading.node_step]), kept to the header by an automaton ([Loading.next]). Code that asks Xmip Storage
    threads its state and may be answered with an error at any ask ([asks],
    [let!]): what was done before an error stays done. What a pass asks of
    the world outside (the claim, the transport, the identity) is answered
    by the moment it is asked at ([Departure.World]). A unit of a library
    (a splitting unit, a Work Process's) and the decisions of other crates
    (a rule, a chain of certificates) are functions the definitions take. Integers the source adds or multiplies at
    a width are [N] with the width's wrap-around or saturation written out.
    A panic is modelled where the source catches one or runs a [Drop] on the
    way out ([Pool], [Dispatch], [Receiving], [WorkStep], [Ending]).

    ** Fuel

    [Departure.depart_to] gives a pass one turn for each Location left and
    one more ([enough]), and [depart_to_returns] shows that enough;
    [Sequence.heading] gives its loop three turns, and [heading_returns]
    shows that enough whatever a Storage answers; [Scan.scan] takes its fuel
    as an argument, and [scan_returns] shows a Storage's pages ([DuePages])
    end it, as [due_returns] does of the work step's read;
    [StreamLedger.write_stream] gives a Stream a turn for each chunk it can
    have ([write_stream_returns]); a Work Process's turn is bounded by the
    acts it may ask for ([WorkTurn.turn_returns]); a unit asked again with
    the room it needs is asked until it answers ([turn_answered]: the room
    grows at every ask and is a machine word's).

    ** What is shown

    The properties listed for the library:

    - Bounds: a budget never has more held than its own, nor the Send pool
      more places given than it has threads ([budget_never_exceeded],
      [pool_never_overfilled]).
    - Nothing stranded, everything ends: [pool_strands_nothing],
      [serve_settles_all], [followers_told] (no surface sleeps past what a node
      told), [no_drop_unseen] (a Location is told of a file that lands while
      it rests), [accept_hears] (an accept hears of a handshake over, and of
      the stop) and [stop_completes] (a node told to stop has let its threads
      go); and a call in flight ends at its deadline ([deadline_kept]).
    - Startup: a node starts whole or is refused, saying why
      ([start_whole_or_refused]), and runs of a slice only what its cluster
      signed ([runs_only_signed]).
    - Exclusion: no send goes out but under a claim seen held just before
      ([every_send_claimed]), a claim counted as surely held is one no other
      node may have ([holds_surely]), a Journey is in at most one turn on a
      node ([one_turn_at_a_time]), and a listener's work is run once
      ([work_runs_once]).
    - Order: what a process takes to head a sequence heads it or has left it
      ([heads_truthful]), places told are held ([places_told_are_held]), what
      is sent headed every sequence it is in ([sent_in_order]), held Messages
      are picked up in theirs ([picked_up_in_order]).
    - The same bytes: every departure of a Stream is handed the Stream's own
      ([stream_lent_whole]); a Stream written is read back whole
      ([stream_written_whole]); a Message is split into its records' bytes
      or not at all ([split_all_or_nothing]).
    - One write: a pass, an operator's act and a turn of a Work Process each
      end in one write that says what became of the Message
      ([pass_writes_its_end], [act_is_one_write], [turn_is_one_write]); a
      Publication is written whole or not at all ([cycle_ends_whole]).
    - Subscriptions: what stands survives a restart ([act_survives_restart])
      and what is counted as held is never short of what is
      ([held_never_short]).
    - Who may: what is published was permitted ([published_as_permitted]), a
      nonce is spent at most once ([nonce_spent_once]), a relay's callers are those proven
      ([vouched_refines]) and asked for as such ([relayed_as_vouched]), a
      handle names a caller within its proof ([caller_is_proven]), each
      method is admitted as its rule says ([admitted_as_ruled]), a node
      is acted on only as a caller that was proven ([acts_only_as_proven]),
      and its local endpoint opens for those it admits and no other
      ([endpoint_opens_for]).
    - Libraries: whatever a Module's library answers, each instance is called
      as the header has it, and stopped, destroyed and unloaded in the end
      ([modules_let_go]).
    - Asked alike: an act asked through the C header is done and answered as
      over a node's listener ([acts_answered_alike]).
    - Across the C boundary: no text is written past the room its caller
      gave ([handed_within_room]), and the boxes alive are those handed out
      and not let go ([boxes_live]).

    Beside them stand theorems that are not listed but say as much of their
    parts:

    - of queues and threads: [pool_bounded], [pool_drains], [retries_end],
      [retry_woken_for], [send_gives_its_place_back], [no_word_lost],
      [serve_tells_in_order], [scan_within_room], [turn_within_room],
      [serve_takes_within_room], [hold_waits_only_for_holders],
      [places_given_back], [told_in_turn], [drain_ends],
      [raised_ends_the_rest], [attempts_kept], [delivered_sets],
      [node_budget_exact], [destinations_whole], [received_at_own],
      [one_read_turns], [stop_lets_threads_go], [caller_let_go_once];
    - of held Messages and turns: [asked_is_read], [held_is_picked_up],
      [picked_up_is_one_move], [turn_returns], [replay_is_one_write];
    - of the operate plane: [vouched_for_exactly], [nodes_told_once],
      [decided_before_read], [call_crosses], [placed_in_folder],
      [nonce_bound_once] (a nonce binds one browser's handshake),
      [publication_handed_whole], [secrets_told_apart], [registered_in_order],
      [stop_misses_none] (a listener's stop passes by no connection it
      answers), [operate_whole] (a node's listeners all serve or none);
    - of a start and a running node: [tree_is_the_configuration],
      [storage_planned], [storage_gone], [one_transport], [signed_verifies],
      [verified_signed], [stopped_done], [stopped_scopes],
      [record_adds_up], [rounds_say], [not_read_again], [figures_as_kept],
      [control_asks], [carried_once], [configured_order], [measured_once],
      [stage_published], [plan_told] (a surface is told the truth of the file it starts),
      [planned_validates], [cluster_validates], [tables_read_last],
      [units_opened], [turn_answered];
    - of texts and records: [text_injective], [wire_reads_back],
      [borrowed_is_read], [open_again], [event_crosses], [audited_once],
      [nanos_fits], [outage_no_verdict], [lossy_utf8], [content_read].

    Faults the modelling showed, each run as a lemma:
    [moves_wear_the_pool_down] (a resumed Subscription's Message a scan takes
    up before its [hand] leaves its place in the Send pool taken for good),
    [held_message_forgotten] and [count_drifts] (what a Subscription holds
    counted wrongly under an act that falls between),
    [panicked_never_again] (a turn that panics leaves its Journey owned, and
    the node never takes it again), [two_asks_at_once] (a node is
    asked for nonces twice at once, where once was meant), [panic_hangs] (a
    panic in a node's serving leaves it waiting for threads that never end),
    [anothers_slice_run] (a node runs another's slice, of the
    same authority),
    [plist_unescaped] (a path launchd is given is written into its document
    as it stands), [refused_after_storage] (a start is
    still refused after its own Storage node serves),
    [planned_is_refused] (a surface that starts a node with a Location known
    and not started is answered that its file does not validate), and
    [failure_unfound] (an act on a Subscription its Xmip Storage did not take
    is answered through C as on one that is not there).

    ** What is not modelled

    - The operate plane's connections: sockets, TLS and HTTP/2, the lines of
      a local call, the Windows pipe's security descriptors.
    - The platform's loader and what a library does when called: any answer
      it may give is an argument of [Loading].
    - Designer slices ([src/design.rs]), certificates, Parties and secrets:
      calls of other crates.
    - The rest of the C boundary's exports, and their lists as JSON:
      marshalling over raw pointers.
    - The stand-ins the tests use.

    Time is moments compared, never measured. Where a condition variable, a
    channel or a thread pool of the standard library is used, it is modelled
    as its documentation says: a wait may wake for no reason, a channel keeps
    its order. *)

From Stdlib Require Import List Lia Ascii String.
From stdpp Require Import base numbers list gmap strings relations sorting.

(** ** Notations *)

Declare Scope xmip_scope.
Delimit Scope xmip_scope with xmip.

(** Rust's [Result], with the [?] of the source as a bind. *)
Inductive result (A E : Type) : Type :=
  | Ok (a : A)
  | Err (e : E).
Arguments Ok {A E} a.
Arguments Err {A E} e.

Definition is_ok {A E} (r : result A E) : bool :=
  match r with Ok _ => true | Err _ => false end.

Definition result_bind {A B E} (r : result A E) (k : A → result B E) : result B E :=
  match r with Ok a => k a | Err e => Err e end.

Notation "'let?' x ':=' r 'in' k" := (result_bind r (λ x, k))
  (at level 10, x pattern, r at level 100, k at level 200) : xmip_scope.

Open Scope xmip_scope.

(** ** Asking a state

    A function of the source that reads or writes what is shared — Xmip
    Storage, what a process remembers — threads that state, also where it
    ends early: what it did before an error stays done. *)

Definition asks (S A : Type) : Type := S → S * result A string.

Definition answer {S A} (a : A) : asks S A := λ s, (s, Ok a).
Definition refuse {S A} (why : string) : asks S A := λ s, (s, Err why).

Definition asks_bind {S A B} (m : asks S A) (k : A → asks S B) : asks S B :=
  λ s, match m s with (s', Ok a) => k a s' | (s', Err why) => (s', Err why) end.

(** A result's own error ends the asking. *)
Definition of_result {S A} (r : result A string) : asks S A := λ s, (s, r).

Notation "'let!' x ':=' m 'in' k" := (asks_bind m (λ x, k))
  (at level 10, x pattern, m at level 100, k at level 200) : xmip_scope.

Lemma asks_bind_ok {S A B} (m : asks S A) (k : A → asks S B) s s' b :
  asks_bind m k s = (s', Ok b) → ∃ s1 a, m s = (s1, Ok a) ∧ k a s1 = (s', Ok b).
Proof. unfold asks_bind. destruct (m s) as [s1 [a|why]]; [eauto|done]. Qed.

(** ** Machine-width integers

    [u64], [u32] and [usize] are [N]; an addition or multiplication of the
    source that may pass the width is written with its wrap-around (the
    release build's), a saturating one with its ceiling. *)

Definition u32_max : N := 2 ^ 32 - 1.
Definition u64_max : N := 2 ^ 64 - 1.

Definition u64_wrap (n : N) : N := (n mod 2 ^ 64)%N.
Definition u64_add (a b : N) : N := u64_wrap (a + b).
Definition u64_mul (a b : N) : N := u64_wrap (a * b).
Definition u64_saturating_add (a b : N) : N := N.min (a + b) u64_max.
Definition u64_saturating_mul (a b : N) : N := N.min (a * b) u64_max.
Definition u32_saturating_add (a b : N) : N := N.min (a + b) u32_max.

Lemma u64_wrap_small (n : N) : (n < 2 ^ 64 → u64_wrap n = n)%N.
Proof. intros. unfold u64_wrap. by apply N.mod_small. Qed.

Lemma u64_add_small (a b : N) : (a + b < 2 ^ 64 → u64_add a b = a + b)%N.
Proof. apply u64_wrap_small. Qed.

Lemma u64_mul_small (a b : N) : (a * b < 2 ^ 64 → u64_mul a b = a * b)%N.
Proof. apply u64_wrap_small. Qed.

(** ** Lists *)

(** The sum of a list of quantities. *)
Definition sumN (l : list N) : N := foldr N.add 0%N l.

Lemma sumN_app l k : sumN (l ++ k) = (sumN l + sumN k)%N.
Proof. unfold sumN. induction l as [|x l IH]; simpl; lia. Qed.

Lemma sumN_cons x l : sumN (x :: l) = (x + sumN l)%N.
Proof. reflexivity. Qed.

Lemma sumN_elem_of x l : x ∈ l → (x ≤ sumN l)%N.
Proof. induction 1; rewrite sumN_cons; lia. Qed.

(** How many of a list satisfy a test. *)
Definition count {A} (f : A → bool) (l : list A) : nat := length (List.filter f l).

Lemma count_app {A} (f : A → bool) l k : count f (l ++ k) = count f l + count f k.
Proof. unfold count. by rewrite List.filter_app, length_app. Qed.

Lemma count_cons {A} (f : A → bool) x l :
  count f (x :: l) = (if f x then 1 else 0) + count f l.
Proof. unfold count. simpl. by destruct (f x). Qed.

Lemma count_nil {A} (f : A → bool) : count f [] = 0.
Proof. reflexivity. Qed.

Lemma count_length {A} (f : A → bool) l : count f l ≤ length l.
Proof. induction l; rewrite ?count_nil, ?count_cons; simpl; [lia|]. destruct (f _); lia. Qed.

Lemma count_pos {A} (f : A → bool) l : 0 < count f l ↔ ∃ x, x ∈ l ∧ f x = true.
Proof.
  induction l as [|y l IH]; rewrite ?count_nil, ?count_cons.
  - split; [lia|]. by intros (x & Hx%elem_of_nil & _).
  - split.
    + destruct (f y) eqn:Hy; [exists y; by split; [left|]|].
      intros (x & Hx & Hf)%IH. exists x. by split; [right|].
    + intros (x & [->|Hx]%elem_of_cons & Hf); [rewrite Hf; lia|].
      assert (0 < count f l) by (apply IH; eauto). destruct (f y); lia.
Qed.

Lemma count_mono {A} (f g : A → bool) l :
  (∀ x, x ∈ l → f x = true → g x = true) → count f l ≤ count g l.
Proof.
  induction l as [|y l IH]; intros Hfg; rewrite ?count_nil, ?count_cons; [lia|].
  assert (count f l ≤ count g l) by (apply IH; intros x Hx; apply Hfg; by right).
  destruct (f y) eqn:Hy; [|lia]. rewrite (Hfg y (list_elem_of_here _ _) Hy). lia.
Qed.

(** What a list is mapped to has no duplicates where no value is met twice. *)
Lemma count_NoDup {A B} `{EqDecision B} (f : A → B) l :
  NoDup (f <$> l) ↔ ∀ b, count (λ a, bool_decide (f a = b)) l ≤ 1.
Proof.
  induction l as [|x l IH]; csimpl.
  - split; [intros _ b; rewrite count_nil; lia|intros _; constructor].
  - rewrite NoDup_cons, IH. split.
    + intros [Hx Hl] b. rewrite count_cons. specialize (Hl b). case_bool_decide as Hb; [|lia].
      destruct (count (λ a, bool_decide (f a = b)) l) eqn:Hc; [lia|]. exfalso. apply Hx.
      assert (0 < count (λ a, bool_decide (f a = b)) l) as (a & Ha & Hab%bool_decide_eq_true)%count_pos by lia.
      apply list_elem_of_fmap. exists a. split; [congruence|done].
    + intros Hall. split.
      * intros (a & Ha & Hin)%list_elem_of_fmap. specialize (Hall (f x)). rewrite count_cons in Hall.
        rewrite bool_decide_eq_true_2 in Hall by done.
        assert (0 < count (λ a, bool_decide (f a = f x)) l) by (apply count_pos; exists a; rewrite bool_decide_eq_true; auto). lia.
      * intros b. specialize (Hall b). rewrite count_cons in Hall. lia.
Qed.

Lemma filter_all {A} (f : A → bool) l : (∀ x, x ∈ l → f x = true) → List.filter f l = l.
Proof.
  induction l as [|x l IH]; intros Hall; simpl; [done|].
  rewrite (Hall x (list_elem_of_here _ _)). f_equal. apply IH. intros y Hy. apply Hall. by right.
Qed.

(** A list's weight as one of it changes. *)
Lemma weight_insert {A} (f : A → nat) l i x y :
  l !! i = Some x → sum_list_with f (<[i := y]> l) + f x = sum_list_with f l + f y.
Proof.
  revert i. induction l as [|a l IH]; intros [|i]; simpl; [done..| |].
  - intros [= ->]. lia.
  - intros Hi. specialize (IH _ Hi). lia.
Qed.

Lemma weight_elem {A} (f : A → nat) l i x : l !! i = Some x → f x ≤ sum_list_with f l.
Proof.
  revert i. induction l as [|a l IH]; intros [|i]; simpl; [done..| |].
  - intros [= ->]. lia.
  - intros Hi. specialize (IH _ Hi). lia.
Qed.

Lemma omap_length {A B} (f : A → option B) l : length (omap f l) ≤ length l.
Proof. induction l as [|x l IH]; csimpl; [lia|]. destruct (f x); csimpl; lia. Qed.

(** ** Maps *)

Section maps.
Context `{Countable K} {A : Type}.
Implicit Types m : gmap K A.

Lemma size_insert_le i x m : size (<[i := x]> m) ≤ 1 + size m.
Proof. rewrite map_size_insert. case_match; simpl; unfold id; lia. Qed.

Lemma size_delete_le i m : size (delete i m) ≤ size m.
Proof. rewrite map_size_delete. case_match; simpl; unfold id; lia. Qed.
End maps.

(** ** Strings *)

Section strings.
Local Open Scope string_scope.

Lemma string_app_nil (s : string) : "" +:+ s = s.
Proof. reflexivity. Qed.

Lemma string_app_cons (a : ascii) (s1 s2 : string) : String a s1 +:+ s2 = String a (s1 +:+ s2).
Proof. reflexivity. Qed.

Lemma string_app_assoc (s1 s2 s3 : string) : (s1 +:+ s2) +:+ s3 = s1 +:+ (s2 +:+ s3).
Proof. induction s1 as [|a s1 IH]; [done|]. by rewrite !string_app_cons, IH. Qed.

(** Whether a string holds a character. *)
Fixpoint has (a : ascii) (s : string) : Prop :=
  match s with EmptyString => False | String b s => a = b ∨ has a s end.

Lemma has_app a (s1 s2 : string) : has a (s1 +:+ s2) ↔ has a s1 ∨ has a s2.
Proof.
  induction s1 as [|b s1 IH]; [rewrite string_app_nil; simpl; tauto|].
  rewrite string_app_cons. simpl. tauto.
Qed.

(** A separator the left parts do not hold splits a text one way. *)
Lemma split_at a (s1 s2 t1 t2 : string) :
  ¬ has a s1 → ¬ has a s2 → s1 +:+ String a t1 = s2 +:+ String a t2 → s1 = s2 ∧ t1 = t2.
Proof.
  revert s2. induction s1 as [|b s1 IH]; intros [|c s2] H1 H2 Heq; simpl in *;
    rewrite ?string_app_nil, ?string_app_cons in Heq.
  - by injection Heq as <-.
  - injection Heq as -> _. tauto.
  - injection Heq as -> _. tauto.
  - injection Heq as -> Heq. destruct (IH s2) as [-> ->]; tauto.
Qed.

Lemma app_same_length (s1 s2 t1 t2 : string) :
  String.length s1 = String.length s2 → s1 +:+ t1 = s2 +:+ t2 → s1 = s2 ∧ t1 = t2.
Proof.
  revert s2. induction s1 as [|b s1 IH]; intros [|c s2] Hl Heq;
    rewrite ?string_app_nil, ?string_app_cons in Heq; try done.
  injection Heq as -> Heq. injection Hl as Hl. by destruct (IH s2) as [-> ->].
Qed.
End strings.

(** ** Decisions *)

Lemma bool_decide_same (P Q : Prop) `{Decision P, Decision Q} :
  bool_decide P = bool_decide Q → P ↔ Q.
Proof. repeat case_bool_decide; intuition congruence. Qed.

(** ** Transition systems *)

Section steps.
Context {A : Type} (R : relation A).

(** What every step keeps, every run keeps. *)
Lemma rtc_invariant (P : A → Prop) :
  (∀ x y, P x → R x y → P y) → ∀ x y, P x → rtc R x y → P y.
Proof. intros Hstep x y Hx Hrun. induction Hrun; eauto. Qed.

(** A run along which a measure falls is at most as long as the measure. *)
Lemma measure_bounds (P : A → Prop) (m : A → nat) :
  (∀ x y, P x → R x y → P y ∧ m y < m x) →
  ∀ n x y, P x → nsteps R n x y → n + m y ≤ m x ∧ P y.
Proof.
  intros Hfalls n x y Hx Hrun. induction Hrun as [|n x y z Hxy _ IH]; [split; [lia|done]|].
  destruct (Hfalls _ _ Hx Hxy) as [Hy ?]. destruct (IH Hy). split; [lia|done].
Qed.
End steps.

(** ** Automation *)

Create HintDb xmip.
Create Rewrite HintDb xmip.

#[export] Hint Rewrite @count_app @count_cons @count_nil sumN_app sumN_cons : xmip.
#[export] Hint Rewrite @length_app @length_cons @length_nil : xmip.

(** Every [match] and [if] of the goal and the hypotheses taken apart. *)
Ltac case_all := repeat (case_match || case_decide); simplify_eq/=.

(** The counts and lengths of a state written out, and arithmetic. *)
Ltac counting := autorewrite with xmip in *; simpl in *; try lia.
