(* ===== verification/Text.v ===== *)
(** * Texts as the source reads them

    White space as [str::trim] and [str::is_empty] after it see it, in
    UTF-8's bytes; ASCII letters without their case; a prefix or a suffix taken off; and
    a [u64] read from its decimal digits, as [str::parse] reads one. These
    are the standard library's, under its names, with what a text the
    runtime wrote reads as. *)

From Stdlib Require Import Ascii String.
From stdpp Require Import base numbers list strings pretty.
From S2P Require Import Prelude.

Local Open Scope string_scope.

(** ** White space *)

(** A white space character as UTF-8 writes it: in one byte, two or three. *)
Definition space_1 (a : N) : bool := ((9 <=? a) && (a <=? 13) || (a =? 32))%N.
Definition space_2 (a b : N) : bool := ((a =? 194) && ((b =? 133) || (b =? 160)))%N.
Definition space_3 (a b c : N) : bool :=
  ((a =? 225) && (b =? 154) && (c =? 128) ||
   (a =? 226) && (b =? 128) && ((128 <=? c) && (c <=? 138) || (c =? 168) || (c =? 169) || (c =? 175)) ||
   (a =? 226) && (b =? 129) && (c =? 159) ||
   (a =? 227) && (b =? 128) && (c =? 128))%N.

(** [trim_start]: the text from its first character that is no white space. *)
Fixpoint trim_start (text : string) : string :=
  match text with
  | EmptyString => text
  | String a rest =>
      if space_1 (N_of_ascii a) then trim_start rest
      else match rest with
           | String b rest' =>
               if space_2 (N_of_ascii a) (N_of_ascii b) then trim_start rest'
               else match rest' with
                    | String c rest'' =>
                        if space_3 (N_of_ascii a) (N_of_ascii b) (N_of_ascii c) then trim_start rest''
                        else text
                    | EmptyString => text
                    end
           | EmptyString => text
           end
  end.

(** [text.trim().is_empty()]. *)
Definition blank (text : string) : bool := String.eqb (trim_start text) "".

(** [trim_end]: no character of UTF-8 but a white space one has a white
    space one's bytes within it, so what is left off is what is blank. *)
Fixpoint trim_end (text : string) : string :=
  if blank text then ""
  else match text with EmptyString => "" | String a rest => String a (trim_end rest) end.

Definition trim (text : string) : string := trim_end (trim_start text).

(** ** ASCII letters *)

(** [to_ascii_lowercase]. *)
Definition lower_char (a : ascii) : ascii :=
  let n := N_of_ascii a in if ((65 <=? n) && (n <=? 90))%N then ascii_of_N (n + 32) else a.

Fixpoint lower (text : string) : string :=
  match text with EmptyString => "" | String a rest => String (lower_char a) (lower rest) end.

(** [eq_ignore_ascii_case]. *)
Definition same_letters (a b : string) : bool := String.eqb (lower a) (lower b).

(** ** Prefixes *)

Fixpoint strip_prefix (prefix s : string) : option string :=
  match prefix, s with
  | EmptyString, _ => Some s
  | String a prefix, String b s => if Ascii.eqb a b then strip_prefix prefix s else None
  | String _ _, EmptyString => None
  end.

Definition starts_with (prefix s : string) : bool := bool_decide (is_Some (strip_prefix prefix s)).

(** [str::strip_suffix]. *)
Definition strip_suffix (suffix text : string) : option string :=
  let n := (String.length text - String.length suffix)%nat in
  if Nat.leb (String.length suffix) (String.length text) && String.eqb (substring n (String.length suffix) text) suffix
  then Some (substring 0 n text) else None.

(** ** A [u64] from its digits *)

Definition digit (a : ascii) : option N :=
  let n := N_of_ascii a in if ((48 <=? n) && (n <=? 57))%N then Some (n - 48)%N else None.

(** The digits after [read], checked for overflow at each. *)
Fixpoint digits (read : N) (text : string) : option N :=
  match text with
  | EmptyString => Some read
  | String a rest =>
      match digit a with
      | Some d => if (read * 10 + d <=? u64_max)%N then digits (read * 10 + d) rest else None
      | None => None
      end
  end.

(** [str::parse::<u64>]: one [+] may lead, and there is a digit. *)
Definition parse_u64 (text : string) : option N :=
  match text with
  | EmptyString => None
  | String a rest =>
      if Ascii.eqb a "+"%char then match rest with EmptyString => None | _ => digits 0 rest end
      else digits 0 text
  end.

(** ** Lemmas *)

Lemma strip_prefix_app p s : strip_prefix p (p +:+ s) = Some s.
Proof. induction p as [|a p IH]; [by destruct s|]. rewrite string_app_cons. simpl. by rewrite Ascii.eqb_refl. Qed.

Lemma strip_prefix_some p s rest : strip_prefix p s = Some rest → s = p +:+ rest.
Proof.
  revert s. induction p as [|a p IH]; intros s; [simpl; intros [= ->]; by rewrite string_app_nil|].
  destruct s as [|b s]; simpl; [done|]. destruct (Ascii.eqb_spec a b) as [->|]; [|done].
  intros Hs. by rewrite (IH _ Hs), string_app_cons.
Qed.

Lemma starts_with_app p s : starts_with p (p +:+ s) = true.
Proof. apply bool_decide_eq_true. rewrite strip_prefix_app. by eexists. Qed.

Lemma same_letters_refl a : same_letters a a = true.
Proof. apply String.eqb_refl. Qed.

(** Digits, and no other character. *)
Fixpoint all_digits (text : string) : bool :=
  match text with EmptyString => true | String a rest => bool_decide (is_Some (digit a)) && all_digits rest end.

Lemma digit_char d : (d < 10)%N → digit (pretty_N_char d) = Some d ∧ Ascii.eqb (pretty_N_char d) "+"%char = false.
Proof.
  intros Hd. assert (d = 0 ∨ d = 1 ∨ d = 2 ∨ d = 3 ∨ d = 4 ∨ d = 5 ∨ d = 6 ∨ d = 7 ∨ d = 8 ∨ d = 9)%N as Hcases by lia.
  by repeat destruct Hcases as [->|Hcases]; subst.
Qed.

Lemma digit_no_space a d : digit a = Some d → space_1 (N_of_ascii a) = false ∧ (N_of_ascii a < 58)%N.
Proof.
  unfold digit, space_1. destruct (andb _ _) eqn:Ha; [|done]. apply andb_true_iff in Ha as [?%N.leb_le ?%N.leb_le].
  intros _. split; [|lia]. apply orb_false_iff. split; [|by apply N.eqb_neq; lia].
  apply andb_false_iff. right. apply N.leb_gt. lia.
Qed.

Lemma pretty_go_all n s : all_digits s = true → all_digits (pretty_N_go n s) = true.
Proof.
  revert s. induction (N.lt_wf_0 n) as [n _ IH]. intros s Hs.
  destruct (decide (n = 0)%N) as [->|Hn]; [by rewrite pretty_N_go_0|].
  rewrite pretty_N_go_step by lia. apply IH; [apply N.div_lt; lia|]. simpl.
  destruct (digit_char (n `mod` 10)) as [-> _]; [by apply N.mod_lt|].
  by rewrite bool_decide_eq_true_2 by by eexists.
Qed.

Lemma pretty_all (n : N) : all_digits (pretty n) = true.
Proof. unfold pretty, pretty_N. case_decide; [done|]. by apply pretty_go_all. Qed.

(** Digits have no white space to be trimmed. *)
Lemma trim_start_digits text : all_digits text = true → trim_start text = text.
Proof.
  destruct text as [|a rest]; [done|]. simpl. intros [[d Hd]%bool_decide_eq_true Hrest]%andb_true_iff.
  destruct (digit_no_space a d Hd) as [-> Hlt].
  assert (∀ x, (x = 194 ∨ x = 225 ∨ x = 226 ∨ x = 227)%N → (N_of_ascii a =? x)%N = false) as Hno
    by (intros; apply N.eqb_neq; lia).
  destruct rest as [|b rest']; [done|]. unfold space_2. rewrite Hno by auto. simpl.
  destruct rest'; [done|]. unfold space_3. rewrite !Hno by auto. done.
Qed.

Lemma trim_end_digits text : all_digits text = true → trim_end text = text.
Proof.
  induction text as [|a rest IH]; [done|]. intros Hall. pose proof (trim_start_digits _ Hall) as Hs.
  cbn [trim_end]. unfold blank. rewrite Hs. simpl. simpl in Hall. apply andb_true_iff in Hall as [_ Hall].
  by rewrite IH.
Qed.

Lemma trim_digits text : all_digits text = true → trim text = text.
Proof. intros Hall. unfold trim. by rewrite trim_start_digits, trim_end_digits. Qed.

Lemma digits_go n s : (n ≤ u64_max)%N → digits 0 (pretty_N_go n s) = digits n s.
Proof.
  revert s. induction (N.lt_wf_0 n) as [n _ IH]. intros s Hn.
  destruct (decide (n = 0)%N) as [->|Hne]; [by rewrite pretty_N_go_0|].
  rewrite pretty_N_go_step by lia. rewrite IH; [|apply N.div_lt; lia|].
  - cbn [digits]. destruct (digit_char (n `mod` 10)) as [-> _]; [by apply N.mod_lt|].
    assert (n `div` 10 * 10 + n `mod` 10 = n)%N as ->.
    { pose proof (N.div_mod n 10 ltac:(done)). lia. }
    by rewrite (proj2 (N.leb_le n u64_max)).
  - pose proof (N.div_lt n 10). lia.
Qed.

(** A number written is read back. *)
Lemma parse_pretty (n : N) : (n ≤ u64_max)%N → parse_u64 (pretty n) = Some n.
Proof.
  intros Hn. pose proof (pretty_all n) as Hall. assert (digits 0 (pretty n) = Some n) as Hd.
  { unfold pretty, pretty_N. case_decide; [by subst|]. by rewrite digits_go. }
  unfold parse_u64. destruct (pretty n) as [|a rest] eqn:Hp.
  - simpl in Hd. injection Hd as <-. discriminate Hp.
  - simpl in Hall. apply andb_true_iff in Hall as [[d Ha]%bool_decide_eq_true _].
    destruct (Ascii.eqb_spec a "+"%char) as [->|]; [discriminate Ha|done].
Qed.

Lemma parse_bound text n : parse_u64 text = Some n → (n ≤ u64_max)%N.
Proof.
  assert (∀ text read n, (read ≤ u64_max)%N → digits read text = Some n → (n ≤ u64_max)%N) as Hgo.
  { clear. induction text as [|a rest IH]; intros read n Hr; simpl; [by intros [= <-]|].
    destruct (digit a); [|done]. destruct (N.leb_spec (read * 10 + n0) u64_max); [|done]. by apply IH. }
  unfold parse_u64. destruct text as [|a rest]; [done|]. case_match; [destruct rest|]; try done; by apply Hgo.
Qed.

(** ** Parts of a text *)

Lemma append_length a b : String.length (a +:+ b) = (String.length a + String.length b)%nat.
Proof. induction a as [|c a IH]; [done|]. exact (f_equal S IH). Qed.

Lemma length_substring n : ∀ s, (n ≤ String.length s)%nat → String.length (substring 0 n s) = n.
Proof. induction n as [|n IH]; intros [|a s] Hn; simpl in *; try lia. f_equal. apply IH. lia. Qed.

Lemma substring_whole s : substring 0 (String.length s) s = s.
Proof. induction s as [|a s IH]; simpl; [done|]. by rewrite IH. Qed.

Lemma substring_first a b : substring 0 (String.length a) (a +:+ b) = a.
Proof. induction a as [|c a IH]; [by destruct b|]. exact (f_equal (String c) IH). Qed.

Lemma substring_rest a b : substring (String.length a) (String.length b) (a +:+ b) = b.
Proof. induction a as [|c a IH]; [apply substring_whole|exact IH]. Qed.

Lemma substring_split n : ∀ s, (n ≤ String.length s)%nat → substring 0 n s +:+ substring n (String.length s - n) s = s.
Proof.
  induction n as [|n IH]; intros s Hn; [rewrite Nat.sub_0_r, (substring_whole s); by destruct s|].
  destruct s as [|a s]; simpl in *; [lia|].
  change (String a (substring 0 n s +:+ substring n (String.length s - n) s) = String a s). f_equal. apply IH. lia.
Qed.

Lemma strip_suffix_app a suffix : strip_suffix suffix (a +:+ suffix) = Some a.
Proof.
  unfold strip_suffix. rewrite append_length. replace (_ + _ - _)%nat with (String.length a) by lia.
  rewrite (proj2 (Nat.leb_le _ _)), substring_rest, String.eqb_refl by lia. simpl. by rewrite substring_first.
Qed.
