(* ===== verification/Tuning.v ===== *)
(** * [[tuning]]: what a node runs by

    [src/tuning.rs] and [src/tuning/declared.rs]: the declaration of every
    key with its kind and bounds, the values read through it, and what the
    pools and the chunk are calculated from them. The reading of a table
    against a declaration is [xcore::settings], which is not this
    repository's: it is the parameter [given], with what the declaration
    makes it promise as a hypothesis where a theorem needs it. *)

From stdpp Require Import base numbers list strings.
From S2P Require Import Prelude.

Local Open Scope N_scope.

(** A declared key's kind: an integer within bounds, or a duration. *)
Inductive Kind :=
  | Integer (minimum maximum : N)
  | Duration.

Record Setting := { name : string; kind : Kind }.

(** A pool's bounds: [pool::Limits]. *)
Record Limits := { most : N; idle : N }.

(** [Limits::per_hardware_thread]: the machine's hardware threads are given. *)
Definition per_hardware_thread (hardware_threads threads_per_hardware_thread idle : N) : Limits :=
  {| most := u64_saturating_mul threads_per_hardware_thread hardware_threads; idle := idle |}.

(** The keys of [TUNING] up to what the node's receives hold, in its order,
    each with its kind and bounds. *)
Definition TUNING_received : list Setting :=
  [ {| name := "tcp_segment"; kind := Integer 536 9000 |};
    {| name := "segments"; kind := Integer 1 1024 |};
    {| name := "receive_threads_per_hardware_thread"; kind := Integer 1 64 |};
    {| name := "receive_idle"; kind := Duration |};
    {| name := "receive_poll"; kind := Duration |};
    {| name := "receive_sweep"; kind := Duration |};
    {| name := "receive_backoff"; kind := Duration |};
    {| name := "receive_drain"; kind := Duration |};
    {| name := "receive_handshake"; kind := Duration |};
    {| name := "node_receive_threads_per_hardware_thread"; kind := Integer 1 256 |};
    {| name := "receive_chunks_per_thread"; kind := Integer 1 4096 |} ].

(** The rest of them. *)
Definition TUNING_sent : list Setting :=
  [ {| name := "send_threads_per_hardware_thread"; kind := Integer 1 64 |};
    {| name := "send_idle"; kind := Duration |};
    {| name := "send_lease"; kind := Duration |};
    {| name := "send_scan"; kind := Duration |};
    {| name := "failed_window"; kind := Integer 1 10000 |};
    {| name := "send_chunks_per_thread"; kind := Integer 1 65536 |};
    {| name := "stream_stall"; kind := Duration |};
    {| name := "storage_timeout"; kind := Duration |};
    {| name := "storage_pass_over"; kind := Duration |};
    {| name := "storage_beat"; kind := Duration |};
    {| name := "storage_silence"; kind := Duration |};
    {| name := "storage_kept"; kind := Integer 1048576 68719476736 |};
    {| name := "local_timeout"; kind := Duration |} ].

(** Every key of [TUNING]. *)
Definition TUNING : list Setting := TUNING_received ++ TUNING_sent.

(** An hour, in nanoseconds: the longest any duration may be. *)
Definition LONGEST : N := 3600 * 10 ^ 9.

Record Tuning := {
  tcp_segment : N;
  segments : N;
  receive_threads_per_hardware_thread : N;
  receive_idle : N;
  receive_poll : N;
  receive_sweep : N;
  receive_backoff : N;
  receive_drain : N;
  receive_handshake : N;
  node_receive_threads_per_hardware_thread : N;
  receive_chunks_per_thread : N;
  send_threads_per_hardware_thread : N;
  send_idle : N;
  send_lease : N;
  send_scan : N;
  failed_window : N;
  send_chunks_per_thread : N;
  stream_stall : N;
  storage_timeout : N;
  storage_pass_over : N;
  storage_beat : N;
  storage_silence : N;
  storage_kept : N;
  local_timeout : N
}.

(** A table read through a declaration, as [xcore::settings] answers it:
    each integer key's value and each duration's, in nanoseconds, or every
    problem in words. *)
Record Read := { integer : string → N; duration : string → N }.

(** A duration as the reading takes it: refused in words where it is not
    above nothing or above [LONGEST]. *)
Definition duration_problem (read : Read) (name : string) : list string :=
  if (duration read name =? 0) || (LONGEST <? duration read name)
  then [("[tuning] reads " +:+ name +:+ " as a duration above nothing and at most an hour")%string]
  else [].

(** The durations in the order [Tuning::read] asks for them. *)
Definition durations : list string :=
  [ "receive_idle"; "receive_poll"; "receive_sweep"; "receive_backoff";
    "receive_drain"; "receive_handshake"; "send_idle"; "send_lease";
    "send_scan"; "stream_stall"; "storage_timeout"; "storage_pass_over";
    "storage_beat"; "storage_silence"; "local_timeout" ]%string.

(** [Tuning::read], over what [xcore::settings] answered for the table. *)
Definition read (given : result Read (list string)) : result Tuning (list string) :=
  let? read := given in
  let problems := concat (duration_problem read <$> durations) in
  let tuning := {|
    tcp_segment := integer read "tcp_segment";
    segments := integer read "segments";
    receive_threads_per_hardware_thread := integer read "receive_threads_per_hardware_thread";
    receive_idle := duration read "receive_idle";
    receive_poll := duration read "receive_poll";
    receive_sweep := duration read "receive_sweep";
    receive_backoff := duration read "receive_backoff";
    receive_drain := duration read "receive_drain";
    receive_handshake := duration read "receive_handshake";
    node_receive_threads_per_hardware_thread :=
      integer read "node_receive_threads_per_hardware_thread";
    receive_chunks_per_thread := integer read "receive_chunks_per_thread";
    send_threads_per_hardware_thread := integer read "send_threads_per_hardware_thread";
    send_idle := duration read "send_idle";
    send_lease := duration read "send_lease";
    send_scan := duration read "send_scan";
    failed_window := integer read "failed_window";
    send_chunks_per_thread := integer read "send_chunks_per_thread";
    stream_stall := duration read "stream_stall";
    storage_timeout := duration read "storage_timeout";
    storage_pass_over := duration read "storage_pass_over";
    storage_beat := duration read "storage_beat";
    storage_silence := duration read "storage_silence";
    storage_kept := integer read "storage_kept";
    local_timeout := duration read "local_timeout"
  |} in
  match problems with [] => Ok tuning | _ => Err problems end.

(** [Tuning::chunk]. *)
Definition chunk (t : Tuning) : N := u64_mul (segments t) (tcp_segment t).

(** [Tuning::receive], [Tuning::node_receive] and [Tuning::send]. *)
Definition receive (hardware_threads : N) (t : Tuning) : Limits :=
  per_hardware_thread hardware_threads (receive_threads_per_hardware_thread t) (receive_idle t).

Definition node_receive (hardware_threads : N) (t : Tuning) : Limits :=
  per_hardware_thread hardware_threads
    (node_receive_threads_per_hardware_thread t) (receive_idle t).

Definition send (hardware_threads : N) (t : Tuning) : Limits :=
  per_hardware_thread hardware_threads (send_threads_per_hardware_thread t) (send_idle t).

(** What the declaration makes [xcore::settings] promise of every integer
    it answers: within the bounds declared for its key. *)
Definition within_bounds (r : Read) : Prop :=
  Forall (λ s, match kind s with
               | Integer lo hi => lo ≤ integer r (name s) ≤ hi
               | Duration => True
               end) TUNING.

(** What [Tuning::read] makes of a table the declaration takes: each
    integer within its bounds, each duration above nothing and at most an
    hour. *)
Record Sound (t : Tuning) : Prop := {
  sound_tcp_segment : 536 ≤ tcp_segment t ≤ 9000;
  sound_segments : 1 ≤ segments t ≤ 1024;
  sound_receive : 1 ≤ receive_threads_per_hardware_thread t ≤ 64;
  sound_node_receive : 1 ≤ node_receive_threads_per_hardware_thread t ≤ 256;
  sound_receive_chunks : 1 ≤ receive_chunks_per_thread t ≤ 4096;
  sound_send : 1 ≤ send_threads_per_hardware_thread t ≤ 64;
  sound_window : 1 ≤ failed_window t ≤ 10000;
  sound_send_chunks : 1 ≤ send_chunks_per_thread t ≤ 65536;
  sound_lease : 0 < send_lease t ≤ LONGEST;
  sound_scan : 0 < send_scan t ≤ LONGEST;
  sound_stall : 0 < stream_stall t ≤ LONGEST
}.

Lemma duration_problem_nil r n :
  duration_problem r n = [] → 0 < duration r n ≤ LONGEST.
Proof.
  unfold duration_problem.
  destruct (N.eqb_spec (duration r n) 0), (N.ltb_spec LONGEST (duration r n));
    simpl; intros; try done; lia.
Qed.

Lemma concat_nil_inv {A} (l : list (list A)) x : concat l = [] → x ∈ l → x = [].
Proof.
  induction l as [|y l IH]; simpl; [by intros _ ?%elem_of_nil|].
  intros [Hy Hl]%app_nil [->|Hx]%elem_of_cons; auto.
Qed.

Lemma no_problem_durations r n :
  concat (duration_problem r <$> durations) = [] → n ∈ durations →
  0 < duration r n ≤ LONGEST.
Proof.
  intros Hall Hin. apply duration_problem_nil.
  eapply concat_nil_inv; [done|]. by apply (list_elem_of_fmap_2 (duration_problem r)).
Qed.

Lemma read_sound r t : within_bounds r → read (Ok r) = Ok t → Sound t.
Proof.
  unfold read, result_bind. intros Hb.
  destruct (concat (duration_problem r <$> durations)) eqn:Hp; [|discriminate].
  intros [= <-]. unfold within_bounds, TUNING, TUNING_received, TUNING_sent in Hb; simpl in Hb.
  repeat (apply Forall_cons in Hb as [? Hb]); simpl in *.
  split; simpl; try lia; (apply no_problem_durations; [done|]); by apply (bool_decide_eq_true_1 _).
Qed.

Lemma chunk_exact t : Sound t → chunk t = segments t * tcp_segment t ∧ 0 < chunk t ≤ 9216000.
Proof.
  intros Ht. destruct Ht. unfold chunk.
  assert (segments t * tcp_segment t ≤ 1024 * 9000) by (apply N.mul_le_mono; lia).
  rewrite u64_mul_small by lia. split; [done|]. nia.
Qed.

(** ** A configuration that says nothing: the documented defaults *)

(** What the declaration's defaults read as, for the keys whose default is
    written in [src/tuning.rs]'s own documentation. *)
Definition default_read : Read := {|
  integer := λ k,
    if String.eqb k "tcp_segment" then 1460
    else if String.eqb k "segments" then 44
    else if String.eqb k "receive_threads_per_hardware_thread" then 2
    else if String.eqb k "node_receive_threads_per_hardware_thread" then 4
    else if String.eqb k "receive_chunks_per_thread" then 8
    else if String.eqb k "send_threads_per_hardware_thread" then 2
    else if String.eqb k "failed_window" then 100
    else if String.eqb k "send_chunks_per_thread" then 16
    else 67108864;
  duration := λ k,
    if String.eqb k "send_lease" then 30 * 10 ^ 9
    else if String.eqb k "stream_stall" then 10 ^ 8
    else 10 ^ 9
|}.

Definition default_tuning : Tuning :=
  match read (Ok default_read) with
  | Ok t => t
  | Err _ => {| tcp_segment := 0; segments := 0; receive_threads_per_hardware_thread := 0;
      receive_idle := 0; receive_poll := 0; receive_sweep := 0; receive_backoff := 0;
      receive_drain := 0; receive_handshake := 0;
      node_receive_threads_per_hardware_thread := 0; receive_chunks_per_thread := 0;
      send_threads_per_hardware_thread := 0; send_idle := 0; send_lease := 0; send_scan := 0;
      failed_window := 0; send_chunks_per_thread := 0; stream_stall := 0;
      storage_timeout := 0; storage_pass_over := 0; storage_beat := 0; storage_silence := 0;
      storage_kept := 0; local_timeout := 0 |}
  end.

Lemma default_within_bounds : within_bounds default_read.
Proof. unfold within_bounds, TUNING, TUNING_received, TUNING_sent; simpl. repeat constructor; vm_compute; intuition discriminate. Qed.

Lemma default_sound : Sound default_tuning.
Proof. apply (read_sound default_read); [apply default_within_bounds|reflexivity]. Qed.
