(* ===== verification/Budget.v ===== *)
(** * What a node holds at once: [src/budget.rs]

    A [Budget] is a quantity held at once and at most [most] of it: the
    arrivals carried, the bytes of Streams the carries hold, the bytes of
    Messages the sends hold. [hold] and [hold_up_to] wait while there is no
    room; each is modelled as the test its loop makes under the lock,
    answering [None] where the caller goes on waiting. The holders of a
    budget — every live [Held] — are a list of charges beside it, and
    [budget_step] is one critical section of one of them, in any order. *)

From stdpp Require Import base numbers list relations.
From S2P Require Import Prelude Tuning.

Local Open Scope N_scope.

(** ** The budget and its operations *)

Record Budget := { most : N; held : N }.

Definition new (most : N) : Budget := {| most := N.max most 1; held := 0 |}.

Definition with_held (b : Budget) (h : N) : Budget := {| most := most b; held := h |}.

(** [Budget::hold], one look under the lock: [None] where it waits. The
    addition is [u64]'s, with its wrap-around. *)
Definition hold (b : Budget) (charge : N) : option (Budget * N) :=
  let charge := N.min charge (most b) in
  if (0 <? held b) && (most b <? u64_add (held b) charge) then None
  else Some (with_held b (u64_add (held b) charge), charge).

(** [Budget::hold_up_to], one look under the lock: [None] where it waits. *)
Definition hold_up_to (b : Budget) (wanted : N) : option (Budget * N) :=
  let wanted := N.min (N.max wanted 1) (most b) in
  if most b <=? held b then None
  else
    let charge := N.min wanted (most b - held b) in
    Some (with_held b (u64_add (held b) charge), charge).

(** [Budget::release]: nothing for a charge of zero, and never below zero. *)
Definition release (b : Budget) (charge : N) : Budget :=
  if charge =? 0 then b else with_held b (held b - charge).

(** [Held::split]: what is left of the hold, and the hold split off. *)
Definition split (mine charge : N) : N * N :=
  let charge := N.min charge mine in (mine - charge, charge).

(** ** The node's budgets *)

Definition CARRY_CHUNKS : N := 8.
Definition STREAM_CHUNKS : N := 6.
Definition NODE_RECEIVE_THREADS_PER_HARDWARE_THREAD : N := 4.
Definition RECEIVE_CHUNKS_PER_THREAD : N := CARRY_CHUNKS.
Definition SEND_CHUNKS_PER_THREAD : N := 16.

Record NodeBudget := { carries : Budget; received : Budget; sent : Budget; chunk : N }.

(** [NodeBudget::of], on a machine of [hardware_threads]. *)
Definition of_tuning (hardware_threads : N) (t : Tuning) : NodeBudget :=
  let chunk := Tuning.chunk t in
  let carries := Tuning.most (Tuning.node_receive hardware_threads t) in
  let senders := Tuning.most (Tuning.send hardware_threads t) in
  {| carries := new carries;
     received := new (u64_mul (u64_mul carries (receive_chunks_per_thread t)) chunk);
     sent := new (u64_mul (u64_mul senders (send_chunks_per_thread t)) chunk);
     chunk := chunk |}.

(** [NodeBudget::carry]. *)
Definition carry (n : NodeBudget) : N := u64_mul CARRY_CHUNKS (chunk n).

(** [NodeBudget::send]. *)
Definition send_charge (n : NodeBudget) (length : N) (gathered : bool) : N :=
  let reading := u64_mul STREAM_CHUNKS (N.min length (chunk n)) in
  if gathered then u64_saturating_add length reading else reading.

(** ** Every interleaving of a budget's holders *)

(** A budget with the charge of each live [Held] of it. *)
Record Holders := { budget : Budget; charges : list N }.

Inductive budget_step : relation Holders :=
  | step_hold b cs wanted b' charge :
      hold b wanted = Some (b', charge) →
      budget_step {| budget := b; charges := cs |} {| budget := b'; charges := charge :: cs |}
  | step_hold_up_to b cs wanted b' charge :
      hold_up_to b wanted = Some (b', charge) →
      budget_step {| budget := b; charges := cs |} {| budget := b'; charges := charge :: cs |}
  | step_split b cs1 mine cs2 wanted left one :
      split mine wanted = (left, one) →
      budget_step {| budget := b; charges := cs1 ++ mine :: cs2 |}
                  {| budget := b; charges := cs1 ++ left :: one :: cs2 |}
  | step_drop b cs1 mine cs2 :
      budget_step {| budget := b; charges := cs1 ++ mine :: cs2 |}
                  {| budget := release b mine; charges := cs1 ++ cs2 |}.

(** The budget holds exactly its holders' charges, and no more than its most. *)
Record budget_ok (limit : N) (s : Holders) : Prop := {
  ok_limit : most (budget s) = limit;
  ok_sum : held (budget s) = sumN (charges s);
  ok_bound : held (budget s) ≤ limit
}.

Lemma hold_granted limit b wanted b' charge :
  most b = limit → held b ≤ limit → 1 ≤ limit < 2 ^ 63 →
  hold b wanted = Some (b', charge) →
  charge = N.min wanted limit ∧ most b' = limit ∧
  held b' = held b + charge ∧ held b + charge ≤ limit.
Proof.
  unfold hold, with_held. intros <- Hh Hl.
  rewrite u64_add_small by lia.
  destruct (N.ltb_spec 0 (held b)), (N.ltb_spec (most b) (held b + N.min wanted (most b)));
    simpl; intros; simplify_eq/=; lia.
Qed.

Lemma hold_up_to_granted limit b wanted b' charge :
  most b = limit → held b ≤ limit → 1 ≤ limit < 2 ^ 63 →
  hold_up_to b wanted = Some (b', charge) →
  most b' = limit ∧ held b' = held b + charge ∧ held b + charge ≤ limit ∧
  1 ≤ charge ≤ N.max wanted 1.
Proof.
  unfold hold_up_to, with_held. intros <- Hh Hl.
  destruct (N.leb_spec (most b) (held b)); [done|].
  rewrite u64_add_small by lia. intros; simplify_eq/=. lia.
Qed.

Lemma budget_step_ok limit s s' :
  1 ≤ limit < 2 ^ 63 → budget_ok limit s → budget_step s s' → budget_ok limit s'.
Proof.
  intros Hl [Hm Hs Hb] Hstep.
  destruct Hstep as [b cs w b' c H|b cs w b' c H|b cs1 m cs2 w l o H|b cs1 m cs2]; simpl in *.
  - apply (hold_granted limit) in H; [|done..]. split; simpl; counting.
  - apply (hold_up_to_granted limit) in H; [|done..]. split; simpl; counting.
  - unfold split in H. simplify_eq. split; simpl; counting.
  - unfold release. destruct (N.eqb_spec m 0); split; simpl; counting.
Qed.

Lemma budget_reachable_ok limit s :
  1 ≤ limit < 2 ^ 63 →
  rtc budget_step {| budget := new limit; charges := [] |} s → budget_ok limit s.
Proof.
  intros Hl Hrun. eapply (rtc_invariant budget_step (budget_ok limit)); [|shelve|exact Hrun].
  - intros x y Hx Hxy. by eapply budget_step_ok.
  Unshelve. split; simpl; [lia|done|lia].
Qed.

(** ** The properties *)

(** C2. However a node's carries and sends hold, split and let go of a
    budget of at most 2^63 - 1, in every order: what the budget says is held
    is exactly the sum of its live holds, and never above its most. *)
Theorem budget_never_exceeded limit s :
  1 ≤ limit < 2 ^ 63 →
  rtc budget_step {| budget := new limit; charges := [] |} s →
  held (budget s) = sumN (charges s) ∧ sumN (charges s) ≤ most (budget s).
Proof. intros Hl Hrun. apply budget_reachable_ok in Hrun as [Hm Hs Hb]; [|done]. lia. Qed.

Lemma budget_never_exceeded_witness :
  held {| most := 10; held := 7 |} = sumN [4; 3] ∧ sumN [4; 3] ≤ 10.
Proof.
  apply (budget_never_exceeded 10 {| budget := {| most := 10; held := 7 |}; charges := [4; 3] |});
    [lia|].
  eapply rtc_l; [apply (step_hold _ _ 3); reflexivity|].
  eapply rtc_l; [apply (step_hold _ _ 4); reflexivity|]. apply rtc_refl.
Defined.

(** A charge waits only behind holders, and a charge of any size goes:
    where a reachable budget does not grant [hold], some live hold keeps a
    charge, and once those are let go it is granted — all of the budget,
    alone, where the charge is above it. *)
Theorem hold_waits_only_for_holders limit s wanted :
  1 ≤ limit < 2 ^ 63 →
  rtc budget_step {| budget := new limit; charges := [] |} s →
  (hold (budget s) wanted = None → ∃ charge, charge ∈ charges s ∧ 0 < charge) ∧
  (∃ free, rtc budget_step s free ∧ charges free = [] ∧
    hold (budget free) wanted =
      Some ({| most := limit; held := N.min wanted limit |}, N.min wanted limit)).
Proof.
  intros Hl Hrun. apply budget_reachable_ok in Hrun as Hok; [|done]. split.
  - intros Hnone. destruct Hok as [Hm Hs _]. unfold hold in Hnone.
    destruct (N.ltb_spec 0 (held (budget s))); simpl in Hnone; [|done].
    clear Hrun Hnone. induction (charges s) as [|c cs IH] in Hs, H |- *; [simpl in Hs; lia|].
    destruct (N.ltb_spec 0 c); [exists c; split; [left|done]|].
    destruct (IH) as (c' & Hc' & ?); [counting|counting|exists c'; split; [by right|done]].
  - assert (∀ cs b, budget_ok limit {| budget := b; charges := cs |} →
      ∃ b', rtc budget_step {| budget := b; charges := cs |} {| budget := b'; charges := [] |})
      as Hfree.
    { induction cs as [|c cs IH]; intros b Hb; [by eexists|].
      pose proof (step_drop b [] c cs) as Hdrop.
      destruct (IH (release b c)) as (b' & Hrun'); [by eapply budget_step_ok|].
      exists b'. by eapply rtc_l. }
    destruct s as [b cs]. destruct (Hfree cs b Hok) as (b' & Hrun').
    exists {| budget := b'; charges := [] |}. split; [done|]. split; [done|].
    assert (budget_ok limit {| budget := b'; charges := [] |}) as [Hm' Hs' _].
    { eapply (rtc_invariant budget_step (budget_ok limit)); [|exact Hok|exact Hrun'].
      intros. by eapply budget_step_ok. }
    simpl in *. unfold hold, with_held. rewrite Hm', Hs'. simpl.
    rewrite u64_add_small by lia. do 2 f_equal; f_equal; lia.
Qed.

Lemma hold_waits_only_for_holders_witness :
  hold {| most := 10; held := 3 |} 1000 = None ∧
  ∃ free, rtc budget_step {| budget := {| most := 10; held := 3 |}; charges := [3] |} free ∧
    charges free = [] ∧ hold (budget free) 1000 = Some ({| most := 10; held := 10 |}, 10).
Proof.
  split; [reflexivity|].
  apply (hold_waits_only_for_holders 10
    {| budget := {| most := 10; held := 3 |}; charges := [3] |} 1000); [lia|].
  eapply rtc_l; [apply (step_hold _ _ 3); reflexivity|]. apply rtc_refl.
Defined.

(** The node's byte budgets never wrap: by any [[tuning]] its
    declaration takes, on a machine of at most 2^16 hardware threads, each
    is the exact product the source writes, at least one, and below 2^63,
    where [budget_never_exceeded] holds. *)
Theorem node_budget_exact hardware_threads t :
  Sound t → 1 ≤ hardware_threads ≤ 2 ^ 16 →
  let n := of_tuning hardware_threads t in
  most (carries n) = node_receive_threads_per_hardware_thread t * hardware_threads ∧
  most (received n) = most (carries n) * receive_chunks_per_thread t * (segments t * tcp_segment t) ∧
  most (sent n) = send_threads_per_hardware_thread t * hardware_threads
                  * send_chunks_per_thread t * (segments t * tcp_segment t) ∧
  carry n = CARRY_CHUNKS * (segments t * tcp_segment t) ∧
  1 ≤ most (carries n) < 2 ^ 63 ∧ 1 ≤ most (received n) < 2 ^ 63 ∧ 1 ≤ most (sent n) < 2 ^ 63.
Proof.
  intros Ht Hh n. destruct (chunk_exact t Ht) as [Hc Hcb]. destruct Ht.
  assert (1 ≤ node_receive_threads_per_hardware_thread t * hardware_threads ≤ 256 * 2 ^ 16) as H1
    by (split; [|apply N.mul_le_mono]; nia).
  assert (1 ≤ send_threads_per_hardware_thread t * hardware_threads ≤ 64 * 2 ^ 16) as H2
    by (split; [|apply N.mul_le_mono]; nia).
  unfold n, of_tuning, new, carry, CARRY_CHUNKS; simpl.
  unfold Tuning.most, per_hardware_thread, u64_saturating_mul, u64_max; simpl.
  set (a := node_receive_threads_per_hardware_thread t * hardware_threads) in *.
  set (s := send_threads_per_hardware_thread t * hardware_threads) in *.
  rewrite !(N.min_l _ (2 ^ 64 - 1)) by lia. rewrite <- Hc.
  assert (1 ≤ a * receive_chunks_per_thread t ≤ 256 * 2 ^ 16 * 4096)
    by (split; [nia|apply N.mul_le_mono; lia]).
  assert (1 ≤ s * send_chunks_per_thread t ≤ 64 * 2 ^ 16 * 65536)
    by (split; [nia|apply N.mul_le_mono; lia]).
  assert (1 ≤ a * receive_chunks_per_thread t * Tuning.chunk t ≤ 256 * 2 ^ 16 * 4096 * 9216000)
    by (split; [nia|apply N.mul_le_mono; lia]).
  assert (1 ≤ s * send_chunks_per_thread t * Tuning.chunk t ≤ 64 * 2 ^ 16 * 65536 * 9216000)
    by (split; [nia|apply N.mul_le_mono; lia]).
  rewrite (u64_mul_small a), (u64_mul_small s) by lia.
  rewrite !u64_mul_small by lia.
  rewrite !N.max_l by lia. repeat split; lia.
Qed.

Lemma node_budget_exact_witness :
  most (sent (of_tuning 8 default_tuning)) =
    send_threads_per_hardware_thread default_tuning * 8
    * send_chunks_per_thread default_tuning
    * (segments default_tuning * tcp_segment default_tuning).
Proof. apply (node_budget_exact 8 default_tuning default_sound). lia. Defined.
