(* ===== verification/Pool.v ===== *)
(** * A dynamic, bounded pool of threads: [src/pool.rs]

    The pool's [State] and every critical section over it: [run] lines work
    up and starts a thread where work waits and the pool is below its most;
    [serve_top] is one pass of a thread's loop under the lock; [woken] is
    what a thread does once its wait returns; [drop_pool] closes the pool.
    The machine [pool_step] interleaves the pool's owner with any number of
    threads, each where it stands ([pc]). A condition variable wakes one
    waiter or all of them, and may wake one for no reason; a wait may time
    out whenever it is waited. A piece of work that panics ends that piece
    and not its thread ([catch_unwind]), so it ends as any other does, and
    [Counted]'s own counting-out is never reached. *)

From stdpp Require Import base numbers list relations.
From S2P Require Import Prelude Tuning.

Section pool.
Context {W : Type}.
Implicit Types w : W.

(** ** The state and its critical sections *)

Record State := { queued : list W; threads : nat; waiting : nat; closed : bool }.

Record Pool := { state : State; most : nat }.

(** Where a thread of the pool stands: at the lock, with a piece of work,
    in its wait, woken from it and at the lock, or ended. *)
Inductive pc :=
  | Ready
  | Running (w : W)
  | Sleeping
  | Woken (timed_out : bool)
  | Ended.

(** [Pool::new]: its first thread started. *)
Definition new (limits_most : nat) : Pool :=
  {| state := {| queued := []; threads := 1; waiting := 0; closed := false |};
     most := Nat.max limits_most 1 |}.

(** [Pool::run], under the lock: the state, and whether a thread is started. *)
Definition run (p : Pool) (work : W) : Pool * bool :=
  let st := state p in
  let queued := queued st ++ [work] in
  let start := (waiting st <? length queued) && (threads st <? most p) in
  ({| state := {| queued := queued;
                  threads := if start then S (threads st) else threads st;
                  waiting := waiting st;
                  closed := closed st |};
      most := most p |}, start).

(** [Drop for Pool]. *)
Definition drop_pool (st : State) : State :=
  {| queued := queued st; threads := threads st; waiting := waiting st; closed := true |}.

(** A thread counted out. *)
Definition counted_out (st : State) : State :=
  {| queued := queued st; threads := threads st - 1; waiting := waiting st; closed := closed st |}.

(** [serve]'s loop from its top, under the lock, to where it lets go of it:
    work taken, ended, or waiting. *)
Definition serve_top (st : State) : State * pc :=
  match queued st with
  | w :: rest =>
      ({| queued := rest; threads := threads st; waiting := waiting st; closed := closed st |},
       Running w)
  | [] =>
      if closed st then (counted_out st, Ended)
      else ({| queued := []; threads := threads st; waiting := S (waiting st);
               closed := false |}, Sleeping)
  end.

(** [serve] once its wait returned, under the lock. *)
Definition woken (timed_out : bool) (st : State) : State * pc :=
  let st := {| queued := queued st; threads := threads st; waiting := waiting st - 1;
               closed := closed st |} in
  if timed_out && bool_decide (queued st = []) && (1 <? threads st)
  then (counted_out st, Ended)
  else serve_top st.

(** ** Every interleaving *)

(** The pool, its threads in the order they were started, every piece of
    work handed to it and every piece taken up, in order. *)
Record Machine := { pool : Pool; pcs : list pc; handed : list W; taken : list W }.

Definition start_machine (limits_most : nat) : Machine :=
  {| pool := new limits_most; pcs := [Ready]; handed := []; taken := [] |}.

(** [notify_one]: one waiter woken where there is one. *)
Inductive notified : list pc → list pc → Prop :=
  | notified_one l1 l2 : notified (l1 ++ Sleeping :: l2) (l1 ++ Woken false :: l2)
  | notified_none l : Sleeping ∉ l → notified l l.

Definition wake (p : pc) : pc := match p with Sleeping => Woken false | _ => p end.

Definition with_state (p : Pool) (st : State) : Pool := {| state := st; most := most p |}.

(** What a thread took up, if it did. *)
Definition takes (p : pc) : list W := match p with Running w => [w] | _ => [] end.

(** A step of the pool's owner: work handed to it while it is open, or the
    pool dropped. *)
Inductive owner_step : relation Machine :=
  | owner_run p ts ts' h tk w p' start :
      closed (state p) = false → run p w = (p', start) → notified ts ts' →
      owner_step {| pool := p; pcs := ts; handed := h; taken := tk |}
                 {| pool := p'; pcs := ts' ++ (if start then [Ready] else []);
                    handed := h ++ [w]; taken := tk |}
  | owner_drop p ts h tk :
      closed (state p) = false →
      owner_step {| pool := p; pcs := ts; handed := h; taken := tk |}
                 {| pool := with_state p (drop_pool (state p)); pcs := map wake ts;
                    handed := h; taken := tk |}.

(** A step of one of its threads. *)
Inductive thread_step : relation Machine :=
  | thread_top p l1 l2 h tk st' q :
      serve_top (state p) = (st', q) →
      thread_step {| pool := p; pcs := l1 ++ Ready :: l2; handed := h; taken := tk |}
                  {| pool := with_state p st'; pcs := l1 ++ q :: l2; handed := h;
                     taken := tk ++ takes q |}
  | thread_done p l1 w l2 h tk :
      thread_step {| pool := p; pcs := l1 ++ Running w :: l2; handed := h; taken := tk |}
                  {| pool := p; pcs := l1 ++ Ready :: l2; handed := h; taken := tk |}
  | thread_woken p l1 t l2 h tk st' q :
      woken t (state p) = (st', q) →
      thread_step {| pool := p; pcs := l1 ++ Woken t :: l2; handed := h; taken := tk |}
                  {| pool := with_state p st'; pcs := l1 ++ q :: l2; handed := h;
                     taken := tk ++ takes q |}.

(** A wait that times out, or returns for no reason. *)
Inductive wait_step : relation Machine :=
  | wait_over p l1 t l2 h tk :
      wait_step {| pool := p; pcs := l1 ++ Sleeping :: l2; handed := h; taken := tk |}
                {| pool := p; pcs := l1 ++ Woken t :: l2; handed := h; taken := tk |}.

Definition pool_step : relation Machine :=
  λ m m', owner_step m m' ∨ thread_step m m' ∨ wait_step m m'.

(** ** The invariant *)

Definition live (p : pc) : bool := match p with Ended => false | _ => true end.
Definition waits (p : pc) : bool := match p with Sleeping | Woken _ => true | _ => false end.
Definition asleep (p : pc) : bool := match p with Sleeping => true | _ => false end.
(** A thread that will look at the queue without any wait timing out. *)
Definition active (p : pc) : bool :=
  match p with Ready | Running _ | Woken _ => true | _ => false end.

Record pool_ok (m : Machine) : Prop := {
  ok_threads : threads (state (pool m)) = count live (pcs m);
  ok_waiting : waiting (state (pool m)) = count waits (pcs m);
  ok_most : threads (state (pool m)) ≤ most (pool m);
  ok_never_none : closed (state (pool m)) = false → 1 ≤ threads (state (pool m));
  ok_closed : closed (state (pool m)) = true → count asleep (pcs m) = 0;
  ok_active : queued (state (pool m)) ≠ [] → 0 < count active (pcs m);
  ok_order : handed m = taken m ++ queued (state (pool m))
}.

Lemma count_live_split l : count live l = count active l + count asleep l.
Proof. induction l as [|[] l IH]; rewrite ?count_nil, ?count_cons; simpl; lia. Qed.

Lemma count_waits_split l : count waits l ≤ count live l.
Proof. induction l as [|[] l IH]; rewrite ?count_nil, ?count_cons; simpl; lia. Qed.

Lemma no_sleeper l : Sleeping ∉ l → count asleep l = 0.
Proof.
  induction l as [|p l IH]; [done|]. rewrite not_elem_of_cons, count_cons. intros [? ?].
  destruct p; simpl; try (by apply IH). congruence.
Qed.

Lemma notified_counts ts ts' :
  notified ts ts' →
  count live ts' = count live ts ∧ count waits ts' = count waits ts ∧
  (0 < count asleep ts → 0 < count active ts') ∧
  (0 < count active ts → 0 < count active ts').
Proof.
  intros [l1 l2|l Hno%no_sleeper]; [|lia].
  rewrite !count_app, !count_cons. simpl. lia.
Qed.

Lemma wake_counts ts :
  count live (map wake ts) = count live ts ∧ count waits (map wake ts) = count waits ts ∧
  count asleep (map wake ts) = 0 ∧ count active ts ≤ count active (map wake ts).
Proof. induction ts as [|[] ts IH]; simpl; rewrite ?count_nil, ?count_cons; simpl; lia. Qed.

Ltac pool_counts :=
  rewrite ?count_app, ?count_cons, ?count_nil, ?length_app in *; simpl in *.

(** A field of the invariant, after a step: counted, or by the queue's shape. *)
Ltac pool_done :=
  simpl; pool_counts;
  try match goal with H : queued _ = [] |- _ => rewrite H end;
  rewrite ?app_nil_r, <- ?app_assoc; auto; try congruence; try lia;
  try (let H' := fresh in intros H';
       repeat match goal with H : _ → _ |- _ => specialize (H H') end; lia).

Lemma owner_step_ok m m' : pool_ok m → owner_step m m' → pool_ok m'.
Proof.
  intros [Ht Hw Hm Hn Hc Ha Ho] Hstep.
  destruct Hstep as [p ts ts' h tk w p' start Hopen Hrun Hnot|p ts h tk Hopen]; simpl in *.
  - apply notified_counts in Hnot as (Hl & Hs & Hwake & Hact).
    pose proof (count_live_split ts). specialize (Hn Hopen).
    unfold run in Hrun. simplify_eq. destruct (_ && _) eqn:Hstart; split; simpl; pool_counts.
    all: try (by rewrite ?Ho, <- app_assoc); try congruence.
    all: try (apply andb_true_iff in Hstart as [_ ?%Nat.ltb_lt]); lia.
  - pose proof (wake_counts ts) as (Hl & Hs & Hz & Hact).
    split; simpl; try lia; auto. intros ?%Ha. lia.
Qed.

(** What a thread at the lock or woken leaves of the pool's invariant. *)
Lemma serve_top_ok p l1 l2 h tk st' q :
  pool_ok {| pool := p; pcs := l1 ++ Ready :: l2; handed := h; taken := tk |} →
  serve_top (state p) = (st', q) →
  pool_ok {| pool := with_state p st'; pcs := l1 ++ q :: l2; handed := h; taken := tk ++ takes q |}.
Proof.
  intros [Ht Hw Hm Hn Hc Ha Ho] Htop. unfold serve_top in Htop. simpl in *. pool_counts.
  destruct (queued (state p)) as [|w rest] eqn:Hq.
  - destruct (closed (state p)) eqn:Hclosed; simplify_eq/=;
      split; pool_done.
  - simplify_eq/=. split; pool_done.
Qed.

Lemma woken_ok p l1 t l2 h tk st' q :
  pool_ok {| pool := p; pcs := l1 ++ Woken t :: l2; handed := h; taken := tk |} →
  woken t (state p) = (st', q) →
  pool_ok {| pool := with_state p st'; pcs := l1 ++ q :: l2; handed := h; taken := tk ++ takes q |}.
Proof.
  intros Hok Hwoken. unfold woken in Hwoken. simpl in Hwoken.
  destruct (t && bool_decide (queued (state p) = []) && (1 <? threads (state p))) eqn:Hends.
  - destruct Hok as [Ht Hw Hm Hn Hc Ha Ho]. simplify_eq/=. pool_counts.
    apply andb_true_iff in Hends as [[_ Hq%bool_decide_eq_true]%andb_true_iff H1%Nat.ltb_lt].
    split; pool_done.
  - eapply (serve_top_ok (with_state p _)); [|exact Hwoken].
    destruct Hok as [Ht Hw Hm Hn Hc Ha Ho]. simpl in *. pool_counts.
    split; pool_done.
Qed.

Lemma thread_step_ok m m' : pool_ok m → thread_step m m' → pool_ok m'.
Proof.
  intros Hok Hstep. destruct Hstep; [by eapply serve_top_ok| |by eapply woken_ok].
  destruct Hok as [Ht Hw Hm Hn Hc Ha Ho]. simpl in *. pool_counts.
  split; pool_done.
Qed.

Lemma wait_step_ok m m' : pool_ok m → wait_step m m' → pool_ok m'.
Proof.
  intros Hok Hstep. destruct Hstep. destruct Hok as [Ht Hw Hm Hn Hc Ha Ho].
  simpl in *. pool_counts. split; pool_done.
Qed.

Lemma pool_step_ok m m' : pool_ok m → pool_step m m' → pool_ok m'.
Proof. intros Hok [?|[?|?]]; eauto using owner_step_ok, thread_step_ok, wait_step_ok. Qed.

Lemma pool_step_same_most m m' : pool_step m m' → most (pool m') = most (pool m).
Proof. by intros [[]|[[]|[]]]; unfold run in *; simplify_eq/=. Qed.

Lemma pool_reachable_ok n m : rtc pool_step (start_machine n) m → pool_ok m ∧ most (pool m) = Nat.max n 1.
Proof.
  intros Hrun. eapply (rtc_invariant pool_step (λ m, pool_ok m ∧ most (pool m) = Nat.max n 1));
    [|shelve|exact Hrun].
  - intros x y [Hok Hm] Hxy. split; [by eapply pool_step_ok|].
    rewrite <- Hm. by apply pool_step_same_most.
  Unshelve. split; [|done]. split; simpl; rewrite ?count_cons, ?count_nil; simpl; auto; lia.
Qed.

(** ** The pool let go of: it drains, and ends *)

Definition weight (p : pc) : nat :=
  match p with Running _ => 2 | Ready | Woken _ => 1 | _ => 0 end.

(** What is left to do: three for each piece queued, and each thread's. *)
Definition left (m : Machine) : nat :=
  3 * length (queued (state (pool m))) + sum_list_with weight (pcs m).

Definition closing (m : Machine) : Prop := pool_ok m ∧ closed (state (pool m)) = true.

Lemma closing_steps m m' :
  closing m → pool_step m m' → thread_step m m'.
Proof.
  intros [[? ? ? ? Hc ? ?] Hclosed] [Ho|[Ht|Hs]]; [|done|].
  - destruct Ho; simpl in *; congruence.
  - destruct Hs; simpl in *. specialize (Hc Hclosed). pool_counts. lia.
Qed.

Lemma closing_falls m m' : closing m → pool_step m m' → closing m' ∧ left m' < left m ∧ handed m' = handed m.
Proof.
  intros Hm Hstep. pose proof (closing_steps _ _ Hm Hstep) as Hthread.
  destruct Hm as [Hok Hclosed]. assert (pool_ok m') as Hok' by eauto using pool_step_ok.
  clear Hstep. unfold closing. destruct Hthread as [p l1 l2 h tk st' q Htop|p l1 w l2 h tk|p l1 t l2 h tk st' q Htop];
    simpl in *; unfold left; simpl; rewrite !sum_list_with_app; simpl.
  - unfold serve_top in Htop. rewrite Hclosed in Htop. destruct (queued (state p)) eqn:Hq;
      simplify_eq/=; rewrite ?Hq; split_and!; auto; simpl; lia.
  - split_and!; auto; simpl; lia.
  - unfold woken in Htop. simpl in Htop. destruct (_ && _); simplify_eq/=.
    + split_and!; auto; simpl; lia.
    + unfold serve_top in Htop; simpl in Htop. rewrite Hclosed in Htop.
      destruct (queued (state p)) eqn:Hq; simplify_eq/=; rewrite ?Hq; split_and!; auto; simpl; lia.
Qed.

(** A thread that is active can always take its step. *)
Lemma active_steps m : 0 < count active (pcs m) → ∃ m', thread_step m m'.
Proof.
  intros (p & Hin & Hact)%count_pos. destruct m as [[st mo] ts h tk]. simpl in *.
  apply list_elem_of_split in Hin as (l1 & l2 & ->).
  destruct p as [|w| |t|]; simpl in Hact; try done.
  - destruct (serve_top st) eqn:Htop. eexists. by apply thread_top.
  - eexists. apply thread_done.
  - destruct (woken t st) eqn:Htop. eexists. by apply thread_woken.
Qed.

(** ** The properties *)

(** In every interleaving, a pool counts exactly the threads it has, is
    never below one while it is open, and never above its most, one at
    least, however much work waits, panics or times out. *)
Theorem pool_bounded n m :
  rtc pool_step (start_machine n) m →
  threads (state (pool m)) = count live (pcs m) ∧
  threads (state (pool m)) ≤ Nat.max n 1 ∧
  (closed (state (pool m)) = false → 1 ≤ threads (state (pool m))).
Proof. intros [[] <-]%pool_reachable_ok. auto. Qed.

(** C1. Work handed to a pool is taken up once each and in the order it was
    handed over, and none is stranded: while any waits, some thread is on
    its way to the queue that no wait has to time out for. *)
Theorem pool_strands_nothing n m :
  rtc pool_step (start_machine n) m →
  handed m = taken m ++ queued (state (pool m)) ∧
  (queued (state (pool m)) ≠ [] → ∃ m', thread_step m m').
Proof. intros [[] _]%pool_reachable_ok. eauto using active_steps. Qed.

(** A pool let go of drains and ends, however its threads interleave:
    no run from there is longer than what was left to do, and one that
    cannot go on has taken up everything handed over and has no thread. *)
Theorem pool_drains n m k m' :
  rtc pool_step (start_machine n) m → closed (state (pool m)) = true →
  nsteps pool_step k m m' →
  k ≤ 3 * length (queued (state (pool m))) + 2 * length (pcs m) ∧
  ((∀ m'', ¬ pool_step m' m'') → threads (state (pool m')) = 0 ∧ taken m' = handed m).
Proof.
  intros [Hok _]%pool_reachable_ok Hclosed Hrun.
  assert (sum_list_with weight (pcs m) ≤ 2 * length (pcs m)) as Hweight.
  { induction (pcs m) as [|[] l IH]; simpl; lia. }
  destruct (measure_bounds pool_step (λ x, closing x ∧ handed x = handed m) left) with k m m'
    as [Hk [[Hok' Hclosed'] Hh]]; [|by split_and!|done|].
  - intros x y [Hx <-] Hxy. destruct (closing_falls _ _ Hx Hxy) as (? & ? & ?). auto.
  - split; [unfold left in *; lia|]. intros Hstuck.
    destruct Hok' as [Ht _ _ _ Hc Ha Ho].
    assert (count active (pcs m') = 0) as Hnone.
    { destruct (decide (0 < count active (pcs m'))) as [(m'' & Hs)%active_steps|]; [|lia].
      exfalso. apply (Hstuck m''). right. by left. }
    rewrite Ht, count_live_split, Hnone, (Hc Hclosed'). split; [done|].
    destruct (queued (state (pool m'))) eqn:Hq; [|exfalso; assert (0 < 0) by (rewrite <- Hnone at 2; by apply Ha); lia].
    by rewrite <- Hh, Ho, app_nil_r.
Qed.
End pool.

Arguments State : clear implicits.
Arguments Pool : clear implicits.
Arguments Machine : clear implicits.
Arguments pc : clear implicits.

(** ** A pool of two run on one piece of work *)

(** One piece handed to a pool of at most two: a second thread started. *)
Definition one_handed : Machine nat :=
  {| pool := {| state := {| queued := [7]; threads := 2; waiting := 0; closed := false |};
                most := 2 |};
     pcs := [Ready; Ready]; handed := [7]; taken := [] |}.

(** The same pool let go of. *)
Definition one_closed : Machine nat :=
  {| pool := with_state (pool one_handed) (drop_pool (state (pool one_handed)));
     pcs := [Ready; Ready]; handed := [7]; taken := [] |}.

Lemma one_handed_reachable : rtc pool_step (start_machine 2) one_handed.
Proof.
  apply rtc_once. left.
  apply (owner_run (new 2) [Ready] [Ready] [] [] 7 (pool one_handed) true);
    [reflexivity|reflexivity|]. apply notified_none. by intros [[=]|?%elem_of_nil]%elem_of_cons.
Qed.

Lemma one_closed_reachable : rtc pool_step (start_machine 2) one_closed.
Proof.
  eapply rtc_r; [apply one_handed_reachable|]. left.
  by apply (owner_drop (pool one_handed) [Ready; Ready] [7] []).
Qed.

Lemma pool_bounded_witness :
  threads (state (pool one_handed)) = count live (pcs one_handed) ∧
  threads (state (pool one_handed)) ≤ Nat.max 2 1 ∧
  (closed (state (pool one_handed)) = false → 1 ≤ threads (state (pool one_handed))).
Proof. apply (pool_bounded 2 one_handed). apply one_handed_reachable. Defined.

Lemma pool_strands_nothing_witness :
  handed one_handed = [] ++ [7] ∧ ([7] ≠ [] → ∃ m', thread_step one_handed m').
Proof. apply (pool_strands_nothing 2 one_handed). apply one_handed_reachable. Defined.

Lemma pool_drains_witness : 0 ≤ 3 * 1 + 2 * 2.
Proof.
  apply (pool_drains 2 one_closed 0 one_closed); [apply one_closed_reachable|reflexivity|].
  apply nsteps_O.
Defined.
