(* ===== verification/Journey.v ===== *)
(** * What the runtime reads of the estate's Journey

    [Journey], [Received], [Sequenced], [GroupDelivery], [Attempts] and the
    claim and hand-on of Xmip Storage are other crates' types; here are the
    fields the runtime's source reads and writes, under their names. What
    those crates do with them — appending to a Journey, writing its record —
    is the class [JourneyOps], with what it documents as [JourneyLaws]. *)

From stdpp Require Import base numbers list strings.
From S2P Require Import Prelude.

(** Where a Message leads: [route::Subscriber]. *)
Inductive Subscriber :=
  | SendPort (name : string)
  | SendGroup (name : string)
  | WorkProcess (name : string).

Definition subscriber_name (to : Subscriber) : string :=
  match to with SendPort n | SendGroup n | WorkProcess n => n end.

#[export] Instance subscriber_eq_dec : EqDecision Subscriber.
Proof. solve_decision. Defined.

Inductive JourneyState :=
  | Active
  | Recovering
  | Completed
  | Failed
  | Dismissed
  | OtherState (name : string).

#[export] Instance journey_state_eq_dec : EqDecision JourneyState.
Proof. solve_decision. Defined.

(** Where a send stands, as the Ledger keeps it: two [u32]s. *)
Record Attempts := { att_location : N; att_tries : N }.

Definition no_attempts : Attempts := {| att_location := 0; att_tries := 0 |}.

Record Received := {
  rec_location : string;
  rec_port : string;
  rec_origin : N;
  rec_sequences : list N;
  rec_skips : bool
}.

Record Sequenced := { seq_queue : N; seq_skips : bool }.

Record GroupDelivery := {
  group_name : string;
  group_delivery : N;
  group_queue : option N;
  group_skips : bool;
  group_members : list N
}.

Record JourneyEntry := {
  entry_execution : N;
  entry_message : N;
  entry_action : string;
  entry_outcome : string;
  entry_timestamp : N
}.

Record Journey := {
  journey_id : N;
  state : JourneyState;
  attempts : Attempts;
  sequences : list Sequenced;
  group : option GroupDelivery;
  received : option Received;
  send_port : option string;
  current_work_process : option string;
  cause : option string;
  previous : option N;
  messages : list N;
  history : list JourneyEntry
}.

Definition with_attempts (j : Journey) (a : Attempts) : Journey :=
  {| journey_id := journey_id j; state := state j; attempts := a; sequences := sequences j;
     group := group j; received := received j; send_port := send_port j;
     current_work_process := current_work_process j; cause := cause j;
     previous := previous j; messages := messages j; history := history j |}.

Definition with_sequences (j : Journey) (s : list Sequenced) : Journey :=
  {| journey_id := journey_id j; state := state j; attempts := attempts j; sequences := s;
     group := group j; received := received j; send_port := send_port j;
     current_work_process := current_work_process j; cause := cause j;
     previous := previous j; messages := messages j; history := history j |}.

Definition with_group (j : Journey) (g : option GroupDelivery) : Journey :=
  {| journey_id := journey_id j; state := state j; attempts := attempts j;
     sequences := sequences j; group := g; received := received j; send_port := send_port j;
     current_work_process := current_work_process j; cause := cause j;
     previous := previous j; messages := messages j; history := history j |}.

(** What the Journey crate and the Ledger's record make of one. *)
Class JourneyOps := {
  append : Journey → JourneyEntry → JourneyState → Journey;
  journey_record : Journey → list Byte.byte;
  from_record : list Byte.byte → result Journey string
}.

(** What they document of it. *)
Class JourneyLaws (ops : JourneyOps) := {
  append_state j e s : state (append j e s) = s;
  append_id j e s : journey_id (append j e s) = journey_id j;
  append_history j e s : history (append j e s) = history j ++ [e];
  append_places j e s :
    sequences (append j e s) = sequences j ∧ group (append j e s) = group j ∧
    received (append j e s) = received j ∧ send_port (append j e s) = send_port j ∧
    messages (append j e s) = messages j
}.
