(* ===== verification/Keys.v ===== *)
(** * A Message's key in a Correlation: [src/work_step/keys.rs]

    A set's keys read once, and the text a Message's key is written in:
    every value with its length before it. Two keys are told apart by that
    text ([text_injective]); a sequence's queue is named from it
    ([Sequence]). *)

From Stdlib Require Import Ascii String.
From stdpp Require Import base numbers list strings pretty.
From S2P Require Import Prelude Journey.

Local Open Scope string_scope.

Inductive JourneyValue := Origin | Subscription | Previous.

Inductive KeyWord :=
  | ReceiveLocation
  | ReceivePort
  | KeyWorkProcess
  | KeySendPortGroup
  | KeySendPort
  | Context (name : string)
  | KeyJourney (value : JourneyValue).

(** [ResolvedSet]. *)
Record ResolvedSet := { set_name : string; keys : list KeyWord }.

(** Every [Ok] of a list, or its first [Err]. *)
Fixpoint collect {A E} (l : list (result A E)) : result (list A) E :=
  match l with
  | [] => Ok []
  | r :: rest => let? a := r in let? tail := collect rest in Ok (a :: tail)
  end.

(** A number written in decimal, as [to_string] and [format!] write it. *)
Definition decimal (n : N) : string := pretty n.

(** [value.len()]: a string's bytes. *)
Definition len (value : string) : N := N.of_nat (String.length value).

Section reading.
(** [KeyWord::read] is the configuration crate's. *)
Context (keyword_read : string → result KeyWord string).

(** [ResolvedSet::read]. *)
Definition read (name : string) (keys : list string) : result ResolvedSet string :=
  match keys with
  | [] => Err ("the Correlation '" +:+ name +:+ "' has no key")
  | _ =>
      match collect (keyword_read <$> keys) with
      | Err why => Err ("the Correlation '" +:+ name +:+ "': " +:+ why)
      | Ok keys => Ok {| set_name := name; keys := keys |}
      end
  end.

End reading.

Section keys.
(** So is [KeyWord::shown]. *)
Context (shown : KeyWord → string).

(** [ResolvedSet::names]. *)
Definition names (set : ResolvedSet) : list string :=
  omap (λ key, match key with Context name => Some name | _ => None end) (keys set).

(** [journey_value]. *)
Definition journey_value (journey : Journey) (value : JourneyValue) : option string :=
  match value with
  | Origin => (λ r, decimal (rec_origin r)) <$> received journey
  | Subscription => cause journey
  | Previous => decimal <$> previous journey
  end.

(** One key's value of a Journey and its Message: [ResolvedSet::text]'s
    match. *)
Definition key_value (journey : Journey) (promoted : string → option string)
    (work_process : string) (key : KeyWord) : option string :=
  match key with
  | ReceiveLocation => rec_location <$> received journey
  | ReceivePort => rec_port <$> received journey
  | KeyWorkProcess => Some work_process
  | KeySendPortGroup => group_name <$> group journey
  | KeySendPort => send_port journey
  | Context name => promoted name
  | KeyJourney value => journey_value journey value
  end.

(** A value as the key's text writes it: its length, and it. *)
Definition written (value : string) : string := decimal (len value) +:+ ":" +:+ value +:+ ";".

(** [ResolvedSet::text]. *)
Fixpoint text_of (set : string) (journey : Journey) (promoted : string → option string)
    (work_process : string) (keys : list KeyWord) : result string string :=
  match keys with
  | [] => Ok ""
  | key :: rest =>
      match key_value journey promoted work_process key with
      | None => Err ("the Message carries no " +:+ shown key +:+ ", which the Correlation '"
                       +:+ set +:+ "' keys by")
      | Some value =>
          let? tail := text_of set journey promoted work_process rest in
          Ok (written value +:+ tail)
      end
  end.

Definition text (set : ResolvedSet) (journey : Journey) (promoted : string → option string)
    (work_process : string) : result string string :=
  text_of (set_name set) journey promoted work_process (keys set).

(** ** The text is the tuple *)

Definition colon : ascii := ":".

Lemma decimal_no_colon n : ¬ has colon (decimal n).
Proof.
  assert (∀ n s, ¬ has colon s → ¬ has colon (pretty_N_go n s)) as Hgo.
  { intros m. induction (N.lt_wf_0 m) as [m _ IH]. intros s Hs.
    destruct (decide (m = 0)%N) as [->|Hm]; [done|].
    rewrite pretty_N_go_step by lia. apply IH; [apply N.div_lt; lia|].
    simpl. intros [Hc|]; [|tauto].
    assert (m `mod` 10 < 10)%N as Hlt by (apply N.mod_lt; lia).
    revert Hc. generalize (m `mod` 10)%N as d, Hlt. clear. intros d Hd.
    assert (d = 0 ∨ d = 1 ∨ d = 2 ∨ d = 3 ∨ d = 4 ∨ d = 5 ∨ d = 6 ∨ d = 7 ∨ d = 8 ∨ d = 9)%N
      as Hcases by lia.
    by repeat destruct Hcases as [->|Hcases]; subst. }
  unfold decimal, pretty, pretty_N. case_decide; [by intros [[=]|[]]|]. apply Hgo. intros [].
Qed.

Lemma written_injective v1 v2 t1 t2 :
  written v1 +:+ t1 = written v2 +:+ t2 → v1 = v2 ∧ t1 = t2.
Proof.
  unfold written. rewrite !string_app_assoc. intros Heq.
  apply (split_at colon) in Heq as [Hlen Heq]; try apply decimal_no_colon.
  apply (inj pretty) in Hlen. unfold len in Hlen.

  apply app_same_length in Heq as [-> Heq]; [|lia]. by injection Heq.
Qed.

Fixpoint written_all (values : list string) : string :=
  match values with [] => "" | v :: vs => written v +:+ written_all vs end.

Lemma written_nonempty v t : written v +:+ t ≠ "".
Proof.
  unfold written. destruct (decimal (len v)) as [|a s]; simpl; discriminate.
Qed.

Lemma written_all_injective vs1 vs2 : written_all vs1 = written_all vs2 → vs1 = vs2.
Proof.
  revert vs2. induction vs1 as [|v1 vs1 IH]; intros [|v2 vs2]; simpl; intros Heq.
  - done.
  - by exfalso; eapply written_nonempty.
  - by exfalso; eapply written_nonempty.
  - apply written_injective in Heq as [-> Heq]. f_equal. by apply IH.
Qed.

(** The values a set's keys read, where each is carried. *)
Definition values (set : ResolvedSet) (journey : Journey) (promoted : string → option string)
    (work_process : string) : option (list string) :=
  mapM (key_value journey promoted work_process) (keys set).

Lemma text_of_values set journey promoted wp ks :
  match text_of set journey promoted wp ks with
  | Ok t => ∃ vs, mapM (key_value journey promoted wp) ks = Some vs ∧ t = written_all vs
  | Err _ => mapM (key_value journey promoted wp) ks = None
  end.
Proof.
  induction ks as [|k ks IH]; simpl; [by exists []|].
  destruct (key_value journey promoted wp k) as [v|] eqn:Hk; simpl; [|done].
  destruct (text_of set journey promoted wp ks) as [t|e] eqn:Ht; simpl.
  - destruct IH as (vs & Hvs & ->). exists (v :: vs). by rewrite Hvs.
  - by rewrite IH.
Qed.

(** Two Messages write the same key in a set only where every value is
    the same: the key's text is the whole tuple, whatever characters its
    values hold, and a Message lacking a value writes none. *)
Theorem text_injective set j1 j2 promoted1 promoted2 wp1 wp2 t :
  text set j1 promoted1 wp1 = Ok t → text set j2 promoted2 wp2 = Ok t →
  ∃ vs, values set j1 promoted1 wp1 = Some vs ∧ values set j2 promoted2 wp2 = Some vs.
Proof.
  unfold text, values. intros H1 H2.
  pose proof (text_of_values (set_name set) j1 promoted1 wp1 (keys set)) as T1.
  pose proof (text_of_values (set_name set) j2 promoted2 wp2 (keys set)) as T2.
  rewrite H1 in T1. rewrite H2 in T2.
  destruct T1 as (vs1 & Hv1 & Ht1), T2 as (vs2 & Hv2 & Ht2).
  exists vs1. split; [done|]. rewrite Hv2. f_equal.
  apply written_all_injective. congruence.
Qed.
End keys.

(** A Journey received at a Location of a Port, bound for a Send Port. *)
Definition keyed (location port sendport : string) : Journey :=
  {| journey_id := 7; state := Active; attempts := no_attempts; sequences := []; group := None;
     received := Some {| rec_location := location; rec_port := port; rec_origin := 42;
                         rec_sequences := []; rec_skips := false |};
     send_port := Some sendport; current_work_process := None; cause := None;
     previous := None; messages := [9%N]; history := [] |}.

Example batch_key :
  text (λ _, "value") {| set_name := "Batch"; keys := [ReceivePort; KeyJourney Origin] |}
    (keyed "In" "Orders" "Out") (λ _, None) "" = Ok "6:Orders;2:42;".
Proof. reflexivity. Qed.

Lemma text_injective_witness :
  ∃ vs, values {| set_name := "Batch"; keys := [ReceivePort; KeySendPort] |}
          (keyed "In" "Orders" "Out") (λ _, None) "" = Some vs ∧
        values {| set_name := "Batch"; keys := [ReceivePort; KeySendPort] |}
          (keyed "Elsewhere" "Orders" "Out") (λ _, None) "" = Some vs.
Proof.
  apply (text_injective (λ _, "value") {| set_name := "Batch"; keys := [ReceivePort; KeySendPort] |}
           (keyed "In" "Orders" "Out") (keyed "Elsewhere" "Orders" "Out")
           (λ _, None) (λ _, None) "" "" "6:Orders;3:Out;"); reflexivity.
Defined.
