(* ===== verification/Storage.v ===== *)
(** * Xmip Storage, as the runtime asks it

    [persist::storage] is another crate: its requests and answers are here
    under the names the runtime's source writes and reads, and what it does
    with them is the class [XmipStorage] over a state of its own. Every ask
    may change that state and may go unanswered ([Err], in words). *)

From Stdlib Require Strings.Byte.
From stdpp Require Import base numbers list strings.
From S2P Require Import Prelude Journey.

Abbreviation bytes := (list Byte.byte).

#[export] Instance byte_eq_dec : EqDecision Byte.byte := Strings.Byte.byte_eq_dec.

Record Claim := {
  claim_journey : N;
  holder : string;
  token : N;
  until_unix_nanos : N;
  fence : N
}.

#[export] Instance claim_eq_dec : EqDecision Claim.
Proof. solve_decision. Defined.

(** A place in a queue: the queue, its member, and what is kept beside it. *)
Record Hold := { hold_queue : N; hold_member : N; hold_body : bytes }.

Record Failure := { failure_queue : N; failure_reason : string }.

Record Wait := { wait_queue : N; after_nanos : N }.

Record HandOn := {
  ho_claim : Claim;
  ho_result : bytes;
  ho_messages : list bytes;
  ho_next : list bytes;
  ho_leaves : list N;
  ho_queued : list Hold;
  ho_requeued : list N;
  ho_failed : option Failure;
  ho_cleared : list N;
  ho_waits : option Wait;
  ho_kept_for_nanos : option N
}.

(** An entry of a queue, at its place [sequence] in it. *)
Record Held := {
  sequence : N;
  held_hold : Hold;
  held_failed : bool;
  due_unix_nanos : option N
}.

(** A page of a queue in its order, how many it holds, and how much longer
    an entry waits for its due time. *)
Record HeldPage := {
  page_held : list Held;
  page_count : N;
  page_due_in : Held → option N
}.

(** A page of what is due in a queue: how many of the queue keep a retry's
    due time, the earliest of those not yet due, and where the next page
    starts after an entry. *)
Record DuePage := {
  due_held : list Held;
  due_retrying : N;
  due_next_in : option N;
  due_due_in : Held → option N;
  due_after : Held → N * N
}.

(** A Message in a queue's index of failed Messages. *)
Record FailedEntry := {
  fe_sequence : N;
  fe_place : N;
  fe_journey : N;
  fe_reason : string
}.

Record FailedQueue := { fq_failed : list FailedEntry; fq_count : N; fq_next : N }.

(** A Journey's record in the Ledger. *)
Record JourneyRecord := { record_body : bytes }.

Class XmipStorage (S : Type) := {
  claim : S → N → string → N → N → S * result (option Claim) string;
  release : S → Claim → S * result unit string;
  renew : S → list Claim → N → S * result (list Claim) string;
  hand_on : S → HandOn → S * result bool string;
  read_journey : S → N → S * result (option JourneyRecord) string;
  read_message : S → N → S * result (option bytes) string;
  read_held : S → N → N → N → S * result HeldPage string;
  read_due : S → N → N * N → N → S * result DuePage string;
  read_failed : S → N → N → N → S * result FailedQueue string
}.

(** ** The writes taken

    Any Xmip Storage with every hand-on it took kept beside it, the last
    first: what a function wrote can then be said. *)

Definition Logged (S : Type) : Type := S * list HandOn.

Definition beside {S A} (log : list HandOn) (answered : S * A) : Logged S * A :=
  ((fst answered, log), snd answered).

#[export] Instance logged_storage {S} `{XmipStorage S} : XmipStorage (Logged S) := {
  claim s id node token lease := beside (snd s) (claim (fst s) id node token lease);
  release s c := beside (snd s) (release (fst s) c);
  renew s cs lease := beside (snd s) (renew (fst s) cs lease);
  hand_on s h :=
    let '(s', r) := hand_on (fst s) h in
    ((s', match r with Ok true => h :: snd s | _ => snd s end), r);
  read_journey s id := beside (snd s) (read_journey (fst s) id);
  read_message s id := beside (snd s) (read_message (fst s) id);
  read_held s q from most := beside (snd s) (read_held (fst s) q from most);
  read_due s q from most := beside (snd s) (read_due (fst s) q from most);
  read_failed s q from most := beside (snd s) (read_failed (fst s) q from most)
}.
