(* ===== verification/SmallStorage.v ===== *)
(** * A Xmip Storage small enough to compute

    An instance of [XmipStorage] the development's examples run: every entry
    of every queue in one list, in the order taken; the claims held; the
    records kept; one clock. It stands for no implementation's text: it
    shows the interface's laws can hold, and what a theorem says at a
    concrete input. *)

From stdpp Require Import base numbers list strings.
From S2P Require Import Prelude Journey Storage.

Local Open Scope N_scope.

Record small := {
  sm_held : list Held;
  sm_next : N;
  sm_claims : list Claim;
  sm_fence : N;
  sm_journeys : list (N * bytes);
  sm_messages : list (N * bytes);
  sm_now : N
}.

Definition small_empty : small :=
  {| sm_held := []; sm_next := 1; sm_claims := []; sm_fence := 0; sm_journeys := [];
     sm_messages := []; sm_now := 1000 |}.

Definition with_held (s : small) (held : list Held) : small :=
  {| sm_held := held; sm_next := sm_next s; sm_claims := sm_claims s; sm_fence := sm_fence s;
     sm_journeys := sm_journeys s; sm_messages := sm_messages s; sm_now := sm_now s |}.

Definition with_claims (s : small) (claims : list Claim) : small :=
  {| sm_held := sm_held s; sm_next := sm_next s; sm_claims := claims; sm_fence := sm_fence s;
     sm_journeys := sm_journeys s; sm_messages := sm_messages s; sm_now := sm_now s |}.

Definition same_claim (a b : Claim) : bool :=
  (claim_journey a =? claim_journey b) && (token a =? token b).

Definition live (s : small) (c : Claim) : bool := sm_now s <? until_unix_nanos c.

Definition small_claim (s : small) (journey : N) (by_node : string) (tok lease : N) :
    small * result (option Claim) string :=
  if existsb (λ c, (claim_journey c =? journey) && live s c) (sm_claims s) then (s, Ok None)
  else
    let c := {| claim_journey := journey; holder := by_node; token := tok;
                until_unix_nanos := sm_now s + lease; fence := sm_fence s + 1 |} in
    ({| sm_held := sm_held s; sm_next := sm_next s;
        sm_claims := c :: List.filter (λ k, negb (claim_journey k =? journey)) (sm_claims s);
        sm_fence := sm_fence s + 1; sm_journeys := sm_journeys s; sm_messages := sm_messages s;
        sm_now := sm_now s |}, Ok (Some c)).

Definition small_release (s : small) (c : Claim) : small * result unit string :=
  (with_claims s (List.filter (λ k, negb (same_claim k c)) (sm_claims s)), Ok tt).

Definition small_renew (s : small) (cs : list Claim) (lease : N) : small * result (list Claim) string :=
  let longer k := if existsb (same_claim k) cs && live s k
                  then {| claim_journey := claim_journey k; holder := holder k; token := token k;
                          until_unix_nanos := sm_now s + lease; fence := fence k |} else k in
  let claims := longer <$> sm_claims s in
  (with_claims s claims, Ok (List.filter (λ k, existsb (same_claim k) cs && live s k) claims)).

Definition entry (s : small) (n : N) (h : Hold) : Held :=
  {| sequence := n; held_hold := h; held_failed := false; due_unix_nanos := None |}.

Fixpoint entries (s : small) (n : N) (hs : list Hold) : list Held :=
  match hs with [] => [] | h :: hs => entry s n h :: entries s (n + 1) hs end.

(** A hand-on's marks at the member's entries: failed, cleared, waiting. *)
Definition mark (s : small) (h : HandOn) (e : Held) : Held :=
  let q := hold_queue (held_hold e) in
  if negb (hold_member (held_hold e) =? claim_journey (ho_claim h)) then e
  else {| sequence := sequence e; held_hold := held_hold e;
          held_failed :=
            match ho_failed h with
            | Some f => (failure_queue f =? q) || held_failed e
            | None => if existsb (N.eqb q) (ho_cleared h) then false else held_failed e
            end;
          due_unix_nanos :=
            match ho_waits h with
            | Some w => if wait_queue w =? q then Some (sm_now s + after_nanos w)
                        else due_unix_nanos e
            | None => due_unix_nanos e
            end |}.

Definition leaves (h : HandOn) (e : Held) : bool :=
  (hold_member (held_hold e) =? claim_journey (ho_claim h)) &&
  existsb (N.eqb (hold_queue (held_hold e))) (ho_leaves h).

Definition small_hand_on (s : small) (h : HandOn) : small * result bool string :=
  if negb (existsb (λ k, same_claim k (ho_claim h) && live s k) (sm_claims s)) then (s, Ok false)
  else
    let marked := mark s h <$> List.filter (λ e, negb (leaves h e)) (sm_held s) in
    let moves e := (hold_member (held_hold e) =? claim_journey (ho_claim h)) &&
                   existsb (N.eqb (hold_queue (held_hold e))) (ho_requeued h) in
    let again := held_hold <$> List.filter moves marked in
    let fresh := entries s (sm_next s) (again ++ ho_queued h) in
    ({| sm_held := List.filter (λ e, negb (moves e)) marked ++ fresh;
        sm_next := sm_next s + N.of_nat (length fresh);
        sm_claims := match ho_kept_for_nanos h with
                     | Some lease => sm_claims s
                     | None => List.filter (λ k, negb (same_claim k (ho_claim h))) (sm_claims s)
                     end;
        sm_fence := sm_fence s;
        sm_journeys := (claim_journey (ho_claim h), ho_result h) :: sm_journeys s;
        sm_messages := sm_messages s; sm_now := sm_now s |}, Ok true).

Definition kept_under (l : list (N * bytes)) (id : N) : option bytes :=
  snd <$> List.find (λ p, fst p =? id) l.

Definition of_queue (s : small) (q : N) : list Held :=
  List.filter (λ e, hold_queue (held_hold e) =? q) (sm_held s).

(** How much longer an entry waits. *)
Definition waits_still (s : small) (e : Held) : option N :=
  due_unix_nanos e ≫= λ at_, if at_ <=? sm_now s then None else Some (at_ - sm_now s).

Definition small_read_held (s : small) (q from most : N) : small * result HeldPage string :=
  (s, Ok {| page_held := take (N.to_nat most)
              (List.filter (λ e, from <=? sequence e) (of_queue s q));
            page_count := N.of_nat (length (of_queue s q)); page_due_in := waits_still s |}).

Definition small_read_due (s : small) (q : N) (from : N * N) (most : N) :
    small * result DuePage string :=
  let due e := negb (held_failed e) && bool_decide (waits_still s e = None) &&
               (fst from * 2 ^ 64 + snd from <=? sequence e) && (sequence e <? 2 ^ 64) in
  let retrying := List.filter (λ e, bool_decide (is_Some (due_unix_nanos e))) (of_queue s q) in
  (s, Ok {| due_held := take (N.to_nat most) (List.filter due (of_queue s q));
            due_retrying := N.of_nat (length retrying);
            due_next_in := foldr (λ e least, match waits_still s e, least with
                             | Some w, Some l => Some (N.min w l)
                             | Some w, None => Some w
                             | None, _ => least end) None retrying;
            due_due_in := waits_still s;
            due_after := λ e, (0, sequence e + 1) |}).

Definition small_read_failed (s : small) (q from most : N) : small * result FailedQueue string :=
  let failed := List.filter held_failed (of_queue s q) in
  (s, Ok {| fq_failed := (λ e, {| fe_sequence := sequence e; fe_place := sequence e;
                                  fe_journey := hold_member (held_hold e); fe_reason := "" |}) <$>
              take (N.to_nat most) (List.filter (λ e, from <=? sequence e) failed);
            fq_count := N.of_nat (length failed); fq_next := sm_next s |}).

#[export] Instance small_storage : XmipStorage small := {
  claim := small_claim;
  release := small_release;
  renew := small_renew;
  hand_on := small_hand_on;
  read_journey s id := (s, Ok (Build_JourneyRecord <$> kept_under (sm_journeys s) id));
  read_message s id := (s, Ok (kept_under (sm_messages s) id));
  read_held := small_read_held;
  read_due := small_read_due;
  read_failed := small_read_failed
}.

(** Its queues: who holds a place in each, in order. *)
Definition small_queue (s : small) (q : N) : list N :=
  (λ e, hold_member (held_hold e)) <$> of_queue s q.

Definition of_queue_in (l : list Held) (q : N) : list N :=
  (λ e, hold_member (held_hold e)) <$> List.filter (λ e, hold_queue (held_hold e) =? q) l.

Lemma of_queue_in_app l1 l2 q : of_queue_in (l1 ++ l2) q = of_queue_in l1 q ++ of_queue_in l2 q.
Proof. unfold of_queue_in. by rewrite List.filter_app, fmap_app. Qed.

Lemma of_queue_in_cons e l q : of_queue_in (e :: l) q =
  (if hold_queue (held_hold e) =? q then [hold_member (held_hold e)] else []) ++ of_queue_in l q.
Proof. unfold of_queue_in. simpl. by case_match. Qed.

Lemma of_queue_in_mark s h l q : of_queue_in (mark s h <$> l) q = of_queue_in l q.
Proof.
  induction l as [|e l IH]; [done|].
  rewrite fmap_cons, !of_queue_in_cons, IH.
  by assert (held_hold (mark s h e) = held_hold e) as -> by (unfold mark; by case_match).
Qed.

Lemma of_queue_in_entries s n hs q :
  of_queue_in (entries s n hs) q =
  hold_member <$> List.filter (λ hold, hold_queue hold =? q) hs.
Proof.
  revert n. induction hs as [|h hs IH]; intros n; [done|]. simpl. unfold of_queue_in in *. simpl.
  case_match; simpl; by rewrite IH.
Qed.

Lemma filter_none {A} (f : A → bool) l : (∀ x, f x = false) → List.filter f l = [].
Proof. intros Hf. induction l as [|x l IH]; simpl; [done|]. by rewrite Hf. Qed.

Lemma small_hand_on_queues s s' h :
  small_hand_on s h = (s', Ok true) → ho_leaves h = [] → ho_requeued h = [] →
  ∀ q, small_queue s' q = small_queue s q ++
         (hold_member <$> List.filter (λ hold, hold_queue hold =? q) (ho_queued h)).
Proof.
  unfold small_hand_on. intros Hh Hl Hr q. destruct (negb _); [done|]. injection Hh as <-.
  change (of_queue_in (List.filter (λ e, negb ((hold_member (held_hold e) =? claim_journey (ho_claim h)) &&
      existsb (N.eqb (hold_queue (held_hold e))) (ho_requeued h)))
      (mark s h <$> List.filter (λ e, negb (leaves h e)) (sm_held s)) ++
    entries s (sm_next s) ((held_hold <$> List.filter (λ e,
      (hold_member (held_hold e) =? claim_journey (ho_claim h)) &&
      existsb (N.eqb (hold_queue (held_hold e))) (ho_requeued h))
      (mark s h <$> List.filter (λ e, negb (leaves h e)) (sm_held s))) ++ ho_queued h)) q =
    of_queue_in (sm_held s) q ++ (hold_member <$> List.filter (λ hold, hold_queue hold =? q) (ho_queued h))).
  rewrite Hr. simpl.
  rewrite (filter_all (λ e, negb (leaves h e)) (sm_held s)).
  2:{ intros e _. unfold leaves. by rewrite Hl, andb_false_r. }
  rewrite filter_all by (intros; by rewrite andb_false_r).
  rewrite filter_none by (intros; by rewrite andb_false_r).
  by rewrite of_queue_in_app, of_queue_in_mark, of_queue_in_entries.
Qed.
