(* ===== verification/Points.v ===== *)
(** * The points a Correlation governs: [src/sequence.rs], its data

    What kind of point a sequence is at, one point with the set it names,
    the queue its sequence is for a key, and the place a member takes in
    it. *)

From Stdlib Require Import Ascii String.
From stdpp Require Import base numbers list strings.
From S2P Require Import Prelude Journey Storage Keys.

Inductive PointKind :=
  | ReceiveLocationPoint
  | ReceivePortPoint
  | WorkProcessPoint
  | SendPortGroupPoint
  | SendPortPoint
  | SendLocationPoint.

#[export] Instance point_kind_eq_dec : EqDecision PointKind.
Proof. solve_decision. Defined.

(** [PointKind::word]. *)
Definition word (kind : PointKind) : string :=
  match kind with
  | ReceiveLocationPoint => "receive-location"
  | ReceivePortPoint => "receive-port"
  | WorkProcessPoint => "work-process"
  | SendPortGroupPoint => "send-port-group"
  | SendPortPoint => "send-port"
  | SendLocationPoint => "send-location"
  end.

(** [PointKind::end_to_end]. *)
Definition end_to_end (kind : PointKind) : bool :=
  match kind with ReceiveLocationPoint | ReceivePortPoint => true | _ => false end.

Inductive OnFailure := Block | Skip.

#[export] Instance on_failure_eq_dec : EqDecision OnFailure.
Proof. solve_decision. Defined.

(** [Point]. *)
Record Point := {
  kind : PointKind;
  point_name : string;
  set : ResolvedSet;
  on_failure : OnFailure
}.

(** [Point::receive_location]. *)
Definition receive_location (name : string) : Point :=
  {| kind := ReceiveLocationPoint; point_name := name;
     set := {| set_name := name; keys := [ReceiveLocation] |}; on_failure := Block |}.

(** The name a key's sequence is kept by: [Point::queue]'s text. *)
Definition queue_text (p : Point) (cluster key : string) : string :=
  (cluster +:+ "/sequence/" +:+ word (kind p) +:+ "/" +:+ point_name p +:+ "/"
     +:+ set_name (set p) +:+ "/" +:+ key)%string.

(** [Point::at]: the Work Process its key is read at. *)
Definition at_process (p : Point) (journey : Journey) : string :=
  match kind p with
  | WorkProcessPoint => point_name p
  | _ => default "" (current_work_process journey)
  end.

Section points.
(** [persist::storage::named], the identifier a name is kept under, and the
    configuration crate's words for a key. *)
Context (named : string → N) (shown : KeyWord → string).

(** [Point::queue]. *)
Definition queue (p : Point) (cluster key : string) : N * string :=
  let text := queue_text p cluster key in (named text, text).

(** [Point::place]. *)
Definition place (p : Point) (cluster : string) (member : N) (journey : Journey)
    (promoted : string → option string) : result Hold string :=
  let? key := text shown (set p) journey promoted (at_process p journey) in
  let '(queue, text) := queue p cluster key in
  Ok {| hold_queue := queue; hold_member := member;
        hold_body := list_byte_of_string text |}.
End points.

(** ** One name for one key of one point *)

Definition slash : ascii := "/".

Lemma word_no_slash k : ¬ has slash (word k).
Proof. destruct k; simpl; intuition discriminate. Qed.

Lemma word_injective : Inj (=) (=) word.
Proof. by intros [] [] [=]. Qed.

Lemma app_same_prefix (s t1 t2 : string) : (s +:+ t1)%string = (s +:+ t2)%string → t1 = t2.
Proof. apply (inj (String.app s)). Qed.

(** The name of a point's sequence for a key tells the key, and, where no
    name holds a slash, the point's kind, name and set with it. *)
Lemma queue_text_key p cluster k1 k2 : queue_text p cluster k1 = queue_text p cluster k2 → k1 = k2.
Proof. unfold queue_text. intros H. by repeat apply app_same_prefix in H. Qed.

Lemma queue_text_point p1 p2 cluster k1 k2 :
  ¬ has slash (point_name p1) → ¬ has slash (point_name p2) →
  ¬ has slash (set_name (set p1)) → ¬ has slash (set_name (set p2)) →
  queue_text p1 cluster k1 = queue_text p2 cluster k2 →
  kind p1 = kind p2 ∧ point_name p1 = point_name p2 ∧
  set_name (set p1) = set_name (set p2) ∧ k1 = k2.
Proof.
  unfold queue_text. intros Hn1 Hn2 Hs1 Hs2 H. do 2 apply app_same_prefix in H.
  apply (split_at slash) in H as [Hk%word_injective H]; try apply word_no_slash.
  apply (split_at slash) in H as [Hn H]; [|done..].
  by apply (split_at slash) in H as [Hs H].
Qed.
