(* ===== verification/Sending.v ===== *)
(** * Send Locations, Send Ports and where a destination is sent: [src/sending.rs]

    The configuration's own types ([ConfiguredLocation], [DesignedSendPort],
    [SendPortGroup]) are other crates'; here are the fields the source reads.
    A Location's transport and identity chain are opaque: [T]. *)

From stdpp Require Import base numbers list strings.
From S2P Require Import Prelude Journey Storage Keys Points.

Inductive Failover := FailoverNone | FailoverNext.

#[export] Instance failover_eq_dec : EqDecision Failover.
Proof. solve_decision. Defined.

Record Retry := { retry_attempts : N; retry_backoff : string }.

Record DesignedSendPort := {
  dp_name : string;
  send_locations : list string;
  retry : option Retry;
  failover : option Failover
}.

Record SendPortGroup := { sg_name : string; send_ports : list string }.

Section sending.
Context {T : Type}.

(** [Sending]: a Send Location running. *)
Record Sending := { configured_name : string; target : string; transport : T }.

(** [Port]. *)
Record Port := {
  port_name : string;
  locations : list Sending;
  policy : option DesignedSendPort;
  points : list Point
}.

(** [xcore::settings::duration]: a duration's text read, in nanoseconds. *)
Context (duration : string → option N).

(** [Port::tries]. *)
Definition tries (port : Port) : N :=
  match policy port ≫= retry with
  | None => 1
  | Some retry => u32_saturating_add (retry_attempts retry) 1
  end.

(** [Port::backoff]. *)
Definition backoff (port : Port) : N :=
  default 0%N
    (match policy port ≫= retry with Some retry => duration (retry_backoff retry) | None => None end).

(** [Port::fails_over]. *)
Definition fails_over (port : Port) : bool :=
  match policy port ≫= failover with
  | Some failover => bool_decide (failover = FailoverNext)
  | None => false
  end.

(** [Destination]. *)
Inductive Destination :=
  | Ports (ports : list Port)
  | Process
  | Nowhere.

(** [Sends]. *)
Record Sends := {
  s_locations : list Sending;
  s_groups : list SendPortGroup;
  s_ports : list DesignedSendPort;
  s_points : list Point
}.

(** [Sends::location]. *)
Definition location (sends : Sends) (name : string) : option Sending :=
  List.find (λ sending, String.eqb (configured_name sending) name) (s_locations sends).

(** The Send Locations the Send Port [name] leaves by, by name. *)
Definition port_policy (sends : Sends) (name : string) : option DesignedSendPort :=
  List.find (λ port, String.eqb (dp_name port) name) (s_ports sends).

Definition named_locations (sends : Sends) (name : string) : list string :=
  match port_policy sends name with
  | Some policy => match send_locations policy with [] => [name] | named => named end
  | None => [name]
  end.

(** [Sends::port]. *)
Definition port (sends : Sends) (name : string) : Port :=
  let named := named_locations sends name in
  {| port_name := name;
     locations := omap (location sends) named;
     policy := port_policy sends name;
     points := List.filter (λ point,
       match kind point with
       | SendPortPoint => String.eqb (point_name point) name
       | SendLocationPoint => existsb (String.eqb (point_name point)) named
       | _ => false
       end) (s_points sends) |}.

(** [Sends::to]. *)
Definition to (sends : Sends) (subscriber : Subscriber) : Destination :=
  match subscriber with
  | SendPort name => Ports [port sends name]
  | SendGroup group =>
      match List.find (λ declared, String.eqb (sg_name declared) group) (s_groups sends) with
      | None => Nowhere
      | Some group => Ports (port sends <$> send_ports group)
      end
  | WorkProcess _ => Process
  end.

(** [Sends::serves]. *)
Definition serves (sends : Sends) (subscriber : Subscriber) : bool :=
  match to sends subscriber with
  | Ports ports =>
      negb (bool_decide (ports = [])) &&
      forallb (λ port, negb (bool_decide (locations port = []))) ports
  | Process | Nowhere => false
  end.

(** [Sends::served]: the names, each once where the Location brings it. *)
Definition names_a_location (sends : Sends) (name : string) : bool :=
  existsb (λ port, existsb (λ location, String.eqb location name) (send_locations port))
    (s_ports sends).

Definition served_names (sends : Sends) : list string :=
  foldl (λ names sending,
           let name := configured_name sending in
           if negb (existsb (String.eqb name) names) && negb (names_a_location sends name)
           then names ++ [name] else names)
    (dp_name <$> s_ports sends) (s_locations sends).

Definition served (sends : Sends) : list Subscriber :=
  List.filter (serves sends) (SendPort <$> served_names sends).

(** ** What is served *)

Lemma served_serves sends subscriber :
  subscriber ∈ served sends → serves sends subscriber = true.
Proof. unfold served. rewrite list_elem_of_In, filter_In. tauto. Qed.

(** A Send Port served has a Send Location here to leave by. *)
Lemma served_has_location sends name :
  serves sends (SendPort name) = true → ∃ l, l ∈ locations (port sends name).
Proof.
  unfold serves; simpl. rewrite andb_true_r. intros Hne%negb_true_iff%bool_decide_eq_false.
  destruct (omap _ _) as [|l ls]; [done|]. exists l. left.
Qed.

(** Its tries are at least one, and a [u32]. *)
Lemma tries_bounds p : (1 ≤ tries p ≤ u32_max)%N.
Proof.
  unfold tries, u32_saturating_add, u32_max.
  destruct (policy p ≫= retry); [|lia]. split; [|lia]. apply N.min_glb; lia.
Qed.
End sending.

Arguments Sending : clear implicits.
Arguments Port : clear implicits.
Arguments Destination : clear implicits.
Arguments Sends : clear implicits.
