(* ===== verification/Departure.v ===== *)
(** * One pass of a Message's send to its Send Port: [src/departure.rs]

    What a pass asks of the world — whether the claim is still surely this
    node's, whether the Message is durable, whether the identity may send,
    what the transport answered — it asks at moments: [World] answers by
    the moment, each ask is a moment later than the one before, and every
    call of a transport is kept with its moment ([calls]). A wait for room
    in the node's byte budget is a moment passed. *)

From stdpp Require Import base numbers list gmap strings.
From S2P Require Import Prelude Journey Storage Keys Points Sending.

Section departure.
Context {T : Type}.
Implicit Types sending : Sending T.

(** ** What became of one Message on its way out *)

Inductive Departed :=
  | Sent (to : Subscriber) (presented_from : option string) (presented : option string)
  | NoSuchDestination (to : Subscriber)
  | ProcessNotRun (to : Subscriber)
  | NotPermitted (to : Subscriber) (decision : string)
  | DepartFailed (to : Subscriber) (retryable : bool) (detail : string).

(** [Departed::sent]. *)
Definition departed_sent (d : Departed) : bool := match d with Sent _ _ _ => true | _ => false end.

(** [Progress]. *)
Record Progress := {
  sent : bool;
  at_location : nat;
  tried : N;
  given_up : option string;
  p_fence : N
}.

(** [Progress::of]. *)
Definition of_attempts (a : Attempts) : Progress :=
  {| sent := false; at_location := N.to_nat (att_location a); tried := att_tries a;
     given_up := None; p_fence := 0 |}.

(** [Progress::attempts]. *)
Definition to_attempts (p : Progress) : Attempts :=
  {| att_location := N.min (N.of_nat (at_location p)) u32_max; att_tries := tried p |}.

(** [Progress::waiting]. *)
Definition waiting (p : Progress) : bool :=
  negb (sent p) && bool_decide (given_up p = None).

Definition with_sent (p : Progress) : Progress :=
  {| sent := true; at_location := at_location p; tried := tried p; given_up := given_up p;
     p_fence := p_fence p |}.
Definition with_tried (p : Progress) (n : N) : Progress :=
  {| sent := sent p; at_location := at_location p; tried := n; given_up := given_up p;
     p_fence := p_fence p |}.
Definition with_location (p : Progress) (l : nat) : Progress :=
  {| sent := sent p; at_location := l; tried := tried p; given_up := given_up p;
     p_fence := p_fence p |}.
Definition with_given_up (p : Progress) (why : string) : Progress :=
  {| sent := sent p; at_location := at_location p; tried := tried p; given_up := Some why;
     p_fence := p_fence p |}.
Definition with_fence (p : Progress) (f : N) : Progress :=
  {| sent := sent p; at_location := at_location p; tried := tried p; given_up := given_up p;
     p_fence := f |}.

(** ** The world a pass asks *)

Record World := {
  (** [SendStep::holds], at a moment. *)
  owned : nat → bool;
  (** The Publication durable, or why not. *)
  kept : nat → result unit string;
  (** [authorize], for a Send Location at a moment: allowed, and its words. *)
  permitted : nat → string → bool * string;
  (** The identity its chain resolves to: the level, and its value. *)
  resolved : Sending T → option (string * option string);
  (** Whether a transport holds its delivery back until the Message is kept. *)
  holds_back : T → bool;
  (** [Transport::send_from] begun at a moment: how often it asked whether
      the claim still holds, a moment each, and its answer — whether a
      failure may mend, and its words. *)
  send_from : T → nat → nat * result unit (bool * string)
}.

(** How a destination is written: [Display for Subscriber]. *)
Context (show : Subscriber → string).

(** [said]. *)
Definition said_one (d : Departed) : string :=
  match d with
  | Sent to _ _ => "sent to " +:+ show to
  | NoSuchDestination to => "no Send Location for " +:+ show to
  | ProcessNotRun to => show to +:+ " is run by no runtime yet"
  | NotPermitted to decision => "not permitted to " +:+ show to +:+ ": " +:+ decision
  | DepartFailed to _ detail => "not sent to " +:+ show to +:+ ": " +:+ detail
  end%string.

Definition said (departed : list Departed) : string :=
  match departed with
  | [] => "nowhere to go"
  | _ => String.concat "; " (said_one <$> departed)
  end%string.

(** What one Location's try left: what became of it, nothing where the claim
    was lost before its transport was reached; the moment; the calls made. *)
Record Tried := { one : option Departed; after : nat; called : list (nat * Sending T) }.

(** [depart_one]. *)
Definition depart_one (w : World) (to : Subscriber) (sending : Sending T) (t : nat) : Tried :=
  let '(allowed, decision) := permitted w t (configured_name sending) in
  if negb allowed
  then {| one := Some (NotPermitted to decision); after := S t; called := [] |}
  else
    (* Held within the byte budget, at [S t]. *)
    let t := 2 + t in
    match (if holds_back w (transport sending) then Ok tt else kept w t) with
    | Err detail => {| one := Some (DepartFailed to true detail); after := S t; called := [] |}
    | Ok _ =>
        let t := S t in
        if negb (owned w t) then {| one := None; after := S t; called := [] |}
        else
          let t := S t in
          let '(asked, answer) := send_from w (transport sending) t in
          let let_go := match asked with O => false | S n => negb (owned w (t + S n)) end in
          let after := t + S asked in
          let called := [(t, sending)] in
          if let_go then {| one := None; after := after; called := called |}
          else {| one := Some (match answer with
                               | Ok _ => Sent to (fst <$> resolved w sending)
                                           (resolved w sending ≫= snd)
                               | Err (retryable, detail) => DepartFailed to retryable detail
                               end);
                  after := after; called := called |}
    end.

(** What a pass left: its departures, where the send stands, the moment, and
    every call of a transport. *)
Record Pass := {
  departed : list Departed;
  progress : Progress;
  moment : nat;
  calls : list (nat * Sending T)
}.

(** Whether a try may be made again: the transport's answer. *)
Definition may_again (d : Departed) : bool :=
  match d with DepartFailed _ retryable _ => retryable | _ => false end.

(** A [u32] one more, as [+= 1] leaves it. *)
Definition u32_succ (n : N) : N := ((n + 1) mod 2 ^ 32)%N.

(** What a try of the active Location leaves: where the send stands, and
    whether the loop goes on to the next Location. *)
Definition settled (port : Port T) (standing : Progress) (one : Departed) : Progress * bool :=
  match one with
  | Sent _ _ _ => (with_sent standing, false)
  | _ =>
      if may_again one && (tried standing <? tries port)%N then (standing, false)
      else if fails_over port && (at_location standing + 1 <? length (locations port))
      then (with_tried (with_location standing (at_location standing + 1)) 0, true)
      else (with_given_up standing (said [one]), false)
  end.

(** [depart_port]'s loop. *)
Fixpoint depart_port (fuel : nat) (w : World) (port : Port T) (standing : Progress) (t : nat)
    (departed : list Departed) (calls : list (nat * Sending T)) : option Pass :=
  match fuel with
  | O => None
  | S fuel =>
      let to := SendPort (port_name port) in
      if negb (owned w t)
      then Some {| departed := departed; progress := standing; moment := S t; calls := calls |}
      else
        match locations port !! at_location standing with
        | None =>
            Some {| departed := departed ++ [NoSuchDestination to];
                    progress := with_given_up standing
                      ("no Send Location for " +:+ show to +:+ " on this node")%string;
                    moment := S t; calls := calls |}
        | Some sending =>
            let tried_one := depart_one w to sending (S t) in
            let calls := calls ++ called tried_one in
            match one tried_one with
            | None => Some {| departed := departed; progress := standing;
                              moment := after tried_one; calls := calls |}
            | Some one =>
                let standing := with_tried standing (u32_succ (tried standing)) in
                let departed := departed ++ [one] in
                let '(standing, on) := settled port standing one in
                if on then depart_port fuel w port standing (after tried_one) departed calls
                else Some {| departed := departed; progress := standing;
                             moment := after tried_one; calls := calls |}
            end
        end
  end.

(** Enough for every Location the Port has left. *)
Definition enough (port : Port T) (p : Progress) : nat :=
  S (length (locations port) - at_location p).

(** [depart_to]. *)
Definition depart_to (w : World) (sends : Sends T) (to : Subscriber) (p : Progress) (t : nat)
    : option Pass :=
  if negb (waiting p)
  then Some {| departed := []; progress := p; moment := t; calls := [] |}
  else
    match to, Sending.to sends to with
    | SendPort _, Ports ports =>
        match head ports with
        | Some port => depart_port (enough port p) w port p t [] []
        | None => Some {| departed := []; progress := p; moment := t; calls := [] |}
        end
    | _, Process =>
        Some {| departed := [ProcessNotRun to]; progress := p; moment := t; calls := [] |}
    | _, _ =>
        Some {| departed := [NoSuchDestination to];
                progress := with_given_up p
                  ("no Send Port Group " +:+ subscriber_name to +:+
                   " is declared on this node")%string;
                moment := t; calls := [] |}
    end.

(** ** A pass's calls and its account *)

(** A transport called at a moment: the identity authorized for that
    Location before it, the Message durable unless the transport holds its
    delivery back, and the claim surely this node's the moment before. *)
Definition call_ok (w : World) (call : nat * Sending T) : Prop :=
  let '(t, sending) := call in
  ∃ t0 t1, t0 < t1 ∧ t1 < t - 1 ∧
    fst (permitted w t0 (configured_name sending)) = true ∧
    (holds_back w (transport sending) = false → kept w t1 = Ok tt) ∧
    owned w (t - 1) = true.

Lemma depart_one_calls w to sending t : Forall (call_ok w) (called (depart_one w to sending t)).
Proof.
  unfold depart_one. destruct (permitted w t (configured_name sending)) as [[] d] eqn:Hp;
    simpl; [|constructor].
  destruct (holds_back w (transport sending)) eqn:Hh.
  2: destruct (kept w (S (S t))) as [[]|e] eqn:Hk; simpl; [|constructor].
  all: destruct (owned w (S (S (S t)))) eqn:Ho; simpl; [|constructor].
  all: destruct (send_from w (transport sending) (S (S (S (S t))))) as [n a] eqn:Hs; simpl.
  all: match goal with |- context [if ?b then _ else _] => destruct b end; simpl.
  all: repeat constructor; exists t, (S (S t)); split_and!; try lia;
    rewrite ?Hp, ?Hh; simpl; try done.
Qed.

(** The tries a Port's Locations have had, counted from its first. *)
Definition used (port : Port T) (p : Progress) : N :=
  N.of_nat (at_location p) * tries port + tried p.

Definition all_tries (port : Port T) : N :=
  N.of_nat (length (locations port)) * tries port.

(** Where a send stands between passes: a Location the Port has, with a try
    left. *)
Definition standing_ok (port : Port T) (p : Progress) : Prop :=
  (at_location p < length (locations port)) ∧ (tried p < tries port)%N.

Lemma used_below port p : standing_ok port p → (used port p < all_tries port)%N.
Proof. unfold standing_ok, used, all_tries. intros [? ?]. nia. Qed.

Lemma waiting_iff p : waiting p = true ↔ sent p = false ∧ given_up p = None.
Proof.
  unfold waiting. rewrite andb_true_iff, negb_true_iff, bool_decide_eq_true. tauto.
Qed.

(** What a pass from [st] adds to what was departed and called before. *)
Record pass_ok (w : World) (port : Port T) (st : Progress) (d : list Departed)
    (c : list (nat * Sending T)) (r : Pass) : Prop := {
  pass_departed : ∃ d', departed r = d ++ d' ∧
    (used port st + N.of_nat (length d') ≤ all_tries port)%N ∧
    (waiting (progress r) = true → standing_ok port (progress r) ∧
       used port st + N.of_nat (length d') ≤ used port (progress r))%N ∧
    sent (progress r) = existsb departed_sent d' ∧
    (d' = [] → progress r = st);
  pass_calls : ∃ c', calls r = c ++ c' ∧ Forall (call_ok w) c'
}.

Lemma u32_succ_small n k : (n < k → k ≤ u32_max → u32_succ n = n + 1)%N.
Proof. unfold u32_succ, u32_max. intros. apply N.mod_small. lia. Qed.

Lemma settled_ok port st o p' on :
  standing_ok port st → waiting st = true →
  settled port (with_tried st (tried st + 1)) o = (p', on) →
  (on = true → standing_ok port p' ∧ waiting p' = true ∧ departed_sent o = false ∧
     at_location p' = S (at_location st)) ∧
  (on = false → sent p' = departed_sent o ∧ (waiting p' = true → standing_ok port p')) ∧
  (waiting p' = true → used port st + 1 ≤ used port p')%N.
Proof.
  intros [Hl Ht] [Hs Hg]%waiting_iff. unfold settled, standing_ok, used.
  rewrite !waiting_iff. pose proof (tries_bounds port).
  assert (∀ why, given_up (with_given_up st why) ≠ None) by done.
  destruct o; simpl; intros Hset; repeat case_match; simplify_eq/=;
    repeat match goal with
           | H : _ && _ = true |- _ => apply andb_true_iff in H as [? H]
           | H : (_ <? _) = true |- _ => apply Nat.ltb_lt in H
           | H : (_ <? _)%N = true |- _ => apply N.ltb_lt in H
           end;
    split_and!; intros; split_and?; try done; try lia; try nia; naive_solver.
Qed.

Lemma depart_port_ok fuel w port st t d c :
  waiting st = true → standing_ok port st → length (locations port) - at_location st < fuel →
  ∃ r, depart_port fuel w port st t d c = Some r ∧ pass_ok w port st d c r.
Proof.
  revert st t d c. induction fuel as [|fuel IH]; intros st t d c Hw Hst Hfuel; [lia|].
  pose proof (used_below _ _ Hst) as Hused. pose proof Hst as [Hloc Htry].
  assert (∀ t' c', Forall (call_ok w) c' →
    pass_ok w port st d c {| departed := d; progress := st; moment := t'; calls := c ++ c' |})
    as Hstop.
  { intros t' c' Hc'. apply waiting_iff in Hw as [Hs _]. split; simpl; [|by eexists].
    exists []. rewrite app_nil_r; simpl. split_and!; try done; [lia|]. split; [done|lia]. }
  simpl. destruct (owned w t); simpl.
  2: { eexists. split; [done|]. rewrite <- (app_nil_r c) at 2. by apply Hstop. }
  destruct (locations port !! at_location st) as [sending|] eqn:Hl;
    [|by apply lookup_ge_None in Hl; lia].
  pose proof (depart_one_calls w (SendPort (port_name port)) sending (S t)) as Hcalls.
  destruct (one (depart_one w (SendPort (port_name port)) sending (S t))) as [o|];
    [|by eexists; split; [done|apply Hstop]].
  rewrite (u32_succ_small (tried st) (tries port)) by (pose proof (tries_bounds port); lia).
  destruct (settled port (with_tried st (tried st + 1)) o) as [p' on] eqn:Hset.
  destruct (settled_ok _ _ _ _ _ Hst Hw Hset) as (Hon & Hoff & Hgrew).
  destruct on.
  - destruct (Hon eq_refl) as (Hst' & Hw' & Hno & Hnext).
    edestruct (IH p') as (r & Hr & [(d' & Hd & Hall & Hwait & Hs & _) (c' & Hc & Hcok)]);
      [done|done|lia|].
    exists r. split; [exact Hr|]. specialize (Hgrew Hw'). split.
    + exists (o :: d'). rewrite Hd, <- app_assoc. simpl. rewrite Hno.
      split_and!; try done; [lia|]. intros Hwr. destruct (Hwait Hwr). split; [done|lia].
    + rewrite Hc, <- app_assoc. eexists. split; [done|]. by apply Forall_app.
  - destruct (Hoff eq_refl) as [Hs Hst']. eexists. split; [done|]. split; simpl; [|by eexists].
    exists [o]. simpl. rewrite orb_false_r. split_and!; [done|lia| |done|done].
    intros Hwr. split; [auto|]. by apply Hgrew.
Qed.

Lemma depart_port_total fuel w port st t d c :
  length (locations port) - at_location st < fuel →
  ∃ r, depart_port fuel w port st t d c = Some r.
Proof.
  revert st t d c. induction fuel as [|fuel IH]; intros st t d c Hfuel; [lia|].
  simpl. destruct (owned w t); simpl; [|eauto].
  destruct (locations port !! at_location st) as [sending|] eqn:Hl; [|eauto].
  apply lookup_lt_Some in Hl.
  destruct (one (depart_one w _ _ _)) as [o|]; [|eauto].
  destruct (settled port _ o) as [p' []] eqn:Hset; [|eauto]. apply IH.
  unfold settled in Hset. destruct o; simpl in Hset; repeat case_match; simplify_eq/=; lia.
Qed.

Lemma depart_port_calls fuel w port st t d c r :
  depart_port fuel w port st t d c = Some r → Forall (call_ok w) c → Forall (call_ok w) (calls r).
Proof.
  revert st t d c. induction fuel as [|fuel IH]; intros st t d c Hr Hc; simpl in Hr; [done|].
  pose proof (λ to sending, depart_one_calls w to sending (S t)) as Hone.
  repeat case_match; simplify_eq/=; try (by rewrite ?Forall_app).
  eapply IH; [exact Hr|]. by rewrite Forall_app.
Qed.

(** ** Passes one after another *)

(** What the next pass starts from: what the Ledger keeps of this one, where
    it waits. *)
Definition kept_standing (p : Progress) : Progress :=
  if waiting p then of_attempts (to_attempts p) else p.

(** One pass after another, each on a world and a moment of its own. *)
Fixpoint passes (sends : Sends T) (to : Subscriber) (ws : list (World * nat)) (p : Progress)
    : option (list Departed * Progress) :=
  match ws with
  | [] => Some ([], p)
  | (w, t) :: ws =>
      match depart_to w sends to p t with
      | None => None
      | Some r =>
          match passes sends to ws (kept_standing (progress r)) with
          | None => None
          | Some (ds, p) => Some (departed r ++ ds, p)
          end
      end
  end.

Lemma attempts_round_trip p :
  waiting p = true → (N.of_nat (at_location p) ≤ u32_max)%N →
  of_attempts (to_attempts p) = with_fence p 0.
Proof.
  intros [Hs Hg]%waiting_iff Hl. unfold of_attempts, to_attempts, with_fence; simpl.
  rewrite N.min_l, Nat2N.id by done. by rewrite Hs, Hg.
Qed.

Lemma depart_to_port w sends name p t :
  waiting p = true →
  depart_to w sends (SendPort name) p t =
  depart_port (enough (port sends name) p) w (port sends name) p t [] [].
Proof. intros Hw. unfold depart_to. by rewrite Hw. Qed.

Lemma depart_to_done w sends to p t :
  waiting p = false →
  depart_to w sends to p t = Some {| departed := []; progress := p; moment := t; calls := [] |}.
Proof. intros Hw. unfold depart_to. by rewrite Hw. Qed.

Lemma passes_done sends to ws p : waiting p = false → passes sends to ws p = Some ([], p).
Proof.
  intros Hw. induction ws as [|[w t] ws IH]; simpl; [done|].
  rewrite depart_to_done by done. simpl. unfold kept_standing. by rewrite Hw, IH.
Qed.

Lemma passes_account sends name ws p :
  let port := port sends name in
  (N.of_nat (length (locations port)) ≤ u32_max)%N →
  waiting p = true → standing_ok port p →
  ∃ ds p', passes sends (SendPort name) ws p = Some (ds, p') ∧
    (used port p + N.of_nat (length ds) ≤ all_tries port)%N ∧
    (waiting p' = true → standing_ok port p' ∧
       used port p + N.of_nat (length ds) ≤ used port p')%N ∧
    (existsb departed_sent ds = sent p').
Proof.
  intros port0 Hmany. revert p. induction ws as [|[w t] ws IH]; intros p Hw Hst; simpl.
  { exists [], p. pose proof (used_below _ _ Hst). apply waiting_iff in Hw as Hw'.
    simpl. split_and!; try done; [lia|split; [done|lia]|symmetry; tauto]. }
  rewrite depart_to_port by done. fold port0.
  destruct (depart_port_ok (enough port0 p) w port0 p t [] []) as
    (r & -> & [(d' & Hd & Hall & Hwait & Hsent & _) _]); [done|done|unfold enough; lia|].
  simpl in Hd. rewrite Hd. unfold kept_standing. destruct (waiting (progress r)) eqn:Hwr.
  - destruct (Hwait eq_refl) as [Hst' Hused]. pose proof Hst' as [Hl Ht].
    rewrite attempts_round_trip by (try done; lia).
    destruct (IH (with_fence (progress r) 0)) as (ds & p' & -> & Hall' & Hwait' & Hs').
    { by apply waiting_iff in Hwr as [? ?]; apply waiting_iff. }
    { by destruct Hst'. }
    assert (used port0 (with_fence (progress r) 0) = used port0 (progress r)) as Hsame by done.
    exists (d' ++ ds), p'. rewrite Hsame in *. split; [done|].
    rewrite length_app, Nat2N.inj_add, existsb_app, Hs'. split_and!.
    + lia.
    + intros Hwp. destruct (Hwait' Hwp). split; [done|lia].
    + apply waiting_iff in Hwr as [Hno _]. by rewrite <- Hsent, Hno.
  - rewrite passes_done by done. exists d', (progress r). rewrite app_nil_r.
    split_and!; [done|lia|congruence|by symmetry].
Qed.

(** ** The properties *)

(** A pass always returns, whatever the configuration, the standing it
    starts from and what the world answers: its loop goes past each Send
    Location at most once. *)
Theorem depart_to_returns w sends to p t : ∃ r, depart_to w sends to p t = Some r.
Proof.
  destruct (waiting p) eqn:Hw; [|rewrite depart_to_done by done; eauto].
  destruct to as [name|group|process].
  - rewrite depart_to_port by done. apply depart_port_total. unfold enough. lia.
  - unfold depart_to. rewrite Hw. simpl. case_match; eauto.
  - unfold depart_to. rewrite Hw. simpl. eauto.
Qed.


(** A Message's send ends: over any number of passes and whatever the
    world answers, its standing read back from the Ledger between them, a
    Port tries its Locations no more often in all than its tries for each;
    while fewer are made it waits for its next try at a Location it has, and
    once the last is made it was sent or is given up. It counts as sent just
    where a Location took it. *)
Theorem retries_end sends name ws :
  let port := port sends name in
  0 < length (locations port) → (N.of_nat (length (locations port)) ≤ u32_max)%N →
  ∃ ds p', passes sends (SendPort name) ws (of_attempts no_attempts) = Some (ds, p') ∧
    (N.of_nat (length ds) ≤ all_tries port)%N ∧
    (waiting p' = true → N.of_nat (length ds) < all_tries port)%N ∧
    (existsb departed_sent ds = sent p').
Proof.
  intros port0 Hsome Hmany.
  assert (standing_ok port0 (of_attempts no_attempts)) as Hst.
  { split; simpl; [done|]. pose proof (tries_bounds port0). lia. }
  destruct (passes_account sends name ws (of_attempts no_attempts) Hmany eq_refl Hst) as (ds & p' & -> & Hall & Hw & Hs).
  change (used _ (of_attempts no_attempts)) with 0%N in Hall, Hw.
  exists ds, p'. split_and!; [done|by unfold port0; lia|intros Hwp|done].
  destruct (Hw Hwp) as [Hst' Hu]. apply used_below in Hst'.
  unfold port0 in *. lia.
Qed.

(** What a pass leaves waiting goes to the Ledger and back unchanged:
    the active Location and its tries, for any Location below 2^32, the
    fence alone being the next claim's own. *)
Theorem attempts_kept p :
  waiting p = true → (N.of_nat (at_location p) ≤ u32_max)%N →
  of_attempts (to_attempts p) = with_fence p 0 ∧
  to_attempts (of_attempts (to_attempts p)) = to_attempts p.
Proof. intros. rewrite attempts_round_trip by done. done. Qed.
End departure.

Arguments World : clear implicits.
Arguments Pass : clear implicits.

(** ** A Port of two Locations, its first refusing for good *)

Section witnesses.
Local Open Scope N_scope.

Definition loc_a : Sending N := {| configured_name := "A"; target := "tcp://a"; transport := 1 |}.
Definition loc_b : Sending N := {| configured_name := "B"; target := "tcp://b"; transport := 2 |}.

Definition two_locations : Sends N :=
  {| s_locations := [loc_a; loc_b]; s_groups := [];
     s_ports := [{| dp_name := "Out"; send_locations := ["A"; "B"];
                    retry := Some {| retry_attempts := 1; retry_backoff := "1s" |};
                    failover := Some FailoverNext |}];
     s_points := [] |}.

Definition refusing_a (again : bool) : World N :=
  {| owned := λ _, true; kept := λ _, Ok tt; permitted := λ _ _, (true, "allowed");
     resolved := λ _, None; holds_back := λ _, false;
     send_from := λ transport _,
       if transport =? 1 then (1%nat, Err (again, "refused")) else (1%nat, Ok tt) |}.

Example fails_over_to_b :
  depart_to subscriber_name (refusing_a false) two_locations (SendPort "Out")
    (of_attempts no_attempts) 0 =
  Some {| departed := [DepartFailed (SendPort "Out") false "refused"; Sent (SendPort "Out") None None];
          progress := {| sent := true; at_location := 1; tried := 1; given_up := None; p_fence := 0 |};
          moment := 14; calls := [(5%nat, loc_a); (12%nat, loc_b)] |}.
Proof. reflexivity. Qed.

Example tried_again_then_over :
  passes subscriber_name two_locations (SendPort "Out")
    [(refusing_a true, 0%nat); (refusing_a true, 50%nat)] (of_attempts no_attempts) =
  Some ([DepartFailed (SendPort "Out") true "refused"; DepartFailed (SendPort "Out") true "refused";
         Sent (SendPort "Out") None None],
        {| sent := true; at_location := 1; tried := 1; given_up := None; p_fence := 0 |}).
Proof. reflexivity. Qed.


Lemma retries_end_witness :
  ∃ ds p', passes subscriber_name two_locations (SendPort "Out")
             [(refusing_a true, 0%nat)] (of_attempts no_attempts) = Some (ds, p') ∧
    N.of_nat (length ds) ≤ all_tries (port two_locations "Out") ∧
    (waiting p' = true → N.of_nat (length ds) < all_tries (port two_locations "Out")) ∧
    (existsb departed_sent ds = sent p').
Proof.
  apply (retries_end subscriber_name two_locations "Out" [(refusing_a true, 0%nat)]);
    [simpl; lia|vm_compute; discriminate].
Defined.

Lemma attempts_kept_witness :
  of_attempts (to_attempts {| sent := false; at_location := 1; tried := 3; given_up := None;
                              p_fence := 9 |}) =
    {| sent := false; at_location := 1; tried := 3; given_up := None; p_fence := 0 |}.
Proof. apply attempts_kept; [reflexivity|vm_compute; discriminate]. Defined.
End witnesses.
