(* ===== verification/Sequence.v ===== *)
(** * Sequences: [src/sequence.rs], [src/sequence/group.rs], [src/sequence/late.rs]

    The places a Message takes at the points that name a Correlation, who
    heads a sequence, and the places taken late, once a Stream heads. What a
    process remembers to head ([Headed]) is kept beside Xmip Storage in the
    state every ask threads. *)

From Stdlib Require Import Ascii String.
From stdpp Require Import base numbers list strings gmap.
From S2P Require Import Prelude Journey Storage SmallStorage Keys Points Sending.

(** What a process has seen head its sequence: [Headed], a set of
    (queue, member), and the most it remembers. *)
Definition Headed : Type := gset (N * N).
Definition REMEMBERED : N := 65536.

(** [Headed::contains] and [Headed::remember]. *)
Definition contains (known : Headed) (place : N * N) : bool := bool_decide (place ∈ known).

Definition remember (known : Headed) (place : N * N) : Headed :=
  {[place]} ∪ (if (REMEMBERED <=? N.of_nat (size known))%N then ∅ else known).

(** A Journey a Publication opens: [ledger::publication::Opened]. *)
Record Opened := {
  opened_journey : Journey;
  subscription : string;
  opened_to : Subscriber;
  opened_group : option string
}.

Definition with_opened (o : Opened) (j : Journey) : Opened :=
  {| opened_journey := j; subscription := subscription o; opened_to := opened_to o;
     opened_group := opened_group o |}.

(** Where a Message stands as a step takes it up: [Placing]. *)
Inductive Placing := Behind | Placed | Lost.

(** A group told its queue, and the rest of it as it was. *)
Definition with_queue (g : GroupDelivery) (queue : N) : GroupDelivery :=
  {| group_name := group_name g; group_delivery := group_delivery g; group_queue := Some queue;
     group_skips := group_skips g; group_members := group_members g |}.

(** Two Journeys alike but for the places they hold. *)
Definition places_apart (j1 j2 : Journey) : Prop :=
  with_group (with_sequences j1 []) None = with_group (with_sequences j2 []) None ∧
  group_name <$> group j1 = group_name <$> group j2 ∧
  group_delivery <$> group j1 = group_delivery <$> group j2.

Section sequence.
Context {S T Message : Type} `{XmipStorage S} `{JourneyOps}.
(** [persist::storage::named], the configuration's words for a key, the
    Message's promoted names ([route::Gathering::promote]), a Journey as it
    is shown, and a Journey of no Subscription received as told
    ([Journey::new] and [received_as]). *)
Context (named : string → N) (shown : KeyWord → string)
  (promote : Message → result (string → option string) string)
  (show_id : N → string) (probe : Received → Journey).

Implicit Types sends : Sends T.

(** ** The places taken *)

(** [placed]: the Journey told each place as it is read, also where a later
    point refuses. *)
Fixpoint placed (cluster : string) (points : list Point) (journey : Journey)
    (promoted : string → option string) : Journey * result (list Hold) string :=
  match points with
  | [] => (journey, Ok [])
  | point :: rest =>
      match place named shown point cluster (journey_id journey) journey promoted with
      | Err why => (journey, Err why)
      | Ok hold =>
          let journey := with_sequences journey
            (sequences journey ++
               [{| seq_queue := hold_queue hold;
                   seq_skips := bool_decide (on_failure point = Skip) |}]) in
          let '(journey, places) := placed cluster rest journey promoted in
          (journey, let? places := places in Ok (hold :: places))
      end
  end.

(** [received]: where a Stream came in, and its origin's places. *)
Fixpoint received_places (cluster : string) (points : list Point) (origin : N)
    (probe : Journey) (promoted : string → option string) : result (list Hold) string :=
  match points with
  | [] => Ok []
  | point :: rest =>
      let? hold := place named shown point cluster origin probe promoted in
      let? places := received_places cluster rest origin probe promoted in
      Ok (hold :: places)
  end.

Definition received (cluster location port : string) (points : list Point)
    (origin : N) (message : Message) : result (Received * list Hold) string :=
  let received := {| rec_location := location; rec_port := port; rec_origin := origin;
                     rec_sequences := [];
                     rec_skips := existsb (λ p, bool_decide (on_failure p = Skip)) points |} in
  let? promoted := promote message in
  let? places := received_places cluster points origin (probe received) promoted in
  Ok ({| rec_location := location; rec_port := port; rec_origin := origin;
         rec_sequences := hold_queue <$> places; rec_skips := rec_skips received |}, places).

(** [points_of]. *)
Definition points_of sends (to : Subscriber) : list Point :=
  match to with
  | WorkProcess name =>
      List.filter (λ point, bool_decide (kind point = WorkProcessPoint) &&
                            String.eqb (point_name point) name) (s_points sends)
  | _ =>
      match Sending.to sends to with
      | Ports ports => concat (points <$> ports)
      | Process | Nowhere => []
      end
  end.

(** ** A Send Port Group's delivery: [sequence/group.rs] *)

(** [point]: the Group's sequence, where it names a Correlation. *)
Definition group_point sends (name : string) : option Point :=
  List.find (λ point, bool_decide (kind point = SendPortGroupPoint) &&
                      String.eqb (point_name point) name) (s_points sends).

(** One run of [opened]: those of its first one's Subscription and Group. *)
Definition same_delivery (one other : Opened) : bool :=
  String.eqb (subscription other) (subscription one) &&
  bool_decide (opened_group other = opened_group one).

Fixpoint run_length (one : Opened) (rest : list Opened) : nat :=
  match rest with
  | other :: rest => if same_delivery one other then Datatypes.S (run_length one rest) else 0
  | [] => 0
  end.

(** The delivery its members are told, its identifier the one minted [k]th. *)
Definition delivery_of (point : Point) (ids : nat → N) (k : nat) (members : list Opened) :
    GroupDelivery :=
  {| group_name := point_name point; group_delivery := ids k; group_queue := None;
     group_skips := bool_decide (on_failure point = Skip);
     group_members := (λ m, journey_id (opened_journey m)) <$> members |}.

Definition told (delivery : GroupDelivery) (o : Opened) : Opened :=
  with_opened o (with_group (opened_journey o) (Some delivery)).

(** [delivered]: run by run; each of a Group naming a Correlation mints one
    identifier. *)
Fixpoint delivered_from (fuel : nat) sends (opened : list Opened) (ids : nat → N) (k : nat) :
    list Opened :=
  match fuel, opened with
  | Datatypes.S fuel, one :: _ =>
      let length := run_length one opened in
      let members := take length opened in
      match opened_group one ≫= group_point sends with
      | Some point =>
          (told (delivery_of point ids k members) <$> members) ++
            delivered_from fuel sends (drop length opened) ids (Datatypes.S k)
      | None => members ++ delivered_from fuel sends (drop length opened) ids k
      end
  | _, _ => []
  end.

Definition delivered sends (opened : list Opened) (ids : nat → N) : list Opened :=
  delivered_from (length opened) sends opened ids 0.

(** [group_placed]. *)
Definition group_placed (cluster : string) sends (journey : Journey)
    (promoted : string → option string) : Journey * result (option Hold) string :=
  match group journey with
  | Some g =>
      match group_queue g with
      | Some _ => (journey, Ok None)
      | None =>
          match group_point sends (group_name g) with
          | None => (journey, Ok None)
          | Some point =>
              match place named shown point cluster (group_delivery g) journey promoted with
              | Err why => (journey, Err why)
              | Ok hold => (with_group journey (Some (with_queue g (hold_queue hold))), Ok (Some hold))
              end
          end
      end
  | None => (journey, Ok None)
  end.

(** [places]: those of every Journey a Publication opens, in their order. *)
Fixpoint places (cluster : string) sends (opened : list Opened)
    (promoted : string → option string) : list Opened * result (list Hold) string :=
  match opened with
  | [] => ([], Ok [])
  | one :: rest =>
      let '(journey, of_group) := group_placed cluster sends (opened_journey one) promoted in
      match of_group with
      | Err why => (with_opened one journey :: rest, Err why)
      | Ok of_group =>
          let '(journey, own) := placed cluster (points_of sends (opened_to one)) journey promoted in
          match own with
          | Err why => (with_opened one journey :: rest, Err why)
          | Ok own =>
              let '(rest, others) := places cluster sends rest promoted in
              (with_opened one journey :: rest,
               let? others := others in Ok (option_list of_group ++ own ++ others))
          end
      end
  end.

(** [grouped] and [waits_for_group]. *)
Definition grouped sends (to : Subscriber) : bool :=
  match to with
  | SendPort port =>
      existsb (λ group, existsb (String.eqb port) (send_ports group) &&
                        bool_decide (is_Some (group_point sends (sg_name group))))
        (s_groups sends)
  | _ => false
  end.

Definition waits_for_group sends (journey : Journey) : bool :=
  match group journey with
  | Some g => bool_decide (group_queue g = None) &&
              bool_decide (is_Some (group_point sends (group_name g)))
  | None => false
  end.

(** [waits_for_places]. *)
Definition waits_for_places sends (journey : Journey) (to : Subscriber) : bool :=
  waits_for_group sends journey ||
  (bool_decide (sequences journey = []) && negb (bool_decide (points_of sends to = []))).

(** ** Who heads a sequence *)

(** What a process threads: Xmip Storage, and what it remembers. *)
Definition seen : Type := S * Headed.

(** [heads]. *)
Definition heads (queue member : N) : asks seen bool := λ '(s, known),
  if contains known (queue, member) then ((s, known), Ok true)
  else
    match read_held s queue 0 1 with
    | (s, Err why) => ((s, known), Err why)
    | (s, Ok page) =>
        match page_held page with
        | first :: _ =>
            if (hold_member (held_hold first) =? member)%N
            then ((s, remember known (queue, member)), Ok true)
            else ((s, known), Ok false)
        | [] => ((s, known), Ok (page_count page =? 0)%N)
        end
    end.

Fixpoint heads_all (queues : list N) (member : N) : asks seen bool :=
  match queues with
  | [] => answer true
  | queue :: rest =>
      let! first := heads queue member in
      if first then heads_all rest member else answer false
  end.

(** [stream_heads] and [group_heads]. *)
Definition stream_heads (journey : Journey) : asks seen bool :=
  match Journey.received journey with
  | None => answer true
  | Some received => heads_all (rec_sequences received) (rec_origin received)
  end.

Definition group_heads (journey : Journey) : asks seen bool :=
  match group journey ≫= (λ g, (λ queue, (queue, group_delivery g)) <$> group_queue g) with
  | Some (queue, delivery) => heads queue delivery
  | None => answer true
  end.

(** ** Places taken late: [sequence/late.rs] *)

(** The write [take_late] makes: [placed]'s Journey and its places, the
    claim kept a lease on. *)
Definition late_hand_on (claim : Claim) (lease : N) (placed : Journey) (queued : list Hold) : HandOn :=
  {| ho_claim := claim; ho_result := journey_record placed; ho_messages := []; ho_next := [];
     ho_leaves := []; ho_queued := queued; ho_requeued := []; ho_failed := None;
     ho_cleared := []; ho_waits := None; ho_kept_for_nanos := Some (N.min lease u64_max) |}.

(** The places a Journey waiting for them takes: its Group's alone, or its
    points'. *)
Definition late_places (cluster : string) sends (journey : Journey) (to : Subscriber)
    (promoted : string → option string) : result (Journey * list Hold) string :=
  let '(placed_journey, of_group) := group_placed cluster sends journey promoted in
  let? of_group := of_group in
  match of_group with
  | Some hold => Ok (placed_journey, [hold])
  | None =>
      let '(placed_journey, own) := placed cluster (points_of sends to) placed_journey promoted in
      let? own := own in
      Ok (placed_journey, own)
  end.

(** [take_late]: the Journey as it is left, and whether the claim still
    held. *)
Definition take_late (cluster : string) sends (journey : Journey) (message : Message)
    (to : Subscriber) (claim : Claim) (lease : N) : asks seen (Journey * bool) := λ '(s, known),
  if negb (waits_for_places sends journey to) then ((s, known), Ok (journey, true))
  else
    match (let? promoted := promote message in late_places cluster sends journey to promoted) with
    | Err why => ((s, known), Err why)
    | Ok (placed, queued) =>
        match hand_on s (late_hand_on claim lease placed queued) with
        | (s, Ok true) => ((s, known), Ok (placed, true))
        | (s, Ok false) => ((s, known), Ok (journey, false))
        | (s, Err why) =>
            ((s, known), Err ("Xmip Storage did not take the places of the Message of the Journey "
                                +:+ show_id (journey_id journey) +:+ ": " +:+ why)%string)
        end
    end.

(** [heading]'s loop. *)
Fixpoint heading_loop (fuel : nat) (cluster : string) sends (journey : Journey)
    (message : Message) (to : Subscriber) (claim : Claim) (lease : N) :
    seen → option (seen * Journey * result Placing string) := λ w,
  match fuel with
  | 0 => None
  | Datatypes.S fuel =>
      match group_heads journey w with
      | (w, Err why) => Some (w, journey, Err why)
      | (w, Ok false) => Some (w, journey, Ok Behind)
      | (w, Ok true) =>
          if negb (waits_for_places sends journey to) then Some (w, journey, Ok Placed)
          else
            match take_late cluster sends journey message to claim lease w with
            | (w, Err why) => Some (w, journey, Err why)
            | (w, Ok (journey, false)) => Some (w, journey, Ok Lost)
            | (w, Ok (journey, true)) =>
                heading_loop fuel cluster sends journey message to claim lease w
            end
      end
  end.

(** Three turns: the Group's place, the rest, and the turn that finds
    nothing left to take. *)
Definition heading (cluster : string) sends (journey : Journey) (message : Message)
    (to : Subscriber) (claim : Claim) (lease : N) :
    seen → option (seen * Journey * result Placing string) := λ w,
  match stream_heads journey w with
  | (w, Err why) => Some (w, journey, Err why)
  | (w, Ok false) => Some (w, journey, Ok Behind)
  | (w, Ok true) => heading_loop 3 cluster sends journey message to claim lease w
  end.
End sequence.

Arguments take_late : simpl never.
Arguments heads : simpl never.

(** ** What a key's text leaves out

    The places a Journey holds are no part of any key. *)

Section placing.
Context {S T Message : Type} `{XmipStorage S} `{JourneyOps}.
Context (named : string → N) (shown : KeyWord → string)
  (promote : Message → result (string → option string) string)
  (show_id : N → string) (probe : Received → Journey).
Implicit Types sends : Sends T.

Lemma text_of_ext set j1 j2 promoted wp ks :
  (∀ k, key_value j1 promoted wp k = key_value j2 promoted wp k) →
  text_of shown set j1 promoted wp ks = text_of shown set j2 promoted wp ks.
Proof.
  intros Hk. induction ks as [|k ks IH]; simpl; [done|]. by rewrite Hk, IH.
Qed.

Lemma place_with_sequences p cluster member j s promoted :
  place named shown p cluster member (with_sequences j s) promoted =
  place named shown p cluster member j promoted.
Proof.
  unfold place, text, at_process.
  rewrite (text_of_ext _ (with_sequences j s) j); [done|]. by intros [].
Qed.

Lemma place_member p cluster member j promoted hold :
  place named shown p cluster member j promoted = Ok hold →
  hold_member hold = member ∧
  ∃ key, text shown (set p) j promoted (at_process p j) = Ok key ∧
    hold_queue hold = named (queue_text p cluster key).
Proof.
  unfold place. destruct (text _ _ _ _ _) as [key|]; simpl; [|done].
  intros [= <-]. split; [done|]. by exists key.
Qed.

(** One place for a point, and what the Journey is told of it. *)
Definition told_place (cluster : string) (member : N) (j : Journey)
    (promoted : string → option string) (p : Point) (told : Sequenced) (hold : Hold) : Prop :=
  place named shown p cluster member j promoted = Ok hold ∧
  told = {| seq_queue := hold_queue hold; seq_skips := bool_decide (on_failure p = Skip) |}.

Lemma with_sequences_twice j s1 s2 : with_sequences (with_sequences j s1) s2 = with_sequences j s2.
Proof. done. Qed.

Lemma with_sequences_same j : with_sequences j (sequences j) = j.
Proof. by destruct j. Qed.

Lemma placed_spec cluster pts j promoted j' r :
  placed named shown cluster pts j promoted = (j', r) →
  ∃ tolds, j' = with_sequences j (sequences j ++ tolds) ∧
    match r with
    | Ok holds => Forall3 (told_place cluster (journey_id j) j promoted) pts tolds holds
    | Err _ => length tolds < length pts
    end.
Proof.
  revert j j' r. induction pts as [|p pts IH]; intros j j' r; simpl.
  { intros [= <- <-]. exists []. rewrite app_nil_r, with_sequences_same. by repeat constructor. }
  destruct (place named shown p cluster (journey_id j) j promoted) as [hold|why] eqn:Hp.
  2:{ intros [= <- <-]. exists []. rewrite app_nil_r, with_sequences_same. split; [done|simpl; lia]. }
  destruct (placed _ _ _ _ _ _) as [j1 r1] eqn:Hrest. intros [= <- <-].
  apply IH in Hrest as (tolds & -> & Hr).
  eexists (_ :: tolds). split.
  { rewrite with_sequences_twice. simpl. by rewrite <- app_assoc. }
  destruct r1 as [holds|why]; simpl in *; [|lia].
  constructor; [done|].
  eapply Forall3_impl; [exact Hr|]. intros p' told hold' [Hp' ->].
  rewrite place_with_sequences in Hp'. done.
Qed.

(** How many turns [heading] has left to take places in. *)
Definition turns_left sends (j : Journey) (to : Subscriber) : nat :=
  (if waits_for_group sends j then 1 else 0) +
  (if bool_decide (sequences j = []) && negb (bool_decide (points_of sends to = [])) then 1 else 0).

Lemma turns_left_waits sends j to :
  waits_for_places sends j to = true ↔ 0 < turns_left sends j to.
Proof.
  unfold waits_for_places, turns_left.
  destruct (waits_for_group _ _), (_ && _); simpl; split; done || lia.
Qed.

Lemma group_placed_spec cluster sends j promoted j' r :
  group_placed named shown cluster sends j promoted = (j', r) →
  match r with
  | Ok (Some hold) => ∃ g p, group j = Some g ∧ group_queue g = None ∧
      group_point sends (group_name g) = Some p ∧
      place named shown p cluster (group_delivery g) j promoted = Ok hold ∧
      j' = with_group j (Some (with_queue g (hold_queue hold)))
  | Ok None => j' = j ∧ waits_for_group sends j = false
  | Err _ => j' = j ∧ waits_for_group sends j = true
  end.
Proof.
  unfold group_placed, waits_for_group. intros Hg.
  destruct (group j) as [g|] eqn:Hj; [|by simplify_eq].
  destruct (group_queue g) eqn:Hq; [by simplify_eq|].
  destruct (group_point sends (group_name g)) as [p|] eqn:Hp; [|by simplify_eq].
  destruct (place _ _ _ _ _ _ _) eqn:Hpl; simplify_eq; [by exists g, p|done].
Qed.

Lemma late_places_falls cluster sends j to promoted j' holds :
  waits_for_places sends j to = true →
  late_places named shown cluster sends j to promoted = Ok (j', holds) →
  turns_left sends j' to < turns_left sends j to.
Proof.
  unfold late_places. intros Hw.
  destruct (group_placed _ _ _ _ _ _) as [j1 og] eqn:Hg. apply group_placed_spec in Hg.
  destruct og as [[hold|]|why]; simpl; [| |done].
  - destruct Hg as (g & p & Hj & Hq & Hp & _ & ->). intros [= <- <-].
    unfold turns_left, waits_for_group. simpl. rewrite Hj, Hq, Hp. simpl. lia.
  - destruct Hg as [-> Hng].
    destruct (placed _ _ _ _ _ _) as [j2 [own|why]] eqn:Hp; simpl; [|done]. intros [= <- <-].
    apply placed_spec in Hp as (tolds & -> & Hall).
    unfold turns_left. apply turns_left_waits in Hw. revert Hw. unfold turns_left.
    unfold waits_for_group in *. simpl. rewrite Hng. simpl.
    destruct (bool_decide (sequences j = [])) eqn:Hs; simpl; [|lia].
    apply bool_decide_eq_true in Hs. rewrite Hs. simpl.
    case_bool_decide as Hpts; simpl; [lia|]. intros _.
    destruct Hall; [done|]. simpl. lia.
Qed.

Lemma take_late_falls cluster sends j message to claim lease (w w' : @seen S) j' :
  waits_for_places sends j to = true →
  take_late named shown promote show_id cluster sends j message to claim lease w =
    (w', Ok (j', true)) →
  turns_left sends j' to < turns_left sends j to.
Proof.
  unfold take_late. destruct w as [s known]. intros Hw. rewrite Hw. simpl.
  destruct (promote message) as [promoted|]; simpl; [|done].
  destruct (late_places _ _ _ _ _ _ _) as [[placed queued]|] eqn:Hl; [|done].
  destruct (hand_on _ _) as [s' [[]|]]; try done. intros [= <- <-].
  by eapply late_places_falls.
Qed.

Lemma heading_loop_returns fuel cluster sends j message to claim lease (w : @seen S) :
  turns_left sends j to < fuel →
  ∃ r, heading_loop named shown promote show_id fuel cluster sends j message to claim lease w
       = Some r.
Proof.
  revert j w. induction fuel as [|fuel IH]; intros j w Hf; [lia|]. simpl.
  destruct (group_heads j w) as [w1 [[]|]]; [|by eauto..].
  destruct (waits_for_places sends j to) eqn:Hw; simpl; [|eauto].
  destruct (take_late _ _ _ _ _ _ _ _ _ _ _ w1) as [w2 [[j2 []]|]] eqn:Ht; [|eauto..].
  apply IH. apply take_late_falls in Ht; [lia|done].
Qed.

(** Taking a Message's places as its step takes it up always returns:
    the loop takes its Group's place at most once and its points' at most
    once, whatever Xmip Storage answers. *)
Lemma heading_returns cluster sends j message to claim lease (w : @seen S) :
  ∃ r, heading named shown promote show_id cluster sends j message to claim lease w = Some r.
Proof.
  unfold heading. destruct (stream_heads j w) as [w1 [[]|]]; [|eauto..].
  apply heading_loop_returns. unfold turns_left. repeat case_match; lia.
Qed.
End placing.

(** ** What Xmip Storage promises of a queue

    Its members in their order; a read of its first entry, which changes no
    queue, is of its head, and says the queue holds none only where it is
    empty; a hand-on the claim held for adds what it queues at the end. *)

Class QueueLaws (S : Type) `{XmipStorage S} := {
  queue_of : S → N → list N;
  read_held_queues s q from most : queue_of (read_held s q from most).1 = queue_of s;
  read_held_first s s' q page : read_held s q 0 1 = (s', Ok page) →
    match page_held page with
    | first :: _ => hd_error (queue_of s q) = Some (hold_member (held_hold first))
    | [] => page_count page = 0%N → queue_of s q = []
    end;
  hand_on_queues s s' h : hand_on s h = (s', Ok true) → ho_leaves h = [] → ho_requeued h = [] →
    ∀ q, queue_of s' q = queue_of s q ++
           (hold_member <$> List.filter (λ hold, (hold_queue hold =? q)%N) (ho_queued h));
  hand_on_keeps s h : ho_leaves h = [] → ho_requeued h = [] →
    ∀ q m, m ∈ queue_of s q → m ∈ queue_of (hand_on s h).1 q
}.

Section heading_a_sequence.
Context {S : Type} `{QueueLaws S}.

(** Beside Xmip Storage and what this process remembers, every place ever
    let go. *)
Definition seen_gone : Type := @seen S * (N → N → bool).

(** Nothing but its own asks and every change of the Ledger: places let go
    by any node, and places taken at a queue's end, none that was let go
    before. *)
Inductive ledger_step : seen_gone → seen_gone → Prop :=
  | step_heads w gone queue member :
      ledger_step (w, gone) ((heads queue member w).1, gone)
  | step_ledger s s' known gone let_go fresh :
      (∀ q, queue_of s' q = List.filter (λ m, negb (let_go q m)) (queue_of s q) ++ fresh q) →
      (∀ q m, m ∈ fresh q → gone q m || let_go q m = false) →
      ledger_step ((s, known), gone) ((s', known), λ q m, gone q m || let_go q m).

(** What is remembered was let go, or heads its queue; what was let go is in
    none; no more is remembered than may be. *)
Definition remembers_rightly (w : seen_gone) : Prop :=
  let '((s, known), gone) := w in
  (∀ q m, (q, m) ∈ known → gone q m = true ∨ hd_error (queue_of s q) = Some m) ∧
  (∀ q m, m ∈ queue_of s q → gone q m = false) ∧
  (N.of_nat (size known) ≤ REMEMBERED)%N.

Lemma remember_size (known : Headed) place : (N.of_nat (size known) ≤ REMEMBERED →
  N.of_nat (size (remember known place)) ≤ REMEMBERED)%N.
Proof.
  unfold remember. intros Hs.
  destruct (REMEMBERED <=? N.of_nat (size known))%N eqn:Hle.
  - rewrite (right_id_L ∅ (∪)), size_singleton. done.
  - apply N.leb_gt in Hle. pose proof (size_union_alt {[place]} known) as Hu.
    rewrite Hu, size_singleton. pose proof (subseteq_size (known ∖ {[place]}) known ltac:(set_solver)).
    lia.
Qed.

Lemma elem_of_remember (known : Headed) place other :
  other ∈ remember known place → other = place ∨ other ∈ known.
Proof. unfold remember. case_match; set_solver. Qed.

Lemma heads_queues queue member s (known : Headed) :
  queue_of (heads queue member (s, known)).1.1 = queue_of s.
Proof.
  pose proof (read_held_queues s queue 0 1) as Hq. unfold heads.
  case_match; [done|]. destruct (read_held s queue 0 1) as [s' [page|why]]; [|done].
  destruct (page_held page) as [|first rest]; [done|]. by destruct (_ =? _)%N.
Qed.

Lemma heads_remembers w gone queue member :
  remembers_rightly (w, gone) → remembers_rightly ((heads queue member w).1, gone).
Proof.
  destruct w as [s known]. intros (Hk & Hg & Hs).
  pose proof (read_held_queues s queue 0 1) as Hq.
  pose proof (read_held_first s) as Hf. unfold heads.
  destruct (contains known (queue, member)); [done|].
  destruct (read_held s queue 0 1) as [s' [page|why]] eqn:Hr; simpl in Hq.
  2:{ simpl. rewrite Hq. done. }
  specialize (Hf _ _ _ Hr).
  destruct (page_held page) as [|first rest]; [simpl; rewrite Hq; done|].
  destruct (_ =? _)%N eqn:Hm; simpl; rewrite Hq; [|done].
  apply N.eqb_eq in Hm as <-. split_and!; [|done|by apply remember_size].
  intros q m [[= -> ->]|Hin]%elem_of_remember; [by right|auto].
Qed.

Lemma head_kept (f : N → bool) l m fresh :
  hd_error l = Some m → f m = true → hd_error (List.filter f l ++ fresh) = Some m.
Proof. destruct l; [done|]. intros [= ->] Hf. simpl. by rewrite Hf. Qed.

Lemma ledger_step_remembers w1 w2 :
  remembers_rightly w1 → ledger_step w1 w2 → remembers_rightly w2.
Proof.
  intros Hw Hstep. destruct Hstep as [w gone queue member|s s' known gone let_go fresh Hq Hfresh].
  { by apply heads_remembers. }
  destruct Hw as (Hk & Hg & Hs). split_and!; [|intros q m; rewrite Hq|done].
  - intros q m Hin. rewrite Hq. destruct (gone q m) eqn:Hgone; [by left|].
    destruct (let_go q m) eqn:Hlet; [by left|]. right.
    destruct (Hk _ _ Hin) as [?|Hh]; [congruence|]. apply head_kept; [done|by rewrite Hlet].
  - rewrite elem_of_app. intros [Hin|Hin]; [|by apply Hfresh].
    apply list_elem_of_In, filter_In in Hin as [Hin%list_elem_of_In Hlet%negb_true_iff].
    by rewrite (Hg _ _ Hin), Hlet.
Qed.

Lemma remembers_nothing s : remembers_rightly ((s, ∅), λ _ _, false).
Proof. split_and!; [set_solver|done|]. by rewrite size_empty. Qed.

(** What an ask of a place still held answers is so, and leaves what is
    remembered right. *)
Lemma heads_true s (known : Headed) gone queue member s' known' :
  remembers_rightly ((s, known), gone) →
  heads queue member (s, known) = ((s', known'), Ok true) →
  (member ∈ queue_of s queue → hd_error (queue_of s queue) = Some member) ∧
  queue_of s' = queue_of s ∧ remembers_rightly ((s', known'), gone).
Proof.
  intros Hw Ht. pose proof (heads_remembers _ _ queue member Hw) as Hw'.
  pose proof (heads_queues queue member s known) as Hq. rewrite Ht in Hw', Hq. simpl in Hw', Hq.
  destruct Hw as (Hk & Hg & _). split; [intros Hin|by split].
  revert Ht. unfold heads.
  destruct (contains known (queue, member)) eqn:Hc.
  { intros _. apply bool_decide_eq_true in Hc. destruct (Hk _ _ Hc) as [Hgone|]; [|done].
    rewrite (Hg _ _ Hin) in Hgone. done. }
  destruct (read_held s queue 0 1) as [s1 [page|why]] eqn:Hr; [|done].
  pose proof (read_held_first _ _ _ _ Hr) as Hf.
  destruct (page_held page) as [|first rest]; simpl.
  - intros [= _ _ Hz%N.eqb_eq]. rewrite Hf in Hin by done. by apply elem_of_nil in Hin.
  - destruct (_ =? _)%N eqn:Hm; [|done]. by apply N.eqb_eq in Hm as <-.
Qed.

(** C4. What a process remembers of sequences never answers wrongly: in any
    run of the process and of the Ledger, however places are taken and let
    go by other nodes between its asks, a place still held is answered to
    head its sequence only where it is the first there, and no more places
    are remembered than the most. *)
Theorem heads_truthful s w known gone queue member :
  rtc ledger_step ((s, ∅), λ _ _, false) ((w, known), gone) →
  member ∈ queue_of w queue →
  (heads queue member (w, known)).2 = Ok true →
  hd_error (queue_of w queue) = Some member ∧ (N.of_nat (size known) ≤ REMEMBERED)%N.
Proof.
  intros Hrun Hin Ht.
  assert (remembers_rightly ((w, known), gone)) as (Hk & Hg & Hs).
  { eapply rtc_invariant; [apply ledger_step_remembers|apply remembers_nothing|done]. }
  split; [|done].
  destruct (heads queue member (w, known)) as [[w' known'] r] eqn:Hh. simpl in Ht. subst r.
  by apply (heads_true w known gone queue member w' known').
Qed.

Lemma heads_all_true queues member s (known : Headed) gone s' known' :
  remembers_rightly ((s, known), gone) →
  heads_all queues member (s, known) = ((s', known'), Ok true) →
  (∀ q, q ∈ queues → member ∈ queue_of s q → hd_error (queue_of s q) = Some member) ∧
  queue_of s' = queue_of s ∧ remembers_rightly ((s', known'), gone).
Proof.
  revert s known. induction queues as [|q queues IH]; intros s known Hw; simpl.
  { intros [= <- <-]. split; [by intros q ?%elem_of_nil|by split]. }
  unfold asks_bind. destruct (heads q member (s, known)) as [[s1 known1] [[]|why]] eqn:Hh; [|done..].
  apply (heads_true _ _ gone) in Hh as (Hhd & Hq & Hw1); [|done].
  intros Hall. apply IH in Hall as (Hrest & Hq' & Hw'); [|done].
  rewrite Hq in Hrest, Hq'. split; [|by split].
  intros q' [->|Hin]%elem_of_cons; auto.
Qed.
End heading_a_sequence.

(** ** A Send Port Group's deliveries *)

Section deliveries.
Context {T : Type}.
Implicit Types sends : Sends T.

Definition delivery_id (o : Opened) : option N := group_delivery <$> group (opened_journey o).

(** Who is told the delivery [d], in their order. *)
Definition told_of (d : N) (out : list Opened) : list N :=
  (λ o, journey_id (opened_journey o)) <$> List.filter (λ o, bool_decide (delivery_id o = Some d)) out.

Definition opens_through sends (o : Opened) : bool :=
  bool_decide (is_Some (opened_group o ≫= group_point sends)).

Lemma run_length_same one rest : Forall (λ o, same_delivery one o = true) (take (run_length one rest) rest).
Proof. induction rest as [|o rest IH]; simpl; [constructor|]. case_match; simpl; by constructor. Qed.

Lemma run_length_next one rest b :
  rest !! run_length one rest = Some b → same_delivery one b = false.
Proof.
  induction rest as [|o rest IH]; simpl; [done|].
  destruct (same_delivery one o) eqn:Ho; simpl; [done|]. by intros [= <-].
Qed.

Lemma same_delivery_refl o : same_delivery o o = true.
Proof. unfold same_delivery. rewrite String.eqb_refl. by rewrite bool_decide_eq_true_2. Qed.

Lemma same_delivery_iff a b :
  same_delivery a b = true ↔ subscription b = subscription a ∧ opened_group b = opened_group a.
Proof. unfold same_delivery. by rewrite andb_true_iff, String.eqb_eq, bool_decide_eq_true. Qed.

Lemma run_length_cons one rest : 0 < run_length one (one :: rest).
Proof. simpl. rewrite same_delivery_refl. lia. Qed.

(** What the telling leaves: each as it was but for its Group's delivery. *)
Definition like (o o' : Opened) : Prop :=
  subscription o' = subscription o ∧ opened_group o' = opened_group o ∧
  opened_to o' = opened_to o ∧
  with_group (opened_journey o') None = with_group (opened_journey o) None.

Lemma like_refl o : like o o.
Proof. done. Qed.

Lemma told_of_app d l1 l2 : told_of d (l1 ++ l2) = told_of d l1 ++ told_of d l2.
Proof. unfold told_of. by rewrite List.filter_app, fmap_app. Qed.

Lemma told_of_none d l : Forall (λ o, delivery_id o ≠ Some d) l → told_of d l = [].
Proof.
  unfold told_of. induction 1 as [|o l Ho _ IH]; simpl; [done|].
  by rewrite bool_decide_eq_false_2.
Qed.

Lemma told_of_told d l : told_of (group_delivery d) (told d <$> l) =
  (λ m, journey_id (opened_journey m)) <$> l.
Proof.
  unfold told_of. induction l as [|o l IH]; simpl; [done|].
  rewrite bool_decide_eq_true_2 by done. simpl. by f_equal.
Qed.

(** What [delivered_from] makes, with identifiers from the [k]th on. *)
Record deliveries_ok sends (ids : nat → N) (k : nat) (opened out : list Opened) : Prop := {
  d_like : Forall2 like opened out;
  d_through : Forall (λ o, bool_decide (is_Some (group (opened_journey o))) = opens_through sends o) out;
  d_members : Forall (λ o, ∀ d, group (opened_journey o) = Some d →
      (∃ n, k ≤ n ∧ group_delivery d = ids n) ∧ group_members d = told_of (group_delivery d) out ∧
      group_queue d = None ∧
      (∃ p, opened_group o ≫= group_point sends = Some p ∧ group_name d = point_name p ∧
            group_skips d = bool_decide (on_failure p = Skip))) out;
  d_apart : ∀ i a b da db, out !! i = Some a → out !! Datatypes.S i = Some b →
      delivery_id a = Some da → delivery_id b = Some db → da = db ↔ same_delivery a b = true
}.

Lemma deliveries_later sends ids k opened out :
  deliveries_ok sends ids (Datatypes.S k) opened out → deliveries_ok sends ids k opened out.
Proof.
  intros [Hl Ht Hm Ha]. split; [done|done| |done].
  eapply Forall_impl; [exact Hm|]. intros o Ho d Hd.
  destruct (Ho d Hd) as ((n & ? & ?) & ?). split; [exists n; split; [lia|done]|done].
Qed.

(** The next run's identifiers are none of an earlier one's. *)
Lemma deliveries_apart sends ids k opened out o :
  deliveries_ok sends ids k opened out → o ∈ out →
  ∀ x, delivery_id o = Some x → ∃ n, k ≤ n ∧ x = ids n.
Proof.
  intros [_ _ Hm _] Hin x. rewrite Forall_forall in Hm. specialize (Hm o Hin).
  unfold delivery_id. destruct (group (opened_journey o)) as [d|]; [|done].
  intros [= <-]. by destruct (Hm d eq_refl) as [? _].
Qed.

(** The neighbours of a run and of what follows it. *)
Lemma app_apart (P : Opened → Opened → Prop) l1 l2 :
  (∀ i a b, l1 !! i = Some a → l1 !! Datatypes.S i = Some b → P a b) →
  (∀ i a b, l2 !! i = Some a → l2 !! Datatypes.S i = Some b → P a b) →
  (∀ a b, a ∈ l1 → head l2 = Some b → P a b) →
  ∀ i a b, (l1 ++ l2) !! i = Some a → (l1 ++ l2) !! Datatypes.S i = Some b → P a b.
Proof.
  intros H1 H2 Hb i a b Hi HSi.
  destruct (decide (Datatypes.S i < length l1)) as [Hlt|Hge].
  - rewrite lookup_app_l in Hi, HSi by lia. eauto.
  - destruct (decide (i < length l1)) as [Hlast|Hpast].
    + rewrite lookup_app_l in Hi by lia. rewrite lookup_app_r in HSi by lia.
      replace (Datatypes.S i - length l1) with 0 in HSi by lia.
      apply Hb; [by eapply list_elem_of_lookup_2|by destruct l2].
    + rewrite lookup_app_r in Hi, HSi by lia.
      replace (Datatypes.S i - length l1) with (Datatypes.S (i - length l1)) in HSi by lia. eauto.
Qed.

(** One run told [D] — a delivery of its own, or none — before the rest. *)
Record run_told sends (ids : nat → N) (k k' : nat) (one : Opened) (members out1 : list Opened)
    (D : option GroupDelivery) : Prop := {
  r_like : Forall2 like members out1;
  r_same : Forall (λ o, group (opened_journey o) = D ∧ same_delivery one o = true) out1;
  r_through : bool_decide (is_Some D) = opens_through sends one;
  r_next : k ≤ k';
  r_told : ∀ d, D = Some d → group_delivery d = ids k ∧ k < k' ∧ group_queue d = None ∧
    group_members d = (λ m, journey_id (opened_journey m)) <$> out1 ∧
    (∃ p, opened_group one ≫= group_point sends = Some p ∧ group_name d = point_name p ∧
          group_skips d = bool_decide (on_failure p = Skip))
}.

Lemma told_of_run d out1 :
  Forall (λ o, group (opened_journey o) = Some d) out1 →
  told_of (group_delivery d) out1 = (λ m, journey_id (opened_journey m)) <$> out1.
Proof.
  unfold told_of, delivery_id. induction 1 as [|o out1 Ho _ IH]; simpl; [done|].
  rewrite Ho, bool_decide_eq_true_2 by done. simpl. by f_equal.
Qed.

Lemma deliveries_members sends ids k k' one members rem out1 out2 D :
  Inj (=) (=) ids → run_told sends ids k k' one members out1 D →
  deliveries_ok sends ids k' rem out2 →
  Forall (λ o, ∀ d, group (opened_journey o) = Some d →
      (∃ n, k ≤ n ∧ group_delivery d = ids n) ∧
      group_members d = told_of (group_delivery d) (out1 ++ out2) ∧ group_queue d = None ∧
      (∃ p, opened_group o ≫= group_point sends = Some p ∧ group_name d = point_name p ∧
            group_skips d = bool_decide (on_failure p = Skip))) (out1 ++ out2).
Proof.
  intros Hinj [Hl Hs Ht Hk Hd] Hok. rewrite Forall_app. split.
  - rewrite Forall_forall in Hs |- *. intros o Ho d Hg. destruct (Hs o Ho) as [Hgo Hso].
    rewrite Hg in Hgo. symmetry in Hgo. destruct (Hd d Hgo) as (Hid & Hlt & Hq & Hm & Hp).
    apply same_delivery_iff in Hso as [_ ->]. split_and!; [by exists k| |done|done].
    rewrite told_of_app, (told_of_none _ out2), app_nil_r, told_of_run; [done| |].
    + apply Forall_forall. intros o' Ho'. rewrite <- Hgo. by apply Hs.
    + apply Forall_forall. intros o' Ho' Heq.
      destruct (deliveries_apart _ _ _ _ _ _ Hok Ho' _ Heq) as (n & Hn & Hids).
      rewrite Hid in Hids. apply (inj ids) in Hids. lia.
  - pose proof (d_members _ _ _ _ _ Hok) as Hm2. rewrite Forall_forall in Hm2 |- *.
    intros o Ho d Hg. destruct (Hm2 o Ho d Hg) as ((n & Hn & Hids) & Hm & Hrest).
    split_and!; [exists n; split; [lia|done]| |apply Hrest|apply Hrest].
    rewrite told_of_app, (told_of_none _ out1); [done|].
    apply Forall_forall. intros o' Ho'. rewrite Forall_forall in Hs.
    destruct (Hs o' Ho') as [Hg' _]. unfold delivery_id. rewrite Hg'. destruct D as [d'|]; [|done].
    simpl. intros [= Heq]. destruct (Hd d' eq_refl) as (Hid' & ? & _).
    rewrite Hid', Hids in Heq. apply (inj ids) in Heq. lia.
Qed.

Lemma deliveries_app sends ids k k' one members rem out1 out2 D :
  Inj (=) (=) ids → run_told sends ids k k' one members out1 D →
  (∀ b, head rem = Some b → same_delivery one b = false) →
  deliveries_ok sends ids k' rem out2 →
  deliveries_ok sends ids k (members ++ rem) (out1 ++ out2).
Proof.
  intros Hinj Hrun Hnext Hok. pose proof (deliveries_members _ _ _ _ _ _ _ _ _ _ Hinj Hrun Hok).
  destruct Hrun as [Hl Hs Ht Hk Hd]. pose proof Hok as [Hl2 Ht2 Hm2 Ha2]. rewrite Forall_forall in Hs.
  split; [by apply Forall2_app| |done|].
  - apply Forall_app. split; [|done]. apply Forall_forall. intros o Ho.
    destruct (Hs o Ho) as [-> [_ Hog]%same_delivery_iff]. rewrite Ht.
    unfold opens_through. by rewrite Hog.
  - intros i a b da db Hi HSi. revert da db.
    apply (app_apart (λ a b, ∀ da db, delivery_id a = Some da → delivery_id b = Some db →
      da = db ↔ same_delivery a b = true)) with (l1 := out1) (l2 := out2) (i := i); [..|done|done].
    + clear Hi HSi. intros j a' b' Hj%list_elem_of_lookup_2 HSj%list_elem_of_lookup_2 da db.
      destruct (Hs _ Hj) as [Hga [Hsa Hoa]%same_delivery_iff].
      destruct (Hs _ HSj) as [Hgb [Hsb Hob]%same_delivery_iff].
      unfold delivery_id. rewrite Hga, Hgb, same_delivery_iff. intros -> [= ->].
      split; [intros _; by split; congruence|done].
    + intros j a' b' Hj HSj da db. by apply (Ha2 j).
    + clear Hi HSi. intros a' b' Ha' Hb' da db.
      destruct (Hs _ Ha') as [Hga [Hsa Hoa]%same_delivery_iff].
      destruct out2 as [|b2 out2]; [done|]. injection Hb' as ->.
      destruct rem as [|r rem]; [by inversion Hl2|].
      apply Forall2_cons in Hl2 as [(Hrs & Hrg & _) _].
      specialize (Hnext r eq_refl). unfold delivery_id at 1. rewrite Hga.
      destruct D as [d|]; [|done]. intros [= <-] Hdb. split.
      * intros Heq. exfalso. destruct (Hd d eq_refl) as (Hid & ? & _).
        destruct (deliveries_apart _ _ _ _ _ b' Hok ltac:(left) _ Hdb) as (n & Hn & Hids).
        rewrite <- Heq, Hid in Hids. apply (inj ids) in Hids. lia.
      * intros [H1 H2]%same_delivery_iff. exfalso.
        assert (same_delivery one r = true) by (apply same_delivery_iff; split; congruence).
        congruence.
Qed.

Lemma like_told d l : Forall2 like l (told d <$> l).
Proof. induction l; simpl; by constructor. Qed.

Lemma like_all l : Forall2 like l l.
Proof. induction l; by constructor. Qed.

Lemma delivered_from_ok fuel sends opened ids k :
  Inj (=) (=) ids → length opened ≤ fuel →
  Forall (λ o, group (opened_journey o) = None) opened →
  deliveries_ok sends ids k opened (delivered_from fuel sends opened ids k).
Proof.
  intros Hinj. revert opened k. induction fuel as [|fuel IH]; intros opened k Hf Hnone.
  { destruct opened; [|simpl in Hf; lia]. by repeat constructor. }
  destruct opened as [|one rest]; [by repeat constructor|].
  change (delivered_from _ _ _ _ _) with
    (let n := run_length one (one :: rest) in
     let members := take n (one :: rest) in
     match opened_group one ≫= group_point sends with
     | Some point => (told (delivery_of point ids k members) <$> members) ++
         delivered_from fuel sends (drop n (one :: rest)) ids (Datatypes.S k)
     | None => members ++ delivered_from fuel sends (drop n (one :: rest)) ids k
     end). cbv zeta.
  pose proof (run_length_cons one rest) as Hpos.
  pose proof (run_length_same one (one :: rest)) as Hsame.
  assert (∀ b, head (drop (run_length one (one :: rest)) (one :: rest)) = Some b →
    same_delivery one b = false) as Hnext.
  { intros b Hb. apply (run_length_next one (one :: rest)).
    rewrite <- (Nat.add_0_r (run_length _ _)), <- lookup_drop. by destruct (drop _ _). }
  set (n := run_length one (one :: rest)) in *. set (opened := one :: rest) in *.
  assert (length (drop n opened) ≤ fuel) as Hshort.
  { rewrite length_drop. unfold opened in *. simpl in *. lia. }
  assert (Forall (λ o, group (opened_journey o) = None) (drop n opened)) as Hn2.
  { by apply Forall_drop. }
  rewrite <- (take_drop n opened) at 1.
  apply Forall_take with (n := n) in Hnone.
  destruct (opened_group one ≫= group_point sends) as [point|] eqn:Hp.
  - eapply (deliveries_app _ _ _ (Datatypes.S k) one); [done| |exact Hnext|by apply IH].
    split with (D := Some (delivery_of point ids k (take n opened))).
    + apply like_told.
    + apply Forall_fmap. eapply Forall_impl; [exact Hsame|]. intros o Ho. split; [done|].
      by apply same_delivery_iff in Ho as []; apply same_delivery_iff.
    + unfold opens_through. by rewrite Hp.
    + lia.
    + intros d [= <-]. split_and!; [done|lia|done| |by exists point].
      simpl. rewrite <- list_fmap_compose. by apply list_fmap_ext.
  - eapply (deliveries_app _ _ _ k one); [done| |exact Hnext|by apply IH].
    split with (D := None); [apply like_all| |unfold opens_through; by rewrite Hp|lia|done].
    rewrite Forall_forall in Hnone, Hsame |- *. intros o Ho. auto.
Qed.

(** Every Journey a Publication opens through a Send Port Group that
    names a Correlation, and no other, is told a delivery: its members are
    just those told the same one, in their order; two neighbours are told
    the same where one Subscription opened both through one Group; it has
    no place yet; and nothing else of any Journey changes. *)
Theorem delivered_sets sends opened ids i o :
  Inj (=) (=) ids → Forall (λ o, group (opened_journey o) = None) opened →
  let out := delivered sends opened ids in
  opened !! i = Some o →
  ∃ o', out !! i = Some o' ∧ like o o' ∧
    (is_Some (group (opened_journey o')) ↔ is_Some (opened_group o ≫= group_point sends)) ∧
    (∀ d, group (opened_journey o') = Some d →
       group_members d = told_of (group_delivery d) out ∧ group_queue d = None) ∧
    (∀ next d dn, out !! Datatypes.S i = Some next →
       delivery_id o' = Some d → delivery_id next = Some dn →
       d = dn ↔ same_delivery o' next = true).
Proof.
  intros Hinj Hnone out Ho.
  destruct (delivered_from_ok (length opened) sends opened ids 0 Hinj (le_n _) Hnone) as [Hl Ht Hm Ha].
  destruct (Forall2_lookup_l _ _ _ _ _ Hl Ho) as (o' & Ho' & Hlike).
  exists o'. split_and!; [done|done| | |].
  - rewrite Forall_forall in Ht. specialize (Ht o' ltac:(by eapply list_elem_of_lookup_2)).
    destruct Hlike as (_ & Hog & _). unfold opens_through in Ht. rewrite Hog in Ht.
    exact (bool_decide_same _ _ Ht).
  - intros d Hd. rewrite Forall_forall in Hm.
    destruct (Hm o' ltac:(by eapply list_elem_of_lookup_2) d Hd) as (_ & ? & ? & _). done.
  - intros next d dn Hn Hd Hdn. by apply (Ha i).
Qed.
End deliveries.

(** ** Places told are places held *)

Section told_places.
Context {S T Message : Type} `{QueueLaws S} `{JourneyOps}.
Context (named : string → N) (shown : KeyWord → string)
  (promote : Message → result (string → option string) string) (show_id : N → string).
Implicit Types sends : Sends T.

(** Every place the Journey was told, it holds: its own at its points, its
    delivery's at its Group. *)
Definition holds_told (s : S) (j : Journey) : Prop :=
  Forall (λ sq, journey_id j ∈ queue_of s (seq_queue sq)) (sequences j) ∧
  ∀ g q, group j = Some g → group_queue g = Some q → group_delivery g ∈ queue_of s q.

Lemma holds_told_kept s s' j :
  (∀ q m, m ∈ queue_of s q → m ∈ queue_of s' q) → holds_told s j → holds_told s' j.
Proof.
  intros Hk [Hs Hg]. split; [|eauto]. eapply Forall_impl; [exact Hs|]. simpl. auto.
Qed.

Lemma heads_all_queues queues member s (known : Headed) :
  queue_of (heads_all queues member (s, known)).1.1 = queue_of s.
Proof.
  revert s known. induction queues as [|q queues IH]; intros s known; [done|]. simpl. unfold asks_bind.
  pose proof (heads_queues q member s known) as Hq.
  destruct (heads q member (s, known)) as [[s1 known1] [[]|why]]; simpl in *; [|done|done].
  by rewrite IH.
Qed.

Lemma stream_heads_queues j s (known : Headed) :
  queue_of (stream_heads j (s, known)).1.1 = queue_of s.
Proof. unfold stream_heads. destruct (Journey.received j); [apply heads_all_queues|done]. Qed.

Lemma group_heads_queues j s (known : Headed) :
  queue_of (group_heads j (s, known)).1.1 = queue_of s.
Proof. unfold group_heads. destruct (_ ≫= _) as [[]|]; [apply heads_queues|done]. Qed.

(** The places [late_places] finds are those it tells the Journey. *)
Lemma late_places_told cluster sends j to promoted j' holds s s' :
  late_places named shown cluster sends j to promoted = Ok (j', holds) →
  (∀ q, queue_of s' q = queue_of s q ++
     (hold_member <$> List.filter (λ hold, (hold_queue hold =? q)%N) holds)) →
  holds_told s j → holds_told s' j'.
Proof.
  intros Hl Hq Ht.
  assert (∀ hold, hold ∈ holds → hold_member hold ∈ queue_of s' (hold_queue hold)) as Hheld.
  { intros hold Hin. rewrite Hq, elem_of_app. right. apply list_elem_of_fmap. exists hold.
    split; [done|]. apply list_elem_of_In, filter_In.
    by rewrite N.eqb_refl, <- list_elem_of_In. }
  apply (holds_told_kept s s') in Ht as [Hs Hg].
  2:{ intros q m Hin. rewrite Hq, elem_of_app. by left. }
  revert Hl. unfold late_places.
  destruct (group_placed _ _ _ _ _ _) as [j1 og] eqn:Hgp. apply group_placed_spec in Hgp.
  destruct og as [[hold|]|why]; simpl; [| |done].
  - destruct Hgp as (g & p & Hj & Hqn & Hp & Hpl & ->). intros [= <- <-].
    split; [done|]. simpl. intros g' q [= <-] [= <-]. simpl.
    apply place_member in Hpl as [<- _]. apply Hheld. left.
  - destruct Hgp as [-> Hng].
    destruct (placed _ _ _ _ _ _) as [j2 [own|why]] eqn:Hp; simpl; [|done]. intros [= <- <-].
    apply placed_spec in Hp as (tolds & -> & Hall). split; [|done]. simpl.
    apply Forall_app. split; [done|].
    clear -Hall Hheld. induction Hall as [|p told hold pts tolds own [Hpl ->] Hall IH]; constructor.
    + simpl. apply place_member in Hpl as [<- _]. apply Hheld. left.
    + apply IH. intros hold' Hin. apply Hheld. by right.
Qed.

Lemma take_late_told cluster sends j message to claim lease s (known : Headed) s' known' r :
  holds_told s j →
  take_late named shown promote show_id cluster sends j message to claim lease (s, known) =
    ((s', known'), r) →
  holds_told s' (match r with Ok (j', _) => j' | Err _ => j end).
Proof.
  intros Ht. unfold take_late.
  destruct (negb _); [by intros [= <- <- <-]|].
  destruct (promote message) as [promoted|]; simpl; [|by intros [= <- <- <-]].
  destruct (late_places _ _ _ _ _ _ _) as [[j1 queued]|] eqn:Hl; [|by intros [= <- <- <-]].
  pose proof (hand_on_keeps s (late_hand_on claim lease j1 queued) eq_refl eq_refl) as Hk.
  destruct (hand_on _ _) as [s1 [[]|]] eqn:Hh; simpl in Hk; intros [= <- <- <-].
  - eapply late_places_told; [exact Hl| |exact Ht].
    exact (hand_on_queues _ _ _ Hh eq_refl eq_refl).
  - by eapply holds_told_kept.
  - by eapply holds_told_kept.
Qed.

Lemma heading_loop_told fuel cluster sends j message to claim lease s (known : Headed) s' known' j' r :
  holds_told s j →
  heading_loop named shown promote show_id fuel cluster sends j message to claim lease (s, known) =
    Some ((s', known'), j', r) →
  holds_told s' j' ∧ (r = Ok Placed → waits_for_places sends j' to = false).
Proof.
  revert j s known. induction fuel as [|fuel IH]; intros j s known Ht; simpl; [done|].
  pose proof (group_heads_queues j s known) as Hq.
  destruct (group_heads j (s, known)) as [[s1 known1] [[]|why]]; simpl in Hq.
  2,3: intros [= <- <- <- <-]; split; [eapply holds_told_kept; [|exact Ht]; by rewrite Hq|done].
  apply (holds_told_kept s s1) in Ht; [|by rewrite Hq].
  destruct (waits_for_places sends j to) eqn:Hw; simpl; [|by intros [= <- <- <- <-]].
  destruct (take_late _ _ _ _ _ _ _ _ _ _ _ _) as [[s2 known2] r2] eqn:Hl.
  eapply take_late_told in Hl as Ht2; [|exact Ht].
  destruct r2 as [[j2 []]|why]; [|by intros [= <- <- <- <-]..].
  intros Hloop. by eapply IH.
Qed.

(** C5. However taking its places ends — placed, behind, its claim lost, or
    Xmip Storage refusing part of the way — a Journey is told no place it
    does not hold, and one found placed waits for none. *)
Theorem places_told_are_held cluster sends j message to claim lease s (known : Headed)
    s' known' j' r :
  holds_told s j →
  heading named shown promote show_id cluster sends j message to claim lease (s, known) =
    Some ((s', known'), j', r) →
  holds_told s' j' ∧ (r = Ok Placed → waits_for_places sends j' to = false).
Proof.
  intros Ht. unfold heading. pose proof (stream_heads_queues j s known) as Hq.
  destruct (stream_heads j (s, known)) as [[s1 known1] [[]|why]]; simpl in Hq.
  - apply heading_loop_told. eapply holds_told_kept; [|exact Ht]. by rewrite Hq.
  - intros [= <- <- <- <-]. split; [|done]. eapply holds_told_kept; [|exact Ht]. by rewrite Hq.
  - intros [= <- <- <- <-]. split; [|done]. eapply holds_told_kept; [|exact Ht]. by rewrite Hq.
Qed.
End told_places.

(** ** At a concrete queue *)

#[export] Instance small_queue_laws : QueueLaws small.
Proof.
  split with (queue_of := small_queue); [done| |apply small_hand_on_queues|].
  - intros s s' q page [= <- <-]. unfold small_queue. simpl.
    rewrite (filter_all (λ e, (0 <=? sequence e)%N)) by (intros; apply N.leb_le; lia).
    by destruct (of_queue s q).
  - intros s h Hl Hr q m Hin. destruct (small_hand_on s h) as [s' r] eqn:Hh; simpl.
    change (hand_on s h) with (small_hand_on s h). rewrite Hh. simpl.
    destruct r as [[]|].
    + by rewrite (small_hand_on_queues _ _ _ Hh Hl Hr), elem_of_app; left.
    + unfold small_hand_on in Hh. by destruct (negb _); simplify_eq.
    + unfold small_hand_on in Hh. by destruct (negb _); simplify_eq.
Defined.

Section witnesses.
Local Open Scope N_scope.

Definition held_at (n queue member : N) : Held :=
  {| sequence := n; held_hold := {| hold_queue := queue; hold_member := member; hold_body := [] |};
     held_failed := false; due_unix_nanos := None |}.

(** Two Streams at one Location's queue, 7 before 8. *)
Definition two_streams : small := with_held small_empty [held_at 1 5 7; held_at 2 5 8].

(** 7 asked for, and let go of by another node; then 8 asked for. *)
Lemma heads_truthful_witness :
  hd_error (queue_of (with_held two_streams [held_at 2 5 8]) 5) = Some 8 ∧
  N.of_nat (size ({[(5, 7)]} : Headed)) ≤ REMEMBERED.
Proof.
  eapply (heads_truthful two_streams (with_held two_streams [held_at 2 5 8]) {[(5, 7)]}
            (λ q m, false || ((q =? 5) && (m =? 7))) 5 8).
  - eapply rtc_l; [apply (step_heads _ _ 5 7)|].
    eapply rtc_l; [apply (step_ledger _ (with_held two_streams [held_at 2 5 8]) _ _
      (λ q m, (q =? 5) && (m =? 7)) (λ _, []))|].
    + intros q. rewrite app_nil_r.
      change (of_queue_in [held_at 2 5 8] q = List.filter (λ m, negb ((q =? 5) && (m =? 7)))
        (of_queue_in [held_at 1 5 7; held_at 2 5 8] q)).
      rewrite !of_queue_in_cons. cbn [hold_queue held_hold held_at].
      destruct (N.eqb_spec 5 q) as [<-|Hq]; reflexivity.
    + intros q m Hin. by apply elem_of_nil in Hin.
    + apply rtc_refl.
  - left.
  - vm_compute. reflexivity.
Defined.

(** A Send Port "Out" and a Group "Both" of two Ports, each naming a
    Correlation keyed by the Receive Port. *)
Definition ordered_point (k : PointKind) (name : string) : Point :=
  {| kind := k; point_name := name; set := {| set_name := "Batch"; keys := [ReceivePort] |};
     on_failure := Skip |}.

Definition ordered : Sends N :=
  {| s_locations := [{| configured_name := "Out"; target := "tcp://out"; transport := 1 |}];
     s_groups := [{| sg_name := "Both"; send_ports := ["Out"; "Other"] |}];
     s_ports := []; s_points := [ordered_point SendPortPoint "Out"; ordered_point SendPortGroupPoint "Both"] |}.

Definition opened_as (journey : N) (subscription : string) (group : option string) : Opened :=
  {| opened_journey := {| journey_id := journey; state := Active; attempts := no_attempts;
       sequences := []; group := None; Journey.received := None; send_port := None;
       current_work_process := None; cause := None; previous := None; messages := [];
       history := [] |};
     subscription := subscription; opened_to := SendPort "Out"; opened_group := group |}.

Definition three_opened : list Opened :=
  [opened_as 1 "all" (Some "Both"); opened_as 2 "all" (Some "Both"); opened_as 3 "one" None].

Example delivered_members :
  (λ o, group_members <$> group (opened_journey o)) <$> delivered ordered three_opened (λ k, N.of_nat k)
  = [Some [1; 2]; Some [1; 2]; None].
Proof. reflexivity. Qed.

Lemma delivered_sets_witness :
  let out := delivered ordered three_opened (λ k, N.of_nat k) in
  ∃ o', out !! 1%nat = Some o' ∧
    (∀ d, group (opened_journey o') = Some d →
       group_members d = told_of (group_delivery d) out ∧ group_queue d = None).
Proof.
  destruct (delivered_sets ordered three_opened (λ k, N.of_nat k) 1 (opened_as 2 "all" (Some "Both")))
    as (o' & Ho' & _ & _ & Hd & _).
  - intros a b. lia.
  - repeat constructor.
  - reflexivity.
  - exists o'. split; [exact Ho'|exact Hd].
Defined.

(** The Journey 7 of [keyed], claimed, its place at "Out" taken late. *)
#[local] Instance no_record : JourneyOps :=
  {| append j _ _ := j; journey_record _ := []; from_record _ := Err "" |}.

Definition claim_7 : Claim :=
  {| claim_journey := 7; holder := "n"; token := 70; until_unix_nanos := 2000; fence := 1 |}.

Definition before_late : small := with_claims two_streams [claim_7].

Definition headed_late := heading (S := small) (λ s, N.of_nat (String.length s)) (λ _, "")
  (λ _ : unit, Ok (λ _, None)) (λ _, "7") "xmip:///c" ordered (keyed "In" "Orders" "Out") tt (SendPort "Out")
  claim_7 30 (before_late, ∅).

Lemma places_told_are_held_witness :
  ∃ s' known' j', headed_late = Some ((s', known'), j', Ok Placed) ∧ length (sequences j') = 1%nat ∧
    holds_told s' j' ∧ (Ok (E := string) Placed = Ok Placed → waits_for_places ordered j' (SendPort "Out") = false).
Proof.
  destruct headed_late as [[[[s' known'] j'] r]|] eqn:Hh; [|vm_compute in Hh; discriminate].
  assert (r = Ok Placed ∧ length (sequences j') = 1%nat) as [-> Hlen].
  { vm_compute in Hh. injection Hh as <- <- <- <-. split; reflexivity. }
  exists s', known', j'. split; [reflexivity|]. split; [exact Hlen|].
  unfold headed_late in Hh. eapply places_told_are_held; [|exact Hh].
  split; [constructor|intros g q Hg; discriminate].
Defined.
End witnesses.
