(* ===== verification/Due.v ===== *)
(** * When a queue's retries are due: [src/send_step/due.rs]

    One entry per queue, however many Messages wait in it: the earliest due
    time its last read showed, and the earliest a hand-on noted since that
    read began, which the read's answer may have passed. Times are moments
    of the node's clock. *)

From stdpp Require Import base numbers list gmap strings relations.
From S2P Require Import Prelude.

Local Open Scope N_scope.

(** [Due]. *)
Record Due := { port : string; at_ : option N; waiting : N; noted_at : option N }.

(** [earlier]. *)
Definition earlier (was : option N) (at_ : N) : N :=
  match was with Some was => N.min was at_ | None => at_ end.

(** [Due::of]. *)
Definition due_of (port : string) : Due :=
  {| port := port; at_ := None; waiting := 0; noted_at := None |}.

(** [Due::wakes_at], [Due::wakes] and [Due::noted]. *)
Definition wakes_at (d : Due) (at' : N) : Due :=
  {| port := port d; at_ := Some (earlier (at_ d) at'); waiting := waiting d;
     noted_at := noted_at d |}.

Definition wakes (d : Due) (at' : N) : Due :=
  {| port := port d; at_ := Some (earlier (at_ d) at'); waiting := waiting d;
     noted_at := Some (earlier (noted_at d) at') |}.

Definition noted (d : Due) (at' : N) : Due :=
  wakes {| port := port d; at_ := at_ d; waiting := u64_add (waiting d) 1;
           noted_at := noted_at d |} at'.

(** [SendStep::reading]: what was noted before now, the read finds. *)
Definition reading (d : Due) : Due :=
  {| port := port d; at_ := at_ d; waiting := waiting d; noted_at := None |}.

(** [SendStep::waited]: what a read found, [waits], into what is kept. *)
Definition waited (d waits : Due) (whole : bool) : Due :=
  if whole then
    match noted_at d with
    | Some at' => {| port := port waits; at_ := Some (earlier (at_ waits) at');
                     waiting := waiting waits; noted_at := noted_at d |}
    | None => waits
    end
  else
    match at_ waits with
    | Some at' => {| port := port d; at_ := Some (earlier (at_ d) at');
                     waiting := N.max (waiting d) (waiting waits); noted_at := noted_at d |}
    | None => d
    end.

(** [SendStep::next]'s loop over the queues: whether one is due by [now],
    and it then woken for no more. *)
Definition is_due (d : Due) (now : N) : bool :=
  match at_ d with Some at' => at' <=? now | None => false end.

Definition taken (d : Due) (now : N) : Due :=
  if is_due d now then {| port := port d; at_ := None; waiting := waiting d; noted_at := noted_at d |}
  else d.

(** [State::wakes_at]. *)
Definition wakes_until (due : gmap N Due) (until : N) : N :=
  foldr N.min until (omap at_ (map_to_list due).*2).

(** ** One queue, its Ledger and its reads

    Beside the [Due] kept: what waits in the Ledger for a due time, each
    hand-on by its number; the hand-ons Xmip Storage took that are not yet
    noted; what waited as the read under way began; and whether a read is
    owed — the queue was asked for, or its last read stopped short of its
    end and is made again. *)

Record Queue := {
  kept : Due;
  waits_in : list (N * N);
  landing : list (N * N);
  began : option (list (N * N));
  owed : bool;
  handed_on : N
}.

(** Woken for in time: at [t] or before. *)
Definition woken (d : option N) (t : N) : Prop := ∃ at', d = Some at' ∧ at' ≤ t.

Inductive due_step : Queue → Queue → Prop :=
  (** Xmip Storage takes a hand-on that waits until [t]; its thread notes it
      after. *)
  | due_hand_on q t :
      due_step q {| kept := kept q; waits_in := (handed_on q, t) :: waits_in q;
                    landing := (handed_on q, t) :: landing q; began := began q; owed := owed q;
                    handed_on := handed_on q + 1 |}
  | due_noted q n t :
      (n, t) ∈ landing q →
      due_step q {| kept := noted (kept q) t; waits_in := waits_in q;
                    landing := List.filter (λ e, negb (fst e =? n)) (landing q);
                    began := began q; owed := owed q; handed_on := handed_on q |}
  (** A scan's claim found one not yet due. *)
  | due_not_due q t :
      due_step q {| kept := wakes (kept q) t; waits_in := waits_in q; landing := landing q;
                    began := began q; owed := owed q; handed_on := handed_on q |}
  (** One is taken up, by any node, or leaves the queue. *)
  | due_gone q n :
      due_step q {| kept := kept q;
                    waits_in := List.filter (λ e, negb (fst e =? n)) (waits_in q);
                    landing := landing q; began := began q; owed := owed q;
                    handed_on := handed_on q |}
  (** A read begins, and ends: to the queue's end, woken for all it held as
      it began that still waits, or short of it. *)
  | due_reading q :
      began q = None →
      due_step q {| kept := reading (kept q); waits_in := waits_in q; landing := landing q;
                    began := Some (waits_in q); owed := owed q; handed_on := handed_on q |}
  | due_read_whole q held waits :
      began q = Some held → noted_at waits = None →
      (∀ e, e ∈ held → e ∈ waits_in q → woken (at_ waits) (snd e)) →
      due_step q {| kept := waited (kept q) waits true; waits_in := waits_in q;
                    landing := landing q; began := None; owed := false;
                    handed_on := handed_on q |}
  | due_read_part q held waits :
      began q = Some held → noted_at waits = None →
      due_step q {| kept := waited (kept q) waits false; waits_in := waits_in q;
                    landing := landing q; began := None; owed := true;
                    handed_on := handed_on q |}
  (** The dispatching wakes for it, and reads it next. *)
  | due_taken q now :
      began q = None → is_due (kept q) now = true →
      due_step q {| kept := taken (kept q) now; waits_in := waits_in q; landing := landing q;
                    began := None; owed := true; handed_on := handed_on q |}.

Definition due_start (port : string) : Queue :=
  {| kept := due_of port; waits_in := []; landing := []; began := None; owed := false; handed_on := 0 |}.

Lemma earlier_woken was at' t : woken was t ∨ at' ≤ t → woken (Some (earlier was at')) t.
Proof.
  intros Hw. exists (earlier was at'). split; [done|]. unfold earlier.
  destruct Hw as [(w & -> & ?)|?]; [lia|]. destruct was; lia.
Qed.

Lemma elem_of_without (l : list (N * N)) n e :
  e ∈ List.filter (λ e, negb (fst e =? n)) l ↔ e ∈ l ∧ fst e ≠ n.
Proof. by rewrite !list_elem_of_In, filter_In, negb_true_iff, N.eqb_neq. Qed.

Lemma waited_whole_woken d waits t :
  noted_at waits = None → woken (at_ waits) t ∨ woken (noted_at d) t →
  woken (at_ (waited d waits true)) t.
Proof.
  intros Hn Hw. unfold waited. destruct (noted_at d) as [n|] eqn:Hd.
  - apply earlier_woken. destruct Hw as [?|(? & [= <-] & ?)]; [by left|by right].
  - destruct Hw as [?|(? & ? & _)]; done.
Qed.

(** What is kept of every retry that waits: it is yet to be noted, its queue
    is to be read, or it is woken for in time; and what a read under way did
    not find as it began is noted apart. *)
Record woken_for (q : Queue) : Prop := {
  w_below : ∀ e, e ∈ waits_in q ∨ e ∈ landing q → fst e < handed_on q;
  w_same : ∀ e1 e2, e1 ∈ waits_in q → e2 ∈ landing q → fst e1 = fst e2 → e1 = e2;
  w_kept : ∀ e, e ∈ waits_in q → e ∈ landing q ∨ owed q = true ∨ woken (at_ (kept q)) (snd e);
  w_noted : ∀ held e, began q = Some held → e ∈ waits_in q → e ∉ held →
    e ∈ landing q ∨ woken (noted_at (kept q)) (snd e)
}.

Lemma due_step_woken q1 q2 : woken_for q1 → due_step q1 q2 → woken_for q2.
Proof.
  intros [Hb Hs Hk Hn] Hstep.
  destruct Hstep as [q t|q n t Hl|q t|q n|q _|q held waits Hbg Hw Hf|q held waits Hbg Hw|q now Hbg _];
    split; simpl in *.
  - intros e. rewrite !elem_of_cons. intros [[->|?]|[->|?]]; simpl; [lia| |lia|];
      (assert (fst e < handed_on q) by auto; lia).
  - intros e1 e2. rewrite !elem_of_cons. intros [->|H1] [->|H2] Heq; [done| | |by apply Hs].
    + assert (fst e2 < handed_on q) by auto. simpl in *; lia.
    + assert (fst e1 < handed_on q) by auto. simpl in *; lia.
  - intros e. rewrite !elem_of_cons. intros [->|He]; [by left; left|].
    destruct (Hk e He) as [?|?]; auto.
  - intros held e Hbg. rewrite !elem_of_cons. intros [->|He] Hne; [by left; left|].
    destruct (Hn held e Hbg He Hne); auto.
  - intros e. rewrite elem_of_without. intros [?|[? _]]; auto.
  - intros e1 e2 H1. rewrite elem_of_without. intros [H2 _]. by apply Hs.
  - intros e He. rewrite elem_of_without. destruct (decide (fst e = n)) as [Heq|Hne].
    + assert (e = (n, t)) as -> by by apply Hs. do 2 right. apply earlier_woken. right. simpl. lia.
    + destruct (Hk e He) as [?|[?|?]]; [by left|by right; left|].
      do 2 right. apply earlier_woken. by left.
  - intros held e Hbg He Hne. rewrite elem_of_without. destruct (decide (fst e = n)) as [Heq|Hne'].
    + assert (e = (n, t)) as -> by by apply Hs. right. apply earlier_woken. right. simpl. lia.
    + destruct (Hn held e Hbg He Hne) as [?|?]; [by left|]. right. apply earlier_woken. by left.
  - done.
  - done.
  - intros e He. destruct (Hk e He) as [?|[?|?]]; [by left|by right; left|].
    do 2 right. apply earlier_woken. by left.
  - intros held e Hbg He Hne. destruct (Hn held e Hbg He Hne) as [?|?]; [by left|].
    right. apply earlier_woken. by left.
  - intros e. rewrite elem_of_without. intros [[? _]|?]; auto.
  - intros e1 e2. rewrite elem_of_without. intros [? _]. by apply Hs.
  - intros e. rewrite elem_of_without. intros [? _]. by apply Hk.
  - intros held e Hbg. rewrite elem_of_without. intros [? _]. by apply Hn.
  - done.
  - done.
  - done.
  - intros held e [= <-] He Hne. done.
  - done.
  - done.
  - intros e He. destruct (decide (e ∈ held)) as [Hin|Hout].
    + do 2 right. apply waited_whole_woken; [done|]. left. by apply Hf.
    + destruct (Hn held e Hbg He Hout) as [?|?]; [by left|].
      do 2 right. apply waited_whole_woken; [done|]. by right.
  - done.
  - done.
  - done.
  - auto.
  - done.
  - done.
  - done.
  - auto.
  - done.
Qed.

Lemma wakes_until_below due until q d at' :
  due !! q = Some d → at_ d = Some at' → wakes_until due until ≤ at'.
Proof.
  intros Hq Hat. unfold wakes_until.
  assert (at' ∈ omap at_ (map_to_list due).*2) as Hin.
  { apply list_elem_of_omap. exists d. split; [|done].
    apply list_elem_of_fmap. exists (q, d). split; [done|]. by apply elem_of_map_to_list. }
  induction (omap at_ _) as [|a l IH]; [by apply elem_of_nil in Hin|].
  apply elem_of_cons in Hin as [->|Hin]; simpl; [lia|]. specialize (IH Hin). lia.
Qed.

(** No retry's due time is lost to a read that passed it: in every
    interleaving of hand-ons, scans and the dispatching's wakes, a Message
    that waits in its queue for its retry, its hand-on noted, is woken for
    at its due time or before — or its queue is to be read again anyhow. *)
Theorem retry_woken_for port queue q n t due until :
  rtc due_step (due_start port) q →
  (n, t) ∈ waits_in q → (n, t) ∉ landing q → owed q = false →
  due !! queue = Some (kept q) → wakes_until due until ≤ t.
Proof.
  intros Hrun Hin Hl Ho Hq.
  assert (woken_for q) as [_ _ Hk _].
  { eapply rtc_invariant; [apply due_step_woken| |exact Hrun].
    split; simpl; [intros e [H%elem_of_nil|H%elem_of_nil]|intros e1 e2 H%elem_of_nil|
      intros e H%elem_of_nil|]; done. }
  destruct (Hk _ Hin) as [?|[?|(at' & Hat & Hle)]]; [done|congruence|].
  pose proof (wakes_until_below _ until _ _ _ Hq Hat). simpl in *. lia.
Qed.

(** A read under way, a hand-on taken and noted meanwhile, and the read's
    answer, which found nothing. *)
Lemma retry_woken_for_witness : wakes_until {[5 := {| port := "Out"; at_ := Some 20; waiting := 0; noted_at := Some 20 |}]} 100 ≤ 20.
Proof.
  eapply (retry_woken_for "Out" 5 {| kept := {| port := "Out"; at_ := Some 20; waiting := 0; noted_at := Some 20 |};
    waits_in := [(0, 20)]; landing := []; began := None; owed := false; handed_on := 1 |} 0 20).
  - eapply rtc_l; [by apply due_reading|].
    eapply rtc_l; [apply (due_hand_on _ 20)|].
    eapply rtc_l; [by apply (due_noted _ 0 20); left|].
    eapply rtc_l; [apply (due_read_whole _ [] (due_of "Out")); [done|done|]|].
    { by intros e He%elem_of_nil. }
    apply rtc_refl.
  - left.
  - by intros He%elem_of_nil.
  - reflexivity.
  - reflexivity.
Defined.
