(* ===== verification/Renewal.v ===== *)
(** * Claims in flight, renewed: [src/send_step/renewal.rs], [Owned] of [src/send_step/admission.rs]

    Where a claim this node owns stands, what each answer to its renewal
    makes of it, and the renewing thread's rounds interleaved with Messages
    owned and let go of meanwhile. *)

From stdpp Require Import base numbers list gmap strings relations.
From S2P Require Import Prelude Journey Storage SmallStorage.

Local Open Scope N_scope.

(** [Standing]. *)
Record Standing := { until : N; unconfirmed : option N; lost : bool; said : bool }.

(** [Standing::confirmed], [Standing::holds]. *)
Definition confirmed (until : N) : Standing :=
  {| until := until; unconfirmed := None; lost := false; said := false |}.

Definition standing_holds (s : Standing) (now : N) : bool := negb (lost s) && (now <? until s).

(** [Owned]. *)
Record Owned := { claim : Claim; port : string; standing : Standing }.

Abbreviation Owning := (gmap N Owned).

(** [SendStep::holds] and [SendStep::is_lost]. *)
Definition holds (owned : Owning) (id now : N) : bool :=
  match owned !! id with Some o => standing_holds (standing o) now | None => false end.

Definition is_lost (owned : Owning) (id : N) : bool :=
  match owned !! id with Some o => lost (standing o) | None => false end.

(** [Renewed]. *)
Inductive Renewed :=
  | RenewedHeld (claim : Claim)
  | RenewedLost
  | RenewedUnanswered (why : string).

Section renewal.
Context (lease : N) (show_id : N → string).

Definition with_standing (o : Owned) (s : Standing) : Owned :=
  {| claim := claim o; port := port o; standing := s |}.

Definition said_lost (id : N) : string :=
  "the claim on the Message of the Journey " +:+ show_id id +:+ " is another's now: no Location is tried for it again from here, and a send already under way carries its Journey's identifier for the far end to deduplicate".

Definition said_presumed (id : N) (why : string) : string :=
  "Xmip Storage has not confirmed the claim on the Message of the Journey " +:+ show_id id +:+ " for longer than its lease, so it is presumed lost: no Location is tried for it from here until a renewal is answered (" +:+ why +:+ ")".

(** What one answer makes of an owned Message, and what is audited. *)
Definition answered_as (o : Owned) (id asked now : N) (renewed : Renewed) : Owned * option string :=
  let s := standing o in
  match renewed with
  | RenewedHeld c =>
      ({| claim := c; port := port o; standing := confirmed (N.max (until s) (asked + lease)) |}, None)
  | RenewedLost =>
      if lost s then (o, None)
      else (with_standing o {| until := until s; unconfirmed := unconfirmed s; lost := true;
                               said := said s |}, Some (said_lost id))
  | RenewedUnanswered why =>
      let s := {| until := until s; unconfirmed := Some (default asked (unconfirmed s));
                  lost := lost s; said := said s |} in
      if standing_holds s now || said s then (with_standing o s, None)
      else (with_standing o {| until := until s; unconfirmed := unconfirmed s; lost := lost s;
                               said := true |}, Some (said_presumed id why))
  end.

(** [SendStep::renewed]: an answer for a claim the Message is no longer held
    by is dropped. *)
Definition renewed (owned : Owning) (c : Claim) (asked now : N) (r : Renewed) :
    Owning * option string :=
  let id := claim_journey c in
  match owned !! id with
  | None => (owned, None)
  | Some o =>
      if negb (token (claim o) =? token c) then (owned, None)
      else let '(o, problem) := answered_as o id asked now r in (<[id := o]> owned, problem)
  end.

(** The claims a round renews, and what its one request answers for each. *)
Definition flying (owned : Owning) : list Claim :=
  claim <$> List.filter (λ o, negb (lost (standing o))) (map_to_list owned).*2.

Definition answer_for (answered : result (list Claim) string) (c : Claim) : Renewed :=
  match answered with
  | Ok held =>
      match List.find (λ k, (claim_journey k =? claim_journey c) && (token k =? token c)) held with
      | Some k => RenewedHeld k
      | None => RenewedLost
      end
  | Err why => RenewedUnanswered why
  end.

Fixpoint answers (owned : Owning) (flying : list Claim) (answered : result (list Claim) string)
    (asked : N) (now : nat → N) : Owning * list string :=
  match flying with
  | [] => (owned, [])
  | c :: rest =>
      let '(owned, problem) := renewed owned c asked (now 0%nat) (answer_for answered c) in
      let '(owned, problems) := answers owned rest answered asked (λ k, now (S k)) in
      (owned, option_list problem ++ problems)
  end.

(** [SendStep::renew], where nothing else touches what is owned meanwhile. *)
Definition renew {ST} `{XmipStorage ST} (s : ST) (owned : Owning) (asked : N) (now : nat → N) :
    ST * Owning * list string :=
  match flying owned with
  | [] => (s, owned, [])
  | claims =>
      let '(s, answered) := Storage.renew s claims lease in
      let '(owned, problems) := answers owned claims answered asked now in
      (s, owned, problems)
  end.

(** ** The renewing thread among the others

    Beside what is owned: the claims of the round under way still to be
    answered for, with when it was asked and what Xmip Storage answered;
    every claim taken, by its token and Journey; every confirmation, by
    token and when it was asked; and every token answered another's. *)

Record Renewing := {
  owning : Owning;
  pending : list Claim;
  asked_at : N;
  answer : result (list Claim) string;
  taken_as : list (N * N);
  confirmations : list (N * N);
  others : list N
}.

Definition confirms (w : Renewing) (c : Claim) : list (N * N) :=
  match answer_for (answer w) c with RenewedHeld k => [(token k, asked_at w)] | _ => [] end.

Definition loses (w : Renewing) (c : Claim) : list N :=
  match answer_for (answer w) c with RenewedLost => [token c] | _ => [] end.

Inductive renewing_step : Renewing → Renewing → Prop :=
  (** A Message owned under a claim asked at [asked], its token new. *)
  | renewing_own w c port asked :
      token c ∉ (taken_as w).*1 →
      renewing_step w
        {| owning := <[claim_journey c := {| claim := c; port := port;
                                             standing := confirmed (asked + lease) |}]> (owning w);
           pending := pending w; asked_at := asked_at w; answer := answer w;
           taken_as := (token c, claim_journey c) :: taken_as w;
           confirmations := (token c, asked) :: confirmations w; others := others w |}
  | renewing_let_go w id :
      renewing_step w
        {| owning := delete id (owning w); pending := pending w; asked_at := asked_at w;
           answer := answer w; taken_as := taken_as w; confirmations := confirmations w;
           others := others w |}
  (** A round asked, and answered however. *)
  | renewing_round w asked answered :
      pending w = [] →
      renewing_step w
        {| owning := owning w; pending := flying (owning w); asked_at := asked; answer := answered;
           taken_as := taken_as w; confirmations := confirmations w; others := others w |}
  | renewing_answered w c rest now :
      pending w = c :: rest →
      renewing_step w
        {| owning := (renewed (owning w) c (asked_at w) now (answer_for (answer w) c)).1;
           pending := rest; asked_at := asked_at w; answer := answer w;
           taken_as := taken_as w;
           confirmations := confirms w c ++ confirmations w; others := loses w c ++ others w |}.

Definition renewing_start : Renewing :=
  {| owning := ∅; pending := []; asked_at := 0; answer := Ok []; taken_as := [];
     confirmations := []; others := [] |}.

(** What is owned is under a claim taken for it, confirmed as it stands, and
    known lost where it was answered another's; what a round still answers
    for was not. *)
Record standing_rightly (w : Renewing) : Prop := {
  s_taken : NoDup (taken_as w).*1;
  s_owned : ∀ id o, owning w !! id = Some o →
    (token (claim o), id) ∈ taken_as w ∧ claim_journey (claim o) = id;
  s_until : ∀ id o, owning w !! id = Some o →
    ∃ asked, (token (claim o), asked) ∈ confirmations w ∧ until (standing o) ≤ asked + lease;
  s_lost : ∀ id o, owning w !! id = Some o → token (claim o) ∈ others w → lost (standing o) = true;
  s_others : ∀ t, t ∈ others w → t ∈ (taken_as w).*1;
  s_pending : ∀ c, c ∈ pending w → (token c, claim_journey c) ∈ taken_as w ∧ token c ∉ others w;
  s_once : NoDup (token <$> pending w)
}.

Lemma taken_once (l : list (N * N)) t j1 j2 : NoDup l.*1 → (t, j1) ∈ l → (t, j2) ∈ l → j1 = j2.
Proof.
  induction l as [|[t' j'] l IH]; intros Hnd; [by intros ?%elem_of_nil|].
  simpl in Hnd. apply NoDup_cons in Hnd as [Hn Hnd].
  assert (∀ j, (t, j) ∈ l → t ∈ l.*1) as Hl by (intros j Hj; apply list_elem_of_fmap; by exists (t, j)).
  intros [H1|H1]%elem_of_cons [H2|H2]%elem_of_cons; simplify_eq; [done| | |auto].
  - by apply Hl in H2.
  - by apply Hl in H1.
Qed.

Lemma elem_of_flying owned c : c ∈ flying owned →
  ∃ id o, owned !! id = Some o ∧ claim o = c ∧ lost (standing o) = false.
Proof.
  unfold flying. intros (o & -> & Ho)%list_elem_of_fmap.
  apply list_elem_of_In, filter_In in Ho as [Ho%list_elem_of_In Hl%negb_true_iff].
  apply list_elem_of_fmap in Ho as ([id o'] & -> & Ho). apply elem_of_map_to_list in Ho.
  by exists id, o'.
Qed.

Lemma answer_for_held answered c k :
  answer_for answered c = RenewedHeld k → claim_journey k = claim_journey c ∧ token k = token c.
Proof.
  unfold answer_for. destruct answered as [held|]; [|done].
  destruct (List.find _ held) as [k'|] eqn:Hf; [|done]. intros [= <-].
  apply find_some in Hf as [_ Hf]. by apply andb_true_iff in Hf as [?%N.eqb_eq ?%N.eqb_eq].
Qed.

(** Two Messages are never owned under one token. *)
Lemma owned_once w id1 id2 o1 o2 : standing_rightly w →
  owning w !! id1 = Some o1 → owning w !! id2 = Some o2 →
  token (claim o1) = token (claim o2) → id1 = id2.
Proof.
  intros Hw H1 H2 Ht. destruct (s_owned _ Hw _ _ H1) as [Hi1 _], (s_owned _ Hw _ _ H2) as [Hi2 _].
  rewrite Ht in Hi1. eapply taken_once; [apply Hw|done..].
Qed.

Lemma flying_once w : standing_rightly w → NoDup (token <$> flying (owning w)).
Proof.
  intros Hw. unfold flying. rewrite <- list_fmap_compose.
  assert (∀ l : list (N * Owned), (∀ id o, (id, o) ∈ l → owning w !! id = Some o) → NoDup l.*1 →
    NoDup ((token ∘ claim) <$> List.filter (λ o, negb (lost (standing o))) l.*2)) as Hl.
  { induction l as [|[id o] l IH]; intros Hin Hnd; simpl; [constructor|].
    simpl in Hnd. apply NoDup_cons in Hnd as [Hn Hnd].
    assert (NoDup ((token ∘ claim) <$> List.filter (λ o, negb (lost (standing o))) l.*2)) as Hrest.
    { apply IH; [|done]. intros id' o' Ho'. apply Hin. by right. }
    case_match; [|done]. simpl. constructor; [|done].
    intros (o' & Ht & Ho')%list_elem_of_fmap.
    apply list_elem_of_In, filter_In in Ho' as [Ho'%list_elem_of_In _].
    apply list_elem_of_fmap in Ho' as ([id' o''] & -> & Ho'). simpl in *.
    apply Hn. apply list_elem_of_fmap. exists (id', o''). split; [|done]. simpl.
    eapply owned_once; [exact Hw|apply Hin; left|apply Hin; by right|done]. }
  apply Hl; [|apply NoDup_fst_map_to_list]. intros id o Hi. by apply elem_of_map_to_list.
Qed.

(** An answer for a claim touches what is owned under it alone. *)
Lemma renewed_lookup owned c asked now r id o :
  (renewed owned c asked now r).1 !! id = Some o →
  (owned !! id = Some o ∧ (id = claim_journey c → token (claim o) ≠ token c)) ∨
  (id = claim_journey c ∧ ∃ o0, owned !! id = Some o0 ∧ token (claim o0) = token c ∧
     o = (answered_as o0 id asked now r).1).
Proof.
  unfold renewed. destruct (owned !! claim_journey c) as [o0|] eqn:Ho.
  2:{ intros Hid. left. split; [done|]. intros ->. simpl in Hid. congruence. }
  destruct (_ =? _) eqn:Ht; simpl.
  2:{ apply N.eqb_neq in Ht. intros Hid. left. split; [done|]. intros ->. congruence. }
  apply N.eqb_eq in Ht. destruct (answered_as _ _ _ _ _) as [o1 problem] eqn:Ha. simpl.
  destruct (decide (id = claim_journey c)) as [->|Hne].
  - rewrite lookup_insert_eq. intros [= <-]. right. split; [done|]. exists o0. by rewrite Ha.
  - rewrite lookup_insert_ne by done. intros Hid. by left.
Qed.

(** What an answer makes of a Message found not lost so far. *)
Lemma answered_as_spec w c o now :
  let r := answer_for (answer w) c in
  let o' := (answered_as o (claim_journey c) (asked_at w) now r).1 in
  token (claim o) = token c → claim_journey (claim o) = claim_journey c →
  token (claim o') = token c ∧ claim_journey (claim o') = claim_journey c ∧
  (token c ∈ loses w c → lost (standing o') = true) ∧
  (until (standing o') = until (standing o) ∨
   (token c, asked_at w) ∈ confirms w c ∧ until (standing o') ≤ N.max (until (standing o)) (asked_at w + lease)).
Proof.
  intros r o' Ht Hj. unfold o', r, loses, confirms.
  destruct (answer_for (answer w) c) as [k| |why] eqn:Ha; simpl.
  - apply answer_for_held in Ha as [Hkj Hkt]. split_and!; [done|done|by intros ?%elem_of_nil|].
    right. split; [|lia]. rewrite Hkt. left.
  - destruct (lost (standing o)) eqn:Hl; simpl; split_and!; auto.
  - repeat case_match; simpl; split_and!; auto; by intros ?%elem_of_nil.
Qed.

(** What a Message answered for becomes. *)
Record answered_rightly (w : Renewing) (c : Claim) (id : N) (o : Owned) : Prop := {
  a_owned : (token (claim o), id) ∈ taken_as w ∧ claim_journey (claim o) = id;
  a_until : ∃ asked, (token (claim o), asked) ∈ confirms w c ++ confirmations w ∧
    until (standing o) ≤ asked + lease;
  a_lost : token (claim o) ∈ loses w c ++ others w → lost (standing o) = true
}.

Lemma loses_token w c t : t ∈ loses w c → t = token c.
Proof. unfold loses. case_match; rewrite ?list_elem_of_singleton; try done; by intros ?%elem_of_nil. Qed.

Lemma renewing_answered_rightly w c rest now id o :
  standing_rightly w → pending w = c :: rest →
  (renewed (owning w) c (asked_at w) now (answer_for (answer w) c)).1 !! id = Some o →
  answered_rightly w c id o.
Proof.
  intros Hw Hp. assert (c ∈ pending w) as [Hct Hco]%(s_pending _ Hw) by (rewrite Hp; left).
  intros [[Hid Hne]|[-> (o0 & Hid & Ht & ->)]]%renewed_lookup.
  - pose proof (s_owned _ Hw _ _ Hid) as Ho. split; [done| |].
    + destruct (s_until _ Hw _ _ Hid) as (asked & Ha & Hle). exists asked.
      rewrite elem_of_app. auto.
    + rewrite elem_of_app. intros [Hl%loses_token|Hl]; [|by eapply s_lost].
      exfalso. apply Hne; [|done]. destruct Ho as [Ho _]. rewrite Hl in Ho.
      eapply taken_once; [apply Hw|done..].
  - destruct (s_owned _ Hw _ _ Hid) as [Hot Hoj].
    destruct (answered_as_spec w c o0 now Ht Hoj) as (Ht' & Hj' & Hl' & Hu').
    destruct (s_until _ Hw _ _ Hid) as (asked & Ha & Hle). rewrite Ht in Ha.
    split; rewrite ?Ht'; [done| |].
    + destruct Hu' as [->|[Hc Hu]].
      * exists asked. rewrite elem_of_app. auto.
      * destruct (N.max_spec (until (standing o0)) (asked_at w + lease)) as [[_ Hm]|[_ Hm]];
          rewrite Hm in Hu; [exists (asked_at w)|exists asked]; rewrite elem_of_app;
          split; auto; lia.
    + rewrite elem_of_app. intros [?|?]; [auto|done].
Qed.

Lemma renewing_step_rightly w1 w2 : standing_rightly w1 → renewing_step w1 w2 → standing_rightly w2.
Proof.
  intros Hw Hstep. pose proof Hw as [Hnd Ho Hu Hl Ht Hp Honce].
  destruct Hstep as [w c port asked Hnew|w id|w asked answered _|w c rest now Hpend]; split; simpl.
  - by constructor.
  - intros id o. destruct (decide (id = claim_journey c)) as [->|Hne].
    + rewrite lookup_insert_eq. intros [= <-]. split; [left|done].
    + rewrite lookup_insert_ne by done. intros [??]%Ho. split; [by right|done].
  - intros id o. destruct (decide (id = claim_journey c)) as [->|Hne].
    + rewrite lookup_insert_eq. intros [= <-]. exists asked. split; [left|simpl; lia].
    + rewrite lookup_insert_ne by done. intros (a & ? & ?)%Hu. exists a. split; [by right|done].
  - intros id o. destruct (decide (id = claim_journey c)) as [->|Hne].
    + rewrite lookup_insert_eq. intros [= <-]. simpl. by intros ?%Ht.
    + rewrite lookup_insert_ne by done. apply Hl.
  - intros t Hin%Ht. by right.
  - intros c' [? ?]%Hp. split; [by right|done].
  - done.
  - done.
  - intros id' o [_ ?]%lookup_delete_Some. by apply Ho.
  - intros id' o [_ ?]%lookup_delete_Some. by eapply Hu.
  - intros id' o [_ ?]%lookup_delete_Some. by eapply Hl.
  - done.
  - done.
  - done.
  - done.
  - done.
  - done.
  - done.
  - done.
  - intros c (id & o & Hid & <- & Hlost)%elem_of_flying. destruct (Ho _ _ Hid) as [? ->].
    split; [done|]. intros Hin. apply (Hl _ _ Hid) in Hin. congruence.
  - by apply flying_once.
  - done.
  - intros id o Hid. by apply (renewing_answered_rightly w c rest now).
  - intros id o Hid. by eapply (a_until w c id), renewing_answered_rightly.
  - intros id o Hid. by eapply (a_lost w c id), renewing_answered_rightly.
  - intros t [->%loses_token|?]%elem_of_app; [|by apply Ht].
    apply list_elem_of_fmap. exists (token c, claim_journey c). split; [done|].
    apply Hp. rewrite Hpend. left.
  - intros c' Hc'. destruct (Hp c') as [? Hno]; [rewrite Hpend; by right|]. split; [done|].
    intros [Heq%loses_token|?]%elem_of_app; [|done].
    rewrite Hpend in Honce. apply NoDup_cons in Honce as [Hc _]. apply Hc.
    rewrite <- Heq. by apply list_elem_of_fmap_2.
  - rewrite Hpend in Honce. by apply NoDup_cons in Honce as [_ ?].
Qed.

Lemma renewing_start_rightly : standing_rightly renewing_start.
Proof.
  split; simpl; [apply NoDup_nil_2|done..| | |apply NoDup_nil_2].
  - by intros t ?%elem_of_nil.
  - by intros c ?%elem_of_nil.
Qed.

(** C6. A Message is sent on only under a claim surely this node's: in every
    interleaving of the renewing thread's rounds, whatever Xmip Storage
    answers and however late, with Messages owned, let go of and owned again
    under new claims, one held now was confirmed by a request asked less
    than a lease ago under the very claim it is held by, and no renewal
    ever answered that claim another's. *)
Theorem holds_surely w id now :
  rtc renewing_step renewing_start w →
  holds (owning w) id now = true →
  ∃ o asked, owning w !! id = Some o ∧ (token (claim o), asked) ∈ confirmations w ∧
    now < asked + lease ∧ token (claim o) ∉ others w.
Proof.
  intros Hrun. assert (standing_rightly w) as Hw.
  { eapply rtc_invariant; [apply renewing_step_rightly|apply renewing_start_rightly|exact Hrun]. }
  unfold holds. destruct (owning w !! id) as [o|] eqn:Ho; [|done].
  intros [Hl%negb_true_iff Hn%N.ltb_lt]%andb_true_iff.
  destruct (s_until _ Hw _ _ Ho) as (asked & Ha & Hle). exists o, asked.
  split_and!; [done|done|lia|]. intros Hin. apply (s_lost _ Hw _ _ Ho) in Hin. congruence.
Qed.
End renewal.

(** A Message owned under a token, its renewal answered late, then owned
    again under another, which a second round confirms. *)
Section witnesses.
Definition claim_of (tok : N) : Claim :=
  {| claim_journey := 7; holder := "n"; token := tok; until_unix_nanos := 0; fence := 0 |}.

Definition owned_of (tok until' : N) : Owned :=
  {| claim := claim_of tok; port := "Out"; standing := confirmed until' |}.

Lemma holds_surely_witness : ∃ w, owning w = {[7 := owned_of 2 80]} ∧
  ∃ o asked, owning w !! 7 = Some o ∧ (token (claim o), asked) ∈ confirmations w ∧
    75 < asked + 30 ∧ token (claim o) ∉ others w.
Proof.
  eexists {| owning := {[7 := owned_of 2 80]}; pending := []; asked_at := 50; answer := Ok [claim_of 2];
             taken_as := [(2, 7); (1, 7)]; confirmations := [(2, 50); (2, 40); (1, 5)]; others := [1] |}.
  split; [reflexivity|]. apply (holds_surely 30 (λ _, "7")).
  - eapply rtc_l; [apply (renewing_own _ _ _ (claim_of 1) "Out" 5); by intros ?%elem_of_nil|].
    eapply rtc_l; [apply (renewing_round _ _ _ 8 (Ok [])); reflexivity|].
    eapply rtc_l; [apply (renewing_own _ _ _ (claim_of 2) "Out" 40);
      by intros [?|?%elem_of_nil]%elem_of_cons|].
    eapply rtc_l; [apply (renewing_answered _ _ _ (claim_of 1) [] 41); reflexivity|].
    eapply rtc_l; [apply (renewing_round _ _ _ 50 (Ok [claim_of 2])); reflexivity|].
    eapply rtc_l; [apply (renewing_answered _ _ _ (claim_of 2) [] 51); reflexivity|].
    apply rtc_refl.
  - reflexivity.
Defined.
End witnesses.
