(* ===== verification/SendStep.v ===== *)
(** * The send step's state: [src/send_step.rs], [admission.rs], [due.rs], [figures.rs], [dispatch.rs]

    [State], as the step's one lock guards it, and every critical section
    that reads or writes it, as a function on it. What is between two
    critical sections — an ask of Xmip Storage, a send — is in [Pass],
    [Scan] and [Dispatch]; [Admission] interleaves the sections. *)

From stdpp Require Import base numbers list gmap strings.
From S2P Require Import Prelude Tuning Journey Storage SmallStorage Keys Points Sending.
From S2P Require Import Departure Sequence Due Renewal.

Local Open Scope N_scope.

(** [FailedMessage], [PortFigures] and [Window]: what is counted per Send
    Port, and what is kept of its queue's failed Messages. *)
Record FailedMessage := { fm_journey : N; fm_place : N; fm_reason : string }.

Record PortFigures := {
  pf_sent : N;
  pf_failed : N;
  pf_waiting : N;
  pf_last_failure : option (N * string);
  pf_failing : N;
  pf_blocked : bool;
  pf_oldest_failing : list FailedMessage;
  pf_unconfirmed : N;
  pf_unanswered_since : option Z;
  pf_lost : N;
  pf_unread : option (N * string)
}.

Definition no_figures : PortFigures :=
  {| pf_sent := 0; pf_failed := 0; pf_waiting := 0; pf_last_failure := None; pf_failing := 0;
     pf_blocked := false; pf_oldest_failing := []; pf_unconfirmed := 0; pf_unanswered_since := None;
     pf_lost := 0;
     pf_unread := None |}.

Record Window := {
  win_count : N;
  win_read_at : option (N * N);
  win_oldest : list FailedMessage
}.

Section send_step.
Context {T Message Facts Durable : Type}.
Implicit Types sends : Sends T.

(** One Message being sent: [Departure]. *)
Record Departure := {
  d_journey : Journey;
  d_message : Message;
  d_facts : Facts;
  d_to : Subscriber;
  d_queue : N;
  d_claim : Claim;
  d_progress : Progress;
  d_until : N;
  d_durable : option Durable
}.

(** [State]. *)
Record State := {
  handed : list Departure;
  due : gmap N Due;
  owned : gmap N Owned;
  admitted : N;
  taking : gset N;
  starved : list N;
  passed : gmap N (gset (N * N));
  ports : gmap string bool;
  asked : list N;
  figures : gmap string PortFigures;
  failing : gmap string Window;
  rescan : bool;
  served : list N;
  closed : bool
}.

Definition with_handed (st : State) (v : list Departure) : State :=
  {| handed := v; due := due st; owned := owned st; admitted := admitted st; taking :=
     taking st; starved := starved st; passed := passed st; ports := ports st; asked :=
     asked st; figures := figures st; failing := failing st; rescan := rescan st; served :=
     served st; closed := closed st |}.
Definition with_due (st : State) (v : gmap N Due) : State :=
  {| handed := handed st; due := v; owned := owned st; admitted := admitted st; taking :=
     taking st; starved := starved st; passed := passed st; ports := ports st; asked :=
     asked st; figures := figures st; failing := failing st; rescan := rescan st; served :=
     served st; closed := closed st |}.
Definition with_owned (st : State) (v : gmap N Owned) : State :=
  {| handed := handed st; due := due st; owned := v; admitted := admitted st; taking :=
     taking st; starved := starved st; passed := passed st; ports := ports st; asked :=
     asked st; figures := figures st; failing := failing st; rescan := rescan st; served :=
     served st; closed := closed st |}.
Definition with_admitted (st : State) (v : N) : State :=
  {| handed := handed st; due := due st; owned := owned st; admitted := v; taking := taking
     st; starved := starved st; passed := passed st; ports := ports st; asked := asked st;
     figures := figures st; failing := failing st; rescan := rescan st; served := served st;
     closed := closed st |}.
Definition with_taking (st : State) (v : gset N) : State :=
  {| handed := handed st; due := due st; owned := owned st; admitted := admitted st; taking
     := v; starved := starved st; passed := passed st; ports := ports st; asked := asked st;
     figures := figures st; failing := failing st; rescan := rescan st; served := served st;
     closed := closed st |}.
Definition with_starved (st : State) (v : list N) : State :=
  {| handed := handed st; due := due st; owned := owned st; admitted := admitted st; taking
     := taking st; starved := v; passed := passed st; ports := ports st; asked := asked st;
     figures := figures st; failing := failing st; rescan := rescan st; served := served st;
     closed := closed st |}.
Definition with_passed (st : State) (v : gmap N (gset (N * N))) : State :=
  {| handed := handed st; due := due st; owned := owned st; admitted := admitted st; taking
     := taking st; starved := starved st; passed := v; ports := ports st; asked := asked st;
     figures := figures st; failing := failing st; rescan := rescan st; served := served st;
     closed := closed st |}.
Definition with_ports (st : State) (v : gmap string bool) : State :=
  {| handed := handed st; due := due st; owned := owned st; admitted := admitted st; taking
     := taking st; starved := starved st; passed := passed st; ports := v; asked := asked
     st; figures := figures st; failing := failing st; rescan := rescan st; served := served
     st; closed := closed st |}.
Definition with_asked (st : State) (v : list N) : State :=
  {| handed := handed st; due := due st; owned := owned st; admitted := admitted st; taking
     := taking st; starved := starved st; passed := passed st; ports := ports st; asked :=
     v; figures := figures st; failing := failing st; rescan := rescan st; served := served
     st; closed := closed st |}.
Definition with_figures (st : State) (v : gmap string PortFigures) : State :=
  {| handed := handed st; due := due st; owned := owned st; admitted := admitted st; taking
     := taking st; starved := starved st; passed := passed st; ports := ports st; asked :=
     asked st; figures := v; failing := failing st; rescan := rescan st; served := served
     st; closed := closed st |}.
Definition with_failing (st : State) (v : gmap string Window) : State :=
  {| handed := handed st; due := due st; owned := owned st; admitted := admitted st; taking
     := taking st; starved := starved st; passed := passed st; ports := ports st; asked :=
     asked st; figures := figures st; failing := v; rescan := rescan st; served := served
     st; closed := closed st |}.
Definition with_rescan (st : State) (v : bool) : State :=
  {| handed := handed st; due := due st; owned := owned st; admitted := admitted st; taking
     := taking st; starved := starved st; passed := passed st; ports := ports st; asked :=
     asked st; figures := figures st; failing := failing st; rescan := v; served := served
     st; closed := closed st |}.
Definition with_served (st : State) (v : list N) : State :=
  {| handed := handed st; due := due st; owned := owned st; admitted := admitted st; taking
     := taking st; starved := starved st; passed := passed st; ports := ports st; asked :=
     asked st; figures := figures st; failing := failing st; rescan := rescan st; served :=
     v; closed := closed st |}.
Definition with_closed (st : State) (v : bool) : State :=
  {| handed := handed st; due := due st; owned := owned st; admitted := admitted st; taking
     := taking st; starved := starved st; passed := passed st; ports := ports st; asked :=
     asked st; figures := figures st; failing := failing st; rescan := rescan st; served :=
     served st; closed := v |}.

(** ** What stays of the step itself: [SendStep]'s fields but for its state *)

Record SendStep := {
  cluster : string;
  node : string;
  lease : N;
  scan : N;
  window : N;
  limits : Limits
}.

Definition new (hardware_threads : N) (cluster node : string) (tuning : Tuning) : SendStep * State :=
  ({| cluster := cluster; node := node; lease := send_lease tuning; scan := send_scan tuning;
      window := failed_window tuning; limits := Tuning.send hardware_threads tuning |},
   {| handed := []; due := ∅; owned := ∅; admitted := 0; taking := ∅; starved := []; passed := ∅;
      ports := ∅; asked := []; figures := ∅; failing := ∅; rescan := false; served := [];
      closed := false |}).

(** [Owned::of]. *)
Definition owned_of (d : Departure) : Owned :=
  {| Renewal.claim := d_claim d; Renewal.port := subscriber_name (d_to d);
     standing := confirmed (d_until d) |}.

(** ** Admission: [send_step/admission.rs] *)

(** [SendStep::room_in]. *)
Definition room_in (step : SendStep) (st : State) : N :=
  N.max (most (limits step)) 1 - (N.of_nat (size (owned st)) + admitted st).

(** [SendStep::admit]. *)
Definition admit_places (step : SendStep) (wanted : N) (st : State) : State * N :=
  let places := N.min wanted (room_in step st) in
  (with_admitted st (admitted st + places), places).

(** A queue to be read now, once. *)
Definition asked_for (queues : list N) (queue : N) : list N :=
  if bool_decide (queue ∈ queues) then queues else queues ++ [queue].

(** [State::freed]. *)
Definition freed (st : State) : State :=
  with_starved (with_asked st (foldl asked_for (asked st) (starved st))) [].

(** [SendStep::withdraw]. *)
Definition withdraw (places : N) (st : State) : State :=
  if places =? 0 then st else freed (with_admitted st (admitted st - places)).

(** [SendStep::own]. *)
Definition own (id : N) (o : Owned) (st : State) : State :=
  with_owned (with_taking (with_admitted st (admitted st - 1)) (taking st ∖ {[id]}))
    (<[id := o]> (owned st)).

(** [SendStep::untake]. *)
Definition untake (id : N) (st : State) : State :=
  freed (if bool_decide (id ∈ taking st)
         then with_admitted (with_taking st (taking st ∖ {[id]})) (admitted st - 1)
         else st).

(** [SendStep::starve]. *)
Definition starve (queue : N) (st : State) : State :=
  with_starved st (asked_for (starved st) queue).

(** ** Lined up by a Publication: [line_up], [confirmed], [handed] *)

(** [LinedUp]. *)
Record LinedUp := {
  holds_lined : list Hold;
  claims_lined : list Claim;
  claimed : list (N * Subscriber * N * Claim);
  lined_admitted : N;
  lined_asked : option N
}.

(** [sequential], and the queue of a destination ([sending::queue]: its
    interned name). *)
Definition sequential sends (to : Subscriber) : bool :=
  match Sending.to sends to with
  | Ports ports => existsb (λ port, negb (bool_decide (points port = []))) ports
  | Process | Nowhere => false
  end.

Section lining.
Context (queue : Subscriber → N).

Definition sent_here sends (to : Subscriber) : bool := serves sends to && negb (sequential sends to).

(** [line_up]'s loop: the claims minted one by one while places last. *)
Fixpoint lined (step : SendStep) sends (departing : list (N * Subscriber)) (body : bytes)
    (ids : nat → N) (places : N) : list Hold * list (N * Subscriber * N * Claim) :=
  match departing with
  | [] => ([], [])
  | (journey, to) :: rest =>
      let hold := {| hold_queue := queue to; hold_member := journey; hold_body := body |} in
      if (0 <? places) && sent_here sends to then
        let c := {| claim_journey := journey; holder := node step; token := ids 0%nat;
                    until_unix_nanos := 0; fence := 0 |} in
        let '(holds, claimed) := lined step sends rest body (λ k, ids (S k)) (places - 1) in
        (hold :: holds, (journey, to, queue to, c) :: claimed)
      else
        let '(holds, claimed) := lined step sends rest body ids places in (hold :: holds, claimed)
  end.

(** [SendStep::line_up]. *)
Definition line_up (step : SendStep) sends (departing : list (N * Subscriber)) (body : bytes)
    (ids : nat → N) (now : N) (st : State) : State * LinedUp :=
  let wanted := N.of_nat (count (λ d, sent_here sends (snd d)) departing) in
  let '(st, places) := admit_places step wanted st in
  let '(holds, claimed) := lined step sends departing body ids places in
  (st, {| holds_lined := holds; claims_lined := snd <$> claimed; claimed := claimed;
          lined_admitted := places; lined_asked := Some now |}).
End lining.

(** [SendStep::confirmed]: only what Xmip Storage says this node holds is
    kept, each claim with the fence it set. *)
Definition held_as (holds : list Claim) (c : Claim) : option Claim :=
  List.find (λ k, (claim_journey k =? claim_journey c) && (token k =? token c)) holds.

Definition confirmed_lined (holds : list Claim) (l : LinedUp) (st : State) : State * LinedUp :=
  let claimed' := omap (λ one, let '(id, to, queue, c) := one in
    (λ c, (id, to, queue, c)) <$> held_as holds c) (claimed l) in
  let gone := N.of_nat (length (claimed l)) - N.of_nat (length claimed') in
  (withdraw gone st,
   {| holds_lined := holds_lined l; claims_lined := omap (held_as holds) (claims_lined l);
      claimed := claimed'; lined_admitted := lined_admitted l - gone;
      lined_asked := lined_asked l |}).

(** [SendStep::handed]. *)
Definition handed_one (journeys : list Journey) (message : Message) (facts : Facts)
    (durable : Durable) (until : N) (st : State) (one : N * Subscriber * N * Claim) : State :=
  let '(id, to, queue, c) := one in
  match List.find (λ j, journey_id j =? id) journeys with
  | None => st
  | Some journey =>
      let d := {| d_journey := journey; d_message := message; d_facts := facts; d_to := to;
                  d_queue := queue; d_claim := c; d_progress := of_attempts (attempts journey);
                  d_until := until; d_durable := Some durable |} in
      with_handed (with_owned st (<[id := owned_of d]> (owned st))) (handed st ++ [d])
  end.

Definition ask_unclaimed (st : State) (hold : Hold) : State :=
  if bool_decide (is_Some (owned st !! hold_member hold)) then st
  else with_asked st (asked_for (asked st) (hold_queue hold)).

Definition handed_on (step : SendStep) (l : LinedUp) (journeys : list Journey) (message : Message)
    (facts : Facts) (durable : Durable) (now : N) (st : State) : State :=
  let until := default now (lined_asked l) + lease step in
  let st := with_admitted st (admitted st - lined_admitted l) in
  let st := foldl (handed_one journeys message facts durable until) st (claimed l) in
  foldl ask_unclaimed st (holds_lined l).

(** [SendStep::hand]: its two critical sections. *)
Definition hand_own (d : Departure) (st : State) : State :=
  own (journey_id (d_journey d)) (owned_of d) st.

Definition hand_push (d : Departure) (st : State) : State := with_handed st (handed st ++ [d]).

(** [SendStep::ask], [rescan], [close]. *)
Definition ask (queue : N) (st : State) : State := with_asked st (asked_for (asked st) queue).
Definition set_rescan (st : State) : State := with_rescan st true.
Definition close (st : State) : State := with_closed st true.

(** ** Due times: [send_step/due.rs] *)

Definition due_entry (queue : N) (port : string) (st : State) : Due :=
  default (due_of port) (due st !! queue).

Definition with_due_at (queue : N) (d : Due) (st : State) : State :=
  with_due st (<[queue := d]> (due st)).

(** [SendStep::reading], [not_due] and [waited]. *)
Definition reading (queue : N) (st : State) : State :=
  match due st !! queue with Some d => with_due_at queue (Due.reading d) st | None => st end.

Definition not_due (port : string) (queue at' : N) (st : State) : State :=
  with_due_at queue (wakes (due_entry queue port st) at') st.

Definition waited (queue : N) (waits : Due) (whole : bool) (st : State) : State :=
  with_due_at queue (Due.waited (due_entry queue (Due.port waits) st) waits whole) st.

(** ** What is told the dispatching: [SendStep::next] *)

Definition ready (st : State) (now until : N) : bool :=
  closed st || rescan st || negb (bool_decide (handed st = [])) ||
  negb (bool_decide (asked st = [])) || (wakes_until (due st) until <=? now).

(** What it takes once it is ready: whether closed, what was handed and the
    queues to read. *)
Definition next (now : N) (st : State) : State * (bool * list Departure * list N) :=
  let asked := if rescan st then asked st ++ served st else asked st in
  let is_due_at q := match due st !! q with Some d => is_due d now | None => false end in
  let due_now := List.filter is_due_at (map_to_list (due st)).*1 in
  (with_due (with_asked (with_handed (with_rescan st false) []) [])
     ((λ d, taken d now) <$> due st),
   (closed st, handed st, foldl asked_for asked due_now)).

(** ** A pass settled: [SendStep::settle] and [lost] *)

(** [Ended], what was tried told with it. *)
Inductive Ended :=
  | EndedCompleted (departed : list Departed)
  | EndedWaiting (after : N) (departed : list Departed)
  | EndedFailed (reason : string) (departed : list Departed)
  | EndedLost (departed : list Departed)
  | EndedUntried
  | EndedBehind
  | EndedUnwritten (why : string).

Definition figures_of (port : string) (st : State) : PortFigures :=
  default no_figures (figures st !! port).

Definition with_figures_of (port : string) (f : PortFigures) (st : State) : State :=
  with_figures st (<[port := f]> (figures st)).

Definition count_sent (f : PortFigures) : PortFigures :=
  {| pf_sent := u64_add (pf_sent f) 1; pf_failed := pf_failed f; pf_waiting := pf_waiting f;
     pf_last_failure := pf_last_failure f; pf_failing := pf_failing f; pf_blocked := pf_blocked f;
     pf_oldest_failing := pf_oldest_failing f; pf_unconfirmed := pf_unconfirmed f;
     pf_unanswered_since := pf_unanswered_since f;
     pf_lost := pf_lost f; pf_unread := pf_unread f |}.

Definition count_failed (id : N) (reason : string) (f : PortFigures) : PortFigures :=
  {| pf_sent := pf_sent f; pf_failed := u64_add (pf_failed f) 1; pf_waiting := pf_waiting f;
     pf_last_failure := Some (id, reason); pf_failing := pf_failing f; pf_blocked := pf_blocked f;
     pf_oldest_failing := pf_oldest_failing f; pf_unconfirmed := pf_unconfirmed f;
     pf_unanswered_since := pf_unanswered_since f;
     pf_lost := pf_lost f; pf_unread := pf_unread f |}.

Definition count_lost (f : PortFigures) : PortFigures :=
  {| pf_sent := pf_sent f; pf_failed := pf_failed f; pf_waiting := pf_waiting f;
     pf_last_failure := pf_last_failure f; pf_failing := pf_failing f; pf_blocked := pf_blocked f;
     pf_oldest_failing := pf_oldest_failing f; pf_unconfirmed := pf_unconfirmed f;
     pf_unanswered_since := pf_unanswered_since f;
     pf_lost := u64_add (pf_lost f) 1; pf_unread := pf_unread f |}.

(** Let go of: owned no more, its place freed. *)
Definition let_go (id : N) (st : State) : State :=
  freed (with_owned st (delete id (owned st))).

(** [SendStep::settle]'s sections on the state: what a pass's end notes —
    for one behind, whether its queue is asked for is given — and its
    Message let go of. A lost one is [lost_here]'s. *)
Definition settled (d : Departure) (ended : Ended) (ask_behind : bool) (now : N) (st : State) : State :=
  let id := journey_id (d_journey d) in
  let port := subscriber_name (d_to d) in
  let st :=
    match ended with
    | EndedWaiting after _ =>
        with_due_at (d_queue d) (noted (due_entry (d_queue d) port st) (now + after)) st
    | EndedBehind => if ask_behind then ask (d_queue d) st else st
    | EndedUntried => ask (d_queue d) st
    | EndedCompleted _ => with_figures_of port (count_sent (figures_of port st)) st
    | EndedFailed reason _ =>
        with_figures_of port (count_failed id reason (figures_of port st)) st
    | EndedLost _ | EndedUnwritten _ => st
    end in
  let_go id st.

(** [SendStep::lost]: counted at its Send Port and let go of. *)
Definition lost_here (d : Departure) (st : State) : State :=
  let port := subscriber_name (d_to d) in
  let_go (journey_id (d_journey d)) (with_figures_of port (count_lost (figures_of port st)) st).

(** ** Places passed over, and a queue's failed Messages: [figures.rs] *)

(** [SendStep::passed], [read_whole], and [acted_on]'s forgetting. *)
Definition pass_over (queue : N) (place : N * N) (st : State) : State :=
  with_passed st (<[queue := {[place]} ∪ default ∅ (passed st !! queue)]> (passed st)).

Definition read_whole (queue : N) (present : gset (N * N)) (st : State) : State :=
  with_passed st (alter (λ set, set ∩ present) queue (passed st)).

Definition acted_on (queue id : N) (st : State) : State :=
  with_passed st (alter (λ set, filter (λ place, place.1 ≠ id) set) queue (passed st)).

(** [SendStep::queue_read]: since when a read was not answered, and whether
    it is audited now. *)
Definition queue_read (port : string) (unanswered : option string) (wall : N) (st : State) :
    State * bool :=
  let f := figures_of port st in
  let since := fst <$> pf_unread f in
  let unread := (λ why, (default wall since, why)) <$> unanswered in
  (with_figures_of port
     {| pf_sent := pf_sent f; pf_failed := pf_failed f; pf_waiting := pf_waiting f;
        pf_last_failure := pf_last_failure f; pf_failing := pf_failing f; pf_blocked := pf_blocked f;
        pf_oldest_failing := pf_oldest_failing f; pf_unconfirmed := pf_unconfirmed f;
     pf_unanswered_since := pf_unanswered_since f;
        pf_lost := pf_lost f; pf_unread := unread |} st,
   bool_decide (pf_unread f = None) && bool_decide (is_Some unread)).
End send_step.

Arguments Departure : clear implicits.
Arguments State : clear implicits.
Arguments admit_places : simpl never.
