(* ===== verification/Admission.v ===== *)
(** * Admission to the Send pool, interleaved: [src/send_step/admission.rs]

    Every Message this node sends is claimed only under a place the pool has
    room for. Who holds a place: a Publication from when it is lined up to
    when it is handed on or withdrawn, a resumed Subscription's move
    ([held_work::pick_up]) from its [admit] to its [hand], a scan's Message
    from its [admit] to where a send thread owns it or gives it back
    ([dispatch::take]). Each is a sequence of the critical sections of
    [SendStep], and the sections of all of them interleave. *)

From stdpp Require Import base numbers list gmap strings relations.
From S2P Require Import Prelude Tuning Journey Storage Sending Departure Due Renewal SendStep.

Local Open Scope N_scope.

Section admission.
Context {T Message Facts Durable : Type}.
Context (step : SendStep) (queue : Subscriber → N).
Abbreviation State := (State Message Facts Durable).
Abbreviation Departing := (SendStep.Departure Message Facts Durable).

(** The state, and who holds a place: Publications lined up, moves, the scan
    between its two sections, and the takes it gave the pool. *)
Record Admission := {
  st : State;
  publishing : list LinedUp;
  moving : N;
  scanning : option N;
  takes : list N
}.

Definition at_state (w : Admission) (st : State) : Admission :=
  {| st := st; publishing := publishing w; moving := moving w; scanning := scanning w;
     takes := takes w |}.

Definition start (st : State) : Admission :=
  {| st := st; publishing := []; moving := 0; scanning := None; takes := [] |}.

(** Places held and not yet owned. *)
Definition lined_places (p : list LinedUp) : N := sumN (lined_admitted <$> p).
#[local] Arguments lined_places : simpl never.

Definition out (w : Admission) : N :=
  lined_places (publishing w) + moving w +
  (match scanning w with Some _ => 1 | None => 0 end) + N.of_nat (length (takes w)).

(** The steps; [moves] says whether a move may hand its Message on. *)
Inductive admission_step (moves : bool) : Admission → Admission → Prop :=
  | adm_line_up w (sends : Sends T) departing body ids now st' l :
      line_up queue step sends departing body ids now (st w) = (st', l) →
      admission_step moves w
        {| st := st'; publishing := l :: publishing w; moving := moving w;
           scanning := scanning w; takes := takes w |}
  | adm_confirmed w p1 l p2 holds st' l' :
      publishing w = p1 ++ l :: p2 → confirmed_lined holds l (st w) = (st', l') →
      admission_step moves w
        {| st := st'; publishing := p1 ++ l' :: p2; moving := moving w;
           scanning := scanning w; takes := takes w |}
  | adm_handed w p1 l p2 journeys message facts durable now :
      publishing w = p1 ++ l :: p2 →
      admission_step moves w
        {| st := handed_on step l journeys message facts durable now (st w);
           publishing := p1 ++ p2; moving := moving w; scanning := scanning w; takes := takes w |}
  | adm_withdrawn w p1 l p2 :
      publishing w = p1 ++ l :: p2 →
      admission_step moves w
        {| st := withdraw (lined_admitted l) (st w); publishing := p1 ++ p2; moving := moving w;
           scanning := scanning w; takes := takes w |}
  | adm_move w st' :
      admit_places step 1 (st w) = (st', 1) →
      admission_step moves w
        {| st := st'; publishing := publishing w; moving := moving w + 1;
           scanning := scanning w; takes := takes w |}
  | adm_move_back w :
      0 < moving w →
      admission_step moves w
        {| st := withdraw 1 (st w); publishing := publishing w; moving := moving w - 1;
           scanning := scanning w; takes := takes w |}
  | adm_hand w d :
      moves = true → 0 < moving w →
      admission_step moves w
        {| st := hand_own d (st w); publishing := publishing w; moving := moving w - 1;
           scanning := scanning w; takes := takes w |}
  | adm_scan w id st' :
      scanning w = None → owned (st w) !! id = None → id ∉ taking (st w) →
      admit_places step 1 (st w) = (st', 1) →
      admission_step moves w
        {| st := st'; publishing := publishing w; moving := moving w;
           scanning := Some id; takes := takes w |}
  | adm_taking w id :
      scanning w = Some id →
      admission_step moves w
        {| st := with_taking (st w) ({[id]} ∪ taking (st w)); publishing := publishing w;
           moving := moving w; scanning := None; takes := id :: takes w |}
  | adm_take_own w t1 id t2 o :
      takes w = t1 ++ id :: t2 →
      admission_step moves w
        {| st := own id o (st w); publishing := publishing w; moving := moving w;
           scanning := scanning w; takes := t1 ++ t2 |}
  | adm_take_not w t1 id t2 :
      takes w = t1 ++ id :: t2 →
      admission_step moves w
        {| st := untake id (st w); publishing := publishing w; moving := moving w;
           scanning := scanning w; takes := t1 ++ t2 |}
  | adm_settled w d ended ask_behind now :
      admission_step moves w (at_state w (settled d ended ask_behind now (st w)))
  | adm_lost w d : admission_step moves w (at_state w (lost_here d (st w)))
  (** Every other section leaves what is owned, admitted and being taken. *)
  | adm_other w st' :
      owned st' = owned (st w) → admitted st' = admitted (st w) → taking st' = taking (st w) →
      admission_step moves w (at_state w st').

(** ** What each section does to the places *)

Implicit Types s : State.

Lemma admit_spec wanted s s' places :
  admit_places step wanted s = (s', places) →
  owned s' = owned s ∧ taking s' = taking s ∧ admitted s' = admitted s + places ∧
  (N.of_nat (size (owned s)) + admitted s ≤ N.max (most (limits step)) 1 →
   N.of_nat (size (owned s)) + admitted s' ≤ N.max (most (limits step)) 1) ∧ places ≤ wanted.
Proof.
  unfold admit_places, room_in. intros [= <- <-]. simpl. split_and!; [done|done|done|lia|lia].
Qed.

Lemma withdraw_spec places s :
  owned (withdraw places s) = owned s ∧ taking (withdraw places s) = taking s ∧
  admitted (withdraw places s) = admitted s - places.
Proof.
  unfold withdraw. destruct (places =? 0) eqn:Hz; [|done].
  apply N.eqb_eq in Hz as ->. split_and!; [done|done|lia].
Qed.

Lemma lined_length (sends : Sends T) departing body ids places :
  N.of_nat (length (lined queue step sends departing body ids places).2) ≤ places.
Proof.
  revert ids places. induction departing as [|[j to] rest IH]; intros ids places; simpl; [lia|].
  destruct (_ && _) eqn:Hp.
  - apply andb_true_iff in Hp as [Hp%N.ltb_lt _]. specialize (IH (λ k, ids (S k)) (places - 1)).
    destruct (lined _ _ _ _ _ _ _); simpl in *. lia.
  - specialize (IH ids places). destruct (lined _ _ _ _ _ _ _); simpl in *. lia.
Qed.

Lemma line_up_spec (sends : Sends T) departing body ids now s s' l :
  line_up queue step sends departing body ids now s = (s', l) →
  (∃ wanted, admit_places step wanted s = (s', lined_admitted l)) ∧
  N.of_nat (length (claimed l)) ≤ lined_admitted l.
Proof.
  unfold line_up. destruct (admit_places _ _ _) as [s1 places] eqn:Ha.
  pose proof (lined_length sends departing body ids places) as Hl.
  destruct (lined _ _ _ _ _ _ _) as [holds claimed']. intros [= <- <-]. simpl in *.
  split; [by eexists|done].
Qed.

Lemma confirmed_spec holds l s s' l' :
  confirmed_lined holds l s = (s', l') → N.of_nat (length (claimed l)) ≤ lined_admitted l →
  ∃ gone, gone ≤ lined_admitted l ∧ s' = withdraw gone s ∧ lined_admitted l' = lined_admitted l - gone ∧
    N.of_nat (length (claimed l')) ≤ lined_admitted l'.
Proof.
  unfold confirmed_lined. intros [= <- <-] Hl. simpl.
  set (kept := omap _ (claimed l)).
  exists (N.of_nat (length (claimed l)) - N.of_nat (length kept)).
  split_and!; [lia|done|done|].
  assert (length kept ≤ length (claimed l))%nat by apply omap_length. lia.
Qed.

Lemma handed_one_spec journeys message facts durable until s one :
  let s' := handed_one journeys message facts durable until s one in
  (size (owned s') ≤ 1 + size (owned s))%nat ∧ admitted s' = admitted s ∧ taking s' = taking s.
Proof.
  destruct one as [[[id to] q] c]. simpl. destruct (List.find _ journeys); simpl;
    (split_and!; [|done|done]); [apply size_insert_le|lia].
Qed.

Lemma ask_unclaimed_spec holds s :
  let s' := foldl ask_unclaimed s holds in
  owned s' = owned s ∧ admitted s' = admitted s ∧ taking s' = taking s.
Proof.
  revert s. induction holds as [|hold holds IH]; intros s; [done|]. simpl.
  destruct (IH (ask_unclaimed s hold)) as (-> & -> & ->). unfold ask_unclaimed. by case_match.
Qed.

Lemma handed_all_spec claimed journeys message facts durable until s :
  let s' := foldl (handed_one journeys message facts durable until) s claimed in
  (size (owned s') ≤ length claimed + size (owned s))%nat ∧ admitted s' = admitted s ∧
  taking s' = taking s.
Proof.
  revert s. induction claimed as [|one claimed IH]; intros s; simpl; [by split_and!|].
  destruct (IH (handed_one journeys message facts durable until s one)) as (Hs & Ha & Ht).
  destruct (handed_one_spec journeys message facts durable until s one) as (Hs1 & Ha1 & Ht1).
  rewrite Ha, Ha1, Ht, Ht1. split_and!; [|done|done]. lia.
Qed.

Lemma handed_spec l journeys message facts durable now s :
  let s' := handed_on step l journeys message facts durable now s in
  (size (owned s') ≤ length (claimed l) + size (owned s))%nat ∧
  admitted s' = admitted s - lined_admitted l ∧ taking s' = taking s.
Proof.
  unfold handed_on. cbv zeta.
  destruct (ask_unclaimed_spec (holds_lined l) (foldl
    (handed_one journeys message facts durable (default now (lined_asked l) + lease step))
    (with_admitted s (admitted s - lined_admitted l)) (claimed l))) as (-> & -> & ->).
  apply (handed_all_spec (claimed l) journeys message facts durable
    (default now (lined_asked l) + lease step) (with_admitted s (admitted s - lined_admitted l))).
Qed.

Lemma own_spec id o s :
  (size (owned (own id o s)) ≤ 1 + size (owned s))%nat ∧ admitted (own id o s) = admitted s - 1 ∧
  taking (own id o s) = taking s ∖ {[id]}.
Proof. split_and!; [|done|done]. apply size_insert_le. Qed.

Lemma untake_spec id s :
  owned (untake id s) = owned s ∧ taking (untake id s) = taking s ∖ {[id]} ∧
  admitted (untake id s) = if bool_decide (id ∈ taking s) then admitted s - 1 else admitted s.
Proof.
  unfold untake. case_bool_decide; simpl; [done|]. split_and!; [done|set_solver|done].
Qed.

Lemma let_go_spec id s :
  (size (owned (let_go id s)) ≤ size (owned s))%nat ∧ admitted (let_go id s) = admitted s ∧
  taking (let_go id s) = taking s.
Proof. split_and!; [|done|done]. apply size_delete_le. Qed.

Lemma settled_spec (d : Departing) ended ask_behind now s :
  let s' := settled d ended ask_behind now s in
  (size (owned s') ≤ size (owned s))%nat ∧ admitted s' = admitted s ∧ taking s' = taking s.
Proof.
  unfold settled. cbv zeta.
  match goal with |- context [let_go ?id ?s1] => destruct (let_go_spec id s1) as (Hs & -> & ->);
    revert Hs; set (s2 := s1) end.
  assert (owned s2 = owned s ∧ admitted s2 = admitted s ∧ taking s2 = taking s) as (-> & -> & ->).
  { unfold s2. destruct ended; try done. by destruct ask_behind. }
  done.
Qed.

Lemma lost_spec (d : Departing) s :
  let s' := lost_here d s in
  (size (owned s') ≤ size (owned s))%nat ∧ admitted s' = admitted s ∧ taking s' = taking s.
Proof. unfold lost_here. cbv zeta. apply (let_go_spec _ (with_figures_of _ _ s)). Qed.

(** ** The pool is never overfilled *)

(** What is held and not yet owned was admitted, with [leaked] more, and what
    is owned and admitted fits. *)
Record places_fit (leaked : N) (w : Admission) : Prop := {
  f_out : out w + leaked ≤ admitted (st w);
  f_fits : N.of_nat (size (owned (st w))) + admitted (st w) ≤ N.max (most (limits step)) 1;
  f_lined : Forall (λ l, N.of_nat (length (claimed l)) ≤ lined_admitted l) (publishing w)
}.

Lemma lined_places_cons l p : lined_places (l :: p) = lined_admitted l + lined_places p.
Proof. done. Qed.

Lemma lined_places_middle p1 l p2 :
  lined_places (p1 ++ l :: p2) = lined_admitted l + lined_places (p1 ++ p2).
Proof. unfold lined_places. rewrite !fmap_app, fmap_cons, !sumN_app, sumN_cons. lia. Qed.

Ltac fitting := split; unfold out in *; simpl in *; rewrite ?lined_places_middle, ?length_app in *; simpl in *.

Lemma admission_step_fits moves leaked w1 w2 :
  places_fit leaked w1 → admission_step moves w1 w2 → places_fit leaked w2.
Proof.
  intros [Hout Hfit Hlined] Hstep.
  destruct Hstep as [w sends departing body ids now st' l Hl|w p1 l p2 holds st' l' Hp Hc
    |w p1 l p2 journeys message facts durable now Hp|w p1 l p2 Hp|w st' Ha|w Hm|w d _ Hm
    |w id st' Hsc Ho Ht Ha|w id Hsc|w t1 id t2 o Ht|w t1 id t2 Ht|w d ended ask_behind now|w d
    |w st' Ho Ha Ht].
  - apply line_up_spec in Hl as [[wanted (Ho & _ & Hadm & Hroom & _)%admit_spec] Hc].
    fitting; [rewrite lined_places_cons; lia|rewrite Ho; auto|by constructor].
  - rewrite Hp, Forall_app, Forall_cons in Hlined. destruct Hlined as (H1 & Hl & H2).
    apply confirmed_spec in Hc as (gone & Hg & -> & Hadm & Hlen); [|done].
    destruct (withdraw_spec gone (st w)) as (Ho & _ & Hw).
    fitting; rewrite ?Hw, ?Ho; [rewrite Hp in Hout; rewrite lined_places_middle in Hout; lia|lia|].
    by rewrite Forall_app, Forall_cons.
  - rewrite Hp, Forall_app, Forall_cons in Hlined. destruct Hlined as (H1 & Hl & H2).
    destruct (handed_spec l journeys message facts durable now (st w)) as (Ho & Hw & _).
    fitting; rewrite ?Hw; [rewrite Hp, lined_places_middle in Hout; lia| |by rewrite Forall_app].
    rewrite Hp, lined_places_middle in Hout. lia.
  - rewrite Hp, Forall_app, Forall_cons in Hlined. destruct Hlined as (H1 & Hl & H2).
    destruct (withdraw_spec (lined_admitted l) (st w)) as (Ho & _ & Hw).
    fitting; rewrite ?Hw, ?Ho; [rewrite Hp, lined_places_middle in Hout; lia|lia|by rewrite Forall_app].
  - apply admit_spec in Ha as (Ho & _ & Hadm & Hroom & _). fitting; [lia|rewrite Ho; auto|done].
  - destruct (withdraw_spec 1 (st w)) as (Ho & _ & Hw). fitting; rewrite ?Hw, ?Ho; [lia|lia|done].
  - destruct (own_spec (journey_id (d_journey d)) (owned_of d) (st w)) as (Ho & Hw & _).
    unfold hand_own. fitting; rewrite ?Hw; [lia|lia|done].
  - apply admit_spec in Ha as (Ho' & _ & Hadm & Hroom & _).
    fitting; [rewrite Hsc in Hout; lia|rewrite Ho'; auto|done].
  - fitting; [rewrite Hsc in Hout; lia|done|done].
  - destruct (own_spec id o (st w)) as (Ho & Hw & _).
    fitting; rewrite Ht, length_app in Hout; simpl in Hout; rewrite ?Hw; [lia|lia|done].
  - destruct (untake_spec id (st w)) as (Ho & _ & Hw).
    fitting; rewrite Ht, length_app in Hout; simpl in Hout; rewrite ?Hw, ?Ho; [|case_match; lia|done].
    case_match; lia.
  - destruct (settled_spec d ended ask_behind now (st w)) as (Ho & Ha & _).
    fitting; rewrite ?Ha; [done|lia|done].
  - destruct (lost_spec d (st w)) as (Ho & Ha & _). fitting; rewrite ?Ha; [done|lia|done].
  - fitting; rewrite ?Ha, ?Ho; done.
Qed.

Lemma start_fits s : owned s = ∅ → admitted s = 0 → places_fit 0 (start s).
Proof.
  intros Ho Ha. split; unfold out; simpl; rewrite ?Ho, ?Ha; [done| |constructor].
  rewrite map_size_empty. lia.
Qed.

(** ** Without a move, every place is given back *)

Record places_exact (w : Admission) : Prop := {
  e_admitted : admitted (st w) = out w;
  e_takes : NoDup (takes w);
  e_taking : ∀ id, id ∈ taking (st w) ↔ id ∈ takes w;
  e_scanning : ∀ id, scanning w = Some id → id ∉ taking (st w);
  e_lined : Forall (λ l, N.of_nat (length (claimed l)) ≤ lined_admitted l) (publishing w)
}.

Lemma take_away (t1 : list N) id t2 other :
  NoDup (t1 ++ id :: t2) → other ∈ t1 ++ t2 ↔ other ∈ t1 ++ id :: t2 ∧ other ≠ id.
Proof.
  rewrite NoDup_app, NoDup_cons, !elem_of_app, elem_of_cons.
  intros (_ & H1 & H2 & _). split; [|naive_solver].
  intros [Ho|Ho]; (split; [auto|]); intros ->; [|done]. apply (H1 _ Ho). left.
Qed.

Lemma take_away_NoDup (t1 : list N) id t2 : NoDup (t1 ++ id :: t2) → NoDup (t1 ++ t2).
Proof.
  rewrite !NoDup_app, NoDup_cons. intros (H1 & H2 & _ & H3). split_and!; [done| |done].
  intros x Hx Hx2. apply (H2 _ Hx). by right.
Qed.

Ltac exactly := split; unfold out in *; simpl in *; rewrite ?lined_places_middle, ?lined_places_cons in *.

Lemma admission_step_exact w1 w2 :
  places_exact w1 → admission_step false w1 w2 → places_exact w2.
Proof.
  intros [Hadm Hnd Hin Hscan Hlined] Hstep.
  destruct Hstep as [w sends departing body ids now st' l Hl|w p1 l p2 holds st' l' Hp Hc
    |w p1 l p2 journeys message facts durable now Hp|w p1 l p2 Hp|w st' Ha|w Hm|w d Hno Hm
    |w id st' Hsc Ho Ht Ha|w id Hsc|w t1 id t2 o Ht|w t1 id t2 Ht|w d ended ask_behind now|w d
    |w st' Ho Ha Ht]; [| | | | | |done|..].
  - apply line_up_spec in Hl as [[wanted (_ & Htk & Hw & _)%admit_spec] Hc].
    exactly; rewrite ?Htk; auto. lia.
  - rewrite Hp, Forall_app, Forall_cons in Hlined. destruct Hlined as (H1 & Hl & H2).
    apply confirmed_spec in Hc as (gone & Hg & -> & Hal & Hlen); [|done].
    destruct (withdraw_spec gone (st w)) as (_ & Htk & Hw).
    exactly; rewrite ?Hw, ?Htk; auto; [|by rewrite Forall_app, Forall_cons].
    rewrite Hp, lined_places_middle in Hadm. lia.
  - rewrite Hp, Forall_app, Forall_cons in Hlined. destruct Hlined as (H1 & Hl & H2).
    destruct (handed_spec l journeys message facts durable now (st w)) as (_ & Hw & Htk).
    exactly; rewrite ?Hw, ?Htk; auto; [|by rewrite Forall_app].
    rewrite Hp, lined_places_middle in Hadm. lia.
  - rewrite Hp, Forall_app, Forall_cons in Hlined. destruct Hlined as (H1 & Hl & H2).
    destruct (withdraw_spec (lined_admitted l) (st w)) as (_ & Htk & Hw).
    exactly; rewrite ?Hw, ?Htk; auto; [|by rewrite Forall_app].
    rewrite Hp, lined_places_middle in Hadm. lia.
  - apply admit_spec in Ha as (_ & Htk & Hw & _). exactly; rewrite ?Htk; auto. lia.
  - destruct (withdraw_spec 1 (st w)) as (_ & Htk & Hw). exactly; rewrite ?Hw, ?Htk; auto. lia.
  - apply admit_spec in Ha as (_ & Htk & Hw & _).
    exactly; rewrite ?Htk; auto; [rewrite Hsc in Hadm; lia|]. by intros ? [= <-].
  - exactly; auto; [rewrite Hsc in Hadm; lia| | |done].
    + constructor; [|done]. rewrite <- Hin. by apply Hscan.
    + intros id'. rewrite elem_of_cons, <- Hin. set_solver.
  - destruct (own_spec id o (st w)) as (_ & Hw & Htk). rewrite Ht in Hnd.
    exactly; rewrite ?Hw; auto.
    + rewrite Ht, length_app in Hadm. simpl in Hadm. rewrite length_app. lia.
    + by eapply take_away_NoDup.
    + intros id'. rewrite (take_away t1 id t2 id' Hnd), <- Ht, <- Hin. set_solver.
    + intros id' Hs Hin'. apply (Hscan _ Hs). set_solver.
  - destruct (untake_spec id (st w)) as (_ & Htk & Hw).
    assert (id ∈ taking (st w)) as Hid by (rewrite Hin, Ht; set_solver).
    rewrite bool_decide_eq_true_2 in Hw by done. rewrite Ht in Hnd.
    exactly; rewrite ?Hw, ?Htk; auto.
    + rewrite Ht, length_app in Hadm. simpl in Hadm. rewrite length_app. lia.
    + by eapply take_away_NoDup.
    + intros id'. rewrite (take_away t1 id t2 id' Hnd), <- Ht, <- Hin. set_solver.
    + intros id' Hs Hin'. apply (Hscan _ Hs). set_solver.
  - destruct (settled_spec d ended ask_behind now (st w)) as (_ & Hw & Htk).
    exactly; rewrite ?Hw, ?Htk; auto.
  - destruct (lost_spec d (st w)) as (_ & Hw & Htk). exactly; rewrite ?Hw, ?Htk; auto.
  - exactly; rewrite ?Ha, ?Ht; auto.
Qed.

Lemma start_exact s : admitted s = 0 → taking s = ∅ → places_exact (start s).
Proof.
  intros Ha Ht. split; unfold out; simpl; rewrite ?Ha, ?Ht; auto; [apply NoDup_nil_2| |done].
  intros id. rewrite elem_of_nil. set_solver.
Qed.

(** C7. The Send pool is never overfilled: in every interleaving of
    Publications, moves, scans, sends and settlings, the Messages a node owns
    and the places admitted for Messages it is yet to own are together no
    more than its threads at most, and every place some thread still counts
    on is admitted. *)
Theorem pool_never_overfilled s w :
  owned s = ∅ → admitted s = 0 →
  rtc (admission_step true) (start s) w →
  N.of_nat (size (owned (st w))) + admitted (st w) ≤ N.max (most (limits step)) 1 ∧
  out w ≤ admitted (st w).
Proof.
  intros Ho Ha Hrun. assert (places_fit 0 w) as [Hout Hfit _].
  { eapply rtc_invariant; [apply admission_step_fits|by apply start_fits|exact Hrun]. }
  split; [done|lia].
Qed.

(** While no resumed Subscription's move hands a Message on, every place
    is given back: what is admitted is just what Publications, moves and
    scans still hold, so once none does the pool has all its room but for
    what is owned. *)
Theorem places_given_back s w :
  owned s = ∅ → admitted s = 0 → taking s = ∅ →
  rtc (admission_step false) (start s) w →
  admitted (st w) = out w ∧
  (out w = 0 → room_in step (st w) = N.max (most (limits step)) 1 - N.of_nat (size (owned (st w)))).
Proof.
  intros Ho Ha Ht Hrun. assert (places_exact w) as [Hadm _ _ _ _].
  { eapply rtc_invariant; [apply admission_step_exact|by apply start_exact|exact Hrun]. }
  split; [done|]. intros Hz. unfold room_in. rewrite Hadm, Hz. f_equal. lia.
Qed.

(** ** A move's hand-on loses a place

    [hand] takes its Message out of [taking] though a scan put it there, for
    the place the scan was admitted: that scan's [untake] then gives no
    place back. *)

Lemma admit_one s : room_in step s ≠ 0 → admit_places step 1 s = (with_admitted s (admitted s + 1), 1).
Proof.
  unfold admit_places. intros Hr. replace (N.min 1 (room_in step s)) with 1 by lia. done.
Qed.

Lemma place_leaks w (d : Departing) :
  let id := journey_id (d_journey d) in
  publishing w = [] → moving w = 0 → scanning w = None → takes w = [] →
  owned (st w) = ∅ → taking (st w) = ∅ →
  admitted (st w) + 2 ≤ N.max (most (limits step)) 1 →
  ∃ w', rtc (admission_step true) w w' ∧ publishing w' = [] ∧ moving w' = 0 ∧ scanning w' = None ∧
    takes w' = [] ∧ owned (st w') = ∅ ∧ taking (st w') = ∅ ∧ admitted (st w') = admitted (st w) + 1.
Proof.
  intros id Hp Hm Hs Htk Ho Ht Hroom. eexists. split.
  { eapply rtc_l; [eapply adm_move, admit_one; unfold room_in; rewrite Ho, map_size_empty; lia|].
    eapply rtc_l; [eapply (adm_scan _ _ id); simpl; [done|by rewrite Ho|by rewrite Ht|]|].
    { apply admit_one. unfold room_in. simpl. rewrite Ho, map_size_empty. lia. }
    eapply rtc_l; [by eapply (adm_taking _ _ id)|].
    eapply rtc_l; [eapply (adm_hand _ _ d); simpl; [done|lia]|].
    eapply rtc_l; [by eapply (adm_take_not _ _ [] id []); simpl; rewrite Htk|].
    eapply rtc_l; [by eapply (adm_settled _ _ d (EndedCompleted []) false 0)|].
    apply rtc_refl. }
  simpl. unfold untake, hand_own, own. simpl. rewrite Ho, Ht. fold id.
  assert (id ∉ ({[id]} ∪ ∅ : gset N) ∖ {[id]}) by set_solver.
  rewrite bool_decide_eq_false_2 by done.
  split_and!; simpl; rewrite ?Hp, ?Hm, ?Ho, ?Ht; try done; [|set_solver|lia].
  fold id. by rewrite delete_insert_eq.
Qed.

Lemma places_leak s (d : Departing) (k : nat) :
  owned s = ∅ → admitted s = 0 → taking s = ∅ → N.of_nat k + 1 ≤ N.max (most (limits step)) 1 →
  ∃ w, rtc (admission_step true) (start s) w ∧ publishing w = [] ∧ moving w = 0 ∧
    scanning w = None ∧ takes w = [] ∧ owned (st w) = ∅ ∧ taking (st w) = ∅ ∧
    admitted (st w) = N.of_nat k.
Proof.
  intros Ho Ha Ht. induction k as [|k IH]; intros Hk; [by exists (start s)|].
  destruct IH as (w & Hrun & Hp & Hm & Hs & Htk & Ho' & Ht' & Ha'); [lia|].
  destruct (place_leaks w d) as (w' & Hrun' & ? & ? & ? & ? & ? & ? & Ha''); [done..|lia|].
  exists w'. split_and!; [by etrans|done..|]. lia.
Qed.

(** Moves of resumed Subscriptions can lose the Send pool's places for
    good: a scan that takes a Message up between its move's hand-on and its
    [hand] gives no place back, so by any number of them, up to all of its
    threads but one, the pool is worn down with nothing owned and no place
    held, and no later run ever gives that room back. *)
Theorem moves_wear_the_pool_down s (d : Departing) k :
  owned s = ∅ → admitted s = 0 → taking s = ∅ → N.of_nat k + 1 ≤ N.max (most (limits step)) 1 →
  ∃ w, rtc (admission_step true) (start s) w ∧ out w = 0 ∧ owned (st w) = ∅ ∧
    ∀ w', rtc (admission_step true) w w' →
      room_in step (st w') ≤ N.max (most (limits step)) 1 - N.of_nat k.
Proof.
  intros Ho Ha Ht Hk.
  destruct (places_leak s d k Ho Ha Ht Hk) as (w & Hrun & Hp & Hm & Hs & Htk & Ho' & Ht' & Ha').
  assert (out w = 0) as Hz by (unfold out; by rewrite Hp, Hm, Hs, Htk).
  exists w. split_and!; [done|done|done|]. intros w' Hrun'.
  assert (places_fit (N.of_nat k) w') as [Hout _ _].
  { eapply rtc_invariant; [apply admission_step_fits| |exact Hrun'].
    split; [rewrite Hz; lia| |by rewrite Hp].
    rewrite Ho', map_size_empty. lia. }
  unfold room_in. lia.
Qed.
End admission.

(** ** A pool of four threads *)

Section witnesses.
Definition four : SendStep :=
  {| cluster := "xmip:///c"; node := "xmip:///c/node/n"; lease := 30; scan := 1; window := 100;
     limits := {| most := 4; idle := 60 |} |}.

Definition idle_state : State unit unit unit :=
  {| handed := []; due := ∅; owned := ∅; admitted := 0; taking := ∅; starved := []; passed := ∅;
     ports := ∅; asked := []; figures := ∅; failing := ∅; rescan := false; served := [];
     closed := false |}.

Definition journey_of (id : N) : Journey :=
  {| journey_id := id; state := Active; attempts := no_attempts; sequences := []; group := None;
     received := None; send_port := Some "Out"; current_work_process := None; cause := None;
     previous := None; messages := []; history := [] |}.

Definition departing_of (id : N) : SendStep.Departure unit unit unit :=
  {| d_journey := journey_of id; d_message := tt; d_facts := tt; d_to := SendPort "Out"; d_queue := 5;
     d_claim := {| claim_journey := id; holder := "n"; token := 1; until_unix_nanos := 0; fence := 0 |};
     d_progress := of_attempts no_attempts; d_until := 30; d_durable := None |}.

Lemma pool_never_overfilled_witness : ∃ w, rtc (admission_step (T := unit) four (λ _, 5) true)
    (start idle_state) w ∧ owned (st w) !! 7 = Some (owned_of (departing_of 7)) ∧
  N.of_nat (size (owned (st w))) + admitted (st w) ≤ N.max (most (limits four)) 1 ∧
  out w ≤ admitted (st w).
Proof.
  assert (∃ w, rtc (admission_step (T := unit) four (λ _, 5) true) (start idle_state) w ∧
    owned (st w) !! 7 = Some (owned_of (departing_of 7))) as (w & Hrun & Ho).
  { eexists. split; [|shelve]. eapply rtc_l; [apply (adm_scan _ _ _ _ 7); [done|done|set_solver|reflexivity]|].
    eapply rtc_l; [apply (adm_taking _ _ _ _ 7); reflexivity|].
    eapply rtc_l; [apply (adm_take_own _ _ _ _ [] 7 [] (owned_of (departing_of 7))); reflexivity|].
    apply rtc_refl. Unshelve. reflexivity. }
  exists w. split; [exact Hrun|]. split; [exact Ho|].
  exact (pool_never_overfilled four (λ _, 5) idle_state _ eq_refl eq_refl Hrun).
Defined.

Lemma places_given_back_witness : ∃ w, rtc (admission_step (T := unit) four (λ _, 5) false)
    (start idle_state) w ∧
  admitted (st w) = out w ∧
  (out w = 0 → room_in four (st w) = N.max (most (limits four)) 1 - N.of_nat (size (owned (st w)))).
Proof.
  assert (∃ w, rtc (admission_step (T := unit) four (λ _, 5) false) (start idle_state) w) as (w & Hrun).
  { eexists. eapply rtc_l; [apply (adm_scan _ _ _ _ 8); [done|done|set_solver|reflexivity]|].
    eapply rtc_l; [apply (adm_taking _ _ _ _ 8); reflexivity|].
    eapply rtc_l; [apply (adm_take_not _ _ _ _ [] 8 []); reflexivity|].
    apply rtc_refl. }
  exists w. split; [exact Hrun|].
  exact (places_given_back four (λ _, 5) idle_state _ eq_refl eq_refl eq_refl Hrun).
Defined.

Lemma moves_wear_the_pool_down_witness : ∃ w,
  rtc (admission_step (T := unit) four (λ _, 5) true) (start idle_state) w ∧ out w = 0 ∧
  owned (st w) = ∅ ∧
  ∀ w', rtc (admission_step (T := unit) four (λ _, 5) true) w w' → room_in four (st w') ≤ 1.
Proof.
  exact (moves_wear_the_pool_down four (λ _, 5) idle_state (departing_of 7) 3 eq_refl eq_refl eq_refl
           ltac:(vm_compute; discriminate)).
Defined.
End witnesses.
