(* ===== verification/Pass.v ===== *)
(** * One pass of a Message's send, and its hand-on: [src/send_step/pass.rs], [under_claim.rs]

    What a send thread does with one Message from when it takes it up: its
    places and its sequences asked for, the pass to its Send Port
    ([Departure]), and the one write that ends it. What the pass asks of the
    claim, the transport and the identity is [Departure.World]; Xmip Storage
    and what the process remembers are threaded ([Sequence.seen]). *)

From stdpp Require Import base numbers list gmap strings.
From S2P Require Import Prelude Tuning Journey Storage SmallStorage Keys Points Sending.
From S2P Require Import Departure Sequence Due Renewal SendStep.

Section pass.
Context {S T Message Facts Durable : Type} `{XmipStorage S} `{JourneyOps}.
Abbreviation Departing := (SendStep.Departure Message Facts Durable).
Implicit Types sends : Sends T.
(** How a destination and a duration are written, a duration read, a Journey
    shown. *)
Context (show : Subscriber → string) (shown_duration : N → string)
  (duration : string → option N) (show_id : N → string).

Definition with_journey (d : Departing) (j : Journey) : Departing :=
  {| d_journey := j; d_message := d_message d; d_facts := d_facts d; d_to := d_to d;
     d_queue := d_queue d; d_claim := d_claim d; d_progress := d_progress d;
     d_until := d_until d; d_durable := d_durable d |}.

Definition with_progress (d : Departing) (p : Progress) : Departing :=
  {| d_journey := d_journey d; d_message := d_message d; d_facts := d_facts d; d_to := d_to d;
     d_queue := d_queue d; d_claim := d_claim d; d_progress := p;
     d_until := d_until d; d_durable := d_durable d |}.

(** ** The hand-on *)

(** [nanos]. *)
Definition nanos (duration : N) : N := N.min duration u64_max.

(** [written]'s write: the Journey in [state] with what was tried, and what
    becomes of its places. *)
Definition written_journey (d : Departing) (message_id execution timestamp : N)
    (state : JourneyState) (outcome : string) : Journey :=
  with_attempts
    (append (d_journey d)
       {| entry_execution := execution; entry_message := message_id; entry_action := "send";
          entry_outcome := outcome; entry_timestamp := timestamp |} state)
    (to_attempts (d_progress d)).

Definition leaves_point (j : Journey) (state : JourneyState) : list N :=
  seq_queue <$> List.filter (λ sq,
    match state with Completed => true | Failed => seq_skips sq | _ => false end) (sequences j).

Definition written_hand_on (d : Departing) (journey : Journey) (state : JourneyState)
    (outcome : string) (kept : option N) : HandOn :=
  {| ho_claim := d_claim d; ho_result := journey_record journey; ho_messages := []; ho_next := [];
     ho_leaves := (if bool_decide (state = Completed) then [d_queue d] else []) ++
                  leaves_point (d_journey d) state;
     ho_queued := []; ho_requeued := [];
     ho_failed := if bool_decide (state = Failed)
                  then Some {| failure_queue := d_queue d; failure_reason := outcome |} else None;
     ho_cleared := [];
     ho_waits := (λ after, {| wait_queue := d_queue d; after_nanos := nanos after |}) <$> kept;
     ho_kept_for_nanos := None |}.

(** [written]: the departure as it is left, and what Xmip Storage answered. *)
Definition written (d : Departing) (message_id execution timestamp : N) (state : JourneyState)
    (outcome : string) (kept : option N) (s : S) : S * Departing * result bool string :=
  let journey := written_journey d message_id execution timestamp state outcome in
  match hand_on s (written_hand_on d journey state outcome kept) with
  | (s, Ok true) => (s, with_journey d journey, Ok true)
  | (s, Ok false) => (s, d, Ok false)
  | (s, Err error) =>
      (s, d, Err ("Xmip Storage did not take the send of the Message of the Journey "
                    +:+ show_id (journey_id journey) +:+ ": " +:+ error)%string)
  end.

(** [backoff]. *)
Definition send_backoff sends (to : Subscriber) : N :=
  match to with
  | SendPort name => backoff duration (Sending.port sends name)
  | SendGroup _ | WorkProcess _ => 0
  end.

(** [blocks]. *)
Definition blocks sends (to : Subscriber) : bool :=
  match Sending.to sends to with
  | Ports ports =>
      existsb (λ port, existsb (λ point, bool_decide (on_failure point = Block)) (points port)) ports
  | Process | Nowhere => false
  end.

(** [heads]: every sequence it holds a place in, its Stream's end to end, its
    delivery's, and its own. *)
Fixpoint own_heads (sequences : list Sequenced) (member : N) : asks (@seen S) bool :=
  match sequences with
  | [] => Prelude.answer true
  | sequenced :: rest =>
      let! first := Sequence.heads (seq_queue sequenced) member in
      if first then own_heads rest member else Prelude.answer false
  end.

Definition heads (d : Departing) : asks (@seen S) bool :=
  let j := d_journey d in
  let! stream := stream_heads j in
  if negb stream then Prelude.answer false
  else
    let! delivery := group_heads j in
    if negb delivery then Prelude.answer false
    else own_heads (sequences j) (journey_id j).

(** ** The pass: [send] *)

(** Where a pass's standing leads: the Journey's state, and the backoff kept. *)
Definition ends_in sends (to : Subscriber) (p : Progress) : JourneyState * option N :=
  if sent p then (Completed, None)
  else if Departure.waiting p then (Recovering, Some (send_backoff sends to))
  else (Failed, None).

Definition outcome_of (departed : list Departed) (kept : option N) : string :=
  match kept with
  | Some after => Departure.said show departed +:+ "; tried again in " +:+ shown_duration after
  | None => Departure.said show departed
  end%string.

(** Its end once written. *)
Definition ended_of (d : Departing) (p : Progress) (departed : list Departed) (kept : option N) : Ended :=
  match kept with
  | Some after => EndedWaiting after departed
  | None =>
      if sent p then EndedCompleted departed
      else EndedFailed (subscriber_name (d_to d) +:+ ": " +:+ default "" (given_up p)) departed
  end%string.

(** What a pass leaves: Xmip Storage and what is remembered, the departure,
    how it ended, and every call of a transport it made. *)
Record Passed := {
  p_seen : @seen S;
  p_departure : Departing;
  p_ended : Ended;
  p_calls : list (nat * Sending T)
}.

(** [send], from the moment [t]; [is_lost] what [SendStep::is_lost] answers
    once the pass was made. *)
Definition send (w : World T) (is_lost : bool) sends (message_id execution timestamp : N) (t : nat)
    (d : Departing) (s : @seen S) : option Passed :=
  let ends s d ended calls :=
    Some {| p_seen := s; p_departure := d; p_ended := ended; p_calls := calls |} in
  if waits_for_places sends (d_journey d) (d_to d) then ends s d EndedBehind []
  else
    match heads d s with
    | (s, Err why) => ends s d (EndedUnwritten why) []
    | (s, Ok false) => ends s d EndedBehind []
    | (s, Ok true) =>
        let p := with_fence (d_progress d) (fence (d_claim d)) in
        match depart_to show w sends (d_to d) p t with
        | None => None
        | Some r =>
            let d := with_progress d (progress r) in
            if is_lost then ends s d (EndedLost (departed r)) (calls r)
            else if bool_decide (departed r = []) && Departure.waiting (progress r)
            then ends s d EndedUntried (calls r)
            else
              let '(state, kept) := ends_in sends (d_to d) (progress r) in
              let '(store, known) := s in
              match written d message_id execution timestamp state
                      (outcome_of (departed r) kept) kept store with
              | (store, d, Ok true) =>
                  ends (store, known) d (ended_of d (progress r) (departed r) kept) (calls r)
              | (store, d, Ok false) => ends (store, known) d (EndedLost (departed r)) (calls r)
              | (store, d, Err why) => ends (store, known) d (EndedUnwritten why) (calls r)
              end
        end
    end.

(** [abandoned]: a send that panicked, written Failed. *)
Definition abandoned (message_id execution timestamp : N) (why : string) (d : Departing) (s : S) :
    S * Departing * Ended :=
  match written d message_id execution timestamp Failed why None s with
  | (s, d, Ok true) => (s, d, EndedFailed (subscriber_name (d_to d) +:+ ": " +:+ why)%string [])
  | (s, d, Ok false) => (s, d, EndedLost [])
  | (s, d, Err unwritten) => ((Storage.release s (d_claim d)).1, d, EndedUnwritten unwritten)
  end.

(** ** A Message read back from the Ledger: [read], [under_claim] *)

Inductive Found :=
  | FoundWaiting (j : Journey) (m : Message) (f : Facts)
  | FoundFailed (j : Journey) (m : Message)
  | FoundFinished
  | FoundUnreadable (why : string).

(** [Message::from_record] and [IdentityFacts::from_record], the mechanisms
    this node carries among it. *)
Context (message_from : bytes → result Message string) (facts_from : bytes → result Facts string).

(** [read]. *)
Definition read (journey : N) (body : bytes) : asks S Found := λ s,
  match Storage.read_journey s journey with
  | (s, Err why) => (s, Err why)
  | (s, Ok None) => (s, Ok (FoundUnreadable "its Journey is not in the Ledger"))
  | (s, Ok (Some record)) =>
      match from_record (record_body record) with
      | Err why => (s, Ok (FoundUnreadable why))
      | Ok j =>
          if bool_decide (state j = Completed) || bool_decide (state j = Dismissed)
          then (s, Ok FoundFinished)
          else
            match last (messages j) with
            | None => (s, Ok (FoundUnreadable "its Journey holds no Message"))
            | Some held =>
                match Storage.read_message s held with
                | (s, Err why) => (s, Err why)
                | (s, Ok None) => (s, Ok (FoundUnreadable "its Message is not in the Ledger"))
                | (s, Ok (Some kept)) =>
                    match message_from kept with
                    | Err why => (s, Ok (FoundUnreadable why))
                    | Ok m =>
                        if bool_decide (state j = Failed) then (s, Ok (FoundFailed j m))
                        else
                          match facts_from body with
                          | Ok f => (s, Ok (FoundWaiting j m f))
                          | Err why => (s, Ok (FoundUnreadable why))
                          end
                    end
                end
            end
      end
  end.

(** [Under]. *)
Inductive Under :=
  | UnderWaiting (j : Journey) (m : Message) (f : Facts)
  | UnderNotDue (at' : N)
  | UnderMoved
  | UnderNot (found : Found)
  | UnderUnanswered.

(** [under_claim], asked at [asked]. *)
Definition under_claim (queue : N) (place : N * N) (body : bytes) (asked : N) (s : S) : S * Under :=
  match read_held s queue (snd place) 1 with
  | (s, Err _) => (s, UnderUnanswered)
  | (s, Ok page) =>
      match List.filter (λ held, (sequence held =? snd place)%N &&
                                 (hold_member (held_hold held) =? fst place)%N)
              (option_list (head (page_held page))) with
      | held :: _ =>
          match page_due_in page held with
          | Some remains => (s, UnderNotDue (asked + remains))
          | None =>
              match read (fst place) body s with
              | (s, Ok (FoundWaiting j m f)) => (s, UnderWaiting j m f)
              | (s, Ok found) => (s, UnderNot found)
              | (s, Err _) => (s, UnderUnanswered)
              end
          end
      | [] => (s, UnderMoved)
      end
  end.
End pass.

(** ** What a pass writes *)

Section writing.
Context {S T Message Facts Durable : Type} `{XmipStorage S} `{JourneyOps}.
Abbreviation Departing := (SendStep.Departure Message Facts Durable).
Implicit Types sends : Sends T.
Context (show : Subscriber → string) (shown_duration : N → string)
  (duration : string → option N) (show_id : N → string).

(** A pass's standing is sent just where one of its departures was. *)
Lemma settled_sent (port : Port T) st o p on :
  sent st = false → Departure.settled show port st o = (p, on) →
  sent p = departed_sent o ∧ (on = true → departed_sent o = false).
Proof.
  intros Hs. unfold Departure.settled. destruct o; simpl; intros Hp; repeat case_match; by simplify_eq/=.
Qed.

Lemma depart_port_sent fuel w (port : Port T) st t ds cs r :
  sent st = false → existsb departed_sent ds = false →
  depart_port show fuel w port st t ds cs = Some r →
  sent (progress r) = existsb departed_sent (departed r).
Proof.
  revert st t ds cs. induction fuel as [|fuel IH]; intros st t ds cs Hs Hd; simpl; [done|].
  destruct (negb _); [intros [= <-]; simpl; congruence|].
  destruct (locations port !! at_location st) as [sending|].
  2:{ intros [= <-]. simpl. rewrite existsb_app, Hd. simpl. by rewrite Hs. }
  destruct (one _) as [o|]; [|intros [= <-]; simpl; congruence].
  destruct (Departure.settled _ _ _ _) as [p on] eqn:Hp.
  apply settled_sent in Hp as [Hsp Hon]; [|done].
  destruct on.
  - apply IH; [rewrite Hsp; by apply Hon|]. rewrite existsb_app, Hd. simpl. by rewrite Hon.
  - intros [= <-]. simpl. by rewrite existsb_app, Hd, orb_false_l; simpl; rewrite orb_false_r.
Qed.

Lemma depart_to_sent w sends to p t r :
  Departure.waiting p = true → depart_to show w sends to p t = Some r →
  sent (progress r) = existsb departed_sent (departed r).
Proof.
  intros Hw. apply waiting_iff in Hw as Hs. destruct Hs as [Hs _].
  destruct to as [name|group|process].
  - rewrite depart_to_port by done. by apply depart_port_sent.
  - unfold depart_to. rewrite Hw. simpl. case_match; intros [= <-]; simpl; by rewrite Hs.
  - unfold depart_to. rewrite Hw. simpl. intros [= <-]. simpl. by rewrite Hs.
Qed.

(** What a written end says was written. *)
Definition wrote (d : Departing) (ended : Ended) (h : HandOn) : Prop :=
  ho_claim h = d_claim d ∧ ho_queued h = [] ∧ ho_requeued h = [] ∧
  match ended with
  | EndedCompleted ds =>
      existsb departed_sent ds = true ∧
      ho_leaves h = d_queue d :: (seq_queue <$> sequences (d_journey d)) ∧
      ho_failed h = None ∧ ho_waits h = None
  | EndedWaiting after ds =>
      existsb departed_sent ds = false ∧ ho_leaves h = [] ∧ ho_failed h = None ∧
      ho_waits h = Some {| wait_queue := d_queue d; after_nanos := nanos after |}
  | EndedFailed reason ds =>
      existsb departed_sent ds = false ∧
      ho_leaves h = seq_queue <$> List.filter seq_skips (sequences (d_journey d)) ∧
      ho_failed h = Some {| failure_queue := d_queue d; failure_reason := Departure.said show ds |} ∧
      ho_waits h = None
  | _ => False
  end.

Lemma filter_always {A} (l : list A) : List.filter (λ _, true) l = l.
Proof. by apply filter_all. Qed.

Lemma filter_never {A} (l : list A) : List.filter (λ _, false) l = [].
Proof. by apply filter_none. Qed.

End writing.

(** ** What a pass sends, it sends in order *)

Section ordering.
Context {S T Message Facts Durable : Type} `{QueueLaws S} `{JourneyOps}.
Abbreviation Departing := (SendStep.Departure Message Facts Durable).
Implicit Types sends : Sends T.
Context (show : Subscriber → string) (shown_duration : N → string)
  (duration : string → option N) (show_id : N → string).

Lemma own_heads_all sqs member (s : @seen S) :
  own_heads sqs member s = heads_all (seq_queue <$> sqs) member s.
Proof.
  revert s. induction sqs as [|sq sqs IH]; intros s; [done|]. simpl. unfold asks_bind.
  destruct (Sequence.heads _ _ s) as [s1 [[]|]]; [apply IH|done..].
Qed.

(** A member first in every queue of these it holds a place in. *)
Definition first_in (s : S) (queues : list N) (member : N) : Prop :=
  ∀ q, q ∈ queues → member ∈ queue_of s q → hd_error (queue_of s q) = Some member.

Definition stream_queues (j : Journey) : list N := from_option rec_sequences [] (Journey.received j).
Definition stream_origin (j : Journey) : N := from_option rec_origin 0%N (Journey.received j).
Definition delivery_queues (j : Journey) : list N :=
  option_list (group j ≫= group_queue).
Definition delivery_member (j : Journey) : N := from_option group_delivery 0%N (group j).

Lemma stream_heads_true j s (known : Headed) gone s' known' :
  remembers_rightly ((s, known), gone) → stream_heads j (s, known) = ((s', known'), Ok true) →
  first_in s (stream_queues j) (stream_origin j) ∧ queue_of s' = queue_of s ∧
  remembers_rightly ((s', known'), gone).
Proof.
  unfold stream_heads, first_in, stream_queues, stream_origin.
  destruct (Journey.received j); simpl; [by apply heads_all_true|].
  intros Hw [= <- <-]. (split; [by intros q ?%elem_of_nil|by split]).
Qed.

Lemma group_heads_true j s (known : Headed) gone s' known' :
  remembers_rightly ((s, known), gone) → group_heads j (s, known) = ((s', known'), Ok true) →
  first_in s (delivery_queues j) (delivery_member j) ∧ queue_of s' = queue_of s ∧
  remembers_rightly ((s', known'), gone).
Proof.
  unfold group_heads, first_in, delivery_queues, delivery_member. intros Hw.
  destruct (group j) as [g|]; simpl; [destruct (group_queue g) as [q|]; simpl|].
  2,3: intros [= <- <-]; (split; [by intros q ?%elem_of_nil|by split]).
  intros Hh. apply (heads_true _ _ gone) in Hh as (Hhd & ? & ?); [|done].
  split; [|by split]. by intros q' ->%list_elem_of_singleton.
Qed.

Lemma pass_heads_true (d : Departing) s (known : Headed) gone s' known' :
  remembers_rightly ((s, known), gone) → heads d (s, known) = ((s', known'), Ok true) →
  let j := d_journey d in
  first_in s (stream_queues j) (stream_origin j) ∧
  first_in s (delivery_queues j) (delivery_member j) ∧
  first_in s (seq_queue <$> sequences j) (journey_id j).
Proof.
  intros Hw. unfold heads, asks_bind. set (j := d_journey d).
  destruct (stream_heads j (s, known)) as [[s1 known1] [[]|]] eqn:Hs1; [|done..].
  apply (stream_heads_true _ _ _ gone) in Hs1 as (Hf1 & Hq1 & Hw1); [|done]. simpl.
  destruct (group_heads j (s1, known1)) as [[s2 known2] [[]|]] eqn:Hs2; [|done..].
  apply (group_heads_true _ _ _ gone) in Hs2 as (Hf2 & Hq2 & Hw2); [|done]. simpl.
  rewrite own_heads_all. intros Hs3.
  apply (heads_all_true _ _ _ _ gone) in Hs3 as (Hf3 & _ & _); [|done].
  unfold first_in in *. rewrite Hq2, Hq1 in Hf3. rewrite Hq1 in Hf2. done.
Qed.

(** C8. Order per key is kept at every send: a pass calls a transport for a
    Message only where it holds all its places, its Stream is first in every
    end-to-end sequence it holds a place in, its delivery in its Send Port
    Group's, and the Message itself in every sequence of its Send Port and
    of the Send Locations it may leave by. *)
Theorem sent_in_order w lost sends message_id execution timestamp t (d : Departing) store
    (known : Headed) gone r :
  remembers_rightly ((store, known), gone) →
  send show shown_duration duration show_id w lost sends message_id execution timestamp t d
    (store, known) = Some r →
  p_calls r ≠ [] →
  let j := d_journey d in
  waits_for_places sends j (d_to d) = false ∧
  first_in store (stream_queues j) (stream_origin j) ∧
  first_in store (delivery_queues j) (delivery_member j) ∧
  first_in store (seq_queue <$> sequences j) (journey_id j).
Proof.
  intros Hw Hsend Hcalls j. revert Hsend. unfold send. fold j.
  destruct (waits_for_places sends j (d_to d)) eqn:Hwaits; [by intros [= <-]|].
  destruct (heads d (store, known)) as [[s1 known1] [[]|why]] eqn:Hh; [|by intros [= <-]..].
  intros _. split; [done|]. by eapply pass_heads_true.
Qed.
End ordering.

(** ** Failed over and sent, first in its sequence *)

Section witnesses.
Local Open Scope N_scope.

#[local] Instance plain_record : JourneyOps :=
  {| append j _ _ := j; journey_record _ := []; from_record _ := Err "" |}.

Definition first_of_two : SendStep.Departure unit unit unit :=
  {| d_journey := with_sequences (keyed "In" "Orders" "Out") [{| seq_queue := 5; seq_skips := false |}];
     d_message := tt; d_facts := tt; d_to := SendPort "Out"; d_queue := 50; d_claim := claim_7;
     d_progress := of_attempts no_attempts; d_until := 30; d_durable := None |}.

Definition one_pass :=
  send (S := small) subscriber_name (λ _, "1s") (λ _, Some 1000) (λ _, "7") (refusing_a false) false
    two_locations 9 100 200 0 first_of_two (before_late, ∅).


Lemma sent_in_order_witness : ∃ r, one_pass = Some r ∧ length (p_calls r) = 2%nat ∧
  first_in before_late (seq_queue <$> sequences (d_journey first_of_two)) 7.
Proof.
  destruct one_pass as [r|] eqn:Hr; [|vm_compute in Hr; discriminate].
  assert (length (p_calls r) = 2%nat) as Hc.
  { vm_compute in Hr. injection Hr as <-. reflexivity. }
  exists r. split; [reflexivity|]. split; [exact Hc|]. unfold one_pass in Hr.
  eapply (sent_in_order subscriber_name (λ _, "1s") (λ _, Some 1000) (λ _, "7") (refusing_a false)
    false two_locations 9 100 200 0 first_of_two before_late ∅ (λ _ _, false) r).
  - apply remembers_nothing.
  - exact Hr.
  - intros Hn. rewrite Hn in Hc. discriminate.
Defined.
End witnesses.
