(* ===== verification/Scan.v ===== *)
(** * A scan of a queue: [src/send_step/reading.rs], [scan.rs]

    What is due in a queue, read a page at a time in the order it fell due;
    each entry no live claim holds admitted to a place of the Send pool, and
    claimed and read again under its claim — at once where its destination
    names a Correlation, on a send thread elsewhere. The dispatching thread
    runs it; here it is run with nothing else between its sections
    ([Admission] interleaves them). *)

From stdpp Require Import base numbers list gmap strings.
From S2P Require Import Prelude Tuning Journey Storage SmallStorage Keys Points Sending.
From S2P Require Import Departure Sequence Due Renewal SendStep Pass.

Local Open Scope N_scope.

Section scan.
Context {S T Message Facts Durable : Type} `{XmipStorage S} `{JourneyOps}.
Abbreviation Departing := (SendStep.Departure Message Facts Durable).
Abbreviation State := (State Message Facts Durable).
Implicit Types sends : Sends T.

(** The step and its node's cluster; what the sequences read ([Sequence]);
    what a record reads as ([Pass.read]); the clock and the tokens minted, by
    how often they were asked. *)
Context (step : SendStep) (named : string → N) (shown : KeyWord → string)
  (promote : Message → result (string → option string) string) (show_id : N → string)
  (message_from : bytes → result Message string) (facts_from : bytes → result Facts string)
  (clock : nat → N) (tokens : nat → N).

(** What the dispatching thread threads: Xmip Storage with what is
    remembered, the step's state, and how often the clock and the tokens were
    asked. *)
Record Node := { n_seen : @seen S; n_state : State; n_ticks : nat; n_tokens : nat }.

Definition with_seen (n : Node) (s : @seen S) : Node :=
  {| n_seen := s; n_state := n_state n; n_ticks := n_ticks n; n_tokens := n_tokens n |}.

Definition with_state (n : Node) (st : State) : Node :=
  {| n_seen := n_seen n; n_state := st; n_ticks := n_ticks n; n_tokens := n_tokens n |}.

Definition with_store (n : Node) (s : S) : Node := with_seen n (s, snd (n_seen n)).

Definition ticked (n : Node) : Node :=
  {| n_seen := n_seen n; n_state := n_state n; n_ticks := Datatypes.S (n_ticks n);
     n_tokens := n_tokens n |}.

Definition minted (n : Node) : Node :=
  {| n_seen := n_seen n; n_state := n_state n; n_ticks := n_ticks n;
     n_tokens := Datatypes.S (n_tokens n) |}.

Definition now (n : Node) : N := clock (n_ticks n).

(** ** What is read: [reading.rs] *)

Definition PAGE : N := 64.

(** [Read]: an entry, how long it still waits, and when its read was asked. *)
Definition Read : Type := Held * option N * N.

(** [Reading]. *)
Record Reading := {
  r_queue : N;
  r_read : list Read;
  r_from : option (N * N);
  r_retrying : N;
  r_due_retries : N
}.

(** [Reading::of]. *)
Definition reading_of (queue : N) : Reading :=
  {| r_queue := queue; r_read := []; r_from := Some (0, 0); r_retrying := 0; r_due_retries := 0 |}.

(** [due_retries] and [read]. *)
Definition due_retries (page : DuePage) : N :=
  N.of_nat (count (λ held, bool_decide (is_Some (due_unix_nanos held))) (due_held page)).

Definition read_page (page : DuePage) (asked : N) : list Read :=
  (λ held, (held, due_due_in page held, asked)) <$> due_held page.

(** [Reading::part] and [Reading::page]. *)
Definition next_page (r : Reading) (from : N * N) (waits : Due) (n : Node) :
    Node * Due * result Reading string :=
  let asked := now n in
  let n := ticked n in
  match read_due (fst (n_seen n)) (r_queue r) from PAGE with
  | (s, Err why) => (with_store n s, waits, Err why)
  | (s, Ok page) =>
      let waits := match due_next_in page with
                   | Some remains => Due.wakes_at waits (asked + remains)
                   | None => waits
                   end in
      (with_store n s, waits,
       Ok {| r_queue := r_queue r; r_read := r_read r ++ read_page page asked;
             r_from := match last (due_held page) with
                       | Some held => if N.of_nat (length (due_held page)) =? PAGE
                                      then Some (due_after page held) else None
                       | None => None
                       end;
             r_retrying := due_retrying page;
             r_due_retries := u64_add (r_due_retries r) (due_retries page) |})
  end.

(** [Reading::next]. *)
Definition next_read (r : Reading) (waits : Due) (n : Node) :
    Node * Due * result (Reading * option Read) string :=
  let taken n waits r :=
    match r_read r with
    | one :: rest =>
        (n, waits, Ok ({| r_queue := r_queue r; r_read := rest; r_from := r_from r;
                          r_retrying := r_retrying r; r_due_retries := r_due_retries r |}, Some one))
    | [] =>
        (n, {| Due.port := Due.port waits; at_ := at_ waits;
               Due.waiting := r_retrying r - r_due_retries r; noted_at := noted_at waits |},
         Ok (r, None))
    end in
  match r_read r, r_from r with
  | [], Some from =>
      match next_page r from waits n with
      | (n, waits, Err why) => (n, waits, Err why)
      | (n, waits, Ok r) => taken n waits r
      end
  | _, _ => taken n waits r
  end.

(** ** What is claimed *)

(** [Unclaimed]: where it leads, its queue, its place and what is kept
    beside it; and [Ready]. *)
Record Unclaimed := {
  u_to : Subscriber;
  u_queue : N;
  u_place : N * N;
  u_body : bytes
}.

Inductive Ready :=
  | ReadyUnclaimed (u : Unclaimed)
  | ReadyClaimed (d : Departing).

(** [Taken], a claim [One] took with when it was asked. *)
Inductive Taken :=
  | TakenOne (j : Journey) (m : Message) (f : Facts) (c : Claim) (asked : N)
  | TakenPassed
  | TakenUnanswered.

(** [claimed_first]. *)
Definition claimed_first (u : Unclaimed) (n : Node) : Node * Taken :=
  let id := fst (u_place u) in
  let tok := tokens (n_tokens n) in
  let asked := now n in
  let n := ticked (minted n) in
  match Storage.claim (fst (n_seen n)) id (node step) tok (lease step) with
  | (s, Err _) => (with_store n s, TakenUnanswered)
  | (s, Ok None) => (with_store n s, TakenPassed)
  | (s, Ok (Some c)) =>
      let asked_under := now n in
      match under_claim message_from facts_from (u_queue u) (u_place u) (u_body u) asked_under s with
      | (s, UnderWaiting j m f) => (with_store (ticked n) s, TakenOne j m f c asked)
      | (s, under) =>
          let n := with_store (ticked n) (fst (Storage.release s c)) in
          match under with
          | UnderWaiting _ _ _ | UnderMoved => (n, TakenPassed)
          | UnderNotDue at' =>
              (with_state n (not_due (subscriber_name (u_to u)) (u_queue u) at' (n_state n)),
               TakenPassed)
          | UnderNot _ =>
              (with_state n (pass_over (u_queue u) (u_place u) (n_state n)), TakenPassed)
          | UnderUnanswered => (n, TakenUnanswered)
          end
      end
  end.

(** [owned]: a claim taken, as the departure it is sent as. *)
Definition owned_departure (u : Unclaimed) (j : Journey) (m : Message) (f : Facts) (c : Claim)
    (asked : N) : Departing :=
  {| d_journey := j; d_message := m; d_facts := f; d_to := u_to u; d_queue := u_queue u;
     d_claim := c; d_progress := of_attempts (attempts j); d_until := asked + lease step;
     d_durable := None |}.

(** [take]. *)
Definition take (u : Unclaimed) (n : Node) : Node * option Departing :=
  match claimed_first u n with
  | (n, TakenOne j m f c asked) =>
      let d := owned_departure u j m f c asked in
      (with_state n (own (journey_id j) (owned_of d) (n_state n)), Some d)
  | (n, _) => (n, None)
  end.

(** [placed]. *)
Definition placed (sends : Sends T) (u : Unclaimed) (n : Node) : Node * option Departing :=
  match take u n with
  | (n, None) => (n, None)
  | (n, Some d) =>
      if negb (waits_for_places sends (d_journey d) (d_to d)) then (n, Some d)
      else
        match heading named shown promote show_id (cluster step) sends (d_journey d) (d_message d)
                (d_to d) (d_claim d) (lease step) (n_seen n) with
        | Some (s, j, _) => (with_seen n s, Some (with_journey d j))
        | None => (n, Some d)
        end
  end.

(** [dispatch::take]'s thread: what it takes is sent; its place given back
    where it is not this node's to send. *)
Definition take_on_thread (u : Unclaimed) (n : Node) : Node * option Departing :=
  match take u n with
  | (n, Some d) => (n, Some d)
  | (n, None) => (with_state n (untake (fst (u_place u)) (n_state n)), None)
  end.

(** ** The scan: [scanning] and [scan] *)

Definition known (queue : N) (place : N * N) (st : State) : bool :=
  bool_decide (is_Some (owned st !! fst place)) || bool_decide (fst place ∈ taking st) ||
  match passed st !! queue with Some set => bool_decide (place ∈ set) | None => false end.

(** Whether its Messages are claimed here, in the queue's order. *)
Definition sequenced sends (to : Subscriber) : bool :=
  negb (bool_decide (points_of sends to = [])) || grouped sends to.

(** What a scan has so far: what it read, and what it found to send. *)
Record Scanned := {
  sc_node : Node;
  sc_waits : Due;
  sc_present : gset (N * N);
  sc_found : list Ready;
  sc_whole : bool
}.

(** One entry read: [None] where the pool is full and the scan ends. *)
Definition scan_entry sends (to : Subscriber) (queue : N) (one : Read) (sc : Scanned) : Scanned * bool :=
  let '(held, due_in, asked) := one in
  let id := hold_member (held_hold held) in
  let place := (id, Storage.sequence held) in
  let n := sc_node sc in
  let sc := {| sc_node := n; sc_waits := sc_waits sc; sc_present := {[place]} ∪ sc_present sc;
               sc_found := sc_found sc; sc_whole := false |} in
  if held_failed held then (sc, true)
  else
    match due_in with
    | Some remains =>
        ({| sc_node := n; sc_waits := Due.wakes_at (sc_waits sc) (asked + remains);
            sc_present := sc_present sc; sc_found := sc_found sc; sc_whole := false |}, true)
    | None =>
        if known queue place (n_state n) then (sc, true)
        else
          let '(st, places) := admit_places step 1 (n_state n) in
          if places =? 0 then
            ({| sc_node := with_state n (starve queue st); sc_waits := sc_waits sc;
                sc_present := sc_present sc; sc_found := sc_found sc; sc_whole := false |}, false)
          else
            let n := with_state n (with_taking st ({[id]} ∪ taking st)) in
            let u := {| u_to := to; u_queue := queue; u_place := place;
                        u_body := hold_body (held_hold held) |} in
            let '(n, found) :=
              if sequenced sends to then
                match placed sends u n with
                | (n, Some d) => (n, [ReadyClaimed d])
                | (n, None) => (with_state n (untake id (n_state n)), [])
                end
              else (n, [ReadyUnclaimed u]) in
            ({| sc_node := n; sc_waits := sc_waits sc; sc_present := sc_present sc;
                sc_found := sc_found sc ++ found; sc_whole := false |}, true)
    end.

(** [scanning]'s loop; [answered] whether a read was answered already. The
    wall clock read where a read was not answered is given. *)
Fixpoint scanning (fuel : nat) sends (to : Subscriber) (queue : N) (wall : N) (r : Reading)
    (answered : bool) (sc : Scanned) : option Scanned :=
  match fuel with
  | O => None
  | Datatypes.S fuel =>
      let said why n :=
        with_state n (fst (queue_read (subscriber_name to) why wall (n_state n))) in
      match next_read r (sc_waits sc) (sc_node sc) with
      | (n, waits, Err why) =>
          Some {| sc_node := said (Some why) n; sc_waits := waits; sc_present := sc_present sc;
                  sc_found := sc_found sc; sc_whole := false |}
      | (n, waits, Ok (r, next)) =>
          let n := if answered then n else said None n in
          let sc := {| sc_node := n; sc_waits := waits; sc_present := sc_present sc;
                       sc_found := sc_found sc; sc_whole := false |} in
          match next with
          | None =>
              Some {| sc_node := with_state n (read_whole queue (sc_present sc) (n_state n));
                      sc_waits := waits; sc_present := sc_present sc; sc_found := sc_found sc;
                      sc_whole := true |}
          | Some one =>
              let '(sc, on) := scan_entry sends to queue one sc in
              if on then scanning fuel sends to queue wall r true sc else Some sc
          end
      end
  end.

(** [scan]: what was found, and the queue's due time as it found it. *)
Definition scan (fuel : nat) sends (to : Subscriber) (queue : N) (wall : N) (n : Node) :
    option (Node * list Ready) :=
  let n := with_state n (SendStep.reading queue (n_state n)) in
  match scanning fuel sends to queue wall (reading_of queue) false
          {| sc_node := n; sc_waits := due_of (subscriber_name to); sc_present := ∅;
             sc_found := []; sc_whole := false |} with
  | None => None
  | Some sc =>
      let n := sc_node sc in
      Some (with_state n (SendStep.waited queue (sc_waits sc) (sc_whole sc) (n_state n)), sc_found sc)
  end.
End scan.

(** ** What Xmip Storage promises of what is due

    A page of at most what was asked, the next page starting past every
    entry of it: a place in the order of what is due, two [u64]s. *)

Definition due_place (at' : N * N) : N := fst at' * 2 ^ 64 + snd at'.
Definition due_places : N := 2 ^ 128.

Class DuePages (S : Type) `{XmipStorage S} := {
  read_due_most s s' q from most page : read_due s q from most = (s', Ok page) →
    N.of_nat (length (due_held page)) ≤ most;
  read_due_after s s' q from most page held : read_due s q from most = (s', Ok page) →
    last (due_held page) = Some held →
    due_place from < due_place (due_after page held) < due_places
}.

Section scanned.
Context {S T Message Facts Durable : Type} `{XmipStorage S} `{JourneyOps}.
Abbreviation Node := (@Node S Message Facts Durable).
Abbreviation Scanned := (@Scanned S Message Facts Durable).
Implicit Types (sends : Sends T) (n : Node) (sc : Scanned).
Context (step : SendStep) (named : string → N) (shown : KeyWord → string)
  (promote : Message → result (string → option string) string) (show_id : N → string)
  (message_from : bytes → result Message string) (facts_from : bytes → result Facts string)
  (clock : nat → N) (tokens : nat → N).

Local Abbreviation taking_one := (take step message_from facts_from clock tokens).
Local Abbreviation placing_one :=
  (placed step named shown promote show_id message_from facts_from clock tokens).
Local Abbreviation entry :=
  (scan_entry step named shown promote show_id message_from facts_from clock tokens).
Local Abbreviation scanning_on :=
  (scanning step named shown promote show_id message_from facts_from clock tokens).
Local Abbreviation scan_queue :=
  (scan step named shown promote show_id message_from facts_from clock tokens).

(** ** It ends *)

(** How far a reading still has to go. *)
Definition reading_left (r : Reading) : N :=
  N.of_nat (length (r_read r)) +
  65 * match r_from r with Some from => due_places - due_place from | None => 0 end.

Lemma next_read_falls `{!DuePages S} r waits n n' waits' r' one :
  match r_from r with Some from => due_place from < due_places | None => True end →
  next_read clock r waits n = (n', waits', Ok (r', Some one)) →
  reading_left r' < reading_left r ∧
  match r_from r' with Some from => due_place from < due_places | None => True end.
Proof.
  unfold next_read, reading_left. intros Hfrom.
  destruct (r_read r) as [|one' rest] eqn:Hr; [|intros [= <- <- <- <-]; simpl; split; [lia|done]].
  destruct (r_from r) as [from|] eqn:Hf; [|done].
  unfold next_page. set (n1 := ticked n).
  destruct (read_due _ _ _ _) as [s [page|why]] eqn:Hd; [|done]. simpl. rewrite Hr. simpl.
  pose proof (read_due_most _ _ _ _ _ _ Hd) as Hmost.
  assert (length (read_page page (now clock n)) = length (due_held page)) as Hlen.
  { unfold read_page. by rewrite length_fmap. }
  destruct (read_page page (now clock n)) as [|one' rest]; [done|].
  intros [= <- <- <- <-]. simpl in *. unfold PAGE in *.
  destruct (last (due_held page)) as [held|] eqn:Hl; [|lia].
  destruct (read_due_after _ _ _ _ _ _ _ Hd Hl) as [Hlt Hbound].
  destruct (_ =? _) eqn:Hfull; simpl; [|split; [lia|done]].
  split; [|done]. lia.
Qed.

Lemma scanning_returns `{!DuePages S} sends to queue wall r answered sc :
  match r_from r with Some from => due_place from < due_places | None => True end →
  ∃ fuel res, scanning_on fuel sends to queue wall r answered sc = Some res.
Proof.
  remember (reading_left r) as left_ eqn:Hleft.
  revert r answered sc Hleft. induction left_ as [left_ IH] using (well_founded_induction N.lt_wf_0).
  intros r answered sc -> Hfrom.
  destruct (next_read clock r (sc_waits sc) (sc_node sc)) as [[n waits] [[r' [one|]]|why]] eqn:Hn.
  2,3: exists 1%nat; simpl; rewrite Hn; by eexists.
  apply next_read_falls in Hn as Hf; [|done]. destruct Hf as [Hlt Hfrom'].
  set (n1 := if answered then n else
    with_state n (fst (queue_read (subscriber_name to) None wall (n_state n)))).
  set (sc1 := {| sc_node := n1; sc_waits := waits; sc_present := sc_present sc;
                 sc_found := sc_found sc; sc_whole := false |}).
  destruct (entry sends to queue one sc1) as [sc2 []] eqn:He.
  - destruct (IH _ Hlt r' true sc2 eq_refl Hfrom') as (fuel & res & Hres).
    exists (Datatypes.S fuel), res. cbn [scanning]. rewrite Hn. cbn beta iota zeta. fold n1. fold sc1. by rewrite He.
  - exists 1%nat, sc2. cbn [scanning]. rewrite Hn. cbn beta iota zeta. fold n1. fold sc1. by rewrite He.
Qed.

(** A scan of a queue ends, however much is due in it and whatever Xmip
    Storage answers each page, claim and read: where its pages go on past
    what they showed, as it promises, each entry is read once at most. *)
Theorem scan_returns `{!DuePages S} sends to queue wall n :
  ∃ fuel res, scan_queue fuel sends to queue wall n = Some res.
Proof.
  unfold scan. edestruct scanning_returns as (fuel & res & Hres); [|exists fuel; rewrite Hres; by eexists].
  simpl. unfold due_places, due_place. simpl. lia.
Qed.

(** ** Each under a place of its own *)

Definition is_unclaimed (one : @Ready Message Facts Durable) : bool :=
  match one with ReadyUnclaimed _ => true | ReadyClaimed _ => false end.

(** The places of the Send pool as they stand, [admitted] more than at the
    scan's beginning for what it found to be claimed on a thread. *)
Record scan_fits (admitted0 : N) (found : list (@Ready Message Facts Durable))
    (st : State Message Facts Durable) : Prop := {
  sf_admitted : admitted st = admitted0 + N.of_nat (count is_unclaimed found);
  sf_fits : N.of_nat (size (owned st)) + admitted st ≤ N.max (most (limits step)) 1
}.

(** What touches neither what is owned, admitted nor taken. *)
Definition same_places (st1 st2 : State Message Facts Durable) : Prop :=
  owned st2 = owned st1 ∧ admitted st2 = admitted st1 ∧ taking st2 = taking st1.

Lemma same_places_refl st : same_places st st.
Proof. done. Qed.

Lemma claimed_first_places u n n' t :
  claimed_first step message_from facts_from clock tokens u n = (n', t) →
  same_places (n_state n) (n_state n').
Proof.
  unfold claimed_first.
  destruct (Storage.claim _ _ _ _ _) as [s [[c|]|why]]; [|by intros [= <- <-]..].
  destruct (under_claim _ _ _ _ _ _ _) as [s' under]. destruct under; by intros [= <- <-].
Qed.

Lemma take_places u n n' d :
  taking_one u n = (n', d) → 0 < admitted (n_state n) →
  match d with
  | Some _ =>
      N.of_nat (size (owned (n_state n'))) ≤ 1 + N.of_nat (size (owned (n_state n))) ∧
      admitted (n_state n') = admitted (n_state n) - 1
  | None => same_places (n_state n) (n_state n')
  end.
Proof.
  unfold take. destruct (claimed_first _ _ _ _ _ _ _) as [n1 t] eqn:Hc.
  apply claimed_first_places in Hc as (Ho & Ha & Ht).
  destruct t as [j m f c asked| |]; intros [= <- <-] Hpos; simpl; rewrite ?Ho, ?Ha, ?Ht; [|done..].
  split; [|done].
  match goal with |- context [<[?i := ?x]> ?m'] => pose proof (size_insert_le i x m') end. lia.
Qed.

Lemma placed_places sends u n n' d :
  placing_one sends u n = (n', d) → 0 < admitted (n_state n) →
  match d with
  | Some _ =>
      N.of_nat (size (owned (n_state n'))) ≤ 1 + N.of_nat (size (owned (n_state n))) ∧
      admitted (n_state n') = admitted (n_state n) - 1
  | None => same_places (n_state n) (n_state n')
  end.
Proof.
  unfold placed. destruct (take _ _ _ _ _ _ _) as [n1 [d1|]] eqn:Ht.
  2:{ intros [= <- <-]. by apply (take_places u n n1 None). }
  intros Hd Hpos. pose proof (take_places _ _ _ _ Ht Hpos) as Hp. simpl in Hp.
  destruct (negb _); [by simplify_eq|]. destruct (heading _ _ _ _ _ _ _ _ _ _ _ _) as [[[s j] r]|];
    by simplify_eq.
Qed.

Lemma untake_taken id (st : State Message Facts Durable) :
  id ∈ taking st →
  owned (untake id st) = owned st ∧ admitted (untake id st) = admitted st - 1.
Proof. intros Hin. unfold untake. by rewrite bool_decide_eq_true_2. Qed.

Lemma next_read_places r waits n n' waits' res :
  next_read clock r waits n = (n', waits', res) → n_state n' = n_state n.
Proof.
  unfold next_read. destruct (r_read r); [|by intros [= <- _ _]].
  destruct (r_from r) as [from|]; [|by intros [= <- _ _]].
  unfold next_page. destruct (read_due _ _ _ _) as [s [page|why]]; [|by intros [= <- _ _]].
  cbn beta iota zeta. destruct (r_read _); by intros [= <- _ _].
Qed.

Lemma admit_one_cases (st : State Message Facts Durable) :
  (admit_places step 1 st = (with_admitted st (admitted st + 0), 0) ∧ room_in step st = 0) ∨
  (admit_places step 1 st = (with_admitted st (admitted st + 1), 1) ∧ 1 ≤ room_in step st).
Proof.
  unfold admit_places. destruct (decide (room_in step st = 0)) as [Hz|Hnz].
  - left. by rewrite Hz.
  - right. replace (N.min 1 (room_in step st)) with 1 by lia. split; [done|lia].
Qed.

Lemma scan_entry_fits admitted0 sends to queue one sc sc' on :
  entry sends to queue one sc = (sc', on) →
  scan_fits admitted0 (sc_found sc) (n_state (sc_node sc)) →
  scan_fits admitted0 (sc_found sc') (n_state (sc_node sc')).
Proof.
  unfold scan_entry. destruct one as [[held due_in] asked].
  destruct (held_failed held); [by intros [= <- <-]|].
  destruct due_in as [remains|]; [by intros [= <- <-]|].
  set (place := (hold_member (held_hold held), Storage.sequence held)).
  cbn [sc_node sc_waits sc_present sc_found].
  destruct (known _ _ _); [by intros [= <- <-]|].
  destruct (admit_one_cases (n_state (sc_node sc))) as [[-> Hroom]|[-> Hroom]].
  { intros [= <- <-] [Hadm Hfit]. split; simpl; lia. }
  unfold room_in in Hroom. change (1 =? 0) with false. cbn iota. intros Hentry [Hadm Hfit].
  set (n1 := with_state (sc_node sc) _) in Hentry.
  assert (admitted (n_state n1) = admitted (n_state (sc_node sc)) + 1) as Ha1 by done.
  assert (owned (n_state n1) = owned (n_state (sc_node sc))) as Ho1 by done.
  assert (fst place ∈ taking (n_state n1)) as Ht1 by (apply elem_of_union; left; by apply elem_of_singleton).
  destruct (sequenced sends to); [|injection Hentry as <- <-].
  - destruct (placed _ _ _ _ _ _ _ _ _ _ _ n1) as [n2 [d|]] eqn:Hp; injection Hentry as <- <-;
      apply placed_places in Hp as Hpl; try lia.
    + destruct Hpl as [Ho Ha]. rewrite Ho1 in Ho. split; simpl; rewrite ?count_app; simpl; [|lia].
      rewrite Ha, Ha1, Hadm. unfold count. simpl. lia.
    + destruct Hpl as (Ho & Ha & Ht). rewrite app_nil_r. rewrite <- Ht in Ht1.
      destruct (untake_taken _ _ Ht1) as [Ho2 Ha2]. unfold place, fst in Ho2, Ha2.
      split; cbn [sc_node sc_found n_state with_state];
        rewrite ?Ha2, ?Ho2, ?Ha, ?Ho, ?Ha1, ?Ho1, ?Hadm; lia.
  - split; cbn [sc_node sc_found]; rewrite ?count_app, ?count_cons, ?count_nil, ?Ha1, ?Ho1; simpl; lia.
Qed.

Lemma scanning_fits admitted0 fuel sends to queue wall r answered sc res :
  scanning_on fuel sends to queue wall r answered sc = Some res →
  scan_fits admitted0 (sc_found sc) (n_state (sc_node sc)) →
  scan_fits admitted0 (sc_found res) (n_state (sc_node res)).
Proof.
  revert r answered sc. induction fuel as [|fuel IH]; intros r answered sc; cbn [scanning]; [done|].
  destruct (next_read clock r _ _) as [[n waits] res'] eqn:Hn.
  apply next_read_places in Hn. destruct res' as [[r' [one|]]|why]; cbn beta iota zeta.
  - destruct (entry _ _ _ _ _) as [sc' on] eqn:He. intros Hres Hfit.
    apply (scan_entry_fits admitted0) in He.
    + destruct on; [by eapply IH|by simplify_eq].
    + simpl. destruct Hfit as [Ha Hf]. destruct answered; split; simpl; rewrite Hn; done.
  - intros [= <-] [Ha Hf]. simpl. destruct answered; split; simpl; rewrite ?Hn; done.
  - intros [= <-] [Ha Hf]. split; simpl; rewrite Hn; done.
Qed.

Lemma scan_places fuel sends to queue wall n n' found :
  N.of_nat (size (owned (n_state n))) + admitted (n_state n) ≤ N.max (most (limits step)) 1 →
  scan_queue fuel sends to queue wall n = Some (n', found) →
  admitted (n_state n') = admitted (n_state n) + N.of_nat (count is_unclaimed found) ∧
  N.of_nat (size (owned (n_state n'))) + admitted (n_state n') ≤ N.max (most (limits step)) 1.
Proof.
  unfold scan. intros Hfit. set (n1 := with_state n _).
  assert (same_places (n_state n) (n_state n1)) as (Ho & Ha & _).
  { unfold n1, SendStep.reading. simpl. by case_match. }
  destruct (scanning _ _ _ _ _ _ _ _ _ _ _ _ _ _ _ _) as [sc|] eqn:Hs; [|done].
  intros [= <- <-]. apply (scanning_fits (admitted (n_state n))) in Hs; [by destruct Hs|].
  split; cbn [sc_node sc_found]; rewrite ?Ho, Ha, ?count_nil; [lia|done].
Qed.

(** A scan claims nothing the Send pool has no room for: however long
    the queue, what it found to be claimed on send threads holds one
    admitted place each, and what it claimed itself, and gave back, none
    besides what it owns; so the pool holds no more than its threads, as it
    did. *)
Theorem scan_within_room fuel sends to queue wall n n' found :
  N.of_nat (size (owned (n_state n))) + admitted (n_state n) ≤ N.max (most (limits step)) 1 →
  scan_queue fuel sends to queue wall n = Some (n', found) →
  admitted (n_state n') = admitted (n_state n) + N.of_nat (count is_unclaimed found) ∧
  N.of_nat (size (owned (n_state n'))) + admitted (n_state n') ≤ N.max (most (limits step)) 1.
Proof. apply scan_places. Qed.
End scanned.

(** ** Three due, in a pool of two threads *)

#[export] Instance small_due_pages : DuePages small.
Proof.
  split.
  - intros s s' q from most page [= <- <-]. simpl. rewrite length_take. lia.
  - intros s s' q from most page held [= <- <-]. simpl. intros Hl.
    apply last_Some_elem_of in Hl. apply elem_of_take in Hl as (i & Hi & _).
    apply list_elem_of_lookup_2, list_elem_of_In, filter_In in Hi as [_ Hi].
    apply andb_true_iff in Hi as [Hi Hb%N.ltb_lt]. apply andb_true_iff in Hi as [_ Hf%N.leb_le].
    unfold due_place, due_places. simpl in *. lia.
Defined.

Section witnesses.
#[local] Instance bare_record : JourneyOps :=
  {| append j _ _ := j; journey_record _ := []; from_record _ := Err "" |}.

Definition two_threads : SendStep :=
  {| SendStep.cluster := "xmip:///c"; SendStep.node := "xmip:///c/node/n"; SendStep.lease := 30;
     SendStep.scan := 1; SendStep.window := 100; SendStep.limits := {| most := 2; idle := 60 |} |}.

Definition nothing_yet : State unit unit unit :=
  {| SendStep.handed := []; due := ∅; owned := ∅; admitted := 0; taking := ∅; starved := [];
     passed := ∅; ports := ∅; asked := []; figures := ∅; failing := ∅; rescan := false;
     served := []; closed := false |}.

Definition three_due : @Node small unit unit unit :=
  {| n_seen := (SmallStorage.with_held small_empty [held_at 1 50 7; held_at 2 50 8; held_at 3 50 9], ∅);
     n_state := nothing_yet; n_ticks := 0; n_tokens := 0 |}.

Definition scan_three (fuel : nat) := scan (T := N) two_threads (λ s, N.of_nat (String.length s)) (λ _, "")
  (λ _ : unit, Ok (λ _, None)) (λ _, "7") (λ _, Ok tt) (λ _, Ok tt) (λ _, 100) (λ k, N.of_nat k)
  fuel two_locations (SendPort "Out") 50 0 three_due.

Lemma scan_returns_witness : ∃ fuel res, scan_three fuel = Some res.
Proof.
  exact (scan_returns two_threads (λ s, N.of_nat (String.length s)) (λ _, "")
    (λ _ : unit, Ok (λ _, None)) (λ _, "7") (λ _, Ok tt) (λ _, Ok tt) (λ _, 100) (λ k, N.of_nat k)
    two_locations (SendPort "Out") 50 0 three_due).
Defined.

(** Two are found, a place each, and the third waits, its queue starved. *)
Lemma scan_within_room_witness : ∃ n' found, scan_three 9 = Some (n', found) ∧
  count is_unclaimed found = 2%nat ∧ starved (n_state n') = [50] ∧
  admitted (n_state n') = 0 + N.of_nat (count is_unclaimed found).
Proof.
  destruct (scan_three 9) as [[n' found]|] eqn:Hs; [|vm_compute in Hs; discriminate].
  assert (count is_unclaimed found = 2%nat ∧ starved (n_state n') = [50]) as [Hc Hst].
  { vm_compute in Hs. injection Hs as <- <-. split; reflexivity. }
  exists n', found. split; [reflexivity|]. split; [exact Hc|]. split; [exact Hst|].
  unfold scan_three in Hs. eapply scan_within_room in Hs as [Ha _]; [exact Ha|].
  vm_compute. discriminate.
Defined.
End witnesses.
