(* ===== verification/MessageAct.v ===== *)
(** * An operator's acts on a Message that failed: [src/send_step/message_act.rs], [failed.rs], [figures.rs]

    Retry and Dismiss, each one hand-on under a claim, on what the Ledger
    held before it and holds still under it; the window kept of a Send
    Port's failed Messages, and a page of them. *)

From stdpp Require Import base numbers list gmap strings.
From S2P Require Import Prelude Tuning Journey Storage SmallStorage Keys Points Sending.
From S2P Require Import Departure Sequence Due Renewal SendStep Pass.

(** [observe::Act], as far as this reads it. *)
Inductive Act := Retry | Dismiss | OtherAct (word : string).

#[export] Instance act_eq_dec : EqDecision Act.
Proof. solve_decision. Defined.

(** [FailedPage]. *)
Record FailedPage := {
  fp_count : N;
  fp_messages : list FailedMessage;
  fp_next : option N
}.

(** [FailedMessage::of]. *)
Definition failed_message (failed : FailedEntry) : FailedMessage :=
  {| fm_journey := fe_journey failed; fm_place := fe_place failed; fm_reason := fe_reason failed |}.

Section acts.
Context {S Message Facts Durable : Type} `{XmipStorage S} `{JourneyOps}.
Abbreviation State := (State Message Facts Durable).
Context (step : SendStep) (queue : Subscriber → N) (parse_id : string → option N)
  (show_id : N → string) (show_state : JourneyState → string)
  (message_act : Act → result Act string) (act_word : Act → string).

Abbreviation Node := (S * State)%type.

(** ** The failed Messages of a Send Port: [figures.rs], [failed.rs] *)

(** [SendStep::read_failed]: read again where the index moved, or afresh. *)
Definition read_failed (port : string) (queue : N) (afresh : bool) : Node → Node := λ '(s, st),
  match Storage.read_failed s queue 0 0 with
  | (s, Err _) => (s, st)
  | (s, Ok places) =>
      let at' := (fq_next places, fq_count places) in
      let unchanged := match failing st !! port with
                       | Some window => bool_decide (win_read_at window = Some at')
                       | None => false
                       end in
      if negb afresh && unchanged then (s, st)
      else
        match Storage.read_failed s queue 0 (N.min (SendStep.window step) u32_max) with
        | (s, Err _) => (s, st)
        | (s, Ok read) =>
            (s, with_failing st (<[port := {| win_count := fq_count read;
                                             win_read_at := Some (fq_next read, fq_count read);
                                             win_oldest := failed_message <$> fq_failed read |}]>
                                   (failing st)))
        end
  end.

(** [SendStep::failed_messages]. *)
Definition failed_messages (port : string) (from most : N) (s : S) : S * result FailedPage string :=
  let most := N.max most 1 in
  match Storage.read_failed s (queue (SendPort port)) from most with
  | (s, Err error) =>
      (s, Err ("FAILED: Xmip Storage did not answer for " +:+ port +:+ "'s queue: " +:+ error)%string)
  | (s, Ok read) =>
      let full := (most <=? N.of_nat (length (fq_failed read)))%N in
      (s, Ok {| fp_count := fq_count read; fp_messages := failed_message <$> fq_failed read;
                fp_next :=
                  match last (fq_failed read) with
                  | Some last =>
                      let next := u64_add (fe_sequence last) 1 in
                      if full && (next <? fq_next read)%N then Some next else None
                  | None => None
                  end |})
  end.

(** ** The act *)

(** [acted]. *)
Definition acted (j : Journey) (act : Act) (said : string) (execution timestamp : N) : Journey :=
  let st := if bool_decide (act = Retry) then Active else Dismissed in
  let acted := append j {| entry_execution := execution; entry_message := default 0%N (last (messages j));
                           entry_action := act_word act; entry_outcome := said;
                           entry_timestamp := timestamp |} st in
  if bool_decide (act = Retry) then with_attempts acted no_attempts else acted.

(** [not_done]'s words. *)
Definition not_done (act : Act) (id : N) (problem : string) : string :=
  "FAILED: the Message of the Journey " +:+ show_id id +:+ " is not " +:+
  (if bool_decide (act = Retry) then "retried" else "dismissed") +:+
  ": Xmip Storage did not take it: " +:+ problem.

(** [kept]. *)
Definition kept (act : Act) (id : N) : asks S (bytes * Journey) := λ s,
  match Storage.read_journey s id with
  | (s, Ok (Some record)) =>
      match from_record (record_body record) with
      | Ok j => (s, Ok (record_body record, j))
      | Err why =>
          (s, Err ("REFUSED: the Journey " +:+ show_id id +:+ " cannot be read: " +:+ why)%string)
      end
  | (s, Ok None) => (s, Err ("REFUSED: no Journey " +:+ show_id id +:+ " is in the Ledger")%string)
  | (s, Err error) => (s, Err (not_done act id error))
  end.

(** [taken_by]. *)
Definition taken_by (id : N) (j : Journey) (st : State) : result (string * bool) string :=
  if negb (bool_decide (Journey.state j = Failed)) then
    Err ("REFUSED: the Journey " +:+ show_id id +:+ " is " +:+ show_state (Journey.state j) +:+
         ", not Failed; only a Message that failed is retried or dismissed")%string
  else
    match send_port j with
    | None => Err ("REFUSED: the Message of the Journey " +:+ show_id id +:+ " leads to no Send Port")%string
    | Some port =>
        match ports st !! port with
        | None => Err ("REFUSED: " +:+ node step +:+ " sends no Send Port " +:+ port +:+
                       "; act on the node that sends it")%string
        | Some blocks => Ok (port, blocks)
        end
    end.

(** [unchanged]. *)
Definition unchanged (act : Act) (id : N) (seen : bytes) : asks S unit := λ s,
  match kept act id s with
  | (s, Err why) => (s, Err why)
  | (s, Ok (now, j)) =>
      if bool_decide (now = seen) then (s, Ok tt)
      else (s, Err ("REFUSED: the Journey " +:+ show_id id +:+
                    " changed while it was acted on and is " +:+ show_state (Journey.state j) +:+
                    " now; nothing was written, look again")%string)
  end.

(** The one write of an act. *)
Definition act_hand_on (j : Journey) (act : Act) (c : Claim) (q : N) (blocks : bool) (said : string)
    (execution timestamp : N) : HandOn :=
  let retry := bool_decide (act = Retry) in
  {| ho_claim := c; ho_result := journey_record (acted j act said execution timestamp);
     ho_messages := []; ho_next := [];
     ho_leaves := if retry then [] else q :: (seq_queue <$> sequences j);
     ho_queued := []; ho_requeued := if retry && negb blocks then [q] else [];
     ho_failed := None; ho_cleared := [q]; ho_waits := None; ho_kept_for_nanos := None |}.

Definition act_said (act : Act) (id : N) (who port : string) : string :=
  if bool_decide (act = Retry)
  then "The Message of the Journey " +:+ show_id id +:+ " retried by " +:+ who +:+
       "; sent again from " +:+ port +:+ "'s queue"
  else "The Message of the Journey " +:+ show_id id +:+ " dismissed by " +:+ who +:+
       "; its history is kept".

(** The act once its claim is taken. *)
Definition act_under (act : Act) (id : N) (who : string) (seen : bytes) (j : Journey) (port : string)
    (blocks : bool) (c : Claim) (execution timestamp : N) : Node → Node * result string string :=
  λ '(s, st),
  match unchanged act id seen s with
  | (s, Err refused) => ((fst (Storage.release s c), st), Err refused)
  | (s, Ok _) =>
      let q := queue (SendPort port) in
      let said := act_said act id who port in
      match Storage.hand_on s (act_hand_on j act c q blocks said execution timestamp) with
      | (s, Ok true) =>
          let st := SendStep.acted_on q id st in
          let '(s, st) := read_failed port q true (s, st) in
          ((s, SendStep.ask q st), Ok said)
      | (s, Ok false) => ((s, st), Err (not_done act id "its claim lapsed before it was written"))
      | (s, Err error) => ((fst (Storage.release s c), st), Err (not_done act id error))
      end
  end.

(** [SendStep::act], its token, entry and time given. *)
Definition act (journey : string) (act : Act) (who : string) (tok execution timestamp : N) :
    Node → Node * result string string := λ '(s, st),
  match message_act act with
  | Err why => ((s, st), Err why)
  | Ok act =>
      match parse_id journey with
      | None => ((s, st), Err ("REFUSED: '" +:+ journey +:+ "' names no Journey")%string)
      | Some id =>
          match kept act id s with
          | (s, Err why) => ((s, st), Err why)
          | (s, Ok (seen, j)) =>
              if bool_decide (act = Dismiss) && bool_decide (Journey.state j = Dismissed)
              then ((s, st), Ok ("The Message of the Journey " +:+ show_id id +:+
                                 " was dismissed already")%string)
              else
                match taken_by id j st with
                | Err why => ((s, st), Err why)
                | Ok (port, blocks) =>
                    match Storage.claim s id (node step) tok (lease step) with
                    | (s, Ok (Some c)) =>
                        act_under act id who seen j port blocks c execution timestamp (s, st)
                    | (s, Ok None) =>
                        ((s, st), Err ("REFUSED: the Message of the Journey " +:+ show_id id +:+
                           " is claimed by another; act again once it is free")%string)
                    | (s, Err error) => ((s, st), Err (not_done act id error))
                    end
                end
          end
      end
  end.
End acts.

Arguments read_failed : simpl never.
Arguments act_under : simpl never.

(** ** What an act writes *)

Section writes.
Context {S Message Facts Durable : Type} `{XmipStorage S} `{ops : JourneyOps} `{!JourneyLaws ops}.
Abbreviation State := (State Message Facts Durable).
Context (step : SendStep) (queue : Subscriber → N) (parse_id : string → option N)
  (show_id : N → string) (show_state : JourneyState → string)
  (message_act : Act → result Act string) (act_word : Act → string).

Lemma kept_log act id (s : Logged S) s' r :
  kept show_id act id s = (s', r) → snd s' = snd s.
Proof.
  unfold kept. simpl. unfold beside.
  destruct (read_journey s.1 id) as [s1 [[record|]|why]]; simpl; [case_match|..]; by intros [= <- _].
Qed.

Lemma unchanged_log act id seen (s : Logged S) s' r :
  unchanged show_id show_state act id seen s = (s', r) → snd s' = snd s.
Proof.
  unfold unchanged. destruct (kept show_id act id s) as [s1 [[now j]|why]] eqn:Hk;
    apply kept_log in Hk; [case_match|]; intros [= <- _]; done.
Qed.

(** Read again under the claim, it is what it was. *)
Lemma unchanged_ok act id seen (s : Logged S) s' :
  unchanged show_id show_state act id seen s = (s', Ok tt) →
  ∃ j, kept show_id act id s = (s', Ok (seen, j)).
Proof.
  unfold unchanged. destruct (kept show_id act id s) as [s1 [[now j]|why]] eqn:Hk; [|done].
  case_bool_decide; [|done]. subst. intros [= <-]. by exists j.
Qed.

Lemma kept_record act id (s : Logged S) s' seen j :
  kept show_id act id s = (s', Ok (seen, j)) → from_record seen = Ok j.
Proof.
  unfold kept. simpl. unfold beside.
  destruct (read_journey s.1 id) as [s1 [[record|]|why]]; simpl; [|done..].
  destruct (from_record (record_body record)) as [j'|] eqn:Hf; [|done]. by intros [= _ <- <-].
Qed.

Lemma read_failed_log port q afresh (s : Logged S) (st : State) n :
  read_failed step port q afresh (s, st) = n → snd (fst n) = snd s.
Proof.
  intros <-. unfold read_failed. simpl. unfold beside.
  destruct (Storage.read_failed s.1 q 0 0) as [s1 [places|why]]; simpl; [|done].
  case_match; [done|].
  by destruct (Storage.read_failed s1 q 0 _) as [s2 [read|why]].
Qed.

Lemma acted_state j act said execution timestamp :
  Journey.state (acted act_word j act said execution timestamp) =
  if bool_decide (act = Retry) then Active else Dismissed.
Proof. unfold acted. case_bool_decide; simpl; apply append_state. Qed.

(** An act's one write: of the Journey as the Ledger held it under the claim,
    a Failed one whose Send Port this node sends, and what it leaves of it. *)
Definition act_wrote (act : Act) (st : State) (h : HandOn) : Prop :=
  ∃ j port (blocks : bool) j' (s1 s2 : Logged S) id seen,
    kept show_id act id s1 = (s2, Ok (seen, j)) ∧
    Journey.state j = Failed ∧ send_port j = Some port ∧ ports st !! port = Some blocks ∧
    ho_result h = journey_record j' ∧ sequences j' = sequences j ∧
    let q := queue (SendPort port) in
    ho_cleared h = [q] ∧ ho_queued h = [] ∧ ho_failed h = None ∧ ho_waits h = None ∧
    if bool_decide (act = Retry)
    then Journey.state j' = Active ∧ attempts j' = no_attempts ∧ ho_leaves h = [] ∧
         ho_requeued h = (if blocks then [] else [q])
    else Journey.state j' = Dismissed ∧ ho_requeued h = [] ∧
         ho_leaves h = q :: (seq_queue <$> sequences j).

Lemma act_hand_on_wrote act j port blocks c said execution timestamp (st : State) (s1 s2 : Logged S) id seen :
  kept show_id act id s1 = (s2, Ok (seen, j)) →
  Journey.state j = Failed → send_port j = Some port → ports st !! port = Some blocks →
  act_wrote act st (act_hand_on act_word j act c (queue (SendPort port)) blocks said execution timestamp).
Proof.
  intros Hk Hs Hp Hb. exists j, port, blocks. eexists. exists s1, s2, id, seen. cbv zeta.
  split_and!; [done..| | |done|done|done|done|].
  - reflexivity.
  - unfold acted. case_bool_decide; simpl; apply append_places.
  - pose proof (acted_state j act said execution timestamp) as Ha. revert Ha. unfold act_hand_on, acted.
    case_bool_decide; simpl; intros Ha; split_and!; try done. by destruct blocks.
Qed.

Lemma act_under_log act id who seen j port blocks c execution timestamp (s : Logged S) (st : State) s' st' r :
  act_under step queue show_id show_state act_word act id who seen j port blocks c execution timestamp
    (s, st) = ((s', st'), r) →
  match r with
  | Err _ => snd s' = snd s
  | Ok said =>
      snd s' = act_hand_on act_word j act c (queue (SendPort port)) blocks said execution timestamp :: snd s ∧
      ∃ s2 j2, kept show_id act id s = (s2, Ok (seen, j2))
  end.
Proof.
  unfold act_under. destruct (unchanged show_id show_state act id seen s) as [s1 [[]|why]] eqn:Hu;
    apply unchanged_log in Hu as Hlog; [|by intros [= <- <- <-]].
  apply unchanged_ok in Hu as [j2 Hk].
  simpl. destruct (hand_on s1.1 _) as [s2 [[]|why]]; cbn beta iota.
  - match goal with |- context [read_failed ?a ?b ?c ?d ?e] =>
      destruct (read_failed a b c d e) as [s3 st3] eqn:Hf end.
    apply read_failed_log in Hf. simpl in Hf.
    intros [= <- <- <-]. rewrite Hf, Hlog. split; [done|]. by eexists _, _.
  - by intros [= <- <- <-].
  - by intros [= <- <- <-].
Qed.

End writes.

(** ** A failed Message dismissed, then retried by another *)

Section witnesses.
Local Open Scope N_scope.

(** A Journey kept as its state's first byte beside the one Journey there
    is. *)
Definition failed_7 : Journey :=
  {| journey_id := 7; Journey.state := Failed; attempts := {| att_location := 1; att_tries := 3 |};
     sequences := [{| seq_queue := 5; seq_skips := false |}]; group := None; Journey.received := None;
     send_port := Some "Out"; current_work_process := None; cause := None; previous := None;
     messages := [9]; history := [] |}.

#[local] Instance one_journey : JourneyOps :=
  {| append j e s :=
       {| journey_id := journey_id j; Journey.state := s; attempts := attempts j;
          sequences := sequences j; group := group j; Journey.received := Journey.received j;
          send_port := send_port j; current_work_process := current_work_process j;
          cause := cause j; previous := previous j; messages := messages j;
          history := history j ++ [e] |};
     journey_record j := match Journey.state j with Failed => [Byte.x00] | _ => [Byte.x01] end;
     from_record b := match b with [Byte.x00] => Ok failed_7 | _ => Err "of another state" end |}.

#[local] Instance one_journey_laws : JourneyLaws one_journey.
Proof. by split; intros; simpl; split_and?. Defined.

Definition ledger_of_7 : Logged small :=
  ({| sm_held := [held_at 1 50 7; held_at 2 5 7]; sm_next := 3; sm_claims := []; sm_fence := 0;
      sm_journeys := [(7, [Byte.x00])]; sm_messages := []; sm_now := 1000 |}, []).

Definition sending_out : State unit unit unit :=
  {| handed := []; due := ∅; owned := ∅; admitted := 0; taking := ∅; starved := []; passed := ∅;
     ports := {["Out" := true]}; asked := []; figures := ∅; failing := ∅; rescan := false;
     served := []; closed := false |}.

Definition one_node : SendStep :=
  {| cluster := "xmip:///c"; node := "xmip:///c/node/n"; lease := 30; scan := 1; window := 100;
     limits := {| most := 2; idle := 60 |} |}.

Definition acting (a : Act) :=
  act one_node (λ _, 50) (λ _, Some 7) (λ _, "7") (λ _, "failed") (λ a, Ok a) (λ _, "act")
    "7" a "operator" 70 100 200 (ledger_of_7, sending_out).

End witnesses.
