(* ===== verification/Dispatch.v ===== *)
(** * The dispatching: [src/send_step/dispatch.rs]

    A send thread's Message sent and its pass settled, however it ends, and
    one turn of the dispatching: what was handed run, and each queue asked
    for — or due, or every one at a scan's time — read while the pool has
    room. *)

From stdpp Require Import base numbers list gmap strings.
From S2P Require Import Prelude Tuning Journey Storage SmallStorage Keys Points Sending.
From S2P Require Import Departure Sequence Due Renewal SendStep Pass Scan MessageAct.

Local Open Scope N_scope.

Section dispatch.
Context {S T Message Facts Durable : Type} `{XmipStorage S} `{JourneyOps}.
Abbreviation Departing := (SendStep.Departure Message Facts Durable).
Abbreviation State := (State Message Facts Durable).
Abbreviation Node := (@Node S Message Facts Durable).
Implicit Types sends : Sends T.
Context (step : SendStep) (show : Subscriber → string) (shown_duration : N → string)
  (duration : string → option N) (named : string → N) (shown : KeyWord → string)
  (promote : Message → result (string → option string) string) (show_id : N → string)
  (message_from : bytes → result Message string) (facts_from : bytes → result Facts string)
  (clock : nat → N) (tokens : nat → N).

(** [SendStep::read_failed] on what the dispatching threads. *)
Definition failed_read (port : string) (queue : N) (afresh : bool) (n : Node) : Node :=
  let '(s, st) := read_failed step port queue afresh (fst (n_seen n), n_state n) in
  with_state (with_store n s) st.

(** An ask unanswered counts as not heading. *)
Definition or_false (answered : @seen S * result bool string) : @seen S * bool :=
  match answered with (s, Ok b) => (s, b) | (s, Err _) => (s, false) end.

(** Whether one behind only waits for its places: its Stream and its
    delivery heading. *)
Definition behind_asks (j : Journey) (s : @seen S) : @seen S * bool :=
  if negb (bool_decide (sequences j = [])) then (s, false)
  else
    let '(s, stream) := or_false (stream_heads j s) in
    if negb stream then (s, false) else or_false (group_heads j s).

(** [SendStep::settle]. *)
Definition settle (d : Departing) (ended : Ended) (n : Node) : Node :=
  match ended with
  | EndedLost _ => with_state n (lost_here d (n_state n))
  | EndedBehind =>
      let n := with_store n (fst (Storage.release (fst (n_seen n)) (d_claim d))) in
      let '(s, asks) := behind_asks (d_journey d) (n_seen n) in
      let n := with_seen n s in
      with_state n (settled d ended asks 0 (n_state n))
  | EndedUntried =>
      let n := with_store n (fst (Storage.release (fst (n_seen n)) (d_claim d))) in
      with_state n (settled d ended false 0 (n_state n))
  | EndedWaiting _ _ =>
      let at' := now clock n in
      let n := ticked n in
      with_state n (settled d ended false at' (n_state n))
  | EndedFailed _ _ =>
      let n := with_state n (settled d ended false 0 (n_state n)) in
      failed_read (subscriber_name (d_to d)) (d_queue d) false n
  | EndedCompleted _ | EndedUnwritten _ => with_state n (settled d ended false 0 (n_state n))
  end.

(** Whether the Message passes any sequence: what waits behind it in either
    step may go on once its Journey has ended. *)
Definition passes_sequences sends (d : Departing) : bool :=
  match Journey.received (d_journey d) with
  | Some received => negb (bool_decide (rec_sequences received = []))
  | None => false
  end || bool_decide (is_Some (group (d_journey d))) ||
  negb (bool_decide (points_of sends (d_to d) = [])).

Definition ends_its_journey (ended : Ended) : bool :=
  match ended with EndedCompleted _ | EndedFailed _ _ => true | _ => false end.

(** How a send thread's pass goes: to its end, or it panicked. *)
Inductive Going := Goes (w : World T) (is_lost : bool) | Panics.

(** [sent], with [Sending]'s drop where the send panicked: the entry's
    identifier and time given. *)
Definition sent (going : Going) sends (message_id execution timestamp : N) (t : nat) (d : Departing)
    (n : Node) : option Node :=
  match going with
  | Goes w is_lost =>
      match send show shown_duration duration show_id w is_lost sends message_id execution timestamp t
              d (n_seen n) with
      | None => None
      | Some r =>
          let n := settle (p_departure r) (p_ended r) (with_seen n (p_seen r)) in
          Some (if passes_sequences sends (p_departure r) && ends_its_journey (p_ended r)
                then with_state n (set_rescan (n_state n)) else n)
      end
  | Panics =>
      let '(s, d, ended) := abandoned show_id message_id execution timestamp
        "its send thread panicked before its hand-on was written" d (fst (n_seen n)) in
      Some (settle d ended (with_store n s))
  end.

(** One queue of a turn of [dispatch]'s loop. *)
Definition turn_queue (fuel : nat) sends (wall : N) (to : Subscriber) (queue : N) (n : Node) :
    option (Node * list (@Ready Message Facts Durable)) :=
  let n := failed_read (subscriber_name to) queue false n in
  if room_in step (n_state n) =? 0 then Some (with_state n (starve queue (n_state n)), [])
  else scan step named shown promote show_id message_from facts_from clock tokens fuel sends to queue wall n.

(** The queues of a turn: those asked for, or every one. *)
Fixpoint turn_queues (fuel : nat) sends (wall : N) (served : list (Subscriber * N)) (all : bool)
    (asked : list N) (n : Node) : option (Node * list (@Ready Message Facts Durable)) :=
  match served with
  | [] => Some (n, [])
  | (to, queue) :: rest =>
      if negb all && negb (bool_decide (queue ∈ asked))
      then turn_queues fuel sends wall rest all asked n
      else
        match turn_queue fuel sends wall to queue n with
        | None => None
        | Some (n, found) =>
            match turn_queues fuel sends wall rest all asked n with
            | None => None
            | Some (n, more) => Some (n, found ++ more)
            end
        end
  end.

(** What a turn leaves: whether the dispatching ends, what it runs on the
    pool, and when every queue is read next. *)
Record Turn := {
  t_node : Node;
  t_ends : bool;
  t_handed : list Departing;
  t_ready : list (@Ready Message Facts Durable);
  t_next_scan : N
}.

(** One turn of [dispatch]'s loop, once [next] is ready. *)
Definition turn (fuel : nat) sends (wall : N) (served : list (Subscriber * N)) (next_scan : N) (n : Node) :
    option Turn :=
  let woken := now clock n in
  let n := ticked n in
  let '(st, (closed, handed, asked)) := next woken (n_state n) in
  let n := with_state n st in
  if closed
  then Some {| t_node := n; t_ends := true; t_handed := handed; t_ready := []; t_next_scan := next_scan |}
  else
    let at' := now clock n in
    let n := ticked n in
    let all := next_scan <=? at' in
    match turn_queues fuel sends wall served all asked n with
    | None => None
    | Some (n, found) =>
        Some {| t_node := n; t_ends := false; t_handed := handed; t_ready := found;
                t_next_scan := if all then at' + SendStep.scan step else next_scan |}
    end.
End dispatch.

(** ** What a turn and a send leave *)

Section dispatched.
Context {S T Message Facts Durable : Type} `{XmipStorage S} `{JourneyOps}.
Abbreviation Departing := (SendStep.Departure Message Facts Durable).
Abbreviation State := (State Message Facts Durable).
Abbreviation Node := (@Node S Message Facts Durable).
Implicit Types (sends : Sends T) (n : Node).
Context (step : SendStep) (show_id : N → string) (clock : nat → N).

Lemma failed_read_state port queue afresh n :
  let st := n_state (failed_read step port queue afresh n) in
  owned st = owned (n_state n) ∧ admitted st = admitted (n_state n) ∧
  starved st = starved (n_state n) ∧ SendStep.asked st = SendStep.asked (n_state n).
Proof.
  unfold failed_read, read_failed.
  destruct (Storage.read_failed _ _ _ _) as [s [places|why]]; [|done].
  destruct (negb afresh && _); [done|]. by destruct (Storage.read_failed _ _ _ _) as [s' [read|why']].
Qed.

Lemma asked_for_all qs asked q : q ∈ asked ∨ q ∈ qs → q ∈ foldl asked_for asked qs.
Proof.
  revert asked. induction qs as [|q' qs IH]; intros asked; simpl.
  { intros [?|?%elem_of_nil]; done. }
  intros Hq. apply IH. unfold asked_for. rewrite elem_of_cons in Hq.
  case_bool_decide; [|rewrite elem_of_app, list_elem_of_singleton]; naive_solver.
Qed.

(** What a Message let go of leaves: not owned, and every queue that waited
    for a place to be read. *)
Definition lets_go (id : N) (before after : State) : Prop :=
  owned after = delete id (owned before) ∧ admitted after = admitted before ∧ starved after = [] ∧
  ∀ q, q ∈ starved before ∨ q ∈ SendStep.asked before → q ∈ SendStep.asked after.

Lemma let_go_lets_go id (st st0 : State) :
  owned st = owned st0 → admitted st = admitted st0 → starved st = starved st0 →
  (∀ q, q ∈ SendStep.asked st0 → q ∈ SendStep.asked st) → lets_go id st0 (let_go id st).
Proof.
  intros Ho Ha Hs Hq. unfold lets_go, let_go, freed. simpl. rewrite Ho, Ha, Hs. split_and!; [done..|].
  intros q Hin. apply asked_for_all. naive_solver.
Qed.

Lemma settled_lets_go (d : Departing) ended asks at' (st : State) :
  lets_go (journey_id (d_journey d)) st (settled d ended asks at' st).
Proof.
  unfold settled. assert (∀ q queue asked, q ∈ asked → q ∈ asked_for asked queue) as Hasked.
  { intros q queue asked Hin. unfold asked_for. case_bool_decide; [done|]. rewrite elem_of_app. by left. }
  apply let_go_lets_go; destruct ended; try destruct asks; simpl; auto.
Qed.

Lemma settle_lets_go (d : Departing) ended n :
  lets_go (journey_id (d_journey d)) (n_state n) (n_state (settle step clock d ended n)).
Proof.
  destruct ended; unfold settle; try apply settled_lets_go.
  - set (n1 := with_state n _).
    destruct (failed_read_state (subscriber_name (d_to d)) (d_queue d) false n1) as (Ho & Ha & Hs & Hq).
    unfold lets_go. rewrite Ho, Ha, Hs, Hq. apply settled_lets_go.
  - by apply let_go_lets_go.
  - destruct (behind_asks _ _) as [s asks]. apply settled_lets_go.
Qed.

(** ** A turn keeps to the pool's room *)

Section turns.
Context (named : string → N) (shown : KeyWord → string)
  (promote : Message → result (string → option string) string)
  (message_from : bytes → result Message string) (facts_from : bytes → result Facts string)
  (tokens : nat → N).

Lemma turn_queue_places fuel sends wall to queue n n' found :
  N.of_nat (size (owned (n_state n))) + admitted (n_state n) ≤ N.max (most (limits step)) 1 →
  turn_queue step named shown promote show_id message_from facts_from clock tokens fuel sends wall
    to queue n = Some (n', found) →
  admitted (n_state n') = admitted (n_state n) + N.of_nat (count is_unclaimed found) ∧
  N.of_nat (size (owned (n_state n'))) + admitted (n_state n') ≤ N.max (most (limits step)) 1.
Proof.
  unfold turn_queue. intros Hfit.
  destruct (failed_read_state (subscriber_name to) queue false n) as (Ho & Ha & _ & _).
  destruct (_ =? 0).
  - intros [= <- <-]. simpl. rewrite Ho, Ha, count_nil. split; [lia|done].
  - intros Hscan. rewrite <- Ho, <- Ha in Hfit. rewrite <- Ha. by apply scan_places in Hscan.
Qed.

Lemma turn_queues_places fuel sends wall served all asked n n' found :
  N.of_nat (size (owned (n_state n))) + admitted (n_state n) ≤ N.max (most (limits step)) 1 →
  turn_queues step named shown promote show_id message_from facts_from clock tokens fuel sends wall
    served all asked n = Some (n', found) →
  admitted (n_state n') = admitted (n_state n) + N.of_nat (count is_unclaimed found) ∧
  N.of_nat (size (owned (n_state n'))) + admitted (n_state n') ≤ N.max (most (limits step)) 1.
Proof.
  revert n found. induction served as [|[to queue] served IH]; intros n found Hfit; simpl.
  { intros [= <- <-]. rewrite count_nil. split; [lia|done]. }
  destruct (_ && _); [by apply IH|].
  destruct (turn_queue _ _ _ _ _ _ _ _ _ _ _ _ _ _ n) as [[n1 found1]|] eqn:Hq; [|done].
  apply turn_queue_places in Hq as [Ha1 Hf1]; [|done].
  destruct (turn_queues _ _ _ _ _ _ _ _ _ _ _ _ _ _ _ n1) as [[n2 found2]|] eqn:Hqs; [|done].
  intros [= <- <-]. apply IH in Hqs as [Ha2 Hf2]; [|done]. split; [|done].
  rewrite Ha2, Ha1, count_app. lia.
Qed.

(** A turn of the dispatching keeps to the Send pool's room whatever it
    reads: over all the queues asked for, due or scanned it admits just one
    place for each Message it hands the pool to be claimed, and with what
    it owns they stay within the pool's threads; a queue with no room left
    for it is not read. *)
Theorem turn_within_room fuel sends wall served next_scan n r :
  N.of_nat (size (owned (n_state n))) + admitted (n_state n) ≤ N.max (most (limits step)) 1 →
  turn step named shown promote show_id message_from facts_from clock tokens fuel sends wall served
    next_scan n = Some r →
  admitted (n_state (t_node r)) = admitted (n_state n) + N.of_nat (count is_unclaimed (t_ready r)) ∧
  N.of_nat (size (owned (n_state (t_node r)))) + admitted (n_state (t_node r)) ≤
    N.max (most (limits step)) 1.
Proof.
  intros Hfit. unfold turn.
  destruct (next _ _) as [st [[closed handed] asked]] eqn:Hn.
  assert (owned st = owned (n_state n) ∧ admitted st = admitted (n_state n)) as [Ho Ha].
  { unfold next in Hn. by injection Hn as <- _ _ _. }
  destruct closed.
  { intros [= <-]. simpl. rewrite Ho, Ha, count_nil. split; [lia|done]. }
  destruct (turn_queues _ _ _ _ _ _ _ _ _ _ _ _ _ _ _ _) as [[n' found]|] eqn:Hq; [|done].
  intros [= <-]. rewrite <- Ho, <- Ha in Hfit. rewrite <- Ha. by apply turn_queues_places in Hq.
Qed.

End turns.

(** A pass keeps its Journey's identifier. *)
Context (show : Subscriber → string) (shown_duration : N → string) (duration : string → option N)
  `{!JourneyLaws _}.

Lemma send_same_journey w lost sends message_id execution timestamp t (d : Departing) (s : @seen S) r :
  send show shown_duration duration show_id w lost sends message_id execution timestamp t d s = Some r →
  journey_id (d_journey (p_departure r)) = journey_id (d_journey d).
Proof.
  unfold send. destruct (waits_for_places _ _ _); [by intros [= <-]|].
  destruct (heads d s) as [[store known] [[]|why]]; [|by intros [= <-]..].
  destruct (depart_to _ _ _ _ _ _) as [p|]; [|done].
  destruct lost; [by intros [= <-]|]. destruct (_ && _); [by intros [= <-]|].
  destruct (ends_in _ _ _ _) as [state kept]. unfold written.
  destruct (hand_on store _) as [store' [[]|why]]; intros [= <-]; simpl; [|done..].
  apply append_id.
Qed.

(** However a send thread's Message ends — sent, waiting for its retry,
    failed, its claim lost, untried, behind another, its write refused, or
    its thread panicking — it is owned no more and its place is the pool's
    again, and every queue that waited for a place is to be read: no send
    holds the pool's room past its pass. *)
Theorem send_gives_its_place_back going sends message_id execution timestamp t (d : Departing) n n' :
  let id := journey_id (d_journey d) in
  sent step show shown_duration duration show_id clock going sends message_id execution timestamp t
    d n = Some n' →
  owned (n_state n') !! id = None ∧ starved (n_state n') = [] ∧
  (∀ q, q ∈ starved (n_state n) → q ∈ SendStep.asked (n_state n')) ∧
  (is_Some (owned (n_state n) !! id) →
   N.of_nat (size (owned (n_state n))) + admitted (n_state n) ≤ N.max (most (limits step)) 1 →
   room_in step (n_state n') = room_in step (n_state n) + 1).
Proof.
  intros id Hsent.
  assert (lets_go id (n_state n) (n_state n')) as (Ho & Ha & Hs & Hq).
  { revert Hsent. unfold sent. destruct going as [w lost|].
    - destruct (send _ _ _ _ _ _ _ _ _ _ _ _ _) as [r|] eqn:Hr; [|done].
      apply send_same_journey in Hr. intros [= <-]. unfold id. rewrite <- Hr.
      pose proof (settle_lets_go (p_departure r) (p_ended r) (with_seen n (p_seen r))) as Hl.
      by case_match.
    - unfold abandoned, written.
      destruct (hand_on _ _) as [s [[]|why]]; intros Heq; apply (inj Some) in Heq; rewrite <- Heq.
      + pose proof (append_id (d_journey d) {| entry_execution := execution; entry_message := message_id;
          entry_action := "send"; entry_outcome := "its send thread panicked before its hand-on was written";
          entry_timestamp := timestamp |} Failed) as Hid.
        unfold id. rewrite <- Hid.
        match goal with |- context [settle _ _ ?d' ?e ?n'] => exact (settle_lets_go d' e n') end.
      + exact (settle_lets_go d _ (with_store n s)).
      + exact (settle_lets_go d _ (with_store n _)). }
  split_and!; [rewrite Ho; apply lookup_delete_eq|done|auto|].
  intros Hin Hfit. unfold room_in. rewrite Ho, Ha, map_size_delete_Some by done.
  assert (size (owned (n_state n)) ≠ 0%nat).
  { intros Hz%map_size_empty_inv. rewrite Hz, lookup_empty in Hin. by destruct Hin. }
  lia.
Qed.
End dispatched.

(** ** A Message owned in a full pool, its thread panicking *)

Section witnesses.
#[local] Instance appending : JourneyOps :=
  {| append j e s :=
       {| journey_id := journey_id j; Journey.state := s; attempts := attempts j;
          sequences := sequences j; group := group j; Journey.received := Journey.received j;
          send_port := send_port j; current_work_process := current_work_process j;
          cause := cause j; previous := previous j; messages := messages j;
          history := history j ++ [e] |};
     journey_record _ := []; from_record _ := Err "" |}.

#[local] Instance appending_laws : JourneyLaws appending.
Proof. by split; intros; simpl; split_and?. Defined.

Definition one_thread : SendStep :=
  {| SendStep.cluster := "xmip:///c"; SendStep.node := "xmip:///c/node/n"; SendStep.lease := 30;
     SendStep.scan := 1; SendStep.window := 100; SendStep.limits := {| most := 1; idle := 60 |} |}.

Definition full : @Node small unit unit unit :=
  {| n_seen := (before_late, ∅);
     n_state := with_starved (with_owned nothing_yet {[7 := SendStep.owned_of first_of_two]}) [50];
     n_ticks := 0; n_tokens := 0 |}.

Definition panicking := sent (T := N) one_thread subscriber_name (λ _, "1s") (λ _, Some 1000) (λ _, "7")
  (λ _, 100) Panics two_locations 9 100 200 0 first_of_two full.

Lemma send_gives_its_place_back_witness : ∃ n', panicking = Some n' ∧
  owned (n_state n') !! 7 = None ∧ starved (n_state n') = [] ∧
  room_in one_thread (n_state n') = room_in one_thread (n_state full) + 1.
Proof.
  destruct panicking as [n'|] eqn:Hp; [|vm_compute in Hp; discriminate].
  exists n'. split; [reflexivity|]. unfold panicking in Hp.
  destruct (send_gives_its_place_back one_thread (λ _, "7") (λ _, 100) subscriber_name (λ _, "1s")
    (λ _, Some 1000) Panics two_locations 9 100 200 0 first_of_two full n' Hp)
    as (Ho & Hs & _ & Hr).
  split; [exact Ho|]. split; [exact Hs|].
  apply Hr; [by eexists|vm_compute; discriminate].
Defined.

Definition turn_three (fuel : nat) := turn (T := N) two_threads (λ s, N.of_nat (String.length s)) (λ _, "")
  (λ _ : unit, Ok (λ _, None)) (λ _, "7") (λ _, Ok tt) (λ _, Ok tt) (λ _, 100) (λ k, N.of_nat k)
  fuel two_locations 0 [(SendPort "Out", 50)] 0 three_due.

Lemma turn_within_room_witness : ∃ r, turn_three 9 = Some r ∧ count is_unclaimed (t_ready r) = 2%nat ∧
  admitted (n_state (t_node r)) = 0 + N.of_nat (count is_unclaimed (t_ready r)).
Proof.
  destruct (turn_three 9) as [r|] eqn:Ht; [|vm_compute in Ht; discriminate].
  assert (count is_unclaimed (t_ready r) = 2%nat) as Hc.
  { vm_compute in Ht. injection Ht as <-. reflexivity. }
  exists r. split; [reflexivity|]. split; [exact Hc|].
  unfold turn_three in Ht. eapply turn_within_room in Ht as [Ha _]; [exact Ha|].
  vm_compute. discriminate.
Defined.
End witnesses.
