(* ===== verification/Stopping.v ===== *)
(** * A node's stop and a Location's rest: [src/stopping.rs]

    The stop, raised once for good, and one resting Location's word. The
    lock's critical sections are the steps: a raise, a word told, the resting
    thread's look before it takes the lock, its look under it, and its wait,
    which lets the lock go as it begins. What a wait does once its time is
    over is the lock's library's: it may return, or look once more. *)

From stdpp Require Import base numbers list relations.
From S2P Require Import Prelude.

(** Where the Location's thread is: between rests, past its first look and
    about to take the lock, about to look under it, waiting, or its rest
    ended. *)
Inductive Resting := Away | Begins | Looks | Waits | Ends.

(** The stop's flag and the word's, and beside them how often the word was
    told and heard. *)
Record Stopping := {
  raised : bool;
  told : bool;
  resting : Resting;
  words : nat;
  heard : nat
}.

Definition stopping_new : Stopping :=
  {| raised := false; told := false; resting := Away; words := 0; heard := 0 |}.

Definition resting_at (s : Stopping) (at_ : Resting) : Stopping :=
  {| raised := raised s; told := told s; resting := at_; words := words s; heard := heard s |}.

(** [notify_all]: whoever waits looks again. *)
Definition woken (at_ : Resting) : Resting := match at_ with Waits => Looks | _ => at_ end.

(** [Stopping::raise]. *)
Definition raise (s : Stopping) : Stopping :=
  {| raised := true; told := told s; resting := woken (resting s); words := words s; heard := heard s |}.

(** [Nudge::tell]. *)
Definition tell (s : Stopping) : Stopping :=
  {| raised := raised s; told := true; resting := woken (resting s); words := words s + 1;
     heard := heard s |}.

(** [told()]: the word taken, where there is a nudge. *)
Definition take_word (s : Stopping) (nudged : bool) : Stopping * bool :=
  if nudged && told s then
    ({| raised := raised s; told := false; resting := resting s; words := words s; heard := heard s + 1 |}, true)
  else (s, false).

(** [Stopping::rest], to its first [return]: nothing to rest, or told. *)
Definition rest_begins (s : Stopping) (zero nudged : bool) : Stopping :=
  if zero then resting_at s Ends
  else let '(s, word) := take_word s nudged in resting_at s (if word then Ends else Begins).

(** [wait_timeout_while]'s condition, [!raised && !told()], under the lock. *)
Definition rest_looks (s : Stopping) (nudged : bool) : Stopping :=
  if raised s then resting_at s Ends
  else let '(s, word) := take_word s nudged in resting_at s (if word then Ends else Waits).

(** The resting thread's own steps: one Location's rests, all with its nudge
    or none ([Watched::nudge]). *)
Inductive own_step (nudged : bool) : Stopping → Stopping → Prop :=
  | rest_begin s zero : resting s = Away → own_step nudged s (rest_begins s zero nudged)
  | rest_lock s : resting s = Begins → own_step nudged s (resting_at s Looks)
  | rest_look s : resting s = Looks → own_step nudged s (rest_looks s nudged)
  | rest_time_over s : resting s = Waits → own_step nudged s (resting_at s Ends)
  | rest_spurious s : resting s = Waits → own_step nudged s (resting_at s Looks)
  | rest_ends s : resting s = Ends → own_step nudged s (resting_at s Away).

(** Beside the stop's raise and its word, in every interleaving. *)
Inductive rest_step (nudged : bool) : Stopping → Stopping → Prop :=
  | rest_raise s : rest_step nudged s (raise s)
  | rest_tell s : rest_step nudged s (tell s)
  | rest_own s1 s2 : own_step nudged s1 s2 → rest_step nudged s1 s2.

Record rest_ok (nudged : bool) (s : Stopping) : Prop := {
  ok_waits : resting s = Waits → raised s = false ∧ (nudged = true → told s = false);
  ok_heard : heard s + (if told s then 1 else 0) ≤ words s;
  ok_told : heard s < words s → told s = false → 0 < heard s;
  ok_never : words s = 0 → told s = false
}.

Lemma rest_step_ok nudged s1 s2 : rest_ok nudged s1 → rest_step nudged s1 s2 → rest_ok nudged s2.
Proof.
  intros [Hw Hh Ht Hn] Hstep.
  destruct Hstep as [[r [] at_ w h]|[r [] at_ w h]|s1 s2 Hstep];
    [split; simpl in *; try (by destruct at_); lia..|].
  destruct Hstep as [[r [] at_ w h] [] Hat|[r t at_ w h] Hat|[[] [] at_ w h] Hat
                    |[r t at_ w h] Hat|[r t at_ w h] Hat|[r t at_ w h] Hat];
    unfold rest_begins, rest_looks, take_word, resting_at in *; destruct nudged; simpl in *;
    split; simpl in *; try done; try lia.
Qed.

Lemma rest_reachable_ok nudged s : rtc (rest_step nudged) stopping_new s → rest_ok nudged s.
Proof.
  intros Hrun. assert (rest_ok nudged stopping_new) as Hnew by (split; simpl; [done|lia|lia|done]).
  induction Hrun as [|s1 s2 s3 Hstep _ IH]; [done|]. apply IH. by eapply rest_step_ok.
Qed.

(** A look with the stop raised ends the rest. *)
Lemma looks_end nudged s s' :
  own_step nudged s s' → resting s = Looks → raised s = true → resting s' = Ends ∧ raised s' = true.
Proof.
  intros Hstep Hat Hr. inversion Hstep; subst; try congruence. unfold rest_looks. by rewrite Hr.
Qed.

(** No raise and no word is lost on a resting Location: whatever the
    moment either comes — before the rest, between its first look and the
    lock, while it waits — a Location waiting has neither the stop raised
    nor a word told it has not heard, and a word never heard is still there
    for its next rest to hear. *)
Theorem no_word_lost nudged s :
  rtc (rest_step nudged) stopping_new s →
  (resting s = Waits → raised s = false ∧ (nudged = true → told s = false)) ∧
  (0 < words s → told s = true ∨ 0 < heard s) ∧
  heard s ≤ words s.
Proof.
  intros [Hw Hh Ht Hn]%rest_reachable_ok. split; [done|]. split; [|lia].
  intros Hwords. destruct (told s); [by left|]. right.
  destruct (decide (heard s = 0)) as [Hz|]; [|lia]. apply Ht; [lia|done].
Qed.

(** Once the stop is raised no rest going on waits: within two steps of
    its own thread's it has ended, whatever words come. *)
Theorem raised_ends_the_rest nudged s :
  rtc (rest_step nudged) stopping_new s → raised s = true → resting s ≠ Away →
  resting s ≠ Waits ∧
  ∃ k, k ≤ 2 ∧ ∀ s', nsteps (own_step nudged) k s s' → resting s' = Ends ∧ raised s' = true.
Proof.
  intros [Hw _ _ _]%rest_reachable_ok Hr Haway.
  assert (resting s ≠ Waits) as Hnot by (intros Hat; destruct (Hw Hat); congruence).
  split; [done|]. destruct (resting s) eqn:Hat; [done| | |done|].
  - exists 2. split; [done|]. intros s' Hrun.
    apply nsteps_inv_r in Hrun as (s1 & H1%nsteps_once_inv & H2).
    inversion H1; subst; try congruence. by eapply looks_end.
  - exists 1. split; [lia|]. intros s' Hrun%nsteps_once_inv. by eapply looks_end.
  - exists 0. split; [lia|]. intros s' Hrun. by inversion Hrun; subst.
Qed.

Lemma no_word_lost_witness :
  ∃ s, raised s = false ∧ told s = true ∧ resting s = Looks ∧ heard s ≤ words s.
Proof.
  assert (∃ s, rtc (rest_step true) stopping_new s ∧ raised s = false ∧ told s = true ∧
    resting s = Looks) as (s & Hrun & Hr & Ht & Hl).
  { eexists. split.
    - eapply rtc_l; [by apply rest_own, (rest_begin _ _ false)|].
      eapply rtc_l; [by apply rest_own, rest_lock|].
      eapply rtc_l; [by apply rest_own, rest_look|].
      apply rtc_once. apply rest_tell.
    - done. }
  exists s. split; [done|]. split; [done|]. split; [done|].
  exact (proj2 (proj2 (no_word_lost true s Hrun))).
Defined.

Lemma raised_ends_the_rest_witness :
  ∃ s, raised s = true ∧ resting s = Looks ∧
    ∃ k, k ≤ 2 ∧ ∀ s', nsteps (own_step true) k s s' → resting s' = Ends.
Proof.
  assert (∃ s, rtc (rest_step true) stopping_new s ∧ raised s = true ∧ resting s = Looks)
    as (s & Hrun & Hr & Hl).
  { eexists. split.
    - eapply rtc_l; [by apply rest_own, (rest_begin _ _ false)|].
      eapply rtc_l; [by apply rest_own, rest_lock|].
      eapply rtc_l; [by apply rest_own, rest_look|].
      apply rtc_once. apply rest_raise.
    - done. }
  exists s. split; [done|]. split; [done|].
  destruct (raised_ends_the_rest true s Hrun Hr) as (_ & k & Hk & Hends); [rewrite Hl; done|].
  exists k. split; [exact Hk|]. intros s' Hrun'. exact (proj1 (Hends s' Hrun')).
Defined.
