(* ===== verification/Receiving.v ===== *)
(** * A Receive Location's pace, drain and turns: [src/receiving/pace.rs], [drain.rs], [turn.rs], [refusal.rs]

    How long a Location rests, how long it drains once its node stops, what
    its far ends are told and in what turn. A carry ends when it ends, by a
    verdict or a panic; the loop that takes arrivals is [Serving]'s. *)

From stdpp Require Import base numbers list gmap strings relations sorting.
From S2P Require Import Prelude Tuning.

(** ** How long it rests: [pace.rs] *)

Record Pace := { poll : N; sweep : N; p_backoff : N; p_drain : N }.

Inductive Asking := Waits | Polled | Told.

Inductive ReceiveEnded := Found | Nothing | Mendable.

#[export] Instance receive_ended_eq_dec : EqDecision ReceiveEnded.
Proof. solve_decision. Defined.

(** [Pace::rest]. *)
Definition rest (pace : Pace) (asking : Asking) (ended : ReceiveEnded) (took : N) : N :=
  match ended, asking with
  | Found, _ => 0
  | _, Waits => 0
  | Nothing, Polled => poll pace - took
  | Nothing, Told => sweep pace - took
  | Mendable, _ => p_backoff pace - took
  end.

(** ** How long it drains: [drain.rs] *)

Record Drain := { d_waits : bool; d_let_go : bool; d_bound : N; d_until : option N; d_quiet : bool }.

(** [Drain::new], [asks], [handed], [received]. *)
Definition drain_new (waits : bool) (bound : N) : Drain :=
  {| d_waits := waits; d_let_go := false; d_bound := bound; d_until := None; d_quiet := false |}.

Definition asks (d : Drain) (raised : bool) (now : N) : Drain * bool :=
  if negb raised then (d, true)
  else if negb (d_waits d) || negb (d_let_go d) || d_quiet d then (d, false)
  else
    let until := default (now + d_bound d)%N (d_until d) in
    ({| d_waits := d_waits d; d_let_go := d_let_go d; d_bound := d_bound d; d_until := Some until;
        d_quiet := d_quiet d |}, (now <? until)%N).

Definition handed (d : Drain) (let_go : bool) : Drain :=
  {| d_waits := d_waits d; d_let_go := d_let_go d || let_go; d_bound := d_bound d;
     d_until := d_until d; d_quiet := d_quiet d |}.

Definition drain_received (d : Drain) (ended : ReceiveEnded) : Drain :=
  if bool_decide (is_Some (d_until d)) && negb (bool_decide (ended = Found))
  then {| d_waits := d_waits d; d_let_go := d_let_go d; d_bound := d_bound d;
          d_until := d_until d; d_quiet := true |}
  else d.

(** One turn of the loop after the stop: the drain asked at a moment, and a
    receive that ended so, having handed over what was let go of or not. *)
Record Drained := { at_moment : N; then_ended : ReceiveEnded; then_let_go : bool }.

(** The receives asked for after the stop, while it drains. *)
Fixpoint drains (d : Drain) (turns : list Drained) : list Drained :=
  match turns with
  | [] => []
  | one :: more =>
      let '(d, on) := asks d true (at_moment one) in
      if on then one :: drains (drain_received (handed d (then_let_go one)) (then_ended one)) more
      else []
  end.

Lemma drains_until d until turns :
  d_until d = Some until →
  Forall (λ one, (at_moment one < until)%N) (drains d turns) ∧
  (d_quiet d = true → drains d turns = []).
Proof.
  revert d. induction turns as [|one more IH]; intros d Hu; simpl; [by split|].
  unfold asks. simpl. destruct (negb (d_waits d) || negb (d_let_go d) || d_quiet d) eqn:Hd.
  { by split. }
  rewrite Hu. simpl. apply orb_false_iff in Hd as [_ Hq].
  destruct (N.ltb_spec (at_moment one) until) as [Hlt|Hge]; [|by split; [|congruence]].
  split; [|congruence]. constructor; [done|].
  apply IH. unfold drain_received. case_match; done.
Qed.

(** A stopping Location's drain ends: after the stop it asks its
    transport again only where its receive waits and a far end let go of
    what it handed over, only within its bound of the first receive it asked
    for then, and after one that found nothing or failed never again. *)
Theorem drain_ends d turns :
  d_until d = None →
  match drains d turns with
  | [] => True
  | first :: more =>
      d_waits d = true ∧ d_let_go d = true ∧ d_quiet d = false ∧
      Forall (λ one, (at_moment one < at_moment first + d_bound d)%N) (first :: more) ∧
      (then_ended first ≠ Found → more = [])
  end.
Proof.
  intros Hu. destruct turns as [|one more]; simpl; [done|]. unfold asks. simpl.
  destruct (negb (d_waits d) || negb (d_let_go d) || d_quiet d) eqn:Hd; [done|].
  rewrite Hu. simpl. destruct (N.ltb_spec (at_moment one) (at_moment one + d_bound d)) as [Hlt|]; [|done].
  apply orb_false_iff in Hd as [[Hw%negb_false_iff Hl%negb_false_iff]%orb_false_iff Hq].
  set (d1 := {| d_waits := d_waits d |}).
  assert (∀ e, d_until (drain_received (handed d1 (then_let_go one)) e) =
    Some (at_moment one + d_bound d)%N) as Hu1.
  { intros e. unfold drain_received. by case_match. }
  destruct (drains_until _ _ more (Hu1 (then_ended one))) as [Hall Hquiet].
  split_and!; [done..|by constructor|].
  intros Hne. apply Hquiet. unfold drain_received. simpl.
  rewrite bool_decide_eq_false_2 by done. done.
Qed.

(** ** What a far end is told: [refusal.rs], and a carry that panicked [telling.rs] *)

Inductive Refused := Identification | Authentication | Authorization | OtherRefused.
Inductive Arrived := ArrivedRefused (reason : Refused) | ArrivedFailed | ArrivedOther.
Inductive ReceiveCycle := CycleCompleted | CycleRefused | CycleFailed.
Inductive Refusal := Unidentified | Forbidden | Unacceptable.
Inductive Verdict := Accepted | VerdictRefused (why : Refusal) | VerdictFailed.

(** [refusal] and [verdict]. *)
Definition refusal (arrived : Arrived) : Refusal :=
  match arrived with
  | ArrivedRefused Identification | ArrivedRefused Authentication => Unidentified
  | ArrivedRefused Authorization => Forbidden
  | _ => Unacceptable
  end.

Definition verdict (cycle : ReceiveCycle) (arrived : Arrived) : Verdict :=
  match cycle with
  | CycleCompleted => Accepted
  | CycleRefused => VerdictRefused (refusal arrived)
  | CycleFailed => VerdictFailed
  end.

(** ** The turn they are told in: [turn.rs]

    The tickets of one receive, each at its place: still carrying, waiting
    for its turn — to tell, or only to pass it on, its carry having
    panicked before — telling, passing, or passed. *)

Inductive Ticket := TCarrying | TWaits (tells : bool) | TTelling | TPassing | TPassed.

Record Turn := { t_next : nat; tickets : list Ticket; t_told : list nat }.

Definition turn_of (n : nat) : Turn := {| t_next := 0; tickets := replicate n TCarrying; t_told := [] |}.

Definition moved (t : Turn) (i : nat) (to : Ticket) : Turn :=
  {| t_next := t_next t; tickets := <[i := to]> (tickets t); t_told := t_told t |}.

Inductive turn_step : Turn → Turn → Prop :=
  (** Its carry ends: [in_turn], or the ticket dropped untold. *)
  | turn_carried t i tells :
      tickets t !! i = Some TCarrying → turn_step t (moved t i (TWaits tells))
  (** [Ticket::wait] returns: the turn is its own. *)
  | turn_comes t i tells :
      tickets t !! i = Some (TWaits tells) → t_next t = i →
      turn_step t (moved t i (if tells then TTelling else TPassing))
  (** It tells its far end; or the telling panics, and its drop passes. *)
  | turn_tells t i :
      tickets t !! i = Some TTelling →
      turn_step t {| t_next := t_next t; tickets := <[i := TPassing]> (tickets t);
                     t_told := t_told t ++ [i] |}
  | turn_panics t i :
      tickets t !! i = Some TTelling → turn_step t (moved t i TPassing)
  (** [Ticket::pass]. *)
  | turn_passes t i :
      tickets t !! i = Some TPassing →
      turn_step t {| t_next := i + 1; tickets := <[i := TPassed]> (tickets t); t_told := t_told t |}.

(** The tickets before the next passed; the next alone tells; the others
    wait. What was told came in order. *)
Record in_turn (n : nat) (t : Turn) : Prop := {
  in_length : length (tickets t) = n;
  in_before : ∀ i, i < t_next t → tickets t !! i = Some TPassed;
  in_after : ∀ i k, t_next t < i → tickets t !! i = Some k → k = TCarrying ∨ ∃ tells, k = TWaits tells;
  in_next : tickets t !! t_next t ≠ Some TPassed;
  in_told : StronglySorted lt (t_told t);
  in_bound : Forall (λ i, i < t_next t ∨ (i = t_next t ∧ tickets t !! i = Some TPassing)) (t_told t)
}.

Definition ticket_left (k : Ticket) : nat :=
  match k with TCarrying => 4 | TWaits _ => 3 | TTelling => 2 | TPassing => 1 | TPassed => 0 end.

Definition turn_left (t : Turn) : nat := sum_list (ticket_left <$> tickets t).

Lemma StronglySorted_snoc (l : list nat) x :
  StronglySorted lt l → Forall (λ y, y < x) l → StronglySorted lt (l ++ [x]).
Proof.
  intros Hs Hb. induction Hs as [|a l Hs IH Ha]; simpl; [by repeat constructor|].
  apply Forall_cons in Hb as [Hax Hb]. constructor; [by apply IH|].
  rewrite Forall_app. split; [done|by repeat constructor].
Qed.

Lemma in_turn_moved n t i k k' :
  in_turn n t → tickets t !! i = Some k → k ≠ TPassing → k' ≠ TPassed →
  (t_next t < i → k' = TCarrying ∨ ∃ tells, k' = TWaits tells) → t_next t ≤ i →
  in_turn n (moved t i k').
Proof.
  intros [Hl Hb Ha Hn Ht Hf] Hi Hk Hk' Hafter Hle. pose proof (lookup_lt_Some _ _ _ Hi) as Hlt.
  split; simpl; [by rewrite length_insert| | | |done|].
  - intros j Hj. rewrite list_lookup_insert_ne by lia. by apply Hb.
  - intros j k1 Hj. destruct (decide (i = j)) as [->|Hne].
    + rewrite list_lookup_insert_eq by done. intros [= <-]. by apply Hafter.
    + rewrite list_lookup_insert_ne by done. by apply Ha.
  - destruct (decide (i = t_next t)) as [->|Hne].
    + rewrite list_lookup_insert_eq by done. congruence.
    + by rewrite list_lookup_insert_ne.
  - eapply Forall_impl; [exact Hf|]. simpl. intros j [?|[-> Hj]]; [by left|].
    destruct (decide (i = t_next t)) as [->|]; [congruence|].
    right. split; [done|]. by rewrite list_lookup_insert_ne.
Qed.

(** Whoever has not passed is at the next place or after. *)
Lemma in_turn_from n t i k : in_turn n t → tickets t !! i = Some k → k ≠ TPassed → t_next t ≤ i.
Proof.
  intros [_ Hb _ _ _ _] Hi Hk. destruct (decide (t_next t ≤ i)); [done|].
  rewrite Hb in Hi by lia. congruence.
Qed.

(** Whoever tells or passes is at the next place. *)
Lemma in_turn_at n t i k :
  in_turn n t → tickets t !! i = Some k → k = TTelling ∨ k = TPassing → t_next t = i.
Proof.
  intros Hin Hi Hk. assert (t_next t ≤ i) by (eapply in_turn_from; [done..|naive_solver]).
  destruct (decide (t_next t = i)); [done|]. destruct (in_after _ _ Hin i k) as [|[]]; naive_solver lia.
Qed.

Lemma turn_step_in n t1 t2 : in_turn n t1 → turn_step t1 t2 → in_turn n t2.
Proof.
  intros Hin Hstep.
  destruct Hstep as [t i tells Hi|t i tells Hi Hn|t i Hi|t i Hi|t i Hi].
  - eapply in_turn_moved; [done|done|done|done|naive_solver|by eapply in_turn_from].
  - eapply in_turn_moved; [done|done|done|by destruct tells|intros; lia|lia].
  - assert (t_next t = i) as <- by (eapply in_turn_at; eauto).
    assert (in_turn n (moved t (t_next t) TPassing)) as Hm.
    { eapply in_turn_moved; [done|done|done|done|intros; lia|lia]. }
    destruct Hm as [Hl Hb Ha Hn Ht Hf]. simpl in *.
    pose proof (lookup_lt_Some _ _ _ Hi) as Hlt.
    split; simpl; [done|done|done|done| |].
    + apply StronglySorted_snoc; [done|].
      pose proof (in_bound _ _ Hin) as Hbound. eapply Forall_impl; [exact Hbound|]. simpl.
      intros j [?|[-> Hj]]; [done|congruence].
    + rewrite Forall_app. split; [done|]. apply Forall_singleton. right. split; [done|].
      by rewrite list_lookup_insert_eq.
  - assert (t_next t = i) as <- by (eapply in_turn_at; eauto).
    eapply in_turn_moved; [done|done|done|done|intros; lia|lia].
  - assert (t_next t = i) as <- by (eapply in_turn_at; eauto).
    destruct Hin as [Hl Hb Ha Hn Ht Hf]. pose proof (lookup_lt_Some _ _ _ Hi) as Hlt.
    split; simpl; [by rewrite length_insert| | | |done|].
    + intros j Hj. destruct (decide (j = t_next t)) as [->|]; [by rewrite list_lookup_insert_eq|].
      rewrite list_lookup_insert_ne by done. apply Hb. lia.
    + intros j k Hj. rewrite list_lookup_insert_ne by lia. apply Ha. lia.
    + rewrite list_lookup_insert_ne by lia. intros Hp.
      destruct (Ha (t_next t + 1) TPassed ltac:(lia) Hp) as [|[]]; done.
    + eapply Forall_impl; [exact Hf|]. simpl. intros j [?|[-> _]]; left; lia.
Qed.

Lemma sum_list_insert (l : list Ticket) i k k' :
  l !! i = Some k → ticket_left k' < ticket_left k →
  sum_list (ticket_left <$> <[i := k']> l) < sum_list (ticket_left <$> l).
Proof.
  revert i. induction l as [|a l IH]; intros [|i]; simpl; [done..| |].
  - intros [= ->] ?. lia.
  - intros Hi Hk. specialize (IH _ Hi Hk). by apply Nat.add_lt_mono_l.
Qed.

Lemma turn_step_falls t1 t2 : turn_step t1 t2 → turn_left t2 < turn_left t1.
Proof.
  destruct 1; unfold turn_left; simpl; (eapply sum_list_insert; [done|]); simpl; try lia.
  destruct tells; simpl; lia.
Qed.

Lemma turn_of_in n : in_turn n (turn_of n).
Proof.
  split; simpl; [by rewrite length_replicate|lia| | |constructor|constructor].
  - intros i k _ [-> _]%lookup_replicate. by left.
  - intros [Hk _]%lookup_replicate. done.
Qed.

(** The arrivals of one receive tell their far ends one after another in
    the order they came, each at most once, however their carries end and in
    whatever order — a carry or a telling that panics passing its turn on —
    and none is left waiting: the telling ends within four steps an arrival,
    and only once every ticket has passed. *)
Theorem told_in_turn n k t :
  nsteps turn_step k (turn_of n) t →
  StronglySorted lt (t_told t) ∧ k ≤ 4 * n ∧
  ((∀ t', ¬ turn_step t t') → Forall (λ ticket, ticket = TPassed) (tickets t)).
Proof.
  intros Hrun.
  destruct (measure_bounds turn_step (in_turn n) turn_left) with (n := k) (x := turn_of n) (y := t)
    as [Hk Hin]; [|apply turn_of_in|done|].
  { intros x y Hx Hxy. split; [by eapply turn_step_in|by apply turn_step_falls]. }
  assert (turn_left (turn_of n) = 4 * n) as Hleft.
  { unfold turn_left. clear. induction n as [|n IH]; [done|]. cbn in *. rewrite IH. lia. }
  split; [by apply (in_told _ _ Hin)|]. split; [lia|].
  intros Hstuck. destruct (tickets t !! t_next t) as [ticket|] eqn:Hnext.
  - exfalso. destruct ticket as [|tells| | |].
    + by eapply Hstuck, (turn_carried t _ true).
    + by eapply Hstuck, turn_comes.
    + by eapply Hstuck, turn_panics.
    + by eapply Hstuck, turn_passes.
    + by apply (in_next _ _ Hin).
  - apply lookup_ge_None in Hnext. apply Forall_lookup. intros i ticket Hi.
    pose proof (lookup_lt_Some _ _ _ Hi). rewrite (in_before _ _ Hin) in Hi by lia. congruence.
Qed.

Lemma drain_ends_witness :
  let d := handed (drain_new true 10) true in
  drains d [{| at_moment := 5; then_ended := Found; then_let_go := true |};
            {| at_moment := 9; then_ended := Nothing; then_let_go := false |};
            {| at_moment := 11; then_ended := Found; then_let_go := true |}] =
    [{| at_moment := 5; then_ended := Found; then_let_go := true |};
     {| at_moment := 9; then_ended := Nothing; then_let_go := false |}] ∧
  d_until d = None ∧ d_waits d = true.
Proof.
  intros d. split; [reflexivity|]. split; [reflexivity|].
  exact (proj1 (drain_ends d [{| at_moment := 5; then_ended := Found; then_let_go := true |}] eq_refl)).
Defined.

(** Two arrivals: the second's carry ends first, the first's panicked. *)
Lemma told_in_turn_witness :
  ∃ t, nsteps turn_step 7 (turn_of 2) t ∧ t_told t = [1] ∧ StronglySorted lt (t_told t).
Proof.
  assert (∃ t, nsteps turn_step 7 (turn_of 2) t ∧ t_told t = [1]) as (t & Hrun & Ht).
  { eexists. split.
    - eapply nsteps_l; [by apply (turn_carried _ 1 true)|].
      eapply nsteps_l; [by apply (turn_carried _ 0 false)|].
      eapply nsteps_l; [by apply (turn_comes _ 0 false)|].
      eapply nsteps_l; [by apply (turn_passes _ 0)|].
      eapply nsteps_l; [by apply (turn_comes _ 1 true)|].
      eapply nsteps_l; [by apply (turn_tells _ 1)|].
      eapply nsteps_l; [by apply (turn_passes _ 1)|]. apply nsteps_O.
    - done. }
  exists t. split; [done|]. split; [done|].
  exact (proj1 (told_in_turn 2 7 t Hrun)).
Defined.
