(* ===== verification/Serving.v ===== *)
(** * A Receive Location's serve: [src/receiving.rs]

    [Receiving::serve] as a machine: the loop that asks its transport, its
    settling of what is told, and the pool's threads carrying beside it, in
    every interleaving. An arrival is its number in the order the transport
    handed them over. What its carry does ([message_path::carry]) is outside;
    that it ends and its far end is told in turn is [Receiving]'s, and how
    many places the node's carry budget grants is [Budget]'s: at least one,
    and no more than were wanted. *)

From stdpp Require Import base numbers list gmap strings relations sorting.
From S2P Require Import Prelude Tuning Receiving.

(** ** The state *)

(** How telling a far end ended: heard, or failed and why — whether saying
    it again may mend or not. *)
Inductive TellingEnded := Heard | MayMend (why : string) | NotMend.

(** Where the serving thread is: at the top of its loop, settling what is
    told already, waiting for room, asking its transport, in the receive,
    past the loop, or returned. *)
Inductive At := AtTop | AtSettling | AtWaiting | AtAsking | AtReceiving (places : nat) | AtLeft | AtDone.

#[export] Instance at_eq_dec : EqDecision At.
Proof. solve_decision. Defined.

(** [Carrying]'s count and heard, with what the pool's threads and the
    channel hold: the arrivals carrying, told and about to report, reported;
    and what was done: the arrivals handed to [each], the far ends told, the
    reasons audited. *)
Record Serve := {
  v_count : nat;
  v_heard : gset string;
  v_carrying : list nat;
  v_reporting : list nat;
  v_told : list (nat * TellingEnded);
  v_settled : list nat;
  v_far : list nat;
  v_audited : list string;
  v_taken : nat;
  v_err : bool;
  v_raised : bool;
  v_drain : Drain;
  v_at : At
}.

Definition serve_new (waits : bool) (bound : N) : Serve :=
  {| v_count := 0; v_heard := ∅; v_carrying := []; v_reporting := []; v_told := []; v_settled := [];
     v_far := []; v_audited := []; v_taken := 0; v_err := false; v_raised := false;
     v_drain := drain_new waits bound; v_at := AtTop |}.

Definition at_ (s : Serve) (pc : At) : Serve :=
  {| v_count := v_count s; v_heard := v_heard s; v_carrying := v_carrying s;
     v_reporting := v_reporting s; v_told := v_told s; v_settled := v_settled s; v_far := v_far s;
     v_audited := v_audited s; v_taken := v_taken s; v_err := v_err s; v_raised := v_raised s;
     v_drain := v_drain s; v_at := pc |}.

Definition drained (s : Serve) (d : Drain) : Serve :=
  {| v_count := v_count s; v_heard := v_heard s; v_carrying := v_carrying s;
     v_reporting := v_reporting s; v_told := v_told s; v_settled := v_settled s; v_far := v_far s;
     v_audited := v_audited s; v_taken := v_taken s; v_err := v_err s; v_raised := v_raised s;
     v_drain := d; v_at := v_at s |}.

Definition raised (s : Serve) : Serve :=
  {| v_count := v_count s; v_heard := v_heard s; v_carrying := v_carrying s;
     v_reporting := v_reporting s; v_told := v_told s; v_settled := v_settled s; v_far := v_far s;
     v_audited := v_audited s; v_taken := v_taken s; v_err := v_err s; v_raised := true;
     v_drain := v_drain s; v_at := v_at s |}.

(** ** The operations *)

(** [limits.most.max(1) - 1], or nothing where arrivals are ordered. *)
Definition busy (most : nat) (ordered : bool) : nat := if ordered then 0 else most `max` 1 - 1.

(** [Receiving::not_told]: audited the first time its reason is heard. *)
Definition not_told (s : Serve) (why : string) : gset string * list string :=
  if bool_decide (why ∈ v_heard s) then (v_heard s, v_audited s)
  else ({[why]} ∪ v_heard s, v_audited s ++ [why]).

(** [Receiving::settled]. *)
Definition settled (s : Serve) (i : nat) (how : TellingEnded) (more : list (nat * TellingEnded)) : Serve :=
  let '(heard, audited) :=
    match how with MayMend why => not_told s why | _ => (v_heard s, v_audited s) end in
  {| v_count := v_count s - 1; v_heard := heard; v_carrying := v_carrying s;
     v_reporting := v_reporting s; v_told := more; v_settled := v_settled s ++ [i]; v_far := v_far s;
     v_audited := audited; v_taken := v_taken s;
     v_err := match how with NotMend => true | _ => v_err s end;
     v_raised := v_raised s; v_drain := v_drain s; v_at := v_at s |}.

(** The receive handed over [k] arrivals, carried each on the pool
    ([Receiving::carry_all]). *)
Definition carry_all (s : Serve) (k : nat) (let_go : bool) : Serve :=
  {| v_count := v_count s + k; v_heard := v_heard s;
     v_carrying := v_carrying s ++ seq (v_taken s) k;
     v_reporting := v_reporting s; v_told := v_told s; v_settled := v_settled s; v_far := v_far s;
     v_audited := v_audited s; v_taken := v_taken s + k; v_err := v_err s; v_raised := v_raised s;
     v_drain := drain_received (handed (v_drain s) let_go) Found; v_at := AtTop |}.

(** The receive failed for good: the Location stops. *)
Definition stopped (s : Serve) : Serve :=
  {| v_count := v_count s; v_heard := v_heard s; v_carrying := v_carrying s;
     v_reporting := v_reporting s; v_told := v_told s; v_settled := v_settled s; v_far := v_far s;
     v_audited := v_audited s; v_taken := v_taken s; v_err := true; v_raised := v_raised s;
     v_drain := v_drain s; v_at := AtLeft |}.

(** The carrying of the [at]th of those carrying ended: its far end told —
    or not, its telling having panicked — and its report to come. *)
Definition far_told (s : Serve) (at_place i : nat) (heard : bool) : Serve :=
  {| v_count := v_count s; v_heard := v_heard s; v_carrying := delete at_place (v_carrying s);
     v_reporting := v_reporting s ++ [i]; v_told := v_told s; v_settled := v_settled s;
     v_far := v_far s ++ (if heard then [i] else []); v_audited := v_audited s;
     v_taken := v_taken s; v_err := v_err s; v_raised := v_raised s; v_drain := v_drain s;
     v_at := v_at s |}.

(** Its report sent ([tell.send]). *)
Definition reported (s : Serve) (at_place i : nat) (how : TellingEnded) : Serve :=
  {| v_count := v_count s; v_heard := v_heard s; v_carrying := v_carrying s;
     v_reporting := delete at_place (v_reporting s); v_told := v_told s ++ [(i, how)];
     v_settled := v_settled s; v_far := v_far s; v_audited := v_audited s; v_taken := v_taken s;
     v_err := v_err s; v_raised := v_raised s; v_drain := v_drain s; v_at := v_at s |}.

(** Whether the serving thread settles one now: with [try_recv] before it
    asks, waiting while the pool is full, waiting once it has left. *)
Definition settles (most : nat) (ordered : bool) (s : Serve) : bool :=
  match v_at s with
  | AtSettling => negb (v_err s) && (0 <? v_count s)
  | AtWaiting => negb (v_err s) && (busy most ordered <? v_count s)
  | AtLeft => 0 <? v_count s
  | _ => false
  end.

(** ** Every step of the serving thread, its pool's threads and the stop *)

Inductive serve_step (most : nat) (ordered : bool) : Serve → Serve → Prop :=
  | serve_left s :
      v_at s = AtTop → v_err s = true → serve_step most ordered s (at_ s AtLeft)
  | serve_asks s now d on :
      v_at s = AtTop → v_err s = false → asks (v_drain s) (v_raised s) now = (d, on) →
      serve_step most ordered s (at_ (drained s d) (if on then AtSettling else AtLeft))
  | serve_settled s i how more :
      settles most ordered s = true → v_told s = (i, how) :: more →
      serve_step most ordered s (settled s i how more)
  (** [try_recv] found none, or there is none to find. *)
  | serve_all_settled s :
      v_at s = AtSettling → (settles most ordered s = false ∨ v_told s = []) →
      serve_step most ordered s (at_ s AtWaiting)
  | serve_room s :
      v_at s = AtWaiting → settles most ordered s = false →
      serve_step most ordered s (at_ s (if v_err s then AtLeft else AtAsking))
  (** The node's carry budget grants up to the room: at least one. *)
  | serve_places s places :
      v_at s = AtAsking → 1 ≤ places ≤ most `max` 1 - v_count s →
      serve_step most ordered s (at_ s (AtReceiving places))
  | serve_found s places k let_go :
      v_at s = AtReceiving places → 1 ≤ k ≤ places →
      serve_step most ordered s (carry_all s k let_go)
  | serve_nothing s places ended :
      v_at s = AtReceiving places → ended ≠ Found →
      serve_step most ordered s (at_ (drained s (drain_received (v_drain s) ended)) AtTop)
  | serve_failed s places :
      v_at s = AtReceiving places → serve_step most ordered s (stopped s)
  | serve_done s :
      v_at s = AtLeft → v_count s = 0 → serve_step most ordered s (at_ s AtDone)
  (** The pool's threads: where arrivals are ordered each tells once those
      before it have ([told_in_turn]). *)
  | serve_far_told s at_place i heard :
      v_carrying s !! at_place = Some i → (ordered = true → at_place = 0) →
      serve_step most ordered s (far_told s at_place i heard)
  | serve_reported s at_place i how :
      v_reporting s !! at_place = Some i →
      serve_step most ordered s (reported s at_place i how)
  | serve_raised s : v_raised s = false → serve_step most ordered s (raised s).

(** ** What holds at every moment *)

(** In order: those carrying are the last taken, and every far end told was
    taken before them, told in order. *)
Record serve_in_order (s : Serve) : Prop := {
  order_carrying : v_carrying s = seq (v_taken s - length (v_carrying s)) (length (v_carrying s));
  order_far : StronglySorted lt (v_far s);
  order_before : Forall (λ i, i < v_taken s - length (v_carrying s)) (v_far s);
  order_taken : length (v_carrying s) ≤ v_taken s
}.

(** What holds where the serving thread is. *)
Definition at_rightly (most : nat) (ordered : bool) (s : Serve) (pc : At) : Prop :=
  match pc with
  | AtAsking => v_err s = false ∧ v_count s ≤ busy most ordered
  | AtReceiving places =>
      v_err s = false ∧ v_count s + places ≤ most `max` 1 ∧ v_count s ≤ busy most ordered
  | AtDone => v_count s = 0
  | _ => True
  end.

Record serve_ok (most : nat) (ordered : bool) (s : Serve) : Prop := {
  ok_count : v_count s = length (v_carrying s) + length (v_reporting s) + length (v_told s);
  ok_all : seq 0 (v_taken s) ≡ₚ v_settled s ++ (v_told s).*1 ++ v_reporting s ++ v_carrying s;
  ok_most : v_count s ≤ most `max` 1;
  ok_at : at_rightly most ordered s (v_at s);
  ok_order : ordered = true → serve_in_order s;
  ok_audited : NoDup (v_audited s) ∧ ∀ why, why ∈ v_audited s → why ∈ v_heard s
}.

Section serving.
Context (most : nat) (ordered : bool).
Abbreviation ok := (serve_ok most ordered).
Abbreviation step := (serve_step most ordered).

Lemma busy_room n : n ≤ busy most ordered → n < most `max` 1.
Proof. unfold busy. destruct ordered; lia. Qed.

(** The thread at another place, its drain whatever it is. *)
Lemma at_ok s pc d :
  ok s →
  at_rightly most ordered s pc →
  ok (at_ (drained s d) pc).
Proof. intros [] Hpc. split; simpl; [done..| |done]. intros Ho. by destruct ok_order0. Qed.

Lemma at_same_ok s pc :
  ok s →
  at_rightly most ordered s pc →
  ok (at_ s pc).
Proof. intros Hs Hpc. by apply (at_ok s pc (v_drain s)) in Hpc. Qed.

Lemma not_told_ok s why heard audited :
  ok s → not_told s why = (heard, audited) →
  NoDup audited ∧ ∀ one, one ∈ audited → one ∈ heard.
Proof.
  intros [_ _ _ _ _ [Hn Hin]]. unfold not_told. case_bool_decide as Hw; intros; simplify_eq; [done|].
  split.
  - apply NoDup_app. split_and!; [done| |by apply NoDup_singleton].
    intros one Hone ->%list_elem_of_singleton. by apply Hw, Hin.
  - set_solver.
Qed.

Lemma settled_serve_ok s i how more :
  ok s → settles most ordered s = true → v_told s = (i, how) :: more → ok (settled s i how more).
Proof.
  intros Hs Hsettles Htold. pose proof Hs as [Hc Ha Hm _ Ho Haud].
  unfold settled. destruct (match how with MayMend why => _ | _ => _ end) as [heard audited] eqn:Heq.
  assert (NoDup audited ∧ ∀ why, why ∈ audited → why ∈ heard) as Haudited.
  { destruct how; simplify_eq; [done| |done]. by eapply not_told_ok. }
  rewrite Htold in Hc, Ha. simpl in *.
  split; simpl; [lia| |lia| | |done].
  - rewrite Ha, <-(assoc app). done.
  - unfold settles in Hsettles. destruct (v_at s); done.
  - intros Hord. by destruct (Ho Hord).
Qed.

Lemma carry_all_ok s places k let_go :
  ok s → v_at s = AtReceiving places → 1 ≤ k ≤ places → ok (carry_all s k let_go).
Proof.
  intros [Hc Ha Hm Hat Ho Haud] Hpc Hk. rewrite Hpc in Hat. destruct Hat as (He & Hroom & Hbusy).
  split; simpl; [rewrite length_app, length_seq; lia| |lia|done| |done].
  - rewrite seq_app, Ha, <-!(assoc app). done.
  - intros ->. destruct (Ho eq_refl) as [Hcar Hfar Hbefore Htaken]. unfold busy in Hbusy.
    assert (v_carrying s = []) as Hnil by (apply nil_length_inv; lia).
    rewrite Hnil in *. simpl in *. split; simpl; rewrite ?Hnil; simpl; rewrite ?length_seq; [|done| |lia].
    + f_equal. lia.
    + eapply Forall_impl; [exact Hbefore|]. simpl. lia.
Qed.

Lemma far_told_ok s p i heard :
  ok s → v_carrying s !! p = Some i → (ordered = true → p = 0) → ok (far_told s p i heard).
Proof.
  intros [Hc Ha Hm Hat Ho Haud] Hi Hp.
  assert (v_carrying s ≡ₚ i :: delete p (v_carrying s)) as Hperm by by apply delete_Permutation.
  pose proof (Permutation_length Hperm) as Hlen. simpl in Hlen.
  split; simpl; [rewrite length_app; simpl; lia| |done| | |done].
  - rewrite Ha, Hperm at 1. rewrite <-!(assoc app). done.
  - destruct (v_at s); try done.
  - intros Hord. destruct (Ho Hord) as [Hcar Hfar Hbefore Htaken]. rewrite (Hp Hord) in *.
    destruct (v_carrying s) as [|j more] eqn:Hmore; [done|]. injection Hi as ->. simpl in *.
    injection Hcar as Hj Hrest. subst i.
    split; simpl; rewrite ?Hmore; simpl; [| | |lia].
    + rewrite Hrest at 1. f_equal. lia.
    + destruct heard; [|by rewrite app_nil_r]. by apply StronglySorted_snoc.
    + rewrite Forall_app. split; [eapply Forall_impl; [exact Hbefore|simpl; lia]|].
      destruct heard; [|done]. apply Forall_singleton. lia.
Qed.

Lemma reported_ok s p i how :
  ok s → v_reporting s !! p = Some i → ok (reported s p i how).
Proof.
  intros [Hc Ha Hm Hat Ho Haud] Hi.
  assert (v_reporting s ≡ₚ i :: delete p (v_reporting s)) as Hperm by by apply delete_Permutation.
  pose proof (Permutation_length Hperm) as Hlen. simpl in Hlen.
  split; simpl; [rewrite length_app; simpl; lia| |done| | |done].
  - rewrite Ha, Hperm at 1. rewrite fmap_app, <-!(assoc app). done.
  - by destruct (v_at s).
  - intros Hord. by destruct (Ho Hord).
Qed.

Lemma serve_step_ok s1 s2 : ok s1 → step s1 s2 → ok s2.
Proof.
  intros Hs Hstep.
  destruct Hstep as [s Hat He|s now d on Hat He Hd|s i how more|s Hat|s Hat Hset|s places Hat Hp
                    |s places k let_go|s places ended Hat|s places Hat|s Hat Hc
                    |s p i heard|s p i how|s].
  - by apply at_same_ok.
  - apply at_ok; [done|]. by destruct on.
  - by apply settled_serve_ok.
  - by apply at_same_ok.
  - apply at_same_ok; [done|]. unfold settles in Hset. rewrite Hat in Hset.
    destruct (v_err s) eqn:He; [done|]. simpl in Hset. by apply Nat.ltb_ge in Hset.
  - apply at_same_ok; [done|]. destruct Hs as [_ _ _ Hok _ _]. rewrite Hat in Hok.
    destruct Hok. simpl. split_and!; [done|lia|done].
  - by eapply carry_all_ok.
  - by apply at_ok.
  - destruct Hs as [Hc Ha Hm Hok Ho Haud]. split; simpl; [done|done|done|by destruct (v_at s)| |done].
    intros Hord. by destruct (Ho Hord).
  - by apply at_same_ok.
  - by apply far_told_ok.
  - by apply reported_ok.
  - destruct Hs as [Hc Ha Hm Hok Ho Haud]. split; simpl; [done|done|done|by destruct (v_at s)| |done].
    intros Hord. by destruct (Ho Hord).
Qed.

Lemma serve_new_ok waits bound : ok (serve_new waits bound).
Proof.
  split; simpl; [done..|lia|done| |split; [constructor|set_solver]].
  intros _. by split; simpl; [| constructor|constructor|].
Qed.

Lemma serve_reachable_ok waits bound s : rtc step (serve_new waits bound) s → ok s.
Proof.
  intros Hrun. assert (ok (serve_new waits bound)) as Hnew by apply serve_new_ok.
  induction Hrun as [|s1 s2 s3 Hstep _ IH]; [done|]. apply IH. by eapply serve_step_ok.
Qed.
End serving.

(** With none in hand every arrival taken is settled. *)
Lemma none_in_hand most ordered s :
  serve_ok most ordered s → v_count s = 0 → v_settled s ≡ₚ seq 0 (v_taken s).
Proof.
  intros [Hc Ha _ _ _ _] Hz. rewrite Ha, (nil_length_inv (v_told s)), (nil_length_inv (v_reporting s)),
    (nil_length_inv (v_carrying s)) by lia. by rewrite !app_nil_r.
Qed.

(** ** It takes no more than there is room for *)

(** A Location never has more arrivals in hand than its pool has threads,
    what its transport is asked for fits the room left, and it is not asked
    once the Location is failing; where arrivals are ordered it is asked only
    once every arrival taken before was carried, told and settled. *)
Theorem serve_takes_within_room most ordered waits bound s :
  rtc (serve_step most ordered) (serve_new waits bound) s →
  length (v_carrying s) + length (v_reporting s) + length (v_told s) ≤ most `max` 1 ∧
  ∀ places, v_at s = AtReceiving places →
    v_err s = false ∧
    length (v_carrying s) + length (v_reporting s) + length (v_told s) + places ≤ most `max` 1 ∧
    (ordered = true → v_settled s ≡ₚ seq 0 (v_taken s)).
Proof.
  intros Hs%serve_reachable_ok. pose proof Hs as [Hc _ Hm Hat _ _]. rewrite <-Hc. split; [done|].
  intros places Hpc. rewrite Hpc in Hat. destruct Hat as (He & Hroom & Hbusy).
  split_and!; [done..|]. intros ->. eapply none_in_hand; [exact Hs|]. unfold busy in Hbusy. lia.
Qed.

(** ** It is never stuck, and settles all it took *)

(** A report to come or an arrival carrying is a thread's to end. *)
Lemma pool_can_step most ordered s :
  v_carrying s ≠ [] ∨ v_reporting s ≠ [] →
  ∃ s', serve_step most ordered s s' ∧ v_raised s' = v_raised s.
Proof.
  intros [Hne|Hne].
  - destruct (v_carrying s) as [|i more] eqn:Hcar; [done|]. eexists. split.
    + apply (serve_far_told most ordered s 0 i true); [by rewrite Hcar|done].
    + done.
  - destruct (v_reporting s) as [|i more] eqn:Hrep; [done|]. eexists. split.
    + apply (serve_reported most ordered s 0 i Heard). by rewrite Hrep.
    + done.
Qed.

(** Waiting for one more to settle, one comes. *)
Lemma settling_can_step most ordered s :
  serve_ok most ordered s → settles most ordered s = true → 0 < v_count s →
  ∃ s', serve_step most ordered s s' ∧ v_raised s' = v_raised s.
Proof.
  intros Hs Hsettles Hcount. destruct (v_told s) as [|[i how] more] eqn:Htold.
  - apply pool_can_step. rewrite (ok_count _ _ _ Hs), Htold in Hcount.
    destruct (v_carrying s), (v_reporting s); simpl in Hcount; (by left) || (by right) || lia.
  - eexists. split; [by apply (serve_settled most ordered s i how more)|].
    unfold settled. by destruct (match how with MayMend why => _ | _ => _ end).
Qed.

Lemma serve_can_step most ordered s :
  serve_ok most ordered s → v_at s ≠ AtDone →
  ∃ s', serve_step most ordered s s' ∧ v_raised s' = v_raised s.
Proof.
  intros Hs Hdone. destruct (v_at s) as [| | | |places| |] eqn:Hat; [| | | | | |done].
  - destruct (v_err s) eqn:He; [by eexists; split; [by apply serve_left|]|].
    destruct (asks (v_drain s) (v_raised s) 0) as [d on] eqn:Hd.
    eexists. split; [by apply (serve_asks most ordered s 0 d on)|done].
  - destruct (settles most ordered s) eqn:Hset, (v_told s) as [|[i how] more] eqn:Htold.
    + eexists. split; [apply serve_all_settled; [done|by right]|done].
    + apply settling_can_step; [done..|]. unfold settles in Hset. rewrite Hat in Hset.
      apply andb_prop in Hset as [_ Hset]. by apply Nat.ltb_lt.
    + eexists. split; [apply serve_all_settled; [done|by left]|done].
    + eexists. split; [apply serve_all_settled; [done|by left]|done].
  - destruct (settles most ordered s) eqn:Hset.
    + apply settling_can_step; [done..|]. unfold settles in Hset. rewrite Hat in Hset.
      apply andb_prop in Hset as [_ Hset%Nat.ltb_lt]. lia.
    + eexists. split; [by apply serve_room|done].
  - pose proof (ok_at _ _ _ Hs) as Hok. rewrite Hat in Hok. destruct Hok as [_ Hroom%busy_room].
    eexists. split; [apply (serve_places most ordered s 1); [done|lia]|done].
  - eexists. split; [by apply (serve_nothing most ordered s places Nothing)|done].
  - destruct (decide (v_count s = 0)) as [Hz|Hz].
    + eexists. split; [by apply serve_done|done].
    + apply settling_can_step; [done| |lia]. unfold settles. rewrite Hat. apply Nat.ltb_lt. lia.
Qed.

(** C11. A Location's serve never waits for what will not come: until it
    returns something other than the stop can go on, and when it returns it
    has settled every arrival it took, each once — whatever order the carries
    ended in, whatever was told — and audited each reason a far end was not
    told for at most once. *)
Theorem serve_settles_all most ordered waits bound s :
  rtc (serve_step most ordered) (serve_new waits bound) s →
  (v_at s ≠ AtDone → ∃ s', serve_step most ordered s s' ∧ v_raised s' = v_raised s) ∧
  (v_at s = AtDone → v_settled s ≡ₚ seq 0 (v_taken s)) ∧
  NoDup (v_settled s) ∧ NoDup (v_audited s).
Proof.
  intros Hs%serve_reachable_ok. split; [by apply serve_can_step|].
  pose proof Hs as [_ Ha _ Hat _ [Haud _]]. split; [|split; [|done]].
  - intros Hpc. rewrite Hpc in Hat. by eapply none_in_hand.
  - assert (NoDup (seq 0 (v_taken s))) as Hnd by apply NoDup_seq.
    rewrite Ha in Hnd. by apply NoDup_app in Hnd as [? _].
Qed.

(** Where a Location's arrivals are ordered its far ends are told in the
    order the arrivals came, over every receive of its life, none told
    twice, and none while one that came before it is carrying. *)
Theorem serve_tells_in_order most waits bound s :
  rtc (serve_step most true) (serve_new waits bound) s →
  StronglySorted lt (v_far s) ∧
  (∀ told carrying, told ∈ v_far s → carrying ∈ v_carrying s → told < carrying).
Proof.
  intros Hs%serve_reachable_ok. destruct (ok_order _ _ _ Hs eq_refl) as [Hcar Hfar Hbefore _].
  split; [done|]. intros told carrying Htold Hcarrying.
  rewrite Hcar in Hcarrying. apply elem_of_seq in Hcarrying as [Hle _].
  rewrite Forall_forall in Hbefore. specialize (Hbefore told Htold). simpl in Hbefore. lia.
Qed.

(** ** It returns *)

Definition serve_left_over (s : Serve) : nat :=
  3 * length (v_carrying s) + 2 * length (v_reporting s) + length (v_told s) +
  (match v_at s with AtDone => 0 | _ => 1 end) + (if v_raised s then 0 else 1).

Definition has_left (most : nat) (ordered : bool) (taken : nat) (s : Serve) : Prop :=
  serve_ok most ordered s ∧ (v_at s = AtLeft ∨ v_at s = AtDone) ∧ v_taken s = taken.

Lemma has_left_step most ordered taken s1 s2 :
  has_left most ordered taken s1 → serve_step most ordered s1 s2 →
  has_left most ordered taken s2 ∧ serve_left_over s2 < serve_left_over s1.
Proof.
  intros (Hs & Hpc & Htaken) Hstep.
  assert (serve_ok most ordered s2) as Hs2 by by eapply serve_step_ok.
  unfold has_left, serve_left_over.
  destruct Hstep as [s Hat He|s now d on Hat He Hd|s i how more Hset Htold|s Hat|s Hat Hset|s places Hat Hp
                    |s places k let_go Hat|s places ended Hat|s places Hat|s Hat Hc
                    |s p i heard Hi|s p i how Hi|s Hr];
    try (destruct Hpc as [Hpc|Hpc]; rewrite Hpc in Hat; done).
  - assert (v_taken (settled s i how more) = v_taken s ∧ v_at (settled s i how more) = v_at s ∧
      v_told (settled s i how more) = more ∧ v_carrying (settled s i how more) = v_carrying s ∧
      v_reporting (settled s i how more) = v_reporting s ∧
      v_raised (settled s i how more) = v_raised s) as (-> & -> & -> & -> & -> & ->).
    { unfold settled. by destruct (match how with MayMend why => _ | _ => _ end). }
    split; [done|]. rewrite Htold. simpl. lia.
  - split; [split; [done|split; [by right|done]]|]. simpl. rewrite Hat. lia.
  - apply delete_Permutation, Permutation_length in Hi. split; [done|]. simpl in *.
    rewrite length_app. simpl. lia.
  - apply delete_Permutation, Permutation_length in Hi. split; [done|]. simpl in *.
    rewrite length_app. simpl. lia.
  - split; [done|]. simpl. rewrite Hr. lia.
Qed.

(** Once a Location has left its loop — the stop raised, or a failure
    that asking again will not mend — it takes nothing more and returns,
    within three steps for each arrival in hand and two more, however its
    threads' steps fall among its own; and only when every arrival it took
    is settled. *)
Theorem serve_returns most ordered waits bound s n s' :
  rtc (serve_step most ordered) (serve_new waits bound) s → v_at s = AtLeft →
  nsteps (serve_step most ordered) n s s' →
  n ≤ 3 * v_count s + 2 ∧ v_taken s' = v_taken s ∧
  ((∀ s'', ¬ serve_step most ordered s' s'') →
     v_at s' = AtDone ∧ v_settled s' ≡ₚ seq 0 (v_taken s)).
Proof.
  intros Hs%serve_reachable_ok Hat Hrun.
  destruct (measure_bounds (serve_step most ordered) (has_left most ordered (v_taken s)) serve_left_over)
    with (n := n) (x := s) (y := s') as [Hn (Hs' & _ & Htaken)];
    [by apply has_left_step|by split; [|split; [left|]]|done|].
  split_and!; [|done|].
  - unfold serve_left_over in Hn. rewrite Hat in Hn. rewrite (ok_count _ _ _ Hs).
    destruct (v_raised s); lia.
  - intros Hstuck. destruct (decide (v_at s' = AtDone)) as [Hdone|Hnot].
    + split; [done|]. rewrite <-Htaken. eapply none_in_hand; [exact Hs'|].
      pose proof (ok_at _ _ _ Hs') as Hpc. by rewrite Hdone in Hpc.
    + exfalso. destruct (serve_can_step most ordered s' Hs' Hnot) as (s'' & Hstep & _).
      by apply (Hstuck s'').
Qed.

(** ** A Location that took two arrivals, told the first, and was stopped *)

(** Asked to receive, it took two. *)
Lemma two_taken ordered :
  ∃ s, rtc (serve_step 2 ordered) (serve_new true 10) s ∧
       s = carry_all (at_ (at_ (at_ (at_ (drained (serve_new true 10) (drain_new true 10)) AtSettling)
                     AtWaiting) AtAsking) (AtReceiving 2)) 2 false.
Proof.
  eexists. split; [|done].
  eapply rtc_l; [by apply (serve_asks _ _ (serve_new true 10) 0 (drain_new true 10) true)|].
  eapply rtc_l; [apply serve_all_settled; [done|by right]|].
  eapply rtc_l; [by apply serve_room|].
  eapply rtc_l; [apply (serve_places _ _ _ 2); simpl; [done|lia]|].
  apply rtc_once. by apply (serve_found _ _ _ 2); [|lia].
Qed.

Lemma two_receiving ordered :
  ∃ s, rtc (serve_step 2 ordered) (serve_new true 10) s ∧ v_at s = AtReceiving 2.
Proof.
  eexists. split.
  - eapply rtc_l; [by apply (serve_asks _ _ (serve_new true 10) 0 (drain_new true 10) true)|].
    eapply rtc_l; [apply serve_all_settled; [done|by right]|].
    eapply rtc_l; [by apply serve_room|].
    apply rtc_once. apply (serve_places _ _ _ 2); simpl; [done|lia].
  - done.
Qed.

(** The first told and reported, the stop raised, the loop left. *)
Lemma two_left ordered :
  ∃ s, rtc (serve_step 2 ordered) (serve_new true 10) s ∧ v_at s = AtLeft ∧ v_far s = [0] ∧
       v_carrying s = [1] ∧ v_told s = [(0, MayMend "away")] ∧ v_taken s = 2 ∧ v_count s = 2.
Proof.
  destruct (two_taken ordered) as (s & Hrun & ->). eexists. split.
  - etransitivity; [exact Hrun|].
    eapply rtc_l; [by apply (serve_far_told _ _ _ 0 0 true)|].
    eapply rtc_l; [by apply (serve_reported _ _ _ 0 0 (MayMend "away"))|].
    eapply rtc_l; [by apply serve_raised|].
    apply rtc_once. by apply (serve_asks _ _ _ 0 (drain_new true 10) false).
  - done.
Qed.

Lemma serve_takes_within_room_witness :
  ∃ s, v_at s = AtReceiving 2 ∧ v_err s = false.
Proof.
  destruct (two_receiving true) as (s & Hrun & Hat). exists s. split; [done|].
  exact (proj1 (proj2 (serve_takes_within_room 2 true true 10 s Hrun) 2 Hat)).
Defined.

Lemma serve_settles_all_witness :
  ∃ s, v_carrying s = [1] ∧ ∃ s', serve_step 2 false s s' ∧ v_raised s' = v_raised s.
Proof.
  destruct (two_left false) as (s & Hrun & Hat & _ & Hcar & _). exists s. split; [done|].
  apply (serve_settles_all 2 false true 10 s Hrun). rewrite Hat. done.
Defined.

Lemma serve_tells_in_order_witness :
  ∃ s, v_far s = [0] ∧ v_carrying s = [1] ∧ 0 < 1.
Proof.
  destruct (two_left true) as (s & Hrun & _ & Hfar & Hcar & _). exists s. split; [done|]. split; [done|].
  apply (serve_tells_in_order 2 true 10 s Hrun).
  - rewrite Hfar. apply list_elem_of_singleton. reflexivity.
  - rewrite Hcar. apply list_elem_of_singleton. reflexivity.
Defined.

(** The one told is settled, and the far end of the other told. *)
Lemma serve_returns_witness :
  ∃ s s', nsteps (serve_step 2 true) 2 s s' ∧ v_at s = AtLeft ∧ v_taken s' = v_taken s.
Proof.
  destruct (two_left true) as (s & Hrun & Hat & _ & Hcar & Htold & _ & Hcount).
  assert (∃ s', nsteps (serve_step 2 true) 2 s s') as [s' Hmore].
  { eexists. eapply nsteps_l; [by apply (serve_far_told _ _ _ 0 1 true); [rewrite Hcar|]|].
    eapply nsteps_l; [|apply nsteps_O]. eapply (serve_settled _ _ _ 0 (MayMend "away") []).
    - unfold settles. simpl. rewrite Hat, Hcount. reflexivity.
    - exact Htold. }
  exists s, s'. split; [done|]. split; [done|].
  exact (proj1 (proj2 (serve_returns 2 true true 10 s 2 s' Hrun Hat Hmore))).
Defined.
