(* ===== verification/Configured.v ===== *)
(** * The sequences a configuration names: [src/sequence/configured.rs]

    Each point that names a Correlation, read once as the node starts: a
    Receive Location's own point and its Port's, and the points of every
    destination, or every problem in naming them. *)

From Stdlib Require Import Ascii String.
From stdpp Require Import base numbers list strings.
From S2P Require Import Prelude Journey Storage Keys Points.

Local Open Scope string_scope.

(** What the configuration declares and designs, as far as its sequences
    read it. *)
Record Correlation := { c_name : string; c_keys : list string; c_on_failure : option OnFailure }.

(** A Location, a Port or a Group: its name and the set it names. *)
Record Named := { n_name : string; n_correlation : option string }.

Record BoundReceivePort := { port : Named; receive_locations : list Named }.

(** [ExecutionTree]'s fields the sequences read. *)
Record ExecutionTree := {
  correlations : list Correlation;
  receive_ports : list BoundReceivePort;
  designed_send_ports : list Named;
  send_port_groups : list Named;
  send_location_sets : list (string * string);
  work_process_sets : list (string * string)
}.

Fixpoint find {A} (p : A → bool) (l : list A) : option A :=
  match l with
  | [] => None
  | a :: rest => if p a then Some a else find p rest
  end.

(** [Iterator::find_map]. *)
Fixpoint find_map {A B} (f : A → option B) (l : list A) : option B :=
  match l with
  | [] => None
  | a :: rest => match f a with Some b => Some b | None => find_map f rest end
  end.

Lemma find_some {A} (p : A → bool) l a : find p l = Some a → a ∈ l ∧ p a = true.
Proof.
  induction l as [|b l IH]; simpl; [done|]. destruct (p b) eqn:Hb.
  - intros [= ->]. split; [left|done].
  - intros [? ?]%IH. split; [by right|done].
Qed.

Lemma find_none {A} (p : A → bool) l a : find p l = None → a ∈ l → p a = false.
Proof.
  intros Hnone Ha. induction Ha as [a l|a b l _ IH]; simpl in Hnone; destruct (p _) eqn:Hb; naive_solver.
Qed.

Lemma find_map_some {A B} (f : A → option B) l b :
  find_map f l = Some b → ∃ a, a ∈ l ∧ f a = Some b.
Proof.
  induction l as [|a l IH]; simpl; [done|]. destruct (f a) as [b'|] eqn:Hf.
  - intros [= ->]. exists a. split; [left|done].
  - intros (a' & ? & ?)%IH. exists a'. split; [by right|done].
Qed.

Section configured.
(** [KeyWord::read], the configuration crate's. *)
Context (keyword_read : string → result KeyWord string).

(** [point]. *)
Definition point (sets : list Correlation) (kind : PointKind) (name set : string) : result Point string :=
  match find (λ declared, bool_decide (c_name declared = set)) sets with
  | None => Err ("the " +:+ word kind +:+ " '" +:+ name +:+ "' names the Correlation '" +:+ set +:+
                 "', which the cluster does not declare")
  | Some declared =>
      let? set := Keys.read keyword_read (c_name declared) (c_keys declared) in
      Ok {| kind := kind; point_name := name; set := set;
            on_failure := default Block (c_on_failure declared) |}
  end.

(** [received_at]. *)
Definition received_at (tree : ExecutionTree) (location : string) : result (string * list Point) string :=
  let at_port :=
    find_map (λ p, (λ designed, (port p, designed)) <$>
                     find (λ designed, bool_decide (n_name designed = location)) (receive_locations p))
             (receive_ports tree) in
  match at_port with
  | None => Ok ("", [receive_location location])
  | Some (port, designed) =>
      let sets := correlations tree in
      let? own := match n_correlation designed with
                  | Some set => point sets ReceiveLocationPoint location set
                  | None => Ok (receive_location location)
                  end in
      match n_correlation port with
      | Some set =>
          let? ports := point sets ReceivePortPoint (n_name port) set in
          Ok (n_name port, [own; ports])
      | None => Ok (n_name port, [own])
      end
  end.

(** Every destination that names a set, in the order they are read. *)
Definition named_sets (kind : PointKind) (all : list Named) : list (PointKind * string * string) :=
  omap (λ one, (λ set, (kind, n_name one, set)) <$> n_correlation one) all.

Definition named_points (tree : ExecutionTree) : list (PointKind * string * string) :=
  named_sets SendPortPoint (designed_send_ports tree) ++
  named_sets SendPortGroupPoint (send_port_groups tree) ++
  ((λ '(name, set), (SendLocationPoint, name, set)) <$> send_location_sets tree) ++
  ((λ '(name, set), (WorkProcessPoint, name, set)) <$> work_process_sets tree).

Definition ok_of {A E} (r : result A E) : option A := match r with Ok a => Some a | Err _ => None end.
Definition err_of {A E} (r : result A E) : option E := match r with Ok _ => None | Err e => Some e end.

(** [destinations]: the points, or every problem. *)
Definition destinations (tree : ExecutionTree) : result (list Point) (list string) :=
  let named := (λ '(kind, name, set), point (correlations tree) kind name set) <$> named_points tree in
  match omap err_of named with
  | [] => Ok (omap ok_of named)
  | problems => Err problems
  end.

(** [names]. *)
Definition all_names (points : list Point) : list string := points ≫= (λ p, names (set p)).

(** ** What they name *)

(** A point as its kind, its name and the set it names say: the set
    declared of that name, read whole. *)
Definition names_set (sets : list Correlation) (named : PointKind * string * string) (p : Point) : Prop :=
  let '(k, name, set_named) := named in
  kind p = k ∧ point_name p = name ∧ set_name (set p) = set_named ∧ keys (set p) ≠ [] ∧
  ∃ declared, declared ∈ sets ∧ c_name declared = set_named ∧
    Keys.read keyword_read set_named (c_keys declared) = Ok (set p) ∧
    on_failure p = default Block (c_on_failure declared).

Lemma collect_length {A E} (l : list (result A E)) rs : collect l = Ok rs → length rs = length l.
Proof.
  revert rs. induction l as [|[a|e] l IH]; simpl; [by intros rs [= <-]| |done].
  destruct (collect l) as [tail|]; [|done]. intros rs [= <-]. simpl. f_equal. by apply IH.
Qed.

Lemma read_ok name ks rs :
  Keys.read keyword_read name ks = Ok rs → set_name rs = name ∧ keys rs ≠ [].
Proof.
  unfold Keys.read. destruct ks as [|k ks]; [done|].
  destruct (collect (keyword_read <$> k :: ks)) as [all|] eqn:Hall; [|done].
  intros [= <-]. simpl. split; [done|]. apply collect_length in Hall. by destruct all.
Qed.

Lemma point_ok sets k name set_named p :
  point sets k name set_named = Ok p → names_set sets (k, name, set_named) p.
Proof.
  unfold point. destruct (find _ sets) as [declared|] eqn:Hfind; [|done].
  apply find_some in Hfind as [Hin Heq%bool_decide_eq_true].
  destruct (Keys.read keyword_read (c_name declared) (c_keys declared)) as [rs|] eqn:Hread; [|done].
  intros [= <-]. simpl. pose proof (read_ok _ _ _ Hread) as [? ?].
  rewrite Heq in *. split_and!; [done..|]. by exists declared.
Qed.

Lemma omap_results {A B E} (f : A → result B E) (l : list A) :
  omap err_of (f <$> l) = [] → Forall2 (λ a b, f a = Ok b) l (omap ok_of (f <$> l)).
Proof.
  induction l as [|a l IH]; simpl; [constructor|].
  destruct (f a) as [b|e] eqn:Hf; simpl; [|done]. intros Hl. constructor; [done|by apply IH].
Qed.

(** A node's destinations are named whole or not at all: where its
    configuration names them well there is one point for each Send Port,
    Send Port Group, Send Location and Work Process that names a set, with
    its name and the keys declared for that set, none of them empty; and
    otherwise every problem is told, each that of a point that names one. *)
Theorem destinations_whole tree :
  match destinations tree with
  | Ok points => Forall2 (names_set (correlations tree)) (named_points tree) points
  | Err problems =>
      problems ≠ [] ∧
      ∀ why, why ∈ problems ↔
        ∃ k name set_named, (k, name, set_named) ∈ named_points tree ∧
          point (correlations tree) k name set_named = Err why
  end.
Proof.
  unfold destinations. set (f := λ named : PointKind * string * string, _).
  destruct (omap err_of (f <$> named_points tree)) as [|why problems] eqn:Herr.
  - apply omap_results in Herr. eapply Forall2_impl; [exact Herr|].
    intros [[k name] set_named] p Hp. by apply point_ok.
  - split; [done|]. intros one. rewrite <-Herr, list_elem_of_omap. split.
    + intros (r & Hr & Hone). apply list_elem_of_fmap in Hr as ([[k name] set_named] & -> & Hin).
      exists k, name, set_named. split; [done|]. unfold f, err_of in Hone. by case_match; simplify_eq.
    + intros (k & name & set_named & Hin & Hp).
      exists (f (k, name, set_named)). split; [by apply list_elem_of_fmap_2|].
      unfold f. by rewrite Hp.
Qed.

(** A Stream received at a Location holds the Location's own sequence
    first — by the set it names, or its name alone — then its Port's where
    the Port names a set, and no other: every one of them from end to end. *)
Theorem received_at_own tree location port_named points :
  received_at tree location = Ok (port_named, points) →
  ∃ own, head points = Some own ∧ kind own = ReceiveLocationPoint ∧ point_name own = location ∧
    (own = receive_location location ∨ ∃ set_named, names_set (correlations tree) (ReceiveLocationPoint, location, set_named) own) ∧
    (tail points = [] ∨ ∃ ports set_named, tail points = [ports] ∧
       names_set (correlations tree) (ReceivePortPoint, port_named, set_named) ports) ∧
    Forall (λ p, end_to_end (kind p) = true) points.
Proof.
  unfold received_at. destruct (find_map _ _) as [[p designed]|]; [|intros [= <- <-]; naive_solver].
  destruct (match n_correlation designed with Some _ => _ | None => _ end) as [own|] eqn:Hown; [|done].
  assert (kind own = ReceiveLocationPoint ∧ point_name own = location ∧
    (own = receive_location location ∨
     ∃ set_named, names_set (correlations tree) (ReceiveLocationPoint, location, set_named) own))
    as (Hkind & Hname & Hset).
  { destruct (n_correlation designed) as [named|]; [|injection Hown as <-; naive_solver].
    pose proof (point_ok _ _ _ _ _ Hown) as Hp. pose proof Hp as (? & ? & _).
    split_and!; [done..|]. right. by exists named. }
  simpl. destruct (n_correlation p) as [named|].
  - destruct (point (correlations tree) ReceivePortPoint (n_name p) named) as [ports|] eqn:Hports; [|done].
    pose proof (point_ok _ _ _ _ _ Hports) as Hp. pose proof Hp as (Hk & _).
    simpl. intros [= <- <-]. exists own. split_and!; [done..| |].
    + right. by exists ports, named.
    + repeat constructor; [by rewrite Hkind|by rewrite Hk].
  - intros [= <- <-]. exists own. split_and!; [done..|by left|]. constructor; [by rewrite Hkind|done].
Qed.
End configured.

Lemma received_at_own_witness :
  let by_name k := Ok (Context k) in
  let tree := {| correlations := [{| c_name := "ByClient"; c_keys := ["Client"]; c_on_failure := None |}];
                 receive_ports := [{| port := {| n_name := "Orders"; n_correlation := Some "ByClient" |};
                   receive_locations := [{| n_name := "In"; n_correlation := None |}] |}];
                 designed_send_ports := []; send_port_groups := []; send_location_sets := [];
                 work_process_sets := [] |} in
  ∃ points, received_at by_name tree "In" = Ok ("Orders", points) ∧ length points = 2 ∧
    ∃ own, head points = Some own ∧ kind own = ReceiveLocationPoint.
Proof.
  intros by_name tree. eexists. split; [reflexivity|]. split; [reflexivity|].
  destruct (received_at_own by_name tree "In" "Orders" _ eq_refl) as (own & Hhead & Hkind & _).
  exists own. exact (conj Hhead Hkind).
Defined.
