(* ===== verification/StreamShare.v ===== *)
(** * One read of a Stream, shared: [src/stream_share.rs], [src/stream_share/one_read.rs]

    The departures of one Stream on this node — a fan-out's sends, side by
    side — and the reads of Xmip Storage they take its chunks from: what a
    read keeps, who may join it, who waits for whom, who is left behind and
    reads on elsewhere. Each turn of a read's loop under its lock, each join
    and each leave is a step, and the steps of all departures interleave.
    What a departure saw of the other reads when it chose one — each looked
    at under its own lock, at its own moment, or not at all — is whatever it
    saw ([Look]): nothing is supposed of it. *)

From Stdlib Require Import Ascii String.
From stdpp Require Import base numbers list gmap strings relations.
From S2P Require Import Prelude Budget.

Abbreviation chunk := (list Corelib.Init.Byte.byte).

(** [KEPT_PER_READER]. *)
Definition KEPT_PER_READER : nat := N.to_nat STREAM_CHUNKS - 1.

(** [kept]. *)
Definition kept (readers : nat) : nat := (KEPT_PER_READER * (readers - 1)) `max` 1.

Record Reader := { number : nat; next : nat; took : N }.

Section reading.
(** [persist::storage::ChunkReader]: opened at a chunk, so many bytes into
    the Stream; what a read of the next may answer. *)
Context {R : Type} (shared_from : nat → nat → R)
  (next_chunk : R → result (option chunk) string → R → Prop).
(** [[tuning] stream_stall]. *)
Context (stall : N).

(** ** One read: [one_read.rs] *)

Record Source := {
  source_reader : R;
  window : list chunk;
  first : nat;
  ended : bool;
  failed : option string;
  readers : list Reader
}.

Definition with_readers (s : Source) (l : list Reader) : Source :=
  {| source_reader := source_reader s; window := window s; first := first s; ended := ended s;
     failed := failed s; readers := l |}.

(** [OneRead::opened]. *)
Definition opened (r : R) (place : nat) : Source :=
  {| source_reader := r; window := []; first := place; ended := false; failed := None; readers := [] |}.

(** [Source::reaches]. *)
Definition reaches (s : Source) (place : nat) : bool :=
  if place <? first s then false
  else
    let ahead := place - first s in
    bool_decide (failed s = None) &&
    ((ahead <=? length (window s)) || (ahead <? kept (length (readers s) + 1))).

(** [Source::join]. *)
Definition join (s : Source) (n place : nat) (now : N) : Source :=
  with_readers s (readers s ++ [{| number := n; next := place; took := now |}]).

(** How much longer [r] is waited for, where it is still taking. *)
Definition still_taking (now : N) (r : Reader) : option N :=
  let elapsed := (now - took r)%N in
  if (elapsed <? stall)%N then Some (stall - elapsed)%N else None.

Fixpoint shortest (l : list N) : option N :=
  match l with
  | [] => None
  | n :: rest => Some (match shortest rest with Some m => N.min n m | None => n end)
  end.

(** [Source::waits]. *)
Definition waits (s : Source) (now : N) : option N :=
  if length (window s) <? kept (length (readers s)) then None
  else shortest (omap (still_taking now) (List.filter (λ r, next r =? first s) (readers s))).

(** A departure's reader taking the chunk at [place]. *)
Fixpoint takes (l : list Reader) (n place : nat) (now : N) : list Reader :=
  match l with
  | [] => []
  | r :: rest =>
      if number r =? n then {| number := n; next := place + 1; took := now |} :: rest
      else r :: takes rest n place now
  end.

(** What one turn of [OneRead::chunk]'s loop finds, under the read's lock. *)
Inductive Turned :=
  | Fails (why : string)
  | IsBehind
  | Gives (s : Source) (c : chunk)
  | AtEnd
  | MustWait (more : N)
  | MustRead.

Definition chunk_turn (s : Source) (n place : nat) (now : N) : Turned :=
  match failed s with
  | Some why => Fails why
  | None =>
      if place <? first s then IsBehind
      else
        match window s !! (place - first s) with
        | Some c => Gives (with_readers s (takes (readers s) n place now)) c
        | None =>
            if ended s then AtEnd
            else match waits s now with Some more => MustWait more | None => MustRead end
        end
  end.

(** The window held to what it may keep, the oldest let go of first. *)
Definition trimmed (s : Source) (r : R) (w : list chunk) : Source :=
  let over := length w - kept (length (readers s)) in
  {| source_reader := r; window := drop over w; first := first s + over; ended := ended s;
     failed := failed s; readers := readers s |}.

(** What [next_chunk] answered, kept; [Some] where it failed. *)
Definition fetched (s : Source) (answer : result (option chunk) string) (r : R) :
    Source * option string :=
  match answer with
  | Ok (Some c) => (trimmed s r (window s ++ [c]), None)
  | Ok None =>
      ({| source_reader := r; window := window s; first := first s; ended := true;
          failed := failed s; readers := readers s |}, None)
  | Err why =>
      ({| source_reader := r; window := window s; first := first s; ended := ended s;
          failed := Some why; readers := readers s |}, Some why)
  end.

(** ** The reads of a Stream: [Shared] *)

(** Where a departure is: between its caller's reads, about to look for a
    read more take from, gone to one and leaving the one before, asking its
    read, waiting, fallen behind, choosing a read, or dropped. *)
Inductive At :=
  | Idle | Moving | Leaving (on : nat) | Asking | Waiting | Behind | Choosing | Dropped.

(** [Lent], with every byte its caller was handed and whether it was told
    the Stream's end. *)
Record Lent := {
  l_read : nat;
  l_place : nat;
  l_taken : nat;
  l_held : option chunk;
  l_at : nat;
  l_given : chunk;
  l_ended : bool;
  l_where : At
}.

(** The reads opened, the list of those taken from, and the departures by
    their numbers. *)
Record Shared := {
  heap : gmap nat Source;
  reads : list nat;
  lents : gmap nat Lent
}.

Definition with_lent (s : Shared) (n : nat) (l : Lent) : Shared :=
  {| heap := heap s; reads := reads s; lents := <[n := l]> (lents s) |}.

Definition with_source (s : Shared) (id : nat) (one : Source) : Shared :=
  {| heap := <[id := one]> (heap s); reads := reads s; lents := lents s |}.

Definition now_at (l : Lent) (at_ : At) : Lent :=
  {| l_read := l_read l; l_place := l_place l; l_taken := l_taken l; l_held := l_held l;
     l_at := l_at l; l_given := l_given l; l_ended := l_ended l; l_where := at_ |}.

Definition on_read (l : Lent) (id : nat) (at_ : At) : Lent :=
  {| l_read := id; l_place := l_place l; l_taken := l_taken l; l_held := l_held l;
     l_at := l_at l; l_given := l_given l; l_ended := l_ended l; l_where := at_ |}.

(** [leave]. *)
Definition leave (s : Shared) (id n : nat) : Shared :=
  match heap s !! id with
  | None => s
  | Some one =>
      let others := List.filter (λ r, negb (number r =? n)) (readers one) in
      {| heap := <[id := with_readers one others]> (heap s);
         reads := if bool_decide (others = []) then List.filter (λ other, negb (other =? id)) (reads s)
                  else reads s;
         lents := lents s |}
  end.

(** A read as a departure choosing one saw it: whether it reaches its
    place — and was not passed over — and how many take from it. *)
Record Look := { look_read : nat; look_reaches : bool; look_readers : nat }.

(** [joined]'s choice: the one that reaches and that the most read, the
    first opened of those. *)
Fixpoint best (looks : list Look) (found : option (nat * nat)) : option nat :=
  match looks with
  | [] => snd <$> found
  | look :: rest =>
      let better := match found with None => true | Some (most, _) => most <? look_readers look end in
      best rest (if look_reaches look && better then Some (look_readers look, look_read look) else found)
  end.

(** The chunk a read of its own is opened at. *)
Definition from_chunk (place : nat) : nat :=
  if (N.of_nat place <? 2 ^ 32)%N then place else N.to_nat (2 ^ 32 - 1).

(** [Shared::joined], past its [leave]: the read chosen joined, or one
    opened from the departure's place. *)
Definition joined (s : Shared) (looks : list Look) (n place taken : nat) (now : N) : Shared * nat :=
  match best looks None with
  | Some id => (match heap s !! id with Some one => with_source s id (join one n place now) | None => s end, id)
  | None =>
      let id := fresh (dom (heap s)) in
      ({| heap := <[id := join (opened (shared_from (from_chunk place) taken) place) n place now]> (heap s);
          reads := reads s ++ [id]; lents := lents s |}, id)
  end.

(** [moved]'s choice: another read that reaches its place and that more
    take from than would from its own without it, or as many and opened
    before it. *)
Fixpoint moves_to (looks : list Look) (mine others : nat) (at_ : nat) : option nat :=
  match looks with
  | [] => None
  | look :: rest =>
      let more := (others <? look_readers look) || ((look_readers look =? others) && (at_ <? mine)) in
      if negb (at_ =? mine) && more && look_reaches look then Some (look_read look)
      else moves_to rest mine others (at_ + 1)
  end.

(** Where a read is in a list of them. *)
Fixpoint position (id : nat) (l : list nat) : option nat :=
  match l with
  | [] => None
  | other :: rest => if other =? id then Some 0 else S <$> position id rest
  end.

(** [Shared::moved], to its join: where to, or nowhere. *)
Definition moved (s : Shared) (looks : list Look) (on : nat) : option nat :=
  if length (reads s) <? 2 then None
  else
    match position on (reads s), heap s !! on with
    | Some mine, Some one => moves_to looks mine (length (readers one) - 1) 0
    | _, _ => None
    end.

(** ** A departure: [Lent] *)

(** A chunk taken ([Lent::take] answered [Some]). *)
Definition chunk_taken (l : Lent) (c : chunk) : Lent :=
  {| l_read := l_read l; l_place := l_place l + 1; l_taken := l_taken l + length c;
     l_held := Some c; l_at := 0; l_given := l_given l; l_ended := l_ended l; l_where := Idle |}.

(** The Stream's end: [Lent::read] answers no byte. *)
Definition told_end (l : Lent) : Lent :=
  {| l_read := l_read l; l_place := l_place l; l_taken := l_taken l; l_held := l_held l;
     l_at := l_at l; l_given := l_given l; l_ended := true; l_where := Idle |}.

(** Up to [room] bytes of what it holds copied to its caller. *)
Definition copied (l : Lent) (held : chunk) (room : nat) : Lent :=
  let taken := room `min` (length held - l_at l) in
  {| l_read := l_read l; l_place := l_place l; l_taken := l_taken l; l_held := l_held l;
     l_at := l_at l + taken; l_given := l_given l ++ take taken (drop (l_at l) held);
     l_ended := l_ended l; l_where := Idle |}.

(** What it holds is read: [self.held = None]. *)
Definition let_go (l : Lent) : Lent :=
  {| l_read := l_read l; l_place := l_place l; l_taken := l_taken l; l_held := None;
     l_at := l_at l; l_given := l_given l; l_ended := l_ended l; l_where := Moving |}.

(** A chunk held with bytes left of it. *)
Definition unread (l : Lent) : option chunk :=
  match l_held l with Some held => if l_at l <? length held then Some held else None | None => None end.

(** [StreamShare::reader]: a departure begun, at the Stream's start. *)
Definition lent_new (id : nat) : Lent :=
  {| l_read := id; l_place := 0; l_taken := 0; l_held := None; l_at := 0; l_given := [];
     l_ended := false; l_where := Idle |}.

Definition shared_new : Shared := {| heap := ∅; reads := []; lents := ∅ |}.

Inductive share_step : Shared → Shared → Prop :=
  | share_reader s looks n now s' id :
      lents s !! n = None → look_read <$> looks = reads s →
      joined s looks n 0 0 now = (s', id) →
      share_step s (with_lent s' n (lent_new id))
  (** [Lent::read], with room for a byte at least. *)
  | share_copies s n l held room :
      lents s !! n = Some l → l_where l = Idle → 0 < room → unread l = Some held →
      share_step s (with_lent s n (copied l held room))
  | share_takes s n l :
      lents s !! n = Some l → l_where l = Idle → unread l = None →
      share_step s (with_lent s n (let_go l))
  (** [Lent::take]. *)
  | share_stays s n l looks :
      lents s !! n = Some l → l_where l = Moving → look_read <$> looks = reads s →
      moved s looks (l_read l) = None →
      share_step s (with_lent s n (now_at l Asking))
  | share_moves s n l looks to one now :
      lents s !! n = Some l → l_where l = Moving → look_read <$> looks = reads s →
      moved s looks (l_read l) = Some to → heap s !! to = Some one →
      share_step s (with_lent (with_source s to (join one n (l_place l) now)) n
                              (on_read l to (Leaving (l_read l))))
  | share_leaves s n l on :
      lents s !! n = Some l → l_where l = Leaving on →
      share_step s (with_lent (leave s on n) n (now_at l Asking))
  (** A turn of [OneRead::chunk]. *)
  | share_fails s n l one why now :
      lents s !! n = Some l → l_where l = Asking → heap s !! l_read l = Some one →
      chunk_turn one n (l_place l) now = Fails why →
      share_step s (with_lent s n (now_at l Idle))
  | share_gives s n l one one' c now :
      lents s !! n = Some l → l_where l = Asking → heap s !! l_read l = Some one →
      chunk_turn one n (l_place l) now = Gives one' c →
      share_step s (with_lent (with_source s (l_read l) one') n (chunk_taken l c))
  | share_ends s n l one now :
      lents s !! n = Some l → l_where l = Asking → heap s !! l_read l = Some one →
      chunk_turn one n (l_place l) now = AtEnd →
      share_step s (with_lent s n (told_end l))
  | share_waits s n l one more now :
      lents s !! n = Some l → l_where l = Asking → heap s !! l_read l = Some one →
      chunk_turn one n (l_place l) now = MustWait more →
      share_step s (with_lent s n (now_at l Waiting))
  (** Woken, its wait over, or for no reason. *)
  | share_woken s n l :
      lents s !! n = Some l → l_where l = Waiting →
      share_step s (with_lent s n (now_at l Asking))
  | share_reads s n l one answer r one' failure now :
      lents s !! n = Some l → l_where l = Asking → heap s !! l_read l = Some one →
      chunk_turn one n (l_place l) now = MustRead →
      next_chunk (source_reader one) answer r → fetched one answer r = (one', failure) →
      share_step s (with_lent (with_source s (l_read l) one') n
                              (now_at l (match failure with Some _ => Idle | None => Asking end)))
  | share_behind s n l one now :
      lents s !! n = Some l → l_where l = Asking → heap s !! l_read l = Some one →
      chunk_turn one n (l_place l) now = IsBehind →
      share_step s (with_lent s n (now_at l (if (N.of_nat (l_place l) <? 2 ^ 32)%N then Behind else Idle)))
  (** [Shared::joined], having left the read it fell behind. *)
  | share_left s n l :
      lents s !! n = Some l → l_where l = Behind →
      share_step s (with_lent (leave s (l_read l) n) n (now_at l Choosing))
  | share_joins s n l looks now s' id :
      lents s !! n = Some l → l_where l = Choosing → look_read <$> looks = reads s →
      joined s looks n (l_place l) (l_taken l) now = (s', id) →
      share_step s (with_lent s' n (on_read l id Asking))
  (** [Drop for Lent]. *)
  | share_dropped s n l :
      lents s !! n = Some l → l_where l = Idle →
      share_step s (with_lent (leave s (l_read l) n) n (now_at l Dropped)).

(** ** One turn of a read *)

Lemma kept_pos n : 1 ≤ kept n.
Proof. unfold kept. lia. Qed.

Lemma shortest_in l m : shortest l = Some m → m ∈ l.
Proof.
  revert m. induction l as [|n l IH]; simpl; [done|]. intros m [= <-].
  destruct (shortest l) as [m|]; [|left].
  destruct (N.min_spec n m) as [[_ ->]|[_ ->]]; [left|right; by apply IH].
Qed.

(** Whom a turn waits for: one that is to take the first chunk kept, and
    took one not long ago. *)
Lemma waits_for s now more :
  waits s now = Some more →
  kept (length (readers s)) ≤ length (window s) ∧
  ∃ r, r ∈ readers s ∧ next r = first s ∧ (now - took r < stall ∧ more = stall - (now - took r))%N.
Proof.
  unfold waits. destruct (Nat.ltb_spec (length (window s)) (kept (length (readers s)))) as [|Hfull]; [done|].
  intros Hmin%shortest_in. split; [done|].
  apply list_elem_of_omap in Hmin as (r & Hr & Htaking).
  apply list_elem_of_In, filter_In in Hr as [Hr%list_elem_of_In Hnext%Nat.eqb_eq].
  exists r. split; [done|]. split; [done|]. unfold still_taking in Htaking.
  destruct (N.ltb_spec (now - took r) stall) as [Hlt|]; [|done]. by injection Htaking as <-.
Qed.

Lemma window_end s (r : R) c :
  first (trimmed s r (window s ++ [c])) + length (window (trimmed s r (window s ++ [c]))) =
    first s + length (window s) + 1 ∧
  length (window (trimmed s r (window s ++ [c]))) ≤ kept (length (readers s)).
Proof. simpl. rewrite length_drop, length_app. simpl. lia. Qed.

(** What a departure's turn of its read does: it is given the chunk at
    its place and no other; it waits only while the read keeps all it may,
    only for another, behind it, that took a chunk within the stall, and no
    longer than that one's stall; and where it reads on, the read keeps no
    more than it may, never leaves this departure behind, and comes a chunk
    nearer to its place — or gives it the chunk at it. *)
Theorem one_read_turns s n place now :
  match chunk_turn s n place now with
  | Gives s' c => window s !! (place - first s) = Some c ∧ first s ≤ place ∧ window s' = window s
  | IsBehind => place < first s
  | MustWait more =>
      kept (length (readers s)) ≤ length (window s) ∧
      ∃ r, r ∈ readers s ∧ next r = first s ∧ next r < place ∧
        (now - took r < stall ∧ more = stall - (now - took r))%N
  | MustRead => ∀ r c,
      let s' := fst (fetched s (Ok (Some c)) r) in
      length (window s') ≤ kept (length (readers s')) ∧ first s' ≤ place ∧
      first s' + length (window s') = first s + length (window s) + 1 ∧
      first s + length (window s) ≤ place ∧
      (first s + length (window s) = place → ∀ now', ∃ s'', chunk_turn s' n place now' = Gives s'' c)
  | AtEnd => ended s = true ∧ first s + length (window s) ≤ place
  | Fails why => failed s = Some why
  end.
Proof.
  unfold chunk_turn. destruct (failed s) as [why|] eqn:Hfailed; [done|].
  destruct (Nat.ltb_spec place (first s)) as [|Hplace]; [done|].
  destruct (window s !! (place - first s)) as [c|] eqn:Hw; [done|].
  apply lookup_ge_None in Hw. destruct (ended s) eqn:Hended; [split; [done|lia]|].
  destruct (waits s now) as [more|] eqn:Hwaits.
  - apply waits_for in Hwaits as (Hfull & r & Hr & Hnext & Htook). split; [done|].
    exists r. pose proof (kept_pos (length (readers s))). split_and!; [done|done|lia|apply Htook..].
  - intros r c. change (fst (fetched s (Ok (Some c)) r)) with (trimmed s r (window s ++ [c])).
    destruct (window_end s r c) as [Hend Hlen]. pose proof (kept_pos (length (readers s))).
    assert (length (drop (length (window s ++ [c]) - kept (length (readers s))) (window s ++ [c])) ≠ 0).
    { rewrite length_drop, length_app. simpl. lia. }
    simpl in *. split_and!; [done|lia|done|lia|].
    intros Heq now'. rewrite Hfailed.
    destruct (Nat.ltb_spec place (first s + (length (window s ++ [c]) - kept (length (readers s))))); [lia|].
    rewrite lookup_drop, lookup_app_r by lia.
    replace (_ - length (window s)) with 0 by lia. by eexists.
Qed.
End reading.

(** ** The Stream's bytes *)

(** What Xmip Storage's reader promises of a Stream of [chunks]: opened at
    a chunk with the bytes before it told, it gives the chunks from there,
    and says the end at the end. *)
Class ReadsStream {R : Type} (shared_from : nat → nat → R)
    (next_chunk : R → result (option chunk) string → R → Prop)
    (chunks : list chunk) (stands : R → nat → Prop) := {
  stands_opened place :
    place ≤ length chunks → stands (shared_from place (length (concat (take place chunks)))) place;
  stands_gives r place c r' :
    stands r place → next_chunk r (Ok (Some c)) r' → chunks !! place = Some c ∧ stands r' (S place);
  stands_ends r place r' :
    stands r place → next_chunk r (Ok None) r' → length chunks ≤ place ∧ stands r' place
}.

Section stream.
Context {R : Type} (shared_from : nat → nat → R)
  (next_chunk : R → result (option chunk) string → R → Prop) (stall : N)
  (chunks : list chunk) (stands : R → nat → Prop).
Context `{!ReadsStream shared_from next_chunk chunks stands}.
Abbreviation step := (share_step shared_from next_chunk stall).

(** A read keeps the Stream's chunks from its first, and stands after them. *)
Record source_ok (s : Source) : Prop := {
  so_stands : failed s = None → stands (source_reader s) (first s + length (window s));
  so_window : ∀ i c, window s !! i = Some c → chunks !! (first s + i) = Some c;
  so_ended : ended s = true → length chunks ≤ first s + length (window s)
}.

(** A departure was handed the bytes before its place, less what is unread
    of the chunk it holds. *)
Record lent_ok (l : Lent) : Prop := {
  lo_place : l_place l ≤ length chunks;
  lo_taken : l_taken l = length (concat (take (l_place l) chunks));
  lo_held : match l_held l with
            | None => l_given l = concat (take (l_place l) chunks)
            | Some c => ∃ before, l_place l = S before ∧ chunks !! before = Some c ∧
                l_given l = concat (take before chunks) ++ take (l_at l) c
            end;
  lo_asks : l_where l ≠ Idle → l_where l ≠ Dropped → l_held l = None;
  lo_small : l_where l = Behind ∨ l_where l = Choosing → (N.of_nat (l_place l) < 2 ^ 32)%N;
  lo_ended : l_ended l = true → l_held l = None ∧ length chunks ≤ l_place l
}.

Record shared_ok (s : Shared) : Prop := {
  sh_sources : map_Forall (λ _ one, source_ok one) (heap s);
  sh_lents : map_Forall (λ _ l, lent_ok l) (lents s)
}.

Lemma with_lent_ok s n l : shared_ok s → lent_ok l → shared_ok (with_lent s n l).
Proof. intros [Hs Hl] ?. split; [done|]. by apply map_Forall_insert_2. Qed.

Lemma with_source_ok s id one : shared_ok s → source_ok one → shared_ok (with_source s id one).
Proof. intros [Hs Hl] ?. split; [|done]. by apply map_Forall_insert_2. Qed.

Lemma with_readers_ok (s : Source) l : source_ok s → source_ok (with_readers s l).
Proof. by intros []. Qed.

Lemma leave_ok s id n : shared_ok s → shared_ok (leave s id n).
Proof.
  intros [Hs Hl]. unfold leave. destruct (heap s !! id) as [one|] eqn:Hone; [|done].
  split; [|done]. apply map_Forall_insert_2; [|done]. apply with_readers_ok. by apply (Hs id).
Qed.

Lemma opened_ok place :
  place ≤ length chunks → (N.of_nat place < 2 ^ 32)%N →
  source_ok (opened (shared_from (from_chunk place) (length (concat (take place chunks)))) place).
Proof.
  intros Hplace Hsmall. unfold from_chunk. apply N.ltb_lt in Hsmall as ->.
  split; simpl; [|done|done]. intros _. rewrite Nat.add_0_r. by apply stands_opened.
Qed.

Lemma joined_ok s looks n place now s' id :
  shared_ok s → place ≤ length chunks → (N.of_nat place < 2 ^ 32)%N →
  joined shared_from s looks n place (length (concat (take place chunks))) now = (s', id) →
  shared_ok s' ∧ lents s' = lents s.
Proof.
  intros Hs Hplace Hsmall. unfold joined. destruct (best looks None) as [on|].
  - intros [= <- <-]. destruct (heap s !! on) as [one|] eqn:Hone; [|done]. split; [|done].
    apply with_source_ok; [done|]. apply with_readers_ok. by apply (sh_sources _ Hs on).
  - intros [= <- <-]. split; [|done]. destruct Hs as [Hs Hl]. split; [|done].
    apply map_Forall_insert_2; [|done]. by apply with_readers_ok, opened_ok.
Qed.

Lemma fetched_ok s answer r s' failure :
  source_ok s → failed s = None → next_chunk (source_reader s) answer r →
  fetched s answer r = (s', failure) → source_ok s'.
Proof.
  intros [Hst Hw He] Hf Hnext. specialize (Hst Hf). destruct answer as [[c|]|why]; simpl; intros [= <- <-].
  - destruct (stands_gives _ _ _ _ Hst Hnext) as [Hc Hst'].
    destruct (window_end s r c) as [Hend _]. split.
    + intros _. rewrite Hend, Nat.add_1_r. done.
    + simpl. intros i c'. rewrite lookup_drop, <-Nat.add_assoc.
      set (at_ := _ - _ + i). intros [?|[Hlen Hlast]]%lookup_app_Some; [by apply Hw|].
      apply list_lookup_singleton_Some in Hlast as [Hat <-].
      destruct (decide (at_ = length (window s))) as [->|]; [done|lia].
    + rewrite Hend. intros Hended. specialize (He Hended). apply lookup_lt_Some in Hc. lia.
  - destruct (stands_ends _ _ _ Hst Hnext). split; simpl; [done|done|]. intros _. lia.
  - split; simpl; [done|done|done].
Qed.
(** *** A departure's steps *)

Lemma take_place place c :
  chunks !! place = Some c → concat (take (S place) chunks) = concat (take place chunks) ++ c.
Proof. intros Hc. rewrite (take_S_r _ _ c) by done. rewrite concat_app. simpl. by rewrite app_nil_r. Qed.

(** It moves, waits, falls behind or stops: what it was handed stays. *)
Lemma elsewhere_ok l id at_ :
  lent_ok l → l_held l = None → ((at_ = Behind ∨ at_ = Choosing) → (N.of_nat (l_place l) < 2 ^ 32)%N) →
  lent_ok (on_read l id at_).
Proof. intros [] Hheld Hsmall. by split; simpl. Qed.

Lemma lent_at_ok l at_ :
  lent_ok l → l_held l = None → ((at_ = Behind ∨ at_ = Choosing) → (N.of_nat (l_place l) < 2 ^ 32)%N) →
  lent_ok (now_at l at_).
Proof. intros [] Hheld Hsmall. by split; simpl. Qed.

Lemma dropped_ok l : lent_ok l → lent_ok (now_at l Dropped).
Proof. intros []. split; simpl; try done. by intros [|]. Qed.

Lemma lent_new_ok id : lent_ok (lent_new id).
Proof. split; simpl; try done; try lia; by intros [|]. Qed.

Lemma copied_ok l held room : lent_ok l → l_held l = Some held → lent_ok (copied l held room).
Proof.
  intros [Hp Ht Hh _ _ He] Hheld. rewrite Hheld in *. split; simpl; try done; [|by intros [|]|].
  - rewrite Hheld. destruct Hh as (before & Hplace & Hc & Hgiven). exists before. split_and!; [done..|].
    rewrite Hgiven, <-(assoc app). f_equal.
    by rewrite take_take_drop.
  - intros [? ?]%He. done.
Qed.

Lemma let_go_ok l : lent_ok l → unread l = None → lent_ok (let_go l).
Proof.
  intros [Hp Ht Hh _ _ He] Hunread. unfold unread in Hunread.
  split; simpl; try done; [|by intros [|]|by intros [? ?]%He].
  destruct (l_held l) as [c|]; [|done]. destruct Hh as (before & -> & Hc & ->).
  rewrite (take_place _ _ Hc). f_equal. apply take_ge.
  by destruct (Nat.ltb_spec (l_at l) (length c)).
Qed.

Lemma chunk_taken_ok l c :
  lent_ok l → l_held l = None → chunks !! l_place l = Some c → lent_ok (chunk_taken l c).
Proof.
  intros [Hp Ht Hh _ _ He] Hheld Hc. rewrite Hheld in Hh. pose proof (lookup_lt_Some _ _ _ Hc).
  split; simpl; try done; [lia| | |by intros [|]|intros [_ ?]%He; lia].
  - rewrite Nat.add_1_r, (take_place _ _ Hc), length_app. lia.
  - exists (l_place l). split_and!; [lia|done|]. by rewrite app_nil_r.
Qed.

Lemma told_end_ok l :
  lent_ok l → l_held l = None → length chunks ≤ l_place l → lent_ok (told_end l).
Proof. intros [] ? ?. split; simpl; try done. by intros [|]. Qed.

Lemma asking_holds_none l : lent_ok l → l_where l ≠ Idle → l_where l ≠ Dropped → l_held l = None.
Proof. intros Hl. apply (lo_asks _ Hl). Qed.

Lemma share_step_ok s1 s2 : shared_ok s1 → step s1 s2 → shared_ok s2.
Proof.
  intros Hs Hstep.
  assert (∀ n l, lents s1 !! n = Some l → lent_ok l) as Hlents by apply (sh_lents _ Hs).
  assert (∀ id one, heap s1 !! id = Some one → source_ok one) as Hheap by apply (sh_sources _ Hs).
  destruct Hstep as [s looks n now s' id Hn Hlooks Hj|s n l held room Hn Hat Hroom Hheld
    |s n l Hn Hat Hun|s n l looks Hn Hat|s n l looks to one now Hn Hat Hlooks Hmoved Hone|s n l on Hn Hat
    |s n l one why now Hn Hat|s n l one one' c now Hn Hat Hone Hturn|s n l one now Hn Hat Hone Hturn
    |s n l one more now Hn Hat|s n l Hn Hat|s n l one answer r one' failure now Hn Hat Hone Hturn Hnext Hf
    |s n l one now Hn Hat|s n l Hn Hat|s n l looks now s' id Hn Hat Hlooks Hj|s n l Hn Hat];
    try (pose proof (Hlents _ _ Hn) as Hl).
  - pose proof (joined_ok s looks n 0 now s' id Hs (Nat.le_0_l _) eq_refl Hj) as [Hs' _].
    apply with_lent_ok; [done|apply lent_new_ok].
  - apply with_lent_ok; [done|]. unfold unread in Hheld.
    destruct (l_held l) as [c|] eqn:Hc; [|done]. apply copied_ok; [done|].
    rewrite Hc. by destruct (l_at l <? length c).
  - apply with_lent_ok; [done|]. by apply let_go_ok.
  - apply with_lent_ok; [done|]. apply lent_at_ok; [done|apply asking_holds_none; congruence|by intros [|]].
  - apply with_lent_ok; [apply with_source_ok; [done|by eapply with_readers_ok, Hheap]|].
    apply elsewhere_ok; [done|apply asking_holds_none; congruence|by intros [|]].
  - apply with_lent_ok; [by apply leave_ok|].
    apply lent_at_ok; [done|apply asking_holds_none; congruence|by intros [|]].
  - apply with_lent_ok; [done|]. apply lent_at_ok; [done|apply asking_holds_none; congruence|by intros [|]].
  - pose proof (one_read_turns stall one n (l_place l) now) as Hspec. rewrite Hturn in Hspec.
    destruct Hspec as (Hw & Hfirst & _).
    assert (chunks !! l_place l = Some c) as Hc.
    { apply (so_window _ (Hheap _ _ Hone)) in Hw. by rewrite Nat.add_sub_assoc, Nat.add_sub_swap, Nat.sub_diag in Hw by lia. }
    apply with_lent_ok; [apply with_source_ok; [done|]|].
    + unfold chunk_turn in Hturn. repeat case_match; simplify_eq. by eapply with_readers_ok, Hheap.
    + apply chunk_taken_ok; [done|apply asking_holds_none; congruence|done].
  - pose proof (one_read_turns stall one n (l_place l) now) as Hspec. rewrite Hturn in Hspec.
    destruct Hspec as [He Hend]. apply (so_ended _ (Hheap _ _ Hone)) in He.
    apply with_lent_ok; [done|]. apply told_end_ok; [done|apply asking_holds_none; congruence|lia].
  - apply with_lent_ok; [done|]. apply lent_at_ok; [done|apply asking_holds_none; congruence|by intros [|]].
  - apply with_lent_ok; [done|]. apply lent_at_ok; [done|apply asking_holds_none; congruence|by intros [|]].
  - assert (failed one = None) as Hfailed.
    { unfold chunk_turn in Hturn. by destruct (failed one). }
    apply with_lent_ok; [apply with_source_ok; [done|]|].
    + eapply fetched_ok; [by eapply Hheap|done|done|done].
    + apply lent_at_ok; [done|apply asking_holds_none; congruence|]. by destruct failure; intros [|].
  - apply with_lent_ok; [done|]. apply lent_at_ok; [done|apply asking_holds_none; congruence|].
    destruct (N.ltb_spec (N.of_nat (l_place l)) (2 ^ 32)); [done|by intros [|]].
  - apply with_lent_ok; [by apply leave_ok|].
    apply lent_at_ok; [done|apply asking_holds_none; congruence|]. intros _. apply (lo_small _ Hl). by left.
  - rewrite (lo_taken _ Hl) in Hj.
    apply joined_ok in Hj as [Hs' _]; [|done|apply (lo_place _ Hl)|apply (lo_small _ Hl); by right].
    apply with_lent_ok; [done|]. apply elsewhere_ok; [done|apply asking_holds_none; congruence|by intros [|]].
  - apply with_lent_ok; [by apply leave_ok|]. by apply dropped_ok.
Qed.

(** C12. Every departure of a Stream is handed the Stream's own bytes from
    its start, in order, none missing and none twice, whichever reads it
    took them from — however many departures read it, however they fall
    behind, move, fail and come back, whatever each read keeps and however
    their steps fall — and one told the Stream's end was handed all of it. *)
Theorem stream_lent_whole s n l :
  rtc step shared_new s → lents s !! n = Some l →
  l_given l `prefix_of` concat chunks ∧ (l_ended l = true → l_given l = concat chunks).
Proof.
  intros Hrun Hn. assert (shared_ok s) as Hs.
  { eapply (rtc_invariant _ shared_ok); [apply share_step_ok| |exact Hrun]. split; apply map_Forall_empty. }
  destruct (sh_lents _ Hs n l Hn) as [Hp _ Hh _ _ He].
  assert (∀ place, concat (take place chunks) ++ concat (drop place chunks) = concat chunks) as Hall.
  { intros place. by rewrite <-concat_app, take_drop. }
  split.
  - destruct (l_held l) as [c|].
    + destruct Hh as (before & _ & Hc & ->).
      rewrite <-(Hall (S before)), (take_place _ _ Hc), <-(assoc app).
      apply prefix_app, prefix_app_r. exists (drop (l_at l) c). by rewrite take_drop.
    + rewrite Hh, <-(Hall (l_place l)). by apply prefix_app_r.
  - intros [Hheld Hend]%He. rewrite Hheld in Hh. rewrite Hh. by rewrite take_ge.
Qed.
End stream.

(** ** A Stream of one chunk, read by one departure *)

Definition one_chunk : list chunk := [[Corelib.Init.Byte.x2a; Corelib.Init.Byte.x2b]].

(** A reader of it: the chunk it stands at, or the end. *)
Definition one_next (r : nat) (answer : result (option chunk) string) (r' : nat) : Prop :=
  answer = Ok (one_chunk !! r) ∧ r' = (if r <? length one_chunk then S r else r).

Definition one_from (place taken : nat) : nat := place.

#[export] Instance one_chunk_reads : ReadsStream one_from one_next one_chunk (=).
Proof.
  split.
  - done.
  - intros r place c r' <- [[= Hc] ->]. symmetry in Hc. split; [done|].
    apply lookup_lt_Some in Hc. by apply Nat.ltb_lt in Hc as ->.
  - intros r place r' <- [[= Hc] ->]. symmetry in Hc. apply lookup_ge_None in Hc.
    split; [done|]. by apply Nat.ltb_ge in Hc as ->.
Qed.

(** Begun, its chunk read from Storage and lent, the chunk handed over, and
    the end told. *)
Lemma one_departure :
  ∃ s l, rtc (share_step one_from one_next 100) shared_new s ∧ lents s !! 0 = Some l ∧
    l_ended l = true.
Proof.
  eexists _, _. split; [|split].
  - eapply rtc_l; [by eapply (share_reader _ _ _ _ [] 0 0)|].
    eapply rtc_l; [by eapply (share_takes _ _ _ _ 0)|].
    eapply rtc_l; [by eapply (share_stays _ _ _ _ 0 _ [{| look_read := 0; look_reaches := true; look_readers := 1 |}])|].
    eapply rtc_l; [by eapply (share_reads _ _ _ _ 0)|].
    eapply rtc_l; [by eapply (share_gives _ _ _ _ 0)|].
    eapply rtc_l; [by eapply (share_copies _ _ _ _ 0 _ _ 8); try lia|].
    eapply rtc_l; [by eapply (share_takes _ _ _ _ 0)|].
    eapply rtc_l; [by eapply (share_stays _ _ _ _ 0 _ [{| look_read := 0; look_reaches := true; look_readers := 1 |}])|].
    eapply rtc_l; [by eapply (share_reads _ _ _ _ 0)|].
    apply rtc_once. by eapply (share_ends _ _ _ _ 0).
  - done.
  - done.
Unshelve. all: exact 0%N.
Qed.

Lemma stream_lent_whole_witness :
  ∃ s l, rtc (share_step one_from one_next 100) shared_new s ∧ lents s !! 0 = Some l ∧
    l_given l = [Corelib.Init.Byte.x2a; Corelib.Init.Byte.x2b].
Proof.
  destruct one_departure as (s & l & Hrun & Hl & Hended). exists s, l. split; [done|]. split; [done|].
  exact (proj2 (stream_lent_whole one_from one_next 100 one_chunk (=) s 0 l Hrun Hl) Hended).
Defined.
