(* ===== verification/Fresh.v ===== *)
(** * The nonces a node issues its relays: [src/plane/fresh.rs]

    What is outstanding, to whom, for which listener and until when; issued
    by [issue], spent by [spend]. What the random source draws is whatever
    it draws that is not outstanding; a time is a moment of one clock. The
    machine [fresh_step] keeps beside the table every nonce ever issued and
    every one found good, by its number in the order issued. *)

From Stdlib Require Import Ascii String.
From stdpp Require Import base numbers list gmap strings relations.
From S2P Require Import Prelude Journey Storage.

#[export] Instance byte_countable : Countable Byte.byte.
Proof. apply (inj_countable Strings.Byte.to_N Strings.Byte.of_N), Strings.Byte.of_to_N. Defined.

Definition WITHIN : N := 30 * 10 ^ 9.
Definition AT_ONCE : nat := 32.
Definition MOST : N := 65536.
Definition LENGTH : nat := 16.

(** [Issued]. *)
Record Issued := { i_through : string; i_listener : bytes; i_until : N }.

(** [Fresh]'s table. *)
Abbreviation Outstanding := (gmap bytes Issued).

(** ** The operations *)

(** The stale dropped where as many as are asked for would reach the most:
    the addition is [usize]'s, with its wrap-around. *)
Definition made_room (held : Outstanding) (count now : N) : Outstanding :=
  if (MOST <=? u64_add (N.of_nat (size held)) count)%N
  then filter (λ p, now < i_until p.2)%N held else held.

(** How many are issued. *)
Definition given (held : Outstanding) (count now : N) : N :=
  N.min (N.min count (N.of_nat AT_ONCE)) (MOST - N.of_nat (size (made_room held count now))).

Fixpoint inserted (held : Outstanding) (drawn : list bytes) (one : Issued) : Outstanding :=
  match drawn with
  | [] => held
  | nonce :: rest => inserted (<[nonce := one]> held) rest one
  end.

(** [Fresh::issue], where the random source drew [drawn]. *)
Definition issue (held : Outstanding) (through : string) (listener : bytes) (now : N)
    (count : N) (drawn : list bytes) : Outstanding :=
  inserted (made_room held count now) drawn
    {| i_through := through; i_listener := listener; i_until := now + WITHIN |}.

(** What it may draw: so many, each of the length, none outstanding and none
    twice. *)
Definition draws (held : Outstanding) (count now : N) (drawn : list bytes) : Prop :=
  N.of_nat (length drawn) = given held count now ∧ NoDup drawn ∧
  Forall (λ nonce, length nonce = LENGTH ∧ made_room held count now !! nonce = None) drawn.

(** One nonce of a list spent: the table without it, and what it was issued
    as where it is this relay's and fresh. *)
Definition spend_one (held : Outstanding) (nonce : bytes) (through : string) (now : N) :
    Outstanding * option Issued :=
  if negb (length nonce =? LENGTH) then (held, None)
  else
    match held !! nonce with
    | None => (held, None)
    | Some one =>
        (delete nonce held,
         if bool_decide (i_through one = through) && (now <? i_until one)%N then Some one else None)
    end.

(** [Fresh::spend]: the first found, and every one of the list spent. *)
Fixpoint spending (held : Outstanding) (nonces : list bytes) (through : string) (now : N)
    (found : option (bytes * Issued)) : Outstanding * option (bytes * Issued) :=
  match nonces with
  | [] => (held, found)
  | nonce :: rest =>
      let '(held, one) := spend_one held nonce through now in
      let found := match found, one with None, Some one => Some (nonce, one) | _, _ => found end in
      spending held rest through now found
  end.

Definition spend (held : Outstanding) (nonces : list bytes) (through : string) (now : N) :
    Outstanding * option bytes :=
  let '(held, found) := spending held nonces through now None in
  (held, i_listener ∘ snd <$> found).

(** ** Issued and spent, in any order *)

(** Every issuance by its number, the number of each nonce outstanding, and
    the numbers found good, each with who spent it and when. *)
Record Nonces := {
  f_held : Outstanding;
  f_log : list (bytes * Issued);
  f_numbers : gmap bytes nat;
  f_good : list (nat * string * N)
}.

Definition nonces_new : Nonces := {| f_held := ∅; f_log := []; f_numbers := ∅; f_good := [] |}.

Fixpoint numbered (numbers : gmap bytes nat) (drawn : list bytes) (next : nat) : gmap bytes nat :=
  match drawn with
  | [] => numbers
  | nonce :: rest => numbered (<[nonce := next]> numbers) rest (S next)
  end.

Inductive fresh_step : Nonces → Nonces → Prop :=
  | fresh_issues s through listener now count drawn :
      draws (f_held s) count now drawn →
      fresh_step s
        {| f_held := issue (f_held s) through listener now count drawn;
           f_log := f_log s ++
             ((λ nonce, (nonce, {| i_through := through; i_listener := listener;
                                   i_until := now + WITHIN |})) <$> drawn);
           f_numbers := numbered (f_numbers s) drawn (length (f_log s));
           f_good := f_good s |}
  | fresh_spends s nonces through now held found :
      spending (f_held s) nonces through now None = (held, found) →
      fresh_step s
        {| f_held := held; f_log := f_log s; f_numbers := f_numbers s;
           f_good := f_good s ++
             match found with
             | Some (nonce, _) =>
                 match f_numbers s !! nonce with Some k => [(k, through, now)] | None => [] end
             | None => []
             end |}.

(** Each nonce outstanding is the issuance its number says, none of them
    found good yet, and no two by one number. *)
Record nonces_ok (s : Nonces) : Prop := {
  n_held : ∀ nonce one, f_held s !! nonce = Some one →
    ∃ k, f_numbers s !! nonce = Some k ∧ f_log s !! k = Some (nonce, one) ∧
      k ∉ (f_good s).*1.*1;
  n_good : ∀ k who at_, (k, who, at_) ∈ f_good s →
    ∃ nonce one, f_log s !! k = Some (nonce, one) ∧ i_through one = who ∧ (at_ < i_until one)%N;
  n_once : NoDup (f_good s).*1.*1;
  n_room : (N.of_nat (size (f_held s)) ≤ MOST)%N
}.

Lemma made_room_held held count now nonce one :
  made_room held count now !! nonce = Some one → held !! nonce = Some one.
Proof. unfold made_room. destruct (_ <=? _)%N; [|done]. by intros [? _]%map_lookup_filter_Some. Qed.

Lemma made_room_size held count now : size (made_room held count now) ≤ size held.
Proof.
  unfold made_room. destruct (_ <=? _)%N; [|done]. apply map_size_filter.
Qed.

Lemma inserted_lookup held drawn one nonce :
  inserted held drawn one !! nonce = if decide (nonce ∈ drawn) then Some one else held !! nonce.
Proof.
  revert held. induction drawn as [|first rest IH]; intros held; simpl; [done|]. rewrite IH.
  destruct (decide (nonce ∈ rest)) as [Hin|Hnot], (decide (nonce ∈ first :: rest)) as [Hin'|Hnot'];
    try set_solver.
  - apply elem_of_cons in Hin' as [->|]; [by rewrite lookup_insert_eq|done].
  - rewrite lookup_insert_ne; [done|set_solver].
Qed.

Lemma inserted_size held drawn one :
  NoDup drawn → Forall (λ nonce, held !! nonce = None) drawn →
  size (inserted held drawn one) = size held + length drawn.
Proof.
  revert held. induction drawn as [|first rest IH]; intros held; simpl; [lia|].
  intros [Hfirst Hnd]%NoDup_cons [Hnone Hall]%Forall_cons. rewrite IH; [|done|].
  - rewrite map_size_insert_None by done. lia.
  - rewrite Forall_forall in Hall |- *. intros nonce Hin.
    rewrite lookup_insert_ne by set_solver. by apply Hall.
Qed.

Lemma numbered_drawn numbers drawn next j nonce :
  NoDup drawn → drawn !! j = Some nonce → numbered numbers drawn next !! nonce = Some (next + j).
Proof.
  revert numbers next j. induction drawn as [|first rest IH]; intros numbers next j; [done|].
  intros [Hfirst Hnd]%NoDup_cons Hj. simpl. destruct j as [|j]; simpl in Hj.
  - injection Hj as ->. rewrite Nat.add_0_r. clear IH Hnd. revert next.
    assert (∀ numbers next, nonce ∉ rest → numbered numbers rest next !! nonce = numbers !! nonce) as Hout.
    { clear. induction rest as [|one rest IH]; intros numbers next; [done|].
      intros [Hne Hnot]%not_elem_of_cons. simpl. rewrite IH by done. by rewrite lookup_insert_ne. }
    intros next. rewrite Hout by done. by rewrite lookup_insert_eq.
  - rewrite (IH _ _ j) by done. f_equal. lia.
Qed.

Lemma numbered_other numbers drawn next nonce :
  nonce ∉ drawn → numbered numbers drawn next !! nonce = numbers !! nonce.
Proof.
  revert numbers next. induction drawn as [|one rest IH]; intros numbers next; [done|].
  intros [Hne Hnot]%not_elem_of_cons. simpl. rewrite IH by done. by rewrite lookup_insert_ne.
Qed.

(** One nonce spent is outstanding no more, and found only where it was this
    relay's and fresh. *)
Lemma spend_one_spec held nonce through now held' one :
  spend_one held nonce through now = (held', one) →
  (∀ other o, held' !! other = Some o → held !! other = Some o ∧ (length nonce = LENGTH → other ≠ nonce)) ∧
  (∀ o, one = Some o → held !! nonce = Some o ∧ held' !! nonce = None ∧
     i_through o = through ∧ (now < i_until o)%N).
Proof.
  unfold spend_one. destruct (Nat.eqb_spec (length nonce) LENGTH) as [Hl|Hl]; simpl.
  - destruct (held !! nonce) as [o|] eqn:Ho.
    + intros [= <- <-]. split.
      * by intros other o' [Hne Ho']%lookup_delete_Some.
      * intros o'. case_bool_decide; simpl; [|done]. destruct (N.ltb_spec now (i_until o)); [|done].
        intros [= <-]. by rewrite lookup_delete_eq.
    + intros [= <- <-]. split; [|done]. intros other o Hother. split; [done|]. congruence.
  - intros [= <- <-]. split; [|done]. intros other o Hother. by split.
Qed.

(** A list spent: none of it is outstanding after, and what was found was. *)
Lemma spending_spec held nonces through now found held' found' :
  spending held nonces through now found = (held', found') →
  (∀ other o, held' !! other = Some o → held !! other = Some o ∧
     (other ∈ nonces → length other ≠ LENGTH)) ∧
  (found' = found ∨ found = None ∧ ∃ nonce o, found' = Some (nonce, o) ∧ held !! nonce = Some o ∧
     held' !! nonce = None ∧ i_through o = through ∧ (now < i_until o)%N).
Proof.
  revert held found. induction nonces as [|nonce rest IH]; intros held found; simpl.
  { intros [= <- <-]. split; [|by left]. intros other o Ho. split; [done|]. by intros ?%elem_of_nil. }
  destruct (spend_one held nonce through now) as [held1 one] eqn:Hone.
  apply spend_one_spec in Hone as [Hkeeps Hfound]. intros Hrest.
  apply IH in Hrest as [Hkeeps' Hfound']. split.
  - intros other o Ho. destruct (Hkeeps' _ _ Ho) as [Ho1 Hnot]. destruct (Hkeeps _ _ Ho1) as [Ho0 Hne].
    split; [done|]. intros [->|Hin]%elem_of_cons; [|by apply Hnot]. intros Hl. by apply Hne.
  - destruct found as [f|].
    { left. destruct Hfound' as [->|[? _]]; [|done]. by destruct one. }
    destruct one as [o|].
    + destruct (Hfound o eq_refl) as (Ho & Hgone & Hwho & Hfresh).
      destruct Hfound' as [->|[? _]]; [|done]. right. split; [done|]. exists nonce, o.
      split_and!; [done..| |done|done]. destruct (held' !! nonce) as [o'|] eqn:Ho'; [|done].
      destruct (Hkeeps' _ _ Ho') as [? _]. congruence.
    + destruct Hfound' as [->|(_ & n & o & -> & Ho & Hgone & Hwho & Hfresh)]; [by left|].
      right. split; [done|]. exists n, o. destruct (Hkeeps _ _ Ho) as [? _]. done.
Qed.

(** What is found was found before, or is of the list. *)
Lemma spending_found held nonces through now found held' found' :
  spending held nonces through now found = (held', found') →
  found' = found ∨ ∃ nonce o, found' = Some (nonce, o) ∧ nonce ∈ nonces.
Proof.
  revert held found. induction nonces as [|nonce rest IH]; intros held found; simpl; [intros [= _ <-]; by left|].
  destruct (spend_one held nonce through now) as [held1 one]. intros [->|(n & o & -> & Hin)]%IH.
  - destruct found as [f|]; [by left|]. destruct one as [o|]; [|by left].
    right. exists nonce, o. split; [done|]. apply list_elem_of_here.
  - right. exists n, o. split; [done|]. by apply list_elem_of_further.
Qed.

Lemma good_numbered (good : list (nat * string * N)) k :
  k ∈ good.*1.*1 → ∃ who at_, (k, who, at_) ∈ good.
Proof.
  intros ([k1 who] & -> & Hin)%list_elem_of_fmap. apply list_elem_of_fmap in Hin as ([[k2 who2] at_] & Heq & Hin).
  injection Heq as -> ->. by exists who2, at_.
Qed.

Lemma fresh_step_ok s1 s2 : nonces_ok s1 → fresh_step s1 s2 → nonces_ok s2.
Proof.
  intros [Hheld Hgood Honce Hroom] Hstep.
  destruct Hstep as [s through listener now count drawn (Hlen & Hnd & Hall)|s nonces through now held found Hsp].
  - split; simpl; [| |done|].
    + intros nonce one. unfold issue. rewrite inserted_lookup.
      destruct (decide (nonce ∈ drawn)) as [Hin|Hnot].
      * intros [= <-]. apply list_elem_of_lookup in Hin as [j Hj].
        exists (length (f_log s) + j). split; [by apply numbered_drawn|]. split.
        -- rewrite lookup_app_r by lia. rewrite Nat.add_comm, Nat.add_sub, list_lookup_fmap. by rewrite Hj.
        -- intros (who & at_ & Hin)%good_numbered.
           apply Hgood in Hin as (? & ? & Hlog & _). apply lookup_lt_Some in Hlog. lia.
      * intros Ho%made_room_held. destruct (Hheld _ _ Ho) as (k & Hk & Hlog & Hnot').
        exists k. split; [by rewrite numbered_other|]. split; [|done].
        apply lookup_app_l_Some; done.
    + intros k who at_ Hin. destruct (Hgood _ _ _ Hin) as (nonce & one & Hlog & ?).
      exists nonce, one. split; [|done]. by apply lookup_app_l_Some.
    + unfold issue. rewrite inserted_size; [|done|].
      * pose proof (made_room_size (f_held s) count now). unfold given in Hlen. lia.
      * eapply Forall_impl; [exact Hall|]. by intros nonce [_ ?].
  - apply spending_spec in Hsp as [Hkeeps Hfound]. split; simpl.
    + intros nonce one Ho. destruct (Hkeeps _ _ Ho) as [Ho' _].
      destruct (Hheld _ _ Ho') as (k & Hk & Hlog & Hnot). exists k. split; [done|]. split; [done|].
      rewrite !fmap_app, not_elem_of_app. split; [done|].
      destruct Hfound as [->|(_ & n & o & -> & Hn & Hgone & _)]; [by intros ?%elem_of_nil|].
      destruct (f_numbers s !! n) as [k'|] eqn:Hk'; [|by intros ?%elem_of_nil].
      intros ->%list_elem_of_singleton. simpl in Hlog. destruct (Hheld _ _ Hn) as (k'' & Hk'' & Hlog' & _).
      assert (k'' = k') as -> by congruence. assert (nonce = n) as -> by congruence. congruence.
    + intros k who at_ [Hin|Hin]%elem_of_app; [by apply Hgood|].
      destruct Hfound as [->|(_ & n & o & -> & Hn & Hgone & Hwho & Hfresh)]; [by apply elem_of_nil in Hin|].
      destruct (Hheld _ _ Hn) as (k' & Hk' & Hlog & _). rewrite Hk' in Hin.
      apply list_elem_of_singleton in Hin as [= -> -> ->]. by exists n, o.
    + rewrite !fmap_app. destruct Hfound as [->|(_ & n & o & -> & Hn & Hgone & _)]; [by rewrite app_nil_r|].
      destruct (Hheld _ _ Hn) as (k' & Hk' & Hlog & Hnot). rewrite Hk'. simpl.
      apply NoDup_app. split; [done|]. split; [|apply NoDup_singleton].
      intros k Hk ->%list_elem_of_singleton. done.
    + destruct (Nat.le_gt_cases (size held) (size (f_held s))) as [|Hgt]; [lia|].
      exfalso. assert (held ⊆ f_held s) as Hsub.
      { apply map_subseteq_spec. intros n o Ho. by apply Hkeeps. }
      apply map_subseteq_size in Hsub. lia.
Qed.

(** C13. Every nonce a node issued is good once at most, and only for the
    account it was issued to, within its time: whatever relays ask and
    present, in whatever order, no issuance is ever found good twice, each
    found good names the listener of that very issuance, and a node never
    holds more of them than its most. *)
Theorem nonce_spent_once s :
  rtc fresh_step nonces_new s →
  NoDup (f_good s).*1.*1 ∧ (N.of_nat (size (f_held s)) ≤ MOST)%N ∧
  ∀ k who at_, (k, who, at_) ∈ f_good s →
    ∃ nonce one, f_log s !! k = Some (nonce, one) ∧ i_through one = who ∧ (at_ < i_until one)%N.
Proof.
  intros Hrun. assert (nonces_ok s) as [Hheld Hgood Honce Hroom].
  { eapply (rtc_invariant _ nonces_ok); [apply fresh_step_ok| |exact Hrun].
    split; simpl; [done|by intros ??? ?%elem_of_nil|constructor|]. rewrite map_size_empty. done. }
  by split_and!.
Qed.

(** One nonce issued, then handed back twice in one list: good once. *)
Definition a_nonce : bytes := replicate 16 Corelib.Init.Byte.x2a.

Lemma one_spent :
  ∃ s, rtc fresh_step nonces_new s ∧ f_good s = [(0, "gui"%string, 7%N)].
Proof.
  eexists. split.
  - eapply rtc_l; [apply (fresh_issues nonces_new "gui" [] 5 1 [a_nonce])|].
    { split; [by vm_compute|]. split; [apply NoDup_singleton|]. by repeat constructor. }
    apply rtc_once. eapply (fresh_spends _ [a_nonce; a_nonce] "gui" 7). by vm_compute.
  - by vm_compute.
Qed.

Lemma nonce_spent_once_witness :
  ∃ s, f_good s = [(0, "gui"%string, 7%N)] ∧
    ∃ nonce one, f_log s !! 0 = Some (nonce, one) ∧ i_through one = "gui"%string.
Proof.
  destruct one_spent as (s & Hrun & Hgood). exists s. split; [exact Hgood|].
  destruct (proj2 (proj2 (nonce_spent_once s Hrun)) 0 "gui"%string 7%N) as (nonce & one & Hlog & Hwho & _).
  - rewrite Hgood. apply list_elem_of_singleton. reflexivity.
  - exists nonce, one. exact (conj Hlog Hwho).
Defined.
