(* ===== verification/Vouched.v ===== *)
(** * The callers a relay vouched for: [src/plane/vouched.rs], [src/plane/possessed.rs], [src/plane/handle.rs]

    A relay's handshake proved ([possessed]), its browser's chain verified
    once while its path is valid ([verified_once]), and the caller held
    behind a handle until its certificate ends or the relay lets it go
    ([vouch], [proven], [unvouch]). A vouch reads the clock three times — as
    it begins, as it looks its chain up and as it verifies it ([Moments]) —
    and each of the others once. The table drops what has ended only when it
    is full or asked after; [Spec] never does, and [vouched_refines] shows
    nobody can tell; [vouched_for_exactly] says when a Vouch is answered a
    handle, and what every refusal leaves. Reading, verifying and naming a
    certificate and checking a handshake are other crates'
    ([authenticate::x509], [plane::caller] over the gate, [tls::possession]);
    relays are asked one after another here. *)

From Stdlib Require Import Ascii String.
From stdpp Require Import base numbers list gmap strings relations.
From S2P Require Import Prelude Journey Storage Fresh.

Local Open Scope Z_scope.

Definition MOST_HELD : nat := Z.to_nat 65536.
Definition KNOWN : nat := Z.to_nat 1024.

#[local] Opaque MOST_HELD KNOWN.

Abbreviation chain := (list bytes).

Section vouched.
(** An identity the gate answered, whether it is called proven, and its
    name; a chain read, its path, the path's end. *)
Context {Identity Read Path : Type} (is_proven : Identity → bool) (value : Identity → string).
Context (from_der : chain → result Read string) (verify : Read → Z → result Path string)
  (certificate : bytes → result Identity string) (not_after : Path → result Z string).

(** [Vouched], and [Known]. *)
Record Vouched := { v_identity : Identity; v_until : Z; v_through : string }.

Definition Known : Type := Identity * Z.

(** [Relaying]'s two tables. *)
Record Relaying := { r_vouched : gmap N Vouched; r_known : gmap chain Known }.

Definition relaying_new : Relaying := {| r_vouched := ∅; r_known := ∅ |}.

Definition with_vouched (r : Relaying) (v : gmap N Vouched) : Relaying :=
  {| r_vouched := v; r_known := r_known r |}.

Definition with_known (r : Relaying) (k : gmap chain Known) : Relaying :=
  {| r_vouched := r_vouched r; r_known := k |}.

(** [verified]. *)
Definition verified (c : chain) (now : Z) : result Known string :=
  match c with
  | [] => Err "REFUSED. The chain is empty"%string
  | leaf :: _ =>
      let? read := from_der c in
      match verify read now with
      | Err failed => Err ("REFUSED. The certificate: " +:+ failed)%string
      | Ok path =>
          let? identity := certificate leaf in
          if is_proven identity then
            let? until := not_after path in Ok (identity, until)
          else Err ("REFUSED. " +:+ value identity +:+ " is not proven")%string
      end
  end.

(** The clock's three readings in one vouch. *)
Record Moments := { began : Z; looked : Z; verifying : Z }.

Definition ordered (m : Moments) : Prop := began m ≤ looked m ≤ verifying m.

(** [Relaying::verified_once]. *)
Definition verified_once (r : Relaying) (c : chain) (m : Moments) : Relaying * result Known string :=
  let known := filter (λ p : chain * Known, looked m < p.2.2) (r_known r) in
  let r := with_known r known in
  match known !! c with
  | Some kept => (r, Ok kept)
  | None =>
      match verified c (verifying m) with
      | Err why => (r, Err why)
      | Ok found =>
          (with_known r (<[c := found]> (if (KNOWN <=? size known)%nat then ∅ else known)), Ok found)
      end
  end.

(** The ended dropped, where the table is full. *)
Definition purged (v : gmap N Vouched) (now : Z) : gmap N Vouched :=
  if (MOST_HELD <=? size v)%nat then filter (λ p : N * Vouched, now < v_until p.2) v else v.

Definition FULL : string := "REFUSED. The node holds 65536 relayed callers already".

(** [vouch], where the random source drew [drawn] ([handle::drawn]). *)
Definition vouch (r : Relaying) (through : string) (c : chain) (m : Moments) (drawn : N) :
    Relaying * result N string :=
  match verified_once r c m with
  | (r, Err why) => (r, Err why)
  | (r, Ok (identity, until)) =>
      let v := purged (r_vouched r) (began m) in
      if (MOST_HELD <=? size v)%nat then (with_vouched r v, Err FULL)
      else (with_vouched r (<[drawn := {| v_identity := identity; v_until := until;
                                          v_through := through |}]> v), Ok drawn)
  end.

(** [proven]. *)
Definition proven (r : Relaying) (handle : N) (through : string) (now : Z) :
    Relaying * option Identity :=
  match r_vouched r !! handle with
  | None => (r, None)
  | Some caller =>
      if v_until caller <=? now then (with_vouched r (delete handle (r_vouched r)), None)
      else (r, if bool_decide (v_through caller = through) then Some (v_identity caller) else None)
  end.

(** [unvouch]. *)
Definition unvouch (r : Relaying) (handle : N) (through : string) : Relaying * bool :=
  match r_vouched r !! handle with
  | Some caller =>
      if bool_decide (v_through caller = through)
      then (with_vouched r (delete handle (r_vouched r)), true) else (r, false)
  | None => (r, false)
  end.

(** ** The registry's operations and answers *)

Inductive Op :=
  | OpVouch (through : string) (c : chain) (drawn : N) (m : Moments)
  | OpProven (handle : N) (through : string) (now : Z)
  | OpUnvouch (handle : N) (through : string) (now : Z).

Inductive Answer :=
  | AnsVouch (handle : result N string)
  | AnsProven (who : option Identity)
  | AnsUnvouch (was : bool).

Definition starts (op : Op) : Z :=
  match op with OpVouch _ _ _ m => began m | OpProven _ _ now | OpUnvouch _ _ now => now end.

Definition ends (op : Op) : Z :=
  match op with OpVouch _ _ _ m => verifying m | OpProven _ _ now | OpUnvouch _ _ now => now end.

Definition do_op (r : Relaying) (op : Op) : Relaying * Answer :=
  match op with
  | OpVouch through c drawn m => let '(r, a) := vouch r through c m drawn in (r, AnsVouch a)
  | OpProven handle through now => let '(r, a) := proven r handle through now in (r, AnsProven a)
  | OpUnvouch handle through _ => let '(r, a) := unvouch r handle through in (r, AnsUnvouch a)
  end.

(** [handle::drawn]: never 0 and never a handle taken; and the clock does
    not run back within one operation. *)
Definition asked_rightly (r : Relaying) (op : Op) : Prop :=
  match op with
  | OpVouch _ c drawn m =>
      drawn ≠ 0%N ∧ purged (r_vouched r) (began m) !! drawn = None ∧ ordered m
  | _ => True
  end.

(** Operations asked one after another. *)
Inductive runs : Relaying → list Op → list Answer → Relaying → Prop :=
  | runs_none r : runs r [] [] r
  | runs_one r op r' a ops answers r'' :
      asked_rightly r op → do_op r op = (r', a) → runs r' ops answers r'' →
      runs r (op :: ops) (a :: answers) r''.

(** ** What it promises *)

(** The callers vouched for and not let go, ended or not. *)
Abbreviation Spec := (gmap N Vouched).

Definition live (v : Vouched) (now : Z) : Prop := now < v_until v.

(** A caller's identity and end are what verifying its chain answered — in
    this vouch, or before it, its path not ended since. *)
Definition vouched_rightly (c : chain) (m : Moments) (v : Vouched) : Prop :=
  ∃ t, t ≤ verifying m ∧ verified c t = Ok (v_identity v, v_until v) ∧
    (t = verifying m ∨ live v (looked m)).

Inductive spec_step : Spec → Op → Answer → Spec → Prop :=
  | spec_vouches s through c drawn m v :
      drawn ≠ 0%N → (∀ old, s !! drawn = Some old → ¬ live old (began m)) →
      v_through v = through → vouched_rightly c m v →
      spec_step s (OpVouch through c drawn m) (AnsVouch (Ok drawn)) (<[drawn := v]> s)
  | spec_refuses s through c drawn m why :
      verified c (verifying m) = Err why →
      spec_step s (OpVouch through c drawn m) (AnsVouch (Err why)) s
  | spec_full s through c drawn m :
      (MOST_HELD ≤ size (filter (λ p : N * Vouched, (began m < v_until p.2)%Z) s))%nat →
      spec_step s (OpVouch through c drawn m) (AnsVouch (Err FULL)) s
  | spec_proven s handle through now who :
      (∀ identity, who = Some identity ↔
         ∃ v, s !! handle = Some v ∧ live v now ∧ v_through v = through ∧ v_identity v = identity) →
      spec_step s (OpProven handle through now) (AnsProven who) s
  | spec_unvouches s handle through now v was :
      s !! handle = Some v → v_through v = through → (live v now → was = true) →
      spec_step s (OpUnvouch handle through now) (AnsUnvouch was) (delete handle s)
  | spec_keeps s handle through now :
      (∀ v, s !! handle = Some v → v_through v ≠ through) →
      spec_step s (OpUnvouch handle through now) (AnsUnvouch false) s.

Inductive spec_runs : Spec → list Op → list Answer → Spec → Prop :=
  | spec_runs_none s : spec_runs s [] [] s
  | spec_runs_one s op s' a ops answers s'' :
      spec_step s op a s' → spec_runs s' ops answers s'' →
      spec_runs s (op :: ops) (a :: answers) s''.

(** ** Nobody can tell them apart *)

(** The registry holds only what is vouched for and not let go, and all of
    it that has not ended; and it knows chains by what verifying them
    answered before. *)
Record tells (r : Relaying) (s : Spec) (now : Z) : Prop := {
  t_within : r_vouched r ⊆ s;
  t_live : ∀ handle v, s !! handle = Some v → live v now → r_vouched r !! handle = Some v;
  t_known : ∀ c k, r_known r !! c = Some k → ∃ t, t ≤ now ∧ verified c t = Ok k
}.

Lemma live_before v now before : live v now → before ≤ now → live v before.
Proof. unfold live. lia. Qed.

Lemma tells_later r s now now' : tells r s now → now ≤ now' → tells r s now'.
Proof.
  intros [Hw Hl Hk] Hle. split; [done| |].
  - intros handle v Hv Hlive. apply Hl; [done|]. by eapply live_before.
  - intros c k (t & Ht & Hc)%Hk. exists t. split; [lia|done].
Qed.

Lemma purged_within v now : purged v now ⊆ v.
Proof. unfold purged. destruct (_ <=? _)%nat; [apply map_filter_subseteq|done]. Qed.

Lemma purged_live v now handle one : v !! handle = Some one → live one now → purged v now !! handle = Some one.
Proof.
  intros Hv Hlive. unfold purged. destruct (_ <=? _)%nat; [|done]. by apply map_lookup_filter_Some.
Qed.

(** A registry still full once purged holds as many that have not ended. *)
Lemma purged_full v now s :
  v ⊆ s → (MOST_HELD ≤ size (purged v now))%nat →
  (MOST_HELD ≤ size (filter (λ p : N * Vouched, (now < v_until p.2)%Z) s))%nat.
Proof.
  intros Hsub. unfold purged. destruct (Nat.leb_spec MOST_HELD (size v)) as [_|Hlt]; intros Hfull.
  - etrans; [exact Hfull|]. apply map_subseteq_size, map_subseteq_spec.
    intros h one [Hone Hlt]%map_lookup_filter_Some. apply map_lookup_filter_Some.
    split; [by eapply lookup_weaken|done].
  - exfalso. by apply Nat.lt_nge in Hlt.
Qed.

Lemma verified_once_spec r s c m r' found now :
  tells r s now → now ≤ verifying m → verified_once r c m = (r', found) →
  tells r' s (verifying m) ∧ r_vouched r' = r_vouched r ∧
  match found with
  | Ok k => ∃ t, t ≤ verifying m ∧ verified c t = Ok k ∧ (t = verifying m ∨ looked m < k.2)
  | Err why => verified c (verifying m) = Err why
  end.
Proof.
  intros Ht Hle. destruct (tells_later _ _ _ _ Ht Hle) as [Hw Hl Hk]. unfold verified_once.
  set (known := filter (λ p : chain * Known, looked m < p.2.2) (r_known r)).
  assert (∀ c k, known !! c = Some k →
    (∃ t, t ≤ verifying m ∧ verified c t = Ok k) ∧ looked m < k.2) as Hknown.
  { intros c' k [Hc' Hlt]%map_lookup_filter_Some. split; [by apply Hk|done]. }
  destruct (known !! c) as [kept|] eqn:Hkept.
  - intros [= <- <-]. destruct (Hknown _ _ Hkept) as [(t & Hle' & Hc) Hlt].
    split; [|split; [done|]].
    + split; simpl; [done|done|]. intros c' k Hc'. by apply Hknown.
    + exists t. split_and!; [done|done|by right].
  - destruct (verified c (verifying m)) as [k|why] eqn:Hc; intros [= <- <-].
    + split; [|split; [done|]].
      * split; simpl; [done|done|]. intros c' k'. rewrite lookup_insert_Some.
        intros [[<- <-]|[_ Hc']]; [by exists (verifying m)|].
        destruct (_ <=? _)%nat; [done|]. by apply Hknown.
      * exists (verifying m). split_and!; [lia|done|by left].
    + split; [|split; done]. split; simpl; [done|done|]. intros c' k Hc'. by apply Hknown.
Qed.

Lemma vouch_refines r s through c drawn m r' a now :
  tells r s now → now ≤ began m → asked_rightly r (OpVouch through c drawn m) →
  vouch r through c m drawn = (r', a) →
  ∃ s', spec_step s (OpVouch through c drawn m) (AnsVouch a) s' ∧ tells r' s' (verifying m).
Proof.
  intros Ht Hnow (Hzero & Hfree & Hord). unfold ordered in Hord. unfold vouch.
  destruct (verified_once r c m) as [r1 found] eqn:Honce.
  destruct (verified_once_spec r s c m r1 found now Ht) as (Ht1 & Hsame & Hfound); [lia|done|].
  destruct found as [[identity until]|why]; [|intros [= <- <-]; exists s; split; [by apply spec_refuses|done]].
  rewrite <-Hsame in Hfree. destruct Ht1 as [Hw Hl Hk]. set (v := purged (r_vouched r1) (began m)) in *.
  assert (∀ h one, s !! h = Some one → live one (began m) → v !! h = Some one) as Hkept.
  { intros h one Hone Hlive. apply purged_live; [|done]. rewrite Hsame.
    destruct Ht as [_ Hl' _]. by apply Hl'; [|eapply live_before]. }
  assert (v ⊆ s) as Hws by (by etrans; [apply purged_within|]).
  destruct (Nat.leb_spec MOST_HELD (size v)) as [Hfull|Hroom]; intros [= <- <-].
  - exists s. split; [by apply spec_full, (purged_full (r_vouched r1))|].
    split; simpl; [done| |done]. intros h one Hone Hlive. by apply Hkept; [|eapply live_before; [exact Hlive|lia]].
  - set (one := {| v_identity := identity; v_until := until; v_through := through |}).
    exists (<[drawn := one]> s). split.
    + destruct Hfound as (t & Hle & Hc & Hwhen). apply spec_vouches; [done| |done|by exists t].
      intros old Hold Hlive. specialize (Hkept _ _ Hold Hlive). congruence.
    + split; simpl; [by apply insert_mono| |done]. intros h w Hw' Hlive. rewrite lookup_insert_Some.
      apply lookup_insert_Some in Hw' as [[<- <-]|[Hne Hone]]; [by left|]. right. split; [done|].
      by apply Hkept; [|eapply live_before; [exact Hlive|lia]].
Qed.

Lemma proven_refines r s handle through now r' a :
  tells r s now → proven r handle through now = (r', a) →
  spec_step s (OpProven handle through now) (AnsProven a) s ∧ tells r' s now.
Proof.
  intros Ht. unfold proven. destruct (r_vouched r !! handle) as [caller|] eqn:Hcaller.
  - pose proof (lookup_weaken _ _ _ _ Hcaller (t_within _ _ _ Ht)) as Hs.
    destruct (Z.leb_spec (v_until caller) now) as [Hended|Hlive]; intros [= <- <-].
    + split.
      * apply spec_proven. intros identity. split; [done|].
        intros (v & Hv & Hlive & _). simplify_eq. unfold live in Hlive. lia.
      * destruct Ht as [Hw Hl Hk]. split; simpl; [by etrans; [apply delete_subseteq|]| |done].
        intros h v Hv Hlive. rewrite lookup_delete_ne; [by apply Hl|]. intros <-. simplify_eq.
        unfold live in Hlive. lia.
    + split; [|done]. apply spec_proven. intros identity. case_bool_decide as Hthrough; split.
      * intros [= <-]. by exists caller.
      * intros (v & Hv & _ & _ & <-). by simplify_eq.
      * done.
      * intros (v & Hv & _ & Heq & _). by simplify_eq.
  - intros [= <- <-]. split; [|done]. apply spec_proven. intros identity. split; [done|].
    intros (v & Hv & Hlive & _). pose proof (t_live _ _ _ Ht _ _ Hv Hlive). congruence.
Qed.

Lemma unvouch_refines r s handle through now r' a :
  tells r s now → unvouch r handle through = (r', a) →
  ∃ s', spec_step s (OpUnvouch handle through now) (AnsUnvouch a) s' ∧ tells r' s' now.
Proof.
  intros [Hw Hl Hk]. unfold unvouch. intros Ha.
  destruct (s !! handle) as [v|] eqn:Hv; [destruct (decide (v_through v = through)) as [Heq|Hne]|].
  - exists (delete handle s). destruct (r_vouched r !! handle) as [caller|] eqn:Hcaller.
    + pose proof (lookup_weaken _ _ _ _ Hcaller Hw). simplify_eq.
      rewrite bool_decide_eq_true_2 in Ha by done. injection Ha as <- <-.
      split; [by eapply spec_unvouches|]. split; simpl; [by apply delete_mono| |done].
      intros h one [Hh Hone]%lookup_delete_Some Hlive. rewrite lookup_delete_ne by done. by apply Hl.
    + injection Ha as <- <-. split.
      * eapply spec_unvouches; [done|done|]. intros Hlive. by specialize (Hl _ _ Hv Hlive); simplify_eq.
      * split; [|intros h one [Hh Hone]%lookup_delete_Some; by apply Hl|done].
        apply map_subseteq_spec. intros h one Hone. apply lookup_delete_Some.
        split; [congruence|by eapply lookup_weaken].
  - exists s. assert ((r', a) = (r, false)) as [= -> ->].
    { rewrite <-Ha. destruct (r_vouched r !! handle) as [caller|] eqn:Hcaller; [|done].
      pose proof (lookup_weaken _ _ _ _ Hcaller Hw). simplify_eq. by rewrite bool_decide_eq_false_2. }
    split; [|done]. apply spec_keeps. intros v' Hv'. by simplify_eq.
  - exists s. destruct (r_vouched r !! handle) as [caller|] eqn:Hcaller.
    { pose proof (lookup_weaken _ _ _ _ Hcaller Hw). congruence. }
    injection Ha as <- <-. split; [|done]. apply spec_keeps. congruence.
Qed.

Lemma op_refines r s op r' a now :
  tells r s now → now ≤ starts op → asked_rightly r op → do_op r op = (r', a) →
  ∃ s', spec_step s op a s' ∧ tells r' s' (ends op).
Proof.
  intros Ht Hle Hasked Hop. destruct op as [through c drawn m|handle through at_|handle through at_]; simpl in *.
  - destruct (vouch r through c m drawn) as [r1 a1] eqn:Hv. injection Hop as <- <-.
    by apply (vouch_refines r s through c drawn m r1 a1 now).
  - destruct (proven r handle through at_) as [r1 a1] eqn:Hv. injection Hop as <- <-.
    exists s. apply (proven_refines r); [by eapply tells_later|done].
  - destruct (unvouch r handle through) as [r1 a1] eqn:Hv. injection Hop as <- <-.
    apply (unvouch_refines r); [by eapply tells_later|done].
Qed.

(** Each operation begins no earlier than the one before ended. *)
Fixpoint in_time (ops : list Op) (from : Z) : Prop :=
  match ops with [] => True | op :: rest => from ≤ starts op ∧ in_time rest (ends op) end.

(** C14. A node's registry of relayed callers refines the plain one: whatever
    its relays ask, in whatever order and however many, every answer it
    gives — dropping what has ended only when asked after it or full, and
    verifying a browser's chain once while its path is valid — is an answer
    of a registry that keeps every caller vouched for until its relay lets
    it go, names a caller only to the account it was vouched through and
    only until its certificate ends, and holds of each what verifying its
    chain answered. *)
Theorem vouched_refines r s ops answers r' t :
  tells r s t → in_time ops t → runs r ops answers r' →
  ∃ s', spec_runs s ops answers s'.
Proof.
  intros Ht Hops Hruns. revert s t Ht Hops.
  induction Hruns as [r|r op r1 a ops answers r2 Hasked Hop _ IH]; intros s t Ht Hops.
  - exists s. apply spec_runs_none.
  - destruct Hops as [Hle Hops].
    destruct (op_refines r s op r1 a t) as (s1 & Hstep & Ht1); [done..|].
    destruct (IH s1 _ Ht1 Hops) as [s2 Hs2]. exists s2. by econstructor.
Qed.

(** ** A relay's Vouch *)

(** What a handshake proves: [tls::possession::proved]. *)
Record Proof_of_possession := {
  server_random : bytes;
  server_leaf : bytes;
  client_chain : chain
}.

Context (proved : bytes → result Proof_of_possession string) (binding : list bytes → bytes) (BINDING : nat).

(** Why a Vouch is refused before its chain is verified. *)
Inductive Unproved :=
  | ProvesNothing (failed : string)
  | NotBound
  | NoFreshNonce (through : string)
  | OtherServer.

Definition why_unproved (u : Unproved) : string :=
  match u with
  | ProvesNothing failed =>
      "REFUSED. The browser's handshake proves nothing: " +:+ failed +:+ " (ADR-0009)"
  | NotBound =>
      "REFUSED. The browser's handshake is not bound to the nonces handed with it: its server's random holds none of them (ADR-0009)"
  | NoFreshNonce through =>
      "REFUSED. The browser's handshake holds no fresh nonce this node issued " +:+ through +:+
      ": each is spent once, within 30 s (ADR-0009)"
  | OtherServer =>
      "REFUSED. The browser's handshake was made with a server that is not the listener the node's nonce was issued for (ADR-0009)"
  end%string.

(** [possessed]. *)
Definition possessed (held : Outstanding) (through : string) (transcript : bytes)
    (nonces : list bytes) (now : N) : Outstanding * result chain string :=
  match proved transcript with
  | Err failed => (held, Err (why_unproved (ProvesNothing failed)))
  | Ok proof =>
      if bool_decide (take BINDING (server_random proof) ≠ binding nonces)
      then (held, Err (why_unproved NotBound))
      else
        match spend held nonces through now with
        | (held, None) => (held, Err (why_unproved (NoFreshNonce through)))
        | (held, Some listener) =>
            (held, if bool_decide (server_leaf proof ≠ listener)
                   then Err (why_unproved OtherServer) else Ok (client_chain proof))
        end
  end.

(** [vouched_for], of a message whose transcript and nonces are decoded. *)
Definition vouched_for (held : Outstanding) (r : Relaying) (through : string)
    (transcript : result bytes string) (nonces : list bytes) (now : N) (m : Moments) (drawn : N) :
    Outstanding * Relaying * result N string :=
  match transcript with
  | Err why => (held, r, Err why)
  | Ok transcript =>
      let '(held, chain) := possessed held through transcript nonces now in
      match chain with
      | Err why => (held, r, Err why)
      | Ok chain => let '(r, a) := vouch r through chain m drawn in (held, r, a)
      end
  end.

(** What a Vouch must bring to be answered a handle. *)
Definition brings (held : Outstanding) (through : string) (transcript : bytes) (nonces : list bytes)
    (now : N) (c : chain) : Prop :=
  ∃ proof nonce one,
    proved transcript = Ok proof ∧ take BINDING (server_random proof) = binding nonces ∧
    nonce ∈ nonces ∧ held !! nonce = Some one ∧ i_through one = through ∧ (now < i_until one)%N ∧
    server_leaf proof = i_listener one ∧ client_chain proof = c.

Lemma possessed_ok held through transcript nonces now held' c :
  possessed held through transcript nonces now = (held', Ok c) →
  brings held through transcript nonces now c ∧ held' ⊆ held ∧
  ∀ nonce one, held' !! nonce = Some one → nonce ∈ nonces → length nonce ≠ LENGTH.
Proof.
  unfold possessed. destruct (proved transcript) as [proof|failed] eqn:Hproved; [|done].
  case_bool_decide as Hbound; [done|].
  unfold spend. destruct (spending held nonces through now None) as [held1 [[nonce one]|]] eqn:Hsp;
    simpl; [|done].
  case_bool_decide as Hleaf; [done|]. intros [= <- <-].
  pose proof (spending_found _ _ _ _ _ _ _ Hsp) as Hin.
  apply spending_spec in Hsp as [Hkeeps [?|(_ & n & o & [= <- <-] & Ho & _ & Hwho & Hfresh)]]; [done|].
  split; [exists proof, nonce, one; split_and!; try done|].
  - by destruct Hin as [?|(? & ? & [= <- <-] & ?)].
  - split; [apply map_subseteq_spec; intros other o Hother|intros other o Hother];
      by apply (Hkeeps other o).
Qed.

Lemma verified_once_same r c m r' found :
  verified_once r c m = (r', found) → r_vouched r' = r_vouched r.
Proof.
  unfold verified_once. destruct (filter _ (r_known r) !! c); [by intros [= <- _]|].
  by destruct (verified c (verifying m)); intros [= <- _].
Qed.

Lemma vouch_ok r through c m drawn r' h :
  vouch r through c m drawn = (r', Ok h) →
  h = drawn ∧ ∃ identity until, snd (verified_once r c m) = Ok (identity, until) ∧
    r_vouched r' !! h =
      Some {| v_identity := identity; v_until := until; v_through := through |}.
Proof.
  unfold vouch. destruct (verified_once r c m) as [r1 [[identity until]|why]]; [|by intros [=]].
  destruct (_ <=? _)%nat; [by intros [=]|]. intros [= <- <-]. split; [done|].
  exists identity, until. split; [done|]. apply lookup_insert_eq.
Qed.

Lemma vouch_err r through c m drawn r' why :
  vouch r through c m drawn = (r', Err why) → r_vouched r' ⊆ r_vouched r.
Proof.
  unfold vouch. destruct (verified_once r c m) as [r1 [[identity until]|why']] eqn:Honce;
    rewrite <-(verified_once_same _ _ _ _ _ Honce).
  - destruct (_ <=? _)%nat; intros [= <- <-]. apply purged_within.
  - by intros [= <- _].
Qed.

Lemma spend_within held nonces through now : fst (spend held nonces through now) ⊆ held.
Proof.
  unfold spend. destruct (spending held nonces through now None) as [held' found] eqn:Hsp. simpl.
  apply spending_spec in Hsp as [Hkeeps _]. apply map_subseteq_spec. intros n o Ho. by apply Hkeeps.
Qed.

(** Each refusal, and what it leaves: nothing touched until the handshake
    proves its key and is bound to the nonces; nonces spent from there on,
    and nobody vouched for. *)
Inductive refused (held : Outstanding) (r : Relaying) (through : string) (nonces : list bytes) (now : N) :
    result bytes string → Outstanding → Relaying → string → Prop :=
  | refused_undecoded why : refused held r through nonces now (Err why) held r why
  | refused_unproved t failed :
      proved t = Err failed →
      refused held r through nonces now (Ok t) held r (why_unproved (ProvesNothing failed))
  | refused_unbound t proof :
      proved t = Ok proof → take BINDING (server_random proof) ≠ binding nonces →
      refused held r through nonces now (Ok t) held r (why_unproved NotBound)
  | refused_stale t proof held' :
      proved t = Ok proof → take BINDING (server_random proof) = binding nonces →
      spend held nonces through now = (held', None) → held' ⊆ held →
      refused held r through nonces now (Ok t) held' r (why_unproved (NoFreshNonce through))
  | refused_elsewhere t proof listener held' :
      proved t = Ok proof → take BINDING (server_random proof) = binding nonces →
      spend held nonces through now = (held', Some listener) → server_leaf proof ≠ listener →
      held' ⊆ held →
      refused held r through nonces now (Ok t) held' r (why_unproved OtherServer)
  | refused_caller t c held' r' why :
      brings held through t nonces now c → held' ⊆ held → r_vouched r' ⊆ r_vouched r →
      refused held r through nonces now (Ok t) held' r' why.

Lemma possessed_err held r through t nonces now held' why :
  possessed held through t nonces now = (held', Err why) →
  refused held r through nonces now (Ok t) held' r why.
Proof.
  unfold possessed. destruct (proved t) as [proof|failed] eqn:Hproved; [|intros [= <- <-]; by constructor].
  case_bool_decide as Hbound; [intros [= <- <-]; by eapply refused_unbound|].
  pose proof (spend_within held nonces through now) as Hsub.
  destruct (spend held nonces through now) as [held1 [listener|]] eqn:Hsp; simpl in Hsub.
  - case_bool_decide as Hleaf; [|by intros [=]]. intros [= <- <-]. by eapply refused_elsewhere.
  - intros [= <- <-]. by eapply refused_stale.
Qed.

(** A relay's Vouch is answered a handle only where it brought a
    handshake that proves the browser's key, bound to nonces one of which
    this node issued that very relay, fresh, for the very listener the
    handshake was made with, and a chain that verifies: from then on the
    handle names, to that relay until the chain's path ends, just the
    identity verifying that chain answered, and no nonce handed with it is
    outstanding any more. Each refusal is one of six, and none vouches for
    anyone; the three before the nonces are looked at leave everything as it
    was. *)
Theorem vouched_for_exactly held r s through transcript nonces now m drawn held' r' a before :
  tells r s before → before ≤ began m → ordered m →
  vouched_for held r through transcript nonces now m drawn = (held', r', a) →
  match a with
  | Ok handle => ∃ t c identity until at_,
      transcript = Ok t ∧ brings held through t nonces now c ∧
      at_ ≤ verifying m ∧ verified c at_ = Ok (identity, until) ∧
      (∀ later who, later < until →
         snd (proven r' handle who later) = if decide (who = through) then Some identity else None) ∧
      (∀ nonce one, held' !! nonce = Some one → nonce ∈ nonces → length nonce ≠ LENGTH)
  | Err why => refused held r through nonces now transcript held' r' why
  end.
Proof.
  intros Ht Hbefore Hord. unfold ordered in Hord. unfold vouched_for.
  destruct transcript as [t|why]; [|intros [= <- <- <-]; by constructor].
  destruct (possessed held through t nonces now) as [held1 [c|why]] eqn:Hp;
    [|intros [= <- <- <-]; by apply possessed_err].
  apply possessed_ok in Hp as (Hbrings & Hsub & Hspent).
  destruct (vouch r through c m drawn) as [r1 a1] eqn:Hv. intros [= <- <- <-].
  destruct a1 as [handle|why].
  - destruct (vouch_ok _ _ _ _ _ _ _ Hv) as (-> & identity & until & Hfound & Hone).
    destruct (verified_once r c m) as [r2 found] eqn:Honce. simpl in Hfound. subst found.
    destruct (verified_once_spec r s c m _ _ before Ht ltac:(lia) Honce) as (_ & _ & at_ & Hat & Hc & _).
    exists t, c, identity, until, at_. split_and!; try done.
    intros later who Hlater. unfold proven. rewrite Hone. simpl.
    destruct (Z.leb_spec until later); [lia|]. simpl. destruct (decide (who = through)) as [->|Hne].
    + by rewrite bool_decide_eq_true_2.
    + by rewrite bool_decide_eq_false_2 by congruence.
  - apply (refused_caller held r through nonces now t c); [done..|by eapply vouch_err].
Qed.
End vouched.

(** ** A registry that runs

    A certificate is its one byte's subject, proven and good until 100; a
    handshake is its nonce, made with the listener named after it. *)

Definition toy_der (c : chain) : result chain string := Ok c.
Definition toy_verify (c : chain) (now : Z) : result chain string :=
  if now <? 100 then Ok c else Err "ended"%string.
Definition toy_certificate (leaf : bytes) : result bytes string := Ok leaf.
Definition toy_not_after (c : chain) : result Z string := Ok 100.

Definition toy_at (t : Z) : Moments := {| began := t; looked := t; verifying := t |}.

Definition alice : chain := [[Corelib.Init.Byte.x61]].

Lemma vouched_refines_witness :
  ∃ s', spec_runs (λ _, true) (λ _, "a"%string) toy_der toy_verify toy_certificate toy_not_after ∅
    [OpVouch "gui" alice 7%N (toy_at 5); OpProven 7%N "gui" 6; OpProven 7%N "other" 7]
    [AnsVouch (Ok 7%N); AnsProven (Some [Corelib.Init.Byte.x61]); AnsProven None] s'.
Proof.
  eapply (vouched_refines (λ _ : bytes, true) (λ _, "a"%string) toy_der toy_verify toy_certificate
    toy_not_after relaying_new ∅ _ _ _ 0).
  - split; [reflexivity|intros ?? H; discriminate H|intros ?? H; discriminate H].
  - repeat split; simpl; lia.
  - eapply runs_one; [by repeat split; vm_compute|by vm_compute|].
    eapply runs_one; [done|by vm_compute|]. eapply runs_one; [done|by vm_compute|apply runs_none].
Defined.

Definition toy_listener : bytes := [Corelib.Init.Byte.x6c].

Definition toy_proved (transcript : bytes) : result Proof_of_possession string :=
  Ok {| server_random := transcript; server_leaf := toy_listener; client_chain := alice |}.

Definition toy_held : Outstanding :=
  {[ a_nonce := {| i_through := "gui"; i_listener := toy_listener; i_until := 30 |} ]}.

Definition toy_vouched (transcript : bytes) :=
  vouched_for (λ _ : bytes, true) (λ _, "a"%string) toy_der toy_verify toy_certificate toy_not_after
    toy_proved (@concat _) LENGTH toy_held relaying_new "gui" (Ok transcript) [a_nonce] 9 (toy_at 5) 7%N.

(** A handshake bound to the nonce is answered a handle, one that is not
    leaves the nonce. *)
Lemma vouched_for_exactly_witness :
  snd (toy_vouched a_nonce) = Ok 7%N ∧ fst (fst (toy_vouched [])) !! a_nonce = toy_held !! a_nonce ∧
  ∃ c identity, brings toy_proved (@concat _) LENGTH toy_held "gui" a_nonce [a_nonce] 9 c ∧
    snd (proven (snd (fst (toy_vouched a_nonce))) 7%N "gui" 6) = Some identity.
Proof.
  split; [by vm_compute|]. split; [by vm_compute|].
  destruct (vouched_for_exactly (λ _ : bytes, true) (λ _, "a"%string) toy_der toy_verify toy_certificate
    toy_not_after toy_proved (@concat _) LENGTH toy_held relaying_new ∅ "gui" (Ok a_nonce) [a_nonce] 9
    (toy_at 5) 7%N (fst (fst (toy_vouched a_nonce))) (snd (fst (toy_vouched a_nonce))) (Ok 7%N) 0)
    as (t & c & identity & until & at_ & Ht & Hbrings & _ & Hc & Hnamed & _).
  - split; [reflexivity|intros ?? H; discriminate H|intros ?? H; discriminate H].
  - simpl. lia.
  - split; simpl; lia.
  - by vm_compute.
  - injection Ht as <-. exists c, identity. split; [exact Hbrings|].
    assert (until = 100) as -> by (unfold verified in Hc; destruct c; [discriminate Hc|];
      unfold toy_der, toy_verify, toy_certificate, toy_not_after in Hc; simpl in Hc;
      destruct (at_ <? 100); [by injection Hc|discriminate Hc]).
    rewrite (Hnamed 6 "gui"%string); [reflexivity|lia].
Defined.
