(* ===== verification/Pickup.v ===== *)
(** * A node's Subscriptions: [src/pickup.rs], [src/pickup/state.rs], [holding.rs], [released.rs]

    What the pickup keeps of each Subscription under its one lock ([Entry],
    [State]), and every section of code that holds it: an operator's pause
    and resume ([act]), which Messages of a Publication are held
    ([held_of]), what is counted once it is durable ([published]), what is
    read of a queue ([taken_from], after its ask [asks_ready]), and what the
    node says of each Message once done with it ([moved], [passed], [again]).
    A standing's record is written and read here byte by byte; [codec]'s
    text and integer forms are parameters, with the law that what one writes
    the other reads. Counts of Messages are plain [N]: one a Message, never
    near a word's end. Audit records are left out. *)

From Stdlib Require Import Ascii String.
From Stdlib Require Strings.Byte.
From stdpp Require Import base numbers list gmap strings.
From S2P Require Import Prelude Journey Storage SmallStorage.
From S2P Require Import Sequence.

Local Open Scope N_scope.

(** How long a queue that could not be read waits. *)
Definition AGAIN : N := 50 * 10 ^ 6.

(** ** A Subscription's standing, and its record *)

Record Standing := { paused : bool; paused_by : string; since_unix_nanos : Z }.

#[export] Instance standing_eq_dec : EqDecision Standing.
Proof. solve_decision. Defined.

Definition FORM : Byte.byte := Byte.x01.

(** What [codec] writes a text and an [i64] as, and reads them by: each
    answers what it read and what is left. *)
Class Codec := {
  text : string → bytes;
  read_text : bytes → result (string * bytes) string;
  i64_be : Z → bytes;
  read_i64_be : bytes → result (Z * bytes) string;
  too_short : string;
  other_form : Byte.byte → string
}.

Class CodecLaws (codec : Codec) := {
  read_text_text s rest : read_text (text s ++ rest) = Ok (s, rest);
  read_i64_i64 z rest : (- 2 ^ 63 ≤ z < 2 ^ 63)%Z → read_i64_be (i64_be z ++ rest) = Ok (z, rest)
}.

Section standing.
Context `{codec : Codec}.

Definition read_byte (b : bytes) : result (Byte.byte * bytes) string :=
  match b with [] => Err too_short | x :: rest => Ok (x, rest) end.

(** [Standing::record]. *)
Definition record (s : Standing) : bytes :=
  FORM :: (if paused s then Byte.x01 else Byte.x00) :: text (paused_by s) ++ i64_be (since_unix_nanos s).

(** [Standing::from_record]. *)
Definition standing_from_record (b : bytes) : result Standing string :=
  let? (form, b) := read_byte b in
  if bool_decide (form ≠ FORM) then Err (other_form form)
  else
    let? (is_paused, b) := read_byte b in
    let? (by_whom, b) := read_text b in
    let? (since, b) := read_i64_be b in
    match b with
    | [] => Ok {| paused := negb (bool_decide (is_paused = Byte.x00)); paused_by := by_whom;
                  since_unix_nanos := since |}
    | _ => Err "bytes after the standing"%string
    end.
End standing.

(** ** What is kept of each Subscription *)

Record Entry := {
  e_name : string;
  e_ports : list string;
  e_destination : Subscriber;
  e_queue : N;
  standing : Standing;
  held : N;
  picked_up : N;
  cursor : N;
  taken : gset N;
  pending : bool;
  not_before : option N
}.

Abbreviation State := (list Entry).

Definition with_standing (e : Entry) (s : Standing) : Entry :=
  {| e_name := e_name e; e_ports := e_ports e; e_destination := e_destination e; e_queue := e_queue e;
     standing := s; held := held e; picked_up := picked_up e; cursor := cursor e; taken := taken e;
     pending := pending e; not_before := not_before e |}.

Definition with_counts (e : Entry) (held picked_up : N) : Entry :=
  {| e_name := e_name e; e_ports := e_ports e; e_destination := e_destination e; e_queue := e_queue e;
     standing := standing e; held := held; picked_up := picked_up; cursor := cursor e;
     taken := taken e; pending := pending e; not_before := not_before e |}.

Definition with_reading (e : Entry) (cursor : N) (taken : gset N) (pending : bool)
    (not_before : option N) : Entry :=
  {| e_name := e_name e; e_ports := e_ports e; e_destination := e_destination e; e_queue := e_queue e;
     standing := standing e; held := held e; picked_up := picked_up e; cursor := cursor;
     taken := taken; pending := pending; not_before := not_before |}.

(** [Entry::ready]. *)
Definition entry_ready (e : Entry) (now : N) : bool :=
  pending e && negb (paused (standing e)) && match not_before e with None => true | Some at_ => at_ <=? now end.

(** [State::index], [State::ready]. *)
Definition index (st : State) (name : string) : option nat :=
  fst <$> list_find (λ e, e_name e = name) st.

Definition ready (st : State) (now : N) : bool := existsb (λ e, entry_ready e now) st.

(** [State::standing], the fields its lock guards. *)
Record Published := {
  pub_name : string;
  pub_paused : bool;
  pub_by : string;
  pub_picked_up : N;
  pub_held : N;
  pub_since : Z
}.

Definition published_entry (e : Entry) : Published :=
  {| pub_name := e_name e; pub_paused := paused (standing e); pub_by := paused_by (standing e);
     pub_picked_up := picked_up e; pub_held := held e; pub_since := since_unix_nanos (standing e) |}.

Definition standings (st : State) : list Published := published_entry <$> st.

(** [reaches]. *)
Definition reaches (st : State) (name : string) (destination : Subscriber) : list Subscriber :=
  match from_option e_ports [] (index st name ≫= (st !!.)) with
  | [] => [destination]
  | ports => SendPort <$> ports
  end.

(** ** An operator's pause and resume: [act] *)

Inductive Act := Pause | Resume | OtherAct (word : string).

#[export] Instance act_eq_dec : EqDecision Act.
Proof. solve_decision. Defined.

(** The operator records of the administration database. *)
Class Administration (A : Type) := {
  read_administration : A → N → A * result (option bytes) string;
  write_administration : A → N → bytes → A * result unit string
}.

Section acts.
Context `{codec : Codec} {A : Type} `{Administration A}.

(** [Noun::Subscription.act], a number's words, and the node. *)
Context (subscription_act : Act → result Act string) (shown : N → string) (node : string).

Definition act_standing (pause : bool) (who : string) (now : Z) : Standing :=
  {| paused := pause; paused_by := if pause then who else ""; since_unix_nanos := now |}.

Definition act_said (name who : string) (pause : bool) (held : N) : string :=
  (if pause then
     "Subscription '" +:+ name +:+ "' paused by " +:+ who +:+
     "; what it matches is held, not picked up, until it is resumed"
   else
     "Subscription '" +:+ name +:+ "' resumed by " +:+ who +:+ "; the " +:+ shown held +:+
     " it held are picked up, oldest first")%string.

(** What an act leaves of its Subscription. *)
Definition acted (e : Entry) (s : Standing) : Entry :=
  let e := with_standing e s in
  if paused s then e else with_reading e 0 (taken e) true (not_before e).

(** [Pickup::act]. *)
Definition act (name : string) (a : Act) (who : string) (now : Z) (a_st : A * State) :
    A * State * result string string :=
  let '(adm, st) := a_st in
  match subscription_act a with
  | Err why => (adm, st, Err why)
  | Ok a =>
      match index st name with
      | None =>
          (adm, st, Err ("REFUSED: no Subscription '" +:+ name +:+ "' is configured on " +:+ node +:+
             "; a Subscription is added and removed in the TOML configuration of the Xmip Application that draws it")%string)
      | Some i =>
          match st !! i with
          | None => (adm, st, Err "")
          | Some e =>
              if bool_decide (a = Pause) && paused (standing e)
              then (adm, st, Ok ("Subscription '" +:+ name +:+ "' was already paused")%string)
              else if bool_decide (a = Resume) && negb (paused (standing e))
              then (adm, st, Ok ("Subscription '" +:+ name +:+ "' was not paused")%string)
              else
                let pause := bool_decide (a = Pause) in
                let s := act_standing pause who now in
                match write_administration adm (e_queue e) (record s) with
                | (adm, Err error) =>
                    (adm, st, Err ("FAILED: Subscription '" +:+ name +:+ "' is not " +:+
                       (if pause then "paused" else "resumed") +:+
                       ": Xmip Storage did not take its standing: " +:+ error)%string)
                | (adm, Ok _) =>
                    (adm, <[i := acted e s]> st, Ok (act_said name who pause (held e)))
                end
          end
      end
  end.

(** ** Taken up as a node starts: [open] *)

(** A Subscription's standing read back, and how many its queue holds. *)
Definition opened_entry (e_configured : string * list string * Subscriber) (queue : N) (read : option Standing)
    (now : Z) (count : N) : Entry :=
  let '(name, ports, destination) := e_configured in
  {| e_name := name; e_ports := ports; e_destination := destination; e_queue := queue;
     standing := default {| paused := false; paused_by := ""; since_unix_nanos := now |} read;
     held := count; picked_up := 0; cursor := 0; taken := ∅; pending := 0 <? count;
     not_before := None |}.

Context {S : Type} `{XmipStorage S} (queue_of_name : string → N).

Definition unread (name error : string) : string := ("the Subscription '" +:+ name +:+ "': " +:+ error)%string.

(** [Pickup::open], one Subscription of its loop. *)
Definition open_one (configured : string * list string * Subscriber) (now : Z) (s : A * S) :
    A * S * result Entry string :=
  let '(adm, store) := s in
  let name := configured.1.1 in
  let queue := queue_of_name name in
  match read_administration adm queue with
  | (adm, Err error) => (adm, store, Err (unread name error))
  | (adm, Ok kept) =>
      match match kept with
            | None => Ok None
            | Some b => let? s := standing_from_record b in Ok (Some s)
            end with
      | Err error => (adm, store, Err (unread name error))
      | Ok read =>
          match read_held store queue 0 0 with
          | (store, Err error) => (adm, store, Err (unread name error))
          | (store, Ok page) => (adm, store, Ok (opened_entry configured queue read now (page_count page)))
          end
      end
  end.

(** [Pickup::open]. *)
Fixpoint open (configured : list (string * list string * Subscriber)) (now : Z) (s : A * S) :
    A * S * result State string :=
  match configured with
  | [] => (s, Ok [])
  | one :: rest =>
      match open_one one now s with
      | (s, Err why) => (s, Err why)
      | (s, Ok e) =>
          match open rest now s with
          | (s, Err why) => (s, Err why)
          | (s, Ok es) => (s, Ok (e :: es))
          end
      end
  end.
End acts.

(** ** Held by a Publication: [held], [published] *)

Record Holding := { holds : list Hold; held_at : list (nat * string); picked : list nat }.

Definition no_holding : Holding := {| holds := []; held_at := []; picked := [] |}.

(** Whether a Subscription holds what it matches. *)
Definition holds_it (every : bool) (e : Entry) : bool := every || paused (standing e) || negb (held e =? 0).

(** [Pickup::held], over the Journeys a Publication opened. *)
Definition held_one (st : State) (body : bytes) (every : bool) (h : Holding) (o : Opened) : Holding :=
  match index st (subscription o) with
  | None => h
  | Some i =>
      match st !! i with
      | None => h
      | Some e =>
          if holds_it every e then
            {| holds := holds h ++ [{| hold_queue := e_queue e;
                                       hold_member := journey_id (opened_journey o);
                                       hold_body := body |}];
               held_at := held_at h ++ [(i, subscription o)]; picked := picked h |}
          else {| holds := holds h; held_at := held_at h; picked := picked h ++ [i] |}
      end
  end.

Definition held_of (st : State) (opened : list Opened) (body : bytes) (every : bool) : Holding :=
  foldl (held_one st body every) no_holding opened.

(** [Pickup::holding]. *)
Definition holding (st : State) (opened : list Opened) (body : bytes) : Holding :=
  held_of st opened body false.

(** [Holding::departing]. *)
Definition departing (h : Holding) (opened : list Opened) : list Opened :=
  List.filter (λ o, negb (existsb (λ n, bool_decide (n = subscription o)) (held_at h).*2)) opened.

(** [Pickup::published]: one picked up, one held. *)
Definition count_picked (e : Entry) : Entry := with_counts e (held e) (picked_up e + 1).

Definition count_held (e : Entry) : Entry :=
  let e := with_counts e (held e + 1) (picked_up e) in
  if paused (standing e) then e else with_reading e (cursor e) (taken e) true (not_before e).

Definition published (h : Holding) (st : State) : State :=
  let st := foldl (λ st i, alter count_picked i st) st (picked h) in
  foldl (λ st i, alter count_held i st) st (held_at h).*1.

(** ** Picked up: [released] *)

(** What is asked of Xmip Storage: each queue ready, from where. *)
Definition asks_ready (st : State) (now : N) : list (nat * N * N) :=
  (λ '(i, e), (i, e_queue e, cursor e)) <$>
    List.filter (λ '(_, e), entry_ready e now) (imap pair st).

Definition most_asked (max : N) : N := N.min (N.max max 1) u32_max.

(** One read of a page taken in its order: the cursor past each, each not
    yet taken let go of to the node. *)
Fixpoint take_each (e : Entry) (page : list Held) : Entry * list Held :=
  match page with
  | [] => (e, [])
  | one :: rest =>
      let fresh := bool_decide (sequence one ∉ taken e) in
      let '(e, given) := take_each
        (with_reading e (sequence one + 1) ({[sequence one]} ∪ taken e) (pending e) (not_before e)) rest in
      (e, if fresh then one :: given else given)
  end.

(** A queue's answer under the lock again. *)
Definition taken_from (e : Entry) (from most : N) (read : result (list Held) string) (now : N) :
    Entry * list Held :=
  if paused (standing e) || negb (cursor e =? from) then (e, [])
  else
    match read with
    | Err _ => (with_reading e (cursor e) (taken e) (pending e) (Some (now + AGAIN)), [])
    | Ok page =>
        let ended := N.of_nat (length page) <? most in
        let '(e, given) := take_each (with_reading e (cursor e) (taken e) (pending e) None) page in
        (if ended then with_reading e (cursor e) (taken e) false (not_before e) else e, given)
    end.

Record Released := { r_subscription : string; r_destination : Subscriber; r_held : Held }.

(** [Pickup::released], its asks answered one after another. *)
Section releasing.
Context {S : Type} `{XmipStorage S}.

Fixpoint read_asks (asked : list (nat * N * N)) (most : N) (now : N) (s : S * State) :
    S * State * list Released :=
  match asked with
  | [] => (s, [])
  | (i, queue, from) :: rest =>
      let '(store, st) := s in
      let '(store, read) := read_held store queue from most in
      match st !! i with
      | None => read_asks rest most now (store, st)
      | Some e =>
          let '(e, given) := taken_from e from most (let? page := read in Ok (page_held page)) now in
          let '(s, more) := read_asks rest most now (store, <[i := e]> st) in
          (s, ((λ one, {| r_subscription := e_name e; r_destination := e_destination e; r_held := one |})
                 <$> given) ++ more)
      end
  end.

Definition released (max now : N) (s : S * State) : S * State * list Released :=
  read_asks (asks_ready s.2 now) (most_asked max) now s.
End releasing.

(** ** Done with: [moved], [passed], [again] *)

Definition settle_entry (place : N) (e : Entry) : Entry :=
  with_reading e (cursor e) (taken e ∖ {[place]}) (pending e) (not_before e).

Definition moved_entry (place : N) (e : Entry) : Entry :=
  let e := settle_entry place e in with_counts e (held e - 1) (picked_up e + 1).

Definition again_entry (place now : N) (e : Entry) : Entry :=
  with_reading e (if place <? cursor e then place else cursor e) (taken e ∖ {[place]}) true
    (Some (now + AGAIN)).

Definition at_name (f : Entry → Entry) (name : string) (st : State) : State :=
  match index st name with Some i => alter f i st | None => st end.

Definition moved (r : Released) : State → State := at_name (moved_entry (sequence (r_held r))) (r_subscription r).
Definition passed (r : Released) : State → State := at_name (settle_entry (sequence (r_held r))) (r_subscription r).
Definition again (r : Released) (now : N) : State → State :=
  at_name (again_entry (sequence (r_held r)) now) (r_subscription r).

(** ** Kept and read back *)

Section kept.
Context `{laws : CodecLaws}.

Lemma standing_roundtrip s rest :
  (- 2 ^ 63 ≤ since_unix_nanos s < 2 ^ 63)%Z →
  standing_from_record (record s ++ rest) =
    match rest with [] => Ok s | _ => Err "bytes after the standing"%string end.
Proof.
  intros Hrange. destruct s as [[] who since]; unfold standing_from_record, record, result_bind; simpl;
    rewrite <-app_assoc, read_text_text, read_i64_i64 by done; by destruct rest.
Qed.

Context {A : Type} `{Administration A}.

(** What the database answers of a record; a read leaves every answer, a
    write taken is what is answered after, one not taken leaves them. *)
Definition answers (a : A) (queue : N) : result (option bytes) string := (read_administration a queue).2.

Class AdministrationLaws := {
  read_leaves a q q' : answers (read_administration a q).1 q' = answers a q';
  write_taken a q b a' q' : write_administration a q b = (a', Ok tt) →
    answers a' q' = if decide (q' = q) then Ok (Some b) else answers a q';
  write_refused a q b a' why q' : write_administration a q b = (a', Err why) → answers a' q' = answers a q'
}.
Context `{!AdministrationLaws}.

(** Each Subscription's standing is what its operator record says; where
    there is none yet, it was never paused. *)
Definition stands (a : A) (e : Entry) : Prop :=
  (∃ b, answers a (e_queue e) = Ok (Some b) ∧ standing_from_record b = Ok (standing e)) ∨
  answers a (e_queue e) = Ok None ∧ paused (standing e) = false ∧ paused_by (standing e) = ""%string.

Context (subscription_act : Act → result Act string) (shown : N → string) (node : string).

Abbreviation act := (act subscription_act shown node).

Lemma index_at st name i : index st name = Some i → ∃ e, st !! i = Some e ∧ e_name e = name.
Proof.
  unfold index. destruct (list_find _ st) as [[j e]|] eqn:Hf; simpl; [|done]. intros [= <-].
  apply list_find_Some in Hf as (Hj & Hn & _). by exists e.
Qed.

Lemma act_cases name a who now adm st adm' st' r :
  act name a who now (adm, st) = (adm', st', r) →
  (∀ q, answers adm' q = answers adm q) ∧ st' = st ∨
  ∃ i e pause, index st name = Some i ∧ st !! i = Some e ∧ is_ok r = true ∧
    st' = <[i := acted e (act_standing pause who now)]> st ∧
    ∀ q, answers adm' q =
      if decide (q = e_queue e) then Ok (Some (record (act_standing pause who now))) else answers adm q.
Proof.
  unfold Pickup.act. destruct (subscription_act a) as [a'|why]; [|intros [= <- <- <-]; by left].
  destruct (index st name) as [i|] eqn:Hi; [|intros [= <- <- <-]; by left].
  destruct (st !! i) as [e|] eqn:He; [|intros [= <- <- <-]; by left].
  destruct (bool_decide (a' = Pause) && _); [intros [= <- <- <-]; by left|].
  destruct (bool_decide (a' = Resume) && _); [intros [= <- <- <-]; by left|].
  set (pause := bool_decide (a' = Pause)).
  destruct (write_administration adm (e_queue e) _) as [adm1 [[]|why]] eqn:Hw; intros [= <- <- <-].
  - right. exists i, e, pause. split_and!; try done. intros q. by eapply write_taken.
  - left. split; [|done]. intros q. by eapply write_refused.
Qed.

(** A Subscription read back as a node starts stands as its record says. *)
Lemma open_one_stands {S} `{XmipStorage S} queue_of_name configured now adm (store : S) e page store' :
  queue_of_name configured.1.1 = e_queue e → stands adm e →
  read_held store (e_queue e) 0 0 = (store', Ok page) →
  ∃ e', (open_one queue_of_name configured now (adm, store)).2 = Ok e' ∧
    paused (standing e') = paused (standing e) ∧ paused_by (standing e') = paused_by (standing e) ∧
    held e' = page_count page.
Proof.
  intros Hq Hst Hread. unfold open_one. rewrite Hq. unfold stands, answers in Hst.
  destruct (read_administration adm (e_queue e)) as [adm1 kept]. simpl in Hst.
  destruct configured as [[name ports] destination]. simpl in *.
  destruct Hst as [(b & -> & Hb)|(-> & Hp & Hw)]; unfold result_bind.
  - rewrite Hb, Hread. by eexists.
  - rewrite Hread. eexists. split; [reflexivity|]. by rewrite Hp, Hw.
Qed.

(** C15. A pause is never lost, nor is a resume: whatever an operator asks of
    a node's Subscriptions, and whatever Xmip Storage answers, each
    Subscription stands as its operator record says — an act refused or
    failed changes neither — so that the node started again finds it paused
    by whom it was, or active, with what its queue holds. *)
Theorem act_survives_restart {S} `{XmipStorage S} queue_of_name name a who now adm st adm' st' r :
  (- 2 ^ 63 ≤ now < 2 ^ 63)%Z → NoDup (e_queue <$> st) →
  Forall (stands adm) st → act name a who now (adm, st) = (adm', st', r) →
  Forall (stands adm') st' ∧ e_queue <$> st' = e_queue <$> st ∧ (is_ok r = false → st' = st) ∧
  ∀ e configured later (store : S) store' page,
    e ∈ st' → queue_of_name configured.1.1 = e_queue e →
    read_held store (e_queue e) 0 0 = (store', Ok page) →
    ∃ e', (open_one queue_of_name configured later (adm', store)).2 = Ok e' ∧
      paused (standing e') = paused (standing e) ∧ paused_by (standing e') = paused_by (standing e) ∧
      held e' = page_count page.
Proof.
  intros Hrange Hnd Hall Hact.
  assert (Forall (stands adm') st' ∧ e_queue <$> st' = e_queue <$> st ∧ (is_ok r = false → st' = st))
    as (Hall' & Hqs & Hsame).
  { destruct (act_cases _ _ _ _ _ _ _ _ _ Hact) as [[Hans ->]|(i & e & pause & Hi & He & Hok & -> & Hans)].
    { split; [|done]. eapply Forall_impl; [exact Hall|]. intros e. unfold stands. by rewrite !Hans. }
    split; [|split; [|congruence]].
    - apply Forall_lookup. intros j e' [(-> & <- & _)|[Hne Hj]]%list_lookup_insert_Some.
      + left. exists (record (act_standing pause who now)). unfold acted. destruct pause; simpl;
          rewrite Hans, decide_True by done; (split; [done|]);
          rewrite <-(app_nil_r (record _)); by apply standing_roundtrip.
      + assert (e_queue e' ≠ e_queue e) as Hqne.
        { intros Heq. apply Hne. symmetry. eapply (NoDup_lookup _ _ _ _ Hnd);
            rewrite list_lookup_fmap, ?Hj, ?He; simpl; by rewrite ?Heq. }
        unfold stands. rewrite Hans, decide_False by done. by eapply Forall_lookup in Hall.
    - rewrite list_fmap_insert, list_insert_id; [done|]. rewrite list_lookup_fmap, He.
      unfold acted. by destruct pause. }
  split_and!; [done..|]. intros e configured later store store' page Hin Hq Hread.
  eapply open_one_stands; [done| |done]. rewrite Forall_forall in Hall'. by apply Hall'.
Qed.
End kept.

(** ** Held, or departing *)

Section holding.
Context (st : State) (body : bytes) (every : bool).

(** Whether a Journey opened is held: its Subscription is this node's and
    holds what it matches. *)
Definition is_held (o : Opened) : bool :=
  match index st (subscription o) ≫= (st !!.) with Some e => holds_it every e | None => false end.

Definition hold_for (o : Opened) : option Hold :=
  (λ e, {| hold_queue := e_queue e; hold_member := journey_id (opened_journey o); hold_body := body |})
    <$> (index st (subscription o) ≫= (st !!.)).

Lemma is_held_hold o : is_held o = true → ∃ hold, hold_for o = Some hold.
Proof. unfold is_held, hold_for. destruct (index st (subscription o) ≫= _); [by eexists|done]. Qed.

Lemma held_one_is h o :
  holds (held_one st body every h o) = holds h ++ (if is_held o then option_list (hold_for o) else []) ∧
  (held_at (held_one st body every h o)).*2 = (held_at h).*2 ++ (if is_held o then [subscription o] else []).
Proof.
  unfold held_one, is_held, hold_for.
  destruct (index st (subscription o)) as [i|]; simpl; [|by rewrite !app_nil_r].
  destruct (st !! i) as [e|]; simpl; [|by rewrite !app_nil_r].
  destruct (holds_it every e); simpl; [|by rewrite !app_nil_r]. by rewrite fmap_app.
Qed.

Lemma held_of_is (opened : list Opened) :
  holds (held_of st opened body every) = omap hold_for (List.filter is_held opened) ∧
  (held_at (held_of st opened body every)).*2 = subscription <$> List.filter is_held opened.
Proof.
  unfold held_of. enough (∀ h, holds (foldl (held_one st body every) h opened) =
      holds h ++ omap hold_for (List.filter is_held opened) ∧
    (held_at (foldl (held_one st body every) h opened)).*2 =
      (held_at h).*2 ++ (subscription <$> List.filter is_held opened)) as Hall by apply (Hall no_holding).
  induction opened as [|o rest IH]; intros h; simpl; [by rewrite !app_nil_r|].
  destruct (IH (held_one st body every h o)) as [-> ->], (held_one_is h o) as [-> ->].
  rewrite <-!app_assoc. destruct (is_held o); simpl; [|done].
  split; [f_equal|done]. csimpl. by destruct (hold_for o).
Qed.

(** Every Journey a Publication opens is held or departs, never both and
    never neither: held where its Subscription is paused or holds anything
    still — its Message kept once at the end of that Subscription's own
    queue ([held_members], [held_of_is]) — and departing, in routing's
    order, otherwise ([departing_is]). *)
Lemma held_members opened :
  hold_member <$> holds (held_of st opened body every) =
    (λ o, journey_id (opened_journey o)) <$> List.filter is_held opened.
Proof.
  rewrite (proj1 (held_of_is opened)). induction opened as [|o rest IH]; [done|]. simpl.
  destruct (is_held o) eqn:Ho; [|done]. apply is_held_hold in Ho as [hold Ho].
  change (hold_member <$> match hold_for o with Some x => x :: omap hold_for (List.filter is_held rest)
    | None => omap hold_for (List.filter is_held rest) end =
    (λ o, journey_id (opened_journey o)) <$> o :: List.filter is_held rest).
  rewrite Ho. csimpl. rewrite IH. f_equal. unfold hold_for in Ho.
  destruct (index st (subscription o) ≫= _); simpl in Ho; [by simplify_eq/=|done].
Qed.

Lemma departing_is opened :
  departing (held_of st opened body every) opened = List.filter (λ o, negb (is_held o)) opened.
Proof.
  destruct (held_of_is opened) as [_ Hat]. unfold departing. rewrite Hat.
  assert (∀ o, o ∈ opened →
    existsb (λ n, bool_decide (n = subscription o)) (subscription <$> List.filter is_held opened) = is_held o)
    as Hsame.
  { intros o Hin. destruct (is_held o) eqn:Ho.
    - apply existsb_exists. exists (subscription o). split; [|by apply bool_decide_eq_true].
      apply list_elem_of_In, list_elem_of_fmap. exists o. split; [done|].
      by apply list_elem_of_In, filter_In; rewrite <-list_elem_of_In.
    - apply not_true_iff_false. intros (n & Hn & ->%bool_decide_eq_true)%existsb_exists.
      apply list_elem_of_In, list_elem_of_fmap in Hn as (o' & Heq & Hin').
      apply list_elem_of_In, filter_In in Hin' as [_ Hheld].
      unfold is_held in *. rewrite Heq in Ho. congruence. }
  clear -Hsame. assert (∀ l, (∀ o, o ∈ l → o ∈ opened) →
    List.filter (λ o, negb (existsb (λ n, bool_decide (n = subscription o))
      (subscription <$> List.filter is_held opened))) l = List.filter (λ o, negb (is_held o)) l) as Hall.
  { induction l as [|o l IH]; intros Hl; [done|]. simpl.
    rewrite Hsame by (apply Hl; set_solver). rewrite IH by set_solver. done. }
  by apply Hall.
Qed.
End holding.

(** ** A database and a codec that compute *)

(** A number's bits, ended. *)
Fixpoint bits (p : positive) : bytes :=
  match p with xH => [Byte.x02] | xO p => Byte.x00 :: bits p | xI p => Byte.x01 :: bits p end.

Fixpoint unbits (b : bytes) : result (positive * bytes) string :=
  match b with
  | Byte.x00 :: b => let? (p, rest) := unbits b in Ok (xO p, rest)
  | Byte.x01 :: b => let? (p, rest) := unbits b in Ok (xI p, rest)
  | Byte.x02 :: b => Ok (xH, b)
  | _ => Err "ended"%string
  end.

Lemma unbits_bits p rest : unbits (bits p ++ rest) = Ok (p, rest).
Proof. induction p as [p IH|p IH|]; simpl; rewrite ?IH; done. Qed.

Definition read_counted {A} `{Countable A} (b : bytes) : result (A * bytes) string :=
  let? (p, rest) := unbits b in
  match decode p with Some a => Ok (a, rest) | None => Err "not one"%string end.

Lemma read_counted_bits {A} `{Countable A} (a : A) rest : read_counted (bits (encode a) ++ rest) = Ok (a, rest).
Proof. unfold read_counted. rewrite unbits_bits. simpl. by rewrite decode_encode. Qed.

#[local] Instance bits_codec : Codec :=
  {| text s := bits (encode s); read_text := read_counted; i64_be z := bits (encode z);
     read_i64_be := read_counted; too_short := "ended"; other_form _ := "another form" |}.

#[local] Instance bits_codec_laws : CodecLaws bits_codec.
Proof. split; intros; apply read_counted_bits. Defined.

#[local] Instance map_administration : Administration (gmap N bytes) :=
  {| read_administration a q := (a, Ok (a !! q)); write_administration a q b := (<[q := b]> a, Ok tt) |}.

#[local] Instance map_administration_laws : AdministrationLaws (A := gmap N bytes).
Proof.
  split; unfold answers; simpl; [done| |done]. intros a q b a' q' [= <-].
  destruct (decide (q' = q)) as [->|Hne]; [by rewrite lookup_insert_eq|by rewrite lookup_insert_ne].
Defined.

Definition orders_entry : Entry := opened_entry ("orders"%string, [], SendPort "Out") 7 None 3%Z 0.

Definition paused_orders := act Ok (λ _, "0") "n" "orders" Pause "ilian" 5%Z (∅ : gmap N bytes, [orders_entry]).

(** Paused, and taken up again as the node starts: paused still. *)
Lemma act_survives_restart_witness :
  is_ok paused_orders.2 = true ∧
  ∃ e', (open_one (λ _, 7) ("orders"%string, [], SendPort "Out") 9%Z (paused_orders.1.1, small_empty)).2 = Ok e' ∧
    paused (standing e') = true ∧ paused_by (standing e') = "ilian"%string.
Proof.
  split; [reflexivity|].
  destruct (act_survives_restart (S := small) Ok (λ _, "0"%string) "n" (λ _, 7) "orders" Pause "ilian" 5%Z ∅
    [orders_entry] paused_orders.1.1 paused_orders.1.2 paused_orders.2) as (_ & _ & _ & Hopen).
  - split; [lia|reflexivity].
  - apply NoDup_singleton.
  - constructor; [|constructor]. right. by vm_compute.
  - reflexivity.
  - destruct (Hopen (acted orders_entry (act_standing true "ilian" 5%Z)) ("orders"%string, [], SendPort "Out") 9%Z
      small_empty small_empty {| page_held := []; page_count := 0; page_due_in := waits_still small_empty |})
      as (e' & He & Hp & Hw & _); [apply list_elem_of_here|reflexivity|reflexivity|].
    exists e'. exact (conj He (conj Hp Hw)).
Defined.
