(* ===== verification/PickupSteps.v ===== *)
(** * A Subscription's queue, published to and picked up: [src/pickup/], [src/held_work.rs]

    One Subscription's sections of [Pickup] interleaved as the code runs
    them: Publications that decide, write and count what is held, each a
    thread of its own; the one thread that asks for what to pick up, is
    answered by Xmip Storage outside the lock, takes what it was answered
    under it again and moves each on; an operator's acts; a restart. The
    queue is its places, in the order Xmip Storage numbered them; [missed]
    keeps which were counted while an answer was on its way, [p_passed]
    which were passed over. *)

From Stdlib Require Import Ascii String.
From stdpp Require Import base numbers list gmap strings relations sorting.
From S2P Require Import Prelude Journey Storage.
From S2P Require Import Pickup.

Local Open Scope N_scope.

(** [held_work::MOST]. *)
Definition MOST : N := 64.

Section steps.
(** What is kept beside each place. *)
Context (hold_of : N → Hold).

Definition placed (place : N) : Held :=
  {| sequence := place; held_hold := hold_of place; held_failed := false; due_unix_nanos := None |}.

Inductive Reading :=
  | NoRead
  | Asked (from : N)
  | Answered (from : N) (page : result (list Held) string).

Record Steps := {
  p_entry : Entry;
  p_queue : list N;
  p_next : N;
  p_deciding : nat;
  p_counting : list N;
  p_reading : Reading;
  p_given : list N;
  p_moving : option N;
  p_passed : gset N;
  missed : gset N
}.

(** A queue's entries from a place on, oldest first, at most so many. *)
Definition page_of (queue : list N) (from most : N) : list N :=
  take (N.to_nat most) (filter (λ p, from ≤ p) queue).

Definition answered (r : Reading) : bool := match r with Answered _ _ => true | _ => false end.

Inductive pickup_step : Steps → Steps → Prop :=
  (** A Publication: decided held, then written or refused, then counted. *)
  | step_decides s :
      holds_it false (p_entry s) = true →
      pickup_step s {| p_entry := p_entry s; p_queue := p_queue s; p_next := p_next s;
        p_deciding := S (p_deciding s); p_counting := p_counting s; p_reading := p_reading s;
        p_given := p_given s; p_moving := p_moving s; p_passed := p_passed s; missed := missed s |}
  | step_writes s deciding :
      p_deciding s = S deciding →
      pickup_step s {| p_entry := p_entry s; p_queue := p_queue s ++ [p_next s]; p_next := p_next s + 1;
        p_deciding := deciding; p_counting := p_next s :: p_counting s; p_reading := p_reading s;
        p_given := p_given s; p_moving := p_moving s; p_passed := p_passed s; missed := missed s |}
  | step_refused s deciding :
      p_deciding s = S deciding →
      pickup_step s {| p_entry := p_entry s; p_queue := p_queue s; p_next := p_next s;
        p_deciding := deciding; p_counting := p_counting s; p_reading := p_reading s;
        p_given := p_given s; p_moving := p_moving s; p_passed := p_passed s; missed := missed s |}
  | step_counts s before place after :
      p_counting s = before ++ place :: after →
      pickup_step s {| p_entry := count_held (p_entry s); p_queue := p_queue s; p_next := p_next s;
        p_deciding := p_deciding s; p_counting := before ++ after; p_reading := p_reading s;
        p_given := p_given s; p_moving := p_moving s; p_passed := p_passed s;
        missed := if answered (p_reading s) then {[place]} ∪ missed s else missed s |}
  (** An operator's pause or resume. *)
  | step_acts s pause who now :
      paused (standing (p_entry s)) = negb pause →
      pickup_step s {| p_entry := acted (p_entry s) (act_standing pause who now); p_queue := p_queue s;
        p_next := p_next s; p_deciding := p_deciding s; p_counting := p_counting s;
        p_reading := p_reading s; p_given := p_given s; p_moving := p_moving s; p_passed := p_passed s;
        missed := missed s |}
  (** The thread that picks up: its asks, its answer, what it takes. *)
  | step_asks s now :
      p_reading s = NoRead → p_given s = [] → p_moving s = None → entry_ready (p_entry s) now = true →
      pickup_step s {| p_entry := p_entry s; p_queue := p_queue s; p_next := p_next s;
        p_deciding := p_deciding s; p_counting := p_counting s;
        p_reading := Asked (cursor (p_entry s)); p_given := p_given s; p_moving := p_moving s;
        p_passed := p_passed s; missed := missed s |}
  | step_answers s from :
      p_reading s = Asked from →
      pickup_step s {| p_entry := p_entry s; p_queue := p_queue s; p_next := p_next s;
        p_deciding := p_deciding s; p_counting := p_counting s;
        p_reading := Answered from (Ok (placed <$> page_of (p_queue s) from (most_asked MOST)));
        p_given := p_given s; p_moving := p_moving s; p_passed := p_passed s; missed := missed s |}
  | step_unanswered s from why :
      p_reading s = Asked from →
      pickup_step s {| p_entry := p_entry s; p_queue := p_queue s; p_next := p_next s;
        p_deciding := p_deciding s; p_counting := p_counting s; p_reading := Answered from (Err why);
        p_given := p_given s; p_moving := p_moving s; p_passed := p_passed s; missed := missed s |}
  | step_takes s from page now e given :
      p_reading s = Answered from page →
      taken_from (p_entry s) from (most_asked MOST) page now = (e, given) →
      pickup_step s {| p_entry := e; p_queue := p_queue s; p_next := p_next s;
        p_deciding := p_deciding s; p_counting := p_counting s; p_reading := NoRead;
        p_given := sequence <$> given; p_moving := p_moving s; p_passed := p_passed s;
        missed := missed s |}
  (** Each moved on, passed over, or read again with the rest. *)
  | step_hands_on s place rest :
      p_given s = place :: rest → p_moving s = None →
      pickup_step s {| p_entry := p_entry s; p_queue := filter (λ p, p ≠ place) (p_queue s);
        p_next := p_next s; p_deciding := p_deciding s; p_counting := p_counting s;
        p_reading := p_reading s; p_given := rest; p_moving := Some place; p_passed := p_passed s;
        missed := missed s |}
  | step_moves s place :
      p_moving s = Some place →
      pickup_step s {| p_entry := moved_entry place (p_entry s); p_queue := p_queue s; p_next := p_next s;
        p_deciding := p_deciding s; p_counting := p_counting s; p_reading := p_reading s;
        p_given := p_given s; p_moving := None; p_passed := p_passed s; missed := missed s |}
  | step_passes s place rest :
      p_given s = place :: rest → p_moving s = None →
      pickup_step s {| p_entry := settle_entry place (p_entry s); p_queue := p_queue s; p_next := p_next s;
        p_deciding := p_deciding s; p_counting := p_counting s; p_reading := p_reading s;
        p_given := rest; p_moving := None; p_passed := {[place]} ∪ p_passed s; missed := missed s |}
  | step_again s now :
      p_given s ≠ [] → p_moving s = None →
      pickup_step s {| p_entry := foldl (λ e place, again_entry place now e) (p_entry s) (p_given s);
        p_queue := p_queue s; p_next := p_next s;
        p_deciding := p_deciding s; p_counting := p_counting s; p_reading := p_reading s;
        p_given := []; p_moving := None; p_passed := p_passed s; missed := missed s |}
  (** The node stopped and started again: what was in memory is gone. *)
  | step_restarts s :
      pickup_step s {|
        p_entry := opened_entry (e_name (p_entry s), e_ports (p_entry s), e_destination (p_entry s))
          (e_queue (p_entry s)) (Some (standing (p_entry s))) 0 (N.of_nat (length (p_queue s)));
        p_queue := p_queue s; p_next := p_next s; p_deciding := 0; p_counting := [];
        p_reading := NoRead; p_given := []; p_moving := None; p_passed := ∅; missed := ∅ |}.

(** A Subscription taken up with an empty queue. *)
Definition taken_up (name : string) (to : Subscriber) (queue : N) : Steps :=
  {| p_entry := opened_entry (name, [], to) queue None 0 0; p_queue := []; p_next := 0; p_deciding := 0;
     p_counting := []; p_reading := NoRead; p_given := []; p_moving := None; p_passed := ∅; missed := ∅ |}.

(** ** What holds of it however it runs *)

Definition moving_list (s : Steps) : list N := option_list (p_moving s).

(** A place an active Subscription's queue holds that is counted or being
    counted. *)
Definition known_late (s : Steps) (p : N) : Prop := p ∈ p_counting s ∨ p ∈ missed s.

(** What an answer on its way holds: the first of the queue from its place
    on, and past them only what came since, where it found the end. *)
Definition answers_queue (s : Steps) (from : N) (page : list Held) : Prop :=
  ∃ read rest, page = placed <$> read ∧ filter (λ p, from ≤ p) (p_queue s) = read ++ rest ∧
    (N.of_nat (length read) < most_asked MOST → ∀ p, p ∈ rest → known_late s p).

Record picking (s : Steps) : Prop := {
  k_sorted : StronglySorted N.lt (p_queue s);
  k_next : ∀ p, p ∈ p_queue s → p < p_next s;
  k_cursor : cursor (p_entry s) ≤ p_next s;
  k_counting : ∀ p, p ∈ p_counting s → p < p_next s;
  k_count : N.of_nat (length (p_queue s) + length (moving_list s)) ≤
              held (p_entry s) + N.of_nat (length (p_counting s));
  k_given : StronglySorted N.lt (p_given s);
  k_given_in : ∀ p, p ∈ p_given s → p ∈ p_queue s;
  k_taken : taken (p_entry s) = list_to_set (p_given s ++ moving_list s);
  k_moving : ∀ p, p_moving s = Some p → p ∉ p_given s;
  k_idle : p_reading s ≠ NoRead → p_given s = [] ∧ p_moving s = None;
  k_reads : p_reading s ≠ NoRead → pending (p_entry s) = true;
  k_below : ∀ p, p ∈ p_queue s → p < cursor (p_entry s) → p ∈ p_given s ∨ p ∈ p_passed s;
  k_order : ∀ g p, g ∈ p_given s → p ∈ p_queue s → p < g → p ∈ p_given s ∨ p ∈ p_passed s;
  k_pending : pending (p_entry s) = false → paused (standing (p_entry s)) = false →
    ∀ p, p ∈ p_queue s → cursor (p_entry s) ≤ p → known_late s p;
  k_asked : ∀ from, p_reading s = Asked from → from ≤ p_next s;
  k_answered : ∀ from page, p_reading s = Answered from (Ok page) →
    from ≤ p_next s ∧ answers_queue s from page
}.

Lemma sequences_placed (l : list N) : sequence <$> (placed <$> l) = l.
Proof. induction l; csimpl; congruence. Qed.

(** A page of places none of them taken: each let go of, the cursor past the
    last. *)
Lemma take_each_spec (e : Entry) (l : list N) :
  NoDup l → (∀ p, p ∈ l → p ∉ taken e) →
  take_each e (placed <$> l) =
    (with_reading e (from_option (λ p, p + 1) (cursor e) (last l)) (list_to_set l ∪ taken e)
       (pending e) (not_before e), placed <$> l).
Proof.
  revert e. induction l as [|p l IH]; intros e Hnd Hfree; csimpl.
  - destruct e; simpl. f_equal. unfold with_reading; simpl. f_equal. set_solver.
  - apply NoDup_cons in Hnd as [Hp Hnd]. rewrite IH; [|done|].
    + simpl. rewrite bool_decide_eq_true_2 by (apply Hfree; set_solver).
      f_equal. unfold with_reading; simpl. f_equal; [|set_solver].
      rewrite last_cons. by destruct (last l).
    + simpl. intros q Hq. apply not_elem_of_union. split; [set_solver|]. apply Hfree. set_solver.
Qed.

Lemma sorted_app_lt (l1 l2 : list N) a b : StronglySorted N.lt (l1 ++ l2) → a ∈ l1 → b ∈ l2 → a < b.
Proof. intros Hs Ha Hb. by apply (StronglySorted_app_1_elem_of N.lt l1 l2). Qed.

Lemma sorted_filter (P : N → Prop) `{∀ x, Decision (P x)} (l : list N) :
  StronglySorted N.lt l → StronglySorted N.lt (filter P l).
Proof.
  induction 1 as [|a l Hs IH Hall]; [constructor|]. rewrite filter_cons. destruct (decide (P a)); [|done].
  constructor; [done|]. rewrite Forall_forall in Hall |- *. intros b [_ Hb]%list_elem_of_filter. by apply Hall.
Qed.

Lemma sorted_nodup (l : list N) : StronglySorted N.lt l → NoDup l.
Proof.
  induction 1 as [|a l Hs IH Hall]; constructor; [|done]. intros Ha.
  rewrite Forall_forall in Hall. specialize (Hall a Ha). lia.
Qed.

Lemma sorted_snoc (l : list N) p : StronglySorted N.lt l → (∀ q, q ∈ l → q < p) → StronglySorted N.lt (l ++ [p]).
Proof.
  induction 1 as [|a l Hs IH Hall]; intros Hlt; simpl; [repeat constructor|]. constructor.
  - apply IH. intros q Hq. apply Hlt. set_solver.
  - rewrite Forall_forall in Hall |- *. intros q [Hq|Hq]%elem_of_app; [by apply Hall|].
    apply list_elem_of_singleton in Hq as ->. apply Hlt. set_solver.
Qed.

(** In order, what is no later than the last of a first part is in it. *)
Lemma sorted_prefix (l1 l2 : list N) p q :
  StronglySorted N.lt (l1 ++ l2) → last l1 = Some q → p ∈ l1 ++ l2 → p ≤ q → p ∈ l1.
Proof.
  intros Hs Hq [Hp|Hp]%elem_of_app Hle; [done|].
  assert (q ∈ l1) as Hin by (by apply last_Some_elem_of).
  pose proof (sorted_app_lt _ _ _ _ Hs Hin Hp). lia.
Qed.

Lemma filter_remove_length (place : N) (l : list N) :
  NoDup l → place ∈ l → S (length (filter (λ p, p ≠ place) l)) = length l.
Proof.
  induction l as [|a l IH]; intros Hnd Hin; [set_solver|]. apply NoDup_cons in Hnd as [Ha Hnd].
  rewrite filter_cons. destruct (decide (a ≠ place)) as [Hne|Heq].
  - simpl. f_equal. apply IH; [done|set_solver].
  - apply dec_stable in Heq as ->. simpl. f_equal.
    assert (∀ l : list N, place ∉ l → filter (λ p, p ≠ place) l = l) as Hsame; [|by rewrite Hsame].
    clear. induction l as [|b l IH]; [done|]. intros [Hne Hnot]%not_elem_of_cons.
    rewrite filter_cons_True by done. by rewrite IH.
Qed.

Lemma picking_writes s deciding :
  picking s → p_deciding s = S deciding →
  picking {| p_entry := p_entry s; p_queue := p_queue s ++ [p_next s]; p_next := p_next s + 1;
    p_deciding := deciding; p_counting := p_next s :: p_counting s; p_reading := p_reading s;
    p_given := p_given s; p_moving := p_moving s; p_passed := p_passed s; missed := missed s |}.
Proof.
  intros [Hs Hn Hcur Hc Hcount Hg Hgi Ht Hmv Hi Hrd Hb Ho Hp Ha Han] _. split; simpl; try done.
  - by apply sorted_snoc.
  - intros p [Hin| ->%list_elem_of_singleton]%elem_of_app; [specialize (Hn _ Hin)|]; lia.
  - lia.
  - intros p [->|Hin]%elem_of_cons; [lia|]. specialize (Hc _ Hin). lia.
  - rewrite length_app. unfold moving_list in *. simpl in *. lia.
  - intros p Hin. apply elem_of_app. left. by apply Hgi.
  - intros p [Hin| ->%list_elem_of_singleton]%elem_of_app Hlt; [by apply Hb|lia].
  - intros g p Hg' [Hin| ->%list_elem_of_singleton]%elem_of_app Hlt; [by apply (Ho g)|].
    specialize (Hn _ (Hgi _ Hg')). lia.
  - intros Hpend Hact p [Hin| ->%list_elem_of_singleton]%elem_of_app Hle.
    + destruct (Hp Hpend Hact p Hin Hle); [left|right]; [|done]. set_solver.
    + left. set_solver.
  - intros from Hf. specialize (Ha _ Hf). lia.
  - intros from page Hf. destruct (Han _ _ Hf) as (Hle & read & rest & -> & Hq & Hend).
    split; [lia|]. exists read, (rest ++ [p_next s]). split; [done|]. split.
    + etransitivity; [apply (filter_app (λ p, from ≤ p))|]. rewrite Hq, <-app_assoc. f_equal.
      by rewrite filter_cons_True.
    + intros Hlt p [Hin| ->%list_elem_of_singleton]%elem_of_app; [|left; set_solver].
      destruct (Hend Hlt p Hin); [left; set_solver|by right].
Qed.

Lemma picking_counts s before place after :
  picking s → p_counting s = before ++ place :: after →
  picking {| p_entry := count_held (p_entry s); p_queue := p_queue s; p_next := p_next s;
    p_deciding := p_deciding s; p_counting := before ++ after; p_reading := p_reading s;
    p_given := p_given s; p_moving := p_moving s; p_passed := p_passed s;
    missed := if answered (p_reading s) then {[place]} ∪ missed s else missed s |}.
Proof.
  intros [Hs Hn Hcur Hc Hcount Hg Hgi Ht Hmv Hi Hrd Hb Ho Hp Ha Han] Heq.
  assert (cursor (count_held (p_entry s)) = cursor (p_entry s) ∧
    taken (count_held (p_entry s)) = taken (p_entry s) ∧
    standing (count_held (p_entry s)) = standing (p_entry s) ∧
    held (count_held (p_entry s)) = held (p_entry s) + 1 ∧
    (pending (count_held (p_entry s)) = false → paused (standing (p_entry s)) = false → False))
    as (Hec & Het & Hes & Heh & Hep).
  { unfold count_held; simpl. destruct (paused (standing (p_entry s))); simpl; split_and!; done. }
  split; simpl; rewrite ?Hec, ?Het, ?Hes, ?Heh; try done.
  - intros p Hin. apply Hc. rewrite Heq. set_solver.
  - rewrite Heq in Hcount. rewrite length_app in *. simpl in *. unfold moving_list in *. simpl in *. lia.
  - intros Hread. unfold count_held; simpl. destruct (paused _); simpl; [by apply Hrd|done].
  - intros Hpend Hact. by destruct (Hep Hpend Hact).
  - intros from page Hf. destruct (Han _ _ Hf) as (Hle & read & rest & Hpage & Hq & Hend).
    split; [done|]. exists read, rest. split_and!; [done|done|]. intros Hlt p Hin. rewrite Hf. simpl.
    destruct (Hend Hlt p Hin) as [Hk|Hk]; [|right; set_solver].
    rewrite Heq in Hk. apply elem_of_app in Hk as [Hk|[->|Hk]%elem_of_cons];
      [left; set_solver|right; set_solver|left; set_solver].
Qed.

Lemma picking_takes s from page now e given :
  picking s → p_reading s = Answered from page →
  taken_from (p_entry s) from (most_asked MOST) page now = (e, given) →
  picking {| p_entry := e; p_queue := p_queue s; p_next := p_next s;
    p_deciding := p_deciding s; p_counting := p_counting s; p_reading := NoRead;
    p_given := sequence <$> given; p_moving := p_moving s; p_passed := p_passed s;
    missed := missed s |}.
Proof.
  intros [Hs Hn Hcur Hc Hcount Hg Hgi Ht Hmv Hi Hrd Hb Ho Hp Ha Han] Hr. unfold taken_from.
  destruct (Hi) as [Hg0 Hm0]; [congruence|]. unfold moving_list in *. rewrite Hg0, Hm0 in *. simpl in *.
  destruct (paused (standing (p_entry s)) || _) eqn:Hstop.
  { intros [= <- <-]. unfold moving_list in *. split; simpl; unfold moving_list; simpl; rewrite ?Hm0; done. }
  apply orb_false_iff in Hstop as [Hact Hfrom%negb_false_iff%N.eqb_eq].
  destruct page as [page|why].
  2:{ intros [= <- <-]. split; simpl; unfold moving_list; simpl; rewrite ?Hm0; done. }
  destruct (Han _ _ Hr) as (Hle & read & rest & -> & Hq & Hend). rewrite length_fmap.
  assert (StronglySorted N.lt (read ++ rest)) as Hsr by (rewrite <-Hq; by apply sorted_filter).
  assert (StronglySorted N.lt read) as Hsread by by eapply StronglySorted_app_1_l.
  assert (∀ p, p ∈ read → p ∈ p_queue s ∧ from ≤ p) as Hread.
  { intros p Hin. assert (p ∈ filter (λ p, from ≤ p) (p_queue s)) as Hf by (rewrite Hq; set_solver).
    apply list_elem_of_filter in Hf. tauto. }
  rewrite take_each_spec; [|by apply sorted_nodup|simpl; rewrite Ht; set_solver]. simpl.
  set (past := from_option (λ p, p + 1) (cursor (p_entry s)) (last read)).
  assert (∀ p, p ∈ p_queue s → p < past → p ∈ read ∨ p ∈ p_passed s) as Hbelow.
  { intros p Hin Hlt. destruct (N.lt_ge_cases p from) as [Hpf|Hpf].
    { rewrite <-Hfrom in Hpf. destruct (Hb p Hin Hpf) as [Hno|]; [set_solver|by right]. }
    left. unfold past in Hlt. destruct (last read) as [q|] eqn:Hlast; simpl in Hlt; [|lia].
    apply (sorted_prefix read rest p q); [done|done| |lia]. rewrite <-Hq.
    apply list_elem_of_filter. done. }
  assert (past ≤ p_next s) as Hpast.
  { unfold past. destruct (last read) as [q|] eqn:Hlast; simpl; [|done].
    apply last_Some_elem_of in Hlast. destruct (Hread q Hlast) as [Hin _]. specialize (Hn q Hin). lia. }
  assert (∀ g p, g ∈ read → p ∈ p_queue s → p < g → p ∈ read ∨ p ∈ p_passed s) as Horder.
  { intros g p Hgin Hin Hlt. apply Hbelow; [done|]. unfold past.
    destruct (last read) as [q|] eqn:Hlast; [simpl|by apply last_None in Hlast as ->; set_solver].
    enough (g ≤ q) by lia. apply last_Some in Hlast as [l' ->].
    apply elem_of_app in Hgin as [Hgin| ->%list_elem_of_singleton]; [|lia].
    apply N.lt_le_incl, (sorted_app_lt l' [q]); [done|done|set_solver]. }
  destruct (N.ltb_spec (N.of_nat (length read)) (most_asked MOST)) as [Hended|Hmore];
    intros [= <- <-]; rewrite sequences_placed; split; simpl; unfold moving_list; simpl; rewrite ?Hm0;
    try done; try (by intros p Hin; apply Hread); try (rewrite app_nil_r, Ht; set_solver).
  - intros _ _ p Hin Hpp. assert (from ≤ p) as Hpf.
    { unfold past in Hpp. destruct (last read) as [q|] eqn:Hlast; simpl in Hpp; [|lia].
      apply last_Some_elem_of in Hlast. destruct (Hread q Hlast). lia. }
    assert (p ∈ read ++ rest) as [Hr'|Hr']%elem_of_app by (rewrite <-Hq; by apply list_elem_of_filter).
    + unfold past in Hpp. destruct (last read) as [q|] eqn:Hlast; simpl in Hpp.
      * apply last_Some in Hlast as [l' ->].
        apply elem_of_app in Hr' as [Hr'| ->%list_elem_of_singleton]; [|lia].
        pose proof (sorted_app_lt l' [q] p q Hsread Hr' ltac:(set_solver)). lia.
      * apply last_None in Hlast as ->. set_solver.
    + by apply Hend.
  - intros Hpend. rewrite Hrd in Hpend; [done|congruence].
Qed.

Lemma picking_hands_on s place rest :
  picking s → p_given s = place :: rest → p_moving s = None →
  picking {| p_entry := p_entry s; p_queue := filter (λ p, p ≠ place) (p_queue s);
    p_next := p_next s; p_deciding := p_deciding s; p_counting := p_counting s;
    p_reading := p_reading s; p_given := rest; p_moving := Some place; p_passed := p_passed s;
    missed := missed s |}.
Proof.
  intros [Hs Hn Hcur Hc Hcount Hg Hgi Ht Hmv Hi Hrd Hb Ho Hp Ha Han] Hgiven Hm.
  unfold moving_list in *. rewrite Hgiven, Hm in *. simpl in *.
  assert (∀ p, p ∈ filter (λ p, p ≠ place) (p_queue s) → p ≠ place ∧ p ∈ p_queue s) as Hf.
  { intros p Hin. by apply list_elem_of_filter in Hin. }
  assert (p_reading s = NoRead) as Hno.
  { destruct (p_reading s); [done|..]; by destruct Hi. }
  inversion Hg as [|? ? Hg' Hall]; subst.
  assert (∀ p, p ∈ rest → place < p) as Hless by (by apply Forall_forall).
  split; simpl; unfold moving_list; simpl; rewrite ?Hno; try done.
  - by apply sorted_filter.
  - intros p [_ Hin]%Hf. by apply Hn.
  - pose proof (filter_remove_length place (p_queue s) (sorted_nodup _ Hs) (Hgi place ltac:(set_solver))).
    unfold filter in *. lia.
  - intros p Hin. apply list_elem_of_filter. split; [|apply Hgi; set_solver].
    specialize (Hless p Hin). lia.
  - rewrite Ht. set_solver.
  - intros p [= <-] Hin. specialize (Hless _ Hin). lia.
  - intros p [Hne Hin]%Hf Hlt. destruct (Hb p Hin Hlt); [left|by right]. set_solver.
  - intros g p Hgin [Hne Hin]%Hf Hlt. destruct (Ho g p ltac:(set_solver) Hin Hlt); [left|by right]. set_solver.
  - intros Hpend Hact p [_ Hin]%Hf Hle. by apply Hp.
Qed.

Lemma picking_settles s place rest (e : Entry) passed' moving' :
  picking s → p_reading s = NoRead →
  (p_given s = place :: rest ∧ p_moving s = None ∧ moving' = None ∧ passed' = {[place]} ∪ p_passed s ∧
     e = settle_entry place (p_entry s) ∨
   p_moving s = Some place ∧ p_given s = rest ∧ moving' = None ∧ passed' = p_passed s ∧ place ∉ rest ∧
     e = moved_entry place (p_entry s)) →
  picking {| p_entry := e; p_queue := p_queue s; p_next := p_next s;
    p_deciding := p_deciding s; p_counting := p_counting s; p_reading := p_reading s;
    p_given := rest; p_moving := moving'; p_passed := passed'; missed := missed s |}.
Proof.
  intros [Hs Hn Hcur Hc Hcount Hg Hgi Ht Hmv Hi Hrd Hb Ho Hp Ha Han] Hno Hcase.
  unfold moving_list in *. destruct Hcase as [(Hgiven & Hm & -> & -> & ->)|(Hm & <- & -> & -> & Hnot & ->)];
    rewrite Hm, ?Hgiven in *; simpl in *.
  - inversion Hg as [|? ? Hg' Hall]; subst. assert (place ∉ rest) as Hnot.
    { intros Hin. rewrite Forall_forall in Hall. specialize (Hall _ Hin). lia. }
    split; simpl; unfold moving_list; simpl; rewrite ?Hno; try done.
    + intros p Hin. apply Hgi. set_solver.
    + rewrite Ht. set_solver.
    + intros p Hin Hlt. destruct (Hb p Hin Hlt); set_solver.
    + intros g p Hgin Hin Hlt. destruct (Ho g p ltac:(set_solver) Hin Hlt); set_solver.
  - split; simpl; unfold moving_list; simpl; rewrite ?Hno; try done.
    + lia.
    + rewrite Ht. set_solver.
Qed.

(** What is read again is not yet taken, and the cursor is back at it. *)
Lemma again_fold now l (e : Entry) :
  let e' := foldl (λ e place, again_entry place now e) e l in
  standing e' = standing e ∧ held e' = held e ∧ cursor e' ≤ cursor e ∧
  (∀ p, p ∈ l → cursor e' ≤ p) ∧ taken e' = taken e ∖ list_to_set l ∧ (l ≠ [] → pending e' = true).
Proof.
  revert e. induction l as [|p l IH]; intros e; simpl; [split_and!; try done; set_solver|].
  destruct (IH (again_entry p now e)) as (-> & -> & Hle & Hall & -> & Hpend). simpl in *.
  assert (cursor (foldl (λ e place, again_entry place now e) (again_entry p now e) l) ≤ p).
  { destruct (N.ltb_spec p (cursor e)); lia. }
  split_and!; try done.
  - destruct (N.ltb_spec p (cursor e)); lia.
  - intros q [->|Hq]%elem_of_cons; [done|by apply Hall].
  - set_solver.
  - intros _. destruct l; [done|by apply Hpend].
Qed.

Lemma picking_again s now :
  picking s → p_given s ≠ [] → p_moving s = None →
  picking {| p_entry := foldl (λ e place, again_entry place now e) (p_entry s) (p_given s);
    p_queue := p_queue s; p_next := p_next s;
    p_deciding := p_deciding s; p_counting := p_counting s; p_reading := p_reading s;
    p_given := []; p_moving := None; p_passed := p_passed s; missed := missed s |}.
Proof.
  intros [Hs Hn Hcur Hc Hcount Hg Hgi Ht Hmv Hi Hrd Hb Ho Hp Ha Han] Hne Hm.
  assert (p_reading s = NoRead) as Hno by (destruct (p_reading s); [done|..]; by destruct Hi).
  destruct (again_fold now (p_given s) (p_entry s)) as (Hst & Hh & Hle & Hall & Htk & Hpend).
  specialize (Hpend Hne). unfold moving_list in *. rewrite Hm in *. simpl in *.
  set (e := foldl _ (p_entry s) (p_given s)) in *.
  split; simpl; unfold moving_list; simpl; rewrite ?Hno, ?Hst, ?Hh; try done.
  - lia.
  - constructor.
  - intros p ?%elem_of_nil. done.
  - rewrite Htk, Ht. set_solver.
  - intros p Hin Hlt. destruct (Hb p Hin ltac:(lia)) as [Hg'|]; [|by right].
    specialize (Hall p Hg'). lia.
  - intros g p ?%elem_of_nil. done.
  - intros Hf. congruence.
Qed.

Lemma picking_acts s pause who now :
  picking s → picking {| p_entry := acted (p_entry s) (act_standing pause who now); p_queue := p_queue s;
    p_next := p_next s; p_deciding := p_deciding s; p_counting := p_counting s;
    p_reading := p_reading s; p_given := p_given s; p_moving := p_moving s; p_passed := p_passed s;
    missed := missed s |}.
Proof.
  intros [Hs Hn Hcur Hc Hcount Hg Hgi Ht Hmv Hi Hrd Hb Ho Hp Ha Han].
  unfold acted. destruct pause; simpl; split; simpl; try done.
  - lia.
  - intros p _ Hlt. lia.
Qed.

Lemma picking_step s s' : picking s → pickup_step s s' → picking s'.
Proof.
  intros Hok Hstep. destruct Hstep as [s Hh|s deciding Hd|s deciding Hd|s before place after Hc
    |s pause who now Hp|s now Hno Hg Hm Hready|s from Hf|s from why Hf|s from page now e given Hf Htake
    |s place rest Hg Hm|s place Hm|s place rest Hg Hm|s now Hg Hm|s].
  - by destruct Hok.
  - by apply picking_writes.
  - by destruct Hok.
  - by eapply picking_counts.
  - by apply picking_acts.
  - destruct Hok as [Hs Hn Hcur Hc Hcount Hg' Hgi Ht Hmv Hi Hrd Hb Ho Hp Ha Han]. split; simpl; try done.
    + intros _. unfold entry_ready in Hready. by apply andb_true_iff in Hready as [[??]%andb_true_iff _].
    + intros from [= <-]. done.
  - destruct Hok as [Hs Hn Hcur Hc Hcount Hg' Hgi Ht Hmv Hi Hrd Hb Ho Hp Ha Han].
    rewrite Hf in Hi, Hrd. split; simpl; try done; [by intros _; apply Hi|by intros _; apply Hrd|].
    intros from' page [= -> <-]. split; [by apply Ha|].
    exists (page_of (p_queue s) from' (most_asked MOST)),
      (drop (N.to_nat (most_asked MOST)) (filter (λ p, from' ≤ p) (p_queue s))).
    split; [done|]. split; [symmetry; apply take_drop|]. unfold page_of. intros Hlt p Hin.
    rewrite length_take in Hlt. rewrite drop_ge in Hin by lia. by apply elem_of_nil in Hin.
  - destruct Hok as [Hs Hn Hcur Hc Hcount Hg' Hgi Ht Hmv Hi Hrd Hb Ho Hp Ha Han].
    rewrite Hf in Hi, Hrd. split; simpl; try done; [by intros _; apply Hi|by intros _; apply Hrd].
  - by eapply picking_takes.
  - by apply picking_hands_on.
  - assert (p_reading s = NoRead) as Hno.
    { pose proof (k_idle _ Hok) as Hi. destruct (p_reading s); [done|..]; destruct Hi; congruence. }
    apply (picking_settles s place (p_given s) _ (p_passed s) None); [done|done|].
    right. split_and!; try done. by apply (k_moving _ Hok).
  - apply (picking_settles s place); [done| |by left].
    pose proof (k_idle _ Hok) as Hi. destruct (p_reading s); [done|..]; destruct Hi; congruence.
  - by apply picking_again.
  - destruct Hok as [Hs Hn Hcur Hc Hcount Hg' Hgi Ht Hmv Hi Hrd Hb Ho Hp Ha Han].
    split; simpl; unfold moving_list; simpl; try done; try (by intros ? ?%elem_of_nil).
    + lia.
    + lia.
    + constructor.
    + intros p _ Hlt. lia.
    + by intros g p ?%elem_of_nil.
    + intros Hpend _ p Hin _. apply N.ltb_ge in Hpend.
      destruct (p_queue s); [by apply elem_of_nil in Hin|simpl in Hpend; lia].
Qed.

Lemma picking_run s s' : picking s → rtc pickup_step s s' → picking s'.
Proof. by apply rtc_invariant, picking_step. Qed.

Lemma taken_up_picking name to queue : picking (taken_up name to queue).
Proof.
  split; simpl; unfold moving_list; simpl; try done; try lia; try constructor; intros; simplify_eq;
    by match goal with H : _ ∈ [] |- _ => apply elem_of_nil in H end.
Qed.


(** C17. What a Subscription holds is picked up oldest first: a Message is
    moved on only where every Message still held that its queue took before
    it was passed over, whatever is published, paused, resumed, read again
    or started again meanwhile. *)
Theorem picked_up_in_order name to queue s s' place :
  rtc pickup_step (taken_up name to queue) s → pickup_step s s' →
  p_moving s = None → p_moving s' = Some place →
  place ∈ p_queue s ∧ place ∉ p_queue s' ∧ ∀ p, p ∈ p_queue s' → p < place → p ∈ p_passed s'.
Proof.
  intros Hrun Hstep Hnone Hsome.
  destruct (picking_run _ _ (taken_up_picking name to queue) Hrun) as [Hs ? ? ? ? Hg Hgi ? ? ? ? ? Ho ? ? ?].
  destruct Hstep as [| | | | | | | | |s first rest Hgiven _| | | |]; simpl in *; try congruence.
  injection Hsome as ->. rewrite Hgiven in *. split; [by apply Hgi, list_elem_of_here|].
  split; [by intros [? _]%list_elem_of_filter|]. intros p [Hne Hin]%list_elem_of_filter Hlt.
  destruct (Ho place p ltac:(set_solver) Hin Hlt) as [[->|Hr]%elem_of_cons|]; [done| |done].
  inversion Hg as [|? ? _ Hall]; subst. rewrite Forall_forall in Hall. specialize (Hall _ Hr). lia.
Qed.

(** Nothing a Subscription holds is let slip: while it is active, every
    Message in its queue is given to the node to move on, or its queue is
    to be read on to it, or it was passed over, or it is still being
    counted — or it was counted just while a read was on its way. *)
Theorem held_is_picked_up name to queue s p :
  rtc pickup_step (taken_up name to queue) s →
  paused (standing (p_entry s)) = false → p ∈ p_queue s →
  p ∈ p_given s ∨ pending (p_entry s) = true ∧ cursor (p_entry s) ≤ p ∨ p ∈ p_passed s ∨
  p ∈ p_counting s ∨ p ∈ missed s.
Proof.
  intros Hrun Hact Hin.
  destruct (picking_run _ _ (taken_up_picking name to queue) Hrun) as [? ? ? ? ? ? ? ? ? ? ? Hb ? Hp ? ?].
  destruct (N.lt_ge_cases p (cursor (p_entry s))) as [Hlt|Hge].
  - destruct (Hb p Hin Hlt); tauto.
  - destruct (pending (p_entry s)) eqn:Hpend; [tauto|].
    destruct (Hp eq_refl Hact p Hin Hge); tauto.
Qed.

(** ** What two moments between them let happen *)

(** At rest: nothing published, read, picked up or written. *)
Definition at_rest (s : Steps) : Prop :=
  p_deciding s = 0%nat ∧ p_counting s = [] ∧ p_reading s = NoRead ∧ p_given s = [] ∧ p_moving s = None.
End steps.

(** A run, one step's rule and evaluation at a time. *)
Tactic Notation "step_by" uconstr(rule) := eapply rtc_l; [eapply rule; try reflexivity; try discriminate|simpl].

Definition plain_hold (place : N) : Hold := {| hold_queue := 7; hold_member := place; hold_body := [] |}.

(** A Publication counted between a read and the taking of its answer is
    forgotten: its Message is held, its Subscription active, at rest, and
    nothing is to be read of it. *)
Lemma held_message_forgotten :
  ∃ s, rtc (pickup_step plain_hold) (taken_up "orders" (SendPort "Out") 7) s ∧ at_rest s ∧
    paused (standing (p_entry s)) = false ∧ pending (p_entry s) = false ∧
    p_queue s = [1] ∧ cursor (p_entry s) ≤ 1 ∧ p_passed s = ∅.
Proof.
  eexists. split.
  - step_by (step_acts plain_hold _ true "ilian" 1%Z). step_by step_decides. step_by step_writes.
    step_by (step_counts plain_hold _ [] 0 []). step_by (step_acts plain_hold _ false "ilian" 2%Z).
    step_by (step_asks plain_hold _ 5). step_by step_answers.
    (* published while the answer is on its way *)
    step_by step_decides. step_by step_writes. step_by (step_counts plain_hold _ [] 1 []).
    step_by (step_takes plain_hold _ _ _ 6). step_by step_hands_on. step_by step_moves.
    apply rtc_refl.
  - repeat split; vm_compute; congruence.
Qed.

(** A Message moved on before its Publication is counted is counted after,
    and for good: the queue is empty, and one is held. *)
Lemma count_drifts :
  ∃ s, rtc (pickup_step plain_hold) (taken_up "orders" (SendPort "Out") 7) s ∧ at_rest s ∧
    p_queue s = [] ∧ held (p_entry s) = 1 ∧ holds_it false (p_entry s) = true.
Proof.
  eexists. split.
  - step_by (step_acts plain_hold _ true "ilian" 1%Z). step_by step_decides. step_by step_writes.
    step_by (step_counts plain_hold _ [] 0 []). step_by step_decides.
    step_by (step_acts plain_hold _ false "ilian" 2%Z). step_by step_writes.
    step_by (step_asks plain_hold _ 5). step_by step_answers. step_by (step_takes plain_hold _ _ _ 6).
    step_by step_hands_on. step_by step_moves. step_by step_hands_on. step_by step_moves.
    (* the second is durable only now *)
    step_by (step_counts plain_hold _ [] 1 []). apply rtc_refl.
  - repeat split; vm_compute; congruence.
Qed.

(** ** One held, taken to be moved on *)

Abbreviation orders := (taken_up "orders" (SendPort "Out") 7).

Lemma one_taken :
  ∃ s, rtc (pickup_step plain_hold) orders s ∧ p_given s = [0] ∧ p_queue s = [0] ∧ p_moving s = None ∧
    p_counting s = [] ∧ held (p_entry s) = 1 ∧ paused (standing (p_entry s)) = false.
Proof.
  eexists. split.
  - step_by (step_acts plain_hold _ true "ilian" 1%Z). step_by step_decides. step_by step_writes.
    step_by (step_counts plain_hold _ [] 0 []). step_by (step_acts plain_hold _ false "ilian" 2%Z).
    step_by (step_asks plain_hold _ 5). step_by step_answers. step_by (step_takes plain_hold _ _ _ 6).
    apply rtc_refl.
  - by vm_compute.
Qed.


Lemma picked_up_in_order_witness : ∃ s s', pickup_step plain_hold s s' ∧ 0 ∈ p_queue s ∧ 0 ∉ p_queue s'.
Proof.
  destruct one_taken as (s & Hrun & Hg & _ & Hm & _). exists s. eexists. split.
  - exact (step_hands_on plain_hold s 0 [] Hg Hm).
  - destruct (picked_up_in_order plain_hold "orders" (SendPort "Out") 7 s _ 0 Hrun
      (step_hands_on plain_hold s 0 [] Hg Hm) Hm eq_refl) as (Hin & Hout & _).
    exact (conj Hin Hout).
Defined.

Lemma held_is_picked_up_witness : ∃ s, p_queue s = [0] ∧
  (0 ∈ p_given s ∨ pending (p_entry s) = true ∧ cursor (p_entry s) ≤ 0 ∨ 0 ∈ p_passed s ∨
   0 ∈ p_counting s ∨ 0 ∈ missed s).
Proof.
  destruct one_taken as (s & Hrun & _ & Hq & _ & _ & _ & Hact). exists s. split; [exact Hq|].
  apply (held_is_picked_up plain_hold "orders" (SendPort "Out") 7 s 0 Hrun Hact).
  rewrite Hq. apply list_elem_of_here.
Defined.
