(* ===== verification/HeldWork.v ===== *)
(** * A held Message picked up: [src/held_work.rs]

    One Message a Subscription held, let go of to the node: read back from
    the Ledger under its claim and moved, in one hand-on, from its
    Subscription's queue to that of where it leads ([pick_up]); and what one
    read let go of picked up in its order, the rest of a Subscription one of
    whose Messages is to be read again left with it ([pick_up_all]). The
    node's own state is the send step's and the pickup's, each changed by
    its own sections. *)

From stdpp Require Import base numbers list gmap strings.
From S2P Require Import Prelude Journey Storage SmallStorage Sending Departure Renewal.
From S2P Require Import SendStep Pass Pickup.

Section held_work.
Context {S T Message Facts Durable : Type} `{XmipStorage S} `{JourneyOps}.
Abbreviation Sent := (SendStep.State Message Facts Durable).
Abbreviation Node := (S * Sent * Pickup.State)%type.

Context (step : SendStep) (queue : Subscriber → N) (show_id : N → string)
  (message_from : bytes → result Message string) (facts_from : bytes → result Facts string).
Implicit Types sends : Sends T.

(** Where a held Message leads. *)
Definition leads_to (r : Released) (j : Journey) : Subscriber :=
  match send_port j with Some port => SendPort port | None => r_destination r end.

(** A place of the Send pool for it, where this node sends it. *)
Definition placed_here sends (to : Subscriber) (st : Sent) : Sent * bool :=
  if sent_here sends to then let '(st, places) := admit_places step 1 st in (st, (places =? 1)%N)
  else (st, false).

(** The one hand-on of the move. *)
Definition move_hand_on (r : Released) (c : Claim) (j : Journey) (to : Subscriber) (here : bool) : HandOn :=
  {| ho_claim := c; ho_result := journey_record j; ho_messages := []; ho_next := [];
     ho_leaves := [hold_queue (held_hold (r_held r))];
     ho_queued := [{| hold_queue := queue to; hold_member := hold_member (held_hold (r_held r));
                      hold_body := hold_body (held_hold (r_held r)) |}];
     ho_requeued := []; ho_failed := None; ho_cleared := []; ho_waits := None;
     ho_kept_for_nanos := if here then Some (nanos (lease step)) else None |}.

(** Handed to the send step where it is sent here, waiting in its queue
    otherwise. *)
Definition handed_here (r : Released) (c : Claim) (j : Journey) (m : Message) (f : Facts) (to : Subscriber)
    (here : bool) (asked : N) (st : Sent) : Sent :=
  if here then
    let d := {| d_journey := j; d_message := m; d_facts := f; d_to := to; d_queue := queue to;
                d_claim := c; d_progress := of_attempts (attempts j); d_until := asked + lease step;
                d_durable := None |} in
    hand_push d (hand_own d st)
  else SendStep.ask (queue to) st.

(** [pick_up]'s move, once read. *)
Definition move_on sends (r : Released) (c : Claim) (j : Journey) (m : Message) (f : Facts) (asked : N)
    (n : Node) : Node * result unit string :=
  let '(s, st, pk) := n in
  let to := leads_to r j in
  let '(st, here) := placed_here sends to st in
  match hand_on s (move_hand_on r c j to here) with
  | (s, Ok true) => ((s, handed_here r c j m f to here asked st, moved r pk), Ok tt)
  | (s, Ok false) =>
      ((s, withdraw (if here then 1 else 0) st, pk),
       Err ("the claim on the Message of the Journey " +:+
            show_id (hold_member (held_hold (r_held r))) +:+ " lapsed")%string)
  | (s, Err error) => (((Storage.release s c).1, withdraw (if here then 1 else 0) st, pk), Err error)
  end.

(** [pick_up], its claim's token [tok] and the moment it asked the move. *)
Definition pick_up sends (tok asked : N) (r : Released) (n : Node) : Node * result unit string :=
  let '(s, st, pk) := n in
  let hold := held_hold (r_held r) in
  match Storage.claim s (hold_member hold) (node step) tok (lease step) with
  | (s, Err error) => ((s, st, pk), Err error)
  | (s, Ok None) =>
      ((s, st, pk), Err ("the Message of the Journey " +:+ show_id (hold_member hold) +:+
                         " is claimed by another")%string)
  | (s, Ok (Some c)) =>
      match read message_from facts_from (hold_member hold) (hold_body hold) s with
      | (s, Err why) => (((Storage.release s c).1, st, pk), Err why)
      | (s, Ok (FoundWaiting j m f)) => move_on sends r c j m f asked (s, st, pk)
      | (s, Ok _) => (((Storage.release s c).1, st, passed r pk), Ok tt)
      end
  end.

(** [pick_up_released]'s loop over what one read let go of: [toks] and
    [asked] give each its token and moment, [now] each its look at the
    clock. *)
Fixpoint pick_up_all sends (toks : nat → N) (asked now : nat → N) (stalled : list string)
    (all : list Released) (n : Node) : Node * list string :=
  match all with
  | [] => (n, stalled)
  | r :: rest =>
      let '(s, st, pk) := n in
      let next := pick_up_all sends (λ k, toks (Datatypes.S k)) (λ k, asked (Datatypes.S k))
                    (λ k, now (Datatypes.S k)) in
      if bool_decide (r_subscription r ∈ stalled) then next stalled rest (s, st, again r (now 0) pk)
      else
        match pick_up sends (toks 0) (asked 0) r n with
        | (n, Ok _) => next stalled rest n
        | ((s, st, pk), Err _) => next (stalled ++ [r_subscription r]) rest (s, st, again r (now 0) pk)
        end
  end.
End held_work.

(** ** One move or none *)

Section moves.
Context {S T Message Facts Durable : Type} `{XmipStorage S} `{ops : JourneyOps}.
Abbreviation Sent := (SendStep.State Message Facts Durable).
Context (step : SendStep) (queue : Subscriber → N) (show_id : N → string)
  (message_from : bytes → result Message string) (facts_from : bytes → result Facts string).
Implicit Types sends : Sends T.
Implicit Types st : Sent.

Lemma read_log id body (s : Logged S) s' (found : result (Found (Message := Message) (Facts := Facts)) string) :
  read message_from facts_from id body s = (s', found) → s'.2 = s.2.
Proof.
  unfold read. simpl. unfold beside.
  destruct (read_journey s.1 id) as [s1 [[record|]|why]]; simpl; [|by intros [= <- _]..].
  destruct (from_record (record_body record)) as [j|why]; [|by intros [= <- _]].
  destruct (bool_decide _ || _); [by intros [= <- _]|].
  destruct (last (messages j)) as [held|]; [|by intros [= <- _]].
  simpl. destruct (read_message s1 held) as [s2 [[kept|]|why]]; simpl; repeat case_match; by intros [= <- _].
Qed.

(** The places given back are all that was taken. *)
Lemma withdrawn_place sends to st st' here :
  placed_here step sends to st = (st', here) →
  admitted (withdraw (if here then 1 else 0) st') = admitted st ∧
  handed (withdraw (if here then 1 else 0) st') = handed st ∧
  owned (withdraw (if here then 1 else 0) st') = owned st.
Proof.
  unfold placed_here. destruct (sent_here sends to); [|by intros [= <- <-]].
  unfold admit_places. intros [= <- <-].
  destruct (N.eqb_spec (1 `min` room_in step st) 1) as [Hone|Hne]; simpl; [split_and!; simpl; try done; lia|].
  split_and!; [lia|done|done].
Qed.

Lemma placed_true sends to st st' :
  placed_here step sends to st = (st', true) → st' = with_admitted st (admitted st + 1).
Proof.
  unfold placed_here, admit_places. destruct (sent_here sends to); [|done]. intros [= <- Hone%N.eqb_eq].
  by rewrite Hone.
Qed.

(** What an Ok pick up leaves: the Message moved in one write, which the
    send step was handed under its kept claim or asked to read, or the
    Message passed over, nothing written. *)
Definition moved_on sends (r : Released) (s s' : Logged S) st st' (pk pk' : Pickup.State) : Prop :=
  let hold := held_hold (r_held r) in
  ∃ c j m f here st1, let to := leads_to r j in
    placed_here step sends to st = (st1, here) ∧
    (∃ h, s'.2 = h :: s.2 ∧ ho_claim h = c ∧ ho_result h = journey_record j ∧ ho_next h = [] ∧
       ho_leaves h = [hold_queue hold] ∧ ho_failed h = None ∧ ho_waits h = None ∧
       ho_queued h = [{| hold_queue := queue to; hold_member := hold_member hold; hold_body := hold_body hold |}] ∧
       ho_kept_for_nanos h = if here then Some (nanos (lease step)) else None) ∧
    pk' = moved r pk ∧
    (∃ s1 s2 : Logged S, read message_from facts_from (hold_member hold) (hold_body hold) s1 = (s2, Ok (FoundWaiting j m f))) ∧
    if here
    then ∃ d, handed st' = handed st ++ [d] ∧ owned st' = <[journey_id j := owned_of d]> (owned st) ∧
      d_claim d = c ∧ d_queue d = queue to ∧ d_journey d = j ∧ admitted st' = admitted st
    else st' = SendStep.ask (queue to) st1.

(** A held Message picked up is in one queue or the other: either one
    hand-on, under its claim, took it out of its Subscription's queue and to
    the end of the queue of where it leads, as it was read back — handed to
    the send step with that claim kept where a place of the Send pool was
    admitted, and otherwise to be read from there — or nothing was written:
    then it is passed over where it can never be sent, and where Xmip
    Storage did not answer, or its claim is another's, no place is kept,
    the pickup is as it was, and it is read again. *)
Theorem picked_up_is_one_move sends tok asked r (s : Logged S) st pk s' st' pk' res :
  pick_up step queue show_id message_from facts_from sends tok asked r (s, st, pk) = ((s', st', pk'), res) →
  match res with
  | Ok _ =>
      moved_on sends r s s' st st' pk pk' ∨ s'.2 = s.2 ∧ st' = st ∧ pk' = passed r pk
  | Err _ =>
      s'.2 = s.2 ∧ pk' = pk ∧ admitted st' = admitted st ∧ handed st' = handed st ∧ owned st' = owned st
  end.
Proof.
  unfold pick_up. simpl. unfold beside.
  destruct (Storage.claim s.1 _ (node step) tok (lease step)) as [s1 [[c|]|why]]; simpl;
    [|by intros [= <- <- <- <-]..].
  destruct (read message_from facts_from _ _ _) as [s2 found] eqn:Hread.
  pose proof (read_log _ _ _ _ _ Hread) as Hlog. simpl in Hlog.
  destruct found as [[j m f|j m| |why]|why]; simpl; [|intros [= <- <- <- <-]; simpl; rewrite ?Hlog; auto..].
  unfold move_on. destruct (placed_here step sends (leads_to r j) st) as [st1 here] eqn:Hplace.
  destruct (withdrawn_place _ _ _ _ _ Hplace) as (Ha & Hh & Ho). simpl.
  destruct (hand_on s2.1 _) as [s3 [[]|why]]; simpl; intros [= <- <- <- <-]; simpl; rewrite ?Hlog; try done.
  left. exists c, j, m, f, here, st1. simpl. split_and!; try done; [by eexists; split; [reflexivity|]|by eauto|].
  destruct here; [|done]. rewrite (placed_true _ _ _ _ Hplace). unfold handed_here. eexists.
  split; [reflexivity|]. split; [reflexivity|]. split_and!; try reflexivity. simpl. lia.
Qed.
End moves.

(** ** One held Message, moved *)

Section witnesses.
Local Open Scope N_scope.

Definition held_7 : Journey :=
  {| journey_id := 7; Journey.state := Active; attempts := no_attempts; sequences := []; group := None;
     Journey.received := None; send_port := Some "Out"; current_work_process := None; cause := None;
     previous := None; messages := [9]; history := [] |}.

#[local] Instance one_held : JourneyOps :=
  {| append j e s := j; journey_record _ := []; from_record _ := Ok held_7 |}.

Definition holding_7 : Hold := {| hold_queue := 5; hold_member := 7; hold_body := [] |}.

Definition released_7 : Released :=
  {| r_subscription := "orders"; r_destination := SendPort "Out"; r_held := entry small_empty 1 holding_7 |}.

Definition ledger_holding_7 : Logged small :=
  ({| sm_held := [entry small_empty 1 holding_7]; sm_next := 2; sm_claims := []; sm_fence := 0;
      sm_journeys := [(7, [])]; sm_messages := [(9, [])]; sm_now := 1000 |}, []).

Definition a_step : SendStep :=
  {| cluster := "xmip:///c"; node := "xmip:///c/node/n"; lease := 30; scan := 1; window := 100;
     limits := {| Tuning.most := 2; Tuning.idle := 60 |} |}.

Definition idle_step : SendStep.State unit unit unit := (SendStep.new 4 "c" "n" Tuning.default_tuning).2.

Definition picking_7 :=
  pick_up (T := N) a_step (λ _, 50) (λ _, "7") (λ _, Ok tt) (λ _, Ok tt) two_locations 70 2000 released_7
    (ledger_holding_7, idle_step, []).

Lemma picked_up_is_one_move_witness : ∃ s' st' pk', picking_7 = ((s', st', pk'), Ok tt) ∧
  small_queue s'.1 5 = [] ∧ small_queue s'.1 50 = [7] ∧
  (moved_on (T := N) a_step (λ _, 50) (λ _, Ok tt) (λ _, Ok tt) two_locations released_7 ledger_holding_7 s'
     idle_step st' [] pk' ∨ s'.2 = ledger_holding_7.2 ∧ st' = idle_step ∧ pk' = passed released_7 []).
Proof.
  destruct picking_7 as [[[s' st'] pk'] res] eqn:Hr. pose proof Hr as Hr'. vm_compute in Hr'.
  injection Hr' as Hs _ _ Hres. exists s', st', pk'. split; [by rewrite <-Hres|].
  split; [by rewrite <-Hs|]. split; [by rewrite <-Hs|]. subst res.
  exact (picked_up_is_one_move a_step (λ _, 50) (λ _, "7"%string) (λ _, Ok tt) (λ _, Ok tt) two_locations 70 2000
    released_7 ledger_holding_7 idle_step [] s' st' pk' (Ok tt) Hr).
Defined.
End witnesses.
