(* ===== verification/StreamLedger.v ===== *)
(** * A Stream written into the Ledger: [src/ledger.rs]

    [write_stream] reads a Stream as its far end gives it and writes it in
    chunks, each written before the one after the next is read, its last
    with the Stream's own record. A Stream's reader is what it will give and
    whether it ends or fails after; the digest of its bytes and Xmip
    Storage's two writes are parameters. The loop's fuel is one turn for
    each byte and one more, which [stream_written_whole] shows enough. *)

From stdpp Require Import base numbers list strings.
From S2P Require Import Prelude Journey Storage.

(** What a reader gives: bytes, then its end or a failure. *)
Record Content := { data : bytes; fault : option string }.

(** [fill]: up to so many bytes, fewer only at its end. *)
Definition fill (content : Content) (chunk : nat) : result (bytes * Content) string :=
  if chunk <=? length (data content) then
    Ok (take chunk (data content), {| data := drop chunk (data content); fault := fault content |})
  else
    match fault content with
    | None => Ok (data content, {| data := []; fault := None |})
    | Some failed => Err ("the Stream could not be read: " +:+ failed)%string
    end.

(** [Kept], [StreamChunk] and [StreamRecord]. *)
Record Kept := { kept_stream : N; kept_length : N; kept_chunks : N }.

Record StreamChunk := { chunk_stream : N; chunk_index : N; chunk_bytes : bytes }.

Section stream.
Context {Digest : Type} (new_digest : Digest) (update : Digest → bytes → Digest).

Record StreamRecord := {
  sr_stream : N;
  sr_length : N;
  sr_chunks : N;
  sr_digest : Digest
}.

Class StreamStorage (S : Type) := {
  write_chunk : S → StreamChunk → S * result unit string;
  write_last : S → StreamChunk → StreamRecord → S * result unit string
}.

Context {S : Type} `{StreamStorage S} (show_stream : N → string).

Definition u32_add (a b : N) : N := (a + b) mod 2 ^ 32.

Definition not_taken (stream : N) (failed : string) : string :=
  ("Xmip Storage did not take the Stream " +:+ show_stream stream +:+ ": " +:+ failed)%string.

(** What follows the chunk in hand: nothing past a short one or the end. *)
Definition follows (content : Content) (pending : bytes) (chunk : nat) :
    result (option bytes * Content) string :=
  if length pending <? chunk then Ok (None, content)
  else
    let? (next, content) := fill content chunk in
    Ok (if bool_decide (next = []) then None else Some next, content).

(** [write_stream]'s loop. *)
Fixpoint write_chunks (fuel : nat) (stream : N) (content : Content) (chunk : nat) (pending : bytes)
    (kept : Kept) (digest : Digest) (s : S) : option (S * result Kept string) :=
  match fuel with
  | 0 => None
  | Datatypes.S fuel =>
      match follows content pending chunk with
      | Err why => Some (s, Err why)
      | Ok (next, content) =>
          let digest := update digest pending in
          let written := {| chunk_stream := stream; chunk_index := kept_chunks kept; chunk_bytes := pending |} in
          let kept := {| kept_stream := stream;
                         kept_length := u64_add (kept_length kept) (N.of_nat (length pending));
                         kept_chunks := u32_add (kept_chunks kept) 1 |} in
          match next with
          | None =>
              let ended := {| sr_stream := stream; sr_length := kept_length kept;
                              sr_chunks := kept_chunks kept; sr_digest := digest |} in
              match write_last s written ended with
              | (s, Err failed) => Some (s, Err (not_taken stream failed))
              | (s, Ok _) => Some (s, Ok kept)
              end
          | Some next =>
              match write_chunk s written with
              | (s, Err failed) => Some (s, Err (not_taken stream failed))
              | (s, Ok _) => write_chunks fuel stream content chunk next kept digest s
              end
          end
      end
  end.

Definition enough (content : Content) : nat := Datatypes.S (length (data content)).

(** [write_stream]. *)
Definition write_stream (stream : N) (content : Content) (chunk : nat) (s : S) :
    option (S * result Kept string) :=
  let chunk := chunk `max` 1 in
  match fill content chunk with
  | Err why => Some (s, Err why)
  | Ok (pending, rest) =>
      write_chunks (enough content) stream rest chunk pending
        {| kept_stream := stream; kept_length := 0; kept_chunks := 0 |} new_digest s
  end.
End stream.

Arguments StreamRecord : clear implicits.
Arguments StreamStorage : clear implicits.

(** ** The writes taken, kept beside any Xmip Storage *)

Section writes.
Context {Digest S : Type} (new_digest : Digest) (update : Digest → bytes → Digest).

Inductive Written :=
  | WroteChunk (c : StreamChunk)
  | WroteLast (c : StreamChunk) (r : StreamRecord Digest).

Definition taken_beside (log : list Written) (w : Written) (answered : S * result unit string) :
    (S * list Written) * result unit string :=
  ((answered.1, match answered.2 with Ok _ => log ++ [w] | Err _ => log end), answered.2).

Instance logged_stream `{StreamStorage Digest S} : StreamStorage Digest (S * list Written) := {
  write_chunk s c := taken_beside s.2 (WroteChunk c) (write_chunk s.1 c);
  write_last s c r := taken_beside s.2 (WroteLast c r) (write_last s.1 c r)
}.

Context `{StreamStorage Digest S} (show_stream : N → string) (stream : N).

(** The chunks a Stream is cut into, from the [k]th. *)
Definition chunks_from (k : nat) (bodies : list bytes) : list StreamChunk :=
  imap (λ i b, {| chunk_stream := stream; chunk_index := N.of_nat (k + i); chunk_bytes := b |}) bodies.

Definition cut (chunk : nat) (bodies : list bytes) (last : bytes) (all : bytes) : Prop :=
  all = concat bodies ++ last ∧ Forall (λ b, length b = chunk) bodies ∧ length last ≤ chunk ∧
  (last = [] → bodies = []).

Lemma chunks_from_cons k b bodies :
  chunks_from k (b :: bodies) =
    {| chunk_stream := stream; chunk_index := N.of_nat k; chunk_bytes := b |} :: chunks_from (Datatypes.S k) bodies.
Proof.
  unfold chunks_from. simpl. f_equal; [by rewrite Nat.add_0_r|].
  apply imap_ext. intros i x _. simpl. by rewrite Nat.add_succ_r.
Qed.

Lemma fill_spec content chunk r :
  fill content chunk = r →
  match r with
  | Ok (got, rest) =>
      data content = got ++ data rest ∧ length got ≤ chunk ∧ fault rest = fault content ∧
      (length got < chunk → data rest = [] ∧ fault content = None)
  | Err _ => is_Some (fault content) ∧ length (data content) < chunk
  end.
Proof.
  intros <-. unfold fill. destruct (Nat.leb_spec chunk (length (data content))) as [Hle|Hlt].
  - simpl. rewrite take_drop, length_take. split_and!; [done|lia|done|lia].
  - destruct (fault content) as [why|] eqn:Hf; simpl; [split; [by eexists|lia]|].
    rewrite app_nil_r. split_and!; [done|lia|done|done].
Qed.

(** What the loop leaves, from a chunk in hand: all of it written, or so
    much of it before what failed. *)
Definition leaves (chunk k : nat) (length_before : N) (before : Digest) (pending : bytes) (content : Content)
    (log log' : list Written) (r : result Kept string) : Prop :=
  match r with
  | Ok kept =>
      fault content = None ∧
      ∃ bodies last, cut chunk bodies last (pending ++ data content) ∧
        let whole := (length_before + N.of_nat (length (pending ++ data content)))%N in
        let count := N.of_nat (k + Datatypes.S (length bodies)) in
        kept = {| kept_stream := stream; kept_length := whole; kept_chunks := count |} ∧
        log' = log ++ (WroteChunk <$> chunks_from k bodies) ++
          [WroteLast {| chunk_stream := stream; chunk_index := N.of_nat (k + length bodies); chunk_bytes := last |}
             {| sr_stream := stream; sr_length := whole; sr_chunks := count;
                sr_digest := foldl update before (bodies ++ [last]) |}]
  | Err _ =>
      ∃ bodies rest, pending ++ data content = concat bodies ++ rest ∧
        Forall (λ b, length b = chunk) bodies ∧ log' = log ++ (WroteChunk <$> chunks_from k bodies)
  end.

(** The loop's fuel is enough, whatever Xmip Storage answers and however
    long the Stream. *)
Lemma write_chunks_returns `{StreamStorage Digest S} shown fuel at_ content chunk pending kept digest s :
  length (data content) < fuel →
  ∃ res, write_chunks update shown fuel at_ content chunk pending kept digest s = Some res.
Proof.
  revert content pending kept digest s. induction fuel as [|fuel IH]; intros content pending kept digest s Hlt; [lia|].
  simpl. unfold follows. destruct (length pending <? chunk).
  { simpl. destruct (write_last _ _ _) as [? [|]]; by eexists. }
  destruct (fill content chunk) as [[next rest]|why] eqn:Hfill; apply fill_spec in Hfill; [|by eexists].
  destruct Hfill as (Hdata & _). simpl. case_bool_decide as Hnil.
  { destruct (write_last _ _ _) as [? [|]]; by eexists. }
  destruct (write_chunk _ _) as [? [|]]; [|by eexists]. apply IH.
  rewrite Hdata, length_app in Hlt. destruct next; [done|]. simpl in Hlt. lia.
Qed.

Lemma write_stream_returns `{StreamStorage Digest S} shown at_ content chunk s :
  ∃ res, write_stream new_digest update shown at_ content chunk s = Some res.
Proof.
  unfold write_stream. destruct (fill content _) as [[pending rest]|why] eqn:Hfill; apply fill_spec in Hfill;
    [|by eexists].
  destruct Hfill as (Hdata & _). apply write_chunks_returns. unfold enough. rewrite Hdata, length_app. lia.
Qed.

(** Nothing follows: the chunk in hand is the last. *)
Lemma ends_leaves chunk k len digest pending content (s : S) log :
  length pending ≤ chunk → data content = [] → fault content = None →
  let kept := {| kept_stream := stream; kept_length := (len + N.of_nat (length pending))%N;
                 kept_chunks := N.of_nat (k + 1) |} in
  ∃ s' log' r,
    match write_last (s, log)
        {| chunk_stream := stream; chunk_index := N.of_nat k; chunk_bytes := pending |}
        {| sr_stream := stream; sr_length := kept_length kept; sr_chunks := kept_chunks kept;
           sr_digest := update digest pending |} with
    | (s, Err failed) => Some (s, Err (not_taken show_stream stream failed))
    | (s, Ok _) => Some (s, Ok kept)
    end = Some ((s', log'), r) ∧
    leaves chunk k len digest pending content log log' r.
Proof.
  intros Hle Hdata Hfault kept. simpl. unfold taken_beside. simpl.
  destruct (write_last s _ _) as [s1 [[]|failed]]; simpl; eexists _, _, _; (split; [reflexivity|]); simpl.
  - split; [done|]. exists [], pending. rewrite Hdata, app_nil_r. split; [by split_and!|].
    simpl. by rewrite Nat.add_0_r.
  - exists [], (pending ++ data content). split_and!; [done|done|by rewrite app_nil_r].
Qed.

Lemma leaves_next chunk k len digest pending next content rest log log' r :
  length pending = chunk → data content = next ++ data rest → fault rest = fault content → next ≠ [] →
  leaves chunk (Datatypes.S k) (len + N.of_nat (length pending)) (update digest pending) next rest
    (log ++ [WroteChunk {| chunk_stream := stream; chunk_index := N.of_nat k; chunk_bytes := pending |}]) log' r →
  leaves chunk k len digest pending content log log' r.
Proof.
  intros Hfull Hdata Hfault Hne. unfold leaves. rewrite Hdata, Hfault. destruct r as [kept|why].
  - assert (len + N.of_nat (length pending) + N.of_nat (length (next ++ data rest)) =
      len + N.of_nat (length (pending ++ next ++ data rest)))%N as Hwhole by (rewrite !length_app; lia).
    intros [Hnone (bodies & last & (Hall & Hbodies & Hlast & Hlone) & -> & ->)]. split; [done|].
    exists (pending :: bodies), last. cbv zeta. split.
    + split_and!; [by rewrite Hall; simpl; rewrite app_assoc|by constructor|done|].
      intros ->. rewrite (Hlone eq_refl) in Hall. simpl in Hall. by apply app_nil in Hall as [-> _].
    + rewrite chunks_from_cons. simpl. rewrite <-!app_assoc. simpl.
      rewrite <-Hwhole. by rewrite !Nat.add_succ_r.
  - intros (bodies & left_ & Hall & Hbodies & ->). exists (pending :: bodies), left_. split_and!.
    + simpl. by rewrite <-app_assoc, <-Hall.
    + by constructor.
    + rewrite chunks_from_cons. simpl. by rewrite <-app_assoc.
Qed.

Lemma write_chunks_leaves fuel content chunk pending k len digest (s : S) log :
  0 < chunk → length pending ≤ chunk → (length pending < chunk → data content = [] ∧ fault content = None) →
  (N.of_nat (k * chunk + length pending + length (data content)) < (2 ^ 32 - 1) * N.of_nat chunk)%N →
  (len + N.of_nat (length pending + length (data content)) < 2 ^ 64)%N →
  length (data content) < fuel →
  ∃ s' log' r,
    write_chunks update show_stream fuel stream content chunk pending
      {| kept_stream := stream; kept_length := len; kept_chunks := N.of_nat k |} digest (s, log) =
      Some ((s', log'), r) ∧
    leaves chunk k len digest pending content log log' r.
Proof.
  intros Hchunk. revert content pending k len digest s log.
  induction fuel as [|fuel IH]; intros content pending k len digest s log Hpend Hshort Hcount Hlen Hfuel; [lia|].
  assert (N.of_nat k < 2 ^ 32 - 1)%N as Hk by nia.
  assert (u32_add (N.of_nat k) 1 = N.of_nat (k + 1)) as Hk1.
  { unfold u32_add. rewrite N.mod_small by lia. lia. }
  assert (u64_add len (N.of_nat (length pending)) = (len + N.of_nat (length pending))%N) as Hl1
    by (apply u64_add_small; lia).
  cbn [write_chunks]. unfold follows. cbn [kept_length kept_chunks]. rewrite Hk1, Hl1.
  destruct (Nat.ltb_spec (length pending) chunk) as [Hlt|Hge].
  { destruct (Hshort Hlt). by apply ends_leaves. }
  unfold result_bind. destruct (fill content chunk) as [[next rest]|why] eqn:Hfill; apply fill_spec in Hfill.
  2:{ eexists _, _, _. split; [reflexivity|]. exists [], (pending ++ data content).
      split_and!; [done|constructor|by rewrite app_nil_r]. }
  destruct Hfill as (Hdata & Hnext & Hfault & Hend). case_bool_decide as Hnil.
  { subst next. destruct Hend as [Hrest Hnone]; [simpl; lia|].
    destruct (ends_leaves chunk k len digest pending rest s log) as (s' & log' & r & Heq & Hl);
      [lia|done|congruence|].
    exists s', log', r. split; [exact Heq|]. unfold leaves in *. rewrite Hdata, <-Hfault. exact Hl. }
  assert (length (data content) = length next + length (data rest)) as Hsum by (by rewrite Hdata, length_app).
  assert (0 < length next) by (destruct next; [done|simpl; lia]).
  simpl. unfold taken_beside. simpl. destruct (write_chunk s _) as [s1 [[]|failed]]; simpl.
  2:{ eexists _, _, _. split; [reflexivity|]. exists [], (pending ++ data content).
      split_and!; [done|constructor|by rewrite app_nil_r]. }
  destruct (IH rest next (k + 1) (len + N.of_nat (length pending))%N (update digest pending) s1
    (log ++ [WroteChunk {| chunk_stream := stream; chunk_index := N.of_nat k; chunk_bytes := pending |}]))
    as (s' & log' & r & Heq & Hl); [lia|rewrite Hfault; intros Hlt; by apply Hend| | |lia|].
  - assert (length pending = chunk) by lia. nia.
  - lia.
  - exists s', log', r. split; [exact Heq|]. rewrite Nat.add_1_r in Hl.
    eapply leaves_next; [lia|done|done|done|exact Hl].
Qed.

(** C18. A Stream is in the Ledger whole or its receive has failed: the loop
    ends, and where it says the Stream is kept, its reader ended, what was
    written is the Stream's own bytes in order — each chunk of the chunk's
    size, the last no longer and none empty but an empty Stream's — and the
    record with the last says their length, their number and their digest;
    where it says not, no record was written, and what was is the first of
    the Stream. *)
Theorem stream_written_whole content chunk (s : S) :
  (N.of_nat (length (data content)) < (2 ^ 32 - 1) * N.of_nat (chunk `max` 1))%N →
  (N.of_nat (length (data content)) < 2 ^ 64)%N →
  ∃ s' log r,
    write_stream new_digest update show_stream stream content chunk (s, []) = Some ((s', log), r) ∧
    match r with
    | Ok kept =>
        fault content = None ∧ ∃ bodies last, cut (chunk `max` 1) bodies last (data content) ∧
          let whole := N.of_nat (length (data content)) in
          let count := N.of_nat (Datatypes.S (length bodies)) in
          kept = {| kept_stream := stream; kept_length := whole; kept_chunks := count |} ∧
          log = (WroteChunk <$> chunks_from 0 bodies) ++
            [WroteLast {| chunk_stream := stream; chunk_index := N.of_nat (length bodies); chunk_bytes := last |}
               {| sr_stream := stream; sr_length := whole; sr_chunks := count;
                  sr_digest := foldl update new_digest (bodies ++ [last]) |}]
    | Err _ =>
        ∃ bodies rest, data content = concat bodies ++ rest ∧
          Forall (λ b, length b = chunk `max` 1) bodies ∧ log = WroteChunk <$> chunks_from 0 bodies
    end.
Proof.
  intros Hcount Hlen. unfold write_stream. set (size := chunk `max` 1) in *. assert (0 < size) by lia.
  destruct (fill content size) as [[pending rest]|why] eqn:Hfill; apply fill_spec in Hfill.
  2:{ eexists _, _, _. split; [reflexivity|]. exists [], (data content). split_and!; [done|constructor|done]. }
  destruct Hfill as (Hdata & Hpend & Hfault & Hend).
  assert (length (data content) = length pending + length (data rest)) as Hsum by (by rewrite Hdata, length_app).
  destruct (write_chunks_leaves (enough content) rest size pending 0 0%N new_digest s []) as (s' & log & r & Heq & Hl);
    [lia|lia|rewrite Hfault; intros Hlt; by apply Hend|lia|lia|unfold enough; lia|].
  exists s', log, r. split; [exact Heq|]. unfold leaves in Hl. rewrite <-Hdata, Hfault in Hl.
  destruct r; simpl in Hl; rewrite ?Nat.add_0_l in Hl; exact Hl.
Qed.
End writes.

(** ** Three bytes in chunks of two *)

#[local] Instance takes_all : StreamStorage (list bytes) unit :=
  { write_chunk s _ := (s, Ok tt); write_last s _ _ := (s, Ok tt) }.

Definition three : Content := {| data := [Byte.x01; Byte.x02; Byte.x03]; fault := None |}.

Definition writing_three :=
  write_stream (H := logged_stream) [] (λ d b, d ++ [b]) (λ _, "7") 7 three 2 (tt, []).

Lemma stream_written_whole_witness : ∃ log kept bodies last,
  writing_three = Some ((tt, log), Ok kept) ∧ kept_chunks kept = 2%N ∧ cut 2 bodies last (data three).
Proof.
  destruct (stream_written_whole [] (λ d b, d ++ [b]) (λ _, "7"%string) 7 three 2 tt) as (s' & log & r & Heq & Hr);
    [reflexivity|reflexivity|].
  assert (∃ kept, r = Ok kept) as [kept ->].
  { vm_compute in Heq. injection Heq as _ _ <-. by eexists. }
  destruct Hr as (_ & bodies & last & Hcut & _). destruct s'. exists log, kept, bodies, last.
  split; [exact Heq|]. split; [|exact Hcut]. vm_compute in Heq. by injection Heq as _ <-.
Defined.
