(* ===== verification/Arrival.v ===== *)
(** * A Stream arriving: [src/arrival.rs], [src/arrival/identity_context.rs]

    One arrival through its gates ([arrive]): its transport identified,
    authenticated and authorized ([transport_gate]); only then its Stream
    into the Ledger; its Message created, the gates asked of the Message
    ([settle_message_identity]); and its Journey, once nothing more may
    refuse it. The gates themselves, what identifies, and routing are other
    crates' ([identify], [authenticate], [authorize], [context], [route]),
    here parameters. Writing the Stream is a parameter of [arrive], which
    the node gives [StreamLedger.write_stream]. *)

From Stdlib Require Import Ascii String.
From stdpp Require Import base numbers list strings.
From S2P Require Import Prelude Journey.

Section arrival.
(** A claim presented, what authentication concludes of it, alignment and a
    refusal's words. *)
Context {Presented Identity Alignment Refusal Decision PromotionError Value Context_ Promoted Routing Stream : Type}.

(** What is kept of a claim nothing checked. *)
Record UncheckedClaim := {
  uc_mechanism : string;
  uc_value : string;
  uc_established : string
}.

Record IdentityFacts := {
  f_transport : Identity;
  f_message : option Identity;
  f_unchecked : list UncheckedClaim;
  f_alignment : Alignment
}.

(** What a transport hands over with a Stream; the Stream's own bytes are
    [write]'s to read. *)
Record ReceivedStream := {
  arriving : string;
  source_uri : string;
  headers : list (string * Value);
  observed : list (string * string);
  presented_beside : option Presented
}.

Record MessageSection := { section_id : N; section_name : option string; section_stream : Stream }.

Record Message := { message_id : N; sections : list MessageSection; message_context : Context_ }.

Inductive Refused :=
  | Identification (message : string)
  | Authentication (refusal : Refusal) (presented : Presented)
  | Authorization (decision : Decision)
  | Promotion (error : PromotionError).

Record ReceivedWork := { work_journey : Journey; work_message : Message }.

Inductive Arrived :=
  | ArrivedRefused (reason : Refused)
  | ArrivedRouted (work : ReceivedWork) (facts : IdentityFacts) (routing : Routing)
  | ArrivedUnroutable (work : ReceivedWork) (facts : IdentityFacts) (routing : Routing) (promoted : Promoted)
  | ArrivedFailed (reason : string).

(** [unchecked_claim]: a claim's mechanism, value and how it was
    established. *)
Context (mechanism_of value_of established_of : Presented → string).

Definition unchecked_claim (claim : Presented) : UncheckedClaim :=
  {| uc_mechanism := mechanism_of claim; uc_value := value_of claim; uc_established := established_of claim |}.

(** [IdentityFacts::evaluate] and [with_unchecked], under this gate's
    alignment. *)
Context (aligned : Identity → option Identity → Alignment).

Definition evaluate (transport : Identity) (message : option Identity) (unchecked : list UncheckedClaim) :
    IdentityFacts :=
  {| f_transport := transport; f_message := message; f_unchecked := unchecked;
     f_alignment := aligned transport message |}.

(** ** What the gates concluded, where routing reads it: [promote_identity] *)

Record Said := { mechanism : string; identity : string; class : string; proven : bool; verified : string;
                 established : string }.

Context (said : Identity → Said) (misaligned : Alignment → bool) (accountable : IdentityFacts → option string)
  (new_context : Context_) (with_value : Context_ → string → Value → Context_)
  (Text : string → Value) (Truth : bool → Value) (KEPT : list string) (PARTY : string).

Definition layer_values (layer : string) (s : Said) : list (string * Value) :=
  [("xmip." +:+ layer +:+ ".mechanism", Text (mechanism s));
   ("xmip." +:+ layer +:+ ".identity", Text (identity s));
   ("xmip." +:+ layer +:+ ".class", Text (class s));
   ("xmip." +:+ layer +:+ ".proven", Truth (proven s));
   ("xmip." +:+ layer +:+ ".verified", Text (verified s));
   ("xmip." +:+ layer +:+ ".established", Text (established s))]%string.

(** The values in the order they are set, a later one over an earlier of
    its name. *)
Definition identity_values (facts : IdentityFacts) (received : ReceivedStream) : list (string * Value) :=
  headers received ++
  ((λ kept, (kept.1, Text kept.2)) <$> List.filter (λ kept, bool_decide (kept.1 ∈ KEPT)) (observed received)) ++
  [("xmip.arriving"%string, Text (arriving received))] ++
  layer_values "transport" (said (f_transport facts)) ++
  from_option (λ one, layer_values "message" (said one)) [] (f_message facts) ++
  [("xmip.identity.misaligned"%string, Truth (misaligned (f_alignment facts)))] ++
  from_option (λ party, [(PARTY, Text party)]) [] (accountable facts).

Definition promote_identity (facts : IdentityFacts) (received : ReceivedStream) : Context_ :=
  foldl (λ context value, with_value context value.1 value.2) new_context (identity_values facts received).

(** ** The gates: [arrive], [settle_message_identity] *)

Context (identify_transport : ReceivedStream → result (list Presented) string)
  (identify_message : Message → result (list Presented) string)
  (is_message_layer : Presented → bool) (circumstance : string → Presented)
  (without_proof : Presented → Presented)
  (authenticate : Presented → result Identity Refusal) (at_ : Identity → Z → Identity)
  (authorize : IdentityFacts → Z → Decision) (allowed : Decision → bool).

(** Authorized here, or the refusal. *)
Definition permitted (facts : IdentityFacts) (now : Z) : result IdentityFacts Refused :=
  let decision := authorize facts now in
  if allowed decision then Ok facts else Err (Authorization decision).

(** One claim authenticated at this time. *)
Definition authenticated (claim : Presented) (now : Z) : result Identity Refused :=
  match authenticate claim with
  | Ok one => Ok (at_ one now)
  | Err refusal => Err (Authentication refusal (without_proof claim))
  end.

(** [arrive], up to its transport's authorization. *)
Definition transport_gate (received : ReceivedStream) (now : Z) : result IdentityFacts Refused :=
  match identify_transport received with
  | Err message => Err (Identification message)
  | Ok claims =>
      let identified := head claims in
      let unchecked := unchecked_claim <$>
        (tail claims ++ match identified with
                        | Some _ => option_list (presented_beside received)
                        | None => []
                        end) in
      let presented := match identified, presented_beside received with
                       | Some claim, _ => claim
                       | None, Some claim => claim
                       | None, None => circumstance (source_uri received)
                       end in
      let? transport := authenticated presented now in
      permitted (evaluate transport None unchecked) now
  end.

Definition received_message (id section : N) (name : option string) (stream : Stream) (context : Context_) : Message :=
  {| message_id := id;
     sections := [{| section_id := section; section_name := name; section_stream := stream |}];
     message_context := context |}.

(** [settle_message_identity]. *)
Definition settle_message_identity (transport_facts : IdentityFacts) (message : Message)
    (received : ReceivedStream) (now : Z) : result (IdentityFacts * Message) Refused :=
  match identify_message message with
  | Err why => Err (Identification why)
  | Ok claims =>
      let claimed := List.filter is_message_layer claims in
      let others := List.filter (λ claim, negb (is_message_layer claim)) claims in
      let unchecked := f_unchecked transport_facts ++ (unchecked_claim <$> tail claimed ++ others) in
      match claimed, sections message with
      | claim :: _, section :: _ =>
          let? identity := authenticated claim now in
          let? facts := permitted (evaluate (f_transport transport_facts) (Some identity) unchecked) now in
          Ok (facts, received_message (message_id message) (section_id section) (section_name section)
                       (section_stream section) (promote_identity facts received))
      | _, _ =>
          Ok ({| f_transport := f_transport transport_facts; f_message := f_message transport_facts;
                 f_unchecked := unchecked; f_alignment := f_alignment transport_facts |}, message)
      end
  end.

(** The Stream written into the Ledger and what is kept of it as the
    Message's Stream, what of it could not be read, routing, and a Journey
    opened over a Message and its Stream. *)
Context {S : Type} (write : S → N → S * result Stream string) (unread : S → Stream → option string)
  (promote : Message → result Promoted PromotionError) (publish : Promoted → Routing)
  (routed : Routing → bool) (holding : N → N → N → Journey).

(** [arrive], its four identifiers given. *)
Definition arrive (received : ReceivedStream) (now : Z) (ids : nat → N) (s : S) : S * Arrived :=
  match transport_gate received now with
  | Err reason => (s, ArrivedRefused reason)
  | Ok transport_facts =>
      let stream_id := ids 0 in
      match write s stream_id with
      | (s, Err reason) => (s, ArrivedFailed reason)
      | (s, Ok stream) =>
          let message := received_message (ids 1) (ids 2) None stream
                           (promote_identity transport_facts received) in
          match settle_message_identity transport_facts message received now with
          | Err reason => (s, ArrivedRefused reason)
          | Ok (facts, message) =>
              match promote message with
              | Err error => (s, ArrivedRefused (Promotion error))
              | Ok promoted =>
                  match head (sections message) ≫= (λ section, unread s (section_stream section)) with
                  | Some why => (s, ArrivedFailed why)
                  | None =>
                      let work := {| work_journey := holding (ids 3) (ids 1) stream_id; work_message := message |} in
                      let routing := publish promoted in
                      (s, if routed routing then ArrivedRouted work facts routing
                          else ArrivedUnroutable work facts routing promoted)
                  end
              end
          end
      end
  end.

(** What was published of an arrival: its work, what was concluded, and how
    it was routed. *)
Definition published_as (a : Arrived) : option (ReceivedWork * IdentityFacts * Routing) :=
  match a with
  | ArrivedRouted work facts routing | ArrivedUnroutable work facts routing _ => Some (work, facts, routing)
  | ArrivedRefused _ | ArrivedFailed _ => None
  end.

(** ** What a publication rests on *)

Lemma permitted_ok facts now facts' : permitted facts now = Ok facts' → facts' = facts ∧ allowed (authorize facts now) = true.
Proof. unfold permitted. destruct (allowed (authorize facts now)) eqn:Ha; [|done]. by intros [= <-]. Qed.

Lemma authenticated_ok claim now one :
  authenticated claim now = Ok one → ∃ bare, authenticate claim = Ok bare ∧ one = at_ bare now.
Proof. unfold authenticated. destruct (authenticate claim) as [bare|]; [|done]. intros [= <-]. by exists bare. Qed.

Lemma transport_gate_ok received now facts :
  transport_gate received now = Ok facts →
  allowed (authorize facts now) = true ∧ f_message facts = None ∧
  ∃ claims claim bare, identify_transport received = Ok claims ∧ authenticate claim = Ok bare ∧
    f_transport facts = at_ bare now ∧
    (claims ≠ [] → head claims = Some claim ∧
       f_unchecked facts = unchecked_claim <$> (tail claims ++ option_list (presented_beside received))) ∧
    (claims = [] → claim = default (circumstance (source_uri received)) (presented_beside received) ∧
       f_unchecked facts = []).
Proof.
  unfold transport_gate. destruct (identify_transport received) as [claims|why]; [|done].
  unfold result_bind. destruct (authenticated _ now) as [one|] eqn:Hauth; [|done].
  apply authenticated_ok in Hauth as (bare & Hbare & ->). intros [-> Hallowed]%permitted_ok.
  split; [done|]. split; [done|]. exists claims. eexists. exists bare. split; [done|]. split; [exact Hbare|].
  split; [done|]. destruct claims as [|claim rest]; simpl; (split; [|]); try done.
Qed.

Lemma settle_ok tf message received now facts message' :
  settle_message_identity tf message received now = Ok (facts, message') →
  f_transport facts = f_transport tf ∧ message_id message' = message_id message ∧
  section_stream <$> head (sections message') = section_stream <$> head (sections message) ∧
  ∃ claims, identify_message message = Ok claims ∧
    let claimed := List.filter is_message_layer claims in
    f_unchecked facts = f_unchecked tf ++
      (unchecked_claim <$> tail claimed ++ List.filter (λ claim, negb (is_message_layer claim)) claims) ∧
    (f_message facts = f_message tf ∧ f_alignment facts = f_alignment tf ∧ message' = message ∨
     ∃ claim bare, head claimed = Some claim ∧ authenticate claim = Ok bare ∧
       f_message facts = Some (at_ bare now) ∧ allowed (authorize facts now) = true) ∧
    (sections message ≠ [] → claimed ≠ [] → is_Some (f_message facts)).
Proof.
  unfold settle_message_identity. destruct (identify_message message) as [claims|why]; [|done].
  destruct (List.filter is_message_layer claims) as [|claim rest] eqn:Hclaimed.
  { intros [= <- <-]. simpl. split_and!; try done. exists claims. rewrite Hclaimed. split_and!; try done. by left. }
  destruct (sections message) as [|section more] eqn:Hsections.
  { intros [= <- <-]. simpl. rewrite Hsections. split_and!; try done. exists claims. rewrite Hclaimed.
    split_and!; try done. by left. }
  unfold result_bind. destruct (authenticated claim now) as [one|] eqn:Hauth; [|done].
  apply authenticated_ok in Hauth as (bare & Hbare & ->).
  destruct (permitted _ now) as [facts'|] eqn:Hp; [|done]. apply permitted_ok in Hp as [-> Hallowed].
  intros [= <- <-]. simpl. split_and!; try done. exists claims. rewrite Hclaimed. split_and!; try done.
  right. by exists claim, bare.
Qed.

End arrival.

(** ** One arrival, its Message claiming an identity of its own *)

Definition journey_over (id : N) : Journey :=
  {| journey_id := id; state := Active; attempts := no_attempts; sequences := []; group := None;
     received := None; send_port := None; current_work_process := None; cause := None; previous := None;
     messages := []; history := [] |}.

Definition two_layers : ReceivedStream (Presented := bool * string) (Value := string) :=
  {| arriving := "https"; source_uri := "https://in"; headers := []; observed := []; presented_beside := None |}.

(** A claim is whether it is the Message's, and its name; everyone is
    authenticated but mallory, and everyone authenticated permitted. *)
Definition arriving_as (who : string) :=
  arrive (Identity := string) (Stream := N) (S := list N) (PromotionError := string) snd snd snd (λ t m, tt)
    (λ i, {| mechanism := ""; identity := i; class := ""; proven := true; verified := ""; established := "" |})
    (λ _, false) (λ _, None) [] (λ c n v, (n, v) :: c) (λ t, t) (λ b, "") [] "party"
    (λ _, Ok [(false, who)]) (λ _, Ok [(true, "content"%string); (false, "other"%string)])
    fst (λ uri, (false, uri)) (λ claim, claim)
    (λ claim, if String.eqb claim.2 "mallory" then Err "not accepted"%string else Ok claim.2) (λ one _, one)
    (λ _ _, true) (λ d, d) (λ s id, (id :: s, Ok id)) (λ _ _, None) (λ _, Ok tt) (λ _, tt) (λ _, true)
    (λ id _ _, journey_over id) two_layers 5%Z (λ k, N.of_nat k) [].

