(* ===== verification/Publication.v ===== *)
(** * Publication, and the receive cycle it ends: [src/ledger/publication.rs], [src/dead_message.rs], [src/message_path.rs]

    What an arrival routed is published by ([opened], [publish]): a Journey
    for every Subscription that matched and every Send Port it reaches, each
    held or lined up to be sent, or the Dead Message Queue's entry where
    nothing matched, as one write of Xmip Storage ([Publishing]); and the
    receive cycle around it ([carry]), which hands on what this node
    claimed, waits for the write to be durable and only then counts what its
    Subscriptions hold. The places taken, the lining up and the counting are
    [Sequence]'s, [SendStep]'s and [Pickup]'s; records of Messages and of the
    audit are parameters. *)

From Stdlib Require Import Ascii String.
From stdpp Require Import base numbers list gmap strings.
From S2P Require Import Prelude Journey Storage Keys Points Sending Sequence.
From S2P Require Import Departure SendStep Admission Pickup.

(** [route]'s answer for one Subscription asked. *)
Record Evaluation := {
  ev_subscription : string;
  ev_destination : Subscriber;
  ev_matched : bool;
  ev_reason : option string
}.

Abbreviation Routing := (list Evaluation).

(** [ledger::through]. *)
Definition through (destination : Subscriber) : option string :=
  match destination with SendGroup name => Some name | SendPort _ | WorkProcess _ => None end.

Definition with_send_port (j : Journey) (port : string) : Journey :=
  {| journey_id := journey_id j; state := state j; attempts := attempts j; sequences := sequences j;
     group := group j; Journey.received := Journey.received j; send_port := Some port;
     current_work_process := current_work_process j; cause := cause j;
     previous := previous j; messages := messages j; history := history j |}.

Definition received_as (j : Journey) (r : Received) : Journey :=
  {| journey_id := journey_id j; state := state j; attempts := attempts j; sequences := sequences j;
     group := group j; Journey.received := Some r; send_port := send_port j;
     current_work_process := current_work_process j; cause := cause j;
     previous := previous j; messages := messages j; history := history j |}.

(** [DeadMessage], [Publication]. *)
Record DeadMessage := {
  dm_queue : N;
  dm_message : N;
  dm_stream : N;
  dm_node : string;
  dm_location : string;
  dm_received : Z;
  dm_validation : list (string * string);
  dm_promoted : list (string * string);
  dm_declines : list (string * string);
  dm_body : bytes
}.

Record Publication := {
  pb_message : bytes;
  pb_journeys : list bytes;
  pb_held : list Hold;
  pb_audit : bytes;
  pb_dead : option DeadMessage;
  pb_claims : list Claim;
  pb_lease_nanos : N
}.

Class Publishing (S Durable : Type) := {
  write_publication : S → Publication → S * result (list Claim * Durable) string
}.

(** ** The Journeys opened *)

Section opened.
(** [Journey::matched], caused by the Subscription — and the Work Process
    it leads to — holding a Message and its Stream. *)
Context (matched : N → string → option string → N * N → Journey).

Definition process_of (destination : Subscriber) : option string :=
  match destination with WorkProcess process => Some process | SendPort _ | SendGroup _ => None end.

Definition opened_to_one (ev : Evaluation) (held : N * N) (id : N) (to : Subscriber) : Opened :=
  let journey := matched id (ev_subscription ev) (process_of (ev_destination ev)) held in
  {| opened_journey := match to with SendPort port => with_send_port journey port | _ => journey end;
     subscription := ev_subscription ev; opened_to := to; opened_group := through (ev_destination ev) |}.

(** [opened]: each identifier minted in turn. *)
Fixpoint opened (routing : Routing) (st : Pickup.State) (held : N * N) (ids : nat → N) : list Opened :=
  match routing with
  | [] => []
  | ev :: rest =>
      if ev_matched ev then
        let tos := reaches st (ev_subscription ev) (ev_destination ev) in
        imap (λ k to, opened_to_one ev held (ids k) to) tos ++
          opened rest st held (λ k, ids (length tos + k))
      else opened rest st held ids
  end.
End opened.

(** ** What the Dead Message Queue keeps: [dead_message.rs] *)

Section dead.
Context {Facts : Type} (dead_message_queue : string → N).

(** A layer's identity, as its gate concluded it: its verdict's word, its
    mechanism's name, its value; and the alignment's word. *)
Context (transport_said : Facts → string * string * string)
  (message_said : Facts → option (string * string * string)) (alignment_word : Facts → string).

Definition said_words (said : string * string * string) : string :=
  let '(verified, mechanism, value) := said in (verified +:+ " by " +:+ mechanism +:+ ": " +:+ value)%string.

(** [validation]. *)
Definition validation (facts : Facts) : list (string * string) :=
  ("transport identity"%string, said_words (transport_said facts)) ::
  from_option (λ said, [("message identity"%string, said_words said)]) [] (message_said facts) ++
  [("alignment"%string, alignment_word facts)].

Record Unmatched := { un_promoted : option (list (string * string)); un_facts : option Facts }.

(** [dead_message::entry]. *)
Definition dead_entry (node location : string) (now : Z) (held : N * N) (routing : Routing)
    (unmatched : Unmatched) (body : bytes) : DeadMessage :=
  {| dm_queue := dead_message_queue node; dm_message := held.1; dm_stream := held.2; dm_node := node;
     dm_location := location; dm_received := now;
     dm_validation := from_option validation [] (un_facts unmatched);
     dm_promoted := default [] (un_promoted unmatched);
     dm_declines :=
       (λ ev, (ev_subscription ev, default "its filter did not hold"%string (ev_reason ev))) <$>
         List.filter (λ ev, negb (ev_matched ev)) routing;
     dm_body := body |}.
End dead.

Arguments Unmatched : clear implicits.

(** ** Published, and carried *)

Section publishing.
Context {S T Message Facts Durable : Type} `{Publishing S Durable} `{JourneyOps}.
Abbreviation Sent := (SendStep.State Message Facts Durable).
Abbreviation Node := (S * Sent * Pickup.State)%type.
Implicit Types sends : Sends T.

Context (step : SendStep) (queue : Subscriber → N)
  (matched : N → string → option string → N * N → Journey)
  (named : string → N) (shown : KeyWord → string)
  (promote : Message → result (string → option string) string)
  (message_record : Message → bytes) (audited : string → Message → list Journey → bytes)
  (dead : string → Routing → Unmatched Facts → bytes → DeadMessage) (show_message : Message → string).

Record Published := {
  pd_journeys : list Journey;
  pd_holding : Holding;
  pd_lined : LinedUp;
  pd_durable : Durable
}.

Definition lined_none : LinedUp :=
  {| holds_lined := []; claims_lined := []; claimed := []; lined_admitted := 0; lined_asked := None |}.

(** The Journeys with what their arrival, their deliveries and their
    sequences tell them, and the places taken in this write: none yet where
    the Stream holds sequences end to end. *)
Definition opened_placed (cluster : string) sends (pk : Pickup.State) (received : Received) (held : N * N)
    (message : Message) (routing : Routing) (ids ids_delivered : nat → N) :
    result (list Opened * list Hold) string :=
  let born := (λ o, with_opened o (received_as (opened_journey o) received)) <$>
                opened matched routing pk held ids in
  let born := delivered sends born ids_delivered in
  if bool_decide (rec_sequences received = []) then
    let? promoted := promote message in
    let '(born, send_places) := places named shown cluster sends born promoted in
    let? send_places := send_places in Ok (born, send_places)
  else Ok (born, []).

(** What is held, and what is lined up of the rest: each Subscription's and
    the send step's section, one after the other. *)
Definition held_and_lined sends (born : list Opened) (body : bytes) (ids : nat → N) (now : N) (st : Sent)
    (pk : Pickup.State) : Sent * Holding * LinedUp :=
  if bool_decide (born = []) then (st, no_holding, lined_none)
  else
    let h := holding pk born body in
    let going := (λ o, (journey_id (opened_journey o), opened_to o)) <$> departing h born in
    let '(st, lined) := line_up queue step sends going body ids now st in
    (st, h, lined).

(** The one write. *)
Definition publication (location : string) (message : Message) (routing : Routing) (unmatched : Unmatched Facts)
    (body : bytes) (born : list Opened) (h : Holding) (lined : LinedUp) (stream_places send_places : list Hold) :
    Publication :=
  let journeys := opened_journey <$> born in
  {| pb_message := message_record message; pb_journeys := journey_record <$> journeys;
     pb_held := holds h ++ holds_lined lined ++
                (if bool_decide (born = []) then [] else stream_places) ++ send_places;
     pb_audit := audited location message journeys;
     pb_dead := if bool_decide (born = []) then Some (dead location routing unmatched body) else None;
     pb_claims := claims_lined lined; pb_lease_nanos := N.min (lease step) u64_max |}.

(** [ledger::publish]. *)
Definition publish (cluster : string) sends (location : string) (received : Received * list Hold)
    (held : N * N) (message : Message) (routing : Routing) (unmatched : Unmatched Facts) (body : bytes)
    (ids ids_delivered tokens : nat → N) (now : N) (n : Node) : Node * result Published string :=
  let '(s, st, pk) := n in
  match opened_placed cluster sends pk received.1 held message routing ids ids_delivered with
  | Err why => ((s, st, pk), Err why)
  | Ok (born, send_places) =>
      let '(st, h, lined) := held_and_lined sends born body tokens now st pk in
      let p := publication location message routing unmatched body born h lined received.2 send_places in
      match write_publication s p with
      | (s, Err why) =>
          ((s, withdraw (lined_admitted lined) st, pk),
           Err ("Xmip Storage did not take the Publication of the Message " +:+ show_message message +:+
                ": " +:+ why)%string)
      | (s, Ok (claims, durable)) =>
          let '(st, lined) := confirmed_lined claims lined st in
          ((s, st, pk), Ok {| pd_journeys := opened_journey <$> born; pd_holding := h; pd_lined := lined;
                              pd_durable := durable |})
      end
  end.

(** How a receive cycle ended. *)
Inductive ReceiveCycle := CycleCompleted | CycleRefused | CycleFailed.

(** What an arrival came to, as [carry] takes it up: routed or not, with its
    Message, facts and routing; refused; failed. *)
Inductive Came :=
  | CameRouted (message : Message) (held : N * N) (facts : Facts) (routing : Routing)
  | CameUnroutable (message : Message) (held : N * N) (facts : Facts) (routing : Routing)
      (promoted : list (string * string))
  | CameRefused
  | CameFailed (reason : string).

(** [Carried::cycle]. *)
Definition cycle (came : Came) : ReceiveCycle :=
  match came with
  | CameRouted _ _ _ _ | CameUnroutable _ _ _ _ _ => CycleCompleted
  | CameRefused => CycleRefused
  | CameFailed _ => CycleFailed
  end.

Record Carried := { carried : Came; carried_held : nat; carried_journeys : list Journey }.

(** [IdentityFacts::record], where its Stream came in and its places
    ([sequence::received]), and a write durable or not. *)
Context (facts_record : Facts → bytes)
  (received_at : Message → result (Received * list Hold) string)
  (wait : Durable → result unit string).

(** [message_path::published]. *)
Definition published_of (cluster : string) sends (location : string) (ids ids_delivered tokens : nat → N) (now : N)
    (came : Came) (n : Node) : Node * Came * option Published :=
  let publishes message held facts routing unmatched :=
    match received_at message with
    | Err reason => (n, CameFailed reason, None)
    | Ok received =>
        match publish cluster sends location received held message routing unmatched (facts_record facts)
                ids ids_delivered tokens now n with
        | (n, Ok published) => (n, came, Some published)
        | (n, Err reason) => (n, CameFailed reason, None)
        end
    end in
  match came with
  | CameRouted message held facts routing =>
      publishes message held facts routing {| un_promoted := None; un_facts := None |}
  | CameUnroutable message held facts routing promoted =>
      publishes message held facts routing {| un_promoted := Some promoted; un_facts := Some facts |}
  | CameRefused | CameFailed _ => (n, came, None)
  end.

(** [carry], from what the arrival came to: with the queues the Work Process
    step is asked to read. *)
Definition carry (cluster : string) sends (location : string) (ids ids_delivered tokens : nat → N) (now handed : N)
    (came : Came) (n : Node) : Node * list N * Carried :=
  let '(n, came, published) := published_of cluster sends location ids ids_delivered tokens now came n in
  match published with
  | None => (n, [], {| carried := came; carried_held := 0; carried_journeys := [] |})
  | Some p =>
      let '(s, st, pk) := n in
      let '(st, asked) :=
        match came with
        | CameRouted message _ facts _ =>
            (handed_on step (pd_lined p) (pd_journeys p) message facts (pd_durable p) handed st,
             hold_queue <$> holds_lined (pd_lined p))
        | _ => (withdraw (lined_admitted (pd_lined p)) st, [])
        end in
      match wait (pd_durable p) with
      | Err why =>
          ((s, st, pk), asked,
           {| carried := CameFailed ("Xmip Storage did not keep the Publication: " +:+ why)%string;
              carried_held := 0; carried_journeys := [] |})
      | Ok _ =>
          ((s, st, Pickup.published (pd_holding p) pk), asked,
           {| carried := came; carried_held := length (holds (pd_holding p)); carried_journeys := pd_journeys p |})
      end
  end.
End publishing.

(** ** One write, and what hangs on it *)

(** Any Xmip Storage with the Publications it took beside it. *)
#[export] Instance logged_publishing {S Durable} `{Publishing S Durable} :
    Publishing (S * list Publication) Durable := {
  write_publication s p :=
    let '(s', r) := write_publication s.1 p in
    ((s', match r with Ok _ => p :: s.2 | Err _ => s.2 end), r)
}.

Section written.
Context {S T Message Facts Durable : Type} `{Publishing S Durable} `{JourneyOps}.
Abbreviation Sent := (SendStep.State Message Facts Durable).
Implicit Types sends : Sends T.
Implicit Types st : Sent.
Implicit Types s : (S * list Publication)%type.
Context (step : SendStep) (queue : Subscriber → N)
  (matched : N → string → option string → N * N → Journey)
  (named : string → N) (shown : KeyWord → string)
  (promote : Message → result (string → option string) string)
  (message_record : Message → bytes) (audited : string → Message → list Journey → bytes)
  (dead : string → Routing → Unmatched Facts → bytes → DeadMessage) (show_message : Message → string).

Lemma withdraw_handed n st : handed (withdraw n st) = handed st.
Proof. unfold withdraw. by destruct (n =? 0)%N. Qed.

Lemma lined_members sends going body ids places :
  hold_member <$> (lined queue step sends going body ids places).1 = going.*1.
Proof.
  revert ids places. induction going as [|[id to] rest IH]; intros ids places; [done|]. simpl.
  destruct ((0 <? places)%N && _).
  - specialize (IH (λ k, ids (Datatypes.S k)) (places - 1)%N).
    destruct (lined queue step sends rest _ _ _) as [holds claimed]. csimpl. by f_equal.
  - specialize (IH ids places). destruct (lined queue step sends rest _ _ _) as [holds claimed].
    csimpl. by f_equal.
Qed.

Lemma filter_both {A} (f : A → bool) (l : list A) :
  List.filter f l ++ List.filter (λ x, negb (f x)) l ≡ₚ l.
Proof.
  induction l as [|x l IH]; [done|]. simpl. destruct (f x); simpl; [by rewrite IH|].
  rewrite <-Permutation_middle. by rewrite IH.
Qed.

(** What is held and lined up: each Journey born once, in its
    Subscription's queue or that of where it leads, and as many places of
    the Send pool taken as the lining up keeps. *)
Lemma held_and_lined_whole sends born body ids now st pk st' h lined :
  held_and_lined step queue sends born body ids now st pk = (st', h, lined) →
  (hold_member <$> holds h ++ holds_lined lined) ≡ₚ (λ o, journey_id (opened_journey o)) <$> born ∧
  (∀ o, o ∈ born → journey_id (opened_journey o) ∈ hold_member <$> holds h →
     ∃ o', o' ∈ born ∧ journey_id (opened_journey o') = journey_id (opened_journey o) ∧ is_held pk false o' = true) ∧
  admitted st' = (admitted st + lined_admitted lined)%N ∧
  (N.of_nat (length (claimed lined)) ≤ lined_admitted lined)%N ∧
  handed st' = handed st ∧ owned st' = owned st.
Proof.
  unfold held_and_lined. case_bool_decide as Hnil.
  { subst born. intros [= <- <- <-]. simpl. split_and!; try done; [|lia]. intros o ?%elem_of_nil. done. }
  unfold holding. rewrite departing_is. unfold line_up, admit_places.
  set (going := (λ o, (journey_id (opened_journey o), opened_to o)) <$> List.filter (λ o, negb (is_held pk false o)) born).
  set (wanted := N.of_nat _). set (room := (wanted `min` room_in step st)%N).
  pose proof (lined_members sends going body ids room) as Hmem.
  pose proof (lined_length step queue sends going body ids room) as Hlen.
  destruct (SendStep.lined queue step sends going body ids room) as [lholds lclaimed]. simpl in *.
  intros [= <- <- <-]. split_and!; try done.
  - cbn [holds_lined]. rewrite fmap_app, held_members, Hmem. unfold going. rewrite <-list_fmap_compose.
    change (fst ∘ (λ o, (journey_id (opened_journey o), opened_to o))) with (λ o, journey_id (opened_journey o)).
    rewrite <-fmap_app. by rewrite filter_both.
  - intros o Ho. rewrite held_members. intros (o' & Heq & Hin)%list_elem_of_fmap.
    apply list_elem_of_In, filter_In in Hin as [Hin Hheld]. exists o'. split_and!; [by apply list_elem_of_In|done|done].
Qed.

Abbreviation publish := (publish (T := T) step queue matched named shown promote message_record audited dead show_message).

(** A Publication written is whole: every Journey it opened kept once in one
    queue, or the Dead Message Queue's entry where it opened none, in the one
    write; a Publication not written leaves nothing held, handed or
    admitted. *)
Definition whole (p : Published (Durable := Durable)) (pb : Publication) : Prop :=
  pb_journeys pb = journey_record <$> pd_journeys p ∧
  (∃ places, pb_held pb = holds (pd_holding p) ++ holds_lined (pd_lined p) ++ places) ∧
  (hold_member <$> holds (pd_holding p) ++ holds_lined (pd_lined p)) ≡ₚ journey_id <$> pd_journeys p ∧
  (pb_dead pb = None ↔ pd_journeys p ≠ []).

Lemma publish_whole cluster sends location received held message routing unmatched body ids ids_delivered tokens
    now s st pk s' st' pk' r :
  publish cluster sends location received held message routing unmatched body ids ids_delivered tokens now
    (s, st, pk) = ((s', st', pk'), r) →
  pk' = pk ∧
  match r with
  | Err _ => s'.2 = s.2 ∧ admitted st' = admitted st ∧ handed st' = handed st ∧ owned st' = owned st
  | Ok p => (∃ pb, s'.2 = pb :: s.2 ∧ whole p pb) ∧ handed st' = handed st ∧ owned st' = owned st ∧
      admitted st' = (admitted st + lined_admitted (pd_lined p))%N
  end.
Proof.
  unfold Publication.publish.
  destruct (opened_placed _ _ _ _ _ _ _ _ _ _ _ _ _) as [[born send_places]|why]; [|by intros [= <- <- <- <-]].
  destruct (held_and_lined _ _ _ _ _ _ _ _ _) as [[st1 h] lined] eqn:Hl.
  apply held_and_lined_whole in Hl as (Hmem & _ & Hadm & Hclaimed & Hh & Ho).
  cbn [write_publication logged_publishing].
  destruct (write_publication s.1 _) as [s1 [[claims durable]|why]]; cbn beta iota.
  - destruct (confirmed_lined claims lined st1) as [st2 lined'] eqn:Hc.
    assert (holds_lined lined' = holds_lined lined) as Hsame by (unfold confirmed_lined in Hc; by simplify_eq/=).
    apply confirmed_spec in Hc as (gone & Hgone & -> & Hkept & _); [|done].
    intros [= <- <- <- <-]. split; [done|]. destruct (withdraw_spec gone st1) as (Hwo & _ & Hwa).
    split_and!.
    + eexists. split; [reflexivity|]. unfold whole. simpl. rewrite ?Hsame. split_and!; [done|by eexists| |].
      * by rewrite Hmem, <-list_fmap_compose.
      * case_bool_decide as Hnil; [subst born; split; [done|by intros []]|].
        split; [|done]. intros _ Hf. by destruct born.
    + by rewrite withdraw_handed.
    + by rewrite Hwo.
    + simpl. rewrite Hwa, Hkept, Hadm. lia.
  - intros [= <- <- <- <-]. destruct (withdraw_spec (lined_admitted lined) st1) as (Hwo & _ & Hwa).
    split_and!; [done|done|rewrite Hwa, Hadm; lia| |by rewrite Hwo].
    by rewrite withdraw_handed.
Qed.

Context (facts_record : Facts → bytes) (received_at : Message → result (Received * list Hold) string)
  (wait : Durable → result unit string).

Abbreviation carry := (carry (T := T) step queue matched named shown promote message_record audited dead show_message
  facts_record received_at wait).

End written.

(** ** One Message, matched by a paused Subscription and one that is not *)

Section witnesses.
Local Open Scope N_scope.

#[local] Instance takes_publications : Publishing unit unit :=
  { write_publication s p := (s, Ok (pb_claims p, tt)) }.

#[local] Instance no_records : JourneyOps :=
  {| append j _ _ := j; journey_record j := [Byte.x00]; from_record _ := Err "" |}.

Definition born_as (id : N) (by_name : string) (process : option string) (held : N * N) : Journey :=
  {| journey_id := id; state := Active; attempts := no_attempts; sequences := []; group := None;
     Journey.received := None; send_port := None; current_work_process := process; cause := Some by_name;
     previous := None; messages := [held.1]; history := [] |}.

Definition two_subscriptions : Pickup.State :=
  [acted (opened_entry ("orders"%string, [], SendPort "Out") 7 None 3%Z 0) (act_standing true "ilian" 5%Z);
   opened_entry ("copies"%string, ["Out"%string], SendPort "Out") 8 None 3%Z 0].

Definition matching (name : string) : Evaluation :=
  {| ev_subscription := name; ev_destination := SendPort "Out"; ev_matched := true; ev_reason := None |}.

Definition sending_node : SendStep :=
  {| cluster := "c"; node := "n"; lease := 30; scan := 1; window := 100;
     limits := {| Tuning.most := 2; Tuning.idle := 60 |} |}.

Definition nothing_sent : SendStep.State unit unit unit := (SendStep.new 4 "c" "n" Tuning.default_tuning).2.

Definition routed_here : Came (Message := unit) (Facts := unit) :=
  CameRouted tt (9, 10) tt [matching "orders"; matching "copies"].

Definition carrying :=
  carry (T := N) (S := unit * list Publication) (Durable := unit) sending_node (λ _, 50) born_as
    (λ _, 0) (λ _, "") (λ _, Ok (λ _, None)) (λ _, []) (λ _ _ _, [])
    (λ at_ routing u body, dead_entry (λ _, 3) (λ _ : unit, ("", "", "")%string) (λ _, None) (λ _, "") "n" at_ 5%Z
       (9, 10) routing u body)
    (λ _, "9") (λ _, []) (λ _, Ok ({| rec_location := "In"; rec_port := "In"; rec_origin := 4;
                                     rec_sequences := []; rec_skips := false |}, []))
    (λ _, Ok tt) "c" Departure.two_locations "In" (λ k, 100 + N.of_nat k) (λ k, 200 + N.of_nat k)
    (λ k, 300 + N.of_nat k) 1000 1001 routed_here ((tt, []), nothing_sent, two_subscriptions).

End witnesses.
