(* ===== verification/Split.v ===== *)
(** * A Message split into its records: [src/split.rs]

    [whole] feeds a Message's bytes to a splitting unit a chunk at a time,
    in order, and answers a Message for each record: each record's bytes
    written into the Ledger as a Stream of its own as soon as the unit
    completes it ([StreamLedger.write_stream]), while none has been
    refused, and the Messages made once every record is split ([parts]) or,
    where any was refused, none and every refusal with its position. The
    unit ([Split]) is a library's, and the gathering of outcomes
    ([xcore::Outcomes]) another crate's: parameters, the second with what
    its documentation says of it. So is a Stream's reader, here the chunks
    it answers one read after another and whether it then ends or fails.
    [debatch] is the Work Process step's, which [WorkTurn] takes as
    [split_whole]. *)

From stdpp Require Import base numbers list strings.
From S2P Require Import Prelude Journey Storage StreamLedger Arrival.

(** What the outcomes of a batch are gathered in. *)
Class Gathering (O : Type) := {
  outcomes_new : O;
  took : O → O * N;
  succeed : N → O → O;
  fail : string → string → option string → N → O → O;
  failed : O → list (string * string * option string * N);
  total : O → N
}.

(** [Outcomes::took] counts one more item and answers its position, from
    one; a failure is kept with all that is said of it. *)
Class GatheringLaws (O : Type) `{Gathering O} := {
  new_failed : failed outcomes_new = [];
  new_total : total outcomes_new = 0%N;
  took_position o : (took o).2 = (total o + 1)%N;
  took_total o : total (took o).1 = (total o + 1)%N;
  took_failed o : failed (took o).1 = failed o;
  succeed_failed position o : failed (succeed position o) = failed o;
  succeed_total position o : total (succeed position o) = total o;
  fail_failed code reason artifact position o :
    failed (fail code reason artifact position o) = failed o ++ [(code, reason, artifact, position)];
  fail_total code reason artifact position o : total (fail code reason artifact position o) = total o
}.

Definition REFUSED : string := "record-refused".
Definition BATCH : string := "debatch.message".
Definition POSITION : string := "debatch.position".
Definition COUNT : string := "debatch.count".

(** [Record]. *)
Inductive Record_ :=
  | Part (b : bytes)
  | RecordRefused (reason : string).

Definition i64_max : Z := 2 ^ 63 - 1.

Section split.
Context {Digest : Type} (new_digest : Digest) (update : Digest → bytes → Digest) (show_stream : N → string).
Context {S : Type} `{StreamStorage Digest S}.
Context {O : Type} `{Gathering O}.
Context {Context_ Stream Value Unit : Type}.

(** A unit: fed a chunk, the records it completes; at the end, what
    remains. *)
Context (unit_feed : Unit → bytes → Unit * list Record_) (unit_end : Unit → list Record_).

(** The Stream a kept one is, a Stream's reads in chunks of a size, a
    context's values, and the generation that follows a Message. *)
Context (kept_as : Kept → Stream)
  (reads : Stream → nat → result (list bytes * option string) string)
  (with_value : string → Value → Context_ → Context_) (text : string → Value) (integer : Z → Value)
  (show_message : N → string)
  (debatched : Message (Context_ := Context_) (Stream := Stream) → N → list (MessageSection (Stream := Stream)) →
     Context_ → Message (Context_ := Context_) (Stream := Stream)).

Context (ids : nat → N).

Abbreviation Section_ := (MessageSection (Stream := Stream)).
Abbreviation Message_ := (Message (Context_ := Context_) (Stream := Stream)).

(** [Splitting], with the identifiers minted so far; what the unit found is
    written at once, so none waits between two calls. *)
Record Splitting := {
  sp_unit : Unit;
  sp_written : list Section_;
  sp_failures : O;
  sp_artifact : option string;
  sp_minted : nat
}.

Definition splitting_new (u : Unit) (artifact : option string) (k : nat) : Splitting :=
  {| sp_unit := u; sp_written := []; sp_failures := outcomes_new; sp_artifact := artifact; sp_minted := k |}.

Definition with_failures (sp : Splitting) (f : O) : Splitting :=
  {| sp_unit := sp_unit sp; sp_written := sp_written sp; sp_failures := f; sp_artifact := sp_artifact sp;
     sp_minted := sp_minted sp |}.

Definition none_failed (f : O) : bool := bool_decide (failed f = []).

(** [Splitting::section]. *)
Definition section (chunk : nat) (b : bytes) (k : nat) (s : S) : option (S * nat * result Section_ string) :=
  match write_stream new_digest update show_stream (ids k) {| data := b; fault := None |} chunk s with
  | None => None
  | Some (s, Err why) => Some (s, Datatypes.S k, Err why)
  | Some (s, Ok kept) =>
      Some (s, Datatypes.S (Datatypes.S k),
            Ok {| section_id := ids (Datatypes.S k); section_name := None; section_stream := kept_as kept |})
  end.

(** [Splitting::write]. *)
Fixpoint write_records (chunk : nat) (records : list Record_) (sp : Splitting) (s : S) :
    option (S * Splitting * result unit string) :=
  match records with
  | [] => Some (s, sp, Ok tt)
  | record :: rest =>
      let '(f, position) := took (sp_failures sp) in
      match record with
      | Part b =>
          if none_failed f then
            match section chunk b (sp_minted sp) s with
            | None => None
            | Some (s, k, Err why) =>
                Some (s, {| sp_unit := sp_unit sp; sp_written := sp_written sp; sp_failures := f;
                            sp_artifact := sp_artifact sp; sp_minted := k |}, Err why)
            | Some (s, k, Ok one) =>
                write_records chunk rest
                  {| sp_unit := sp_unit sp; sp_written := sp_written sp ++ [one];
                     sp_failures := succeed position f; sp_artifact := sp_artifact sp; sp_minted := k |} s
            end
          else write_records chunk rest (with_failures sp (succeed position f)) s
      | RecordRefused reason =>
          write_records chunk rest (with_failures sp (fail REFUSED reason (sp_artifact sp) position f)) s
      end
  end.

(** [Splitting::feed], [Splitting::end]. *)
Definition feed (chunk : nat) (b : bytes) (sp : Splitting) (s : S) : option (S * Splitting * result unit string) :=
  let '(u, records) := unit_feed (sp_unit sp) b in
  write_records chunk records
    {| sp_unit := u; sp_written := sp_written sp; sp_failures := sp_failures sp; sp_artifact := sp_artifact sp;
       sp_minted := sp_minted sp |} s.

Definition ended (chunk : nat) (sp : Splitting) (s : S) :
    option (S * nat * result (result (list Section_) O) string) :=
  match write_records chunk (unit_end (sp_unit sp)) sp s with
  | None => None
  | Some (s, sp, Err why) => Some (s, sp_minted sp, Err why)
  | Some (s, sp, Ok _) =>
      Some (s, sp_minted sp,
            Ok (if none_failed (sp_failures sp) then Ok (sp_written sp) else Err (sp_failures sp)))
  end.

(** [parts]. *)
Definition part_context (from : Message_) (count position : Z) : Context_ :=
  with_value COUNT (integer count)
    (with_value POSITION (integer position)
       (with_value BATCH (text (show_message (message_id from))) (message_context from))).

Fixpoint parts_from (from : Message_) (count position : Z) (sections : list Section_) (k : nat) : list Message_ :=
  match sections with
  | [] => []
  | one :: rest =>
      debatched from (ids k) [one] (part_context from count position) ::
      parts_from from count (position + 1) rest (Datatypes.S k)
  end.

Definition parts (from : Message_) (split : result (list Section_) O) (k : nat) : nat * result (list Message_) O :=
  match split with
  | Err failures => (k, Err failures)
  | Ok sections =>
      let count := Z.min (Z.of_nat (length sections)) i64_max in
      (k + length sections, Ok (parts_from from count 1 sections k))
  end.

(** [whole]: each Section's reads fed, in order. *)
Definition unread (from : Message_) (failed : string) : string :=
  ("the Message " +:+ show_message (message_id from) +:+ " could not be read: " +:+ failed)%string.

Fixpoint feed_all (chunk : nat) (chunks : list bytes) (sp : Splitting) (s : S) :
    option (S * Splitting * result unit string) :=
  match chunks with
  | [] => Some (s, sp, Ok tt)
  | b :: rest =>
      match feed chunk b sp s with
      | None => None
      | Some (s, sp, Err why) => Some (s, sp, Err why)
      | Some (s, sp, Ok _) => feed_all chunk rest sp s
      end
  end.

Fixpoint feed_sections (chunk : nat) (from : Message_) (those : list Section_) (sp : Splitting) (s : S) :
    option (S * Splitting * result unit string) :=
  match those with
  | [] => Some (s, sp, Ok tt)
  | one :: rest =>
      match reads (section_stream one) (chunk `max` 1) with
      | Err why => Some (s, sp, Err (unread from why))
      | Ok (chunks, ends) =>
          match feed_all (chunk `max` 1) chunks sp s, ends with
          | None, _ => None
          | Some (s, sp, Err why), _ => Some (s, sp, Err why)
          | Some (s, sp, Ok _), Some why => Some (s, sp, Err (unread from why))
          | Some (s, sp, Ok _), None => feed_sections chunk from rest sp s
          end
      end
  end.

Definition whole (chunk : nat) (from : Message_) (u : Unit) (artifact : option string) (k : nat) (s : S) :
    option (S * nat * result (result (list Message_) O) string) :=
  match feed_sections chunk from (sections from) (splitting_new u artifact k) s with
  | None => None
  | Some (s, sp, Err why) => Some (s, sp_minted sp, Err why)
  | Some (s, sp, Ok _) =>
      match ended (chunk `max` 1) sp s with
      | None => None
      | Some (s, k, Err why) => Some (s, k, Err why)
      | Some (s, k, Ok split) => let '(k, made) := parts from split k in Some (s, k, Ok made)
      end
  end.
End split.

(** ** What a split leaves *)

Section splits.
Context {Digest : Type} (new_digest : Digest) (update : Digest → bytes → Digest) (show_stream : N → string).
Context {S : Type} `{StreamStorage Digest S}.
Context {O : Type} `{GatheringLaws O}.
Context {Context_ Stream Value Unit : Type}.
Context (unit_feed : Unit → bytes → Unit * list Record_) (unit_end : Unit → list Record_).
Context (kept_as : Kept → Stream)
  (reads : Stream → nat → result (list bytes * option string) string)
  (with_value : string → Value → Context_ → Context_) (text : string → Value) (integer : Z → Value)
  (show_message : N → string)
  (debatched : Message (Context_ := Context_) (Stream := Stream) → N → list (MessageSection (Stream := Stream)) →
     Context_ → Message (Context_ := Context_) (Stream := Stream)).
Context (ids : nat → N).

Abbreviation Section_ := (MessageSection (Stream := Stream)).
Abbreviation Message_ := (Message (Context_ := Context_) (Stream := Stream)).
Abbreviation Splitting := (Splitting (O := O) (Stream := Stream) (Unit := Unit)).
Abbreviation section := (section (S := S) new_digest update show_stream kept_as ids).
Abbreviation write_records := (write_records (S := S) (O := O) (Unit := Unit) new_digest update show_stream kept_as ids).
Abbreviation feed_all := (feed_all (S := S) (O := O) new_digest update show_stream unit_feed kept_as ids).
Abbreviation feed_sections := (feed_sections (S := S) (O := O) new_digest update show_stream unit_feed kept_as reads show_message ids).
Abbreviation ended := (ended (S := S) (O := O) new_digest update show_stream unit_end kept_as ids).
Abbreviation whole := (whole (S := S) (O := O) new_digest update show_stream unit_feed unit_end kept_as reads with_value
  text integer show_message debatched ids).
Abbreviation part_context := (part_context with_value text integer show_message).
Abbreviation parts_from := (parts_from with_value text integer show_message debatched ids).

(** The reference: every record a unit finds in the chunks, and what of
    them is written, refused and told. *)
Fixpoint fed (u : Unit) (chunks : list bytes) : Unit * list Record_ :=
  match chunks with
  | [] => (u, [])
  | b :: rest => let '(u, some) := unit_feed u b in let '(u, others) := fed u rest in (u, some ++ others)
  end.

Definition found (u : Unit) (chunks : list bytes) : list Record_ :=
  let '(u, some) := fed u chunks in some ++ unit_end u.

Fixpoint parts_before (records : list Record_) : list bytes :=
  match records with Part b :: rest => b :: parts_before rest | _ => [] end.

Fixpoint refusals (artifact : option string) (position : N) (records : list Record_) :
    list (string * string * option string * N) :=
  match records with
  | [] => []
  | Part _ :: rest => refusals artifact (position + 1) rest
  | RecordRefused reason :: rest => (REFUSED, reason, artifact, position) :: refusals artifact (position + 1) rest
  end.

(** Records written, each a Stream of its own, one after another. *)
Inductive kept_each (chunk : nat) : nat → S → list bytes → list Section_ → nat → S → Prop :=
  | kept_none k s : kept_each chunk k s [] [] k s
  | kept_next k s bodies those k1 s1 b k2 s2 one :
      kept_each chunk k s bodies those k1 s1 → section chunk b k1 s1 = Some (s2, k2, Ok one) →
      kept_each chunk k s (bodies ++ [b]) (those ++ [one]) k2 s2.

Lemma refusals_app artifact position r1 r2 :
  refusals artifact position (r1 ++ r2) =
  refusals artifact position r1 ++ refusals artifact (position + N.of_nat (length r1)) r2.
Proof.
  revert position. induction r1 as [|[b|why] r1 IH]; intros position; simpl; [by rewrite N.add_0_r|..];
    rewrite IH; replace (position + N.of_nat (Datatypes.S (length r1)))%N with (position + 1 + N.of_nat (length r1))%N
      by lia; done.
Qed.

Lemma parts_before_app artifact position r1 r2 :
  refusals artifact position r1 = [] → parts_before (r1 ++ r2) = parts_before r1 ++ parts_before r2.
Proof. revert position. induction r1 as [|[b|why] r1 IH]; intros position; simpl; [done| |done]. intros Hn. by rewrite (IH _ Hn). Qed.

Lemma parts_before_refused artifact position r1 r2 :
  refusals artifact position r1 ≠ [] → parts_before (r1 ++ r2) = parts_before r1.
Proof. revert position. induction r1 as [|[b|why] r1 IH]; intros position; simpl; [done| |done]. intros Hn. by rewrite (IH _ Hn). Qed.

Lemma none_refused artifact position records :
  refusals artifact position records = [] → records = Part <$> parts_before records.
Proof.
  revert position. induction records as [|[b|why] r IH]; intros position; simpl; [done| |done].
  intros Hn. f_equal. by eapply IH.
Qed.

Lemma some_refused artifact position records :
  refusals artifact position records ≠ [] → ∃ reason, RecordRefused reason ∈ records.
Proof.
  revert position. induction records as [|[b|why] r IH]; intros position; simpl; [done| |].
  - intros Hn. destruct (IH _ Hn) as [reason ?]. exists reason. by right.
  - intros _. exists why. by left.
Qed.

(** What splitting so many records has done. *)
Record so_far (chunk : nat) (artifact : option string) (k : nat) (s : S) (records : list Record_)
    (sp : Splitting) (s' : S) : Prop := {
  so_failed : failed (sp_failures sp) = refusals artifact 1 records;
  so_total : total (sp_failures sp) = N.of_nat (length records);
  so_artifact : sp_artifact sp = artifact;
  so_kept : kept_each chunk k s (parts_before records) (sp_written sp) (sp_minted sp) s'
}.

(** What a split that could not go on had done: the records written before,
    and what failed of Xmip Storage or of reading the Message. *)
Definition stopped (chunk : nat) (k : nat) (s s' : S) (k' : nat) (why : string) : Prop :=
  ∃ bodies those k1 s1, kept_each chunk k s bodies those k1 s1 ∧
    (s1 = s' ∧ k1 = k' ∨ ∃ b, section chunk b k1 s1 = Some (s', k', Err why)).

Lemma section_returns chunk b k s : ∃ res, section chunk b k s = Some res.
Proof.
  unfold Split.section. destruct (write_stream_returns new_digest update show_stream (ids k)
    {| data := b; fault := None |} chunk s) as [[s1 [kept|why]] Heq]; rewrite Heq; by eexists.
Qed.

Lemma write_records_so_far chunk artifact k s more records sp s1 :
  so_far chunk artifact k s records sp s1 →
  ∃ s' sp' r, write_records chunk more sp s1 = Some (s', sp', r) ∧ sp_unit sp' = sp_unit sp ∧
    match r with
    | Ok _ => so_far chunk artifact k s (records ++ more) sp' s'
    | Err why => stopped chunk k s s' (sp_minted sp') why
    end.
Proof.
  revert records sp s1. induction more as [|record more IH]; intros records sp s1 [Hf Ht Ha Hk].
  { exists s1, sp, (Ok tt). by rewrite app_nil_r. }
  cbn [Split.write_records]. pose proof (took_position (sp_failures sp)) as Hpos.
  pose proof (took_total (sp_failures sp)) as Htt. pose proof (took_failed (sp_failures sp)) as Htf.
  destruct (took (sp_failures sp)) as [f position]. simpl in *. rewrite Hf in Htf. rewrite Ht in *.
  assert (length (records ++ [record]) = Datatypes.S (length records)) as Hlen
    by (rewrite length_app; simpl; lia).
  change (record :: more) with ([record] ++ more). rewrite app_assoc.
  destruct record as [b|reason].
  - unfold none_failed. case_bool_decide as Hnone; rewrite Htf in Hnone.
    + destruct (section_returns chunk b (sp_minted sp) s1) as [[[s2 k2] [one|why]] Hs]; rewrite Hs.
      * edestruct (IH (records ++ [Part b])) as (s' & sp' & r & -> & Hu & Hr); [|by eauto 10].
        split; simpl; [by rewrite succeed_failed, Htf, refusals_app, app_nil_r|rewrite succeed_total; lia|done|].
        rewrite (parts_before_app artifact 1) by done. simpl. by eapply kept_next.
      * eexists _, _, _. split; [reflexivity|]. split; [done|]. simpl. eexists _, _, _, _. split; [exact Hk|]. right. by exists b.
    + edestruct (IH (records ++ [Part b])) as (s' & sp' & r & -> & Hu & Hr); [|by eauto 10].
      split; simpl; [by rewrite succeed_failed, Htf, refusals_app, app_nil_r|rewrite succeed_total; lia|done|].
      by rewrite (parts_before_refused artifact 1).
  - edestruct (IH (records ++ [RecordRefused reason])) as (s' & sp' & r & -> & Hu & Hr); [|by eauto 10].
    split; simpl; [|rewrite fail_total; lia|done|].
    + rewrite fail_failed, Htf, refusals_app, Ha, Hpos. simpl.
      by replace (1 + N.of_nat (length records))%N with (N.of_nat (length records) + 1)%N by lia.
    + destruct (decide (refusals artifact 1 records = [])) as [Hn|Hn].
      * rewrite (parts_before_app artifact 1) by done. simpl. by rewrite app_nil_r.
      * by rewrite (parts_before_refused artifact 1).
Qed.
Definition stepped (sp : Splitting) (u : Unit) : Splitting :=
  {| sp_unit := u; sp_written := sp_written sp; sp_failures := sp_failures sp; sp_artifact := sp_artifact sp;
     sp_minted := sp_minted sp |}.

Lemma feed_all_so_far chunk artifact k s chunks records sp s1 :
  so_far chunk artifact k s records sp s1 →
  ∃ s' sp' r, feed_all chunk chunks sp s1 = Some (s', sp', r) ∧
    match r with
    | Ok _ => so_far chunk artifact k s (records ++ (fed (sp_unit sp) chunks).2) sp' s' ∧
        sp_unit sp' = (fed (sp_unit sp) chunks).1
    | Err why => stopped chunk k s s' (sp_minted sp') why
    end.
Proof.
  revert records sp s1. induction chunks as [|b chunks IH]; intros records sp s1 Hso.
  { eexists _, _, _. split; [reflexivity|]. simpl. by rewrite app_nil_r. }
  simpl. unfold feed. destruct (unit_feed (sp_unit sp) b) as [u some] eqn:Hu.
  destruct (write_records_so_far chunk artifact k s some records (stepped sp u) s1) as (s2 & sp2 & r & Heq & Hunit & Hr);
    [by destruct Hso|]. unfold stepped in Heq. rewrite Heq. simpl in Hunit.
  destruct r as [[]|why]; [|by eexists _, _, _].
  destruct (IH _ _ _ Hr) as (s3 & sp3 & r & -> & Hr3). rewrite Hunit in Hr3.
  destruct (fed u chunks) as [u' others]. simpl in *. eexists _, _, _. split; [reflexivity|]. by rewrite app_assoc.
Qed.

(** What a Message reads as: every chunk of every Section, up to one that
    fails. *)
Fixpoint read_of (chunk : nat) (those : list Section_) : list bytes * bool :=
  match those with
  | [] => ([], true)
  | one :: rest =>
      match reads (section_stream one) chunk with
      | Err _ => ([], false)
      | Ok (chunks, Some _) => (chunks, false)
      | Ok (chunks, None) => let '(others, whole) := read_of chunk rest in (chunks ++ others, whole)
      end
  end.

Lemma fed_app u c1 c2 :
  fed u (c1 ++ c2) = ((fed (fed u c1).1 c2).1, (fed u c1).2 ++ (fed (fed u c1).1 c2).2).
Proof.
  revert u. induction c1 as [|b c1 IH]; intros u; simpl; [by destruct (fed u c2)|].
  destruct (unit_feed u b) as [u1 some]. rewrite IH. destruct (fed u1 c1) as [u2 more]. simpl.
  by rewrite app_assoc.
Qed.

Lemma stopped_here chunk artifact k s records sp s1 why :
  so_far chunk artifact k s records sp s1 → stopped chunk k s s1 (sp_minted sp) why.
Proof. intros [_ _ _ Hk]. eexists _, _, _, _. split; [exact Hk|]. by left. Qed.

Lemma feed_sections_so_far chunk artifact k s (from : Message_) those records sp s1 :
  so_far (chunk `max` 1) artifact k s records sp s1 →
  ∃ s' sp' r, feed_sections chunk from those sp s1 = Some (s', sp', r) ∧
    match r with
    | Ok _ => let '(chunks, whole) := read_of (chunk `max` 1) those in whole = true ∧
        so_far (chunk `max` 1) artifact k s (records ++ (fed (sp_unit sp) chunks).2) sp' s' ∧
        sp_unit sp' = (fed (sp_unit sp) chunks).1
    | Err why => stopped (chunk `max` 1) k s s' (sp_minted sp') why
    end.
Proof.
  revert records sp s1. induction those as [|one those IH]; intros records sp s1 Hso.
  { eexists _, _, _. split; [reflexivity|]. simpl. by rewrite app_nil_r. }
  simpl. destruct (reads (section_stream one) (chunk `max` 1)) as [[chunks ends]|why].
  2:{ eexists _, _, _. split; [reflexivity|]. by eapply stopped_here. }
  destruct (feed_all_so_far _ _ _ _ chunks _ _ _ Hso) as (s2 & sp2 & r & -> & Hr).
  destruct r as [[]|why]; [|by eexists _, _, _]. destruct Hr as [Hr Hu].
  destruct ends as [why|]; [eexists _, _, _; split; [reflexivity|]; by eapply stopped_here|].
  destruct (IH _ _ _ Hr) as (s3 & sp3 & r & -> & Hr3). eexists _, _, _. split; [reflexivity|].
  destruct r as [[]|why]; [|done]. destruct (read_of _ those) as [others all]. destruct Hr3 as (-> & Hr3 & Hu3).
  rewrite Hu in *. rewrite fed_app. simpl. by rewrite app_assoc.
Qed.

Lemma parts_from_lookup (from : Message_) count position sections k i :
  parts_from from count position sections k !! i =
  (λ one, debatched from (ids (k + i)) [one] (part_context from count (position + Z.of_nat i))) <$> sections !! i.
Proof.
  revert position k i. induction sections as [|one rest IH]; intros position k i; [done|].
  destruct i as [|i]; simpl; [by rewrite Nat.add_0_r, Z.add_0_r|].
  rewrite IH. replace (Datatypes.S k + i) with (k + Datatypes.S i) by lia.
  by replace (position + 1 + Z.of_nat i)%Z with (position + Z.pos (Pos.of_succ_nat i))%Z by lia.
Qed.

Lemma parts_from_length (from : Message_) count position those k :
  length (parts_from from count position those k) = length those.
Proof. revert position k. induction those as [|one rest IH]; intros position k; simpl; [done|by rewrite IH]. Qed.

Lemma nothing_yet chunk artifact u k s : so_far chunk artifact k s [] (splitting_new u artifact k) s.
Proof. split; simpl; [apply new_failed|apply new_total|done|constructor]. Qed.

Lemma whole_returns chunk (from : Message_) u artifact k s : ∃ res, whole chunk from u artifact k s = Some res.
Proof.
  unfold Split.whole.
  destruct (feed_sections_so_far chunk artifact k s from (sections from) _ _ _ (nothing_yet _ _ u _ _))
    as (s1 & sp1 & r & -> & Hr).
  destruct r as [[]|why]; [|by eexists]. destruct (read_of _ _) as [chunks all]. destruct Hr as (_ & Hr & _).
  unfold Split.ended.
  destruct (write_records_so_far _ _ _ _ (unit_end (sp_unit sp1)) _ _ _ Hr) as (s2 & sp2 & r & -> & _).
  destruct r as [[]|why]; [|by eexists]. destruct (parts _ _ _ _ _ _ _ _ _) as [k' made]. by eexists.
Qed.

(** C22. A Message is split all or nothing, and always to an end: where the
    unit refused none of the records it found in the Message's bytes, each
    record is a Stream of its own in the Ledger, written in their order, and
    the Messages made are one for each — the next generation of the Message,
    over just that Stream, saying which Message it was split from, its
    position from one and how many there are; where it refused any, nothing
    is made, only what came before the first refused was written, and told
    are all that were refused, each at its own position; and where a Section
    could not be read or Xmip Storage did not take a Stream, nothing is
    made. *)
Theorem split_all_or_nothing chunk (from : Message_) u artifact k s :
  ∃ s' k' r, whole chunk from u artifact k s = Some (s', k', r) ∧
  match r with
  | Err why => ∃ k1, stopped (chunk `max` 1) k s s' k1 why
  | Ok split =>
      ∃ chunks, read_of (chunk `max` 1) (sections from) = (chunks, true) ∧
      let records := found u chunks in
      ∃ those k1, kept_each (chunk `max` 1) k s (parts_before records) those k1 s' ∧
      match split with
      | Ok made =>
          records = Part <$> parts_before records ∧ length made = length records ∧
          ∀ i, made !! i = (λ one, debatched from (ids (k1 + i)) [one]
            (part_context from (Z.min (Z.of_nat (length records)) i64_max) (1 + Z.of_nat i))) <$> those !! i
      | Err failures =>
          (∃ reason, RecordRefused reason ∈ records) ∧
          failed failures = refusals artifact 1 records ∧ total failures = N.of_nat (length records)
      end
  end.
Proof.
  unfold Split.whole.
  destruct (feed_sections_so_far chunk artifact k s from (sections from) _ _ _ (nothing_yet _ _ u _ _))
    as (s1 & sp1 & r & -> & Hr).
  destruct r as [[]|why]; [|eexists _, _, _; split; [reflexivity|]; by eexists].
  destruct (read_of _ (sections from)) as [chunks all] eqn:Hread. destruct Hr as (-> & Hr & Hu). simpl in *.
  unfold Split.ended.
  destruct (write_records_so_far _ _ _ _ (unit_end (sp_unit sp1)) _ _ _ Hr) as (s2 & sp2 & r & -> & _ & Hr2).
  destruct r as [[]|why]; [|eexists _, _, _; split; [reflexivity|]; by eexists].
  assert ((fed u chunks).2 ++ unit_end (sp_unit sp1) = found u chunks) as Hall.
  { unfold found. rewrite Hu. by destruct (fed u chunks). }
  rewrite Hall in Hr2. destruct Hr2 as [Hf Ht Ha Hk]. unfold none_failed.
  case_bool_decide as Hnone; simpl; eexists _, _, _; (split; [reflexivity|]); simpl; exists chunks; (split; [done|]);
    exists (sp_written sp2), (sp_minted sp2); (split; [done|]).
  - rewrite Hf in Hnone. apply none_refused in Hnone as Hparts. split; [exact Hparts|].
    assert (length (sp_written sp2) = length (found u chunks)) as Hlen.
    { rewrite Hparts, length_fmap. clear -Hk. induction Hk; rewrite ?length_app; simpl; lia. }
    split; [by rewrite parts_from_length|intros i; by rewrite parts_from_lookup, Hlen].
  - rewrite Hf in Hnone. split; [by eapply some_refused|done].
Qed.

End splits.

(** ** A Message of two records, and one of a record refused *)

Section witnesses.
#[local] Instance gathered : Gathering (N * list (string * string * option string * N)) := {
  outcomes_new := (0%N, []);
  took o := (((o.1 + 1)%N, o.2), (o.1 + 1)%N);
  succeed _ o := o;
  fail code reason artifact position o := (o.1, o.2 ++ [(code, reason, artifact, position)]);
  failed o := o.2;
  total o := o.1
}.

#[local] Instance gathered_laws : GatheringLaws (N * list (string * string * option string * N)).
Proof. by split. Qed.

(** A unit that finds each chunk a record, and refuses an empty one. *)
Definition each_a_record (u : unit) (b : bytes) : unit * list Record_ :=
  (u, [if bool_decide (b = []) then RecordRefused "it is empty" else Part b]).

Definition two_records (second : bytes) : Message (Context_ := unit) (Stream := list bytes) :=
  {| message_id := 1;
     sections := [{| section_id := 2; section_name := None; section_stream := [[Byte.x61]; second] |}];
     message_context := tt |}.

Abbreviation split_two second :=
  (whole (S := unit) (O := N * list (string * string * option string * N)) [] (λ d b, d ++ [b]) (λ _, "7"%string)
     (H := takes_all) each_a_record (λ _, []) (λ _, []) (λ s _, Ok (s, None)) (λ _ (_ : unit) c, c) (λ _, tt) (λ _, tt)
     (λ _, "1"%string) (λ _ id those c, {| message_id := id; sections := those; message_context := c |})
     N.of_nat 64 (two_records second) tt (Some "unit 'Lines'"%string) 10 tt).

#[local] Instance takes_every : StreamStorage (list bytes) unit := takes_all.

Lemma split_all_or_nothing_witness :
  (∃ made, split_two [Byte.x62] = Some (tt, 16, Ok (Ok made)) ∧ length made = 2) ∧
  (∃ failures, split_two [] = Some (tt, 12, Ok (Err failures)) ∧
     failed failures = [(REFUSED, "it is empty", Some "unit 'Lines'", 2%N)]%string).
Proof.
  split.
  - destruct (split_all_or_nothing (S := unit) [] (λ d b, d ++ [b]) (λ _, "7"%string) each_a_record (λ _, []) (λ _, [])
      (λ s _, Ok (s, None)) (λ _ (_ : unit) c, c) (λ _, tt) (λ _, tt) (λ _, "1"%string)
      (λ _ id those c, {| message_id := id; sections := those; message_context := c |}) N.of_nat 64
      (two_records [Byte.x62]) tt (Some "unit 'Lines'"%string) 10 tt) as (s' & k' & r & Heq & Hr).
    vm_compute in Heq. injection Heq as <- <- <-. destruct Hr as (chunks & [= <-] & those & k1 & _ & _ & Hlen & _).
    eexists. split; [vm_compute; reflexivity|]. exact Hlen.
  - eexists. split; vm_compute; reflexivity.
Defined.
End witnesses.
