(* ===== verification/WorkTurn.v ===== *)
(** * One turn of a Work Process: [src/work_step/turning.rs], [src/work_step/acts.rs], [src/work_step/running.rs]

    A Message bound for a Work Process claimed, its Instance read from the
    Ledger, the unit advanced and its acts carried out until it waits or
    ends, and all of it handed on in one write ([turn]). The unit itself
    ([process::Flow]), what its work on a Message makes (an assignment, a
    unit's call, a split), and the records of Messages and Instances are
    parameters; what it publishes is opened, placed, held and lined up as a
    Publication's is ([Pickup.holding], [Sequence.places]). The events yet
    to take are a queue: the source pops the last of its vector and puts the
    next in at its front. The loop's fuel is one turn for each act a turn may
    carry out and two more, which [turn_returns] shows enough: it answers
    whatever the unit asks. What a split makes is a parameter of the turn,
    [split_whole], which the node gives [debatch] over [Split.whole]. *)

From Stdlib Require Import Ascii String.
From stdpp Require Import base numbers list gmap strings.
From S2P Require Import Prelude Journey Storage Keys Points Sending Sequence.
From S2P Require Import Departure SendStep Pass Pickup.
From S2P Require Import Publication.
From S2P Require StreamLedger Arrival Split.

(** ** What the Ledger keeps of an Instance, and a turn's one write *)

Record InstanceRecord := {
  in_instance : N;
  in_work_process : string;
  in_turns : N;
  in_ended : bool;
  in_body : bytes
}.

Record InstanceWrite := { iw_record : InstanceRecord; iw_over : N }.

Record InstanceKey := { ik_key : N; ik_instance : N }.

Record Turn := {
  t_hand_on : HandOn;
  t_instances : list InstanceWrite;
  t_keys : list InstanceKey;
  t_unkeyed : list InstanceKey
}.

Class WorkStorage (S : Type) := {
  read_instance_key : S → N → S * result (option N) string;
  read_instance : S → N → S * result (option InstanceRecord) string;
  write_turn : S → Turn → S * result bool string
}.

(** ** The flow's events and acts *)

Record Carrying := { a_message : N; a_values : list (string * string); a_keys : list (N * string) }.

Inductive Event :=
  | EventArrived (arrival : Carrying)
  | EventDue
  | EventDone (node : N) (made : list Carrying)
  | EventThrew (node : N) (code reason : string).

Inductive Outcome := OutcomeCompleted | OutcomeFailed (code reason : string).

Record Thrown := { thrown_code : string; thrown_reason : string }.

(** [Refused]. *)
Inductive Refusal := NotWaiting | AlreadyEnded | Unfit (why : string).

Section turning.
Context {S T Message Facts Instance Assignments Call : Type}
  `{XmipStorage S} `{WorkStorage S} `{JourneyOps}.
Implicit Types sends : Sends T.

Inductive Work := WorkAssign (a : Assignments) | WorkUnit (c : Call) | WorkDebatch (c : Call).

Inductive Act :=
  | ActWork (node : N) (w : Work) (message : N)
  | ActCombine (node : N) (messages : list N)
  | ActPublish (message : N)
  | ActEnded (outcome : Outcome).

(** [Running]: its flow's advance and what it reads, its sets, its queue. *)
Record Running := {
  running_name : string;
  flow_advance : Instance → Event → Z → result (Instance * list Act) Refusal;
  flow_reads : list string;
  sets : list ResolvedSet;
  running_queue : N
}.

(** What an Instance keeps that the step reads. *)
Context (new_instance : Instance) (instance_keys : Instance → list (N * string))
  (instance_turns : Instance → N) (next_due : Instance → option Z)
  (read_form : bytes → result Instance string) (form : Instance → bytes).

(** Messages: their identifier and Stream, their record, what is promoted
    of them, read back. *)
Context (message_id stream_id : Message → N) (message_record : Message → bytes)
  (promote : Message → result (string → option string) string)
  (promote_here : Running → Message → result (string → option string) string)
  (message_from : bytes → result Message string) (facts_from : bytes → result Facts string)
  (show_id : N → string).

(** What work on a Message makes: an assignment, a unit's call, a split, a
    batch of Messages. *)
Context (assigned : Message → N → Assignments → Message)
  (call : Running → Call → Message → (nat → N) → nat * result (list Message) Thrown)
  (split_whole : Running → Call → Message → (nat → N) → S → S * nat * result (result (list Message) Thrown) string)
  (batch : N → list Message → Message).

(** Identifiers minted in turn. *)
Context (ids : nat → N).

(** ** What a turn has made so far: [Made] *)

Record Made := {
  made_messages : gmap N Message;
  made_new : list N;
  made_opened : list Journey;
  made_holds : list Hold;
  minted : nat
}.

Definition made_nothing (k : nat) : Made :=
  {| made_messages := ∅; made_new := []; made_opened := []; made_holds := []; minted := k |}.

Definition with_messages (m : Made) (messages : gmap N Message) (new : list N) (k : nat) : Made :=
  {| made_messages := messages; made_new := new; made_opened := made_opened m;
     made_holds := made_holds m; minted := k |}.

(** [Made::add]. *)
Definition add (m : Made) (message : Message) : Made :=
  with_messages m (<[message_id message := message]> (made_messages m)) (made_new m ++ [message_id message]) (minted m).

Definition mint (m : Made) (n : nat) : Made := with_messages m (made_messages m) (made_new m) (minted m + n).

(** The identifiers a turn has not minted yet. *)
Definition ids_left (m : Made) : nat → N := λ k, ids (minted m + k).

(** [ledger::read_message], [Made::message]. *)
Definition read_message_of (id : N) (s : S) : S * result (option Message) string :=
  match read_message s id with
  | (s, Err why) => (s, Err why)
  | (s, Ok None) => (s, Ok None)
  | (s, Ok (Some kept)) =>
      match message_from kept with
      | Ok m => (s, Ok (Some m))
      | Err why => (s, Err ("the Message " +:+ show_id id +:+ ": " +:+ why)%string)
      end
  end.

Definition made_message (m : Made) (id : N) (s : S) : S * Made * result Message string :=
  match made_messages m !! id with
  | Some message => (s, m, Ok message)
  | None =>
      match read_message_of id s with
      | (s, Err why) => (s, m, Err why)
      | (s, Ok None) => (s, m, Err ("the Ledger holds no Message " +:+ show_id id)%string)
      | (s, Ok (Some message)) =>
          (s, with_messages m (<[id := message]> (made_messages m)) (made_new m) (minted m), Ok message)
      end
  end.

(** [acts::arrival]. *)
Definition arrival (r : Running) (id : N) (m : Made) : result Carrying string :=
  match made_messages m !! id with
  | None => Err "a Message the turn did not make"%string
  | Some message =>
      let? promoted := promote_here r message in
      Ok {| a_message := id;
            a_values := omap (λ name, pair name <$> promoted name) (flow_reads r); a_keys := [] |}
  end.

(** The Messages a piece of work made, added one by one. *)
Fixpoint arrivals (r : Running) (messages : list Message) (m : Made) : Made * result (list Carrying) string :=
  match messages with
  | [] => (m, Ok [])
  | message :: rest =>
      let m := add m message in
      match arrival r (message_id message) m with
      | Err why => (m, Err why)
      | Ok one =>
          let '(m, others) := arrivals r rest m in
          (m, let? others := others in Ok (one :: others))
      end
  end.

(** [acts::debatch] is [split_whole]; [acts::work]. *)
Definition do_work (r : Running) (node : N) (w : Work) (message : Message) (m : Made) (s : S) :
    S * Made * result (result (list Message) Thrown) string :=
  match w with
  | WorkAssign a => (s, mint m 1, Ok (Ok [assigned message (ids_left m 0) a]))
  | WorkUnit c => let '(k, made) := call r c message (ids_left m) in (s, mint m k, Ok made)
  | WorkDebatch c => let '(s, k, parts) := split_whole r c message (ids_left m) s in (s, mint m k, parts)
  end.

Definition work_on (r : Running) (node : N) (w : Work) (on : N) (m : Made) (s : S) :
    S * Made * result Event string :=
  match made_message m on s with
  | (s, m, Err why) => (s, m, Err why)
  | (s, m, Ok message) =>
      match do_work r node w message m s with
      | (s, m, Err why) => (s, m, Err why)
      | (s, m, Ok (Err thrown)) => (s, m, Ok (EventThrew node (thrown_code thrown) (thrown_reason thrown)))
      | (s, m, Ok (Ok messages)) =>
          let '(m, made) := arrivals r messages m in
          (s, m, let? made := made in Ok (EventDone node made))
      end
  end.

(** [acts::combine]. *)
Fixpoint members_of (messages : list N) (m : Made) (s : S) : S * Made * result (list Message) string :=
  match messages with
  | [] => (s, m, Ok [])
  | id :: rest =>
      match made_message m id s with
      | (s, m, Err why) => (s, m, Err why)
      | (s, m, Ok message) =>
          let '(s, m, others) := members_of rest m s in
          (s, m, let? others := others in Ok (message :: others))
      end
  end.

Definition combine (r : Running) (node : N) (messages : list N) (m : Made) (s : S) :
    S * Made * result Event string :=
  match members_of messages m s with
  | (s, m, Err why) => (s, m, Err why)
  | (s, m, Ok []) => (s, m, Ok (EventDone node []))
  | (s, m, Ok members) =>
      let one := batch (ids_left m 0) members in
      let m := add (mint m 1) one in
      (s, m, let? here := arrival r (message_id one) m in Ok (EventDone node [here]))
  end.

(** ** Published back through routing: [acts::publish] *)

(** Routing over the node's Subscriptions, and a Journey following another
    in its chain, within the chain's limit, holding a Message and its
    Stream. *)
Context (routing_of : (string → option string) → Routing)
  (following : N → Journey → string → option string → N * N → result Journey string)
  (named : string → N) (shown : KeyWord → string) (queue : Subscriber → N).

(** The Journeys opened, one for each Send Port each Subscription reaches. *)
Fixpoint followed (from : Journey) (held : N * N) (ev : Evaluation) (tos : list Subscriber) (k : nat) :
    result (list Opened) string :=
  match tos with
  | [] => Ok []
  | to :: rest =>
      let? journey := following (ids k) from (ev_subscription ev) (process_of (ev_destination ev)) held in
      let? others := followed from held ev rest (Datatypes.S k) in
      Ok ({| opened_journey := match to with SendPort port => with_send_port journey port | _ => journey end;
             subscription := ev_subscription ev; opened_to := to;
             opened_group := through (ev_destination ev) |} :: others)
  end.

Fixpoint opened_following (from : Journey) (held : N * N) (pk : Pickup.State) (routing : Routing) (k : nat) :
    result (list Opened) string :=
  match routing with
  | [] => Ok []
  | ev :: rest =>
      if ev_matched ev then
        let tos := reaches pk (ev_subscription ev) (ev_destination ev) in
        let? some := followed from held ev tos k in
        let? others := opened_following from held pk rest (k + length tos) in
        Ok (some ++ others)
      else opened_following from held pk rest k
  end.

Definition publish_back (cluster : string) sends (pk : Pickup.State) (from : Journey) (body : bytes)
    (message : N) (m : Made) (s : S) : S * Made * result unit string :=
  match made_message m message s with
  | (s, m, Err why) => (s, m, Err why)
  | (s, m, Ok published) =>
      match promote published with
      | Err why => (s, m, Err why)
      | Ok promoted =>
          let held := (message_id published, stream_id published) in
          match opened_following from held pk (routing_of promoted) (minted m) with
          | Err why => (s, m, Err why)
          | Ok [] =>
              (s, m, Err ("the Message " +:+ show_id (message_id published) +:+
                          " it published matched no Subscription")%string)
          | Ok opened =>
              let m := mint m (length opened) in
              let new := if bool_decide (message ∈ made_new m) then made_new m else made_new m ++ [message] in
              let told := delivered sends opened (ids_left m) in
              let m := mint m (length opened) in
              let '(told, places) := places named shown cluster sends told promoted in
              match places with
              | Err why => (s, with_messages m (made_messages m) new (minted m), Err why)
              | Ok places =>
                  let h := holding pk told body in
                  let going := (λ o, {| hold_queue := queue (opened_to o);
                                        hold_member := Journey.journey_id (opened_journey o);
                                        hold_body := body |}) <$> departing h told in
                  (s, {| made_messages := made_messages m; made_new := new;
                         made_opened := made_opened m ++ (opened_journey <$> told);
                         made_holds := made_holds m ++ places ++ holds h ++ going; minted := minted m |}, Ok tt)
              end
          end
      end
  end.

(** ** The unit advanced: [Taking::advance] *)

Definition MOST_ACTS : N := 10000.

Definition too_many : string := "it asked for more than 10000 acts".

(** The acts of one advance carried out, each counted first: the events they
    come to, in order, and how it ended, where one says. *)
Fixpoint carry_acts (cluster : string) sends (pk : Pickup.State) (r : Running) (from : Journey) (body : bytes)
    (acts : list Act) (carried : N) (ended : option Outcome) (m : Made) (s : S) :
    S * Made * result (list Event * option Outcome * N) string :=
  match acts with
  | [] => (s, m, Ok ([], ended, carried))
  | act :: rest =>
      let carried := (carried + 1)%N in
      if (MOST_ACTS <? carried)%N then (s, m, Err too_many)
      else
        let next ended m s event :=
          let '(s, m, others) := carry_acts cluster sends pk r from body rest carried ended m s in
          (s, m, let? others := others in
                 let '(events, ended, carried) := others in
                 Ok (option_list event ++ events, ended, carried)) in
        match act with
        | ActWork node w message =>
            match work_on r node w message m s with
            | (s, m, Err why) => (s, m, Err why)
            | (s, m, Ok event) => next ended m s (Some event)
            end
        | ActCombine node messages =>
            match combine r node messages m s with
            | (s, m, Err why) => (s, m, Err why)
            | (s, m, Ok event) => next ended m s (Some event)
            end
        | ActPublish message =>
            match publish_back cluster sends pk from body message m s with
            | (s, m, Err why) => (s, m, Err why)
            | (s, m, Ok _) => next ended m s None
            end
        | ActEnded outcome => next (Some outcome) m s None
        end
  end.

Fixpoint advance (fuel : nat) (cluster : string) sends (pk : Pickup.State) (r : Running) (from : Journey)
    (body : bytes) (now : Z) (instance : Instance) (events : list Event) (carried : N) (ended : option Outcome)
    (m : Made) (s : S) : option (S * Made * result (Instance * option Outcome) Refusal) :=
  match events with
  | [] => Some (s, m, Ok (instance, ended))
  | event :: rest =>
      match fuel with
      | 0 => None
      | Datatypes.S fuel =>
          match flow_advance r instance event now with
          | Err refused => Some (s, m, Err refused)
          | Ok (instance, acts) =>
              match carry_acts cluster sends pk r from body acts carried ended m s with
              | (s, m, Err why) => Some (s, m, Err (Unfit why))
              | (s, m, Ok (more, ended, carried)) =>
                  advance fuel cluster sends pk r from body now instance (rest ++ more) carried ended m s
              end
          end
      end
  end.

Definition enough_turns : nat := N.to_nat (MOST_ACTS + 2).

(** ** What a turn takes and writes: [Taking] *)

Definition Waiting : JourneyState := OtherState "Waiting".

Definition with_state (j : Journey) (s : JourneyState) (process : string) : Journey :=
  {| journey_id := Journey.journey_id j; state := s; attempts := attempts j; sequences := sequences j;
     group := group j; Journey.received := Journey.received j; send_port := send_port j;
     current_work_process := Some process; cause := cause j; previous := previous j;
     messages := messages j; history := history j |}.

(** [Taking::keys]: each set it has every part of the key of, by number. *)
Definition keys_in (r : Running) (j : Journey) (promoted : string → option string) : list (N * string) :=
  omap (λ numbered, match Keys.text shown numbered.2 j promoted (running_name r) with
                    | Ok key => Some (N.min (N.of_nat numbered.1) u32_max, key)
                    | Err _ => None
                    end) (imap pair (sets r)).

Definition keys_of (r : Running) (j : Journey) (message : Message) : result (list (N * string)) string :=
  let? promoted := promote_here r message in Ok (keys_in r j promoted).

(** [Taking::correlation]. *)
Definition correlation (cluster : string) (r : Running) (key : N * string) : N :=
  named (cluster +:+ "/work-process/" +:+ running_name r +:+ "/correlation/" +:+
         from_option set_name "" (sets r !! N.to_nat key.1) +:+ "/" +:+ key.2)%string.

(** [Taking::instance]. *)
Fixpoint instance_by_key (cluster : string) (r : Running) (keys : list (N * string)) (s : S) :
    S * result (option (N * option InstanceRecord)) string :=
  match keys with
  | [] => (s, Ok None)
  | key :: rest =>
      match read_instance_key s (correlation cluster r key) with
      | (s, Err why) => (s, Err why)
      | (s, Ok None) => instance_by_key cluster r rest s
      | (s, Ok (Some id)) =>
          let '(s, record) := read_instance s id in
          (s, let? record := record in Ok (Some (id, record)))
      end
  end.

Definition instance_of (cluster : string) (r : Running) (j : Journey) (keys : list (N * string)) (s : S) :
    S * result (N * option InstanceRecord) string :=
  match instance_by_key cluster r keys s with
  | (s, Err why) => (s, Err why)
  | (s, Ok (Some found)) => (s, Ok found)
  | (s, Ok None) =>
      let '(s, record) := read_instance s (Journey.journey_id j) in
      (s, let? record := record in Ok (Journey.journey_id j, record))
  end.

(** [Taking::hand_on]. *)
Definition turn_hand_on (c : Claim) (j : Journey) (m : Made) : HandOn :=
  {| ho_claim := c; ho_result := journey_record j;
     ho_messages := message_record <$> omap (λ id, made_messages m !! id) (made_new m);
     ho_next := journey_record <$> made_opened m; ho_leaves := []; ho_queued := made_holds m;
     ho_requeued := []; ho_failed := None; ho_cleared := []; ho_waits := None; ho_kept_for_nanos := None |}.

(** How long until a timer is due: none where that is past, or is more than a
    64-bit count of nanoseconds says. *)
Definition nanos_until (due now : Z) : N :=
  let left := (due - now)%Z in
  if (0 <=? left)%Z && (left <? 2 ^ 64)%Z then Z.to_N left else 0%N.

(** How a turn's Journey ends, and its own queue with it. *)
Definition ends_as (r : Running) (ended : option Outcome) (due : option Z) (now : Z) :
    JourneyState * option Failure * option Wait :=
  match ended, due with
  | Some (OutcomeFailed code reason), _ =>
      (Failed, Some {| failure_queue := running_queue r;
                       failure_reason := (running_name r +:+ " threw " +:+ code +:+ ": " +:+ reason)%string |}, None)
  | _, Some due =>
      (Waiting, None, Some {| wait_queue := running_queue r; after_nanos := nanos_until due now |})
  | _, None => (Completed, None, None)
  end.

(** The queues the Journey leaves: its Work Process's where it is done, and
    its place in its sequence where it is done or a failure skips it. *)
Definition turn_leaves (r : Running) (point : option (N * bool)) (s : JourneyState) : list N :=
  (if bool_decide (s = Completed) then [running_queue r] else []) ++
  match point with
  | Some (place, skips) =>
      if bool_decide (s = Completed) || bool_decide (s = Failed) && skips then [place] else []
  | None => []
  end.

(** [Taking::written]. *)
Definition written_turn (cluster : string) (r : Running) (c : Claim) (point : option (N * bool)) (m : Made)
    (j : Journey) (instance_id over : N) (instance : Instance) (ended : option Outcome) (now : Z) : Turn :=
  let due := match ended with Some _ => None | None => next_due instance end in
  let '(s, failed, waits) := ends_as r ended due now in
  let h := turn_hand_on c (with_state j s (running_name r)) m in
  let owned := (λ key, {| ik_key := correlation cluster r key; ik_instance := instance_id |}) <$>
                 instance_keys instance in
  let finished := bool_decide (is_Some ended) in
  {| t_hand_on :=
       {| ho_claim := ho_claim h; ho_result := ho_result h; ho_messages := ho_messages h; ho_next := ho_next h;
          ho_leaves := turn_leaves r point s; ho_queued := ho_queued h; ho_requeued := []; ho_failed := failed;
          ho_cleared := []; ho_waits := waits; ho_kept_for_nanos := None |};
     t_instances := [{| iw_record := {| in_instance := instance_id; in_work_process := running_name r;
                                        in_turns := N.max (instance_turns instance) (u64_add over 1);
                                        in_ended := finished; in_body := form instance |};
                        iw_over := over |}];
     t_keys := if finished then [] else owned; t_unkeyed := if finished then owned else [] |}.

(** The Instance a turn goes on with, and its first event. *)
Definition instance_read (record : option InstanceRecord) : result Instance string :=
  match record with
  | Some record => if in_ended record then Ok new_instance else read_form (in_body record)
  | None => Ok new_instance
  end.

Definition first_event (r : Running) (j : Journey) (message : Message) (keys : list (N * string)) (m : Made) :
    result Event string :=
  if bool_decide (state j = Waiting) then Ok EventDue
  else
    let? one := arrival r (message_id message) m in
    Ok (EventArrived {| a_message := a_message one; a_values := a_values one; a_keys := keys |}).

(** [Taking::take]: the turn to write, none now, or why it fails. *)
Definition take_turn (cluster : string) sends (pk : Pickup.State) (r : Running) (c : Claim) (point : option (N * bool))
    (body : bytes) (now : Z) (k : nat) (j : Journey) (message : Message) (s : S) :
    option (S * result (option Turn) string) :=
  match keys_of r j message with
  | Err why => Some (s, Err why)
  | Ok keys =>
      match instance_of cluster r j keys s with
      | (s, Err why) => Some (s, Err why)
      | (s, Ok (instance_id, record)) =>
          let over := from_option in_turns 0%N record in
          match instance_read record with
          | Err why => Some (s, Err why)
          | Ok instance =>
              let m := with_messages (made_nothing k) {[message_id message := message]} [] k in
              match first_event r j message keys m with
              | Err why => Some (s, Err why)
              | Ok event =>
                  match advance enough_turns cluster sends pk r j body now instance [event] 0 None m s with
                  | None => None
                  | Some (s, m, Ok (instance, ended)) =>
                      Some (s, Ok (Some (written_turn cluster r c point m j instance_id over instance ended now)))
                  | Some (s, _, Err NotWaiting) => Some (s, Ok None)
                  | Some (s, m, Err AlreadyEnded) =>
                      Some (s, Ok (Some (written_turn cluster r c point m j instance_id over instance
                                           (Some OutcomeCompleted) now)))
                  | Some (s, _, Err (Unfit why)) => Some (s, Err why)
                  end
              end
          end
      end
  end.

(** [Turned]. *)
Inductive Turned :=
  | TurnedDone
  | TurnedWaits (why : string)
  | TurnedFailed (why : string)
  | TurnedUnwritten (why : string).

Definition released (c : Claim) (why : string) (s : S) : S * Turned := ((Storage.release s c).1, TurnedWaits why).

(** [Taking::fail]: nothing made goes with it. *)
Definition fail_hand_on (r : Running) (c : Claim) (j : Journey) (why : string) (k : nat) : HandOn :=
  let h := turn_hand_on c (with_state j Failed (running_name r)) (made_nothing k) in
  {| ho_claim := ho_claim h; ho_result := ho_result h; ho_messages := ho_messages h; ho_next := ho_next h;
     ho_leaves := []; ho_queued := ho_queued h; ho_requeued := [];
     ho_failed := Some {| failure_queue := running_queue r; failure_reason := why |};
     ho_cleared := []; ho_waits := None; ho_kept_for_nanos := None |}.

Definition fail_turn (r : Running) (c : Claim) (j : Journey) (why : string) (k : nat) (s : S) : S * Turned :=
  match hand_on s (fail_hand_on r c j why k) with
  | (s, Ok true) => (s, TurnedFailed why)
  | (s, Ok false) => (s, TurnedWaits "its claim was another's")
  | (s, Err failed) => (s, TurnedUnwritten failed)
  end.

(** The turn taken and handed on, once its Message heads. *)
Definition turn_taken (cluster : string) sends (pk : Pickup.State) (r : Running) (c : Claim)
    (point : option (N * bool)) (body : bytes) (now : Z) (k : nat) (j : Journey) (message : Message) (s : S) :
    option (S * Turned) :=
  match take_turn cluster sends pk r c point body now k j message s with
  | None => None
  | Some (s, Ok (Some t)) =>
      Some match write_turn s t with
           | (s, Ok true) => (s, TurnedDone)
           | (s, Ok false) => released c "its Instance moved on since it was read, or another took its key" s
           | (s, Err why) => (s, TurnedUnwritten why)
           end
  | Some (s, Ok None) => Some (released c "no step of its Instance waits for it" s)
  | Some (s, Err why) => Some (fail_turn r c j why k s)
  end.

(** Its place at its Work Process, taken once its Stream heads, and whether
    it heads it, by what the process remembers of heading. *)
Definition turn_under (cluster : string) sends (pk : Pickup.State) (lease : N) (r : Running) (c : Claim)
    (body : bytes) (now : Z) (k : nat) (j : Journey) (message : Message) (s : @seen S) :
    option (@seen S * Turned) :=
  let releases why (s : @seen S) := Some (let '(s', t) := released c why s.1 in ((s', s.2), t)) in
  match heading named shown promote show_id cluster sends j message (WorkProcess (running_name r)) c lease s with
  | None => None
  | Some (s, j, Err why) => releases why s
  | Some (s, j, Ok Behind) => releases "its Stream waits behind another"%string s
  | Some (s, j, Ok Lost) => Some (s, TurnedWaits "its claim was another's")
  | Some (s, j, Ok Placed) =>
      let point := (λ one, (seq_queue one, seq_skips one)) <$> head (sequences j) in
      let takes (s : @seen S) :=
        (λ st, ((st.1, s.2), st.2)) <$> turn_taken cluster sends pk r c point body now k j message s.1 in
      match point with
      | None => takes s
      | Some (place, _) =>
          match Sequence.heads place (Journey.journey_id j) s with
          | (s, Err why) => releases why s
          | (s, Ok false) => releases "it waits behind another at its Work Process"%string s
          | (s, Ok true) => takes s
          end
      end
  end.

(** [turn]. *)
Definition turn (cluster node : string) sends (pk : Pickup.State) (lease tok : N) (r : Running) (now : Z) (k : nat)
    (hold : Hold) (s : @seen S) : option (@seen S * Turned) :=
  match Storage.claim s.1 (hold_member hold) node tok lease with
  | (s', Ok None) => Some ((s', s.2), TurnedWaits "another holds it")
  | (s', Err why) => Some ((s', s.2), TurnedUnwritten why)
  | (s', Ok (Some c)) =>
      match Pass.read message_from facts_from (hold_member hold) (hold_body hold) s' with
      | (s', Err why) => Some (let '(s', t) := released c why s' in ((s', s.2), t))
      | (s', Ok (FoundWaiting j message _)) =>
          turn_under cluster sends pk lease r c (hold_body hold) now k j message (s', s.2)
      | (s', Ok _) =>
          Some (let '(s', t) := released c "it is not one to take a turn of" s' in ((s', s.2), t))
      end
  end.
End turning.

(** ** It always returns *)

Section returns.
Context {S T Message Facts Instance Assignments Call : Type}
  `{XmipStorage S} `{WorkStorage S} `{JourneyOps}.
Implicit Types sends : Sends T.
Context (new_instance : Instance) (instance_keys : Instance → list (N * string))
  (instance_turns : Instance → N) (next_due : Instance → option Z)
  (read_form : bytes → result Instance string) (form : Instance → bytes)
  (message_id stream_id : Message → N) (message_record : Message → bytes)
  (promote : Message → result (string → option string) string)
  (promote_here : Running (Instance := Instance) (Assignments := Assignments) (Call := Call) →
     Message → result (string → option string) string)
  (message_from : bytes → result Message string) (facts_from : bytes → result Facts string)
  (show_id : N → string)
  (assigned : Message → N → Assignments → Message)
  (call : Running (Instance := Instance) (Assignments := Assignments) (Call := Call) →
     Call → Message → (nat → N) → nat * result (list Message) Thrown)
  (split_whole : Running (Instance := Instance) (Assignments := Assignments) (Call := Call) →
     Call → Message → (nat → N) → S → S * nat * result (result (list Message) Thrown) string)
  (batch : N → list Message → Message) (ids : nat → N)
  (routing_of : (string → option string) → Routing)
  (following : N → Journey → string → option string → N * N → result Journey string)
  (named : string → N) (shown : KeyWord → string) (queue : Subscriber → N).

Abbreviation carry_acts := (carry_acts (T := T) message_id stream_id promote promote_here message_from show_id assigned
  call split_whole batch ids routing_of following named shown queue).
Abbreviation advance := (advance (T := T) message_id stream_id promote promote_here message_from show_id assigned
  call split_whole batch ids routing_of following named shown queue).
Abbreviation turn := (turn (T := T) (Facts := Facts) new_instance instance_keys instance_turns next_due read_form form
  message_id stream_id message_record promote promote_here message_from facts_from show_id assigned
  call split_whole batch ids routing_of following named shown queue).

(** Each act carried out is counted, and comes to one event at most. *)
Lemma carry_acts_counted cluster sends pk r from body acts carried ended m s s' m' more ended' carried' :
  (carried ≤ MOST_ACTS)%N →
  carry_acts cluster sends pk r from body acts carried ended m s = (s', m', Ok (more, ended', carried')) →
  (N.of_nat (length more) + carried ≤ carried')%N ∧ (carried' ≤ MOST_ACTS)%N.
Proof.
  revert carried ended m s more ended' carried' s' m'.
  induction acts as [|act acts IH]; intros carried ended m s more ended' carried' s' m' Hle; cbn [WorkTurn.carry_acts].
  { intros [= _ _ <- _ <-]. split; [simpl; lia|done]. }
  destruct (N.ltb_spec MOST_ACTS (carried + 1)) as [|Hmost]; [done|].
  assert (∀ ended m s (event : option Event) s' m' more ended' carried',
    (let '(s, m, others) := carry_acts cluster sends pk r from body acts (carried + 1) ended m s in
     (s, m, let? others := others in
            let '(events, ended, carried) := others in Ok (option_list event ++ events, ended, carried))) =
      (s', m', Ok (more, ended', carried')) →
    (N.of_nat (length more) + carried ≤ carried')%N ∧ (carried' ≤ MOST_ACTS)%N) as Hnext.
  { clear -IH Hmost. intros ended m s event s' m' more ended' carried'.
    destruct (carry_acts _ _ _ _ _ _ acts _ ended m s) as [[s1 m1] [[[events ended1] carried1]|]] eqn:Hc; [|done].
    intros [= _ _ <- _ <-]. apply IH in Hc as [Hl Hm]; [|done].
    rewrite length_app. destruct event; simpl; (split; [lia|done]). }
  destruct act as [node w message|node messages|message|outcome].
  - destruct (work_on _ _ _ _ _ _ _ _ _ _ _ _ _ _) as [[s1 m1] [event|why]]; [apply Hnext|done].
  - destruct (combine _ _ _ _ _ _ _ _ _ _ _) as [[s1 m1] [event|why]]; [apply Hnext|done].
  - destruct (publish_back _ _ _ _ _ _ _ _ _ _ _ _ _ _ _ _ _ _ _) as [[s1 m1] [[]|why]]; [apply Hnext|done].
  - apply Hnext.
Qed.

Lemma advance_returns fuel cluster sends pk r from body now instance events carried ended m s :
  (carried ≤ MOST_ACTS)%N → (N.of_nat (length events) + (MOST_ACTS - carried) ≤ N.of_nat fuel)%N →
  ∃ res, advance fuel cluster sends pk r from body now instance events carried ended m s = Some res.
Proof.
  revert instance events carried ended m s.
  induction fuel as [|fuel IH]; intros instance events carried ended m s Hle Hfuel;
    (destruct events as [|event rest]; [by eexists|]); cbn [WorkTurn.advance].
  { simpl in Hfuel. lia. }
  destruct (flow_advance r instance event now) as [[instance' acts]|refused]; [|by eexists].
  destruct (carry_acts _ _ _ _ _ _ acts carried ended m s) as [[s1 m1] [[[more ended1] carried1]|why]] eqn:Hc;
    [|by eexists].
  apply carry_acts_counted in Hc as [Hl Hm]; [|done].
  apply IH; [done|]. rewrite length_app. simpl in Hfuel. lia.
Qed.

Lemma enough_for_one : (N.of_nat 1 + (MOST_ACTS - 0) ≤ N.of_nat enough_turns)%N.
Proof. unfold enough_turns. rewrite N2Nat.id. done. Qed.

#[local] Opaque enough_turns MOST_ACTS.

(** A turn of a Work Process always returns, whatever its unit asks for
    and whatever Xmip Storage answers: a unit that keeps asking for work is
    stopped at the most acts a turn carries out, and fails. *)
Theorem turn_returns cluster node sends pk lease tok r now k hold (s : @seen S) :
  ∃ res, turn cluster node sends pk lease tok r now k hold s = Some res.
Proof.
  unfold WorkTurn.turn. destruct (Storage.claim s.1 _ _ _ _) as [s1 [[c|]|why]]; [|by eexists..].
  destruct (Pass.read _ _ _ _ s1) as [s2 [[j message f| | |]|why]]; [|by eexists..].
  assert (∀ point j s, ∃ res, turn_taken (T := T) new_instance instance_keys instance_turns next_due read_form form
    message_id stream_id message_record promote promote_here message_from show_id assigned
    call split_whole batch ids routing_of following named shown queue cluster sends pk r c point
    (hold_body hold) now k j message s = Some res) as Htaken.
  { clear. intros point j s. unfold turn_taken, take_turn.
    destruct (keys_of _ _ _ _ _) as [keys|why]; [|by eexists].
    destruct (instance_of _ _ _ _ _ s) as [s1 [[id record]|why]]; [|by eexists].
    destruct (instance_read _ _ _) as [instance|why]; [|by eexists].
    destruct (first_event _ _ _ _ _ _) as [event|why]; [|by eexists].
    match goal with |- context [advance enough_turns ?c ?a ?b ?r ?j ?d ?n ?i ?e ?z ?o ?m ?s] =>
      destruct (advance_returns enough_turns c a b r j d n i e z o m s) as [[[s2 m2] res] Heq];
        [by vm_compute|apply enough_for_one|] end.
    rewrite Heq. destruct res as [[instance' ended]|[]]; by eexists. }
  unfold turn_under. destruct (heading_returns named shown promote show_id cluster sends j message
    (WorkProcess (running_name r)) c lease (s2, s.2)) as [[[s3 j3] res] Hh].
  rewrite Hh. destruct res as [[]|why]; [by eexists| |by eexists..].
  destruct (fmap _ (head (sequences j3))) as [[place skips]|].
  - destruct (Sequence.heads place _ s3) as [s4 [[]|why]]; [|by eexists..].
    destruct (Htaken (Some (place, skips)) j3 s4.1) as [res Hres]. rewrite Hres. by eexists.
  - destruct (Htaken None j3 s3.1) as [res Hres]. rewrite Hres. by eexists.
Qed.
End returns.

(** ** One write, or none *)

(** Any Xmip Storage with the hand-ons and turns it took beside it. *)
Inductive Wrote := WroteHandOn (h : HandOn) | WroteTurn (t : Turn).

Abbreviation Logged S := (S * list Wrote)%type.

Definition keeping {S A} (log : list Wrote) (answered : S * A) : Logged S * A := ((answered.1, log), answered.2).

Definition wrote {S} (log : list Wrote) (w : Wrote) (answered : S * result bool string) :
    Logged S * result bool string :=
  ((answered.1, match answered.2 with Ok true => w :: log | _ => log end), answered.2).

Section one_write.
Context {S T Message Facts Instance Assignments Call : Type}
  `{XmipStorage S} `{WorkStorage S} `{JourneyOps}.
Implicit Types sends : Sends T.

#[local] Instance keeps_writes : XmipStorage (Logged S) := {
  claim s id node token lease := keeping s.2 (Storage.claim s.1 id node token lease);
  release s c := keeping s.2 (Storage.release s.1 c);
  renew s cs lease := keeping s.2 (renew s.1 cs lease);
  hand_on s h := wrote s.2 (WroteHandOn h) (hand_on s.1 h);
  read_journey s id := keeping s.2 (read_journey s.1 id);
  read_message s id := keeping s.2 (read_message s.1 id);
  read_held s q from most := keeping s.2 (read_held s.1 q from most);
  read_due s q from most := keeping s.2 (read_due s.1 q from most);
  read_failed s q from most := keeping s.2 (read_failed s.1 q from most)
}.

#[local] Instance keeps_turns : WorkStorage (Logged S) := {
  read_instance_key s key := keeping s.2 (read_instance_key s.1 key);
  read_instance s id := keeping s.2 (read_instance s.1 id);
  write_turn s t := wrote s.2 (WroteTurn t) (write_turn s.1 t)
}.

Abbreviation Run := (Running (Instance := Instance) (Assignments := Assignments) (Call := Call)).
Implicit Types r : Run.

Context (new_instance : Instance) (instance_keys : Instance → list (N * string))
  (instance_turns : Instance → N) (next_due : Instance → option Z)
  (read_form : bytes → result Instance string) (form : Instance → bytes)
  (message_id stream_id : Message → N) (message_record : Message → bytes)
  (promote : Message → result (string → option string) string)
  (promote_here : Run → Message → result (string → option string) string)
  (message_from : bytes → result Message string) (show_id : N → string)
  (assigned : Message → N → Assignments → Message)
  (call : Run → Call → Message → (nat → N) → nat * result (list Message) Thrown)
  (split_whole : Run → Call → Message → (nat → N) → S → S * nat * result (result (list Message) Thrown) string)
  (batch : N → list Message → Message) (ids : nat → N)
  (routing_of : (string → option string) → Routing)
  (following : N → Journey → string → option string → N * N → result Journey string)
  (named : string → N) (shown : KeyWord → string) (queue : Subscriber → N).

(** The split, the writes of its parts its own. *)
Definition split_beside (r : Run) (c : Call) (message : Message) (fresh : nat → N) (s : Logged S) :
    Logged S * nat * result (result (list Message) Thrown) string :=
  let '(s', k, parts) := split_whole r c message fresh s.1 in ((s', s.2), k, parts).

Abbreviation made_message := (made_message (S := Logged S) message_from show_id).
Abbreviation work_on := (work_on message_id promote_here message_from show_id assigned call split_beside ids).
Abbreviation members_of := (members_of (S := Logged S) message_from show_id).
Abbreviation combine := (combine (S := Logged S) message_id promote_here message_from show_id batch ids).
Abbreviation publish_back := (publish_back (S := Logged S) (T := T) message_id stream_id promote message_from show_id ids
  routing_of following named shown queue).
Abbreviation carry_acts := (carry_acts (T := T) message_id stream_id promote promote_here message_from show_id assigned
  call split_beside batch ids routing_of following named shown queue).
Abbreviation advance := (advance (T := T) message_id stream_id promote promote_here message_from show_id assigned
  call split_beside batch ids routing_of following named shown queue).
Abbreviation take_turn := (take_turn (T := T) new_instance instance_keys instance_turns next_due read_form form
  message_id stream_id message_record promote promote_here message_from show_id assigned
  call split_beside batch ids routing_of following named shown queue).
Abbreviation turn_taken := (turn_taken (T := T) new_instance instance_keys instance_turns next_due read_form form
  message_id stream_id message_record promote promote_here message_from show_id assigned
  call split_beside batch ids routing_of following named shown queue).

Lemma made_message_log m id s s' m' res : made_message m id s = (s', m', res) → s'.2 = s.2.
Proof.
  unfold WorkTurn.made_message, read_message_of. destruct (made_messages m !! id); [by intros [= <- _ _]|].
  simpl. unfold keeping. destruct (read_message s.1 id) as [s1 [[kept|]|why]]; simpl; [|by intros [= <- _ _]..].
  destruct (message_from kept); by intros [= <- _ _].
Qed.

Lemma work_on_log r node w on m s s' m' res : work_on r node w on m s = (s', m', res) → s'.2 = s.2.
Proof.
  unfold WorkTurn.work_on. destruct (made_message m on s) as [[s1 m1] [message|why]] eqn:Hm;
    apply made_message_log in Hm; [|by intros [= <- _ _]].
  unfold do_work. destruct w as [a|c|c].
  - destruct (arrivals _ _ _ _ _) as [m2 made]. by intros [= <- _ _].
  - destruct (call r c message _) as [k [messages|thrown]]; [|by intros [= <- _ _]].
    destruct (arrivals _ _ _ _ _) as [m2 made]. by intros [= <- _ _].
  - unfold split_beside. destruct (split_whole r c message _ s1.1) as [[s2 k] [[messages|thrown]|why]];
      [|by intros [= <- _ _]..].
    destruct (arrivals _ _ _ _ _) as [m2 made]. by intros [= <- _ _].
Qed.

Lemma members_of_log messages m s s' m' res : members_of messages m s = (s', m', res) → s'.2 = s.2.
Proof.
  revert m s s' m' res. induction messages as [|id rest IH]; intros m s s' m' res; simpl; [by intros [= <- _ _]|].
  destruct (made_message m id s) as [[s1 m1] [message|why]] eqn:Hm; apply made_message_log in Hm;
    [|by intros [= <- _ _]].
  destruct (members_of rest m1 s1) as [[s2 m2] others] eqn:Hr. apply IH in Hr. intros [= <- _ _]. congruence.
Qed.

Lemma combine_log r node messages m s s' m' res : combine r node messages m s = (s', m', res) → s'.2 = s.2.
Proof.
  unfold WorkTurn.combine. destruct (members_of messages m s) as [[s1 m1] [[|one rest]|why]] eqn:Hm;
    apply members_of_log in Hm; by intros [= <- _ _].
Qed.

Lemma publish_back_log cluster sends pk from body message m s s' m' res :
  publish_back cluster sends pk from body message m s = (s', m', res) → s'.2 = s.2.
Proof.
  unfold WorkTurn.publish_back. destruct (made_message m message s) as [[s1 m1] [published|why]] eqn:Hm;
    apply made_message_log in Hm; [|by intros [= <- _ _]].
  destruct (promote published) as [promoted|why]; [|by intros [= <- _ _]].
  destruct (opened_following _ _ _ _ _ _ _) as [[|one rest]|why]; [by intros [= <- _ _]| |by intros [= <- _ _]].
  destruct (places _ _ _ _ _ _) as [told [places|why]]; by intros [= <- _ _].
Qed.

Lemma carry_acts_log cluster sends pk r from body acts carried ended m s s' m' res :
  carry_acts cluster sends pk r from body acts carried ended m s = (s', m', res) → s'.2 = s.2.
Proof.
  revert carried ended m s s' m' res.
  induction acts as [|act acts IH]; intros carried ended m s s' m' res; cbn [WorkTurn.carry_acts]; [by intros [= <- _ _]|].
  destruct (MOST_ACTS <? carried + 1)%N; [by intros [= <- _ _]|].
  assert (∀ ended m s1 (event : option Event), s1.2 = s.2 →
    (let '(s, m, others) := carry_acts cluster sends pk r from body acts (carried + 1) ended m s1 in
     (s, m, let? others := others in
            let '(events, ended, carried) := others in Ok (option_list event ++ events, ended, carried))) =
      (s', m', res) → s'.2 = s.2) as Hnext.
  { intros ended1 m1 s1 event Hs. destruct (carry_acts _ _ _ _ _ _ acts _ ended1 m1 s1) as [[s2 m2] others] eqn:Hc.
    apply IH in Hc. intros [= <- _ _]. congruence. }
  destruct act as [node w message|node messages|message|outcome].
  - destruct (work_on r node w message m s) as [[s1 m1] [event|why]] eqn:Hw; apply work_on_log in Hw;
      [by apply Hnext|by intros [= <- _ _]].
  - destruct (combine r node messages m s) as [[s1 m1] [event|why]] eqn:Hw; apply combine_log in Hw;
      [by apply Hnext|by intros [= <- _ _]].
  - destruct (publish_back cluster sends pk from body message m s) as [[s1 m1] [[]|why]] eqn:Hw;
      apply publish_back_log in Hw; [by apply Hnext|by intros [= <- _ _]].
  - by apply Hnext.
Qed.

Lemma advance_log fuel cluster sends pk r from body now instance events carried ended m s s' m' res :
  advance fuel cluster sends pk r from body now instance events carried ended m s = Some (s', m', res) → s'.2 = s.2.
Proof.
  revert instance events carried ended m s.
  induction fuel as [|fuel IH]; intros instance events carried ended m s;
    (destruct events as [|event rest]; [by intros [= <- _ _]|]); cbn [WorkTurn.advance]; [done|].
  destruct (flow_advance r instance event now) as [[instance' acts]|refused]; [|by intros [= <- _ _]].
  destruct (carry_acts _ _ _ _ _ _ acts carried ended m s) as [[s1 m1] [[[more ended1] carried1]|why]] eqn:Hc;
    apply carry_acts_log in Hc; [|by intros [= <- _ _]].
  intros Ha. rewrite <-Hc. by apply IH in Ha.
Qed.

Lemma instance_by_key_log cluster r keys (s s' : Logged S) res :
  instance_by_key named cluster r keys s = (s', res) → s'.2 = s.2.
Proof.
  revert s. induction keys as [|key rest IH]; intros s; simpl; [by intros [= <- _]|].
  unfold keeping. destruct (read_instance_key s.1 _) as [s1 [[id|]|why]]; simpl; [| |by intros [= <- _]].
  - destruct (read_instance s1 id) as [s2 record]. by intros [= <- _].
  - intros Hr. by apply IH in Hr.
Qed.

Lemma instance_of_log cluster r j keys (s s' : Logged S) res :
  instance_of named cluster r j keys s = (s', res) → s'.2 = s.2.
Proof.
  unfold instance_of. destruct (instance_by_key named cluster r keys s) as [s1 [[found|]|why]] eqn:Hi;
    apply instance_by_key_log in Hi; [by intros [= <- _]| |by intros [= <- _]].
  simpl. unfold keeping. destruct (read_instance s1.1 _) as [s2 record]. simpl. intros [= <- _]. done.
Qed.

(** A turn's write: over the turn of the Instance it read, found by a key of
    the Message's or by its Journey, and one of three ends of the Message. *)
Definition wrote_turn (cluster : string) (r : Run) (c : Claim) (point : option (N * bool)) (j : Journey)
    (s : Logged S) (t : Turn) : Prop :=
  ∃ keys s1 id record w end_state,
    instance_of named cluster r j keys s = (s1, Ok (id, record)) ∧
    t_instances t = [w] ∧ in_instance (iw_record w) = id ∧ iw_over w = from_option in_turns 0%N record ∧
    in_work_process (iw_record w) = running_name r ∧
    let h := t_hand_on t in
    ho_claim h = c ∧ ho_result h = journey_record (with_state j end_state (running_name r)) ∧
    ho_leaves h = turn_leaves r point end_state ∧
    (end_state = Completed ∧ ho_failed h = None ∧ ho_waits h = None ∨
     end_state = Failed ∧ failure_queue <$> ho_failed h = Some (running_queue r) ∧ ho_waits h = None ∧
       in_ended (iw_record w) = true ∨
     end_state = Waiting ∧ ho_failed h = None ∧ wait_queue <$> ho_waits h = Some (running_queue r) ∧
       in_ended (iw_record w) = false) ∧
    (in_ended (iw_record w) = true → t_keys t = []) ∧ (in_ended (iw_record w) = false → t_unkeyed t = []).

Lemma written_wrote cluster r c point m j keys s s1 id record instance ended now :
  instance_of named cluster r j keys s = (s1, Ok (id, record)) →
  wrote_turn cluster r c point j s
    (written_turn instance_keys instance_turns next_due form message_record named cluster r c point m j id
       (from_option in_turns 0%N record) instance ended now).
Proof.
  intros Hi. unfold written_turn. destruct (ends_as r ended _ now) as [[end_state failed] waits] eqn:He.
  exists keys, s1, id, record. eexists. exists end_state. split; [done|]. split; [reflexivity|].
  simpl. split_and!; try done.
  - unfold ends_as in He. destruct ended as [[|code reason]|]; simpl in *; [simplify_eq; by left|simplify_eq; by right; left|].
    destruct (next_due instance); simplify_eq; [by right; right|by left].
  - by intros ->.
  - by intros ->.
Qed.

Lemma take_turn_ok cluster sends pk r c point body now k j message s s' res :
  take_turn cluster sends pk r c point body now k j message s = Some (s', res) →
  s'.2 = s.2 ∧ ∀ t, res = Ok (Some t) → wrote_turn cluster r c point j s t.
Proof.
  unfold WorkTurn.take_turn. destruct (keys_of _ _ _ _ _) as [keys|why]; [|by intros [= <- <-]].
  destruct (instance_of _ _ _ _ _ s) as [s1 [[id record]|why]] eqn:Hi; apply instance_of_log in Hi as Hlog;
    [|by intros [= <- <-]].
  destruct (instance_read _ _ _) as [instance|why]; [|by intros [= <- <-]].
  destruct (first_event _ _ _ _ _ _) as [event|why]; [|by intros [= <- <-]].
  destruct (advance _ _ _ _ _ _ _ _ _ _ _ _ _ s1) as [[[s2 m2] res2]|] eqn:Ha; [|done].
  apply advance_log in Ha. assert (s2.2 = s.2) as Hs by congruence.
  destruct res2 as [[instance' ended]|[]]; intros [= <- <-]; (split; [done|]); intros t [= <-];
    by eapply written_wrote.
Qed.

End one_write.

(** ** A Message debatched: [acts::debatch] *)

Section debatching.
Context {Digest S O Context_ Stream Value Unit Run Call : Type} `{StreamLedger.StreamStorage Digest S}
  `{Split.GatheringLaws O}.
Context (new_digest : Digest) (update : Digest → bytes → Digest) (show_stream : N → string)
  (unit_feed : Unit → bytes → Unit * list Split.Record_) (unit_end : Unit → list Split.Record_)
  (kept_as : StreamLedger.Kept → Stream) (reads : Stream → nat → result (list bytes * option string) string)
  (with_value : string → Value → Context_ → Context_) (text : string → Value) (integer : Z → Value)
  (show_message : N → string).

Abbreviation Message_ := (Arrival.Message (Context_ := Context_) (Stream := Stream)).

Context (debatched : Message_ → N → list (Arrival.MessageSection (Stream := Stream)) → Context_ → Message_)
  (splitter : Run → Call → result Unit Thrown) (call_unit call_module : Call → string)
  (show_failures : O → string) (chunk : nat).

Abbreviation whole := (Split.whole (S := S) (O := O) new_digest update show_stream unit_feed unit_end kept_as reads
  with_value text integer show_message debatched).

Definition unit_of (c : Call) : string := ("unit '" +:+ call_unit c +:+ "' of '" +:+ call_module c +:+ "'")%string.

(** All or nothing: where any record was refused, what the unit throws is
    every refusal. *)
Definition debatch (r : Run) (c : Call) (message : Message_) (fresh : nat → N) (s : S) :
    S * nat * result (result (list Message_) Thrown) string :=
  match splitter r c with
  | Err thrown => (s, 0, Ok (Err thrown))
  | Ok u =>
      match whole fresh chunk message u (Some (unit_of c)) 0 s with
      | None => (s, 0, Err ""%string)
      | Some (s, k, Err why) => (s, k, Err why)
      | Some (s, k, Ok (Ok parts)) => (s, k, Ok (Ok parts))
      | Some (s, k, Ok (Err failures)) =>
          (s, k, Ok (Err {| thrown_code := Split.REFUSED; thrown_reason := show_failures failures |}))
      end
  end.

(** The splitting always answers. *)
Lemma debatch_splits r c message fresh s u :
  splitter r c = Ok u →
  ∃ s' k r', whole fresh chunk message u (Some (unit_of c)) 0 s = Some (s', k, r') ∧
    debatch r c message fresh s = (s', k, match r' with
      | Ok (Err failures) => Ok (Err {| thrown_code := Split.REFUSED; thrown_reason := show_failures failures |})
      | Ok (Ok parts) => Ok (Ok parts) | Err why => Err why end).
Proof.
  intros Hu. unfold debatch. rewrite Hu.
  destruct (Split.whole_returns new_digest update show_stream unit_feed unit_end kept_as reads with_value text integer
    show_message debatched fresh chunk message u (Some (unit_of c)) 0 s) as [[[s' k] r'] Heq].
  rewrite Heq. exists s', k, r'. split; [done|]. by destruct r' as [[]|].
Qed.
End debatching.

(** ** A Message that ends its Instance *)

Section witnesses.
Local Open Scope N_scope.

#[local] Instance no_storage : XmipStorage unit := {
  claim s _ _ _ _ := (s, Ok None); release s _ := (s, Ok tt); renew s _ _ := (s, Ok []);
  hand_on s _ := (s, Ok true); read_journey s _ := (s, Ok None); read_message s _ := (s, Ok None);
  read_held s _ _ _ := (s, Err ""%string); read_due s _ _ _ := (s, Err ""%string);
  read_failed s _ _ _ := (s, Err ""%string)
}.

#[local] Instance no_instances : WorkStorage unit :=
  { read_instance_key s _ := (s, Ok None); read_instance s _ := (s, Ok None); write_turn s _ := (s, Ok true) }.

#[local] Instance one_record : JourneyOps :=
  {| append j _ _ := j; journey_record j := [Byte.x00]; from_record _ := Err "" |}.

Definition billing : Running (Instance := N) (Assignments := unit) (Call := unit) :=
  {| running_name := "billing"; flow_advance i _ _ := Ok (i + 1, [ActEnded OutcomeCompleted]); flow_reads := [];
     sets := []; running_queue := 40 |}.

Definition claim_9 : Claim :=
  {| claim_journey := 9; holder := "n"; token := 1; until_unix_nanos := 30; fence := 1 |}.

Definition bound_9 : Journey := born_as 9 "orders" (Some "billing"%string) (2, 3).

Definition one_turn :=
  turn_taken (T := N) (H := keeps_writes) (H0 := keeps_turns) 0 (λ _, []) (λ i, i) (λ _, None) (λ _, Ok 0) (λ _, [])
    (λ m : N, m) (λ m, m) (λ _, []) (λ _, Ok (λ _, None)) (λ _ _, Ok (λ _, None)) (λ _, Ok 2) (λ _, "")
    (λ m id (_ : unit), id) (λ _ _ _ _, (0%nat, Ok [])) (split_beside (λ _ _ _ _ s, (s, 0%nat, Ok (Ok []))))
    (λ id _, id) (λ k, 100 + N.of_nat k) (λ _, []) (λ _ _ _ _ _, Err ""%string) (λ _, 0) (λ _, "") (λ _, 50)
    "c" two_locations [] billing claim_9 None [] 1000%Z 0 bound_9 2 (tt, []).

End witnesses.
