(* ===== verification/WorkStep.v ===== *)
(** * The Work Process step's dispatching: [src/work_step.rs], [src/work_step/dispatch.rs]

    Which queues of its Work Processes a node reads, and when: asked for, a
    timer of theirs due, or each scan ([next]); what is due in one read a
    page at a time ([due_entries]) and each entry not in a turn already
    taken one of ([scan_entry]); and what a turn's end asks ([disown]).
    [work_step] interleaves the dispatching thread with Publications and
    the turns of the Work pool, a lock section a step. A Work Process
    naming a Correlation takes its turns on the dispatching thread itself:
    one order of these steps. *)

From stdpp Require Import base numbers list gmap strings relations.
From S2P Require Import Prelude Journey Storage.
From S2P Require Scan.

Local Open Scope N_scope.

(** What the step is made over: its Work Processes' queues, how often each
    is read. *)
Record WorkStep := { ws_running : list (string * N); ws_scan : N }.

Definition queues (w : WorkStep) : list N := (ws_running w).*2.

(** [State]. *)
Record State := {
  owned : gset N;
  asked : list N;
  due : list (N * N);
  closed : bool
}.

Definition state_new : State := {| owned := ∅; asked := []; due := []; closed := false |}.

Definition with_asked (st : State) (qs : list N) : State :=
  {| owned := owned st; asked := qs; due := due st; closed := closed st |}.

(** [WorkStep::runs]. *)
Definition runs (w : WorkStep) (name : string) : bool := existsb (λ r, bool_decide (r.1 = name)) (ws_running w).

(** A queue asked for, once. *)
Definition asked_once (qs : list N) (q : N) : list N := if bool_decide (q ∈ qs) then qs else qs ++ [q].

(** [WorkStep::ask], [ask_every], [close]. *)
Definition ask (w : WorkStep) (q : N) (st : State) : State :=
  if bool_decide (q ∈ queues w) then with_asked st (asked_once (asked st) q) else st.

Definition ask_every (w : WorkStep) (st : State) : State :=
  with_asked st (foldl asked_once (asked st) (queues w)).

Definition close (st : State) : State :=
  {| owned := owned st; asked := asked st; due := due st; closed := true |}.

(** [WorkStep::own], [disown]. *)
Definition own (j : N) (st : State) : State * bool :=
  ({| owned := {[j]} ∪ owned st; asked := asked st; due := due st; closed := closed st |},
   negb (bool_decide (j ∈ owned st))).

Definition disown (j q : N) (again : bool) (st : State) : State :=
  {| owned := owned st ∖ {[j]}; asked := if again then asked_once (asked st) q else asked st;
     due := due st; closed := closed st |}.

(** [WorkStep::next]: whether its wait ends, and what it takes. *)
Definition next_ready (st : State) (until now : N) : bool :=
  closed st || negb (bool_decide (asked st = [])) || (foldr N.min until ((due st).*2) <=? now).

Definition next (st : State) (now : N) : State * (bool * list N) :=
  let ripe := List.filter (λ d, snd d <=? now) (due st) in
  ({| owned := owned st; asked := []; due := List.filter (λ d, negb (snd d <=? now)) (due st); closed := closed st |},
   (closed st, foldl asked_once (asked st) (ripe.*1))).

(** [WorkStep::noted]: the first timer known of a queue. *)
Fixpoint noted_in (q at_ : N) (timers : list (N * N)) : list (N * N) :=
  match timers with
  | [] => [(q, at_)]
  | (known, was) :: rest => if known =? q then (known, N.min was at_) :: rest else (known, was) :: noted_in q at_ rest
  end.

Definition noted (q at_ : N) (st : State) : State :=
  {| owned := owned st; asked := asked st; due := noted_in q at_ (due st); closed := closed st |}.

(** [dispatch]'s loop: the queues read in a round, in the order they run. *)
Definition round (w : WorkStep) (all : bool) (qs : list N) : list N :=
  List.filter (λ q, all || bool_decide (q ∈ qs)) (queues w).

(** [due]: a page taken, and where the next starts. *)
Definition PAGE : N := 64.

Definition page_noted (q now : N) (page : DuePage) (st : State) : State :=
  match due_next_in page with Some remains => noted q (now + remains) st | None => st end.

Definition page_after (page : DuePage) : option (N * N) :=
  match last (due_held page) with
  | Some held => if N.of_nat (length (due_held page)) =? PAGE then Some (due_after page held) else None
  | None => None
  end.

Fixpoint due_entries {S} `{XmipStorage S} (fuel : nat) (q : N) (from : option (N * N)) (now : nat → N)
    (ticks : nat) (s : S * State) : option (S * State * list Held) :=
  match from, fuel with
  | None, _ => Some (s, [])
  | Some _, O => None
  | Some at_, Datatypes.S fuel =>
      match read_due s.1 q at_ PAGE with
      | (store, Err _) => Some ((store, s.2), [])
      | (store, Ok page) =>
          match due_entries fuel q (page_after page) now (Datatypes.S ticks)
                  (store, page_noted q (now ticks) page s.2) with
          | Some (s, read) => Some (s, due_held page ++ read)
          | None => None
          end
      end
  end.

(** [scan]'s body: whether the entry is taken a turn of. *)
Definition scan_entry (held : Held) (seen : gset N) (st : State) : State * gset N * bool :=
  let j := hold_member (held_hold held) in
  if held_failed held then (st, seen, false)
  else if bool_decide (j ∈ seen) then (st, seen, false)
  else let '(st, mine) := own j st in (st, {[j]} ∪ seen, mine).

(** Reading a queue to its end returns, however much is due in it and
    whatever Xmip Storage answers: each page starts past the one before. *)
Lemma due_returns {S} `{Scan.DuePages S} q now from ticks (s : S * State) :
  (∀ at_, from = Some at_ → Scan.due_place at_ < Scan.due_places) →
  ∃ fuel res, due_entries fuel q from now ticks s = Some res.
Proof.
  remember (match from with Some at_ => Scan.due_places - Scan.due_place at_ | None => 0 end) as ahead eqn:Hahead.
  revert from ticks s Hahead. induction ahead as [ahead IH] using (well_founded_induction N.lt_wf_0).
  intros [at_|] ticks s -> Hat; [|by exists 1%nat; eexists]. specialize (Hat _ eq_refl).
  destruct (read_due s.1 q at_ PAGE) as [store [page|why]] eqn:Hd; [|by exists 1%nat; simpl; rewrite Hd; eexists].
  assert (∀ at', page_after page = Some at' →
    Scan.due_place at_ < Scan.due_place at' < Scan.due_places) as Hafter.
  { unfold page_after. intros at'. destruct (last (due_held page)) as [held|] eqn:Hl; [|done].
    destruct (_ =? _); [|done]. intros [= <-]. by apply (Scan.read_due_after _ _ _ _ _ _ _ Hd Hl). }
  assert (match page_after page with Some at' => Scan.due_places - Scan.due_place at' | None => 0 end <
    Scan.due_places - Scan.due_place at_) as Hlt.
  { destruct (page_after page) as [at'|]; [specialize (Hafter _ eq_refl)|]; lia. }
  destruct (IH _ Hlt (page_after page) (Datatypes.S ticks) (store, page_noted q (now ticks) page s.2) eq_refl) as (fuel & [s' read] & Hres).
  { intros at' Heq. by apply Hafter. }
  exists (Datatypes.S fuel). simpl. rewrite Hd, Hres. by eexists.
Qed.

(** ** The dispatching, the turns and who asks, interleaved *)

(** Beside the step's state: when every queue is read next; the queues of
    the round yet to read, the one being read with what it gave so far, and
    the one whose entries are taken; each Journey in a turn, waiting for a
    thread or on one; how many turns written are still to ask every queue;
    and whether the dispatching ended. And what must not be forgotten: each
    queue asked for and not read since, each timer noted and its queue not
    read since, and each Journey whose turn panicked. *)
Record Work := {
  k_state : State;
  k_scan_at : N;
  k_to_read : list N;
  k_reading : option (N * option (N * N) * list Held);
  k_taking : option (N * list Held * gset N);
  k_in_turn : list (N * N);
  k_asking : nat;
  k_ended : bool;
  k_owed : gset N;
  k_timers : list (N * N);
  k_panicked : gset N
}.

Definition with_state (k : Work) (st : State) : Work :=
  {| k_state := st; k_scan_at := k_scan_at k; k_to_read := k_to_read k; k_reading := k_reading k;
     k_taking := k_taking k; k_in_turn := k_in_turn k; k_asking := k_asking k; k_ended := k_ended k;
     k_owed := k_owed k; k_timers := k_timers k; k_panicked := k_panicked k |}.

Definition owing (k : Work) (qs : gset N) : Work :=
  {| k_state := k_state k; k_scan_at := k_scan_at k; k_to_read := k_to_read k; k_reading := k_reading k;
     k_taking := k_taking k; k_in_turn := k_in_turn k; k_asking := k_asking k; k_ended := k_ended k;
     k_owed := qs ∪ k_owed k; k_timers := k_timers k; k_panicked := k_panicked k |}.

Definition without_turn (j : N) (turns : list (N * N)) : list (N * N) := List.filter (λ t, negb (fst t =? j)) turns.

Section steps.
Context (w : WorkStep).

Inductive work_step : Work → Work → Prop :=
  | work_asks k q :
      work_step k (owing (with_state k (ask w q (k_state k))) (if bool_decide (q ∈ queues w) then {[q]} else ∅))
  | work_asks_every k :
      work_step k (owing (with_state k (ask_every w (k_state k))) (list_to_set (queues w)))
  | work_closes k :
      work_step k (with_state k (close (k_state k)))
  (** The dispatching wakes, and reads a round or ends. *)
  | work_next k now at_ st ends qs :
      k_ended k = false → k_to_read k = [] → k_reading k = None → k_taking k = None →
      next_ready (k_state k) (k_scan_at k) now = true → now ≤ at_ → next (k_state k) now = (st, (ends, qs)) →
      work_step k
        {| k_state := st; k_scan_at := if k_scan_at k <=? at_ then at_ + ws_scan w else k_scan_at k;
           k_to_read := if ends then [] else round w (k_scan_at k <=? at_) qs;
           k_reading := None; k_taking := None; k_in_turn := k_in_turn k; k_asking := k_asking k;
           k_ended := ends; k_owed := k_owed k; k_timers := k_timers k; k_panicked := k_panicked k |}
  | work_reads k q rest :
      k_to_read k = q :: rest → k_reading k = None → k_taking k = None →
      work_step k
        {| k_state := k_state k; k_scan_at := k_scan_at k; k_to_read := rest; k_reading := Some (q, Some (0, 0), []);
           k_taking := None; k_in_turn := k_in_turn k; k_asking := k_asking k; k_ended := k_ended k;
           k_owed := k_owed k ∖ {[q]}; k_timers := List.filter (λ t, negb (fst t =? q)) (k_timers k);
           k_panicked := k_panicked k |}
  (** A page answered: its earliest timer noted. *)
  | work_page k q at_ read page now :
      k_reading k = Some (q, Some at_, read) →
      work_step k
        {| k_state := page_noted q now page (k_state k); k_scan_at := k_scan_at k; k_to_read := k_to_read k;
           k_reading := Some (q, page_after page, read ++ due_held page); k_taking := None; k_in_turn := k_in_turn k;
           k_asking := k_asking k; k_ended := k_ended k; k_owed := k_owed k;
           k_timers := match due_next_in page with Some remains => [(q, now + remains)] | None => [] end ++ k_timers k;
           k_panicked := k_panicked k |}
  (** Its end reached, or a page not answered: what was read is taken. *)
  | work_read k q from read :
      k_reading k = Some (q, from, read) →
      work_step k
        {| k_state := k_state k; k_scan_at := k_scan_at k; k_to_read := k_to_read k; k_reading := None;
           k_taking := Some (q, read, ∅); k_in_turn := k_in_turn k; k_asking := k_asking k; k_ended := k_ended k;
           k_owed := k_owed k; k_timers := k_timers k; k_panicked := k_panicked k |}
  | work_takes k q held rest seen st seen' mine :
      k_taking k = Some (q, held :: rest, seen) → scan_entry held seen (k_state k) = (st, seen', mine) →
      work_step k
        {| k_state := st; k_scan_at := k_scan_at k; k_to_read := k_to_read k; k_reading := None;
           k_taking := Some (q, rest, seen');
           k_in_turn := if mine then k_in_turn k ++ [(hold_member (held_hold held), q)] else k_in_turn k;
           k_asking := k_asking k; k_ended := k_ended k; k_owed := k_owed k; k_timers := k_timers k;
           k_panicked := k_panicked k |}
  | work_scanned k q seen :
      k_taking k = Some (q, [], seen) →
      work_step k
        {| k_state := k_state k; k_scan_at := k_scan_at k; k_to_read := k_to_read k; k_reading := None;
           k_taking := None; k_in_turn := k_in_turn k; k_asking := k_asking k; k_ended := k_ended k;
           k_owed := k_owed k; k_timers := k_timers k; k_panicked := k_panicked k |}
  (** A turn ends: written, it asks its queue and then every one; or its
      thread panicked. *)
  | work_settles k j q done :
      (j, q) ∈ k_in_turn k →
      work_step k
        {| k_state := disown j q done (k_state k); k_scan_at := k_scan_at k; k_to_read := k_to_read k;
           k_reading := k_reading k; k_taking := k_taking k; k_in_turn := without_turn j (k_in_turn k);
           k_asking := if done then Datatypes.S (k_asking k) else k_asking k; k_ended := k_ended k;
           k_owed := if done then {[q]} ∪ k_owed k else k_owed k; k_timers := k_timers k;
           k_panicked := k_panicked k |}
  | work_settled k asking :
      k_asking k = Datatypes.S asking →
      work_step k
        {| k_state := ask_every w (k_state k); k_scan_at := k_scan_at k; k_to_read := k_to_read k;
           k_reading := k_reading k; k_taking := k_taking k; k_in_turn := k_in_turn k; k_asking := asking;
           k_ended := k_ended k; k_owed := list_to_set (queues w) ∪ k_owed k; k_timers := k_timers k;
           k_panicked := k_panicked k |}
  | work_panics k j q :
      (j, q) ∈ k_in_turn k →
      work_step k
        {| k_state := k_state k; k_scan_at := k_scan_at k; k_to_read := k_to_read k; k_reading := k_reading k;
           k_taking := k_taking k; k_in_turn := without_turn j (k_in_turn k); k_asking := k_asking k;
           k_ended := k_ended k; k_owed := k_owed k; k_timers := k_timers k;
           k_panicked := {[j]} ∪ k_panicked k |}.

Definition work_new (at_ : N) : Work :=
  {| k_state := state_new; k_scan_at := at_; k_to_read := []; k_reading := None; k_taking := None; k_in_turn := [];
     k_asking := 0; k_ended := false; k_owed := ∅; k_timers := []; k_panicked := ∅ |}.
End steps.

(** ** What holds however they interleave *)

Section working.
Context (w : WorkStep).
Implicit Types (k : Work) (qs : list N).

Lemma asked_once_elem qs q p : p ∈ asked_once qs q ↔ p ∈ qs ∨ p = q.
Proof. unfold asked_once. case_bool_decide; set_solver. Qed.

Lemma asked_once_nodup qs q : NoDup qs → NoDup (asked_once qs q).
Proof. unfold asked_once. intros Hnd. case_bool_decide; [done|]. apply NoDup_app. split_and!; [done|set_solver|by apply NoDup_singleton]. Qed.

Lemma asked_all_elem qs more p : p ∈ foldl asked_once qs more ↔ p ∈ qs ∨ p ∈ more.
Proof. revert qs. induction more as [|q more IH]; intros qs; simpl; [set_solver|]. rewrite IH, asked_once_elem. set_solver. Qed.

Lemma asked_all_nodup qs more : NoDup qs → NoDup (foldl asked_once qs more).
Proof. revert qs. induction more as [|q more IH]; intros qs Hnd; simpl; [done|]. by apply IH, asked_once_nodup. Qed.

Lemma round_elem all qs q : q ∈ round w all qs ↔ q ∈ queues w ∧ (all = true ∨ q ∈ qs).
Proof.
  unfold round. rewrite list_elem_of_In, filter_In, <-list_elem_of_In, orb_true_iff, bool_decide_eq_true.
  done.
Qed.

(** A queue woken for by a moment. *)
Definition wakes_by (timers : list (N * N)) (q at_ : N) : Prop := ∃ t, (q, t) ∈ timers ∧ t ≤ at_.

Lemma noted_in_wakes q at_ timers : wakes_by (noted_in q at_ timers) q at_.
Proof.
  induction timers as [|[known was] rest IH]; simpl; [exists at_; split; [by left|lia]|].
  destruct (N.eqb_spec known q) as [->|Hne]; [exists (N.min was at_); split; [by left|lia]|].
  destruct IH as (t & Ht & Hle). exists t. split; [by right|done].
Qed.

Lemma noted_in_kept q at_ timers p t : wakes_by timers p t → wakes_by (noted_in q at_ timers) p t.
Proof.
  intros (t' & Hin & Hle). revert Hin. induction timers as [|[known was] rest IH]; simpl; [by intros ?%elem_of_nil|].
  intros [[= -> ->]|Hin]%elem_of_cons.
  - destruct (N.eqb_spec known q) as [->|Hne]; [exists (N.min was at_); split; [by left|lia]|].
    exists was. split; [by left|done].
  - destruct (N.eqb_spec known q) as [->|Hne]; [exists t'; split; [by right|done]|].
    destruct (IH Hin) as (t2 & ? & ?). exists t2. split; [by right|done].
Qed.

Lemma noted_in_keys q at_ timers : (noted_in q at_ timers).*1 = asked_once timers.*1 q.
Proof.
  unfold asked_once. induction timers as [|[known was] rest IH]; cbn [noted_in fmap list_fmap fst];
    [rewrite bool_decide_eq_false_2; [done|apply not_elem_of_nil]|].
  destruct (N.eqb_spec known q) as [->|Hne]; cbn [fmap list_fmap fst]; [by rewrite bool_decide_eq_true_2 by set_solver|].
  fold (fst <$> rest). rewrite IH. case_bool_decide; [by rewrite bool_decide_eq_true_2 by set_solver|].
  by rewrite bool_decide_eq_false_2 by set_solver.
Qed.

Lemma without_turn_elem j turns t : t ∈ without_turn j turns ↔ t ∈ turns ∧ t.1 ≠ j.
Proof. unfold without_turn. by rewrite !list_elem_of_In, filter_In, negb_true_iff, N.eqb_neq. Qed.

Lemma filter_keys_nodup (f : N * N → bool) (l : list (N * N)) : NoDup l.*1 → NoDup (List.filter f l).*1.
Proof.
  induction l as [|x l IH]; simpl; [done|]. intros [Hni Hnd]%NoDup_cons. destruct (f x); simpl; [|auto].
  apply NoDup_cons. split; [|auto]. intros (y & Hy & Hin)%list_elem_of_fmap.
  apply Hni. rewrite Hy. apply list_elem_of_fmap_2. apply list_elem_of_In in Hin. apply filter_In in Hin as [Hin _].
  by apply list_elem_of_In.
Qed.

(** One turn of a Journey at a time, and each queue kept of one it runs. *)
Record turns_ok k : Prop := {
  to_turns : NoDup (k_in_turn k).*1;
  to_owned : ∀ j, j ∈ owned (k_state k) ↔ j ∈ (k_in_turn k).*1 ∨ j ∈ k_panicked k;
  to_panicked : ∀ j, j ∈ k_panicked k → j ∉ (k_in_turn k).*1
}.

Record queues_ok k : Prop := {
  qo_asked : NoDup (asked (k_state k)) ∧ (∀ q, q ∈ asked (k_state k) → q ∈ queues w);
  qo_due : NoDup (due (k_state k)).*1 ∧ (∀ q, q ∈ (due (k_state k)).*1 → q ∈ queues w);
  qo_in_turn : ∀ j q, (j, q) ∈ k_in_turn k → q ∈ queues w;
  qo_to_read : ∀ q, q ∈ k_to_read k → q ∈ queues w;
  qo_reading : ∀ q from read, k_reading k = Some (q, from, read) → q ∈ queues w;
  qo_taking : ∀ q rest seen, k_taking k = Some (q, rest, seen) → q ∈ queues w
}.

(** Nothing asked for and no timer is forgotten while the step runs. *)
Definition to_be_read k (q : N) : Prop := q ∈ asked (k_state k) ∨ q ∈ k_to_read k.

Record owed_ok k : Prop := {
  oo_owed : k_ended k = false → ∀ q, q ∈ k_owed k → to_be_read k q;
  oo_timers : k_ended k = false → ∀ q t, (q, t) ∈ k_timers k → wakes_by (due (k_state k)) q t ∨ to_be_read k q
}.

Lemma in_turn_keys j q (turns : list (N * N)) : (j, q) ∈ turns → j ∈ turns.*1.
Proof. intros Hin. by apply (list_elem_of_fmap_2 fst) in Hin. Qed.

Lemma without_turn_keys j (turns : list (N * N)) i : i ∈ (without_turn j turns).*1 ↔ i ∈ turns.*1 ∧ i ≠ j.
Proof.
  rewrite !list_elem_of_fmap. split.
  - intros ([i' q] & -> & [Hin Hne]%without_turn_elem). split; [by eexists|done].
  - intros [([i' q] & -> & Hin) Hne]. exists (i', q). split; [done|]. by apply without_turn_elem.
Qed.

Lemma turns_new at_ : turns_ok (work_new at_).
Proof. split; simpl; [constructor|set_solver|set_solver]. Qed.

Lemma turns_step k k' : turns_ok k → work_step w k k' → turns_ok k'.
Proof.
  intros [Hnd Ho Hp] Hstep.
  destruct Hstep as [k q|k|k|k now at_ st ends qs _ _ _ _ _ _ Hn|k q rest _ _ _|k q at_ read page now _|k q from read _
    |k q held rest seen st seen' mine _ He|k q seen _|k j q done Hin|k asking _|k j q Hin]; try (by split).
  - split; simpl; [done| |done]. unfold ask. case_bool_decide; done.
  - injection Hn as <- <- <-. by split.
  - split; simpl; [done| |done]. unfold page_noted. by destruct (due_next_in page).
  - unfold scan_entry, own in He. destruct (held_failed held); [injection He as <- <- <-; by split|].
    case_bool_decide; [injection He as <- <- <-; by split|]. injection He as <- <- <-.
    set (j := hold_member (held_hold held)) in *. case_bool_decide as Hown; simpl.
    + split; simpl; [done| |done]. intros i. rewrite <-Ho. set_solver.
    + rewrite Ho in Hown. split; simpl; rewrite ?fmap_app; simpl.
      * apply NoDup_app. split_and!; [done|set_solver|by apply NoDup_singleton].
      * intros i. rewrite elem_of_app, list_elem_of_singleton, elem_of_union, elem_of_singleton, Ho. tauto.
      * intros i Hi. rewrite elem_of_app, list_elem_of_singleton. intros [?| ->]; [by eapply Hp|]. tauto.
  - apply in_turn_keys in Hin. split; simpl; [by apply filter_keys_nodup| |].
    + intros i. rewrite without_turn_keys, elem_of_difference, Ho, elem_of_singleton.
      split; [tauto|]. intros [[? ?]|Hi]; [tauto|]. split; [by right|]. intros ->. by eapply Hp.
    + intros i Hi. rewrite without_turn_keys. intros [? _]. by eapply Hp.
  - apply in_turn_keys in Hin. split; simpl; [by apply filter_keys_nodup| |].
    + intros i. rewrite without_turn_keys, Ho, elem_of_union, elem_of_singleton.
      destruct (decide (i = j)); [subst|]; tauto.
    + intros i [->%elem_of_singleton|Hi]%elem_of_union; rewrite without_turn_keys; [tauto|].
      intros [? _]. by eapply Hp.
Qed.

Lemma queues_new at_ : queues_ok (work_new at_).
Proof.
  split; simpl; try done; [split; [apply NoDup_nil; exact I|]|split; [apply NoDup_nil; exact I|]|..]; intros; by match goal with H : _ ∈ [] |- _ => apply elem_of_nil in H end.
Qed.

Lemma ask_asked q st : NoDup (asked st) ∧ (∀ q, q ∈ asked st → q ∈ queues w) →
  NoDup (asked (ask w q st)) ∧ (∀ p, p ∈ asked (ask w q st) → p ∈ queues w).
Proof.
  intros [Hnd Hin]. unfold ask. case_bool_decide as Hq; [|done]. simpl. split; [by apply asked_once_nodup|].
  intros p [?| ->]%asked_once_elem; auto.
Qed.

Lemma ask_every_asked st : NoDup (asked st) ∧ (∀ q, q ∈ asked st → q ∈ queues w) →
  NoDup (asked (ask_every w st)) ∧ (∀ q, q ∈ asked (ask_every w st) → q ∈ queues w).
Proof.
  intros [Hnd Hin]. simpl. split; [by apply asked_all_nodup|]. intros p [?|?]%asked_all_elem; auto.
Qed.

Lemma ask_rest q st : owned (ask w q st) = owned st ∧ due (ask w q st) = due st.
Proof. unfold ask. by case_bool_decide. Qed.

Lemma scan_entry_rest held seen st st' seen' mine :
  scan_entry held seen st = (st', seen', mine) → asked st' = asked st ∧ due st' = due st.
Proof.
  unfold scan_entry, own. destruct (held_failed held); [by intros [= <- _ _]|].
  case_bool_decide; by intros [= <- _ _].
Qed.

Lemma queues_step k k' : queues_ok k → work_step w k k' → queues_ok k'.
Proof.
  intros [Ha [Hdn Hdi] Ht Hr Hg Hk] Hstep.
  destruct Hstep as [k q|k|k|k now at_ st ends qs _ _ _ _ _ _ Hn|k q rest Hto _ _|k q at_ read page now Hrd|k q from read Hrd
    |k q held rest seen st seen' mine Htk He|k q seen _|k j q done Hin|k asking _|k j q Hin]; try (by split).
  - split; simpl; try done; [by apply ask_asked|]. by rewrite (proj2 (ask_rest q _)).
  - split; simpl; try done. by apply ask_every_asked.
  - injection Hn as <- <- <-. split; simpl; try done.
    + split; [constructor|by intros q ?%elem_of_nil].
    + split; [by apply filter_keys_nodup|]. intros q (d & -> & Hd)%list_elem_of_fmap. apply Hdi, list_elem_of_fmap_2.
      apply list_elem_of_In in Hd. apply filter_In in Hd as [Hd _]. by apply list_elem_of_In.
    + intros q. destruct (closed _); [by intros ?%elem_of_nil|]. by intros [? _]%round_elem.
  - split; simpl; try done; intros; simplify_eq; apply Hr; rewrite Hto; [by right|by left].
  - split; simpl; try done; [| |by intros; simplify_eq; eapply Hg].
    + unfold page_noted. by destruct (due_next_in page).
    + unfold page_noted. destruct (due_next_in page); [|done]. simpl. rewrite noted_in_keys.
      split; [by apply asked_once_nodup|]. intros p [?| ->]%asked_once_elem; [auto|]. by eapply Hg.
  - split; simpl; try done. intros; simplify_eq. by eapply Hg.
  - apply scan_entry_rest in He as [Hsa Hsd].
    split; simpl; rewrite ?Hsa, ?Hsd; try done; [|by intros; simplify_eq; eapply Hk].
    intros i p. destruct mine; [|apply Ht]. intros [?|[= -> ->]%list_elem_of_singleton]%elem_of_app; [by eapply Ht|].
    by eapply Hk.
  - split; simpl; try done.
    + destruct Ha as [Hnd Hin']. destruct done; [|done]. split; [by apply asked_once_nodup|].
      intros p [?| ->]%asked_once_elem; [auto|]. by eapply Ht.
    + intros i p [Hi _]%without_turn_elem. by eapply Ht.
  - split; simpl; try done. by apply ask_every_asked.
  - split; simpl; try done. intros i p [Hi _]%without_turn_elem. by eapply Ht.
Qed.

(** What is asked for, and the timers noted, only grow but by [next]. *)
Lemma owed_mono k k' :
  owed_ok k → k_ended k' = k_ended k →
  (∀ q, to_be_read k q → to_be_read k' q) →
  (∀ q t, wakes_by (due (k_state k)) q t → wakes_by (due (k_state k')) q t) →
  (∀ q, q ∈ k_owed k' → q ∈ k_owed k ∨ to_be_read k' q) →
  (∀ q t, (q, t) ∈ k_timers k' → (q, t) ∈ k_timers k ∨ wakes_by (due (k_state k')) q t) →
  owed_ok k'.
Proof.
  intros [Ho Ht] He Hread Hwakes Hmore Htimers. split; rewrite He; intros Hrun.
  - intros q [Hq|?]%Hmore; [|done]. by apply Hread, Ho.
  - intros q t [Hq|?]%Htimers; [|by left]. destruct (Ht Hrun _ _ Hq); [left|right]; auto.
Qed.

Lemma owed_step k k' : queues_ok k → owed_ok k → work_step w k k' → owed_ok k'.
Proof.
  intros Hqs Hok Hstep. pose proof Hok as [Ho Ht].
  destruct Hstep as [k q|k|k|k now at_ st ends qs Hrun Hto _ _ _ _ Hn|k q rest Hto _ _|k q at_ read page now Hrd|k q from read Hrd
    |k q held rest seen st seen' mine Htk He|k q seen _|k j q done Hin|k asking _|k j q Hin].
  - apply (owed_mono k); [done|done|..]; unfold to_be_read; simpl.
    + intros p [Hp|Hp]; [left|by right]. unfold ask. case_bool_decide; [|done]. apply asked_once_elem. by left.
    + intros p t. by rewrite (proj2 (ask_rest q _)).
    + intros p [Hp|Hp]%elem_of_union; [right; left|by left]. unfold ask. case_bool_decide; [|set_solver].
      apply asked_once_elem. right. set_solver.
    + intros p t Hp. by left.
  - apply (owed_mono k); [done|done|..]; unfold to_be_read; simpl; auto.
    + intros p [Hp|Hp]; [left|by right]. apply asked_all_elem. by left.
    + intros p [Hp%elem_of_list_to_set|Hp]%elem_of_union; [right; left|by left]. apply asked_all_elem. by right.
  - by apply (owed_mono k); unfold to_be_read; simpl; auto.
  - injection Hn as <- <- <-. split; simpl; intros Hopen; rewrite Hopen.
    + intros q Hq. destruct (Ho Hrun q Hq) as [Ha|Hr]; [|rewrite Hto in Hr; by apply elem_of_nil in Hr].
      right. apply round_elem. split; [by apply (qo_asked _ Hqs)|]. right. apply asked_all_elem. by left.
    + intros q t Hq. destruct (Ht Hrun q t Hq) as [(t' & Hin & Hle)|[Ha|Hr]];
        [| |rewrite Hto in Hr; by apply elem_of_nil in Hr].
      * destruct (N.leb_spec t' now) as [Hripe|Hlater].
        -- right. right. apply round_elem. split; [by eapply (qo_due _ Hqs), in_turn_keys|].
           right. apply asked_all_elem. right. apply (in_turn_keys q t').
           rewrite list_elem_of_In, filter_In, <-list_elem_of_In. split; [done|]. by apply N.leb_le.
        -- left. exists t'. split; [|done]. rewrite list_elem_of_In, filter_In, <-list_elem_of_In.
           split; [done|]. simpl. by apply negb_true_iff, N.leb_gt.
      * right. right. apply round_elem. split; [by apply (qo_asked _ Hqs)|]. right. apply asked_all_elem. by left.
  - split; simpl; intros Hrun.
    + intros p [Hp Hne]%elem_of_difference. destruct (Ho Hrun p Hp) as [?|Hr]; [by left|].
      right. rewrite Hto in Hr. set_solver.
    + intros p t Hp. rewrite list_elem_of_In, filter_In, <-list_elem_of_In in Hp. destruct Hp as [Hp Hne].
      apply negb_true_iff, N.eqb_neq in Hne. simpl in Hne.
      destruct (Ht Hrun p t Hp) as [?|[?|Hr]]; [by left|right; by left|].
      right. right. rewrite Hto in Hr. simpl. set_solver.
  - apply (owed_mono k); [done|done|..]; unfold to_be_read, page_noted; simpl.
    + intros p [?|?]; [left|by right]. by destruct (due_next_in page).
    + intros p t Hp. destruct (due_next_in page); [|done]. by apply noted_in_kept.
    + intros p Hp. by left.
    + intros p t. destruct (due_next_in page) as [remains|]; [|by left].
      intros [[= -> ->]%list_elem_of_singleton|Hp]%elem_of_app; [right|by left]. apply noted_in_wakes.
  - by apply (owed_mono k); unfold to_be_read; simpl; auto.
  - apply scan_entry_rest in He as [Hsa Hsd].
    by apply (owed_mono k); unfold to_be_read; simpl; rewrite ?Hsa, ?Hsd; auto.
  - by apply (owed_mono k); unfold to_be_read; simpl; auto.
  - apply (owed_mono k); unfold to_be_read; simpl; auto.
    + intros p [Hp|?]; [left|by right]. destruct done; [|done]. apply asked_once_elem. by left.
    + destruct done; [|auto]. intros p [->%elem_of_singleton|?]%elem_of_union; [right; left|by left].
      apply asked_once_elem. by right.
  - apply (owed_mono k); unfold to_be_read; simpl; auto.
    + intros p [Hp|Hp]; [left|by right]. apply asked_all_elem. by left.
    + intros p [Hp%elem_of_list_to_set|Hp]%elem_of_union; [right; left|by left]. apply asked_all_elem. by right.
  - by apply (owed_mono k); unfold to_be_read; simpl; auto.
Qed.

(** C23. A Journey is in one turn at a time on a node, whatever asks, reads
    and ends meanwhile: one is taken only of a Message in none, and of a
    queue this node runs; and no queue is asked for or woken for twice at
    once, so what the step keeps is bounded by its queues. *)
Theorem one_turn_at_a_time at_ k k' :
  rtc (work_step w) (work_new at_) k → work_step w k k' →
  NoDup (k_in_turn k).*1 ∧
  (∀ j q, (j, q) ∈ k_in_turn k' → (j, q) ∈ k_in_turn k ∨
     j ∉ (k_in_turn k).*1 ∧ q ∈ queues w ∧ ∃ held rest seen, k_taking k = Some (q, held :: rest, seen) ∧
       hold_member (held_hold held) = j ∧ held_failed held = false) ∧
  (length (asked (k_state k)) ≤ length (queues w))%nat ∧ (length (due (k_state k)) ≤ length (queues w))%nat.
Proof.
  intros Hrun Hstep.
  assert (turns_ok k ∧ queues_ok k) as [[Hnd Ho Hp] [[Han Hai] [Hdn Hdi] _ _ _ Hk]].
  { eapply (rtc_invariant _ (λ k, turns_ok k ∧ queues_ok k)); [| |exact Hrun].
    - intros k1 k2 [? ?] ?. split; [by eapply turns_step|by eapply queues_step].
    - split; [apply turns_new|apply queues_new]. }
  split_and!; [done| |by apply submseteq_length, NoDup_submseteq|].
  - intros j q Hin.
    destruct Hstep as [| | | | | | |k q' held rest seen st seen' mine Htk He| |k j' q' done Hin'| |k j' q' Hin'];
      simpl in Hin; try (by left); try (by apply without_turn_elem in Hin as [? _]; left).
    unfold scan_entry, own in He. destruct (held_failed held) eqn:Hf; [simplify_eq; by left|].
    case_bool_decide; [simplify_eq; by left|]. injection He as <- <- <-.
    case_bool_decide as Hown; simpl in Hin; [by left|].
    apply elem_of_app in Hin as [?|[= -> ->]%list_elem_of_singleton]; [by left|]. right.
    split_and!; [|by eapply Hk|by eauto 10]. intros Hj. apply Hown, Ho. by left.
  - rewrite <-(length_fmap fst). by apply submseteq_length, NoDup_submseteq.
Qed.

(** While the step runs nothing asked for is forgotten, and no timer: a
    queue asked for — by a Publication, a turn written, a Stream that ended
    — and a timer a read noted are to be read for, in the round under way
    or the next, or woken for in time, until that queue is read again;
    whatever reads and turns go on meanwhile. *)
Theorem asked_is_read at_ k :
  rtc (work_step w) (work_new at_) k → k_ended k = false →
  (∀ q, q ∈ k_owed k → q ∈ asked (k_state k) ∨ q ∈ k_to_read k) ∧
  (∀ q t, (q, t) ∈ k_timers k → wakes_by (due (k_state k)) q t ∨ q ∈ asked (k_state k) ∨ q ∈ k_to_read k).
Proof.
  intros Hrun Hopen.
  assert (queues_ok k ∧ owed_ok k) as [_ [Ho Ht]].
  { eapply (rtc_invariant _ (λ k, queues_ok k ∧ owed_ok k)); [| |exact Hrun].
    - intros k1 k2 [? ?] ?. split; [by eapply queues_step|by eapply owed_step].
    - split; [apply queues_new|]. split; simpl; [set_solver|]. by intros _ q t ?%elem_of_nil. }
  split; [exact (Ho Hopen)|exact (Ht Hopen)].
Qed.
End working.

(** ** A turn that panics *)

Section panics.
Context (w : WorkStep).

(** The Journey of a turn whose thread panicked stays owned, and is never
    taken a turn of by this node again, though it waits in its queue: the
    thread is the pool's and goes on, and nothing disowns it. *)
Lemma panicked_never_again at_ k k' j :
  rtc (work_step w) (work_new at_) k → j ∈ k_panicked k → rtc (work_step w) k k' →
  j ∈ owned (k_state k') ∧ j ∉ (k_in_turn k').*1.
Proof.
  intros Hrun Hp Hafter.
  assert (turns_ok k') as [_ Ho Hout].
  { eapply (rtc_invariant _ turns_ok); [apply turns_step|apply turns_new|by etrans]. }
  assert (j ∈ k_panicked k') as Hin.
  { eapply (rtc_invariant _ (λ k, j ∈ k_panicked k)); [|exact Hp|exact Hafter].
    intros k1 k2 Hj Hs. destruct Hs; simpl in *; try done. set_solver. }
  split; [rewrite Ho; by right|by apply Hout].
Qed.
End panics.

(** ** One Work Process, asked for *)

Section witnesses.
Definition billing_step : WorkStep := {| ws_running := [("billing"%string, 40)]; ws_scan := 1000 |}.

Definition held_9 : Held :=
  {| sequence := 1; held_hold := {| hold_queue := 40; hold_member := 9; hold_body := [] |};
     held_failed := false; due_unix_nanos := None |}.

(** As a Publication asks for its queue, its round reads it. *)
Lemma taken_9 : ∃ k k', rtc (work_step billing_step) (work_new 5000) k ∧ work_step billing_step k k' ∧
  k_in_turn k' = [(9, 40)] ∧ k_ended k = false ∧ k_in_turn k = [] ∧ k_timers k = [(40, 170)] ∧ k_owed k = ∅.
Proof.
  eexists _, _. split; [|split].
  - eapply rtc_l; [apply (work_asks _ _ 40)|].
    eapply rtc_l; [eapply (work_next _ _ 100 100); reflexivity|].
    eapply rtc_l; [eapply work_reads; reflexivity|].
    eapply rtc_l; [eapply (work_page _ _ 40 _ _ {| due_held := [held_9]; due_retrying := 0; due_next_in := Some 50;
      due_due_in := λ _, None; due_after := λ _, (1, 1) |} 120); reflexivity|].
    eapply rtc_l; [eapply work_read; reflexivity|]. apply rtc_refl.
  - eapply work_takes; reflexivity.
  - repeat split; vm_compute; reflexivity.
Qed.

Lemma one_turn_at_a_time_witness : ∃ k', k_in_turn k' = [(9, 40)] ∧ (9, 40) ∈ k_in_turn k' ∧ 40 ∈ queues billing_step.
Proof.
  destruct taken_9 as (k & k' & Hrun & Hstep & Hin & _ & Hnone & _). exists k'. split; [done|].
  destruct (one_turn_at_a_time billing_step 5000 k k' Hrun Hstep) as (_ & Htaken & _).
  assert ((9, 40) ∈ k_in_turn k') as H9 by (rewrite Hin; by left). split; [exact H9|].
  destruct (Htaken 9 40 H9) as [Hbefore|(_ & Hq & _)]; [|exact Hq]. rewrite Hnone in Hbefore. by apply elem_of_nil in Hbefore.
Defined.

Lemma asked_is_read_witness : ∃ k, k_timers k = [(40, 170)] ∧
  (wakes_by (due (k_state k)) 40 170 ∨ 40 ∈ asked (k_state k) ∨ 40 ∈ k_to_read k).
Proof.
  destruct taken_9 as (k & k' & Hrun & _ & _ & Hopen & _ & Htimers & _). exists k. split; [done|].
  destruct (asked_is_read billing_step 5000 k Hrun Hopen) as [_ Ht]. apply Ht. rewrite Htimers. by left.
Defined.
End witnesses.
