(* ===== verification/Held.v ===== *)
(** * The callers a host holds: [src/plane/held.rs]

    Each caller the runtime proved, behind a handle its holder carries:
    held, held again by another holder, found, released and revoked with
    what proved it. Every holder of one caller shares one proof — who the
    gate answered and what each node vouched to it — and when the last lets
    go, each node is told. What holds a proof is explicit: the callers of
    the table, and each reference a thread has in hand ([s_lent]), let go
    of one by one. Moments are seconds; [held_step] interleaves what hosts
    ask, a lock section a step. *)

From stdpp Require Import base numbers list gmap strings relations.
From S2P Require Import Prelude Journey Storage.

Local Open Scope Z_scope.

Definition MOST : nat := Z.to_nat 65536.

#[local] Opaque MOST.

(** [Vouch]: the node's surface, and the handle it issued. *)
Abbreviation Vouch := (N * N)%type.

Section held.
Context {Identity : Type} (is_proven : Identity → bool).

Record Proof_ := {
  pf_identity : Identity;
  pf_leaf : option bytes;
  pf_vouched : list Vouch;
  pf_refusals : list (N * string)
}.

(** [Held]: the proof it shares, until when, and what proved it. *)
Record Held := { h_proof : nat; h_until : option Z; h_by : option N }.

Record Holding := { callers : gmap N Held; revoked : gset N }.

(** [Held::live]. *)
Definition live (h : Held) (now : Z) : bool := match h_until h with Some until => now <? until | None => true end.

(** Those of a table kept, and the proofs of those that are not. *)
Definition kept (keep : Held → bool) (cs : gmap N Held) : gmap N Held := filter (λ c, keep c.2 = true) cs.

Definition let_go (keep : Held → bool) (cs : gmap N Held) : list nat :=
  (λ c, h_proof c.2) <$> map_to_list (filter (λ c, keep c.2 = false) cs).

(** The callers there is room beside: all of them, or, where the table is
    full, those whose time has not passed. *)
Definition full (h : Holding) : bool := bool_decide (MOST ≤ size (callers h))%nat.

Definition beside (now : Z) (h : Holding) : gmap N Held :=
  if full h then kept (λ c, live c now) (callers h) else callers h.

(** [held_again]: its handle, 0 where it may not be; and the proofs the
    expired had. *)
Definition held_again (p : nat) (until : option Z) (by_ : option N) (now : Z) (drawn : N) (h : Holding) :
    Holding * list nat * N :=
  if match until with Some until => until <=? now | None => false end then (h, [], 0%N)
  else if match by_ with Some by_ => bool_decide (by_ ∈ revoked h) | None => false end then (h, [], 0%N)
  else
    let cs := beside now h in
    let dropped := if full h then let_go (λ c, live c now) (callers h) else [] in
    if full h && bool_decide (MOST ≤ size cs)%nat then ({| callers := cs; revoked := revoked h |}, dropped, 0%N)
    else
      ({| callers := <[drawn := {| h_proof := p; h_until := until; h_by := by_ |}]> cs; revoked := revoked h |},
       dropped, drawn).

(** [proof]: an expired handle is dropped. *)
Definition proof (handle : N) (now : Z) (h : Holding) : Holding * option nat * list nat :=
  if (handle =? 0)%N then (h, None, [])
  else
    match callers h !! handle with
    | None => (h, None, [])
    | Some c =>
        if live c now then (h, Some (h_proof c), [])
        else ({| callers := delete handle (callers h); revoked := revoked h |}, None, [h_proof c])
    end.

(** [again]'s look at the caller held. *)
Definition again_of (handle : N) (now : Z) (h : Holding) : option Held :=
  match callers h !! handle with Some c => if live c now then Some c else None | None => None end.

(** [release], [revoke]. *)
Definition release (handle : N) (h : Holding) : Holding * bool * list nat :=
  ({| callers := delete handle (callers h); revoked := revoked h |},
   bool_decide (is_Some (callers h !! handle)), h_proof <$> option_list (callers h !! handle)).

Definition revoke (by_ : N) (h : Holding) : Holding * list nat :=
  let others (c : Held) := negb (bool_decide (h_by c = Some by_)) in
  ({| callers := kept others (callers h); revoked := {[by_]} ∪ revoked h |}, let_go others (callers h)).

(** [Proof::vouched]: a vouch of the same node replaced, which is told. *)
Definition swap_remove (i : nat) (l : list Vouch) : list Vouch :=
  let short := take (length l - 1) l in
  match last l with Some z => <[i := z]> short | None => short end.

Definition vouched (at_ handle : N) (p : Proof_) : Proof_ * option N :=
  let with_vouches vs :=
    {| pf_identity := pf_identity p; pf_leaf := pf_leaf p; pf_vouched := vs ++ [(at_, handle)];
       pf_refusals := pf_refusals p |} in
  match list_find (λ v, v.1 = at_) (pf_vouched p) with
  | Some (i, (_, replaced)) => (with_vouches (swap_remove i (pf_vouched p)), Some replaced)
  | None => (with_vouches (pf_vouched p), None)
  end.

Definition vouched_at (at_ : N) (p : Proof_) : option N :=
  (λ found, found.2.2) <$> list_find (λ v, v.1 = at_) (pf_vouched p).

(** [Proof::refused], [refusal]. *)
Definition refused (at_ : N) (why : string) (p : Proof_) : Proof_ :=
  {| pf_identity := pf_identity p; pf_leaf := pf_leaf p; pf_vouched := pf_vouched p;
     pf_refusals := pf_refusals p ++ [(at_, why)] |}.

Definition refusal (at_ : N) (p : Proof_) : option string :=
  (λ found, found.2.2) <$> list_find (λ r, r.1 = at_) (pf_refusals p).

(** ** Hosts, interleaved *)

(** Beside the table: the proofs there are, and each reference to one a
    thread has in hand — to drop, or to hold again ([s_asking], with until
    when and what proved it). And what is never forgotten: until when and by
    what each proof was proved, each vouch made for it, and each node told. *)
Record Store := {
  s_held : Holding;
  s_proofs : gmap nat Proof_;
  s_next : nat;
  s_lent : list nat;
  s_asking : list (nat * (option Z * option N));
  s_proved : gmap nat (option Z * option N);
  s_made : list (nat * Vouch);
  s_told : list (nat * Vouch)
}.

Definition store_new : Store :=
  {| s_held := {| callers := ∅; revoked := ∅ |}; s_proofs := ∅; s_next := 0; s_lent := []; s_asking := [];
     s_proved := ∅; s_made := []; s_told := [] |}.

(** Every reference to a proof. *)
Definition references (s : Store) : list nat :=
  (h_proof ∘ snd <$> map_to_list (callers (s_held s))) ++ s_lent s ++ (s_asking s).*1.

Definition with_held (s : Store) (h : Holding) (lent : list nat) (asking : list (nat * (option Z * option N))) : Store :=
  {| s_held := h; s_proofs := s_proofs s; s_next := s_next s; s_lent := lent; s_asking := asking;
     s_proved := s_proved s; s_made := s_made s; s_told := s_told s |}.

(** A reference let go of: where it was the last, the proof ends, and each
    node it was vouched to is told. *)
Definition dropping (s : Store) (p : nat) (lent : list nat) : Store :=
  let s := with_held s (s_held s) lent (s_asking s) in
  if bool_decide (p ∈ references s) then s
  else
    {| s_held := s_held s; s_proofs := delete p (s_proofs s); s_next := s_next s; s_lent := s_lent s;
       s_asking := s_asking s; s_proved := s_proved s; s_made := s_made s;
       s_told := s_told s ++ (pair p <$> from_option pf_vouched [] (s_proofs s !! p)) |}.

Inductive held_step : Store → Store → Prop :=
  (** [hold]: an identity the gate did not call proven is no one. *)
  | held_holds s identity until by_ leaf :
      is_proven identity = true →
      held_step s
        {| s_held := s_held s;
           s_proofs := <[s_next s := {| pf_identity := identity; pf_leaf := leaf; pf_vouched := []; pf_refusals := [] |}]>
                         (s_proofs s);
           s_next := S (s_next s); s_lent := s_lent s; s_asking := s_asking s ++ [(s_next s, (until, by_))];
           s_proved := <[s_next s := (until, by_)]> (s_proved s); s_made := s_made s; s_told := s_told s |}
  | held_held s before p until by_ after now drawn h dropped handle :
      s_asking s = before ++ (p, (until, by_)) :: after →
      drawn ≠ 0%N → beside now (s_held s) !! drawn = None →
      held_again p until by_ now drawn (s_held s) = (h, dropped, handle) →
      held_step s
        (with_held s h (s_lent s ++ dropped ++ (if (handle =? 0)%N then [p] else [])) (before ++ after))
  | held_found s handle now h found dropped :
      proof handle now (s_held s) = (h, found, dropped) →
      held_step s (with_held s h (s_lent s ++ option_list found ++ dropped) (s_asking s))
  | held_asks_again s handle now c :
      again_of handle now (s_held s) = Some c →
      held_step s (with_held s (s_held s) (s_lent s) (s_asking s ++ [(h_proof c, (h_until c, h_by c))]))
  | held_released s handle h was dropped :
      release handle (s_held s) = (h, was, dropped) →
      held_step s (with_held s h (s_lent s ++ dropped) (s_asking s))
  | held_revoked s by_ h dropped :
      revoke by_ (s_held s) = (h, dropped) →
      held_step s (with_held s h (s_lent s ++ dropped) (s_asking s))
  | held_vouched s p pf at_ handle pf' replaced :
      p ∈ s_lent s → s_proofs s !! p = Some pf → vouched at_ handle pf = (pf', replaced) →
      held_step s
        {| s_held := s_held s; s_proofs := <[p := pf']> (s_proofs s); s_next := s_next s; s_lent := s_lent s;
           s_asking := s_asking s; s_proved := s_proved s; s_made := s_made s ++ [(p, (at_, handle))];
           s_told := s_told s ++ ((λ was, (p, (at_, was))) <$> option_list replaced) |}
  | held_refused s p pf at_ why :
      p ∈ s_lent s → s_proofs s !! p = Some pf →
      held_step s
        {| s_held := s_held s; s_proofs := <[p := refused at_ why pf]> (s_proofs s); s_next := s_next s;
           s_lent := s_lent s; s_asking := s_asking s; s_proved := s_proved s; s_made := s_made s; s_told := s_told s |}
  | held_drops s before p after :
      s_lent s = before ++ p :: after → held_step s (dropping s p (before ++ after)).
End held.

(** ** What holds however hosts interleave *)

Section shared.
Context {Identity : Type} (is_proven : Identity → bool).
Abbreviation Store := (Store (Identity := Identity)).
Implicit Types (s : Store) (h : Holding).

Definition in_table h (p : nat) : Prop := ∃ handle c, callers h !! handle = Some c ∧ h_proof c = p.

Definition refers s (p : nat) : Prop := in_table (s_held s) p ∨ p ∈ s_lent s ∨ p ∈ (s_asking s).*1.

Lemma references_refers s p : p ∈ references s ↔ refers s p.
Proof.
  unfold references, refers, in_table. rewrite !elem_of_app, list_elem_of_fmap. split.
  - intros [([handle c] & -> & Hin%elem_of_map_to_list)|?]; [left; by eauto|by right].
  - intros [(handle & c & Hc & <-)|?]; [left|by right]. exists (handle, c). by rewrite elem_of_map_to_list.
Qed.

Lemma kept_some keep cs handle (c : Held) : kept keep cs !! handle = Some c ↔ cs !! handle = Some c ∧ keep c = true.
Proof. unfold kept. by rewrite map_lookup_filter_Some. Qed.

Lemma let_go_elem keep (cs : gmap N Held) p :
  p ∈ let_go keep cs ↔ ∃ handle c, cs !! handle = Some c ∧ keep c = false ∧ h_proof c = p.
Proof.
  unfold let_go. rewrite list_elem_of_fmap. split.
  - intros ([handle c] & -> & Hin%elem_of_map_to_list). apply map_lookup_filter_Some in Hin as [? ?]. by eauto.
  - intros (handle & c & Hc & Hk & <-). exists (handle, c). split; [done|].
    by apply elem_of_map_to_list, map_lookup_filter_Some.
Qed.

(** A table's callers are those kept and those let go of. *)
Lemma kept_or_let_go keep (cs : gmap N Held) rv p :
  in_table {| callers := kept keep cs; revoked := rv |} p ∨ p ∈ let_go keep cs ↔ in_table {| callers := cs; revoked := rv |} p.
Proof.
  unfold in_table. rewrite let_go_elem. simpl. split.
  - intros [(handle & c & [Hc _]%kept_some & Hp)|(handle & c & Hc & _ & Hp)]; by eauto.
  - intros (handle & c & Hc & Hp). destruct (keep c) eqn:Hk; [left|right]; exists handle, c; [|done].
    by rewrite kept_some.
Qed.

Lemma beside_or_dropped now h p :
  in_table {| callers := beside now h; revoked := revoked h |} p ∨
    p ∈ (if full h then let_go (λ c, live c now) (callers h) else []) ↔ in_table h p.
Proof.
  unfold beside. destruct (full h).
  - rewrite kept_or_let_go. by destruct h.
  - destruct h. simpl. split; [intros [?|?%elem_of_nil]; done|by left].
Qed.

Lemma beside_sub now h handle c : beside now h !! handle = Some c → callers h !! handle = Some c.
Proof. unfold beside. destruct (full h); [|done]. by intros [? _]%kept_some. Qed.

Lemma beside_size now h : (size (beside now h) ≤ size (callers h))%nat.
Proof. unfold beside, kept. destruct (full h); [apply map_size_filter|done]. Qed.

Lemma delete_table handle h c p :
  callers h !! handle = Some c →
  in_table {| callers := delete handle (callers h); revoked := revoked h |} p ∨ p = h_proof c ↔
  in_table h p ∨ p = h_proof c.
Proof.
  intros Hc. unfold in_table. simpl. split.
  - intros [(k & d & [_ Hk]%lookup_delete_Some & Hp)| ->]; [left; by eauto|by right].
  - intros [(k & d & Hk & Hp)| ->]; [|by right]. destruct (decide (k = handle)) as [->|Hne]; [right|left].
    + rewrite Hc in Hk. by injection Hk as <-.
    + exists k, d. by rewrite lookup_delete_ne.
Qed.

(** What a function of the table leaves in it and gives back are what it
    held. *)
Lemma proof_table handle now h h' found dropped :
  proof handle now h = (h', found, dropped) →
  (∀ p, in_table h' p ∨ p ∈ option_list found ++ dropped ↔ in_table h p) ∧
  (∀ k c, callers h' !! k = Some c → callers h !! k = Some c) ∧ revoked h' = revoked h.
Proof.
  unfold proof. destruct (_ =? 0)%N; [intros [= <- <- <-]; split_and!; [set_solver|done|done]|].
  destruct (callers h !! handle) as [c|] eqn:Hc; [|intros [= <- <- <-]; split_and!; [set_solver|done|done]].
  destruct (live c now); intros [= <- <- <-]; simpl; split_and!; try done.
  - intros p. rewrite list_elem_of_singleton. split; [|by left]. intros [?| ->]; [done|]. by exists handle, c.
  - intros p. rewrite list_elem_of_singleton, (delete_table _ _ _ _ Hc). split; [|by left].
    intros [?| ->]; [done|]. by exists handle, c.
  - by intros k d [_ ?]%lookup_delete_Some.
Qed.

Lemma release_table handle h h' was dropped :
  release handle h = (h', was, dropped) →
  (∀ p, in_table h' p ∨ p ∈ dropped ↔ in_table h p) ∧
  (∀ k c, callers h' !! k = Some c → callers h !! k = Some c) ∧ revoked h' = revoked h.
Proof.
  intros [= <- _ <-]. simpl. split_and!; [|by intros k d [_ ?]%lookup_delete_Some|done].
  intros p. destruct (callers h !! handle) as [c|] eqn:Hc; simpl.
  - rewrite list_elem_of_singleton, (delete_table _ _ _ _ Hc). split; [|by left].
    intros [?| ->]; [done|]. by exists handle, c.
  - rewrite delete_id by done. destruct h. set_solver.
Qed.

Lemma revoke_table by_ h h' dropped :
  revoke by_ h = (h', dropped) →
  (∀ p, in_table h' p ∨ p ∈ dropped ↔ in_table h p) ∧
  (∀ k c, callers h' !! k = Some c → callers h !! k = Some c ∧ h_by c ≠ Some by_) ∧
  revoked h' = {[by_]} ∪ revoked h.
Proof.
  intros [= <- <-]. simpl. split_and!; [| |done].
  - intros p. exact (kept_or_let_go (λ c, negb (bool_decide (h_by c = Some by_))) (callers h) (revoked h) p).
  - intros k c [Hc Hk]%kept_some. by apply negb_true_iff, bool_decide_eq_false in Hk.
Qed.

Lemma held_again_table p until by_ now drawn h h' dropped handle :
  beside now h !! drawn = None → drawn ≠ 0%N →
  held_again p until by_ now drawn h = (h', dropped, handle) →
  (∀ q, in_table h' q ∨ q ∈ dropped ++ (if (handle =? 0)%N then [p] else []) ↔ in_table h q ∨ q = p) ∧
  revoked h' = revoked h ∧ (size (callers h) ≤ MOST → size (callers h') ≤ MOST)%nat ∧
  (∀ k c, callers h' !! k = Some c → callers h !! k = Some c ∨
     k = drawn ∧ c = {| h_proof := p; h_until := until; h_by := by_ |} ∧
     match by_ with Some by_ => by_ ∉ revoked h | None => True end).
Proof.
  intros Hfree Hnz. unfold held_again.
  destruct (match until with Some until => until <=? now | None => false end).
  { intros [= <- <- <-]. simpl. split_and!; [|done|done|by left]. intros q. by rewrite list_elem_of_singleton. }
  destruct (match by_ with Some by_ => bool_decide (by_ ∈ revoked h) | None => false end) eqn:Hby.
  { intros [= <- <- <-]. simpl. split_and!; [|done|done|by left]. intros q. by rewrite list_elem_of_singleton. }
  pose proof (λ q, beside_or_dropped now h q) as Hparts. destruct (full h && _) eqn:Hfull.
  { intros [= <- <- <-]. rewrite N.eqb_refl. simpl. split_and!; [|done| |].
    - intros q. rewrite elem_of_app, list_elem_of_singleton, <-Hparts. tauto.
    - intros Hsize. pose proof (beside_size now h). lia.
    - intros k c Hk. left. by eapply beside_sub. }
  intros [= <- <- <-]. rewrite (proj2 (N.eqb_neq _ _) Hnz). simpl. split_and!; [|done| |].
  - intros q. rewrite app_nil_r, <-Hparts. unfold in_table. simpl. split.
    + intros [(k & c & Hk & Hq)|?]; [|by left; right].
      apply lookup_insert_Some in Hk as [[<- <-]|[_ Hk]]; [by right|left; left; by eauto].
    + intros [[(k & c & Hk & Hq)|?]| ->]; [|by right|left; exists drawn; eexists; by rewrite lookup_insert_eq].
      left. exists k, c. rewrite lookup_insert_ne; [done|]. intros ->. congruence.
  - intros Hsize. pose proof (size_insert_le drawn {| h_proof := p; h_until := until; h_by := by_ |} (beside now h)) as Hi.
    pose proof (beside_size now h). apply andb_false_iff in Hfull as [Hf|Hf].
    + unfold full in Hf. apply bool_decide_eq_false in Hf. lia.
    + apply bool_decide_eq_false in Hf. lia.
  - intros k c [[<- <-]|[_ Hk]]%lookup_insert_Some; [right|left; by eapply beside_sub].
    split_and!; [done..|]. destruct by_; [|done]. by apply bool_decide_eq_false in Hby.
Qed.

Lemma again_held handle now h c : again_of handle now h = Some c → callers h !! handle = Some c ∧ live c now = true.
Proof. unfold again_of. destruct (callers h !! handle) as [d|]; [|done]. destruct (live d now) eqn:?; [|done]. by intros [= ->]. Qed.

(** ** The vouches of one proof *)

Definition of_proof (p : nat) (l : list (nat * Vouch)) : list Vouch := snd <$> filter (λ v, v.1 = p) l.

Lemma of_proof_app p l k : of_proof p (l ++ k) = of_proof p l ++ of_proof p k.
Proof. unfold of_proof. by rewrite filter_app, fmap_app. Qed.

Lemma of_proof_one p q v : of_proof p [(q, v)] = if decide (q = p) then [v] else [].
Proof. unfold of_proof. rewrite filter_cons, filter_nil. simpl. by case_decide. Qed.

Lemma of_proof_all p q (vs : list Vouch) : of_proof p (pair q <$> vs) = if decide (q = p) then vs else [].
Proof.
  unfold of_proof. induction vs as [|v vs IH]; [by case_decide|]. rewrite fmap_cons, filter_cons. cbn [fst].
  destruct (decide (q = p)); [|exact IH]. rewrite fmap_cons. by f_equal.
Qed.

Lemma swap_remove_perm i (l : list Vouch) v : l !! i = Some v → l ≡ₚ v :: swap_remove i l.
Proof.
  intros Hi. destruct (exists_last (l := l)) as (short & z & ->); [by intros ->|].
  unfold swap_remove. rewrite last_snoc, length_app. simpl. rewrite Nat.add_sub, take_app_length.
  apply lookup_app_Some in Hi as [Hi|[Hge Hi]].
  - rewrite insert_take_drop by (by eapply lookup_lt_Some). rewrite <-(take_drop_middle short i v Hi) at 1.
    solve_Permutation.
  - apply list_lookup_singleton_Some in Hi as [Hi ->]. rewrite list_insert_ge by lia. solve_Permutation.
Qed.

Lemma vouched_perm at_ handle (pf pf' : Proof_ (Identity := Identity)) replaced :
  vouched at_ handle pf = (pf', replaced) →
  pf_identity pf' = pf_identity pf ∧
  pf_vouched pf ++ [(at_, handle)] ≡ₚ (pair at_ <$> option_list replaced) ++ pf_vouched pf'.
Proof.
  unfold vouched. destruct (list_find _ _) as [[i [a was]]|] eqn:Hf; intros [= <- <-]; simpl; (split; [done|]).
  - apply list_find_Some in Hf as (Hi & Ha & _). simpl in Ha. subst a. exact (Permutation_app_tail _ (swap_remove_perm _ _ _ Hi)).
  - done.
Qed.

(** ** Each proof shared, and each node told once *)

Record sharing s : Prop := {
  sh_alive : ∀ p, is_Some (s_proofs s !! p) ↔ refers s p;
  sh_next : ∀ p, is_Some (s_proofs s !! p) ∨ p ∈ (s_made s).*1 ∨ is_Some (s_proved s !! p) → (p < s_next s)%nat;
  sh_proven : ∀ p pf, s_proofs s !! p = Some pf → is_proven (pf_identity pf) = true;
  sh_told : ∀ p, of_proof p (s_made s) ≡ₚ of_proof p (s_told s) ++ from_option pf_vouched [] (s_proofs s !! p)
}.

Record table_ok s : Prop := {
  tb_limits : ∀ k c, callers (s_held s) !! k = Some c → s_proved s !! h_proof c = Some (h_until c, h_by c);
  tb_asking : ∀ p l, (p, l) ∈ s_asking s → s_proved s !! p = Some l;
  tb_revoked : ∀ k c b, callers (s_held s) !! k = Some c → h_by c = Some b → b ∉ revoked (s_held s);
  tb_none : callers (s_held s) !! 0%N = None;
  tb_size : (size (callers (s_held s)) ≤ MOST)%nat
}.

Lemma sharing_new : sharing store_new.
Proof.
  split; simpl; [|by intros p [[? ?]|[?%elem_of_nil|[? ?]]]|done|done].
  intros p. unfold refers, in_table. simpl. rewrite lookup_empty. split; [by intros [? ?]|].
  intros [(k & c & Hk & _)|[?%elem_of_nil|?%elem_of_nil]]; done.
Qed.

Lemma table_new : table_ok store_new.
Proof. split; simpl; try done; [by intros p l ?%elem_of_nil|]. rewrite map_size_empty. lia. Qed.

(** A step that only moves references. *)
Lemma sharing_moves s h lent asking :
  sharing s → (∀ p, refers (with_held s h lent asking) p ↔ refers s p) → sharing (with_held s h lent asking).
Proof. intros [Ha Hn Hp Ht] Hsame. split; simpl; try done. intros p. by rewrite Ha, Hsame. Qed.

Lemma sharing_vouches s p pf at_ handle pf' replaced :
  sharing s → s_proofs s !! p = Some pf → vouched at_ handle pf = (pf', replaced) →
  sharing {| s_held := s_held s; s_proofs := <[p := pf']> (s_proofs s); s_next := s_next s; s_lent := s_lent s;
    s_asking := s_asking s; s_proved := s_proved s; s_made := s_made s ++ [(p, (at_, handle))];
    s_told := s_told s ++ ((λ was, (p, (at_, was))) <$> option_list replaced) |}.
Proof.
  intros [Ha Hn Hp Ht] Hpf Hv. apply vouched_perm in Hv as [Hid Hperm]. split; simpl.
  - intros q. unfold refers in *. simpl. rewrite <-Ha. destruct (decide (q = p)) as [->|Hne].
    + rewrite lookup_insert_eq, Hpf. split; by eauto.
    + by rewrite lookup_insert_ne.
  - intros q [Hq|[Hq|Hq]]; apply Hn; [|rewrite fmap_app in Hq; apply elem_of_app in Hq as [?|Hq]|].
    + left. destruct (decide (q = p)) as [->|Hne]; [by rewrite Hpf|by rewrite lookup_insert_ne in Hq].
    + by right; left.
    + apply list_elem_of_singleton in Hq as ->. left. simpl. by rewrite Hpf.
    + by right; right.
  - intros q pf2 [[<- <-]|[_ Hq]]%lookup_insert_Some; [|by eapply Hp]. rewrite Hid. by eapply Hp.
  - intros q. rewrite !of_proof_app, of_proof_one.
    replace ((λ was, (p, (at_, was))) <$> option_list replaced) with (pair p <$> (pair at_ <$> option_list replaced))
      by by destruct replaced.
    rewrite of_proof_all. specialize (Ht q). case_decide as Hq.
    + subst q. rewrite lookup_insert_eq. simpl. rewrite Hpf in Ht. simpl in Ht.
      rewrite Ht, <-!app_assoc. by apply Permutation_app_head.
    + rewrite lookup_insert_ne by done. by rewrite !app_nil_r.
Qed.

Lemma dropping_same s p lent : (s_held (dropping s p lent), s_lent (dropping s p lent), s_asking (dropping s p lent)) =
  (s_held s, lent, s_asking s).
Proof. unfold dropping. by case_bool_decide. Qed.

Lemma sharing_drops s before p after :
  sharing s → s_lent s = before ++ p :: after → sharing (dropping s p (before ++ after)).
Proof.
  intros Hs Hl. unfold dropping. case_bool_decide as Href; rewrite references_refers in Href.
  { apply sharing_moves; [done|]. intros q. unfold refers in *. simpl in *. rewrite Hl. set_solver. }
  assert (∀ q, refers s q ↔ q = p ∨ refers (with_held s (s_held s) (before ++ after) (s_asking s)) q) as Hrefers.
  { intros q. unfold refers. simpl. rewrite Hl. set_solver. }
  destruct Hs as [Ha Hn Hp Ht]. split; simpl.
  - intros q. change (refers _ q) with (refers (with_held s (s_held s) (before ++ after) (s_asking s)) q) at 1.
    destruct (decide (q = p)) as [->|Hne].
    + rewrite lookup_delete_eq. split; [by intros [? ?]|done].
    + rewrite lookup_delete_ne, Ha, Hrefers by done. tauto.
  - intros q [[pf [_ Hq]%lookup_delete_Some]|?]; apply Hn; [left; by eexists|by right].
  - intros q pf [_ Hq]%lookup_delete_Some. by eapply Hp.
  - intros q. rewrite of_proof_app, of_proof_all. specialize (Ht q). case_decide as Hq.
    + subst q. rewrite lookup_delete_eq. simpl. by rewrite app_nil_r.
    + rewrite lookup_delete_ne by done. by rewrite app_nil_r.
Qed.

Lemma sharing_step s s' : sharing s → table_ok s → held_step is_proven s s' → sharing s'.
Proof.
  intros Hs Htb Hstep. pose proof Hs as [Ha Hn Hp Ht].
  destruct Hstep as [s identity until by_ leaf Hproven|s before p until by_ after now drawn h dropped handle Hask Hnz Hfree Hh
    |s handle now h found dropped Hf|s handle now c Hc|s handle h was dropped Hr|s by_ h dropped Hr
    |s p pf at_ handle pf' replaced Hin Hpf Hv|s p pf at_ why Hin Hpf|s before p after Hl].
  - split; simpl.
    + intros p. unfold refers in *. simpl. rewrite fmap_app, elem_of_app. cbn [fmap list_fmap fst]. rewrite list_elem_of_singleton.
      destruct (decide (p = s_next s)) as [->|Hne]; [rewrite lookup_insert_eq; split; by eauto|].
      rewrite lookup_insert_ne, Ha by done. tauto.
    + intros p Hq. destruct (decide (p = s_next s)) as [->|Hne]; [lia|].
      rewrite !lookup_insert_ne in Hq by done. apply Hn in Hq. lia.
    + intros p pf [[<- <-]|[_ Hq]]%lookup_insert_Some; [done|by eapply Hp].
    + intros p. destruct (decide (p = s_next s)) as [->|Hne]; [|by rewrite lookup_insert_ne].
      rewrite lookup_insert_eq. simpl. rewrite (Ht (s_next s)).
      destruct (s_proofs s !! s_next s) eqn:He; [|done].
      assert (s_next s < s_next s)%nat by (apply Hn; left; by eexists). lia.
  - apply held_again_table in Hh as (Hq & _); [|done..]. apply sharing_moves; [done|].
    intros q. unfold refers. simpl. specialize (Hq q). rewrite Hask, !fmap_app, fmap_cons. simpl.
    rewrite !elem_of_app in *. rewrite elem_of_cons. tauto.
  - apply proof_table in Hf as (Hq & _). apply sharing_moves; [done|].
    intros q. unfold refers. simpl. specialize (Hq q). rewrite !elem_of_app in *. tauto.
  - apply again_held in Hc as [Hc _]. apply sharing_moves; [done|].
    intros q. unfold refers. simpl. rewrite fmap_app, elem_of_app. cbn [fmap list_fmap fst]. rewrite list_elem_of_singleton.
    split; [|tauto]. intros [?|[?|[?| ->]]]; [tauto..|]. left. by exists handle, c.
  - apply release_table in Hr as (Hq & _). apply sharing_moves; [done|].
    intros q. unfold refers. simpl. specialize (Hq q). rewrite elem_of_app. tauto.
  - apply revoke_table in Hr as (Hq & _). apply sharing_moves; [done|].
    intros q. unfold refers. simpl. specialize (Hq q). rewrite elem_of_app. tauto.
  - by eapply sharing_vouches.
  - split; simpl; [|intros q [Hq|?]; apply Hn; [left|by right]| |].
    + intros q. unfold refers in *. simpl. rewrite <-Ha. destruct (decide (q = p)) as [->|Hne].
      * rewrite lookup_insert_eq, Hpf. split; by eauto.
      * by rewrite lookup_insert_ne.
    + destruct (decide (q = p)) as [->|Hne]; [by rewrite Hpf|by rewrite lookup_insert_ne in Hq].
    + intros q pf2 [[<- <-]|[_ Hq]]%lookup_insert_Some; [exact (Hp _ _ Hpf)|by eapply Hp].
    + intros q. destruct (decide (q = p)) as [->|Hne]; [|by rewrite lookup_insert_ne].
      rewrite lookup_insert_eq. specialize (Ht p). by rewrite Hpf in Ht.
  - by apply sharing_drops.
Qed.

Lemma table_step s s' : sharing s → table_ok s → held_step is_proven s s' → table_ok s'.
Proof.
  intros [Ha Hn _ _] [Hl Hk Hr H0 Hsize] Hstep.
  destruct Hstep as [s identity until by_ leaf Hproven|s before p until by_ after now drawn h dropped handle Hask Hnz Hfree Hh
    |s handle now h found dropped Hf|s handle now c Hc|s handle h was dropped Hrel|s by_ h dropped Hrev
    |s p pf at_ handle pf' replaced Hin Hpf Hv|s p pf at_ why Hin Hpf|s before p after Hlent]; try (by split).
  - assert (∀ p l, s_proved s !! p = Some l → <[s_next s := (until, by_)]> (s_proved s) !! p = Some l) as Hkept.
    { intros p l Hp. rewrite lookup_insert_ne; [done|]. intros <-.
      assert (s_next s < s_next s)%nat by (apply Hn; right; right; by eexists). lia. }
    split; simpl; try done; [by intros; apply Hkept; eapply Hl|].
    intros p l [?|[= -> ->]%list_elem_of_singleton]%elem_of_app; [by apply Hkept, Hk|by rewrite lookup_insert_eq].
  - apply held_again_table in Hh as (_ & Hrev & Hfits & Hcs); [|done..]. split; simpl.
    + intros k c [?|(-> & -> & _)]%Hcs; [by eapply Hl|]. apply Hk. rewrite Hask. set_solver.
    + intros q l Hq. apply Hk. rewrite Hask. set_solver.
    + intros k c b [?|(-> & -> & Hb)]%Hcs; rewrite Hrev; [by eapply Hr|]. simpl. by intros [= ->].
    + destruct (callers h !! 0%N) as [c|] eqn:Hz; [|done]. apply Hcs in Hz as [?|(? & _)]; congruence.
    + by apply Hfits.
  - assert (size (callers h) ≤ size (callers (s_held s)))%nat as Hle.
    { unfold proof in Hf. destruct (_ =? 0)%N; [by simplify_eq|]. destruct (callers _ !! handle); [|by simplify_eq].
      destruct (live _ _); simplify_eq/=; [done|]. apply size_delete_le. }
    apply proof_table in Hf as (_ & Hcs & Hrev). split; simpl; try done; [by eauto| | |lia].
    + intros k c b Hc. rewrite Hrev. by eapply Hr, Hcs.
    + destruct (callers h !! 0%N) eqn:Hz; [|done]. apply Hcs in Hz. congruence.
  - apply again_held in Hc as [Hc _]. split; simpl; try done.
    intros p l [?|[= -> ->]%list_elem_of_singleton]%elem_of_app; [by apply Hk|by eapply Hl].
  - assert (size (callers h) ≤ size (callers (s_held s)))%nat as Hle.
    { unfold release in Hrel. simplify_eq/=. apply size_delete_le. }
    apply release_table in Hrel as (_ & Hcs & Hrev). split; simpl; try done; [by eauto| | |lia].
    + intros k c b Hc. rewrite Hrev. by eapply Hr, Hcs.
    + destruct (callers h !! 0%N) eqn:Hz; [|done]. apply Hcs in Hz. congruence.
  - assert (size (callers h) ≤ size (callers (s_held s)))%nat as Hle.
    { unfold revoke in Hrev. simplify_eq/=. apply map_size_filter. }
    apply revoke_table in Hrev as (_ & Hcs & Hrev). split; simpl; try done; [by intros k c [? _]%Hcs; eapply Hl| | |lia].
    + intros k c b [Hc Hne]%Hcs Hb. rewrite Hrev, not_elem_of_union, not_elem_of_singleton.
      split; [intros ->; congruence|by eapply Hr].
    + destruct (callers h !! 0%N) eqn:Hz; [|done]. apply Hcs in Hz as [? _]. congruence.
  - pose proof (dropping_same s p (before ++ after)) as Hsame. injection Hsame as Hh Hlt Has.
    assert (s_proved (dropping s p (before ++ after)) = s_proved s) as Hpr
      by (unfold dropping; by case_bool_decide).
    by split; rewrite ?Hh, ?Has, ?Hpr.
Qed.

Lemma held_ok_run s : rtc (held_step is_proven) store_new s → sharing s ∧ table_ok s.
Proof.
  intros Hrun. eapply (rtc_invariant _ (λ s, sharing s ∧ table_ok s)); [| |exact Hrun].
  - intros s1 s2 [? ?] ?. split; [by eapply sharing_step|by eapply table_step].
  - split; [apply sharing_new|apply table_new].
Qed.

(** A prover revoked stays so. *)
Lemma revoked_stays s s' b : rtc (held_step is_proven) s s' → b ∈ revoked (s_held s) → b ∈ revoked (s_held s').
Proof.
  intros Hrun Hb. eapply (rtc_invariant _ (λ s, b ∈ revoked (s_held s))); [|exact Hb|exact Hrun]. clear.
  intros s s' Hb Hstep.
  destruct Hstep as [|s before p until by_ after now drawn h dropped handle _ Hnz Hfree Hh|s handle now h found dropped Hf
    | |s handle h was dropped Hr|s by_ h dropped Hr| | |s before p after _]; simpl; try done.
  - apply held_again_table in Hh as (_ & -> & _); done.
  - by apply proof_table in Hf as (_ & _ & ->).
  - by apply release_table in Hr as (_ & _ & ->).
  - apply revoke_table in Hr as (_ & _ & ->). set_solver.
  - unfold dropping. by case_bool_decide.
Qed.

(** C24. A handle names a caller only while it may: what a handle answers is
    a proof still there, of an identity the gate called proven, that its
    own certificate has not outlived and whose prover is not revoked —
    whichever holder's handle it is, since each holder's lives as long as
    the proof itself — and a handle released, or any proved by one revoked,
    answers nothing from then on; no one is 0, and no more are held than
    the table's most. *)
Theorem caller_is_proven s handle now h found dropped :
  rtc (held_step is_proven) store_new s → proof handle now (s_held s) = (h, found, dropped) →
  (size (callers (s_held s)) ≤ MOST)%nat ∧
  (∀ p, found = Some p → handle ≠ 0%N ∧ ∃ pf until by_,
     s_proofs s !! p = Some pf ∧ is_proven (pf_identity pf) = true ∧ s_proved s !! p = Some (until, by_) ∧
     (∀ t, until = Some t → now < t) ∧
     (∀ b before, rtc (held_step is_proven) before s → b ∈ revoked (s_held before) → by_ ≠ Some b)) ∧
  (∀ released was gone, release handle (s_held s) = (released, was, gone) → ∀ later, (proof handle later released).1.2 = None).
Proof.
  intros Hrun Hf. destruct (held_ok_run s Hrun) as [[Ha _ Hp _] [Hl _ Hr H0 Hsize]]. split_and!; [done| |].
  - intros p ->. unfold proof in Hf. destruct (N.eqb_spec handle 0) as [->|Hnz]; [done|].
    destruct (callers (s_held s) !! handle) as [c|] eqn:Hc; [|done]. destruct (live c now) eqn:Hlive; [|done].
    injection Hf as _ <- _. split; [done|].
    destruct (proj2 (Ha (h_proof c))) as [pf Hpf]; [left; by exists handle, c|].
    exists pf, (h_until c), (h_by c). split_and!; [done|by eapply Hp|by eapply Hl| |].
    + intros t Ht. unfold live in Hlive. rewrite Ht in Hlive. by apply Z.ltb_lt.
    + intros b before Hbefore Hb Hby. eapply Hr; [exact Hc|exact Hby|]. by eapply revoked_stays.
  - intros released was gone [= <- _ _] later. unfold proof. destruct (_ =? 0)%N; [done|]. simpl.
    by rewrite lookup_delete_eq.
Qed.

(** Every node a caller was vouched to is told once, and only once no
    holder has it: a proof lives exactly as long as a holder's handle or a
    thread in hand refers to it; while it lives, what its nodes were told
    is just what later vouches of the same node replaced, and once it has
    ended they were told each vouch made, no vouch twice. *)
Theorem nodes_told_once s p :
  rtc (held_step is_proven) store_new s →
  (is_Some (s_proofs s !! p) ↔ p ∈ references s) ∧
  match s_proofs s !! p with
  | Some pf => of_proof p (s_made s) ≡ₚ of_proof p (s_told s) ++ pf_vouched pf
  | None => of_proof p (s_made s) ≡ₚ of_proof p (s_told s)
  end.
Proof.
  intros Hrun. destruct (held_ok_run s Hrun) as [[Ha _ _ Ht] _]. split; [by rewrite Ha, references_refers|].
  specialize (Ht p). destruct (s_proofs s !! p); simpl in Ht; [done|]. by rewrite app_nil_r in Ht.
Qed.
End shared.

(** ** One browser's caller, vouched for at one node *)

Section witnesses.
Abbreviation step := (held_step (Identity := string) (λ who, negb (bool_decide (who = "guess"%string)))).

Lemma ana_held : ∃ s, rtc step store_new s ∧ (proof 7 50 (s_held s)).1.2 = Some 0%nat ∧
  (proof 8 50 (s_held s)).1.2 = None ∧ is_Some (s_proofs s !! 0%nat).
Proof.
  eexists. split; [|split_and!].
  - eapply rtc_l; [eapply (held_holds _ _ "ana"%string (Some 100) (Some 1%N) None); reflexivity|].
    eapply rtc_l; [eapply (held_held _ _ [] 0 _ _ [] 40 7%N); [reflexivity|done|reflexivity|reflexivity]|].
    apply rtc_refl.
  - reflexivity.
  - reflexivity.
  - by eexists.
Qed.

Lemma caller_is_proven_witness : ∃ s pf, rtc step store_new s ∧ s_proofs s !! 0%nat = Some pf ∧
  negb (bool_decide (pf_identity pf = "guess"%string)) = true.
Proof.
  destruct ana_held as (s & Hrun & Hf & _). destruct (proof 7 50 (s_held s)) as [[h found] dropped] eqn:Hp.
  simpl in Hf. destruct (caller_is_proven _ s 7 50 h found dropped Hrun Hp) as (_ & Hfound & _).
  destruct (Hfound 0%nat Hf) as (_ & pf & until & by_ & Hpf & Hproven & _). by exists s, pf.
Defined.

(** Released, its thread done: the node is told the handle it issued. *)
Lemma ana_released : ∃ s : Store (Identity := string), rtc step store_new s ∧ s_proofs s !! 0%nat = None ∧ of_proof 0 (s_made s) = [(3, 9)]%N ∧
  s_told s = [(0%nat, (3, 9))]%N.
Proof.
  eexists. split; [|split_and!].
  - eapply rtc_l; [eapply (held_holds _ _ "ana"%string (Some 100) (Some 1%N) None); reflexivity|].
    eapply rtc_l; [eapply (held_held _ _ [] 0 _ _ [] 40 7%N); [reflexivity|done|reflexivity|reflexivity]|].
    eapply rtc_l; [eapply (held_found _ _ 7%N 50); reflexivity|].
    eapply rtc_l; [eapply (held_vouched _ _ 0%nat _ 3%N 9%N); [by left|reflexivity|reflexivity]|].
    eapply rtc_l; [eapply (held_released _ _ 7%N); reflexivity|].
    eapply rtc_l; [eapply (held_drops _ _ [] 0%nat); reflexivity|].
    eapply rtc_l; [eapply (held_drops _ _ [] 0%nat []); reflexivity|]. apply rtc_refl.
  - reflexivity.
  - reflexivity.
  - reflexivity.
Qed.

Lemma nodes_told_once_witness : ∃ s : Store (Identity := string), s_told s = [(0%nat, (3, 9))]%N ∧ of_proof 0 (s_made s) ≡ₚ of_proof 0 (s_told s).
Proof.
  destruct ana_released as (s & Hrun & Hgone & _ & Htold). exists s. split; [done|].
  destruct (nodes_told_once _ s 0%nat Hrun) as [_ Hall]. rewrite Hgone in Hall. exact Hall.
Defined.
End witnesses.
