(* ===== verification/Role.v ===== *)
(** * The one check every operator's act passes: [src/plane/role.rs]

    The role a proven caller holds, who may call each method of a node's
    operate listener ([RULES]), and whether a caller may ([admitted]), on
    the listener and, for a caller a handle holds, on a screen
    ([act_admitted]). Admission by rules is [authorize::plane]'s, shared by
    every plane: the parameter [plane_admit], with what its documentation says.
    The methods' names and paths are [src/plane/call.rs]'s. *)

From Stdlib Require Import Ascii String.
From stdpp Require Import base numbers list gmap strings relations.
From S2P Require Import Prelude Text Journey Storage Held.

Local Open Scope Z_scope.

(** ** The methods: [call.rs] *)

Definition SERVICE : string := "xmip.operate.v1.Operate".
Definition PUBLICATION : string := "Publication".
Definition WAIT : string := "Wait".
Definition ACT : string := "Act".
Definition SECRET : string := "SetSecret".
Definition SECRETS : string := "Secrets".

Definition path (method : string) : string := ("/" +:+ SERVICE +:+ "/" +:+ method)%string.

(** [call::method]. *)
Definition method_of (path : string) : option string :=
  match strip_prefix "/" path with
  | Some rest => match strip_prefix SERVICE rest with Some rest => strip_prefix "/" rest | None => None end
  | None => None
  end.

(** ** Roles *)

Inductive Role := Observer | Operator | Developer.

#[export] Instance role_eq_dec : EqDecision Role.
Proof. solve_decision. Defined.

(** Its number, as it crosses the C boundary and as roles are ordered. *)
Definition number (r : Role) : Z := match r with Observer => 0 | Operator => 1 | Developer => 2 end.

(** [Role::from_wire], [word], [describe], [may_operate]. *)
Definition from_wire (n : Z) : option Role :=
  if n =? 0 then Some Observer else if n =? 1 then Some Operator else if n =? 2 then Some Developer else None.

Definition word (r : Role) : string :=
  match r with Observer => "Observer" | Operator => "Operator" | Developer => "Developer" end.

Definition describe (r : Role) : string :=
  match r with
  | Observer => "watches — monitoring only"
  | Operator => "also acts and configures"
  | Developer => "also builds"
  end.

(** [Role::named]: Observer for any other word. *)
Definition named (word : string) : Role :=
  let word := lower (trim word) in
  if String.eqb word "operator" then Operator else if String.eqb word "developer" then Developer else Observer.

Definition may_operate (r : Role) : bool := number Operator <=? number r.

(** ** Rules *)

Record Rule := { rule_action : string; rule_method : string; rule_least : Z }.

Definition rule (action method : string) (least : Role) : Rule :=
  {| rule_action := action; rule_method := method; rule_least := number least |}.

Definition RULES : list Rule :=
  [rule "read" PUBLICATION Observer; rule "read" WAIT Observer; rule "read" SECRETS Operator;
   rule "act" ACT Operator; rule "act" SECRET Operator].

Definition action (method : string) : string :=
  if bool_decide (method ∈ [PUBLICATION; WAIT; SECRETS]) then "read" else "act".

(** [authorize::plane::admit]: a caller named, holding a role, is admitted
    to what some rule grants its role, and to nothing else. *)
Class Admission := { plane_admit : option string → Z → string * string → list Rule → bool }.

Class AdmissionLaws `{Admission} := {
  admits who role asked rules : plane_admit who role asked rules = true ↔
    is_Some who ∧ ∃ r, r ∈ rules ∧ rule_action r = asked.1 ∧ rule_method r = asked.2 ∧ rule_least r <= role
}.

Section role.
Context {Identity : Type} (is_proven : Identity → bool) (value : Identity → string) `{Admission}.

Definition nothing_proved (act target : string) : string :=
  ("REFUSED. Nothing proved who asks to " +:+ act +:+ " " +:+ target +:+ "; an act is taken from the identity the connection proved — a client certificate, or on the node's local endpoint the account the operating system names — never from what the caller says, nor from where it connects (ADR-0009)")%string.

Definition may_not (who act target : string) (r : Role) : string :=
  ("REFUSED. " +:+ who +:+ " may not " +:+ act +:+ " " +:+ target +:+ ": " +:+ who +:+ " is " +:+ word r +:+
   ", which " +:+ describe r +:+ " (ADR-0009)")%string.

(** Who asks: a caller the gate called proven, or no one. *)
Definition asker (caller : option Identity) : option string :=
  match caller with Some c => if is_proven c then Some (value c) else None | None => None end.

(** [admitted]. *)
Definition admitted (caller : option Identity) (r : Role) (method : string) (asked : string * string) :
    result unit string :=
  let who := asker caller in
  if plane_admit who (number r) (action method, method) RULES then Ok tt
  else Err match who with
           | None => nothing_proved asked.1 asked.2
           | Some who => may_not who asked.1 asked.2 r
           end.

(** [held::proven], and [act_admitted]: the caller a handle holds. *)
Definition proven (handle : N) (now : Z) (s : Store (Identity := Identity)) : Holding * option Identity * list nat :=
  let '(h, found, dropped) := Held.proof handle now (s_held s) in
  (h, pf_identity <$> (found ≫= λ p, s_proofs s !! p), dropped).

Definition act_admitted (handle : N) (now : Z) (r : Role) (asked : string * string) (s : Store (Identity := Identity)) :
    result unit string :=
  admitted (proven handle now s).1.2 r ACT asked.
End role.

(** ** Who is admitted *)

(** A call's path names its method. *)
Lemma path_names_method method : method_of (path method) = Some method.
Proof. unfold method_of, path. by rewrite !strip_prefix_app. Qed.

(** A role is the one its number names, and no other number is one. *)
Lemma role_crosses n r : from_wire n = Some r ↔ number r = n.
Proof.
  unfold from_wire. split.
  - repeat case_match; intros [= <-]; simpl; lia.
  - intros <-. by destruct r.
Qed.

(** A role's own word names it, and a word grants what operates only where
    it is one of the two that do, without regard to case and the spaces
    around it. *)
Lemma named_word r : named (word r) = r.
Proof. by destruct r. Qed.

Lemma named_grants text :
  may_operate (named text) = true ↔ lower (trim text) = "operator"%string ∨ lower (trim text) = "developer"%string.
Proof.
  unfold named. destruct (String.eqb_spec (lower (trim text)) "operator") as [->|]; [split; auto|].
  destruct (String.eqb_spec (lower (trim text)) "developer") as [->|]; [split; auto|].
  split; [done|by intros [|]].
Qed.

Section admitted.
Context {Identity : Type} (is_proven : Identity → bool) (value : Identity → string) `{AdmissionLaws}.

(** What a role may call. *)
Definition granted (r : Role) (method : string) : Prop :=
  method = PUBLICATION ∨ method = WAIT ∨ may_operate r = true ∧ (method = SECRETS ∨ method = ACT ∨ method = SECRET).

Lemma rules_grant r method :
  (∃ one, one ∈ RULES ∧ rule_action one = action method ∧ rule_method one = method ∧ rule_least one <= number r) ↔
  granted r method.
Proof.
  unfold granted, may_operate. split.
  - intros (one & Hin & _ & Hm & Hleast). unfold RULES in Hin. rewrite !elem_of_cons, elem_of_nil in Hin.
    destruct Hin as [->|[->|[->|[->|[->|[]]]]]]; simpl in *; subst method; [by left|by right; left|..];
      right; right; (split; [by apply Z.leb_le|]); auto.
  - intros [->|[->|[Hr%Z.leb_le [->|[->| ->]]]]].
    + exists (rule "read" PUBLICATION Observer). split_and!; [set_solver|done|done|by destruct r].
    + exists (rule "read" WAIT Observer). split_and!; [set_solver|done|done|by destruct r].
    + exists (rule "read" SECRETS Operator). split_and!; [set_solver|done|done|done].
    + exists (rule "act" ACT Operator). split_and!; [set_solver|done|done|done].
    + exists (rule "act" SECRET Operator). split_and!; [set_solver|done|done|done].
Qed.

(** Admitted, just where the role is granted the method and the caller is
    proven. *)
Lemma admitted_iff r asked method caller :
  admitted is_proven value caller r method asked = Ok tt ↔
    granted r method ∧ ∃ c, caller = Some c ∧ is_proven c = true.
Proof.
  unfold admitted. destruct (plane_admit _ _ _ _) eqn:Ha.
  - apply admits in Ha as [[who Hwho] Hg%rules_grant]. split; [|done]. intros _. split; [done|].
    unfold asker in Hwho. destruct caller as [c|]; [|done]. exists c. destruct (is_proven c); done.
  - split; [done|]. intros [Hg (c & -> & Hc)].
    assert (plane_admit (asker is_proven value (Some c)) (number r) (action method, method) RULES = true); [|congruence].
    apply admits. simpl. rewrite Hc. split; [by eexists|]. by apply rules_grant.
Qed.

(** C25. An act a screen takes is admitted only for a caller the runtime
    proved and still holds: by a handle that is no one's — 0, unknown,
    released, revoked or expired — nothing is, whatever role is claimed, and
    the refusal says nothing proved who asks; held, the caller acts just
    where the role it holds is an Operator's or more, and is told why where
    it is not. Over the network the same rule decides each method: the
    publication and its wait to anyone proven, an act, a secret set and the
    secrets' names to an Operator and up, and any other to no one. *)
Theorem admitted_as_ruled s handle now r asked method caller :
  rtc (held_step is_proven) store_new s →
  act_admitted is_proven value handle now r asked s =
    match (Held.proof handle now (s_held s)).1.2 ≫= λ p, s_proofs s !! p with
    | None => Err (nothing_proved asked.1 asked.2)
    | Some pf => if may_operate r then Ok tt else Err (may_not (value (pf_identity pf)) asked.1 asked.2 r)
    end ∧
  (admitted is_proven value caller r method asked = Ok tt ↔
     granted r method ∧ ∃ c, caller = Some c ∧ is_proven c = true).
Proof.
  intros Hrun. split.
  - unfold act_admitted, proven. destruct (Held.proof handle now (s_held s)) as [[h found] dropped] eqn:Hf. simpl.
    destruct (found ≫= λ p, s_proofs s !! p) as [pf|] eqn:Hpf; simpl; unfold admitted; simpl.
    + destruct found as [p|]; [simpl in Hpf|done].
      destruct (held_ok_run is_proven s Hrun) as [[_ _ Hp _] _]. rewrite (Hp _ _ Hpf).
      destruct (plane_admit _ _ _ _) eqn:Ha.
      * apply admits in Ha as [_ Hg%rules_grant]. destruct Hg as [Hg|[Hg|[-> _]]]; [by vm_compute in Hg..|done].
      * destruct (may_operate r) eqn:Hm; [|done].
        assert (plane_admit (Some (value (pf_identity pf))) (number r) (action ACT, ACT) RULES = true) as Hok; [|congruence].
        apply admits. split; [by eexists|]. apply rules_grant. right. right. split; [done|]. by right; left.
    + destruct (plane_admit _ _ _ _) eqn:Ha; [|done]. by apply admits in Ha as [[? ?] _].
  - apply admitted_iff.
Qed.
End admitted.

(** ** Admission as its documentation says, and one caller *)

Section witnesses.
#[local] Instance by_rules : Admission :=
  {| plane_admit who role asked rules := bool_decide (is_Some who) &&
       existsb (λ r, bool_decide (rule_action r = asked.1) && bool_decide (rule_method r = asked.2) &&
                     (rule_least r <=? role)) rules |}.

#[local] Instance by_rules_laws : AdmissionLaws.
Proof.
  split. intros who role asked rules. simpl. rewrite andb_true_iff, bool_decide_eq_true, existsb_exists.
  split.
  - intros [? (r & Hin & [[? ?]%andb_true_iff ?]%andb_true_iff)]. split; [done|]. exists r.
    rewrite list_elem_of_In. rewrite bool_decide_eq_true, Z.leb_le in *. done.
  - intros [? (r & Hin & ? & ? & ?)]. split; [done|]. exists r. rewrite <-list_elem_of_In.
    split; [done|]. rewrite !andb_true_iff, !bool_decide_eq_true, Z.leb_le. done.
Qed.

Abbreviation ana_proven := (λ who : string, negb (bool_decide (who = "guess"%string))).

Lemma admitted_as_ruled_witness : ∃ s : Store (Identity := string), rtc (held_step ana_proven) store_new s ∧
  act_admitted ana_proven id 7 50 Operator ("pause", "x")%string s = Ok tt ∧
  act_admitted ana_proven id 8 50 Developer ("pause", "x")%string s = Err (nothing_proved "pause" "x").
Proof.
  destruct ana_held as (s & Hrun & Hf & Hnone & pf & Hpf). exists s. split; [exact Hrun|].
  destruct (admitted_as_ruled ana_proven id s 7 50 Operator ("pause", "x")%string ACT None Hrun) as [Ha _].
  destruct (admitted_as_ruled ana_proven id s 8 50 Developer ("pause", "x")%string ACT None Hrun) as [Hb _].
  rewrite Ha, Hb, Hf, Hnone. simpl. rewrite Hpf. split; reflexivity.
Defined.
End witnesses.
