(* ===== verification/Call.v ===== *)
(** * One call of the operate service as it crosses: [src/plane/call.rs]

    A method of the service, its message in a frame, the caller a relay
    names in a header, and the answer's status in its trailers: built and
    read here for both ends. JSON, the frame, the status codes and percent
    encoding are other crates': the classes [Json] and [Grpc], with what
    they document as [JsonLaws] and [GrpcLaws]. *)

From Stdlib Require Import Ascii String.
From stdpp Require Import base numbers list strings pretty sets countable.
From S2P Require Import Prelude Text Journey Storage Held Role.

Local Open Scope string_scope.
Local Open Scope list_scope.

(** The relay's methods, beside [Role]'s. *)
Definition NONCES : string := "Nonces".
Definition VOUCH : string := "Vouch".
Definition UNVOUCH : string := "Unvouch".

Definition CALLER_HEADER : string := "xmip-caller".

Definition UNKNOWN_CALLER : string :=
  "REFUSED. Nothing proved who asks: the node holds no caller by that handle for this relay".

Definition REFUSED_CALL : string := "the node refused the call".

(** [LONGEST_WAIT], in milliseconds. *)
Definition LONGEST_WAIT : N := 25000.

(** ** JSON: an object built of its fields, and a value read at a key *)

Inductive Leaf :=
  | JText (s : string)
  | JNumber (n : N)
  | JBool (b : bool)
  | JTexts (l : list string)
  (** An array of objects, each field a text or a number. *)
  | JObjects (l : list (list (string * (string + N)))).

Class Json := {
  value : Type;
  object : list (string * Leaf) → value;
  shown : value → string;
  from_slice : string → result value string;
  at_text : value → string → option string;
  at_number : value → string → option N;
  (** An array's elements, each a text or not. *)
  at_texts : value → string → option (list (option string))
}.

(** The field a key names in an object built. *)
Definition field_of (fields : list (string * Leaf)) (key : string) : option Leaf :=
  snd <$> List.find (λ f, String.eqb (fst f) key) fields.

Class JsonLaws `{Json} := {
  read_shown v : from_slice (shown v) = Ok v;
  text_built fields key :
    at_text (object fields) key = match field_of fields key with Some (JText s) => Some s | _ => None end;
  number_built fields key :
    at_number (object fields) key = match field_of fields key with Some (JNumber n) => Some n | _ => None end;
  texts_built fields key :
    at_texts (object fields) key =
      match field_of fields key with Some (JTexts l) => Some (Some <$> l) | _ => None end
}.

(** ** The frame, the codes and the encoding *)

Class Grpc := {
  frame : string → result string string;
  unframe : string → result string string;
  code : string → N;
  encode : string → string;
  decode : string → string;
  STATUS : string;
  MESSAGE : string;
  CONTENT_TYPE_JSON : string
}.

(** The codes a refusal is given by name here; none is OK's. *)
Definition codes : list string := ["UNIMPLEMENTED"; "INVALID_ARGUMENT"; "PERMISSION_DENIED"; "INTERNAL"].

Class GrpcLaws `{Grpc} := {
  unframe_frame text framed : frame text = Ok framed → unframe framed = Ok text;
  code_not_ok name : name ∈ codes → code name ≠ 0%N;
  decode_encode text : decode (encode text) = text;
  fields_differ : same_letters STATUS MESSAGE = false;
  fields_not_content : same_letters "content-type" STATUS = false
}.

(** ** A request and an answer *)

Record Request := {
  req_path : string;
  req_headers : list (string * string);
  req_body : string
}.

Record Response := {
  status : N;
  headers : list (string * string);
  body : string;
  trailers : list (string * string)
}.

(** The first field of a name, whatever its letters' case. *)
Definition header_value (fields : list (string * string)) (name : string) : option string :=
  snd <$> List.find (λ f, same_letters (fst f) name) fields.

Section call.
Context `{Json} `{Grpc}.

Definition request (authority method : string) (message : value) (caller : option N) : result Request string :=
  let? body := frame (shown message) in
  Ok {| req_path := path method;
        req_headers := [("host", authority); ("content-type", CONTENT_TYPE_JSON); ("te", "trailers")] ++
          match caller with Some caller => [(CALLER_HEADER, pretty caller)] | None => [] end;
        req_body := body |}.

Definition caller_of (r : Request) : option N :=
  (λ v, default 0%N (parse_u64 (trim v))) <$> header_value (req_headers r) CALLER_HEADER.

Definition not_json (what error : string) : string := "the " +:+ what +:+ " is not JSON: " +:+ error.

Definition message (r : Request) : result value string :=
  let? text := unframe (req_body r) in
  match from_slice text with Ok v => Ok v | Err error => Err (not_json "message" error) end.

Definition refusal (name why : string) : Response :=
  {| status := 200; headers := [("content-type", CONTENT_TYPE_JSON)]; body := "";
     trailers := [(STATUS, pretty (code name)); (MESSAGE, encode why)] |}.

Definition answer (message : value) : Response :=
  match frame (shown message) with
  | Ok body => {| status := 200; headers := [("content-type", CONTENT_TYPE_JSON)]; body := body;
                  trailers := [(STATUS, "0")] |}
  | Err failed => refusal "INTERNAL" failed
  end.

(** What a refused call says. *)
Definition refused_with (status said : string) : string :=
  REFUSED_CALL +:+ " (" +:+ status +:+ "): " +:+ said.

Definition answered (r : Response) : result value string :=
  if negb (status r =? 200)%N then Err ("the node answered HTTP " +:+ pretty (status r))
  else
    let field := header_value (trailers r ++ headers r) in
    let status := default "2" (field STATUS) in
    if negb (String.eqb status "0") then
      Err (refused_with status (match field MESSAGE with Some said => decode said | None => "" end))
    else
      let? text := unframe (body r) in
      match from_slice text with Ok v => Ok v | Err error => Err (not_json "answer" error) end.
End call.

(** ** What crosses *)

Section crosses.
Context `{JsonLaws} `{GrpcLaws}.

Lemma header_value_first name v fields other :
  same_letters name other = true → header_value ((name, v) :: fields) other = Some v.
Proof. intros Hs. unfold header_value. simpl. by rewrite Hs. Qed.

Lemma header_value_next name v fields other :
  same_letters name other = false → header_value ((name, v) :: fields) other = header_value fields other.
Proof. intros Hs. unfold header_value. simpl. by rewrite Hs. Qed.

Lemma answered_refusal name why :
  name ∈ codes → answered (refusal name why) = Err (refused_with (pretty (code name)) why).
Proof.
  intros Hname. unfold answered, refusal. simpl.
  rewrite header_value_first by apply same_letters_refl. simpl.
  rewrite header_value_next by apply fields_differ.
  rewrite header_value_first by apply same_letters_refl. rewrite decode_encode.
  destruct (String.eqb_spec (pretty (code name)) "0") as [Heq|]; [|done].
  destruct (code_not_ok name Hname). apply (inj (pretty : N → string)). by rewrite Heq.
Qed.

Lemma answered_answer v :
  answered (answer v) =
    match frame (shown v) with
    | Ok _ => Ok v
    | Err failed => Err (refused_with (pretty (code "INTERNAL")) failed)
    end.
Proof.
  unfold answer. destruct (frame (shown v)) as [framed|failed] eqn:Hf;
    [|apply answered_refusal; set_solver].
  unfold answered. simpl. rewrite header_value_first by apply same_letters_refl. simpl.
  rewrite (unframe_frame _ _ Hf). simpl. by rewrite read_shown.
Qed.

(** A refusal is told from a line lost by its opening words. *)
Lemma refusal_told status said : starts_with REFUSED_CALL (refused_with status said) = true.
Proof. unfold refused_with. apply starts_with_app. Qed.

(** A call of the operate service crosses whole: the request read is the
    request made — its method, its message, and the caller a relay names by
    a node's handle, no one where none was named — and the answer read is
    the answer given, or the refusal, its status and its words, which open
    with what a surface tells a refusal from a lost line by. *)
Theorem call_crosses authority method v caller r name why :
  request authority method v caller = Ok r → (∀ c, caller = Some c → (c ≤ u64_max)%N) → name ∈ codes →
  method_of (req_path r) = Some method ∧ caller_of r = caller ∧ message r = Ok v ∧
  match answered (answer v) with
  | Ok back => back = v
  | Err said => starts_with REFUSED_CALL said = true
  end ∧
  answered (refusal name why) = Err (refused_with (pretty (code name)) why) ∧
  starts_with REFUSED_CALL (refused_with (pretty (code name)) why) = true.
Proof.
  intros Hreq Hbound Hname. unfold request in Hreq. destruct (frame (shown v)) as [framed|] eqn:Hf; [|done].
  injection Hreq as <-. split_and!.
  - apply path_names_method.
  - unfold caller_of. simpl. rewrite !header_value_next by done. destruct caller as [c|]; simpl; [|done].
    rewrite trim_digits by apply pretty_all. by rewrite parse_pretty by auto.
  - unfold message. simpl. rewrite (unframe_frame _ _ Hf). simpl. by rewrite read_shown.
  - rewrite answered_answer, Hf. done.
  - by apply answered_refusal.
  - apply refusal_told.
Qed.
End crosses.

(** ** A JSON and a frame that run

    A value is its fields, shown as the bits of its number among all of
    them; a frame is its text. *)

#[export] Instance leaf_eq_dec : EqDecision Leaf.
Proof. solve_decision. Defined.

#[export] Instance leaf_countable : Countable Leaf.
Proof.
  refine (inj_countable'
    (λ l, match l with
          | JText s => inl (inl s) | JNumber n => inl (inr n) | JBool b => inr (inl b)
          | JTexts l => inr (inr (inl l)) | JObjects l => inr (inr (inr l)) end)
    (λ x, match x with
          | inl (inl s) => JText s | inl (inr n) => JNumber n | inr (inl b) => JBool b
          | inr (inr (inl l)) => JTexts l | inr (inr (inr l)) => JObjects l end) _).
  by intros [].
Defined.

Fixpoint bits (p : positive) : string :=
  match p with xH => "e" | xO p => String "0" (bits p) | xI p => String "1" (bits p) end.

Fixpoint unbits (s : string) : option positive :=
  match s with
  | String a rest =>
      if Ascii.eqb a "e" then Some xH
      else if Ascii.eqb a "0" then xO <$> unbits rest else if Ascii.eqb a "1" then xI <$> unbits rest else None
  | EmptyString => None
  end.

Lemma bits_read_back p : unbits (bits p) = Some p.
Proof. induction p as [p IH|p IH|]; simpl; [by rewrite IH..|done]. Qed.

Definition fields_json : Json := {|
  value := list (string * Leaf);
  object := id;
  shown v := bits (countable.encode v);
  from_slice s :=
    match unbits s ≫= countable.decode with Some v => Ok v | None => Err "no value" end;
  at_text v key := match field_of v key with Some (JText s) => Some s | _ => None end;
  at_number v key := match field_of v key with Some (JNumber n) => Some n | _ => None end;
  at_texts v key := match field_of v key with Some (JTexts l) => Some (Some <$> l) | _ => None end
|}.

Lemma fields_json_laws : @JsonLaws fields_json.
Proof.
  split; [|done..]. intros v. cbn [from_slice shown fields_json]. rewrite bits_read_back. cbn [mbind option_bind].
  by rewrite (countable.decode_encode (v : list (string * Leaf))).
Qed.

Definition plain_grpc : Grpc := {|
  frame := Ok; unframe := Ok;
  code name :=
    if String.eqb name "UNIMPLEMENTED" then 12 else if String.eqb name "INVALID_ARGUMENT" then 3
    else if String.eqb name "PERMISSION_DENIED" then 7 else 13;
  encode := id; decode := id;
  STATUS := "grpc-status"; MESSAGE := "grpc-message"; CONTENT_TYPE_JSON := "application/grpc+json"
|}%N.

Lemma plain_grpc_laws : @GrpcLaws plain_grpc.
Proof.
  split; [by intros text framed [= ->]| |done..].
  intros name. unfold codes. rewrite !elem_of_cons, elem_of_nil. by intros [->|[->|[->|[->|[]]]]].
Qed.

Lemma call_crosses_witness :
  ∃ r, request (H := fields_json) (H0 := plain_grpc) "node:1" ACT [("target", JText "j-1")] (Some 42%N) = Ok r ∧
    method_of (req_path r) = Some ACT ∧ caller_of r = Some 42%N.
Proof.
  eexists. split; [reflexivity|].
  assert (∀ c, Some 42%N = Some c → (c ≤ u64_max)%N) as Hb by (intros c Hc; injection Hc as <-; vm_compute; discriminate).
  destruct (@call_crosses fields_json fields_json_laws plain_grpc plain_grpc_laws "node:1" ACT
    [("target", JText "j-1")] (Some 42%N) _ "INTERNAL" "" eq_refl Hb ltac:(unfold codes; rewrite !elem_of_cons; auto))
    as (Hm & Hc & _).
  split; [exact Hm|exact Hc].
Defined.
