(* ===== verification/Applied.v ===== *)
(** * An act applied to a node of this process: [src/applied.rs], [src/secret.rs]

    An operator's order, applied once whichever way it came: the node found
    by its scope among those this process runs, and the act its pickup's or
    its send step's ([apply]); a secret set on a node or the secrets it keeps
    listed ([set_secret], [listed]). The words of nouns, acts and secrets
    are other crates' ([ObserveWords], [SecretWords]); a node's parts are
    the operations each registers ([Nodes]), which end as they end. *)

From Stdlib Require Import Ascii String.
From stdpp Require Import base numbers list strings.
From S2P Require Import Prelude Text Call.

Local Open Scope string_scope.
Local Open Scope list_scope.

(** ** An operator's act: [applied.rs] *)

Inductive Noun := Subscription_ | DeadMessage_ | Message_ | EventSubscription.

Inductive Applied :=
  | Taken (said : string)
  | Refused_ (said : string)
  | Failed_ (said : string).

Definition said (a : Applied) : string := match a with Taken s | Refused_ s | Failed_ s => s end.

Definition into_result (a : Applied) : result string string :=
  match a with Taken s => Ok s | Refused_ s | Failed_ s => Err s end.

(** [Applied::of]. *)
Definition applied_of (answer : result string string) : Applied :=
  match answer with
  | Ok said => Taken said
  | Err said => if starts_with "FAILED" said then Failed_ said else Refused_ said
  end.

(** Acts and their words ([observe]). *)
Class ObserveWords := {
  Act : Type;
  act_eq_dec :: EqDecision Act;
  Replay : Act;
  act_word : Act → string;
  noun_named : string → option Noun;
  noun_called : Noun → string;
  noun_act : Noun → string → result Act string
}.

(** Secrets ([xcore]), and an entry of a listing of them. *)
Class SecretWords := {
  SecretName : Type;
  SecretKind : Type;
  Secret : Type;
  Entry : Type;
  secret_name : string → result SecretName string;
  kind_named : string → option SecretKind;
  kind_words : list string;
  kind_word : SecretKind → string;
  secret_new : SecretName → SecretKind → string → result Secret string;
  secret_kind : Secret → SecretKind;
  entry_name : Entry → string;
  entry_kind : Entry → SecretKind;
  entry_set : Entry → N;
  entry_by : Entry → string
}.

Section applied.
Context `{ObserveWords} `{SecretWords}.

Record Order := { o_node : string; o_noun : Noun; o_target : string; o_act : Act; o_who : string }.

(** What a node of this process is asked: its pickup, its Xmip Storage's
    secrets, and its send step. *)
Record PickupOps (W : Type) := {
  pk_node : string;
  pk_replay : string → string → asks W string;
  pk_act : string → Act → string → asks W string;
  pk_write_secret : Secret → string → asks W unit;
  pk_list_secrets : asks W (list Entry)
}.

Record SendOps (W : Type) := { st_node : string; st_act : string → Act → string → asks W string }.
#[global] Arguments pk_node {W} _.
#[global] Arguments pk_replay {W} _.
#[global] Arguments pk_act {W} _.
#[global] Arguments pk_write_secret {W} _.
#[global] Arguments pk_list_secrets {W} _.
#[global] Arguments st_node {W} _.
#[global] Arguments st_act {W} _.

Class Nodes (W : Type) := {
  pickups : W → list (PickupOps W);
  sends : W → list (SendOps W)
}.

Context {W : Type} `{!Nodes W}.

Definition absent (node : string) : Applied := Refused_ ("REFUSED: no node at " +:+ node +:+ " runs in this process").

Definition no_hub (node target : string) : Applied :=
  Refused_ ("REFUSED: " +:+ node +:+ " keeps no Event subscription hub; the Event subscription '" +:+ target +:+
            "' is another process's").

Definition answering (a : asks W string) (w : W) : W * Applied :=
  let '(w, answer) := a w in (w, applied_of answer).

(** [apply]. *)
Definition apply (o : Order) (w : W) : W * Applied :=
  match o_noun o with
  | Subscription_ | DeadMessage_ =>
      match List.find (λ p, String.eqb (pk_node p) (o_node o)) (pickups w) with
      | None => (w, absent (o_node o))
      | Some p =>
          answering (if decide (o_act o = Replay) then pk_replay p (o_target o) (o_who o)
                     else pk_act p (o_target o) (o_act o) (o_who o)) w
      end
  | Message_ =>
      match List.find (λ s, String.eqb (st_node s) (o_node o)) (sends w) with
      | None => (w, absent (o_node o))
      | Some s => answering (st_act s (o_target o) (o_act o) (o_who o)) w
      end
  | EventSubscription => (w, no_hub (o_node o) (o_target o))
  end.

(** ** A secret: [secret.rs] *)

(** [storage_of]: the pickup whose Xmip Storage it is. *)
Definition storage_of (node : string) (w : W) : result (PickupOps W) string :=
  let registered := pickups w in
  match (if String.eqb node "" && (length registered =? 1)%nat then head registered
         else List.find (λ p, String.eqb (pk_node p) node) registered) with
  | Some p => Ok p
  | None => Err (if String.eqb node "" then "REFUSED: name the node; this process runs more than one node, or none"
                 else "REFUSED: no node at " +:+ node +:+ " runs in this process")
  end.

Definition secret_made (name kind v : string) : result Secret string :=
  let? name := secret_name name in
  match kind_named kind with
  | None => Err ("'" +:+ kind +:+ "' is no kind of secret: " +:+ String.concat ", " kind_words)
  | Some kind => secret_new name kind v
  end.

(** [set]. *)
Definition set_secret (node name kind v who : string) (w : W) : W * Applied :=
  match secret_made name kind v with
  | Err why => (w, Refused_ ("REFUSED: " +:+ why))
  | Ok secret =>
      match storage_of node w with
      | Err refused => (w, Refused_ refused)
      | Ok p =>
          match pk_write_secret p secret who w with
          | (w, Ok _) => (w, Taken ("the secret '" +:+ name +:+ "', a " +:+ kind_word (secret_kind secret) +:+
                                    ", is set; a Location naming it presents it as it next connects"))
          | (w, Err failed) => (w, Failed_ ("FAILED: the secret '" +:+ name +:+
                                            "' is not set, Xmip Storage did not take it: " +:+ failed))
          end
      end
  end.

(** [listed]. *)
Definition listed (node : string) : asks W (list Entry) := λ w,
  match storage_of node w with
  | Err refused => (w, Err refused)
  | Ok p =>
      match pk_list_secrets p w with
      | (w, Ok entries) => (w, Ok entries)
      | (w, Err failed) => (w, Err ("FAILED: the secrets could not be read: " +:+ failed))
      end
  end.

(** [said]: a listing, each secret's name, kind, and when and by whom set. *)
Definition listing `{Json} (entries : list Entry) : value :=
  object [("secrets", JObjects ((λ e, [("name", inl (entry_name e)); ("kind", inl (kind_word (entry_kind e)));
                                       ("set_unix_nanos", inr (entry_set e)); ("set_by", inl (entry_by e))]) <$> entries))].
End applied.
