(* ===== verification/Served.v ===== *)
(** * A call on a node's operate listener: [src/plane/served.rs]

    A connection's caller is what the authentication gate answers for what
    the connection proved ([src/plane/caller.rs]); each call on it is
    decided from its method, its caller and the role that holds before a
    byte of it is read, and only then read and answered ([called]): the
    publication, a wait, an act ([Applied.apply]), a secret set or listed,
    and a relay's nonces, vouch and unvouch ([src/plane/vouched.rs],
    [src/plane/fresh.rs]). What a call did is listed in its order ([Did]).

    The gate ([authenticate]), certificates, handshakes and the codecs are
    other crates'. A call's readings of the clock and what it draws are
    given ([Reading]). HTTP/2 and TLS are outside: a connection is what it
    proved and the requests it brings, each with whether its answer was
    written. *)

From Stdlib Require Import Ascii String.
From stdpp Require Import base numbers list gmap strings sets.
From S2P Require Import Prelude Text Journey Storage Fresh Vouched Held Role Call Applied.

Local Open Scope string_scope.
Local Open Scope list_scope.

(** ** An audit record, as the listener makes one: [record], [noted] *)

Inductive Phase := Execute | Failure.
Inductive Severity := Information | Warning.

Record Audit := {
  au_action : string;
  au_phase : Phase;
  au_severity : Severity;
  au_message : string;
  au_properties : gmap string string
}.

(** [Asker]. *)
Record Asker := { who : string; through : option string }.

(** [AUDIT_ACTION]. *)
Definition AUDIT_ACTION : string := "act".

Definition record (a : Asker) (role : Role) (act target : string) (refused : option string) : Audit :=
  let asked := match through a with
    | Some through => who a +:+ " asked through " +:+ through +:+ " to " +:+ act +:+ " " +:+ target
    | None => who a +:+ " asked to " +:+ act +:+ " " +:+ target
    end in
  let properties : gmap string string :=
    <["act" := act]> (<["target" := target]> (<["who" := who a]> (<["role" := word role]> ∅))) in
  {| au_action := AUDIT_ACTION;
     au_phase := match refused with None => Execute | Some _ => Failure end;
     au_severity := match refused with None => Information | Some _ => Warning end;
     au_message := default asked refused;
     au_properties := match through a with Some t => <["through" := t]> properties | None => properties end |}.

Definition noted (peer message : string) : Audit :=
  {| au_action := "operate.connection"; au_phase := Failure; au_severity := Warning;
     au_message := message; au_properties := {["peer" := peer]} |}.

(** ** Who a caller is: [caller.rs] *)

(** A claim as the gate is handed it: [identify::Presented], by the
    mechanism and how it was established. *)
Record Presented := {
  cl_mechanism : string;
  cl_passed : bool;
  cl_value : string;
  cl_proof : string;
  cl_issuer : option string
}.

Class Gate := {
  Identity : Type;
  is_proven : Identity → bool;
  name_of : Identity → string;
  mechanism_of : Identity → string;
  mutual_tls : string;
  peer_credentials : string;
  mutual_tls_handshake : string;
  peer_credentials_system : string;
  (** A leaf's subject and issuer. *)
  subject_of : bytes → result string string;
  issuer_of : bytes → option string;
  (** The one gate, closed to the mechanism named, with no Party known. *)
  authenticate : string → Presented → result Identity string
}.

(** Certificates, handshakes and codecs. *)
Class Codecs := {
  Read_ : Type;
  Path : Type;
  from_der : chain → result Read_ string;
  verify_client : Read_ → Z → result Path string;
  verify_any : Read_ → Z → result Path string;
  not_after : Path → result Z string;
  proved : bytes → result Proof_of_possession string;
  binding : list bytes → bytes;
  BINDING : nat;
  base64 : string → result bytes string;
  hex : string → result bytes string;
  to_hex : bytes → string
}.

Definition ok_of {A E} (r : result A E) : option A := match r with Ok a => Some a | Err _ => None end.

Section served.
Context `{Json} `{Grpc} `{ObserveWords} `{SecretWords} `{Admission} `{Gate} `{Codecs}.

(** [certificate]: the caller a verified leaf proves. *)
Definition certificate (leaf : bytes) : result Identity string :=
  let? subject := subject_of leaf in
  authenticate mutual_tls
    {| cl_mechanism := mutual_tls; cl_passed := true; cl_value := subject; cl_proof := mutual_tls_handshake;
       cl_issuer := issuer_of leaf |}.

(** [local]: the caller the operating system names. *)
Definition local (account : string) : result Identity string :=
  authenticate peer_credentials
    {| cl_mechanism := peer_credentials; cl_passed := false; cl_value := account;
       cl_proof := peer_credentials_system; cl_issuer := None |}.

(** What a connection proved: the leaf its handshake verified against the
    anchors, or the account the operating system names it by. *)
Inductive Proved :=
  | Network (leaf : option bytes)
  | Local (account : result string string).

(** [answer]'s and [answer_local]'s caller. *)
Definition connected (c : Proved) : result Identity string :=
  match c with
  | Network None => Err "the surface presented no certificate"
  | Network (Some leaf) => certificate leaf
  | Local account => let? account := account in local account
  end.

(** ** What a call is answered from: [Serve] *)

(** [Published]: a wait may see what else happens meanwhile. *)
Class Published (W : Type) := {
  published_read : W → N * string;
  published_wait : N → N → W → W * N;
  published_acted : W → W
}.

Context {W : Type} `{!Nodes W} `{!Published W}.

(** [[operate] relay]: whom it names, the nonces it issued and the callers
    vouched for. *)
Record Relays := { rl_names : list string; rl_fresh : Outstanding; rl_vouched : Relaying (Identity := Identity) }.

Record Serve := { sv_relaying : option Relays; sv_stated : option Role; sv_world : W }.

(** What a call reads of the clock, and draws. *)
Record Reading := {
  now_mono : N;
  now_wall : Z;
  moments : Moments;
  drawn_handle : N;
  drawn_nonces : list bytes
}.

(** What a call did, beside the tables it keeps. *)
Inductive Did :=
  | Recorded (a : Audit)
  | Acted (o : Order) (came : Applied)
  | SecretSet (node name by_ : string) (came : Applied)
  | Told.

Definition with_world (s : Serve) (w : W) : Serve :=
  {| sv_relaying := sv_relaying s; sv_stated := sv_stated s; sv_world := w |}.

Definition with_relays (s : Serve) (r : Relays) : Serve :=
  {| sv_relaying := Some r; sv_stated := sv_stated s; sv_world := sv_world s |}.

Definition with_table (r : Relays) (v : Relaying) : Relays :=
  {| rl_names := rl_names r; rl_fresh := rl_fresh r; rl_vouched := v |}.

(** [Relaying::relays]. *)
Definition relays (r : Relays) (who : string) : bool := existsb (λ one, same_letters (trim one) who) (rl_names r).

(** The relays a caller is one of. *)
Definition relaying_of (s : Serve) (caller : Identity) : option Relays :=
  match sv_relaying s with
  | Some r => if is_proven caller && relays r (name_of caller) then Some r else None
  | None => None
  end.

Definition METHODS : list string := [PUBLICATION; WAIT; ACT; SECRET; SECRETS; NONCES; VOUCH; UNVOUCH].

Definition NOT_A_RELAY : string := "relays for no one: [operate] relay does not name it".

Definition no_relay (caller : Identity) : string := "REFUSED. " +:+ name_of caller +:+ " " +:+ NOT_A_RELAY +:+ " (ADR-0009)".

(** [asked]: what a method asks, in its refusal's words. *)
Definition asked (method : string) : string :=
  if String.eqb method PUBLICATION then "read the publication"
  else if String.eqb method WAIT then "follow the publication"
  else if String.eqb method SECRET then "set a secret"
  else if String.eqb method SECRETS then "list the secrets"
  else "act".

Definition outcome (word said : string) : Response := answer (object [("outcome", JText word); ("said", JText said)]).

(** [answered_refused]. *)
Definition answered_refused (method refused : string) : Response :=
  if String.eqb method ACT || String.eqb method SECRET then outcome "denied" refused
  else if String.eqb method SECRETS then answer (object [("refused", JText refused)])
  else refusal "PERMISSION_DENIED" refused.

Definition text_in (message : value) (key : string) : string := default "" (at_text message key).

(** ** A relay's calls *)

Definition refused_answer (why : string) : value := object [("refused", JText why)].

(** [Fresh::answered]. *)
Definition nonces_answered (r : Relays) (caller : Identity) (listener : bytes) (count : N) (at_ : Reading) :
    Relays * value :=
  let through := name_of caller in
  if String.eqb (mechanism_of caller) mutual_tls &&
     negb (match certificate listener with Ok named => String.eqb (name_of named) through | Err _ => false end)
  then (r, refused_answer ("REFUSED. " +:+ through +:+ " names a listener whose certificate is not its own subject's"))
  else
    ({| rl_names := rl_names r; rl_vouched := rl_vouched r;
        rl_fresh := Fresh.issue (rl_fresh r) through listener (now_mono at_) count (drawn_nonces at_) |},
     object [("nonces", JTexts (to_hex <$> drawn_nonces at_)); ("within_ms", JNumber 30000)]).

(** [nonces]. *)
Definition nonces (r : Relays) (caller : Identity) (message : value) (at_ : Reading) : Relays * value :=
  match at_text message "listener" ≫= λ t, ok_of (base64 t) with
  | None | Some [] => (r, refused_answer "REFUSED. Nonces name the listener they are for")
  | Some listener =>
      match verified is_proven name_of from_der verify_any certificate not_after [listener] (verifying (moments at_)) with
      | Err refused => (r, refused_answer (refused +:+ ": the relay's listener (ADR-0009)"))
      | Ok _ => nonces_answered r caller listener (default 1%N (at_number message "count")) at_
      end
  end.

(** [vouched_for]. *)
Definition transcript_of (message : value) : result bytes string :=
  match at_text message "transcript" with
  | None => Err "REFUSED. A Vouch hands the browser's handshake"
  | Some text => match base64 text with Ok t => Ok t | Err failed => Err ("REFUSED. " +:+ failed) end
  end.

Definition nonces_of (message : value) : list bytes :=
  omap (λ one, one ≫= λ text, ok_of (hex text)) (default [] (at_texts message "nonces")).

Definition vouching (r : Relays) (through : string) (message : value) (at_ : Reading) : Relays * value :=
  let '(fresh, v, handle) :=
    Vouched.vouched_for is_proven name_of from_der verify_client certificate not_after proved binding BINDING
      (rl_fresh r) (rl_vouched r) through (transcript_of message) (nonces_of message) (now_mono at_) (moments at_)
      (drawn_handle at_) in
  ({| rl_names := rl_names r; rl_fresh := fresh; rl_vouched := v |},
   match handle with Ok h => object [("caller", JNumber h)] | Err why => refused_answer why end).

(** [unvouched]. *)
Definition unvouching (r : Relays) (through : string) (message : value) : Relays * value :=
  let '(v, was) := Vouched.unvouch (rl_vouched r) (default 0%N (at_number message "caller")) through in
  (with_table r v, object [("released", JBool was)]).

(** [relayed]. *)
Definition relayed (s : Serve) (relaying : option Relays) (caller : Identity) (method : string) (req : Request)
    (at_ : Reading) : Serve * list Did * Response :=
  let who := name_of caller in
  match relaying with
  | None => (s, [Recorded (noted who (no_relay caller))], refusal "PERMISSION_DENIED" (no_relay caller))
  | Some r =>
      match message req with
      | Err why => (s, [], refusal "INVALID_ARGUMENT" why)
      | Ok m =>
          let '(r, a) := if String.eqb method NONCES then nonces r caller m at_
                         else if String.eqb method VOUCH then vouching r who m at_ else unvouching r who m in
          (with_relays s r,
           match at_text a "refused" with Some refused => [Recorded (noted who refused)] | None => [] end, answer a)
      end
  end.

(** ** An act, and a secret set *)

Definition came_to (a : Applied) : Response :=
  match a with Taken s => outcome "taken" s | Refused_ s => outcome "refused" s | Failed_ s => outcome "failed" s end.

(** [acted]. *)
Definition acted (s : Serve) (a : Asker) (m : value) : Serve * list Did * Response :=
  let node := text_in m "node" in
  let target := text_in m "target" in
  match noun_named (text_in m "noun") with
  | None => (s, [], outcome "invalid" ("REFUSED: '" +:+ text_in m "noun" +:+ "' is no noun"))
  | Some noun =>
      match noun_act noun (text_in m "act") with
      | Err refused => (s, [], outcome "invalid" refused)
      | Ok act =>
          let thing := noun_called noun +:+ " '" +:+ target +:+ "' at " +:+ node in
          let order := {| o_node := node; o_noun := noun; o_target := target; o_act := act; o_who := who a |} in
          let '(w, came) := apply order (sv_world s) in
          let did := [Recorded (record a (default Observer (sv_stated s)) (act_word act) thing None); Acted order came] in
          match came with
          | Taken _ => (with_world s (published_acted w), did ++ [Told], came_to came)
          | _ => (with_world s w, did, came_to came)
          end
      end
  end.

(** [secret_set]. *)
Definition secret_set (s : Serve) (a : Asker) (m : value) : Serve * list Did * Response :=
  let node := text_in m "node" in
  let name := text_in m "name" in
  let thing := "the secret '" +:+ name +:+ "' at " +:+ node in
  let '(w, came) := set_secret node name (text_in m "kind") (text_in m "value") (who a) (sv_world s) in
  (with_world s w,
   [Recorded (record a (default Observer (sv_stated s)) "set" thing None); SecretSet node name (who a) came],
   came_to came).

(** ** The call: [called] *)

(** A call admitted, read and answered. *)
Definition read_and_answered (s : Serve) (a : Asker) (method : string) (req : Request) : Serve * list Did * Response :=
  match message req with
  | Err why => (s, [], refusal "INVALID_ARGUMENT" why)
  | Ok m =>
      if String.eqb method PUBLICATION then
        let '(revision, text) := published_read (sv_world s) in
        (s, [], answer (object [("revision", JNumber revision); ("publication", JText text)]))
      else if String.eqb method WAIT then
        let after := default 0%N (at_number m "after") in
        let within := N.min (default LONGEST_WAIT (at_number m "within_ms")) LONGEST_WAIT in
        let '(w, revision) := published_wait after within (sv_world s) in
        (with_world s w, [], answer (object [("revision", JNumber revision)]))
      else if String.eqb method ACT then acted s a m
      else if String.eqb method SECRET then secret_set s a m
      else
        match listed (text_in m "node") (sv_world s) with
        | (w, Ok entries) => (with_world s w, [], answer (listing entries))
        | (w, Err refused) => (with_world s w, [], answer (refused_answer refused))
        end
  end.

(** A call decided before it is read: for whom it asks, and the role that
    holds. *)
Definition decided (s : Serve) (acting : option Identity) (through : option string) (method : string) (req : Request) :
    Serve * list Did * Response :=
  match acting with
  | None => (s, [], answered_refused method UNKNOWN_CALLER)
  | Some acting =>
      let role := default Observer (sv_stated s) in
      let a := {| who := name_of acting; through := through |} in
      match admitted is_proven name_of (Some acting) role method (asked method, "on this node") with
      | Err refused => (s, [Recorded (record a role method "" (Some refused))], answered_refused method refused)
      | Ok _ => read_and_answered s a method req
      end
  end.

Definition called (s : Serve) (caller : Identity) (req : Request) (at_ : Reading) : Serve * list Did * Response :=
  match method_of (req_path req) with
  | Some method =>
      if negb (bool_decide (method ∈ METHODS)) then
        (s, [], refusal "UNIMPLEMENTED" (req_path req +:+ " is no method of " +:+ SERVICE))
      else
        let relaying := relaying_of s caller in
        if bool_decide (method ∈ [NONCES; VOUCH; UNVOUCH]) then relayed s relaying caller method req at_
        else
          match caller_of req, relaying with
          | None, _ => decided s (Some caller) None method req
          | Some handle, Some r =>
              let '(v, acting) := Vouched.proven (rl_vouched r) handle (name_of caller) (now_wall at_) in
              decided (with_relays s (with_table r v)) acting (Some (name_of caller)) method req
          | Some _, None => (s, [], answered_refused method (no_relay caller))
          end
  | None => (s, [], refusal "UNIMPLEMENTED" (req_path req +:+ " is no method of " +:+ SERVICE))
  end.

(** ** A connection: [answer], [answer_local], [calls] *)

(** A request it brings: whether the listener had stopped by then, and
    whether its answer was written. *)
Record Brought := { b_stopped : bool; b_request : Request; b_reading : Reading; b_written : bool }.

(** [calls]. *)
Fixpoint calls (s : Serve) (caller : Identity) (brought : list Brought) : Serve * list Did :=
  match brought with
  | [] => (s, [])
  | b :: rest =>
      if b_stopped b then (s, [])
      else
        let '(s, did, _) := called s caller (b_request b) (b_reading b) in
        if b_written b then let '(s, more) := calls s caller rest in (s, did ++ more) else (s, did)
  end.

(** [answer] and [answer_local], of a connection from [peer]. *)
Definition connection (s : Serve) (peer : string) (c : Proved) (brought : list Brought) : Serve * list Did :=
  match connected c with
  | Ok caller => calls s caller brought
  | Err reason => (s, [Recorded (noted peer ("refused: " +:+ reason))])
  end.
End served.

(** ** Who acts *)

Section acts.
Context `{JsonLaws} `{GrpcLaws} `{ObserveWords} `{SecretWords} `{AdmissionLaws} `{Gate} `{Codecs}.
Context {W : Type} `{!Nodes W} `{!Published W}.
Implicit Types s : Serve (W := W).

(** For whom a call is made: for the connection's own caller, or, where a
    relay names one, for the caller the node holds for that relay. *)
Inductive acting_as s (caller : Identity) (req : Request) (at_ : Reading) : Identity → option string → Prop :=
  | as_itself : caller_of req = None → acting_as s caller req at_ caller None
  | as_relay handle r acting :
      caller_of req = Some handle → relaying_of s caller = Some r →
      (Vouched.proven (rl_vouched r) handle (name_of caller) (now_wall at_)).2 = Some acting →
      acting_as s caller req at_ acting (Some (name_of caller)).

(** The role every proven caller holds. *)
Definition holds s : Role := default Observer (sv_stated s).

(** Who did what changes a node, and by which method. *)
Definition doer (d : Did) : option (string * string) :=
  match d with
  | Acted o _ => Some (o_who o, ACT)
  | SecretSet _ _ by_ _ => Some (by_, SECRET)
  | _ => None
  end.

(** What one call did was its caller's to do, and recorded just before. *)
Definition done_rightly s (caller : Identity) (b : Request) (at_ : Reading) (did : list Did) : Prop :=
  ∀ i d who method, did !! i = Some d → doer d = Some (who, method) →
    ∃ acting through act thing,
      acting_as s caller b at_ acting through ∧ is_proven acting = true ∧ granted (holds s) method ∧
      method_of (req_path b) = Some method ∧ who = name_of acting ∧
      ∃ j, i = S j ∧ did !! j = Some (Recorded (record {| who := who; through := through |} (holds s) act thing None)).

Lemma none_done s caller b at_ did : (∀ d, d ∈ did → doer d = None) → done_rightly s caller b at_ did.
Proof. intros Hno i d who method Hd Hdoer. rewrite (Hno d) in Hdoer; [done|]. by eapply list_elem_of_lookup_2. Qed.

Lemma done_at_one s caller b at_ (a : Audit) (d : Did) (rest : list Did) who through acting method act thing :
  acting_as s caller b at_ acting through → is_proven acting = true → granted (holds s) method →
  method_of (req_path b) = Some method → who = name_of acting → doer d = Some (who, method) →
  a = record {| who := who; through := through |} (holds s) act thing None → (∀ d, d ∈ rest → doer d = None) →
  done_rightly s caller b at_ (Recorded a :: d :: rest).
Proof.
  intros Has Hp Hg Hm Hw Hd -> Hrest [|[|i]] d' who' method' Hd' Hdoer; simpl in Hd'.
  - by injection Hd' as <-.
  - injection Hd' as <-. rewrite Hd in Hdoer. injection Hdoer as <- <-.
    exists acting, through, act, thing. split_and!; try done. by exists 0%nat.
  - rewrite (Hrest d') in Hdoer; [done|]. by eapply list_elem_of_lookup_2.
Qed.

Lemma acted_done s s' caller b at_ acting through m s0 did resp :
  sv_stated s0 = sv_stated s → acting_as s caller b at_ acting through → is_proven acting = true →
  granted (holds s) ACT → method_of (req_path b) = Some ACT →
  acted s0 {| who := name_of acting; through := through |} m = (s', did, resp) → done_rightly s caller b at_ did.
Proof.
  intros Hst Has Hp Hg Hm. unfold acted.
  destruct (noun_named _) as [noun|]; [|intros [= <- <- <-]; apply none_done; set_solver].
  destruct (noun_act _ _) as [act|]; [|intros [= <- <- <-]; apply none_done; set_solver].
  destruct (apply _ _) as [w came]. rewrite Hst.
  destruct came; intros [= <- <- <-]; (eapply done_at_one; [done..| |]; [reflexivity|]); simpl.
  - by intros d ->%list_elem_of_singleton.
  - by intros d ?%elem_of_nil.
  - by intros d ?%elem_of_nil.
Qed.

Lemma secret_done s s' caller b at_ acting through m s0 did resp :
  sv_stated s0 = sv_stated s → acting_as s caller b at_ acting through → is_proven acting = true →
  granted (holds s) SECRET → method_of (req_path b) = Some SECRET →
  secret_set s0 {| who := name_of acting; through := through |} m = (s', did, resp) → done_rightly s caller b at_ did.
Proof.
  intros Hst Has Hp Hg Hm. unfold secret_set. destruct (set_secret _ _ _ _ _ _) as [w came]. rewrite Hst.
  intros [= <- <- <-]. eapply done_at_one; [done..| |]; [reflexivity|]. by intros d ?%elem_of_nil.
Qed.

Lemma decided_done s s0 s' caller b at_ acting through method did resp :
  sv_stated s0 = sv_stated s → (∀ who, acting = Some who → acting_as s caller b at_ who through) →
  method_of (req_path b) = Some method → method ∈ METHODS → method ∉ [NONCES; VOUCH; UNVOUCH] →
  decided s0 acting through method b = (s', did, resp) → done_rightly s caller b at_ did.
Proof.
  intros Hst Has Hm Hin Hno. unfold decided. destruct acting as [acting|]; [|intros [= <- <- <-]; apply none_done; set_solver].
  specialize (Has acting eq_refl). rewrite Hst. fold (holds s).
  destruct (admitted _ _ _ _ _ _) as [[]|refused] eqn:Ha; [|intros [= <- <- <-]; apply none_done].
  2: { by intros d ->%list_elem_of_singleton. }
  destruct (proj1 (admitted_iff is_proven name_of _ _ _ _) Ha) as [Hg (c & [= <-] & Hp)]. unfold read_and_answered.
  destruct (message b) as [m|why]; [|intros [= <- <- <-]; apply none_done; set_solver].
  destruct (String.eqb_spec method PUBLICATION).
  { destruct (published_read _). intros [= <- <- <-]. apply none_done. set_solver. }
  destruct (String.eqb_spec method WAIT).
  { destruct (published_wait _ _ _). intros [= <- <- <-]. apply none_done. set_solver. }
  destruct (String.eqb_spec method ACT) as [->|]; [by eapply acted_done|].
  destruct (String.eqb_spec method SECRET) as [->|]; [by eapply secret_done|].
  destruct (listed _ _) as [w [entries|refused]]; intros [= <- <- <-]; apply none_done; set_solver.
Qed.

Lemma relayed_done s relaying caller method req at_ s' did resp :
  relayed s relaying caller method req at_ = (s', did, resp) → done_rightly s caller req at_ did.
Proof.
  intros Hr. apply none_done. revert Hr. unfold relayed. destruct relaying as [r|].
  - destruct (message req) as [m|]; [|intros [= <- <- <-]; set_solver].
    match goal with |- context [let '(_, _) := ?x in _] => destruct x as [r' a] end. intros [= <- <- <-]. intros d. destruct (at_text _ _); [|set_solver].
    by intros ->%list_elem_of_singleton.
  - intros [= <- <- <-] d. by intros ->%list_elem_of_singleton.
Qed.

Lemma called_done s caller req at_ s' did resp :
  called s caller req at_ = (s', did, resp) → done_rightly s caller req at_ did.
Proof.
  unfold called. destruct (method_of (req_path req)) as [method|] eqn:Hm;
    [|intros [= <- <- <-]; apply none_done; set_solver].
  case_bool_decide as Hin; cbn [negb]; [|intros [= <- <- <-]; apply none_done; set_solver].
  case_bool_decide as Hrel; [by intros ?%relayed_done|].
  destruct (caller_of req) as [handle|] eqn:Hc.
  - destruct (relaying_of s caller) as [r|] eqn:Hr; [|intros [= <- <- <-]; apply none_done; set_solver].
    destruct (Vouched.proven _ _ _ _) as [v acting] eqn:Hv. intros Hd.
    eapply decided_done; [..|exact Hd]; [done| |done..].
    intros who ->. eapply as_relay; [done..|]. by rewrite Hv.
  - intros Hd. eapply decided_done; [..|exact Hd]; [done| |done..]. intros who [= <-]. by apply as_itself.
Qed.

(** ** What a call leaves *)

Lemma decided_stated s acting through method req s' did resp :
  decided s acting through method req = (s', did, resp) → sv_stated s' = sv_stated s ∧ sv_relaying s' = sv_relaying s.
Proof.
  unfold decided, read_and_answered, acted, secret_set. repeat case_match; intros; by simplify_eq.
Qed.

Lemma nonces_names r caller m at_ : rl_names (nonces r caller m at_).1 = rl_names r.
Proof. unfold nonces, nonces_answered. by repeat case_match. Qed.

Lemma vouching_names r through m at_ : rl_names (vouching r through m at_).1 = rl_names r.
Proof. unfold vouching. by repeat case_match. Qed.

Lemma unvouching_names r through m : rl_names (unvouching r through m).1 = rl_names r.
Proof. unfold unvouching. by repeat case_match. Qed.

(** A relay's call keeps what the node states and does, and whom it names. *)
Lemma relayed_keeps s r caller method req at_ s' did resp :
  relayed s (Some r) caller method req at_ = (s', did, resp) →
  sv_stated s' = sv_stated s ∧ sv_world s' = sv_world s ∧
  (sv_relaying s' = sv_relaying s ∨ ∃ r', sv_relaying s' = Some r' ∧ rl_names r' = rl_names r).
Proof.
  unfold relayed. destruct (message req) as [m|]; [|intros [= <- <- <-]; auto].
  match goal with |- context [let '(_, _) := ?x in _] => destruct x as [r' a] eqn:Hx end.
  intros [= <- <- <-]. split_and!; [done..|]. right. exists r'. split; [done|].
  replace r' with (fst (r', a)) by done. rewrite <-Hx. repeat case_match;
    [apply nonces_names|apply vouching_names|apply unvouching_names].
Qed.

(** A caller nothing proves leaves everything as it was. *)
Lemma called_unproven s caller req at_ s' did resp :
  is_proven caller = false → called s caller req at_ = (s', did, resp) → s' = s ∧ ∀ d, d ∈ did → ∃ a, d = Recorded a.
Proof.
  intros Hp. unfold called, relaying_of. rewrite Hp. cbn [andb].
  destruct (method_of _) as [method|]; [|intros [= <- <- <-]; split; [done|set_solver]].
  case_bool_decide; cbn [negb]; [|intros [= <- <- <-]; split; [done|set_solver]].
  assert ((match sv_relaying s with Some r => None | None => None end : option Relays) = None) as -> by by destruct (sv_relaying s).
  case_bool_decide.
  { unfold relayed. intros [= <- <- <-]. split; [done|]. intros d ->%list_elem_of_singleton. eauto. }
  destruct (caller_of req); [intros [= <- <- <-]; split; [done|set_solver]|].
  unfold decided. destruct (admitted _ _ _ _ _ _) as [[]|refused] eqn:Ha.
  - destruct (proj1 (admitted_iff is_proven name_of _ _ _ _) Ha) as [_ (c & [= <-] & Hc)]. congruence.
  - intros [= <- <- <-]. split; [done|]. intros d ->%list_elem_of_singleton. eauto.
Qed.

(** Only a relay's calls change what is kept of its callers. *)
Lemma called_keeps s caller req at_ s' did resp :
  called s caller req at_ = (s', did, resp) →
  sv_stated s' = sv_stated s ∧
  (sv_relaying s' = sv_relaying s ∨
   ∃ r r', relaying_of s caller = Some r ∧ sv_relaying s' = Some r' ∧ rl_names r' = rl_names r).
Proof.
  unfold called. destruct (method_of _) as [method|]; [|intros [= <- <- <-]; auto].
  case_bool_decide; cbn [negb]; [|intros [= <- <- <-]; auto].
  case_bool_decide.
  - destruct (relaying_of s caller) as [r|] eqn:Hr; [|unfold relayed; intros [= <- <- <-]; auto].
    intros (Hst & _ & Hrl)%relayed_keeps. split; [done|]. destruct Hrl as [?|(r' & ? & ?)]; eauto 10.
  - destruct (caller_of req) as [handle|].
    + destruct (relaying_of s caller) as [r|] eqn:Hr; [|intros [= <- <- <-]; auto].
      destruct (Vouched.proven _ _ _ _) as [v acting]. intros [-> ->]%decided_stated. split; [done|].
      right. exists r, (with_table r v). done.
    + intros [-> ->]%decided_stated. auto.
Qed.

(** ** A connection *)

(** One thing done on a connection was for a caller at its call, proven, the
    method its role's, and recorded just before. *)
Definition was_rightly s (caller : Identity) (brought : list Brought) (did : list Did) (i : nat)
    (who method : string) : Prop :=
  ∃ pre b post s_at before acting through act thing,
    brought = pre ++ b :: post ∧ calls s caller pre = (s_at, before) ∧
    acting_as s_at caller (b_request b) (b_reading b) acting through ∧
    is_proven acting = true ∧ granted (holds s) method ∧ method_of (req_path (b_request b)) = Some method ∧
    who = name_of acting ∧
    ∃ j, i = S j ∧ did !! j = Some (Recorded (record {| who := who; through := through |} (holds s) act thing None)).

Lemma was_first s caller b rest did more i d who method :
  done_rightly s caller (b_request b) (b_reading b) did → did !! i = Some d → doer d = Some (who, method) →
  was_rightly s caller (b :: rest) (did ++ more) i who method.
Proof.
  intros Hone Hd Hdoer. destruct (Hone i d who method Hd Hdoer) as (acting & through & act & thing & ? & ? & ? & ? & ? & j & -> & Hj).
  exists [], b, rest, s, [], acting, through, act, thing. split_and!; try done.
  exists j. split; [done|]. by apply lookup_app_l_Some.
Qed.

Lemma was_later s s1 caller b resp rest did more i who method :
  b_stopped b = false → b_written b = true → called s caller (b_request b) (b_reading b) = (s1, did, resp) →
  was_rightly s1 caller rest more i who method → was_rightly s caller (b :: rest) (did ++ more) (length did + i) who method.
Proof.
  intros Hs Hw Hc (pre & b' & post & s_at & before & acting & through & act & thing & -> & Hpre & Has & Hp & Hg & Hm & Hwho & j & -> & Hj).
  pose proof (called_keeps _ _ _ _ _ _ _ Hc) as [Hst _].
  assert (holds s1 = holds s) as Hh by (unfold holds; by rewrite Hst). rewrite Hh in *.
  exists (b :: pre), b', post, s_at, (did ++ before), acting, through, act, thing. split_and!; try done.
  - simpl. by rewrite Hs, Hc, Hw, Hpre.
  - exists (length did + j)%nat. split; [lia|]. rewrite lookup_app_r by lia. by replace (length did + j - length did)%nat with j by lia.
Qed.

Lemma calls_done s caller brought s' did i d who method :
  calls s caller brought = (s', did) → did !! i = Some d → doer d = Some (who, method) →
  was_rightly s caller brought did i who method.
Proof.
  revert s s' did i. induction brought as [|b rest IH]; intros s s' did i; simpl; [by intros [= <- <-]|].
  destruct (b_stopped b) eqn:Hs; [by intros [= <- <-]|].
  destruct (called s caller (b_request b) (b_reading b)) as [[s1 did1] resp] eqn:Hc.
  pose proof (called_done _ _ _ _ _ _ _ Hc) as Hone.
  destruct (b_written b) eqn:Hw.
  - destruct (calls s1 caller rest) as [s2 more] eqn:Hrest. intros [= <- <-] Hd Hdoer.
    apply lookup_app_Some in Hd as [Hd|[Hle Hd]]; [by eapply was_first|].
    replace i with (length did1 + (i - length did1))%nat by lia. eapply was_later; [done..|]. by eapply IH.
  - intros [= <- <-] Hd Hdoer. rewrite <-(app_nil_r did1). by eapply was_first.
Qed.

Lemma calls_unproven s caller brought s' did :
  is_proven caller = false → calls s caller brought = (s', did) → s' = s.
Proof.
  intros Hp. revert s s' did. induction brought as [|b rest IH]; intros s s' did; simpl; [by intros [= <- _]|].
  destruct (b_stopped b); [by intros [= <- _]|].
  destruct (called s caller (b_request b) (b_reading b)) as [[s1 did1] resp] eqn:Hc.
  apply called_unproven in Hc as [-> _]; [|done].
  destruct (b_written b); [|by intros [= <- _]].
  destruct (calls s caller rest) as [s2 more] eqn:Hrest. intros [= <- _]. by eapply IH.
Qed.

Lemma calls_relays s caller brought s' did :
  calls s caller brought = (s', did) → sv_relaying s' = sv_relaying s ∨ is_Some (relaying_of s caller).
Proof.
  revert s s' did. induction brought as [|b rest IH]; intros s s' did; simpl; [by intros [= <- _]; left|].
  destruct (b_stopped b); [by intros [= <- _]; left|].
  destruct (called s caller (b_request b) (b_reading b)) as [[s1 did1] resp] eqn:Hc.
  apply called_keeps in Hc as [_ [Hsame|(r & r' & Hr & _)]]; [|by right; eexists].
  destruct (b_written b); [|by intros [= <- _]; left].
  destruct (calls s1 caller rest) as [s2 more] eqn:Hrest. intros [= <- _].
  apply IH in Hrest. unfold relaying_of in *. by rewrite Hsame in Hrest.
Qed.

(** C29. Who acts on a node is who a connection proved, never who a call says.
    Every act applied and every secret set over a connection, whatever calls
    it brings, is in the name of its own caller or, where it names one and
    is itself a proven relay, of the caller the node holds for that relay at
    that moment; that caller is proven, the role the node states grants the
    method, and a record naming the caller, and the relay it came through,
    stands just before. A connection that proved no one, or no one proven,
    leaves the node as it was; and but for a relay's, none changes whom the
    node holds for its relays. *)
Theorem acts_only_as_proven s peer c brought s' did :
  connection s peer c brought = (s', did) →
  (∀ i d who method, did !! i = Some d → doer d = Some (who, method) →
     ∃ caller, connected c = Ok caller ∧ was_rightly s caller brought did i who method) ∧
  ((∀ caller, connected c = Ok caller → is_proven caller = false) → s' = s) ∧
  (sv_relaying s' ≠ sv_relaying s → ∃ caller, connected c = Ok caller ∧ is_Some (relaying_of s caller)).
Proof.
  unfold connection. destruct (connected c) as [caller|reason].
  - intros Hc. split_and!.
    + intros i d who method Hd Hdoer. exists caller. split; [done|]. by eapply calls_done.
    + intros Hp. eapply calls_unproven; [|done]. by apply Hp.
    + intros Hne. exists caller. split; [done|]. by destruct (calls_relays _ _ _ _ _ Hc).
  - intros [= <- <-]. split_and!; [|done|done]. intros [|i] d who method; simpl; [intros [= <-]; done|done].
Qed.

(** ** A call refused *)

Definition with_body (req : Request) (body : string) : Request :=
  {| req_path := req_path req; req_headers := req_headers req; req_body := body |}.

(** Refused in words: the call's, or its method's own answer. *)
Definition refused_in_words (resp : Response) : Prop :=
  match answered resp with
  | Err said => starts_with REFUSED_CALL said = true
  | Ok v => at_text v "outcome" = Some "denied" ∨ is_Some (at_text v "refused")
  end.

(** A refusal's records are warnings, and it leaves the node's parts. *)
Definition leaves s (left : Serve (W := W) * list Did * Response) : Prop :=
  let '(s', did, resp) := left in
  sv_world s' = sv_world s ∧ (∀ d, d ∈ did → ∃ a, d = Recorded a ∧ au_severity a = Warning) ∧ refused_in_words resp.

Lemma refusal_in_words name why : name ∈ codes → refused_in_words (refusal name why).
Proof. intros Hname. unfold refused_in_words. rewrite answered_refusal by done. apply refusal_told. Qed.

Lemma answer_in_words fields :
  field_of fields "outcome" = Some (JText "denied") ∨ (∃ why, field_of fields "refused" = Some (JText why)) →
  refused_in_words (answer (object fields)).
Proof.
  intros Hf. unfold refused_in_words. rewrite answered_answer. destruct (frame _); [|apply refusal_told].
  rewrite !text_built. destruct Hf as [->|[why ->]]; [by left|right; by eexists].
Qed.

Lemma refused_answered method why : refused_in_words (answered_refused method why).
Proof.
  unfold answered_refused. destruct (_ || _); [apply answer_in_words; by left|].
  destruct (String.eqb _ _); [apply answer_in_words; right; by eexists|]. apply refusal_in_words. set_solver.
Qed.

Lemma no_method_in_words why : refused_in_words (refusal "UNIMPLEMENTED" why).
Proof. apply refusal_in_words. set_solver. Qed.

#[local] Hint Resolve refused_answered no_method_in_words : core.

(** The same refusal, whatever the body. *)
Definition refused_unread s caller (req : Request) at_ : Prop :=
  (∀ body', called s caller (with_body req body') at_ = called s caller req at_) ∧ leaves s (called s caller req at_).

Lemma decided_refused s0 acting through method req :
  (∀ a, acting = Some a → is_proven a = true → ¬ granted (holds s0) method) →
  (∀ body', decided s0 acting through method (with_body req body') = decided s0 acting through method req) ∧
  leaves s0 (decided s0 acting through method req).
Proof.
  intros Hno. unfold decided. destruct acting as [a|]; [|split; [done|]; split_and!; [done|set_solver|done]].
  destruct (admitted _ _ _ _ _ _) as [[]|refused] eqn:Ha.
  - destruct (proj1 (admitted_iff is_proven name_of _ _ _ _) Ha) as [Hg (c & [= <-] & Hp)]. by destruct (Hno _ eq_refl Hp).
  - split; [done|]. split_and!; [done| |done]. intros d ->%list_elem_of_singleton. by eexists.
Qed.

(** A call is decided before a byte of it is read: where whom it is made
    for is no one, no one proven, or no one the role grants its method, and
    where it is a relay's call of no relay's, its answer, what it records
    and what it leaves are the same whatever its body is; nothing of the
    node's parts is asked, what is recorded is a warning, and the answer is
    a refusal in words, the call's or its method's own. *)
Theorem decided_before_read s caller req at_ :
  (∀ method acting through, method_of (req_path req) = Some method → acting_as s caller req at_ acting through →
     is_proven acting = true → ¬ granted (holds s) method) →
  (∀ method, method_of (req_path req) = Some method → method ∈ [NONCES; VOUCH; UNVOUCH] → relaying_of s caller = None) →
  refused_unread s caller req at_.
Proof.
  intros Hno Hrel. unfold refused_unread, called. cbn [req_path with_body].
  destruct (method_of (req_path req)) as [method|] eqn:Hm; [|split; [done|]; split_and!; [done|set_solver|done]].
  specialize (Hno method). specialize (Hrel method eq_refl).
  case_bool_decide; cbn [negb]; [|split; [done|]; split_and!; [done|set_solver|done]].
  case_bool_decide as Hin.
  { rewrite Hrel by done. split; [done|]. unfold relayed. split_and!; [done| |apply refusal_in_words; set_solver].
    intros d ->%list_elem_of_singleton. by eexists. }
  change (caller_of (with_body req _)) with (caller_of req).
  destruct (caller_of req) as [handle|] eqn:Hc.
  - destruct (relaying_of s caller) as [r|] eqn:Hr; [|split; [done|]; split_and!; [done|set_solver|done]].
    destruct (Vouched.proven _ _ _ _) as [v acting] eqn:Hv.
    destruct (decided_refused (with_relays s (with_table r v)) acting (Some (name_of caller)) method req) as [Hb Hl].
    { intros a -> Hp. eapply Hno; [done| |done]. eapply as_relay; [done..|]. by rewrite Hv. }
    split; [intros body'; apply Hb|]. exact Hl.
  - destruct (decided_refused s (Some caller) None method req) as [Hb Hl].
    { intros a [= <-] Hp. eapply Hno; [done|by apply as_itself|done]. }
    split; [intros body'; apply Hb|done].
Qed.
End acts.

(** ** A listener that runs

    One node [n1], whose acts are noted; the account [ana] is an operator,
    [guess] is not proven, and [gui] relays. *)

Section witnesses.
#[local] Existing Instances fields_json plain_grpc by_rules by_rules_laws fields_json_laws plain_grpc_laws.

#[local] Instance toy_words : ObserveWords := {|
  Act := string; act_eq_dec := _; Replay := "replay"; act_word := id;
  noun_named := λ n, if String.eqb n "subscription" then Some Subscription_ else None;
  noun_called := λ _, "subscription"; noun_act := λ _ a, Ok a |}.

#[local] Instance toy_secrets : SecretWords := {|
  SecretName := string; SecretKind := string; Secret := string; Entry := string;
  secret_name := Ok; kind_named := Some; kind_words := []; kind_word := id; secret_new := λ n _ _, Ok n;
  secret_kind := id; entry_name := id; entry_kind := id; entry_set := λ _, 0%N; entry_by := id |}.

#[local] Instance toy_gate : Gate := {|
  Identity := string; is_proven := λ i, negb (String.eqb i "guess"); name_of := id; mechanism_of := λ _, "local";
  mutual_tls := "mutual-tls"; peer_credentials := "peer-credentials"; mutual_tls_handshake := "handshake";
  peer_credentials_system := "system"; subject_of := λ _, Err "no name"; issuer_of := λ _, None;
  authenticate := λ _ claim, Ok (cl_value claim) |}.

#[local] Instance toy_codecs : Codecs := {|
  Read_ := unit; Path := unit; from_der := λ _, Err "no chain"; verify_client := λ _ _, Ok tt; verify_any := λ _ _, Ok tt;
  not_after := λ _, Ok 0%Z; proved := λ _, Err "no handshake"; binding := λ _, []; BINDING := 0%nat;
  base64 := λ _, Err "no base64"; hex := λ _, Err "no hex"; to_hex := λ _, "" |}.

#[local] Instance toy_nodes : Nodes (list string) := {|
  pickups := λ _, [{| pk_node := "n1"; pk_replay := λ t by_ w, (w ++ ["replay " +:+ t], Ok "replayed");
                      pk_act := λ t a by_ w, (w ++ [by_ +:+ " " +:+ a +:+ " " +:+ t], Ok (a +:+ "d"));
                      pk_write_secret := λ _ _ w, (w, Ok tt); pk_list_secrets := λ w, (w, Ok []) |}];
  sends := λ _, [] |}.

#[local] Instance toy_published : Published (list string) := {|
  published_read := λ w, (N.of_nat (length w), ""); published_wait := λ _ _ w, (w, N.of_nat (length w));
  published_acted := id |}.

Definition toy_serve : Serve (W := list string) :=
  {| sv_relaying := Some {| rl_names := [" GUI "]; rl_fresh := ∅; rl_vouched := relaying_new |};
     sv_stated := Some Operator; sv_world := [] |}.

Definition toy_reading : Reading :=
  {| now_mono := 0; now_wall := 0; moments := toy_at 0; drawn_handle := 7; drawn_nonces := [] |}.

Definition toy_request (caller : option N) : Request :=
  match request "n1" ACT (object [("node", JText "n1"); ("noun", JText "subscription"); ("target", JText "orders");
                                  ("act", JText "pause")]) caller with
  | Ok r => r
  | Err _ => {| req_path := ""; req_headers := []; req_body := "" |}
  end.

Definition toy_brings (caller : option N) : list Brought :=
  [{| b_stopped := false; b_request := toy_request caller; b_reading := toy_reading; b_written := true |}].

Lemma acts_only_as_proven_witness :
  ∃ did o, connection toy_serve "here" (Local (Ok "ana")) (toy_brings None) =
      (with_world toy_serve ["ana pause orders"], did) ∧ did !! 1%nat = Some (Acted o (Taken "paused")) ∧
    (∃ caller, connected (Local (Ok "ana")) = Ok caller ∧
       was_rightly toy_serve caller (toy_brings None) did 1 (o_who o) ACT) ∧ o_who o = "ana".
Proof.
  eexists _, _. split; [vm_compute; reflexivity|]. split; [reflexivity|]. split; [|reflexivity].
  eapply (acts_only_as_proven toy_serve "here" (Local (Ok "ana")) (toy_brings None)); [vm_compute; reflexivity|..]; reflexivity.
Defined.

(** A relay that names a caller the node does not hold is answered as no
    one, whatever it asks for. *)
Lemma decided_before_read_witness :
  refused_unread toy_serve "gui" (toy_request (Some 7%N)) toy_reading ∧
  (called toy_serve "gui" (toy_request (Some 7%N)) toy_reading).1.2 = [].
Proof.
  split; [|vm_compute; reflexivity]. apply decided_before_read.
  - intros method acting through Hm Has Hp. exfalso. destruct Has as [Hc|handle r acting Hc Hr Hv].
    + vm_compute in Hc. discriminate Hc.
    + vm_compute in Hr. injection Hr as <-. vm_compute in Hc. injection Hc as <-. vm_compute in Hv. discriminate Hv.
  - intros method Hm. vm_compute in Hm. injection Hm as <-. intros Hin. exfalso. revert Hin.
    apply (bool_decide_eq_false_1 (_ ∈ _)). vm_compute. reflexivity.
Defined.
End witnesses.
