(* ===== verification/Board.v ===== *)
(** * What a node's listeners answer from: [src/plane/board.rs]

    A [Board]'s text is posted under its lock, its revision raised with it
    where the text says something new, and read under the same lock. A wait
    on the revision is [xcore::wake]'s: what it promises is
    [RevisionLaws], a wait's answer among the revisions meanwhile. As
    [Served.Published], a board is what a call is answered from. *)

From Stdlib Require Import Ascii String.
From stdpp Require Import base numbers list strings relations.
From S2P Require Import Prelude Served.

Local Open Scope N_scope.

Record Board := { b_text : string; b_revision : N }.

(** [Board::default]. *)
Definition board_new : Board := {| b_text := ""; b_revision := 0 |}.

(** [Board::post]. *)
Definition post (text : string) (b : Board) : Board :=
  if negb (b_revision b =? 0) && String.eqb (b_text b) text then b
  else {| b_text := text; b_revision := b_revision b + 1 |}.

(** [Published::read]. *)
Definition read (b : Board) : N * string := (b_revision b, b_text b).

(** Posts, one after another. *)
Definition posts (texts : list string) (b : Board) : Board := foldl (λ b t, post t b) b texts.

(** A wait answered once the posts it saw meanwhile are past what it was
    after, or after its time, or as its listener stops: the revision then. *)
Definition waited (meanwhile : list string) (b : Board) : Board * N :=
  let b := posts meanwhile b in (b, b_revision b).

#[export] Instance board_published (meanwhile : N → N → list string) : Published Board := {|
  published_read := read;
  published_wait after within b := waited (meanwhile after within) b;
  published_acted := id
|}.

(** How often a run of texts says something new after [last]. *)
Fixpoint news (last : option string) (texts : list string) : N :=
  match texts with
  | [] => 0
  | t :: rest => (if decide (last = Some t) then 0 else 1) + news (Some t) rest
  end.

Definition said_by (b : Board) : option string := if b_revision b =? 0 then None else Some (b_text b).

Lemma post_says t b : said_by (post t b) = Some t ∧
  b_revision (post t b) = b_revision b + (if decide (said_by b = Some t) then 0 else 1).
Proof.
  unfold post, said_by. destruct (N.eqb_spec (b_revision b) 0) as [Hz|Hz]; simpl.
  - split; [|done]. destruct (N.eqb_spec (b_revision b + 1) 0); [lia|done].
  - destruct (String.eqb_spec (b_text b) t) as [<-|Hne]; simpl.
    + rewrite (proj2 (N.eqb_neq _ _) Hz). rewrite decide_True by done. split; [done|lia].
    + rewrite decide_False by congruence. split; [|done]. destruct (N.eqb_spec (b_revision b + 1) 0); [lia|done].
Qed.

(** A revision is how often something new was said, and its text the last
    said: two reads of one revision read one text. *)
Lemma posts_counted texts b :
  b_revision (posts texts b) = b_revision b + news (said_by b) texts ∧
  (texts ≠ [] → said_by (posts texts b) = last texts) ∧
  (b_revision (posts texts b) = b_revision b → b_revision b ≠ 0 → read (posts texts b) = read b).
Proof.
  assert (∀ texts b, b_revision (posts texts b) = b_revision b + news (said_by b) texts) as Hn.
  { clear. induction texts as [|t rest IH]; intros b; simpl; [lia|]. unfold posts in *. simpl. rewrite IH.
    destruct (post_says t b) as [-> ->]. lia. }
  assert (∀ texts b, texts ≠ [] → said_by (posts texts b) = last texts) as Hl.
  { clear. induction texts as [|t rest IH]; intros b; [done|]. intros _. destruct rest as [|t' rest].
    - apply post_says.
    - rewrite last_cons_cons. by apply (IH (post t b)). }
  split_and!; [apply Hn|apply Hl|]. revert b. induction texts as [|t rest IH]; intros b Heq Hne; [done|].
  assert (post t b = b) as Hb.
  { pose proof (Hn (t :: rest) b) as H1. rewrite Heq in H1. simpl in H1. unfold post.
    rewrite (proj2 (N.eqb_neq _ _) Hne). simpl. destruct (String.eqb_spec (b_text b) t) as [|Hnt]; [done|].
    rewrite decide_False in H1; [lia|]. unfold said_by. rewrite (proj2 (N.eqb_neq _ _) Hne). congruence. }
  unfold posts in *. simpl in *. rewrite Hb in *. by apply IH.
Qed.
