(* ===== verification/Following.v ===== *)
(** * A node followed and asked: [src/plane/follow.rs], [src/plane/shared.rs], [src/plane/remote.rs], [src/plane/remote/asking.rs]

    A surface over a node's operate listener keeps what it was told of the
    node ([State]): the follow holds a wait the node answers and tells every
    follower what changes, tries again on a schedule where the node is lost,
    and a call made meanwhile says so at once; a call that finds the node
    lost tells it too. Each lock section of the state, each answer of a
    line and each sleep and wake of a condition variable is a step, in any
    order. A line's opening and its calls answer as they may; a wait on a
    condition variable may end for no reason and times out at any time.

    The one asking line ([calling]) is a function of what its calls answer.
    A surface is told fewer than [2^64] times. *)

From Stdlib Require Import Ascii String.
From stdpp Require Import base numbers list strings relations.
From S2P Require Import Prelude Text Journey Storage Held Role Call.

Local Open Scope string_scope.
Local Open Scope list_scope.

(** ** What a surface is told: [State], [Shared::tell] *)

Record State := { reachable : bool; reason : string; revision : N; told : N }.

Definition state_new : State := {| reachable := false; reason := "not connected yet"; revision := 0; told := 0 |}.

Definition tell (change : State → State) (s : State) : State :=
  let s := change s in
  {| reachable := reachable s; reason := reason s; revision := revision s; told := told s + 1 |}.

(** What is told: the node is lost, and why; or reached, at a revision. *)
Definition lost (why : string) (s : State) : State :=
  {| reachable := false; reason := why; revision := revision s; told := told s |}.

Definition back (now : N) (s : State) : State :=
  {| reachable := true; reason := ""; revision := now; told := told s |}.

(** ** The retry schedule: [RETRY], [run]'s pause *)

(** In milliseconds. *)
Definition RETRY : list N := [0; 2000; 10000; 30000]%N.

(** [retry[attempt.min(retry.len() - 1)]], of the schedule [reaching] makes
    of one given. *)
Definition schedule (retry : list N) : list N := match retry with [] => RETRY | _ => retry end.

Definition delay (retry : list N) (attempt : nat) : N :=
  nth (Nat.min attempt (length (schedule retry) - 1)) (schedule retry) 0%N.

(** ** The asking line: [Shared::called], [calling] *)

Section asking.
Context {L A : Type}.

(** What a call says where it fails: whether the node was lost, and why. *)
Abbreviation Failing := (bool * string)%type.

(** A line held, and a fresh one tried where it was lost meanwhile: what the
    calls and the opening answered, whether the call had taken its patience
    by the first failure, and the line held after. *)
Definition fresh_call (opened : result L string) (again : L → result A string) : option L * result A Failing :=
  match opened with
  | Err why => (None, Err (true, why))
  | Ok line =>
      match again line with
      | Ok a => (Some line, Ok a)
      | Err why => if starts_with REFUSED_CALL why then (Some line, Err (false, why)) else (None, Err (true, why))
      end
  end.

Definition calling (held : option L) (first : L → result A string) (silent : bool)
    (opened : result L string) (again : L → result A string) : option L * result A Failing :=
  match held with
  | Some line =>
      match first line with
      | Ok a => (Some line, Ok a)
      | Err why =>
          if starts_with REFUSED_CALL why then (Some line, Err (false, why))
          else if silent then (None, Err (true, why)) else fresh_call opened again
      end
  | None => fresh_call opened again
  end.

(** [called]: a node that took longer said so in one sentence. *)
Definition called (patience : string) (late : bool) (answer : result A Failing) : result A Failing :=
  match answer with
  | Ok a => Ok a
  | Err (lost, why) => if lost && late then Err (true, patience) else Err (lost, why)
  end.

(** A call is answered or refused on a line that is kept, and loses the line
    where the node is lost; a refusal is never asked again, nor a call that
    took its patience. *)
Lemma calling_kept held first silent opened again line answer :
  calling held first silent opened again = (line, answer) →
  match answer with
  | Ok a => ∃ l, line = Some l ∧ (first l = Ok a ∧ held = Some l ∨ again l = Ok a ∧ opened = Ok l)
  | Err (false, why) => starts_with REFUSED_CALL why = true ∧
      ∃ l, line = Some l ∧ (first l = Err why ∧ held = Some l ∨ again l = Err why ∧ opened = Ok l)
  | Err (true, why) => line = None ∧
      (opened = Err why ∨ ∃ l, first l = Err why ∧ held = Some l ∧ silent = true ∨ again l = Err why ∧ opened = Ok l)
  end.
Proof.
  assert (∀ line answer, fresh_call opened again = (line, answer) →
    match answer with
    | Ok a => ∃ l, line = Some l ∧ again l = Ok a ∧ opened = Ok l
    | Err (false, why) => starts_with REFUSED_CALL why = true ∧ ∃ l, line = Some l ∧ again l = Err why ∧ opened = Ok l
    | Err (true, why) => line = None ∧ (opened = Err why ∨ ∃ l, again l = Err why ∧ opened = Ok l)
    end) as Hfresh.
  { clear. intros line answer. unfold fresh_call. destruct opened as [l|why]; [|intros [= <- <-]; eauto].
    destruct (again l) as [a|why] eqn:Ha; [intros [= <- <-]; eauto|].
    destruct (starts_with _ _) eqn:Hr; intros [= <- <-]; eauto 6. }
  assert (∀ line answer, fresh_call opened again = (line, answer) → _) as Hf by exact Hfresh.
  unfold calling. destruct held as [l|].
  - destruct (first l) as [a|why] eqn:Hl; [intros [= <- <-]; eauto|].
    destruct (starts_with _ _) eqn:Hr; [intros [= <- <-]; eauto 6|].
    destruct silent; [intros [= <- <-]; eauto 8|]. intros H%Hf. destruct answer as [|[[] ?]]; naive_solver.
  - intros H%Hf. destruct answer as [|[[] ?]]; naive_solver.
Qed.
End asking.

(** ** The threads *)

(** Where the follow is in [run], [held] and [pause]: its attempt; the
    revision it last saw and whether it has reached the node on this line;
    whether it sleeps. *)
Inductive Follow :=
  | NotFollowed
  | Top (attempt : nat)
  | Opening (attempt : nat)
  | Holding (seen : N) (reached : bool)
  | Calling (seen : N) (reached : bool)
  | Answered (seen : N) (reached : bool) (now : N)
  | TellingBack (now : N)
  | Lost (why : string) (attempt : nat)
  | TellingLost (why : string) (attempt : nat)
  | Pausing (attempt : nat) (asleep : bool)
  | Over.

(** A follower in [wait], for more than it has [seen]; what it was answered,
    and whether because it had waited its time. *)
Inductive Waiter :=
  | Checking (seen : N)
  | Asleep (seen : N)
  | Returned (seen : N) (timed : bool) (answer : State).

(** A call in [asked_for]: refused at once, calling, telling what it found,
    or answered. *)
Inductive Asker :=
  | Asking
  | Unreachable (reason : string)
  | Called
  | Finding (why : string)
  | Starting
  | AskedOver (node_lost : bool).

Record Surface := {
  state : State;
  follow : Follow;
  waiters : list Waiter;
  askers : list Asker;
  ending : bool;
  (** Ends that have stored [ending] and not yet notified. *)
  notifying : nat;
  (** Every state told, in order. *)
  log : list State
}.

Definition surface_new : Surface :=
  {| state := state_new; follow := NotFollowed; waiters := []; askers := []; ending := false; notifying := 0;
     log := [state_new] |}.

Definition woken (w : Waiter) : Waiter := match w with Asleep seen => Checking seen | w => w end.
Definition roused (f : Follow) : Follow := match f with Pausing a _ => Pausing a false | f => f end.

Definition with_follow (m : Surface) (f : Follow) : Surface :=
  {| state := state m; follow := f; waiters := waiters m; askers := askers m; ending := ending m;
     notifying := notifying m; log := log m |}.

Definition with_waiters (m : Surface) (ws : list Waiter) : Surface :=
  {| state := state m; follow := follow m; waiters := ws; askers := askers m; ending := ending m;
     notifying := notifying m; log := log m |}.

Definition with_askers (m : Surface) (l : list Asker) : Surface :=
  {| state := state m; follow := follow m; waiters := waiters m; askers := l; ending := ending m;
     notifying := notifying m; log := log m |}.

(** [Shared::tell]: the change, the count and every sleeper woken, under the
    lock. *)
Definition telling (m : Surface) (change : State → State) : Surface :=
  {| state := tell change (state m); follow := roused (follow m); waiters := woken <$> waiters m; askers := askers m;
     ending := ending m; notifying := notifying m; log := log m ++ [tell change (state m)] |}.

(** [followed]: the follow started where it is not, if a thread could be. *)
Definition followed (m : Surface) (spawned : bool) : Surface :=
  match follow m with NotFollowed => if spawned then with_follow m (Top 0) else m | _ => m end.

(** [wait]'s look, under the lock. *)
Definition looked (m : Surface) (seen : N) : Waiter :=
  if (told (state m) <=? seen)%N && negb (ending m) then Asleep seen else Returned seen false (state m).

(** [asked_for]'s look before it calls. *)
Definition may_call (s : State) : Asker :=
  if negb (reachable s) && (0 <? told s)%N then Unreachable (reason s) else Called.

(** [held]'s: whether an answer is told. *)
Definition tells_back (s : State) (seen : N) (reached : bool) (now : N) : bool :=
  negb reached || negb (now =? seen)%N || negb (reachable s).

(** [run]'s: whether a loss is. *)
Definition anew (s : State) (why : string) : bool :=
  (told s =? 0)%N || reachable s || negb (String.eqb (reason s) why).

(** The follow's own steps. *)
Inductive follow_step (m : Surface) : Surface → Prop :=
  | follow_top a : follow m = Top a → follow_step m (with_follow m (if ending m then Over else Opening a))
  | follow_opened a : follow m = Opening a → follow_step m (with_follow m (Holding 0 false))
  | follow_not_opened a why : follow m = Opening a → follow_step m (with_follow m (Lost why a))
  | follow_holds seen reached : follow m = Holding seen reached →
      follow_step m (with_follow m (if ending m then Lost "" 0 else Calling seen reached))
  | follow_answered seen reached now : follow m = Calling seen reached → follow_step m (with_follow m (Answered seen reached now))
  | follow_broken seen reached why : follow m = Calling seen reached →
      follow_step m (with_follow m (Lost ("lost: " +:+ why) 0))
  | follow_looks seen reached now : follow m = Answered seen reached now →
      follow_step m (with_follow m (if tells_back (state m) seen reached now then TellingBack now else Holding seen true))
  | follow_tells_back now : follow m = TellingBack now →
      follow_step m (with_follow (telling m (back now)) (Holding now true))
  | follow_lost why a : follow m = Lost why a →
      follow_step m (with_follow m (if ending m then Over else if anew (state m) why then TellingLost why a else Pausing a false))
  | follow_tells_lost why a : follow m = TellingLost why a →
      follow_step m (with_follow (telling m (lost why)) (Pausing a false))
  | follow_pauses a : follow m = Pausing a false →
      follow_step m (with_follow m (if ending m then Top (S a) else Pausing a true))
  | follow_paused a asleep : follow m = Pausing a asleep → follow_step m (with_follow m (Top (S a))).

Inductive surface_step (m : Surface) : Surface → Prop :=
  | step_follow m' : follow_step m m' → surface_step m m'
  | step_wait seen spawned : surface_step m (with_waiters (followed m spawned) (waiters m ++ [Checking seen]))
  | step_look i seen : waiters m !! i = Some (Checking seen) →
      surface_step m (with_waiters m (<[i := looked m seen]> (waiters m)))
  | step_wake i seen : waiters m !! i = Some (Asleep seen) →
      surface_step m (with_waiters m (<[i := Checking seen]> (waiters m)))
  | step_time_out i seen : waiters m !! i = Some (Asleep seen) →
      surface_step m (with_waiters m (<[i := Returned seen true (state m)]> (waiters m)))
  | step_ask : surface_step m (with_askers m (askers m ++ [Asking]))
  | step_may i : askers m !! i = Some Asking →
      surface_step m (with_askers m (<[i := may_call (state m)]> (askers m)))
  | step_asked i : askers m !! i = Some Called → surface_step m (with_askers m (<[i := AskedOver false]> (askers m)))
  | step_found_lost i why : askers m !! i = Some Called →
      surface_step m (with_askers m (<[i := Finding why]> (askers m)))
  | step_tells_found i why : askers m !! i = Some (Finding why) →
      surface_step m (with_askers (telling m (lost why)) (<[i := Starting]> (askers m)))
  | step_starts i spawned : askers m !! i = Some Starting →
      surface_step m (with_askers (followed m spawned) (<[i := AskedOver true]> (askers m)))
  | step_end : surface_step m {| state := state m; follow := follow m; waiters := waiters m; askers := askers m;
      ending := true; notifying := S (notifying m); log := log m |}
  | step_end_told n : notifying m = S n →
      surface_step m {| state := state m; follow := roused (follow m); waiters := woken <$> waiters m;
        askers := askers m; ending := ending m; notifying := n; log := log m |}.

(** ** What holds of a surface *)

(** The follow has tried the node again, or is about to. *)
Definition tried (f : Follow) : Prop :=
  match f with
  | Top (S _) | Opening (S _) | Lost _ (S _) | Pausing _ _ => True
  | _ => False
  end.

Definition lost_said (s : State) : Prop := reachable s = false ∧ (0 < told s)%N.

Definition waiter_ok (m : Surface) (w : Waiter) : Prop :=
  match w with
  | Checking _ => True
  | Asleep seen => (told (state m) ≤ seen)%N ∧ (ending m = true → 0 < notifying m)
  | Returned seen timed a => log m !! N.to_nat (told a) = Some a ∧ (timed = false → (seen < told a)%N ∨ ending m = true)
  end.

Record surface_ok (m : Surface) : Prop := {
  ok_log : ∀ k s, log m !! k = Some s → told s = N.of_nat k;
  ok_last : last (log m) = Some (state m);
  ok_waiters : ∀ i w, waiters m !! i = Some w → waiter_ok m w;
  ok_pause : ∀ a, follow m = Pausing a true → ending m = true → 0 < notifying m;
  ok_tried : tried (follow m) → lost_said (state m)
}.

Lemma last_at (m : Surface) : surface_ok m → log m !! N.to_nat (told (state m)) = Some (state m).
Proof.
  intros Hok. destruct (proj1 (last_Some _ _) (ok_last _ Hok)) as [l Hl].
  assert (log m !! length l = Some (state m)) as Hat by (rewrite Hl; by apply list_lookup_middle).
  by rewrite (ok_log _ Hok _ _ Hat), Nat2N.id.
Qed.

Lemma tell_log (m : Surface) change : surface_ok m → (∀ s, told (change s) = told s) →
  ∀ k s, (log m ++ [tell change (state m)]) !! k = Some s → told s = N.of_nat k.
Proof.
  intros Hok Hsame k s Hk. apply lookup_app_Some in Hk as [Hk|[Hle Hk]]; [by eapply ok_log|].
  apply list_lookup_singleton_Some in Hk as [Hz <-]. simpl. rewrite Hsame.
  pose proof (last_at m Hok) as Hat. pose proof (ok_last _ Hok) as Hl.
  rewrite last_lookup in Hl. pose proof (ok_log _ Hok _ _ Hl) as Ht.
  apply lookup_lt_Some in Hl. lia.
Qed.

(** A tell leaves no one asleep, and what was answered as it was. *)
Lemma woken_followers_ok m m' : surface_ok m → (∃ more, log m' = log m ++ more) → (ending m = true → ending m' = true) →
  ∀ i w, (woken <$> waiters m) !! i = Some w → waiter_ok m' w.
Proof.
  intros Hok [more Hlog] Hend i w. rewrite list_lookup_fmap. destruct (waiters m !! i) as [w0|] eqn:Hw; [|done].
  intros [= <-]. pose proof (ok_waiters _ Hok _ _ Hw) as Hone. destruct w0 as [| |seen timed a]; simpl; [done..|].
  destruct Hone as [Ha Ht]. split; [rewrite Hlog; by apply lookup_app_l_Some|]. intros Hf. destruct (Ht Hf); auto.
Qed.

Lemma tell_ok m change : surface_ok m → (∀ s, told (change s) = told s) →
  (∀ a, tried (follow m) → reachable (change a) = false) → surface_ok (telling m change).
Proof.
  intros Hok Hsame Hlost. split; simpl.
  - by apply tell_log.
  - by rewrite last_snoc.
  - eapply woken_followers_ok; [done|by eexists|done].
  - intros a. destruct (follow m); simpl; congruence.
  - intros Ht. unfold lost_said. simpl. split; [|lia]. apply Hlost. by destruct (follow m).
Qed.

Lemma follow_ok m f : surface_ok m → (∀ a, f = Pausing a true → ending m = false) →
  (tried f → lost_said (state m)) → surface_ok (with_follow m f).
Proof.
  intros [Hlog Hlast Hws Hp Ht] Hpause Htried. split; simpl; try done.
  intros a Hf He. rewrite (Hpause _ Hf) in He. done.
Qed.

Lemma follow_step_ok m m' : surface_ok m → follow_step m m' → surface_ok m'.
Proof.
  intros Hok Hst. pose proof (ok_tried _ Hok) as Htr. destruct Hst; rewrite ?H in Htr; simpl in Htr.
  - apply follow_ok; [done|by destruct (ending m)|]. destruct (ending m); [done|]. destruct a; auto.
  - by apply follow_ok.
  - apply follow_ok; [done..|]. destruct a; auto.
  - apply follow_ok; [done|by destruct (ending m)..].
  - by apply follow_ok.
  - by apply follow_ok.
  - apply follow_ok; [done|by destruct (tells_back (state m) seen reached now)..].
  - apply follow_ok; [|done..]. apply tell_ok; [done..|]. rewrite H. done.
  - apply follow_ok; [done|by destruct (ending m), (anew (state m) why)|].
    destruct (ending m); [done|]. destruct (anew (state m) why) eqn:Ha; [done|]. intros _.
    unfold anew in Ha. apply orb_false_iff in Ha as [[Hz Hr]%orb_false_iff _]. split; [done|]. apply N.eqb_neq in Hz. lia.
  - apply follow_ok; [by apply tell_ok|done|]. intros _. split; simpl; [done|lia].
  - apply follow_ok; [done|by destruct (ending m)|]. destruct (ending m); auto.
  - apply follow_ok; [done..|]. auto.
Qed.

Lemma waiters_ok m i w : surface_ok m → waiter_ok m w → surface_ok (with_waiters m (<[i := w]> (waiters m))).
Proof.
  intros [Hlog Hlast Hws Hp Ht] Hw. split; simpl; try done. intros j w'.
  intros [(-> & <- & _)|[_ ?]]%list_lookup_insert_Some; [done|by eapply Hws].
Qed.

Lemma askers_ok m l : surface_ok m → surface_ok (with_askers m l).
Proof. by intros []. Qed.

Lemma followed_ok m spawned : surface_ok m → surface_ok (followed m spawned).
Proof.
  intros Hok. unfold followed. destruct (follow m); try done. destruct spawned; [|done]. by apply follow_ok.
Qed.

Lemma looked_ok m seen : surface_ok m → waiter_ok m (looked m seen).
Proof.
  intros Hok. unfold looked. destruct (N.leb_spec (told (state m)) seen); simpl.
  - destruct (ending m) eqn:He; simpl; [|rewrite He; by split]. split; [by apply last_at|]. auto.
  - split; [by apply last_at|]. auto.
Qed.

Lemma surface_step_ok m m' : surface_ok m → surface_step m m' → surface_ok m'.
Proof.
  intros Hok. destruct 1.
  - by eapply follow_step_ok.
  - apply (followed_ok m spawned) in Hok. destruct Hok as [Hlog Hlast Hws Hp Ht]. split; simpl; try done.
    replace (waiters m) with (waiters (followed m spawned)) by (unfold followed; by repeat case_match).
    intros i w [Hw|[_ [_ <-]%list_lookup_singleton_Some]]%lookup_app_Some; [by eapply Hws|done].
  - apply waiters_ok; [done|by apply looked_ok].
  - by apply waiters_ok.
  - apply waiters_ok; [done|]. split; [by apply last_at|done].
  - by apply askers_ok.
  - by apply askers_ok.
  - by apply askers_ok.
  - by apply askers_ok.
  - by apply askers_ok, tell_ok.
  - by apply askers_ok, followed_ok.
  - destruct Hok as [Hlog Hlast Hws Hp Ht]. split; simpl; try done; [|intros; lia].
    intros i w Hw. specialize (Hws _ _ Hw). destruct w; simpl in *; [done|split; [naive_solver|lia]|naive_solver].
  - pose proof (woken_followers_ok m {| state := state m; follow := roused (follow m); waiters := woken <$> waiters m;
      askers := askers m; ending := ending m; notifying := n; log := log m |} Hok) as Hw.
    destruct Hok as [Hlog Hlast Hws Hp Ht]. split; simpl; try done.
    + apply Hw; [by exists []; rewrite app_nil_r|done].
    + intros a. destruct (follow m); simpl; congruence.
    + intros Htr. apply Ht. by destruct (follow m).
Qed.

Lemma surface_new_ok : surface_ok surface_new.
Proof.
  split; simpl; try done. intros [|k] s; simpl; [by intros [= <-]|done].
Qed.

Lemma surface_run_ok m : rtc surface_step surface_new m → surface_ok m.
Proof. apply (rtc_invariant _ surface_ok); [intros; by eapply surface_step_ok|apply surface_new_ok]. Qed.

(** C30. Whoever follows a node is told of every change, once, however the
    follow, the calls and the surface's end interleave: no follower sleeps
    while more has been told than it has seen, nor past the end of its
    surface; what it is answered is what was told at that count, and before
    its time is over it is answered only by more having been told or by the
    end. From its first retry until the node answers, a node lost is said
    lost, with why: a call made meanwhile says so at once rather than try. *)
Theorem followers_told m :
  rtc surface_step surface_new m →
  (∀ i seen, waiters m !! i = Some (Asleep seen) → (told (state m) ≤ seen)%N ∧ (ending m = true → 0 < notifying m)) ∧
  (∀ i seen timed a, waiters m !! i = Some (Returned seen timed a) →
     log m !! N.to_nat (told a) = Some a ∧ (timed = false → (seen < told a)%N ∨ ending m = true)) ∧
  (∀ k s, log m !! k = Some s → told s = N.of_nat k) ∧ last (log m) = Some (state m) ∧
  (tried (follow m) → may_call (state m) = Unreachable (reason (state m))).
Proof.
  intros Hok%surface_run_ok. split_and!.
  - intros i seen Hi. apply (ok_waiters _ Hok _ _ Hi).
  - intros i seen timed a Hi. apply (ok_waiters _ Hok _ _ Hi).
  - apply Hok.
  - apply Hok.
  - intros [Hr Ht]%(ok_tried _ Hok). unfold may_call. rewrite Hr. by rewrite (proj2 (N.ltb_lt _ _) Ht).
Qed.

(** ** The follow ends with its surface *)

Definition steps_left (f : Follow) : nat :=
  match f with
  | NotFollowed | Over => 0
  | Top _ | Lost _ _ => 1
  | Pausing _ false => 3
  | Pausing _ true | Holding _ _ => 2
  | Opening _ | TellingBack _ => 3
  | TellingLost _ _ => 4
  | Answered _ _ _ => 4
  | Calling _ _ => 5
  end.

(** However a surface's lines answer once it ends, its follow takes at most
    five more steps of its own, and is over where it can take none. *)
Lemma follow_ends k m m' :
  ending m = true → nsteps follow_step k m m' →
  (k + steps_left (follow m') ≤ steps_left (follow m))%nat ∧
  ((∀ m'', ¬ follow_step m' m'') → follow m' = Over ∨ follow m' = NotFollowed).
Proof.
  intros He Hrun. assert (ending m' = true ∧ (k + steps_left (follow m') ≤ steps_left (follow m))%nat) as [_ Hk].
  { revert He. induction Hrun as [m|k m m1 m' Hst Hrun IH]; [split; [done|lia]|]. intros He.
    assert (ending m1 = true ∧ (S (steps_left (follow m1)) ≤ steps_left (follow m))%nat) as [He1 Hle].
    { destruct Hst; split; try done; rewrite ?H, ?He; simpl; try lia; repeat case_match; simpl; lia. }
    destruct (IH He1) as [? ?]. split; [done|lia]. }
  split; [done|]. intros Hstuck. destruct (follow m') eqn:Hf; auto; exfalso; eapply Hstuck.
  - by eapply follow_top.
  - by eapply follow_opened.
  - by eapply follow_holds.
  - by eapply (follow_broken _ _ _ "").
  - by eapply follow_looks.
  - by eapply follow_tells_back.
  - by eapply follow_lost.
  - by eapply follow_tells_lost.
  - by eapply follow_paused.
Qed.

(** ** A surface that runs

    A follower waits for more than it has seen; the node cannot be reached,
    and the follower is told so. *)
Lemma unreached : ∃ m, rtc surface_step surface_new m ∧
  waiters m !! 0 = Some (Returned 0 false {| reachable := false; reason := "refused"; revision := 0; told := 1 |}) ∧
  follow m = Pausing 0 false ∧ state m = {| reachable := false; reason := "refused"; revision := 0; told := 1 |}.
Proof.
  eexists. split.
  - eapply rtc_l; [apply (step_wait _ 0%N true)|]. eapply rtc_l; [by apply (step_look _ 0 0%N)|].
    eapply rtc_l; [apply step_follow; by apply (follow_top _ 0)|].
    eapply rtc_l; [apply step_follow; by apply (follow_not_opened _ 0 "refused")|].
    eapply rtc_l; [apply step_follow; by apply (follow_lost _ "refused" 0)|].
    eapply rtc_l; [apply step_follow; by apply (follow_tells_lost _ "refused" 0)|].
    eapply rtc_l; [by apply (step_look _ 0 0%N)|]. apply rtc_refl.
  - split_and!; reflexivity.
Qed.

Lemma followers_told_witness : ∃ m, rtc surface_step surface_new m ∧
  may_call (state m) = Unreachable "refused" ∧ log m !! 1 = Some (state m).
Proof.
  destruct unreached as (m & Hrun & Hw & Hf & Hs). exists m. split; [exact Hrun|].
  destruct (followers_told m Hrun) as (_ & Hret & _ & _ & Hcall). split.
  - assert (tried (follow m)) as Ht by (rewrite Hf; exact I). rewrite (Hcall Ht), Hs. reflexivity.
  - rewrite Hs. exact (proj1 (Hret _ _ _ _ Hw)).
Defined.
