(* ===== verification/Bound.v ===== *)
(** * The nonces a relay binds its browsers' handshakes to: [src/plane/remote/fresh.rs]

    Each surface a relay follows a node through keeps a few of that node's
    nonces, by the listener they were given for ([Pool]): a handshake takes
    one, more are asked for behind it where few are left, and the node is
    asked at once where none is and the follow knows it answers. Every
    section under the pool's lock is a step, and a node's answer comes when
    it comes; a handshake, and an ask on a thread of its own, is where it is
    in [taken] and [refill]. What a node gave and what handshakes were bound
    to is kept beside ([given], [bound]). *)

From Stdlib Require Import Ascii String.
From stdpp Require Import base numbers list gmap relations strings.
From S2P Require Import Prelude Journey Storage Fresh.

Local Open Scope list_scope.

(** [KEPT] and [REFUSED_FOR], in nanoseconds; [AT_ONCE]. *)
Definition KEPT : N := 10 * 10 ^ 9.
Definition REFUSED_FOR : N := 60 * 10 ^ 9.
Definition AT_ONCE : nat := 8.

(** ** A surface's nonces: [Pool] *)

Record Pool := {
  nonces : gmap bytes (list (bytes * N));
  refused_until : gmap bytes N;
  refilling : bool
}.

Definition pool_new : Pool := {| nonces := ∅; refused_until := ∅; refilling := false |}.

Definition kept (p : Pool) (listener : bytes) : list (bytes * N) := default [] (nonces p !! listener).

Definition with_kept (p : Pool) (listener : bytes) (l : list (bytes * N)) : Pool :=
  {| nonces := <[listener := l]> (nonces p); refused_until := refused_until p; refilling := refilling p |}.

Definition with_refilling (p : Pool) (r : bool) : Pool :=
  {| nonces := nonces p; refused_until := refused_until p; refilling := r |}.

(** [taken]'s first look: the node left alone for now, a nonce kept and
    whether few are left, or none. *)
Inductive Look := LeftAlone | Took (nonce : bytes) (at_ : N) (low : bool) | NoneKept (low : bool).

Definition look (p : Pool) (listener : bytes) (now : N) : Pool * Look :=
  if match refused_until p !! listener with Some until => (now <? until)%N | None => false end then (p, LeftAlone)
  else
    match List.filter (λ one, (now - snd one <? KEPT)%N) (kept p listener) with
    | [] => (with_kept p listener [], NoneKept true)
    | (nonce, at_) :: rest => (with_kept p listener rest, Took nonce at_ (length rest <? AT_ONCE / 2))
    end.

(** Its second, once the node was asked. *)
Definition take_again (p : Pool) (listener : bytes) : Pool * option (bytes * N) :=
  match kept p listener with
  | [] => (with_kept p listener [], None)
  | one :: rest => (with_kept p listener rest, Some one)
  end.

(** [refill_behind]'s: whether an ask begins. *)
Definition begin_behind (p : Pool) : Pool * bool :=
  if refilling p then (p, false) else (with_refilling p true, true).

(** [refill]'s, once the node answered: what it gave kept, or the node left
    for a while. *)
Definition refilled (p : Pool) (listener : bytes) (given : list bytes) (now : N) : Pool :=
  let p := with_refilling p false in
  match given with
  | [] => {| nonces := nonces p; refused_until := <[listener := (now + REFUSED_FOR)%N]> (refused_until p); refilling := false |}
  | _ => with_kept p listener (kept p listener ++ ((λ n, (n, now)) <$> given))
  end.

(** ** Handshakes and asks *)

Inductive Handshake :=
  | Looking (listener : bytes) (reached : bool)
  | AskingNow (listener : bytes)
  | Again (listener : bytes)
  | Behind (listener : bytes) (nonce : option bytes)
  | Unspawned (nonce : option bytes)
  | Bound (nonce : option bytes).

Record Given := { g_listener : bytes; g_nonce : bytes; g_at : N }.

(** A nonce bound, with when it was given and when it was taken. *)
Record Binding := { b_listener : bytes; b_nonce : bytes; b_given : N; b_at : N; b_again : bool }.

Record Surface := {
  pool : Pool;
  handshakes : list Handshake;
  (** Asks on threads of their own, the listener each is for while in
      flight. *)
  asks : list (option bytes);
  clock : N;
  given : list Given;
  bound : list Binding
}.

Definition surface_new : Surface :=
  {| pool := pool_new; handshakes := []; asks := []; clock := 0; given := []; bound := [] |}.

Definition with_pool (m : Surface) (p : Pool) (hs : list Handshake) (more : list Binding) : Surface :=
  {| pool := p; handshakes := hs; asks := asks m; clock := clock m; given := given m; bound := bound m ++ more |}.

Definition with_asks (m : Surface) (a : list (option bytes)) : Surface :=
  {| pool := pool m; handshakes := handshakes m; asks := a; clock := clock m; given := given m; bound := bound m |}.

Definition gave (listener : bytes) (ns : list bytes) (now : N) : list Given :=
  (λ n, {| g_listener := listener; g_nonce := n; g_at := now |}) <$> ns.

Definition answered (m : Surface) (listener : bytes) (ns : list bytes) : Surface :=
  {| pool := refilled (pool m) listener ns (clock m); handshakes := handshakes m; asks := asks m; clock := clock m;
     given := given m ++ gave listener ns (clock m); bound := bound m |}.

(** Where a handshake goes from its first look. *)
Definition from_look (l : Look) (listener : bytes) (reached : bool) (now : N) : Handshake * list Binding :=
  match l with
  | LeftAlone => (Bound None, [])
  | Took nonce at_ low =>
      (if low then Behind listener (Some nonce) else Bound (Some nonce),
       [{| b_listener := listener; b_nonce := nonce; b_given := at_; b_at := now; b_again := false |}])
  | NoneKept _ => (if reached then AskingNow listener else Behind listener None, [])
  end.

Inductive bound_step (m : Surface) : Surface → Prop :=
  | bound_starts listener reached :
      bound_step m (with_pool m (pool m) (handshakes m ++ [Looking listener reached]) [])
  | bound_looks i listener reached p l h more :
      handshakes m !! i = Some (Looking listener reached) → look (pool m) listener (clock m) = (p, l) →
      from_look l listener reached (clock m) = (h, more) →
      bound_step m (with_pool m p (<[i := h]> (handshakes m)) more)
  | bound_refills i listener ns :
      handshakes m !! i = Some (AskingNow listener) →
      bound_step m (with_pool (answered m listener ns) (pool (answered m listener ns)) (<[i := Again listener]> (handshakes m)) [])
  | bound_again i listener p one :
      handshakes m !! i = Some (Again listener) → take_again (pool m) listener = (p, one) →
      bound_step m (with_pool m p (<[i := Bound (fst <$> one)]> (handshakes m))
        match one with
        | Some (nonce, at_) => [{| b_listener := listener; b_nonce := nonce; b_given := at_; b_at := clock m; b_again := true |}]
        | None => []
        end)
  | bound_behind i listener nonce p began :
      handshakes m !! i = Some (Behind listener nonce) → begin_behind (pool m) = (p, began) →
      bound_step m (with_asks (with_pool m p (<[i := Bound nonce]> (handshakes m)) [])
        (if began then asks m ++ [Some listener] else asks m))
  | bound_no_thread i listener nonce p :
      handshakes m !! i = Some (Behind listener nonce) → begin_behind (pool m) = (p, true) →
      bound_step m (with_pool m p (<[i := Unspawned nonce]> (handshakes m)) [])
  | bound_unspawned i nonce :
      handshakes m !! i = Some (Unspawned nonce) →
      bound_step m (with_pool m (with_refilling (pool m) false) (<[i := Bound nonce]> (handshakes m)) [])
  | bound_answered j listener ns :
      asks m !! j = Some (Some listener) →
      bound_step m (with_asks (answered m listener ns) (<[j := None]> (asks m)))
  | bound_later now : (clock m ≤ now)%N →
      bound_step m {| pool := pool m; handshakes := handshakes m; asks := asks m; clock := now; given := given m; bound := bound m |}.

(** ** A handshake over every surface: [bound] *)

(** What was taken of each live surface, in order: the nonces bound and the
    surfaces whose nodes they are. *)
Definition bound_over {S} (taken : S → option bytes) (live : list S) : list bytes * list S :=
  (omap taken live, List.filter (λ s, bool_decide (is_Some (taken s))) live).

Lemma bound_over_pairs {S} (taken : S → option bytes) live :
  taken <$> (bound_over taken live).2 = Some <$> (bound_over taken live).1.
Proof.
  unfold bound_over. simpl. induction live as [|s live IH]; [done|]. csimpl.
  destruct (taken s) as [n|] eqn:Ht; csimpl; [by rewrite Ht, IH|done].
Qed.

(** ** What is bound was given *)

Definition is_nonce (x : bytes) (one : bytes * N) : bool := bool_decide (fst one = x).
Definition is_given (l x : bytes) (g : Given) : bool := bool_decide (g_listener g = l) && bool_decide (g_nonce g = x).
Definition is_bound (l x : bytes) (b : Binding) : bool := bool_decide (b_listener b = l) && bool_decide (b_nonce b = x).

Record bound_ok (m : Surface) : Prop := {
  ok_counts : ∀ l x, count (is_nonce x) (kept (pool m) l) + count (is_bound l x) (bound m) ≤ count (is_given l x) (given m);
  ok_kept : ∀ l x t, (x, t) ∈ kept (pool m) l → {| g_listener := l; g_nonce := x; g_at := t |} ∈ given m ∧ (t ≤ clock m)%N;
  ok_bound : ∀ b, b ∈ bound m →
    {| g_listener := b_listener b; g_nonce := b_nonce b; g_at := b_given b |} ∈ given m ∧ (b_given b ≤ b_at b)%N ∧
    (b_again b = false → (b_at b < b_given b + KEPT)%N)
}.

Lemma kept_with p l ks l' : kept (with_kept p l ks) l' = if decide (l = l') then ks else kept p l'.
Proof.
  unfold kept, with_kept. simpl. destruct (decide (l = l')) as [<-|Hne].
  - by rewrite lookup_insert_eq.
  - by rewrite lookup_insert_ne.
Qed.

Lemma count_filter {A} (f g : A → bool) l : count f (List.filter g l) ≤ count f l.
Proof. induction l as [|a l IH]; simpl; [done|]. destruct (g a); rewrite ?count_cons; lia. Qed.

Lemma pool_look p listener now p' l :
  look p listener now = (p', l) →
  ∀ other, ∃ front, kept p' other = front ∧
    match l with
    | Took nonce at_ _ =>
        if decide (listener = other)
        then (∃ dropped, (nonce, at_) :: front = List.filter dropped (kept p other)) ∧ (nonce, at_) ∈ kept p other ∧ (now - at_ < KEPT)%N
        else front = kept p other
    | _ => (∃ dropped, front = List.filter dropped (kept p other))
    end.
Proof.
  intros Hl other. eexists. split; [done|]. unfold look in Hl.
  assert (List.filter (λ _, true) (kept p other) = kept p other) as Hall by by apply filter_all.
  destruct (match refused_until p !! listener with Some until => (now <? until)%N | None => false end).
  { injection Hl as <- <-. exists (λ _, true). by rewrite Hall. }
  destruct (List.filter _ _) as [|[nonce at_] rest] eqn:Hf; injection Hl as <- <-; rewrite kept_with.
  - destruct (decide (listener = other)) as [<-|]; [by eexists|]. exists (λ _, true). by rewrite Hall.
  - destruct (decide (listener = other)) as [<-|]; [|done]. split; [by eexists|].
    assert ((nonce, at_) ∈ List.filter (λ one : bytes * N, (now - snd one <? KEPT)%N) (kept p listener)) as Hin by (rewrite Hf; by left).
    apply list_elem_of_In, filter_In in Hin as [Hin Hlt%N.ltb_lt]. split; [by apply list_elem_of_In|done].
Qed.

Lemma filter_sub {A} (g : A → bool) l x : x ∈ List.filter g l → x ∈ l.
Proof. rewrite !list_elem_of_In, filter_In. tauto. Qed.

(** A handshake's step keeps what holds where its pool keeps no more of any
    nonce than it had, but for what it binds. *)
Lemma bound_moves m p hs more :
  bound_ok m →
  (∀ l x, count (is_nonce x) (kept p l) + count (is_bound l x) more ≤ count (is_nonce x) (kept (pool m) l)) →
  (∀ l one, one ∈ kept p l → one ∈ kept (pool m) l) →
  (∀ b, b ∈ more → (b_nonce b, b_given b) ∈ kept (pool m) (b_listener b) ∧ b_at b = clock m ∧
     (b_again b = false → (b_at b - b_given b < KEPT)%N)) →
  bound_ok (with_pool m p hs more).
Proof.
  intros [Hc Hk Hb] Hcount Hsub Hmore. split; simpl.
  - intros l x. rewrite count_app. specialize (Hc l x). specialize (Hcount l x). lia.
  - intros l x t Hin. by apply Hk, Hsub.
  - intros b [Hin|Hin]%elem_of_app; [by apply Hb|]. destruct (Hmore _ Hin) as (Hkept & Hat & Hnow).
    destruct (Hk _ _ _ Hkept) as [Hg Hle]. rewrite Hat in *. split_and!; [done|done|]. intros Ha. specialize (Hnow Ha). lia.
Qed.

Lemma look_ok m i listener reached p l h more :
  bound_ok m → look (pool m) listener (clock m) = (p, l) → from_look l listener reached (clock m) = (h, more) →
  bound_ok (with_pool m p (<[i := h]> (handshakes m)) more).
Proof.
  intros Hok Hl Hh. pose proof (pool_look _ _ _ _ _ Hl) as Hs. apply bound_moves; [done|..].
  - intros other x. destruct (Hs other) as (front & -> & Hone). destruct l as [|nonce at_ low|low]; simpl in Hh.
    + injection Hh as <- <-. destruct Hone as [g ->]. rewrite count_nil. pose proof (count_filter (is_nonce x) g (kept (pool m) other)). lia.
    + injection Hh as <- <-. rewrite count_cons, count_nil. unfold is_bound. simpl.
      destruct (decide (listener = other)) as [<-|Hne].
      * destruct Hone as ((g & Hg) & _). pose proof (count_filter (is_nonce x) g (kept (pool m) listener)) as Hle.
        rewrite <-Hg, count_cons in Hle. unfold is_nonce at 1 in Hle. simpl in Hle.
        rewrite bool_decide_eq_true_2 by done. simpl. lia.
      * rewrite bool_decide_eq_false_2 by done. subst front. simpl. lia.
    + injection Hh as <- <-. destruct Hone as [g ->]. rewrite count_nil. pose proof (count_filter (is_nonce x) g (kept (pool m) other)). lia.
  - intros other one Hin. destruct (Hs other) as (front & Hf & Hone). rewrite Hf in Hin. destruct l as [|nonce at_ low|low].
    + destruct Hone as [g ->]. by eapply filter_sub.
    + destruct (decide (listener = other)) as [<-|]; [|by rewrite <-Hone]. destruct Hone as ((g & Hg) & _).
      eapply (filter_sub g). rewrite <-Hg. by right.
    + destruct Hone as [g ->]. by eapply filter_sub.
  - intros b Hin. destruct l as [|nonce at_ low|low]; simpl in Hh; injection Hh as <- <-; try by apply elem_of_nil in Hin.
    apply list_elem_of_singleton in Hin as ->. simpl. destruct (Hs listener) as (front & _ & Hone).
    rewrite decide_True in Hone by done. destruct Hone as (_ & Hin & Hlt). done.
Qed.

Lemma answered_ok m listener ns : bound_ok m → bound_ok (answered m listener ns).
Proof.
  intros [Hc Hk Hb].
  assert (∀ l, kept (refilled (pool m) listener ns (clock m)) l =
    kept (pool m) l ++ (if decide (listener = l) then (λ n, (n, clock m)) <$> ns else [])) as Hkept.
  { intros l. unfold refilled. destruct ns as [|n ns]; [by destruct (decide _); rewrite app_nil_r|].
    rewrite kept_with. destruct (decide (listener = l)) as [<-|]; [done|]. by rewrite app_nil_r. }
  assert (∀ x, count (is_nonce x) ((λ n, (n, clock m)) <$> ns) = count (is_given listener x) (gave listener ns (clock m))) as Hsame.
  { intros x. clear Hkept. unfold gave. induction ns as [|n ns IH]; [done|]. csimpl. rewrite !count_cons, IH.
    unfold is_nonce, is_given. simpl. by rewrite (bool_decide_eq_true_2 (listener = listener)). }
  split; simpl.
  - intros l x. rewrite Hkept, !count_app. specialize (Hc l x). destruct (decide (listener = l)) as [<-|Hne].
    + rewrite Hsame. lia.
    + rewrite count_nil. lia.
  - intros l x t. rewrite Hkept. intros [Hin|Hin]%elem_of_app; [destruct (Hk _ _ _ Hin); split; [set_solver|done]|].
    destruct (decide (listener = l)) as [<-|]; [|by apply elem_of_nil in Hin].
    apply list_elem_of_fmap in Hin as (n & [= -> ->] & Hn). split; [|done]. apply elem_of_app. right.
    unfold gave. apply list_elem_of_fmap. by exists n.
  - intros b Hin. destruct (Hb b Hin) as (? & ? & ?). split_and!; [set_solver|done..].
Qed.

Lemma take_again_spec p listener p' one :
  take_again p listener = (p', one) →
  ∀ l, kept p l = (if decide (listener = l) then match one with Some o => [o] | None => [] end else []) ++ kept p' l.
Proof.
  unfold take_again. destruct (kept p listener) as [|o rest] eqn:Hk; intros [= <- <-] l; rewrite kept_with;
    destruct (decide (listener = l)) as [<-|]; done.
Qed.

Lemma same_kept_ok m p : bound_ok m → nonces p = nonces (pool m) → ∀ hs, bound_ok (with_pool m p hs []).
Proof.
  intros Hok Hp hs. assert (∀ l, kept p l = kept (pool m) l) as Hk by (intros l; unfold kept; by rewrite Hp).
  apply bound_moves; [done| |intros l one; by rewrite Hk|by intros b ?%elem_of_nil].
  intros l x. rewrite Hk, count_nil. lia.
Qed.

Lemma bound_step_ok m m' : bound_ok m → bound_step m m' → bound_ok m'.
Proof.
  intros Hok. destruct 1 as [| | |i listener p one Hi Hp|? ? ? ? ? ? Hb|? ? ? ? ? Hb| | |].
  - by apply same_kept_ok.
  - by eapply look_ok.
  - apply (answered_ok m listener ns) in Hok. by apply same_kept_ok.
  - pose proof (take_again_spec _ _ _ _ Hp) as Hs. apply bound_moves; [done|..].
    + intros l x. rewrite (Hs l), count_app. destruct one as [[n t]|]; [|rewrite !count_nil; lia].
      rewrite count_cons, count_nil. unfold is_bound. simpl. destruct (decide (listener = l)) as [<-|Hne].
      * rewrite count_cons, count_nil. unfold is_nonce at 2. simpl. rewrite bool_decide_eq_true_2 by done. simpl. lia.
      * rewrite bool_decide_eq_false_2 by done. simpl. lia.
    + intros l o Hin. rewrite (Hs l). set_solver.
    + intros b. destruct one as [[n t]|]; [|by intros ?%elem_of_nil]. intros ->%list_elem_of_singleton. simpl.
      split_and!; [|done|done]. rewrite (Hs listener), decide_True by done. set_solver.
  - destruct Hok as [Hc Hk Hbd]. assert (bound_ok (with_pool m p (<[i:=Bound nonce]> (handshakes m)) [])) as []; [|by split].
    apply same_kept_ok; [done|]. unfold begin_behind in Hb. by destruct (refilling (pool m)); injection Hb as <- <-.
  - apply same_kept_ok; [done|]. unfold begin_behind in Hb. by destruct (refilling (pool m)); injection Hb as <-.
  - by apply same_kept_ok.
  - apply (answered_ok m listener ns) in Hok. by destruct Hok.
  - destruct Hok as [Hc Hk Hb]. split; simpl; [done| |done]. intros l x t Hin. destruct (Hk _ _ _ Hin). split; [done|lia].
Qed.

Lemma surface_new_bound : bound_ok surface_new.
Proof.
  split; simpl; [intros; by rewrite !count_nil|by intros ? ? ? ?%elem_of_nil|by intros ? ?%elem_of_nil].
Qed.

(** Two of a list mapped apart are one where they are mapped alike. *)
Lemma NoDup_fmap_eq {A B} (f : A → B) l x y : NoDup (f <$> l) → x ∈ l → y ∈ l → f x = f y → x = y.
Proof.
  induction l as [|a l IH]; [by intros _ ?%elem_of_nil|]. csimpl. rewrite NoDup_cons. intros [Ha Hl].
  rewrite !elem_of_cons. intros [->|Hx] [->|Hy] Hf; [done| | |by apply IH]; exfalso; apply Ha; apply list_elem_of_fmap; eauto.
Qed.

(** A node's nonce binds at most one handshake, however handshakes, asks
    and the node's answers interleave: where the node gives no nonce twice,
    none is bound twice, each was given for the very listener it is bound
    for, and, but for one taken of an answer just waited for, less than
    [KEPT] before it is bound. *)
Theorem nonce_bound_once m :
  rtc bound_step surface_new m → NoDup (g_nonce <$> given m) →
  NoDup (b_nonce <$> bound m) ∧
  ∀ b, b ∈ bound m →
    {| g_listener := b_listener b; g_nonce := b_nonce b; g_at := b_given b |} ∈ given m ∧ (b_given b ≤ b_at b)%N ∧
    (b_again b = false → (b_at b < b_given b + KEPT)%N).
Proof.
  intros Hrun Hgiven. assert (bound_ok m) as Hok.
  { revert Hrun. apply (rtc_invariant _ bound_ok); [intros; by eapply bound_step_ok|apply surface_new_bound]. }
  split; [|apply Hok]. apply count_NoDup. intros x.
  destruct (count (λ b, bool_decide (b_nonce b = x)) (bound m)) eqn:Hz; [lia|]. rewrite <-Hz.
  assert (0 < count (λ b, bool_decide (b_nonce b = x)) (bound m)) as (b & Hb & Hx%bool_decide_eq_true)%count_pos by lia.
  destruct (ok_bound _ Hok b Hb) as (Hg & _).
  assert (count (λ b, bool_decide (b_nonce b = x)) (bound m) ≤ count (is_bound (b_listener b) x) (bound m)) as Hle1.
  { apply count_mono. intros b' Hb' Hx'%bool_decide_eq_true. destruct (ok_bound _ Hok b' Hb') as (Hg' & _).
    unfold is_bound. rewrite andb_true_iff, !bool_decide_eq_true. split; [|done].
    assert (b_nonce b' = b_nonce b) as Hsame by congruence.
    by pose proof (NoDup_fmap_eq g_nonce (given m) _ _ Hgiven Hg' Hg Hsame) as [= ->]. }
  pose proof (ok_counts _ Hok (b_listener b) x) as Hle2.
  assert (count (is_given (b_listener b) x) (given m) ≤ count (λ g, bool_decide (g_nonce g = x)) (given m)) as Hle3.
  { apply count_mono. intros g _ [_ ?]%andb_true_iff. done. }
  pose proof (proj1 (count_NoDup g_nonce (given m)) Hgiven x). lia.
Qed.

(** ** Surfaces that run *)

Definition a_listener : bytes := [Corelib.Init.Byte.x6c].

(** A handshake finds none kept, and asks behind it; another asks its node
    now, is answered, and a third finds few left. *)
Lemma three_handshakes : ∃ m, rtc bound_step surface_new m ∧
  asks m = [Some a_listener; Some a_listener] ∧ g_nonce <$> given m = [a_nonce] ∧
  b_nonce <$> bound m = [a_nonce].
Proof.
  eexists. split.
  - eapply rtc_l; [apply (bound_starts _ a_listener false)|].
    eapply rtc_l; [by eapply (bound_looks _ 0)|]. eapply rtc_l; [by eapply (bound_behind _ 0)|].
    eapply rtc_l; [apply (bound_starts _ a_listener true)|]. eapply rtc_l; [by eapply (bound_looks _ 1)|].
    eapply rtc_l; [by eapply (bound_refills _ 1 a_listener [a_nonce])|].
    eapply rtc_l; [apply (bound_starts _ a_listener true)|]. eapply rtc_l; [by eapply (bound_looks _ 2)|].
    eapply rtc_l; [by eapply (bound_behind _ 2)|]. apply rtc_refl.
  - split_and!; reflexivity.
Qed.

(** An ask made while a handshake waits says none is under way once it is
    answered, though one begun behind another still is: two of them are in
    flight at once. *)
Lemma two_asks_at_once : ∃ m, rtc bound_step surface_new m ∧ asks m = [Some a_listener; Some a_listener].
Proof. destruct three_handshakes as (m & Hrun & Ha & _). by exists m. Qed.

Lemma nonce_bound_once_witness : ∃ m, rtc bound_step surface_new m ∧ b_nonce <$> bound m = [a_nonce] ∧ NoDup (b_nonce <$> bound m).
Proof.
  destruct three_handshakes as (m & Hrun & _ & Hg & Hb). exists m. split; [exact Hrun|]. split; [exact Hb|].
  assert (NoDup (g_nonce <$> given m)) as Hnd by (rewrite Hg; apply NoDup_singleton).
  exact (proj1 (nonce_bound_once m Hrun Hnd)).
Defined.
