(* ===== verification/Relayed.v ===== *)
(** * A surface relaying for a caller: [src/plane/remote/relayed.rs]

    What a call made for a caller this process holds ([Held]) asks of a
    node: as this side itself, in the name of the handle the node issued for
    that caller, or nothing, refused here ([relayed]); and a browser's
    handshake handed to every node it was bound to ([vouched_everywhere]),
    each node's handle or refusal kept on the caller's proof, in whatever
    order the nodes answer. At the node the call is [Served]'s. A node's
    answers are given; the threads they are waited for on are [Workers]'. *)

From Stdlib Require Import Ascii String.
From stdpp Require Import base numbers list gmap strings sets.
From S2P Require Import Prelude Text Journey Storage Fresh Vouched Held Role Call Applied Served.

Local Open Scope string_scope.
Local Open Scope list_scope.

Section relayed.
Context `{Json} `{Admission} `{Gate}.
Implicit Types pf : Proof_ (Identity := Identity).

(** [nobody]: a refusal in the method's own answer. *)
Definition nobody (method refused : string) : value :=
  if String.eqb method SECRETS then object [("refused", JText refused)]
  else object [("outcome", JText "denied"); ("said", JText refused)].

(** [no_one]. *)
Definition no_one : string :=
  match admitted is_proven name_of None Developer ACT ("act", "on the node") with Ok _ => "" | Err why => why end.

Definition not_proven_to (address : string) : string :=
  "REFUSED. This browser's session was not proven to " +:+ address +:+
  ": a session proves itself to the nodes its host follows as it connects, and does again as it reconnects (ADR-0009)".

(** Whom a call made for the handle [held] is asked as, or its refusal. *)
Inductive AskedAs := Itself | ForCaller (node : N) | Denied (why : string).

Definition asked_as (st : Store (Identity := Identity)) (at_ : N) (address : string) (held : N) (now : Z) :
    Holding * AskedAs :=
  if (held =? 0)%N then (s_held st, Itself)
  else
    let '(h, found, _) := Held.proof held now (s_held st) in
    (h, match found ≫= λ p, s_proofs st !! p with
        | None => Denied no_one
        | Some pf =>
            match pf_leaf pf with
            | None => Itself
            | Some _ =>
                match Held.vouched_at at_ pf with
                | Some node => ForCaller node
                | None => Denied (default (not_proven_to address) (Held.refusal at_ pf))
                end
            end
        end).

(** [relayed], where [asked] is [asked_for]. *)
Definition relayed (asked : option N → result value string) (st : Store (Identity := Identity)) (at_ : N) (address : string) (held : N)
    (method : string) (now : Z) : Holding * result value string :=
  let '(h, as_) := asked_as st at_ address held now in
  (h, match as_ with
      | Itself => asked None
      | ForCaller node => asked (Some node)
      | Denied why => Ok (nobody method why)
      end).

(** [said]. *)
Definition said (answer : value) : string :=
  match at_text answer "said" with Some s => s | None => default "" (at_text answer "refused") end.

(** [vouched_by]: the proof, and the handle its node is told was replaced. *)
Definition vouched_by (pf : Proof_ (Identity := Identity)) (at_ : N) (answer : result value string) : Proof_ (Identity := Identity) * option N :=
  match answer with
  | Ok a => match at_number a "caller" with Some node => Held.vouched at_ node pf | None => (Held.refused at_ (said a) pf, None) end
  | Err why => (Held.refused at_ why pf, None)
  end.

(** [vouched_everywhere], in the order the nodes answered. *)
Definition vouched_everywhere (pf : Proof_ (Identity := Identity)) (answers : list (N * result value string)) : Proof_ (Identity := Identity) :=
  foldl (λ pf a, (vouched_by pf a.1 a.2).1) pf answers.

(** ** What a surface reads of an answer: [remote.rs], [remote/secret.rs] *)

Inductive Outcome := OTaken | ODenied | ORefused | OInvalid | OFailed.

(** [Outcome::of]. *)
Definition outcome_of (word : string) : Outcome :=
  if String.eqb word "taken" then OTaken
  else if String.eqb word "denied" then ODenied
  else if String.eqb word "invalid" then OInvalid
  else if String.eqb word "failed" then OFailed else ORefused.

(** [Remote::act] and [Remote::set_secret]: what came of it, and the node's
    sentence. *)
Definition came_of (answer : value) : Outcome * string :=
  (outcome_of (default "" (at_text answer "outcome")), default "" (at_text answer "said")).

(** [Remote::secrets]. *)
Definition secrets (answer : value) : result value string :=
  match at_text answer "refused" with Some refused => Err refused | None => Ok answer end.

(** [Remote::publication]. *)
Definition publication (answer : value) : N * string :=
  (default 0%N (at_number answer "revision"), default "" (at_text answer "publication")).

(** [unvouch]: what a node is told of a caller let go, where its surface is
    there and not ending. *)
Definition unvouch (surface : option bool) (node : N) : option (string * value) :=
  match surface with
  | Some ending => if ending then None else Some (UNVOUCH, object [("caller", JNumber node)])
  | None => None
  end.
End relayed.

(** ** Every node's answer is kept *)

Section kept.
Context `{JsonLaws} `{Gate}.
Implicit Types pf : Proof_ (Identity := Identity).

Lemma list_find_app_none {A} (P : A → Prop) `{∀ x, Decision (P x)} l k :
  list_find P l = None → list_find P (l ++ k) = prod_map (λ i, length l + i) id <$> list_find P k.
Proof.
  intros Hl. destruct (list_find P k) as [[i x]|] eqn:Hk; simpl.
  - apply list_find_Some. apply list_find_Some in Hk as (Hi & Hp & Hf). apply list_find_None in Hl.
    rewrite lookup_app_r by lia. split_and!; [by replace (length l + i - length l) with i by lia|done|].
    intros j y [Hj|[Hge Hj]]%lookup_app_Some Hlt; [by eapply Forall_lookup_1 in Hl|]. eapply Hf; [done|lia].
  - apply list_find_None in Hl, Hk. apply list_find_None. by apply Forall_app.
Qed.

(** What a node has said of a caller: its handle, or why it refused. *)
Definition told_of (at_ : N) pf : option N * option string := (Held.vouched_at at_ pf, Held.refusal at_ pf).

Definition unheard (at_ : N) pf : Prop := told_of at_ pf = (None, None).

Definition heard (answer : result value string) : option N * option string :=
  match answer with
  | Ok a => match at_number a "caller" with Some node => (Some node, None) | None => (None, Some (said a)) end
  | Err why => (None, Some why)
  end.

Lemma vouched_by_told pf at_ answer other :
  unheard at_ pf → told_of other (vouched_by pf at_ answer).1 = if decide (at_ = other) then heard answer else told_of other pf.
Proof.
  unfold unheard, told_of. intros [= Hv Hr].
  assert (list_find (λ v : N * N, v.1 = at_) (pf_vouched pf) = None) as Hv'
    by (unfold Held.vouched_at in Hv; by destruct (list_find _ _)).
  assert (∀ why, Held.refusal other (Held.refused at_ why pf) = if decide (at_ = other) then Some why else Held.refusal other pf) as Hrefused.
  { intros why. unfold Held.refusal, Held.refused in *. simpl.
    destruct (list_find (λ r : N * string, r.1 = other) (pf_refusals pf)) as [[i r]|] eqn:Hf.
    - erewrite list_find_app_l by done. simpl. destruct (decide (at_ = other)) as [<-|]; [|done]. by rewrite Hf in Hr.
    - rewrite list_find_app_none by done. simpl. by destruct (decide (at_ = other)). }
  assert (∀ node, Held.vouched_at other (Held.vouched at_ node pf).1 = if decide (at_ = other) then Some node else Held.vouched_at other pf) as Hvouched.
  { intros node. unfold Held.vouched. rewrite Hv'. unfold Held.vouched_at. simpl.
    destruct (list_find (λ v : N * N, v.1 = other) (pf_vouched pf)) as [[i v]|] eqn:Hf.
    - erewrite list_find_app_l by done. simpl. destruct (decide (at_ = other)) as [<-|]; [|done]. by rewrite Hf in Hv'.
    - rewrite list_find_app_none by done. simpl. by destruct (decide (at_ = other)). }
  assert (∀ node, Held.refusal other (Held.vouched at_ node pf).1 = Held.refusal other pf) as Hsame.
  { intros node. unfold Held.vouched. by rewrite Hv'. }
  assert (∀ why, Held.vouched_at other (Held.refused at_ why pf) = Held.vouched_at other pf) as Hsame' by done.
  unfold vouched_by, heard. destruct answer as [a|why]; [destruct (at_number a "caller") as [node|]|]; cbn [fst];
    rewrite ?Hvouched, ?Hsame, ?Hsame', ?Hrefused; destruct (decide (at_ = other)) as [<-|]; by rewrite ?Hv, ?Hr.
Qed.

(** Each node's answer is kept of it, in whatever order they answered. *)
Lemma vouched_everywhere_told pf answers at_ :
  NoDup answers.*1 → (∀ a, a ∈ answers.*1 → unheard a pf) →
  told_of at_ (vouched_everywhere pf answers) =
    match List.find (λ a, bool_decide (fst a = at_)) answers with Some a => heard a.2 | None => told_of at_ pf end.
Proof.
  revert pf. induction answers as [|[a answer] rest IH]; intros pf; [done|].
  csimpl. rewrite NoDup_cons. intros [Ha Hnd] Hun. unfold vouched_everywhere. simpl.
  pose proof (vouched_by_told pf a answer) as Hone. fold (vouched_everywhere (vouched_by pf a answer).1 rest).
  rewrite IH; [|done|].
  - rewrite Hone by (apply Hun; by left). case_bool_decide as Haa.
    + subst at_. rewrite decide_True by done. destruct (List.find _ rest) as [[b ans]|] eqn:Hf; [|done].
      apply find_some in Hf as [Hin Hb%bool_decide_eq_true]. exfalso. apply Ha. simpl in Hb. subst b.
      apply list_elem_of_fmap. exists (a, ans). split; [done|by apply list_elem_of_In].
    + by rewrite decide_False.
  - intros b Hb. unfold unheard. rewrite Hone by (apply Hun; by left). rewrite decide_False; [|congruence].
    apply Hun. by right.
Qed.
End kept.

(** ** A session's call, at its node *)

Section composed.
Context `{JsonLaws} `{GrpcLaws} `{ObserveWords} `{SecretWords} `{AdmissionLaws} `{Gate} `{Codecs}.
Context {W : Type} `{!Nodes W} `{!Published W}.

Lemma vouched_everywhere_leaf (pf : Proof_ (Identity := Identity)) answers :
  pf_leaf (vouched_everywhere pf answers) = pf_leaf pf.
Proof.
  revert pf. induction answers as [|[a answer] rest IH]; intros pf; [done|]. unfold vouched_everywhere in *. simpl.
  rewrite IH. unfold vouched_by, Held.vouched. by repeat case_match.
Qed.

(** What came of an act on the node is what its surface is told. *)
Lemma outcome_crosses came v :
  answered (came_to came) = Ok v →
  came_of v = (match came with Taken _ => OTaken | Refused_ _ => ORefused | Failed_ _ => OFailed end, Applied.said came).
Proof.
  assert (∀ word text, answered (outcome word text) = Ok v → came_of v = (outcome_of word, text)) as Ho.
  { intros word text Ha. unfold outcome in Ha. rewrite answered_answer in Ha. destruct (frame _); [|done].
    injection Ha as <-. unfold came_of. by rewrite !text_built. }
  unfold came_to. destruct came as [text|text|text]; intros ->%Ho; done.
Qed.

(** At the node, a call in the name of a handle is made for the caller it
    holds for that relay, and for no one else. *)
Definition done_as (node : N) (s : Serve (W := W)) (relay : Identity) (i : Identity) (now : Z) : Prop :=
  ∀ authority method v req at_, request authority method v (Some node) = Ok req → now_wall at_ = now →
    ∀ acting through, acting_as s relay req at_ acting through ↔ acting = i ∧ through = Some (name_of relay).

Lemma named_at_node node s relay r i until now :
  (node ≤ u64_max)%N → relaying_of s relay = Some r →
  r_vouched (rl_vouched r) !! node = Some {| v_identity := i; v_until := until; v_through := name_of relay |} →
  (now < until)%Z → done_as node s relay i now.
Proof.
  intros Hnode Hr Hv Hnow authority method v req at_ Hreq Hat acting through.
  assert (caller_of req = Some node) as Hc.
  { unfold request in Hreq. destruct (frame (shown v)) as [body|]; [|done]. injection Hreq as <-.
    unfold caller_of. simpl.
    rewrite trim_digits by apply pretty_all. by rewrite parse_pretty. }
  assert ((Vouched.proven (rl_vouched r) node (name_of relay) (now_wall at_)).2 = Some i) as Hp.
  { unfold Vouched.proven. rewrite Hv, Hat. simpl. destruct (Z.leb_spec until now); [lia|]. simpl. by rewrite bool_decide_eq_true_2. }
  split.
  - intros [Hnone|node' r' acting' Hc' Hr' Hp']; [congruence|]. rewrite Hc in Hc'. rewrite Hr in Hr'.
    injection Hc' as <-. injection Hr' as <-. split; [congruence|done].
  - intros [-> ->]. by eapply as_relay.
Qed.

(** C31. What a browser's session asks through a relay is asked of each node
    in the name of the handle that very node answered for it, whatever
    order the nodes it was handed to answered in, and is done there as the
    caller the node holds by it for that relay, and no one else; a node
    that refused the session, or was never handed it, is asked nothing: the
    call is denied here, with the node's own reason. *)
Theorem relayed_as_vouched (st : Store (Identity := Identity)) pf answers held now p leaf at_ address :
  held ≠ 0%N → (Held.proof held now (s_held st)).1.2 = Some p →
  s_proofs st !! p = Some (vouched_everywhere pf answers) → pf_leaf pf = Some leaf →
  NoDup answers.*1 → (∀ a, a ∈ at_ :: answers.*1 → unheard a pf) →
  match List.find (λ a, bool_decide (fst a = at_)) answers with
  | Some (_, answer) =>
      match heard answer with
      | (Some node, _) =>
          (asked_as st at_ address held now).2 = ForCaller node ∧
          ∀ (s : Serve (W := W)) relay r i until later, (node ≤ u64_max)%N → relaying_of s relay = Some r →
            r_vouched (rl_vouched r) !! node = Some {| v_identity := i; v_until := until; v_through := name_of relay |} →
            (later < until)%Z → done_as node s relay i later
      | (None, why) => (asked_as st at_ address held now).2 = Denied (default (not_proven_to address) why)
      end
  | None => (asked_as st at_ address held now).2 = Denied (not_proven_to address)
  end.
Proof.
  intros Hheld Hp Hpf Hleaf Hnd Hun.
  assert ((asked_as st at_ address held now).2 =
    match told_of at_ (vouched_everywhere pf answers) with
    | (Some node, _) => ForCaller node
    | (None, why) => Denied (default (not_proven_to address) why)
    end) as Has.
  { unfold asked_as. rewrite (proj2 (N.eqb_neq _ _) Hheld). destruct (Held.proof _ _ _) as [[h found] dropped].
    simpl in Hp. subst found. simpl. rewrite Hpf. simpl. rewrite vouched_everywhere_leaf, Hleaf. unfold told_of. by case_match. }
  rewrite vouched_everywhere_told in Has; [|done|intros a Ha; apply Hun; by right].
  destruct (List.find _ answers) as [[a answer]|].
  - simpl in Has. destruct (heard answer) as [[node|] why]; [|done]. split; [done|]. intros. by eapply named_at_node.
  - assert (told_of at_ pf = (None, None)) as Hnone by (apply Hun; by left). by rewrite Hnone in Has.
Qed.
End composed.

(** ** A session that runs *)

Section witnesses.
#[local] Existing Instances fields_json plain_grpc by_rules by_rules_laws fields_json_laws plain_grpc_laws
  toy_words toy_secrets toy_gate toy_codecs toy_nodes toy_published.

Definition toy_session : Proof_ (Identity := string) :=
  {| pf_identity := "jane"; pf_leaf := Some []; pf_vouched := []; pf_refusals := [] |}.

(** Node 1 answered handle 9, node 2 refused. *)
Definition toy_answers : list (N * result value string) :=
  [(2%N, Ok (object [("refused", JText "REFUSED. full")])); (1%N, Ok (object [("caller", JNumber 9)]))].

Definition toy_store : Store (Identity := string) :=
  {| s_held := {| callers := {[ 5%N := {| h_proof := 0; h_until := None; h_by := None |} ]}; revoked := ∅ |};
     s_proofs := {[ 0 := vouched_everywhere toy_session toy_answers ]}; s_next := 1; s_lent := []; s_asking := [];
     s_proved := ∅; s_made := []; s_told := [] |}.

Lemma relayed_as_vouched_witness :
  (asked_as toy_store 1 "n1" 5 0).2 = ForCaller 9 ∧ (asked_as toy_store 2 "n2" 5 0).2 = Denied "REFUSED. full" ∧
  (asked_as toy_store 3 "n3" 5 0).2 = Denied (not_proven_to "n3").
Proof.
  assert (NoDup toy_answers.*1) as Hnd by (apply (bool_decide_eq_true_1 (NoDup _)); vm_compute; reflexivity).
  assert (∀ at_ a, a ∈ at_ :: toy_answers.*1 → unheard a toy_session) as Hun by (intros; reflexivity).
  assert (∀ at_ address, _) as Hall by exact (λ at_ address, relayed_as_vouched (W := list string) toy_store toy_session toy_answers 5 0 0 []
    at_ address ltac:(discriminate) eq_refl ltac:(vm_compute; reflexivity) eq_refl Hnd (Hun at_)).
  split; [exact (proj1 (Hall 1%N "n1"))|]. split; [exact (Hall 2%N "n2")|exact (Hall 3%N "n3")].
Defined.
End witnesses.
