(* ===== verification/Figures.v ===== *)
(** * What a send step counts at each Send Port: [src/send_step/figures.rs]

    The figures a node publishes of each Send Port ([figures]), read of the
    send step's state in one section of its lock: what was sent and failed
    since it started, what waits for a retry, the claims whose renewal is
    unanswered and since when, and the failed Messages in its queue now; and
    the line each says of itself ([evidence]). How a moment is written is
    another crate's. *)

From Stdlib Require Import Ascii String.
From stdpp Require Import base numbers list gmap strings pretty.
From S2P Require Import Prelude Tuning Journey Storage SmallStorage Keys Points Sending.
From S2P Require Import Departure Sequence Due Renewal SendStep.

Local Open Scope string_scope.
Local Open Scope list_scope.

(** [FAILED_WINDOW]. *)
Definition FAILED_WINDOW : N := 100.

(** [figures.entry(port).or_default()]. *)
Definition entry (p : string) (f : gmap string PortFigures) : PortFigures := default no_figures (f !! p).

(** A port's figures, some of them counted on. *)
Definition with_waiting (n : N) (f : PortFigures) : PortFigures :=
  {| pf_sent := pf_sent f; pf_failed := pf_failed f; pf_waiting := u64_add (pf_waiting f) n;
     pf_last_failure := pf_last_failure f; pf_failing := pf_failing f; pf_blocked := pf_blocked f;
     pf_oldest_failing := pf_oldest_failing f; pf_unconfirmed := pf_unconfirmed f;
     pf_unanswered_since := pf_unanswered_since f; pf_lost := pf_lost f; pf_unread := pf_unread f |}.

Definition with_unanswered (since : Z) (f : PortFigures) : PortFigures :=
  {| pf_sent := pf_sent f; pf_failed := pf_failed f; pf_waiting := pf_waiting f;
     pf_last_failure := pf_last_failure f; pf_failing := pf_failing f; pf_blocked := pf_blocked f;
     pf_oldest_failing := pf_oldest_failing f; pf_unconfirmed := u64_add (pf_unconfirmed f) 1;
     pf_unanswered_since := Some (match pf_unanswered_since f with Some was => Z.min was since | None => since end);
     pf_lost := pf_lost f; pf_unread := pf_unread f |}.

Definition with_window (w : Window) (blocks : option bool) (f : PortFigures) : PortFigures :=
  {| pf_sent := pf_sent f; pf_failed := pf_failed f; pf_waiting := pf_waiting f;
     pf_last_failure := pf_last_failure f; pf_failing := win_count w;
     pf_blocked := (0 <? win_count w)%N && bool_decide (blocks = Some true);
     pf_oldest_failing := win_oldest w; pf_unconfirmed := pf_unconfirmed f;
     pf_unanswered_since := pf_unanswered_since f; pf_lost := pf_lost f; pf_unread := pf_unread f |}.

(** Each of a list counted on, at its own port. *)
Definition each {A} (at_ : A → string) (counted : A → PortFigures → PortFigures) (l : list A)
    (f : gmap string PortFigures) : gmap string PortFigures :=
  foldl (λ f a, <[at_ a := counted a (entry (at_ a) f)]> f) f l.

(** A claim held whose renewal is unanswered: when that was asked, on the
    wall's clock. *)
Definition since_of (now : N) (wall : Z) (asked : N) : Z := wall - Z.of_N (now - asked).

Definition unanswered (owned : Owning) (now : N) (wall : Z) : list (string * Z) :=
  omap (λ o, (λ asked, (Renewal.port o, since_of now wall asked)) <$> unconfirmed (standing o)) (map_to_list owned).*2.

Section figures.
Context {T Message Facts Durable : Type}.
Abbreviation State := (State Message Facts Durable).

(** [SendStep::figures]. *)
Definition figures_now (now : N) (wall : Z) (st : State) : gmap string PortFigures :=
  let f := each id (λ _, id) (map_to_list (ports st)).*1 (figures st) in
  let f := each Due.port (λ d, with_waiting (waiting d)) (map_to_list (due st)).*2 f in
  let f := each fst (λ u, with_unanswered u.2) (unanswered (owned st) now wall) f in
  each fst (λ w, with_window w.2 (ports st !! w.1)) (map_to_list (failing st)) f.
End figures.

(** ** The line it says: [PortFigures::evidence] *)

Section evidence.
Context (rfc3339 : Z → string) (show_id : N → string).

Definition when (b : bool) (text : string) : string := if b then text else "".

Definition evidence (f : PortFigures) : string :=
  "sent " +:+ pretty (pf_sent f) +:+ ", failed " +:+ pretty (pf_failed f) +:+ ", waiting " +:+ pretty (pf_waiting f) +:+
  ", failed in its queue " +:+ pretty (pf_failing f) +:+
  when (pf_blocked f) ", its sequence blocked behind them" +:+
  when (0 <? pf_unconfirmed f)%N
    (", Xmip Storage has not answered the renewal of its claims " +:+ pretty (pf_unconfirmed f) +:+
     match pf_unanswered_since f with Some since => " since " +:+ rfc3339 since | None => "" end) +:+
  match pf_unread f with
  | Some (since, why) =>
      ", Xmip Storage has not answered a read of its queue since " +:+ rfc3339 (Z.of_N since) +:+ " (" +:+ why +:+ ")"
  | None => ""
  end +:+
  when (0 <? pf_lost f)%N (", claims lost to another holder " +:+ pretty (pf_lost f)) +:+
  match pf_last_failure f with
  | Some (journey, why) => "; the Message of the Journey " +:+ show_id journey +:+ " failed: " +:+ why
  | None => ""
  end.

(** What a publication says of a Port's failed Messages: [published]. *)
Record FailedMessages := {
  fms_node : string;
  fms_port : string;
  fms_count : N;
  fms_blocked : bool;
  fms_messages : list (string * N * string);
  fms_last : option (string * string)
}.

(** [FailedMessage::published], [PortFigures::last] and
    [PortFigures::published]. *)
Definition message_published (m : FailedMessage) : string * N * string :=
  (show_id (fm_journey m), fm_place m, fm_reason m).

Definition last_published (f : PortFigures) : option (string * string) :=
  (λ l, (show_id l.1, l.2)) <$> pf_last_failure f.

Definition published (node port : string) (f : PortFigures) : FailedMessages :=
  {| fms_node := node; fms_port := port; fms_count := pf_failing f; fms_blocked := pf_blocked f;
     fms_messages := message_published <$> pf_oldest_failing f; fms_last := last_published f |}.
End evidence.

(** ** What the figures are *)

Lemma entry_insert p q x f : entry q (<[p := x]> f) = if decide (p = q) then x else entry q f.
Proof.
  unfold entry. destruct (decide (p = q)) as [<-|Hne]; [by rewrite lookup_insert_eq|by rewrite lookup_insert_ne].
Qed.

(** What is counted on at a port is counted of the list at that port. *)
Lemma each_entry {A} (at_ : A → string) counted l f p :
  entry p (each at_ counted l f) =
  foldl (λ x a, counted a x) (entry p f) (List.filter (λ a, bool_decide (at_ a = p)) l).
Proof.
  unfold each. revert f. induction l as [|a l IH]; intros f; [done|]. simpl. rewrite IH, entry_insert.
  case_bool_decide as Ha; [by rewrite decide_True; [subst|]|by rewrite decide_False].
Qed.

Lemma each_keys {A} (at_ : A → string) counted l f p :
  is_Some (each at_ counted l f !! p) ↔ is_Some (f !! p) ∨ p ∈ at_ <$> l.
Proof.
  unfold each. revert f. induction l as [|a l IH]; intros f; csimpl; [set_solver|].
  rewrite IH, lookup_insert_is_Some, elem_of_cons. destruct (decide (at_ a = p)); naive_solver.
Qed.

Definition at_port (p : string) {A} (at_ : A → string) (l : list A) : list A := List.filter (λ a, bool_decide (at_ a = p)) l.

Lemma fold_waiting {A} (n : A → N) l f :
  foldl (λ x a, with_waiting (n a) x) f l =
  {| pf_sent := pf_sent f; pf_failed := pf_failed f; pf_waiting := foldl (λ x a, u64_add x (n a)) (pf_waiting f) l;
     pf_last_failure := pf_last_failure f; pf_failing := pf_failing f; pf_blocked := pf_blocked f;
     pf_oldest_failing := pf_oldest_failing f; pf_unconfirmed := pf_unconfirmed f;
     pf_unanswered_since := pf_unanswered_since f; pf_lost := pf_lost f; pf_unread := pf_unread f |}.
Proof. revert f. induction l as [|a l IH]; intros f; simpl; [by destruct f|]. by rewrite IH. Qed.

Definition min_since (was : option Z) (since : Z) : option Z :=
  Some (match was with Some was => Z.min was since | None => since end).

Lemma fold_unanswered (l : list (string * Z)) f :
  foldl (λ x u, with_unanswered u.2 x) f l =
  {| pf_sent := pf_sent f; pf_failed := pf_failed f; pf_waiting := pf_waiting f;
     pf_last_failure := pf_last_failure f; pf_failing := pf_failing f; pf_blocked := pf_blocked f;
     pf_oldest_failing := pf_oldest_failing f; pf_unconfirmed := foldl (λ x _, u64_add x 1) (pf_unconfirmed f) l;
     pf_unanswered_since := foldl min_since (pf_unanswered_since f) l.*2; pf_lost := pf_lost f; pf_unread := pf_unread f |}.
Proof. revert f. induction l as [|a l IH]; intros f; simpl; [by destruct f|]. by rewrite IH. Qed.

Lemma fold_sum {A} (n : A → N) l x :
  (x + sumN (n <$> l) ≤ u64_max)%N → foldl (λ x a, u64_add x (n a)) x l = (x + sumN (n <$> l))%N.
Proof.
  revert x. induction l as [|a l IH]; intros x; csimpl; rewrite ?sumN_cons; intros Hx; [simpl; lia|].
  rewrite u64_add_small by (unfold u64_max in Hx; lia). rewrite IH by lia. lia.
Qed.

(** A map's one entry at a key. *)
Lemma at_key {A} (m : gmap string A) p :
  at_port p fst (map_to_list m) = match m !! p with Some x => [(p, x)] | None => [] end.
Proof.
  assert (∀ l : list (string * A), NoDup l.*1 →
    (∀ x, at_port p fst l = [(p, x)] ↔ (p, x) ∈ l) ∧ (at_port p fst l = [] ↔ p ∉ l.*1)) as Hl.
  { induction l as [|[q y] l IH]; csimpl; [intros _; split; [intros x|]; set_solver|].
    rewrite NoDup_cons. intros [Hq Hnd]. destruct (IH Hnd) as [Hone Hno]. unfold at_port in *. simpl.
    case_bool_decide as Hqp; [subst q|].
    - assert (List.filter (λ a : string * A, bool_decide (fst a = p)) l = []) as -> by (by apply Hno).
      split; [|set_solver]. intros x. rewrite elem_of_cons. split; [intros [= ->]; by left|].
      intros [[= ->]|Hin]; [done|]. exfalso. apply Hq. apply list_elem_of_fmap. by exists (p, x).
    - split; [intros x; rewrite Hone, elem_of_cons; naive_solver|]. rewrite Hno, not_elem_of_cons. naive_solver. }
  destruct (Hl _ (NoDup_fst_map_to_list m)) as [Hone Hno]. destruct (m !! p) as [x|] eqn:Hm.
  - apply Hone. by apply elem_of_map_to_list.
  - apply Hno. intros ((q & y) & -> & Hin)%list_elem_of_fmap. apply elem_of_map_to_list in Hin. simpl in Hm. congruence.
Qed.

Section kept.
Context {T Message Facts Durable : Type}.
Abbreviation State := (State Message Facts Durable).

(** What waits for a retry at a port, and its unanswered renewals. *)
Definition waiting_at (p : string) (st : State) : N := sumN (waiting <$> at_port p Due.port (map_to_list (due st)).*2).

Definition unanswered_at (p : string) now wall (st : State) : list Z :=
  (at_port p fst (unanswered (owned st) now wall)).*2.

(** A Port's figures are what the step counted there since it started, what
    waits in its queues for a retry, its renewals unanswered now with the
    oldest's asking, and its queue's failed Messages as last read, blocking
    just where some wait and its failures block; and a Port has figures just
    where the step knows it. *)
Lemma figures_as_kept now wall (st : State) p :
  let f := entry p (figures_now now wall st) in
  let was := entry p (figures st) in
  (pf_waiting was + waiting_at p st ≤ u64_max)%N →
  (pf_unconfirmed was + N.of_nat (length (unanswered_at p now wall st)) ≤ u64_max)%N →
  pf_sent f = pf_sent was ∧ pf_failed f = pf_failed was ∧ pf_last_failure f = pf_last_failure was ∧
  pf_lost f = pf_lost was ∧ pf_unread f = pf_unread was ∧
  pf_waiting f = (pf_waiting was + waiting_at p st)%N ∧
  pf_unconfirmed f = (pf_unconfirmed was + N.of_nat (length (unanswered_at p now wall st)))%N ∧
  pf_unanswered_since f = foldl min_since (pf_unanswered_since was) (unanswered_at p now wall st) ∧
  match failing st !! p with
  | Some w => pf_failing f = win_count w ∧ pf_oldest_failing f = win_oldest w ∧
      (pf_blocked f = true ↔ (0 < win_count w)%N ∧ ports st !! p = Some true)
  | None => pf_failing f = pf_failing was ∧ pf_oldest_failing f = pf_oldest_failing was ∧ pf_blocked f = pf_blocked was
  end ∧
  (is_Some (figures_now now wall st !! p) ↔
     is_Some (figures st !! p) ∨ is_Some (ports st !! p) ∨ p ∈ Due.port <$> (map_to_list (due st)).*2 ∨
     p ∈ (unanswered (owned st) now wall).*1 ∨ is_Some (failing st !! p)).
Proof.
  intros f was Hw Hu. subst f was. unfold figures_now. rewrite !each_entry.
  assert (∀ (f : PortFigures) (l : list string), foldl (λ x _, id x) f l = f) as Hid
    by (clear; intros f l; revert f; induction l; simpl; auto).
  rewrite Hid. fold (at_port p Due.port (map_to_list (due st)).*2). fold (at_port p fst (unanswered (owned st) now wall)).
  fold (at_port p fst (map_to_list (failing st))).
  rewrite fold_waiting. rewrite fold_unanswered. rewrite at_key. cbn [pf_sent pf_failed pf_waiting pf_last_failure pf_failing pf_blocked pf_oldest_failing pf_unconfirmed pf_unanswered_since pf_lost pf_unread].
  rewrite fold_sum by done.
  assert (∀ {A} (l : list A), sumN ((λ _, 1%N) <$> l) = N.of_nat (length l)) as Hlen.
  { clear. intros A l. induction l as [|a l IH]; csimpl; rewrite ?sumN_cons; [done|]. rewrite IH. lia. }
  assert (∀ {A} (l : list A) x, (x + N.of_nat (length l) ≤ u64_max)%N →
    foldl (λ x _, u64_add x 1) x l = (x + N.of_nat (length l))%N) as Hones.
  { intros A l x. rewrite <-Hlen. apply (fold_sum (λ _ : A, 1%N)). }
  unfold unanswered_at in Hu. rewrite length_fmap in Hu. rewrite Hones by done.
  split_and!; try (by destruct (failing st !! p) as [w|]; simpl; rewrite ?length_fmap).
  - unfold unanswered_at. rewrite length_fmap. by destruct (failing st !! p).
  - destruct (failing st !! p) as [w|]; simpl; [|done]. split_and!; [done..|].
    rewrite andb_true_iff, N.ltb_lt, bool_decide_eq_true. done.
  - rewrite !each_keys. rewrite list_fmap_id.
    assert (∀ {A} (m : gmap string A), p ∈ (map_to_list m).*1 ↔ is_Some (m !! p)) as Hk.
    { intros A m. rewrite list_elem_of_fmap. split.
      - intros ([q x] & -> & Hin%elem_of_map_to_list). by exists x.
      - intros [x Hx]. exists (p, x). split; [done|by apply elem_of_map_to_list]. }
    rewrite !Hk. tauto.
Qed.
End kept.
