(* ===== verification/Replay.v ===== *)
(** * Replay from the Dead Message Queue: [src/pickup/replay.rs]

    An operator's Replay of a Message nothing matched ([replay]): its
    promoted properties as kept routed against the node's Subscriptions of
    now, a Journey opened for each that matches as its Publication would
    have ([Publication.opened]), every one held in its Subscription's queue
    ([Pickup.held_of], of every one) and the entry taken out, as one write
    of Xmip Storage ([DeadStorage]); counted once written. Routing, an
    identifier's text, a Message's record and the audit's are parameters;
    so is what is audited beside the write. *)

From Stdlib Require Import Ascii String.
From stdpp Require Import base numbers list gmap strings.
From S2P Require Import Prelude Journey Storage Sending Sequence.
From S2P Require Import Pickup Publication.

(** [DeadEntry], [Replay], [Replayed]. *)
Inductive DeadEntry :=
  | DeadKept (dm : DeadMessage)
  | DeadReplayed
  | DeadNever.

Record ReplayWrite := {
  rw_queue : N;
  rw_message : N;
  rw_journeys : list bytes;
  rw_held : list Hold;
  rw_audit : bytes
}.

Inductive Replayed := ReplayedNow | ReplayedBefore | ReplayedAbsent.

Class DeadStorage (S : Type) := {
  read_dead_message : S → N → N → S * result DeadEntry string;
  write_replay : S → ReplayWrite → S * result Replayed string
}.

Section replay.
Context {S Message : Type} `{XmipStorage S} `{DeadStorage S} `{JourneyOps}.
Context (node : string) (message_id_from : string → option N) (show_id : N → string) (shown : nat → string)
  (dead_message_queue : string → N)
  (routes : list (string * string) → State → Routing) (declines : Routing → string)
  (matched : N → string → option string → N * N → Journey)
  (message_from : bytes → result Message string)
  (replayed_record : N → list Journey → string → Message → bytes → bytes).

Definition never (id : N) : string :=
  ("REFUSED: the Dead Message Queue of " +:+ node +:+ " never kept a Message " +:+ show_id id)%string.

Definition not_replayed (id : N) (problem : string) : string :=
  ("FAILED: the Message " +:+ show_id id +:+ " is not replayed: Xmip Storage did not answer: " +:+ problem)%string.

Definition unrecorded (id : N) : string :=
  ("FAILED: the Message " +:+ show_id id +:+ " is not replayed: the Ledger holds no record of the Message "
     +:+ show_id id +:+ " to audit")%string.

Definition already (id : N) : string := ("Message " +:+ show_id id +:+ " was replayed already")%string.

Definition still_unmatched (id : N) (routing : Routing) : string :=
  ("REFUSED: the Message " +:+ show_id id +:+ " still matches no Subscription on " +:+ node +:+
   ", and stays in its Dead Message Queue; " +:+
   (if bool_decide (List.filter (λ ev, negb (ev_matched ev)) routing = []) then "no Subscription is configured"
    else declines routing))%string.

Definition replayed_by (id : N) (who : string) (opened : nat) : string :=
  ("Message " +:+ show_id id +:+ " replayed by " +:+ who +:+ ": " +:+ shown opened +:+
   " Journey(s) opened, picked up from their Subscriptions' queues oldest first")%string.

(** The Message as its record keeps it, to audit. *)
Definition recorded (id : N) (s : S) : S * result (Message * bytes) string :=
  match read_message s id with
  | (s, Err error) => (s, Err (not_replayed id error))
  | (s, Ok None) => (s, Err (unrecorded id))
  | (s, Ok (Some record)) =>
      (s, match message_from record with
          | Ok message => Ok (message, record)
          | Err error => Err (not_replayed id error)
          end)
  end.

(** The one write, and what is counted once it is taken. *)
Definition replay_write (id : N) (opened : list Opened) (who : string) (message : Message) (record body : bytes)
    (st : State) : Holding * ReplayWrite :=
  let h := held_of st opened body true in
  (h, {| rw_queue := dead_message_queue node; rw_message := id;
         rw_journeys := journey_record ∘ opened_journey <$> opened; rw_held := holds h;
         rw_audit := replayed_record id (opened_journey <$> opened) who message record |}).

Definition written (id : N) (opened : list Opened) (who : string) (message : Message) (record body : bytes)
    (s : S) (st : State) : S * State * result string string :=
  let '(h, w) := replay_write id opened who message record body st in
  match write_replay s w with
  | (s, Ok ReplayedNow) => (s, Pickup.published h st, Ok (replayed_by id who (length opened)))
  | (s, Ok ReplayedBefore) => (s, st, Ok (already id))
  | (s, Ok ReplayedAbsent) => (s, st, Err (never id))
  | (s, Err error) => (s, st, Err (not_replayed id error))
  end.

(** [Pickup::replay]. *)
Definition replay (message who : string) (ids : nat → N) (s : S) (st : State) : S * State * result string string :=
  match message_id_from message with
  | None => (s, st, Err ("REFUSED: '" +:+ message +:+ "' names no Message")%string)
  | Some id =>
      match read_dead_message s (dead_message_queue node) id with
      | (s, Err error) => (s, st, Err (not_replayed id error))
      | (s, Ok DeadReplayed) => (s, st, Ok (already id))
      | (s, Ok DeadNever) => (s, st, Err (never id))
      | (s, Ok (DeadKept dm)) =>
          let routing := routes (dm_promoted dm) st in
          let opened := Publication.opened matched routing st (id, dm_stream dm) ids in
          if bool_decide (opened = []) then (s, st, Err (still_unmatched id routing))
          else
            match recorded id s with
            | (s, Err why) => (s, st, Err why)
            | (s, Ok (read, record)) => written id opened who read record (dm_body dm) s st
            end
      end
  end.
End replay.

(** ** One write, counted once taken *)

(** Any Xmip Storage with the Replays it took beside it. *)
#[export] Instance logged_dead {S} `{DeadStorage S} : DeadStorage (S * list ReplayWrite) := {
  read_dead_message s queue id := let '(s', r) := read_dead_message s.1 queue id in ((s', s.2), r);
  write_replay s w :=
    let '(s', r) := write_replay s.1 w in
    ((s', match r with Ok ReplayedNow => w :: s.2 | _ => s.2 end), r)
}.

Instance read_beside {S} `{XmipStorage S} : XmipStorage (S * list ReplayWrite) := {
  claim s id node token lease := let '(s', r) := claim s.1 id node token lease in ((s', s.2), r);
  release s c := let '(s', r) := release s.1 c in ((s', s.2), r);
  renew s cs lease := let '(s', r) := renew s.1 cs lease in ((s', s.2), r);
  hand_on s h := let '(s', r) := hand_on s.1 h in ((s', s.2), r);
  read_journey s id := let '(s', r) := read_journey s.1 id in ((s', s.2), r);
  read_message s id := let '(s', r) := read_message s.1 id in ((s', s.2), r);
  read_held s q from most := let '(s', r) := read_held s.1 q from most in ((s', s.2), r);
  read_due s q from most := let '(s', r) := read_due s.1 q from most in ((s', s.2), r);
  read_failed s q from most := let '(s', r) := read_failed s.1 q from most in ((s', s.2), r)
}.

Lemma index_entry (st : State) name i : index st name = Some i → ∃ e, st !! i = Some e ∧ e_name e = name.
Proof.
  unfold index. destruct (list_find _ st) as [[j e]|] eqn:Hf; simpl; [|done]. intros [= <-].
  apply list_find_Some in Hf as (? & ? & _). by exists e.
Qed.

(** What is held of every one holds every one of a Subscription there is. *)
Lemma held_of_every (st : State) opened body :
  (∀ o, o ∈ opened → is_Some (index st (subscription o))) →
  picked (held_of st opened body true) = [] ∧
  (held_at (held_of st opened body true)).*1 = omap (λ o, index st (subscription o)) opened.
Proof.
  unfold held_of. intros Hall.
  enough (∀ h, picked (foldl (held_one st body true) h opened) = picked h ∧
    (held_at (foldl (held_one st body true) h opened)).*1 =
      (held_at h).*1 ++ omap (λ o, index st (subscription o)) opened) as Hh by apply (Hh no_holding).
  induction opened as [|o rest IH]; intros h; simpl; [by rewrite app_nil_r|].
  destruct (IH ltac:(intros; apply Hall; by right) (held_one st body true h o)) as [-> ->].
  unfold held_one. destruct (Hall o ltac:(by left)) as [i Hi]. rewrite Hi.
  destruct (index_entry _ _ _ Hi) as (e & -> & _). simpl. rewrite fmap_app, <-app_assoc. done.
Qed.

Fixpoint counted (n : nat) (e : Entry) : Entry :=
  match n with 0 => e | Datatypes.S n => counted n (count_held e) end.

Lemma counted_is n e :
  held (counted n e) = (held e + N.of_nat n)%N ∧ standing (counted n e) = standing e ∧
  (0 < n → paused (standing e) = false → pending (counted n e) = true).
Proof.
  revert e. induction n as [|n IH]; intros e; [split_and!; simpl; [lia|done|lia]|].
  destruct (IH (count_held e)) as (Hh & Hs & Hp).
  assert (standing (count_held e) = standing e) as Hse by (unfold count_held; simpl; by case_match).
  assert (held (count_held e) = held e + 1)%N as Hhe by (unfold count_held; simpl; by case_match).
  simpl. rewrite Hh, Hs, Hse, Hhe. split_and!; [lia|done|]. intros _ Hact.
  destruct n as [|n]; [|apply Hp; [lia|by rewrite Hse]]. simpl. unfold count_held. simpl. by rewrite Hact.
Qed.

Lemma counted_at (l : list nat) (st : State) i :
  foldl (λ st i, alter count_held i st) st l !! i = counted (count (λ j, j =? i) l) <$> st !! i.
Proof.
  revert st. induction l as [|j l IH]; intros st; cbn [foldl]; [by rewrite count_nil, option_fmap_id|].
  rewrite IH, count_cons. destruct (Nat.eqb_spec j i) as [->|Hne].
  - rewrite list_lookup_alter_eq. by destruct (st !! i).
  - by rewrite list_lookup_alter_ne by done.
Qed.

Section replayed.
Context {S Message : Type} `{XmipStorage S} `{DeadStorage S} `{JourneyOps}.
Implicit Types s : (S * list ReplayWrite)%type.
Context (node : string) (message_id_from : string → option N) (show_id : N → string) (shown : nat → string)
  (dead_message_queue : string → N)
  (routes : list (string * string) → State → Routing) (declines : Routing → string)
  (matched : N → string → option string → N * N → Journey)
  (message_from : bytes → result Message string)
  (replayed_record : N → list Journey → string → Message → bytes → bytes).

Abbreviation replay := (replay (S := S * list ReplayWrite) node message_id_from show_id shown dead_message_queue routes
  declines matched message_from replayed_record).

(** A Subscription's own Journeys among those opened. *)
Definition opened_by (st : State) (i : nat) (opened : list Opened) : nat :=
  count (λ o, bool_decide (index st (subscription o) = Some i)) opened.

Lemma opened_by_omap (st : State) i opened :
  count (λ j, j =? i) (omap (λ o, index st (subscription o)) opened) = opened_by st i opened.
Proof.
  unfold opened_by. induction opened as [|o rest IH]; [done|]. csimpl. rewrite count_cons.
  destruct (index st (subscription o)) as [j|] eqn:Hj; rewrite ?count_cons, IH; [|by rewrite bool_decide_eq_false_2].
  destruct (Nat.eqb_spec j i) as [->|Hne]; [by rewrite bool_decide_eq_true_2|].
  rewrite bool_decide_eq_false_2; [done|congruence].
Qed.

Lemma opened_names (routing : Routing) st pair_ ids o :
  (∀ ev, ev ∈ routing → ev_matched ev = true → is_Some (index st (ev_subscription ev))) →
  o ∈ Publication.opened matched routing st pair_ ids → is_Some (index st (subscription o)).
Proof.
  revert ids. induction routing as [|ev rest IH]; intros ids Hall; simpl; [by intros ?%elem_of_nil|].
  destruct (ev_matched ev) eqn:Hm; [|apply IH; intros; apply Hall; [by right|done]].
  intros [Hin|Hin]%elem_of_app.
  - apply list_elem_of_lookup in Hin as [k Hk]. rewrite list_lookup_imap in Hk.
    destruct (_ !! k); simpl in Hk; [|done]. injection Hk as <-. simpl. apply Hall; [by left|done].
  - eapply IH; [|exact Hin]. intros; apply Hall; [by right|done].
Qed.

(** A Replay is one write or none. Taken, it opened at least one
    Journey, one for each Send Port each Subscription that matches now
    reaches, and every one is held, once, in the order opened, at the end of
    its own Subscription's queue in that same write: just as many more each
    Subscription counts, and an active one is to be picked up from. Refused
    — no Message, one the queue never kept or that still matches nothing —
    replayed already, or not taken, nothing is written by it and nothing
    counted. *)
Theorem replay_is_one_write message who ids s st s' st' r :
  (∀ promoted ev, ev ∈ routes promoted st → ev_matched ev = true → is_Some (index st (ev_subscription ev))) →
  replay message who ids s st = (s', st', r) →
  s'.2 = s.2 ∧ st' = st ∧ (∀ said, r = Ok said → ∃ id, said = already show_id id) ∨
  ∃ id promoted stream w, message_id_from message = Some id ∧
    let opened := Publication.opened matched (routes promoted st) st (id, stream) ids in
    opened ≠ [] ∧ r = Ok (replayed_by show_id shown id who (length opened)) ∧
    s'.2 = w :: s.2 ∧ rw_message w = id ∧ rw_journeys w = journey_record ∘ opened_journey <$> opened ∧
    (hold_member <$> rw_held w) = (λ o, journey_id (opened_journey o)) <$> opened ∧
    (∀ hold, hold ∈ rw_held w → ∃ o i e, o ∈ opened ∧ index st (subscription o) = Some i ∧ st !! i = Some e ∧
       hold_queue hold = e_queue e ∧ hold_member hold = journey_id (opened_journey o)) ∧
    ∀ i e, st !! i = Some e → ∃ e', st' !! i = Some e' ∧ standing e' = standing e ∧
      held e' = (held e + N.of_nat (opened_by st i opened))%N ∧
      (0 < opened_by st i opened → paused (standing e) = false → pending e' = true).
Proof.
  intros Hroutes. unfold Replay.replay. destruct (message_id_from message) as [id|]; [|intros [= <- <- <-]; left; split_and!; done].
  cbn [read_dead_message logged_dead]. destruct (read_dead_message s.1 _ id) as [s1 [[dm| |]|error]]; cbn beta iota;
    try (intros [= <- <- <-]; left; split_and!; try done; by intros said [= <-]; eexists).
  set (opened := Publication.opened matched (routes (dm_promoted dm) st) st (id, dm_stream dm) ids).
  case_bool_decide as Hnone; [intros [= <- <- <-]; left; by split_and!|].
  unfold recorded. cbn [read_message read_beside]. destruct (read_message (s1, s.2).1 id) as [s2 [[record|]|error]];
    cbn beta iota; [|intros [= <- <- <-]; left; by split_and!..].
  destruct (message_from record) as [read|error]; [|intros [= <- <- <-]; left; by split_and!].
  assert (∀ o, o ∈ opened → is_Some (index st (subscription o))) as Hnamed.
  { intros o. apply opened_names. intros ev. apply Hroutes. }
  unfold written, replay_write. cbn [write_replay logged_dead fst snd].
  match goal with |- context [write_replay s2 ?w] => destruct (write_replay s2 w) as [s3 [[| |]|error]] end; cbn beta iota;
    try (intros [= <- <- <-]; left; split_and!; try done; by intros said [= <-]; eexists).
  intros [= <- <- <-]. right. exists id, (dm_promoted dm), (dm_stream dm). eexists. split; [done|]. fold opened.
  split; [done|]. split; [done|]. split; [reflexivity|]. simpl.
  destruct (held_of_every st opened (dm_body dm) Hnamed) as [Hpicked Hat].
  assert (List.filter (is_held st true) opened = opened) as Hall.
  { apply filter_all. intros o Ho. destruct (Hnamed o Ho) as [i Hi]. unfold is_held. rewrite Hi. simpl.
    destruct (index_entry _ _ _ Hi) as (e & -> & _). done. }
  split_and!; [done|done|by rewrite held_members, Hall| |].
  - intros hold. rewrite (proj1 (held_of_is _ _ _ _)), Hall. intros (o & Ho & Hh)%list_elem_of_omap.
    destruct (Hnamed o Ho) as [i Hi]. destruct (index_entry _ _ _ Hi) as (e & He & _).
    unfold hold_for in Hh. rewrite Hi in Hh. simpl in Hh. rewrite He in Hh. injection Hh as <-.
    by exists o, i, e.
  - intros i e He. unfold Pickup.published. rewrite Hpicked, Hat. simpl. rewrite counted_at, He, opened_by_omap. simpl.
    eexists. split; [done|]. destruct (counted_is (opened_by st i opened) e) as (-> & -> & Hp). by split_and!.
Qed.
End replayed.

(** ** One Message replayed to two Subscriptions *)

Section witnesses.
Local Open Scope N_scope.

Definition dead_9 : DeadMessage :=
  {| dm_queue := 3; dm_message := 9; dm_stream := 10; dm_node := "n"; dm_location := "In"; dm_received := 5%Z;
     dm_validation := []; dm_promoted := []; dm_declines := []; dm_body := [Byte.x07] |}.

#[local] Instance keeps_dead : DeadStorage unit :=
  { read_dead_message s _ _ := (s, Ok (DeadKept dead_9)); write_replay s _ := (s, Ok ReplayedNow) }.

#[local] Instance keeps_message : XmipStorage unit := {
  claim s _ _ _ _ := (s, Ok None); release s _ := (s, Ok tt); renew s _ _ := (s, Ok []);
  hand_on s _ := (s, Ok true); read_journey s _ := (s, Ok None); read_message s _ := (s, Ok (Some []));
  read_held s _ _ _ := (s, Err ""%string); read_due s _ _ _ := (s, Err ""%string);
  read_failed s _ _ _ := (s, Err ""%string)
}.

#[local] Instance one_record : JourneyOps :=
  {| append j _ _ := j; journey_record j := [Byte.x00]; from_record _ := Err "" |}.

Definition both_match (promoted : list (string * string)) (st : State) : Routing :=
  (λ e, matching (e_name e)) <$> st.

Abbreviation replaying := (replay (S := unit * list ReplayWrite) (Message := unit) "n" (λ _, Some 9) (λ _, "9"%string)
  (λ _, "2"%string) (λ _, 3) both_match (λ _, ""%string) born_as (λ _, Ok tt) (λ _ _ _ _ _, []) "9" "ilian"
  (λ k, 100 + N.of_nat k) (tt, []) two_subscriptions).

Lemma replay_is_one_write_witness : ∃ s' st' r, replaying = (s', st', r) ∧
  ∃ w, s'.2 = [w] ∧ (hold_queue <$> rw_held w) = [7; 8] ∧ (hold_member <$> rw_held w) = [100; 101] ∧
  (held <$> st') = [1; 1].
Proof.
  destruct replaying as [[s' st'] r] eqn:Hr. exists s', st', r. split; [reflexivity|].
  assert (is_ok r = true ∧ st' ≠ two_subscriptions ∧ (held <$> st') = [1; 1] ∧
    (w ← head s'.2; Some (hold_queue <$> rw_held w)) = Some [7; 8]) as (_ & Hmoved & Hheld & Hqueues).
  { vm_compute in Hr. injection Hr as <- <- <-. repeat split; discriminate. }
  destruct (replay_is_one_write (S := unit) (Message := unit) "n" (λ _, Some 9) (λ _, "9"%string)
    (λ _, "2"%string) (λ _, 3) both_match (λ _, ""%string) born_as (λ _, Ok tt) (λ _ _ _ _ _, []) "9" "ilian"
    (λ k, 100 + N.of_nat k) (tt, []) two_subscriptions s' st' r)
    as [(_ & Hsame & _)|(id & promoted & stream & w & _ & _ & _ & Hw & _ & _ & Hmembers & _)];
    [|exact Hr|done|].
  - intros promoted ev Hev _. unfold both_match in Hev. apply list_elem_of_fmap in Hev as (e & -> & He).
    unfold two_subscriptions in He. rewrite !elem_of_cons, elem_of_nil in He.
    destruct He as [->|[->|[]]]; by eexists.
  - exists w. split; [exact Hw|]. rewrite Hw in Hqueues. injection Hqueues as Hqueues.
    split; [exact Hqueues|]. split; [exact Hmembers|exact Hheld].
Defined.
End witnesses.
