(* ===== verification/Workers.v ===== *)
(** * The threads a listener answers on: [src/plane/workers.rs]

    A connection is one thread, kept for the next once it has answered: at
    most [IDLE] wait, each on a channel of its own whose sender is in
    [idle]; the rest end. [run] hands work to a waiting thread or starts
    one; [stop] lets every waiting thread go and joins the rest.

    A call of [run] is a number, in the order the calls were made, and its
    work goes by it; a thread is a number too, in the order they were
    started. A waiting thread's channel is what it was sent and has not
    received; its sender is in [idle], in the hand of the [run] that took
    it from there, or dropped. Each lock section, each send and receive and
    each load or store of [stopped] is a step, in any order; work ends, or
    panics, and a panic ends its thread. One [stop] is modelled: a listener
    makes one ([Listener::stop] swaps its flag first). *)

From stdpp Require Import base numbers list relations.
From S2P Require Import Prelude.

(** [IDLE]. *)
Definition IDLE : nat := 8.

(** Where a thread is in [answering]. *)
Inductive Thread :=
  | Running (work : nat)
  | Answered
  | Waiting (handed : list nat)
  | Ended.

(** Where a call of [run] is: answered [true] or [false] at its end. *)
Inductive Call :=
  | Asked
  | Sending (thread : nat)
  | Spawning
  | Keeping (thread : nat)
  | Ran
  | Refused.

(** Where the stop is; joining, with the handles it took. *)
Inductive Stop :=
  | Never
  | Stored
  | Cleared
  | Joining (handles : list nat).

#[export] Instance call_eq_dec : EqDecision Call.
Proof. solve_decision. Defined.

(** ** The sections of [run] *)

(** Nothing once stopped. *)
Definition asked (stopped : bool) : Call := if stopped then Refused else Asked.

(** [self.idle.locked().pop()]: the one that waited last. *)
Definition popped (idle : list nat) : list nat * Call :=
  match last idle with
  | Some thread => (removelast idle, Sending thread)
  | None => (idle, Spawning)
  end.

(** [next.send(work)]: the thread, [None] where its receiver is gone. *)
Definition sent (work : nat) (thread : Thread) : option Thread :=
  match thread with
  | Waiting handed => Some (Waiting (handed ++ [work]))
  | _ => None
  end.

Definition is_ended (pcs : list Thread) (thread : nat) : bool :=
  match pcs !! thread with Some Ended => true | _ => false end.

(** The handle kept, those of ended threads let go of. *)
Definition kept (pcs : list Thread) (thread : nat) (threads : list nat) : list nat :=
  List.filter (λ t, negb (is_ended pcs t)) threads ++ [thread].

(** ** The sections of [answering] *)

(** It has answered: it waits, or ends. *)
Definition entered (stopped : bool) (thread : nat) (idle : list nat) : list nat * Thread :=
  if stopped || (IDLE <=? length idle) then (idle, Ended) else (idle ++ [thread], Waiting []).

(** [handed.recv()]: [None] while it goes on waiting. *)
Definition received (sender : bool) (handed : list nat) : option Thread :=
  match handed with
  | work :: _ => Some (Running work)
  | [] => if sender then None else Some Ended
  end.

(** ** Interleaved *)

Record Workers := {
  stopped : bool;
  idle : list nat;
  threads : list nat;
  pcs : list Thread;
  calls : list Call;
  stopping : Stop;
  started : list nat
}.

Definition workers_new : Workers :=
  {| stopped := false; idle := []; threads := []; pcs := []; calls := []; stopping := Never; started := [] |}.

Definition sends_to (thread : nat) (c : Call) : bool :=
  match c with Sending t => bool_decide (t = thread) | _ => false end.

(** Whether a waiting thread's sender is anywhere. *)
Definition sender_of (m : Workers) (thread : nat) : bool :=
  bool_decide (thread ∈ idle m) || existsb (sends_to thread) (calls m).

Definition with_call (m : Workers) (i : nat) (c : Call) : Workers :=
  {| stopped := stopped m; idle := idle m; threads := threads m; pcs := pcs m; calls := <[i := c]> (calls m);
     stopping := stopping m; started := started m |}.

Definition with_thread (m : Workers) (t : nat) (pc : Thread) : Workers :=
  {| stopped := stopped m; idle := idle m; threads := threads m; pcs := <[t := pc]> (pcs m); calls := calls m;
     stopping := stopping m; started := started m |}.

Definition with_idle (m : Workers) (ts : list nat) : Workers :=
  {| stopped := stopped m; idle := ts; threads := threads m; pcs := pcs m; calls := calls m;
     stopping := stopping m; started := started m |}.

Definition with_stop (m : Workers) (s : bool) (ts handles : list nat) (at_ : Stop) : Workers :=
  {| stopped := s; idle := ts; threads := handles; pcs := pcs m; calls := calls m; stopping := at_;
     started := started m |}.

Definition now_runs (t : nat) (pc : Thread) (m : Workers) : Workers :=
  {| stopped := stopped m; idle := idle m; threads := threads m; pcs := <[t := pc]> (pcs m); calls := calls m;
     stopping := stopping m;
     started := started m ++ match pc with Running work => [work] | _ => [] end |}.

(** Without new calls where [asks] is false. *)
Inductive workers_step (asks : bool) : Workers → Workers → Prop :=
  | workers_asked m :
      asks = true →
      workers_step asks m
        {| stopped := stopped m; idle := idle m; threads := threads m; pcs := pcs m;
           calls := calls m ++ [asked (stopped m)]; stopping := stopping m; started := started m |}
  | workers_popped m i ts c :
      calls m !! i = Some Asked → popped (idle m) = (ts, c) →
      workers_step asks m (with_call (with_idle m ts) i c)
  | workers_sent m i t th th' :
      calls m !! i = Some (Sending t) → pcs m !! t = Some th → sent i th = Some th' →
      workers_step asks m (with_call (with_thread m t th') i Ran)
  | workers_unsent m i t th :
      calls m !! i = Some (Sending t) → pcs m !! t = Some th → sent i th = None →
      workers_step asks m (with_call m i Spawning)
  | workers_spawned m i :
      calls m !! i = Some Spawning →
      workers_step asks m
        {| stopped := stopped m; idle := idle m; threads := threads m; pcs := pcs m ++ [Running i];
           calls := <[i := Keeping (length (pcs m))]> (calls m); stopping := stopping m; started := started m ++ [i] |}
  | workers_no_thread m i :
      calls m !! i = Some Spawning → workers_step asks m (with_call m i Refused)
  | workers_kept m i t :
      calls m !! i = Some (Keeping t) →
      workers_step asks m (with_call (with_stop m (stopped m) (idle m) (kept (pcs m) t (threads m)) (stopping m)) i Ran)
  | workers_answered m t work :
      pcs m !! t = Some (Running work) → workers_step asks m (with_thread m t Answered)
  | workers_panicked m t work :
      pcs m !! t = Some (Running work) → workers_step asks m (with_thread m t Ended)
  | workers_entered m t ts pc :
      pcs m !! t = Some Answered → entered (stopped m) t (idle m) = (ts, pc) →
      workers_step asks m (with_thread (with_idle m ts) t pc)
  | workers_received m t handed pc :
      pcs m !! t = Some (Waiting handed) → received (sender_of m t) handed = Some pc →
      workers_step asks m (now_runs t pc m)
  | workers_stored m :
      stopping m = Never → workers_step asks m (with_stop m true (idle m) (threads m) Stored)
  | workers_cleared m :
      stopping m = Stored → workers_step asks m (with_stop m (stopped m) [] (threads m) Cleared)
  | workers_taken m :
      stopping m = Cleared → workers_step asks m (with_stop m (stopped m) (idle m) [] (Joining (threads m)))
  (** Joined, or its time over: the next. *)
  | workers_joined m t rest :
      stopping m = Joining (t :: rest) →
      workers_step asks m (with_stop m (stopped m) (idle m) (threads m) (Joining rest)).

(** ** What holds however they interleave *)

(** A thread waiting with nothing sent to it. *)
Definition free (pcs : list Thread) (t : nat) : nat :=
  match pcs !! t with Some (Waiting []) => 1 | _ => 0 end.

Definition senders (m : Workers) (t : nat) : nat :=
  count (Nat.eqb t) (idle m) + sum_list_with (λ c, Nat.b2n (sends_to t c)) (calls m).

Definition handed_in (i : nat) (th : Thread) : nat :=
  match th with Waiting handed => count (Nat.eqb i) handed | _ => 0 end.

(** How often a call's work was begun, or is on its way to a thread. *)
Definition runs (m : Workers) (i : nat) : nat :=
  count (Nat.eqb i) (started m) + sum_list_with (handed_in i) (pcs m).

Definition took (c : option Call) : nat :=
  match c with Some Ran | Some (Keeping _) => 1 | _ => 0 end.

(** What a stop leaves once it has cleared. *)
Definition halted (m : Workers) : Prop :=
  match stopping m with
  | Never => True
  | Stored => stopped m = true
  | Cleared | Joining _ => stopped m = true ∧ idle m = []
  end.

Record workers_ok (m : Workers) : Prop := {
  wo_senders : ∀ t, senders m t ≤ free (pcs m) t;
  wo_runs : ∀ i, runs m i = took (calls m !! i);
  wo_one : ∀ t handed, pcs m !! t = Some (Waiting handed) → length handed ≤ 1;
  wo_idle : length (idle m) ≤ IDLE;
  wo_halted : halted m;
  wo_kept : (∀ handles, stopping m ≠ Joining handles) → ∀ t, t < length (pcs m) →
    is_ended (pcs m) t = true ∨ t ∈ threads m ∨ Keeping t ∈ calls m
}.

Lemma count_eqb_elem (t : nat) l : t ∈ l → 0 < count (Nat.eqb t) l.
Proof. intros Hin. apply count_pos. exists t. by rewrite Nat.eqb_refl. Qed.

Lemma count_occ_count (i : nat) l : count_occ Nat.eq_dec l i = count (Nat.eqb i) l.
Proof.
  induction l as [|x l IH]; [done|]. rewrite count_cons. simpl. rewrite IH.
  destruct (Nat.eq_dec x i), (Nat.eqb_spec i x); congruence || done.
Qed.

Lemma handed_somewhere i (pcs_ : list Thread) : 0 < sum_list_with (handed_in i) pcs_ →
  ∃ t handed, pcs_ !! t = Some (Waiting handed) ∧ i ∈ handed.
Proof.
  induction pcs_ as [|th l IH]; simpl; [lia|]. intros Hlt.
  destruct (decide (0 < handed_in i th)) as [Hth|].
  - destruct th as [| |handed|]; simpl in Hth; try lia. exists 0, handed. split; [done|].
    by apply count_pos in Hth as (x & Hx & ->%Nat.eqb_eq).
  - destruct IH as (t & handed & ? & ?); [lia|]. by exists (Datatypes.S t), handed.
Qed.

Lemma popped_senders ts c idle_ : popped idle_ = (ts, c) → ∀ t,
  count (Nat.eqb t) ts + Nat.b2n (sends_to t c) = count (Nat.eqb t) idle_.
Proof.
  unfold popped. destruct (last idle_) as [x|] eqn:Hl; intros [= <- <-] t; simpl; [|lia].
  apply last_Some in Hl as [k ->]. rewrite removelast_last, count_app. simpl. unfold count. simpl.
  case_bool_decide as Hx; [subst; rewrite Nat.eqb_refl; simpl; lia|].
  destruct (Nat.eqb_spec t x); [by subst|]. simpl. lia.
Qed.

Lemma popped_shorter ts c idle_ : popped idle_ = (ts, c) →
  length ts ≤ length idle_ ∧ (idle_ = [] → ts = []) ∧ (c = Spawning ∨ ∃ t, c = Sending t).
Proof.
  unfold popped. destruct (last idle_) as [x|] eqn:Hl; intros [= <- <-]; [|eauto].
  apply last_Some in Hl as [k ->]. rewrite removelast_last, length_app. split_and!; [lia| |eauto].
  by destruct k.
Qed.

Lemma sending_free m i t : workers_ok m → calls m !! i = Some (Sending t) →
  pcs m !! t = Some (Waiting []) ∧ count (Nat.eqb t) (idle m) = 0 ∧
  sum_list_with (λ c, Nat.b2n (sends_to t c)) (calls m) = 1.
Proof.
  intros Hok Hi. pose proof (wo_senders _ Hok t) as Hs. unfold senders in Hs.
  apply (weight_elem (λ c, Nat.b2n (sends_to t c))) in Hi. simpl in Hi. rewrite bool_decide_eq_true_2 in Hi by done.
  simpl in Hi. unfold free in Hs.
  destruct (pcs m !! t) as [[| |[|]|]|]; try lia. split; [done|lia].
Qed.

Lemma free_insert pcs_ t th t' : t < length pcs_ →
  free (<[t := th]> pcs_) t' = if decide (t = t') then match th with Waiting [] => 1 | _ => 0 end else free pcs_ t'.
Proof.
  intros Hlt. unfold free. case_decide as Heq; [subst; by rewrite list_lookup_insert_eq|].
  by rewrite list_lookup_insert_ne.
Qed.

Lemma calls_weight m i c c' t : calls m !! i = Some c →
  sum_list_with (λ c, Nat.b2n (sends_to t c)) (<[i := c']> (calls m)) + Nat.b2n (sends_to t c) =
  sum_list_with (λ c, Nat.b2n (sends_to t c)) (calls m) + Nat.b2n (sends_to t c').
Proof. apply (weight_insert (λ c, Nat.b2n (sends_to t c))). Qed.

Lemma senders_step asks m m' : workers_ok m → workers_step asks m m' → ∀ t, senders m' t ≤ free (pcs m') t.
Proof.
  intros Hok Hstep t. pose proof (wo_senders _ Hok t) as Hs. unfold senders in *.
  destruct Hstep as [m _|m i ts c Hi Hp|m i t0 th th' Hi Ht Hsent|m i t0 th Hi _ _|m i Hi|m i Hi|m i t0 Hi
    |m t0 work Ht|m t0 work Ht|m t0 ts pc Ht He|m t0 handed pc Ht Hr|m _|m _|m _|m t0 rest _]; simpl in *; try done.
  - rewrite sum_list_with_app. simpl. unfold asked. destruct (stopped m); simpl; lia.
  - pose proof (calls_weight m i _ c t Hi). pose proof (popped_senders _ _ _ Hp t). simpl in *. lia.
  - destruct (sending_free _ _ _ Hok Hi) as (Hw & H0 & H1). pose proof (calls_weight m i _ Ran t Hi) as Hc. simpl in Hc.
    rewrite free_insert by (by eapply lookup_lt_Some). destruct (decide (t0 = t)) as [->|Heq].
    + rewrite bool_decide_eq_true_2 in Hc by done. simpl in Hc. lia.
    + rewrite bool_decide_eq_false_2 in Hc by done. simpl in Hc. lia.
  - pose proof (calls_weight m i _ Spawning t Hi) as Hc. simpl in Hc. lia.
  - pose proof (calls_weight m i _ (Keeping (length (pcs m))) t Hi) as Hc. simpl in Hc.
    assert (free (pcs m) t ≤ free (pcs m ++ [Running i]) t); [|lia]. unfold free.
    destruct (pcs m !! t) eqn:Hl; [|lia]. by erewrite lookup_app_l_Some by done.
  - pose proof (calls_weight m i _ Refused t Hi) as Hc. simpl in Hc. lia.
  - pose proof (calls_weight m i _ Ran t Hi) as Hc. simpl in Hc. lia.
  - rewrite free_insert by (by eapply lookup_lt_Some). destruct (decide (t0 = t)) as [->|Heq]; [|done].
    unfold free in Hs. by rewrite Ht in Hs.
  - rewrite free_insert by (by eapply lookup_lt_Some). destruct (decide (t0 = t)) as [->|Heq]; [|done].
    unfold free in Hs. by rewrite Ht in Hs.
  - rewrite free_insert by (by eapply lookup_lt_Some).
    unfold entered in He. case_match; injection He as <- <-; destruct (decide (t0 = t)) as [->|Heq].
    + unfold free in Hs. by rewrite Ht in Hs.
    + done.
    + unfold free in Hs. rewrite Ht in Hs. rewrite count_app. unfold count at 2. simpl. rewrite Nat.eqb_refl. simpl. lia.
    + rewrite count_app. unfold count at 2. simpl. destruct (Nat.eqb_spec t t0); [congruence|]. simpl. lia.
  - rewrite free_insert by (by eapply lookup_lt_Some). destruct (decide (t0 = t)) as [->|Heq]; [|done].
    unfold received in Hr. destruct handed as [|work rest].
    + destruct (sender_of m t) eqn:Hso; [done|]. injection Hr as <-. unfold sender_of in Hso.
      apply orb_false_iff in Hso as [Hni%bool_decide_eq_false Hno].
      assert (count (Nat.eqb t) (idle m) = 0).
      { destruct (count (Nat.eqb t) (idle m)) eqn:Hc; [done|]. exfalso. apply Hni.
        assert (0 < count (Nat.eqb t) (idle m)) as (x & Hx & ->%Nat.eqb_eq)%count_pos by lia. done. }
      assert (sum_list_with (λ c, Nat.b2n (sends_to t c)) (calls m) = 0); [|lia].
      clear -Hno. induction (calls m) as [|c l IH]; [done|]. simpl in *. apply orb_false_iff in Hno as [-> ?]. simpl. auto.
    + injection Hr as <-. unfold free in Hs. by rewrite Ht in Hs.
  - unfold count. simpl. lia.
Qed.

Lemma handed_weight m i t th th' : pcs m !! t = Some th →
  sum_list_with (handed_in i) (<[t := th']> (pcs m)) + handed_in i th =
  sum_list_with (handed_in i) (pcs m) + handed_in i th'.
Proof. apply (weight_insert (handed_in i)). Qed.

Lemma took_insert m i c j : i < length (calls m) →
  took (<[i := c]> (calls m) !! j) = if decide (i = j) then took (Some c) else took (calls m !! j).
Proof.
  intros Hlt. destruct (decide (i = j)) as [->|]; [by rewrite list_lookup_insert_eq|by rewrite list_lookup_insert_ne].
Qed.

(** A call that has not begun its work goes to where it has not either. *)
Lemma runs_called m m' i c c' : workers_ok m → calls m !! i = Some c →
  calls m' = <[i := c']> (calls m) → took (Some c) = took (Some c') → started m' = started m → pcs m' = pcs m →
  ∀ j, runs m' j = took (calls m' !! j).
Proof.
  intros Hok Hi Hc Ht Hs Hp j. unfold runs. rewrite Hc, Hs, Hp, took_insert by (by eapply lookup_lt_Some).
  fold (runs m j). rewrite (wo_runs _ Hok). destruct (decide (i = j)) as [->|]; [by rewrite Hi|done].
Qed.

(** A thread goes on, its channel as it was. *)
Lemma runs_moved m m' t th th' : workers_ok m → pcs m !! t = Some th → pcs m' = <[t := th']> (pcs m) →
  (∀ j, handed_in j th = handed_in j th') → calls m' = calls m → started m' = started m →
  ∀ j, runs m' j = took (calls m' !! j).
Proof.
  intros Hok Ht Hp Hh Hc Hs j. unfold runs. rewrite Hc, Hs, Hp.
  pose proof (handed_weight m j t th th' Ht). rewrite (Hh j) in *.
  pose proof (wo_runs _ Hok j) as Hr. unfold runs in Hr. lia.
Qed.

Lemma count_one (i j : nat) : count (Nat.eqb j) [i] = if decide (i = j) then 1 else 0.
Proof.
  unfold count. simpl. destruct (Nat.eqb_spec j i), (decide (i = j)); simpl; congruence.
Qed.

Lemma runs_step asks m m' : workers_ok m → workers_step asks m m' → ∀ j, runs m' j = took (calls m' !! j).
Proof.
  intros Hok Hstep. pose proof (wo_runs _ Hok) as Hr.
  destruct Hstep as [m _|m i ts c Hi Hp|m i t0 th th' Hi Ht Hsent|m i t0 th Hi _ _|m i Hi|m i Hi|m i t0 Hi
    |m t0 work Ht|m t0 work Ht|m t0 ts pc Ht He|m t0 handed pc Ht Hrc|m _|m _|m _|m t0 rest _];
    try (by eapply runs_called; eauto); try (by eapply runs_moved; eauto); try (intros j; exact (Hr j)).
  - intros j. specialize (Hr j). unfold runs in *. simpl. rewrite Hr.
    destruct (decide (j < length (calls m))) as [Hlt|Hge].
    + by rewrite lookup_app_l.
    + rewrite lookup_app_r by lia. rewrite (lookup_ge_None_2 (calls m)) by lia.
      destruct (j - length (calls m)) as [|[|]] eqn:Hd; simpl; [|done..]. unfold asked. by destruct (stopped m).
  - apply popped_shorter in Hp as (_ & _ & [-> | [t ->]]); by eapply runs_called; eauto.
  - destruct (sending_free _ _ _ Hok Hi) as (Hw & _ & _). rewrite Hw in Ht. injection Ht as <-. injection Hsent as <-.
    intros j. specialize (Hr j). unfold runs in *. simpl. rewrite took_insert by (by eapply lookup_lt_Some).
    pose proof (handed_weight m j t0 _ (Waiting [i]) Hw) as Hh. simpl in Hh. rewrite count_nil, count_one in Hh.
    destruct (decide (i = j)) as [->|]; [|lia]. rewrite Hi in Hr. simpl in Hr. simpl. lia.
  - intros j. specialize (Hr j). unfold runs in *. simpl. rewrite took_insert by (by eapply lookup_lt_Some).
    rewrite count_app, sum_list_with_app, count_one. simpl. destruct (decide (i = j)) as [->|]; [|lia].
    rewrite Hi in Hr. simpl in Hr. lia.
  - unfold entered in He. case_match; injection He as <- <-; (eapply runs_moved; eauto; intros j; by rewrite ?count_nil).
  - intros j. specialize (Hr j). unfold runs in *. simpl. rewrite count_app.
    pose proof (handed_weight m j t0 _ pc Ht) as Hh. unfold received in Hrc. destruct handed as [|work rest].
    + destruct (sender_of m t0); [done|]. injection Hrc as <-. simpl in Hh. rewrite count_nil in Hh. rewrite count_nil. lia.
    + injection Hrc as <-. apply (wo_one _ Hok) in Ht. destruct rest; simpl in Ht; [|lia]. simpl in Hh. lia.
Qed.

Lemma one_step asks m m' : workers_ok m → workers_step asks m m' →
  ∀ t handed, pcs m' !! t = Some (Waiting handed) → length handed ≤ 1.
Proof.
  intros Hok Hstep t handed. pose proof (wo_one _ Hok t) as Ho.
  assert (∀ t0 th, pcs m !! t0 ≠ None → (∀ q, th = Waiting q → length q ≤ 1) →
    <[t0 := th]> (pcs m) !! t = Some (Waiting handed) → length handed ≤ 1) as Hset.
  { intros t0 th _ Hq. destruct (decide (t0 = t)) as [->|]; [|rewrite list_lookup_insert_ne by done; eauto].
    intros Hl. destruct (decide (t < length (pcs m))); [rewrite list_lookup_insert_eq in Hl by done|
      rewrite lookup_ge_None_2 in Hl by (rewrite length_insert; lia)]; simplify_eq. eauto. }
  destruct Hstep as [m _|m i ts c Hi Hp|m i t0 th th' Hi Ht Hsent|m i t0 th Hi _ _|m i Hi|m i Hi|m i t0 Hi
    |m t0 work Ht|m t0 work Ht|m t0 ts pc Ht He|m t0 q pc Ht Hrc|m _|m _|m _|m t0 rest _]; simpl; try (apply Ho);
    try (apply Hset; [congruence|]; try (by intros q [=])).
  - destruct (sending_free _ _ _ Hok Hi) as (Hw & _ & _). rewrite Hw in Ht. injection Ht as <-. injection Hsent as <-.
    intros q [= <-]. done.
  - intros [Hl|[_ Hl]]%lookup_app_Some; [eauto|]. apply list_lookup_singleton_Some in Hl as [_ [=]].
  - unfold entered in He. intros q ->. case_match; simplify_eq; simpl; lia.
  - unfold received in Hrc. intros q' ->. destruct q; [destruct (sender_of m t0)|]; done.
Qed.

Lemma idle_step asks m m' : workers_ok m → workers_step asks m m' → length (idle m') ≤ IDLE ∧ halted m'.
Proof.
  intros Hok Hstep. pose proof (wo_idle _ Hok) as Hi'. pose proof (wo_halted _ Hok) as Hh. unfold halted in *.
  destruct Hstep as [m _|m i ts c Hi Hp|m i t0 th th' Hi Ht Hsent|m i t0 th Hi _ _|m i Hi|m i Hi|m i t0 Hi
    |m t0 work Ht|m t0 work Ht|m t0 ts pc Ht He|m t0 q pc Ht Hrc|m Hst|m Hst|m Hst|m t0 rest Hst]; simpl in *;
    try rewrite Hst in Hh; try (by split); try (split; [done|lia]).
  - apply popped_shorter in Hp as (? & Hn & _). split; [lia|]. destruct (stopping m); try done; destruct Hh; auto.
  - unfold entered in He. destruct (stopped m || (IDLE <=? length (idle m))) eqn:Hc; simplify_eq; [done|].
    apply orb_false_iff in Hc as [Hs Hc%Nat.leb_gt]. rewrite length_app. simpl. split; [lia|].
    rewrite Hs in Hh. destruct (stopping m); naive_solver.
  - split; [unfold IDLE; lia|done].
Qed.

Lemma is_ended_insert pcs_ t0 th t : (∀ x, pcs_ !! t0 = Some x → x ≠ Ended) →
  is_ended pcs_ t = true → is_ended (<[t0 := th]> pcs_) t = true.
Proof.
  unfold is_ended. intros Hne He. destruct (decide (t0 = t)) as [->|]; [|by rewrite list_lookup_insert_ne].
  destruct (pcs_ !! t) as [[]|] eqn:Hl; try done. by destruct (Hne _ eq_refl).
Qed.

Lemma keeping_insert m i c c' t : calls m !! i = Some c → (∀ t, c ≠ Keeping t) →
  Keeping t ∈ calls m → Keeping t ∈ <[i := c']> (calls m).
Proof.
  intros Hi Hc [j Hj]%list_elem_of_lookup. apply list_elem_of_lookup. exists j.
  rewrite list_lookup_insert_ne; [done|]. intros ->. rewrite Hi in Hj. injection Hj as ->. by eapply Hc.
Qed.

(** Every thread not ended is one whose handle is kept, or is being kept. *)
Definition handles_kept (m : Workers) : Prop := ∀ t, t < length (pcs m) →
  is_ended (pcs m) t = true ∨ t ∈ threads m ∨ Keeping t ∈ calls m.

Lemma kept_thread m t0 x th : pcs m !! t0 = Some x → x ≠ Ended → handles_kept m →
  ∀ t, t < length (<[t0 := th]> (pcs m)) →
  is_ended (<[t0 := th]> (pcs m)) t = true ∨ t ∈ threads m ∨ Keeping t ∈ calls m.
Proof.
  intros Ht Hne Hk t. rewrite length_insert. intros [He|?]%Hk; [|by right]. left.
  apply is_ended_insert; [|done]. intros y Hy. by simplify_eq.
Qed.

Lemma kept_call m i c c' : calls m !! i = Some c → (∀ t, c ≠ Keeping t) → handles_kept m →
  ∀ t, t < length (pcs m) → is_ended (pcs m) t = true ∨ t ∈ threads m ∨ Keeping t ∈ <[i := c']> (calls m).
Proof. intros Hi Hc Hk t [?|[?|?]]%Hk; [by left|by right; left|]. right. right. by eapply keeping_insert. Qed.

Lemma kept_step asks m m' : workers_ok m → workers_step asks m m' →
  (∀ handles, stopping m' ≠ Joining handles) → handles_kept m'.
Proof.
  intros Hok Hstep. pose proof (wo_kept _ Hok) as Hk. fold (handles_kept m) in Hk. unfold handles_kept at 1.
  destruct Hstep as [m _|m i ts c Hi Hp|m i t0 th th' Hi Ht Hsent|m i t0 th Hi _ _|m i Hi|m i Hi|m i t0 Hi
    |m t0 work Ht|m t0 work Ht|m t0 ts pc Ht He|m t0 q pc Ht Hrc|m Hst|m Hst|m Hst|m t0 rest Hst]; simpl in *;
    intros Hno; try (by destruct (Hno _ eq_refl)); try specialize (Hk Hno);
    try (by eapply kept_call; eauto); try (by eapply kept_thread; eauto);
    try (specialize (Hk ltac:(rewrite Hst; discriminate)); by intros t [?|[?|?]]%Hk; auto).
  - intros t [?|[?|?]]%Hk; [by left|by right; left|]. right. right. apply elem_of_app. by left.
  - intros t Hlt. destruct (sending_free _ _ _ Hok Hi) as (Hw & _ & _). rewrite Hw in Ht. injection Ht as <-.
    eapply (kept_thread m t0 _ th') in Hlt as [?|[?|?]]; [by left|by right; left| |done|done|done].
    right. right. by eapply keeping_insert.
  - intros t. rewrite length_app. simpl. intros Hlt. destruct (decide (t < length (pcs m))) as [Hlt'|Hge].
    + destruct (Hk t Hlt') as [He|[?|?]]; [|by right; left|].
      * left. unfold is_ended in *. destruct (pcs m !! t) eqn:Hl; [|done]. by erewrite lookup_app_l_Some by done.
      * right. right. by eapply keeping_insert.
    + assert (t = length (pcs m)) as -> by lia. right. right. apply list_elem_of_lookup. exists i.
      apply list_lookup_insert_eq. by eapply lookup_lt_Some.
  - intros t Hlt. unfold kept. destruct (is_ended (pcs m) t) eqn:He; [by left|]. right.
    destruct (Hk t Hlt) as [?|[Hin|Hin]]; [congruence| |].
    + left. apply elem_of_app. left. apply list_elem_of_In, filter_In. rewrite He. split; [by apply list_elem_of_In|done].
    + destruct (decide (t = t0)) as [->|Hne]; [left; apply elem_of_app; right; by apply list_elem_of_singleton|].
      right. apply list_elem_of_lookup in Hin as [j Hj]. apply list_elem_of_lookup. exists j.
      rewrite list_lookup_insert_ne; [done|]. intros ->. rewrite Hi in Hj. by injection Hj as ->.
Qed.

Lemma workers_new_ok : workers_ok workers_new.
Proof.
  split.
  - intros t. unfold senders. simpl. lia.
  - done.
  - intros t handed [=].
  - unfold IDLE. simpl. lia.
  - done.
  - intros _ t. simpl. lia.
Qed.

Lemma workers_step_ok asks m m' : workers_ok m → workers_step asks m m' → workers_ok m'.
Proof.
  intros Hok Hstep. destruct (idle_step _ _ _ Hok Hstep).
  split; [by eapply senders_step|by eapply runs_step|by eapply one_step|done|done|by eapply kept_step].
Qed.

Lemma workers_run_ok asks m : rtc (workers_step asks) workers_new m → workers_ok m.
Proof. apply (rtc_invariant _ workers_ok); [|apply workers_new_ok]. intros. by eapply workers_step_ok. Qed.

(** ** Once the stop has cleared *)

Definition call_left (c : Call) : nat :=
  match c with Asked => 9 | Sending _ => 8 | Spawning => 7 | Keeping _ => 2 | Ran | Refused => 0 end.

Definition thread_left (th : Thread) : nat :=
  match th with Running _ => 2 | Answered => 1 | Waiting handed => 1 + 2 * length handed | Ended => 0 end.

Definition stop_left (m : Workers) : nat :=
  match stopping m with Joining handles => length handles | _ => 1 + length (threads m) end.

Definition left (m : Workers) : nat :=
  sum_list_with call_left (calls m) + sum_list_with thread_left (pcs m) + stop_left m.

(** The stop has let every waiting thread go. *)
Definition let_go (m : Workers) : Prop :=
  workers_ok m ∧ (stopping m = Cleared ∨ ∃ handles, stopping m = Joining handles).

Lemma let_go_halted m : let_go m → stopped m = true ∧ idle m = [].
Proof. intros [Hok Hst]. pose proof (wo_halted _ Hok) as Hh. unfold halted in Hh. by destruct Hst as [Hs|[? Hs]]; rewrite Hs in Hh. Qed.

Lemma kept_length pcs_ t l : length (kept pcs_ t l) ≤ Datatypes.S (length l).
Proof. unfold kept. rewrite length_app. simpl. pose proof (List.filter_length_le (λ t, negb (is_ended pcs_ t)) l). lia. Qed.

Lemma let_go_falls m m' : let_go m → workers_step false m m' → let_go m' ∧ left m' < left m.
Proof.
  intros Hlg Hstep. destruct (let_go_halted _ Hlg) as [Hs Hid]. destruct Hlg as [Hok Hst].
  split; [split; [by eapply workers_step_ok|]|].
  { destruct Hstep as [m _|m i ts c Hi Hp|m i t0 th th' Hi Ht Hsent|m i t0 th Hi _ _|m i Hi|m i Hi|m i t0 Hi
    |m t0 work Ht|m t0 work Ht|m t0 ts pc Ht He|m t0 q pc Ht Hrc|m Hn|m Hn|m Hn|m t0 rest Hn]; simpl in *; eauto;
    rewrite Hn in Hst; destruct Hst as [?|[? ?]]; congruence. }
  assert (∀ i c c', calls m !! i = Some c → sum_list_with call_left (<[i := c']> (calls m)) + call_left c =
    sum_list_with call_left (calls m) + call_left c') as Hc by (intros; by apply weight_insert).
  assert (∀ t th th', pcs m !! t = Some th → sum_list_with thread_left (<[t := th']> (pcs m)) + thread_left th =
    sum_list_with thread_left (pcs m) + thread_left th') as Ht' by (intros; by apply weight_insert).
  unfold left, stop_left in *.
  destruct Hstep as [m Hf|m i ts c Hi Hp|m i t0 th th' Hi Ht Hsent|m i t0 th Hi _ _|m i Hi|m i Hi|m i t0 Hi
    |m t0 work Ht|m t0 work Ht|m t0 ts pc Ht He|m t0 q pc Ht Hrc|m Hn|m Hn|m Hn|m t0 rest Hn]; simpl in *;
    try (rewrite Hn in Hst; destruct Hst as [?|[? ?]]; congruence); try discriminate Hf.
  - apply popped_shorter in Hp as (_ & _ & [-> | [t ->]]);
      [specialize (Hc _ _ Spawning Hi)|specialize (Hc _ _ (Sending t) Hi)]; simpl in *; lia.
  - specialize (Hc _ _ Ran Hi). specialize (Ht' _ _ th' Ht).
    destruct (sending_free _ _ _ Hok Hi) as (Hw & _ & _). rewrite Hw in Ht. injection Ht as <-. injection Hsent as <-.
    simpl in *. lia.
  - specialize (Hc _ _ Spawning Hi). simpl in *. lia.
  - specialize (Hc _ _ (Keeping (length (pcs m))) Hi). rewrite sum_list_with_app. simpl in *. lia.
  - specialize (Hc _ _ Refused Hi). simpl in *. lia.
  - specialize (Hc _ _ Ran Hi). pose proof (kept_length (pcs m) t0 (threads m)). simpl in *. destruct (stopping m); lia.
  - specialize (Ht' _ _ Answered Ht). simpl in *. lia.
  - specialize (Ht' _ _ Ended Ht). simpl in *. lia.
  - unfold entered in He. rewrite Hs in He. simpl in He. injection He as <- <-.
    specialize (Ht' _ _ Ended Ht). simpl in *. lia.
  - specialize (Ht' _ _ pc Ht). unfold received in Hrc.
    destruct q; [destruct (sender_of m t0); [done|]|]; injection Hrc as <-; simpl in *; lia.
  - rewrite Hn. simpl. lia.
  - rewrite Hn. simpl. lia.
Qed.

Lemma let_go_ends m : let_go m → (∀ m', ¬ workers_step false m m') →
  (∀ th, th ∈ pcs m → th = Ended) ∧ (∀ c, c ∈ calls m → c = Ran ∨ c = Refused) ∧ stopping m = Joining [].
Proof.
  intros Hlg Hno. destruct (let_go_halted _ Hlg) as [Hs Hid]. destruct Hlg as [Hok Hst].
  assert (∀ c, c ∈ calls m → c = Ran ∨ c = Refused) as Hcalls.
  { intros c [i Hi]%list_elem_of_lookup. destruct c; [..|by left|by right]; exfalso.
    - destruct (popped (idle m)) as [ts c] eqn:Hp. eapply Hno. by eapply workers_popped.
    - destruct (sending_free _ _ _ Hok Hi) as (Hw & _ & _). eapply Hno. by eapply workers_sent.
    - eapply Hno. by eapply workers_spawned.
    - eapply Hno. by eapply workers_kept. }
  split_and!; [|done|].
  - intros th [t Ht]%list_elem_of_lookup. destruct th as [work| |handed|]; [..|done]; exfalso.
    + eapply Hno. by eapply workers_answered.
    + destruct (entered (stopped m) t (idle m)) as [ts pc] eqn:He. eapply Hno. by eapply workers_entered.
    + destruct (received (sender_of m t) handed) as [pc|] eqn:Hr; [eapply Hno; by eapply workers_received|].
      unfold received in Hr. destruct handed; [|done]. destruct (sender_of m t) eqn:Hso; [|done].
      unfold sender_of in Hso. rewrite Hid in Hso. apply orb_true_iff in Hso as [Hin%bool_decide_eq_true|Hex].
      { by apply not_elem_of_nil in Hin. }
      apply existsb_exists in Hex as (c & Hc%list_elem_of_In & Hsc). destruct (Hcalls c Hc) as [-> | ->]; done.
  - destruct Hst as [Hst|[[|t rest] Hst]]; [|done|]; exfalso; eapply Hno.
    + by eapply workers_taken.
    + by eapply workers_joined.
Qed.

(** C26. Work handed to a listener's threads is run once or refused, however
    its threads, the calls that hand it over and a stop interleave: no work
    begins twice; what was refused never begins; what was taken has begun
    or is with a thread that waits only for it; a send to a waiting thread
    never fails; and at most [IDLE] threads wait. *)
Theorem work_runs_once asks m :
  rtc (workers_step asks) workers_new m →
  NoDup (started m) ∧ length (idle m) ≤ IDLE ∧
  (∀ i, i ∈ started m → calls m !! i = Some Ran ∨ ∃ t, calls m !! i = Some (Keeping t)) ∧
  (∀ i, calls m !! i = Some Ran → i ∈ started m ∨ ∃ t, pcs m !! t = Some (Waiting [i])) ∧
  (∀ i t, calls m !! i = Some (Sending t) → ∃ th, pcs m !! t = Some th ∧ is_Some (sent i th)).
Proof.
  intros Hok%workers_run_ok. pose proof (wo_runs _ Hok) as Hr. unfold runs in Hr.
  assert (∀ c, took c ≤ 1) as Hle by (intros [[]|]; simpl; lia).
  split_and!.
  - apply NoDup_ListNoDup, (NoDup_count_occ Nat.eq_dec). intros i. specialize (Hr i). specialize (Hle (calls m !! i)).
    rewrite count_occ_count. lia.
  - apply Hok.
  - intros i Hi%count_eqb_elem. specialize (Hr i). destruct (calls m !! i) as [[]|]; simpl in Hr; eauto; lia.
  - intros i Hi. specialize (Hr i). rewrite Hi in Hr. simpl in Hr.
    destruct (count (Nat.eqb i) (started m)) eqn:Hc.
    + right. destruct (handed_somewhere i (pcs m)) as (t & handed & Ht & Hin); [lia|]. exists t.
      pose proof (wo_one _ Hok _ _ Ht). destruct handed as [|x [|]]; simpl in *; [by apply not_elem_of_nil in Hin| |lia].
      apply list_elem_of_singleton in Hin as ->. done.
    + left. assert (0 < count (Nat.eqb i) (started m)) as (x & Hx & ->%Nat.eqb_eq)%count_pos by lia. done.
  - intros i t Hi. destruct (sending_free _ _ _ Hok Hi) as (Hw & _). eauto.
Qed.

(** A stop lets every waiting thread go: once it has cleared them, with
    nothing more asked for, no run is longer than what was left, and one
    that cannot go on has every thread ended, every call answered and every
    handle it took dealt with; and the handles it takes, where no call is
    under way, are those of every thread not ended. *)
Theorem stop_lets_threads_go m k m' :
  rtc (workers_step true) workers_new m → stopping m = Cleared →
  nsteps (workers_step false) k m m' →
  k + left m' ≤ left m ∧
  ((∀ c, c ∈ calls m → c = Ran ∨ c = Refused) → ∀ t, is_ended (pcs m) t = false → t < length (pcs m) → t ∈ threads m) ∧
  ((∀ m'', ¬ workers_step false m' m'') →
     (∀ th, th ∈ pcs m' → th = Ended) ∧ (∀ c, c ∈ calls m' → c = Ran ∨ c = Refused) ∧ stopping m' = Joining []).
Proof.
  intros Hok%workers_run_ok Hst Hrun.
  destruct (measure_bounds (workers_step false) let_go left let_go_falls k m m') as [Hk Hlg];
    [split; [done|by left]|done|].
  split_and!; [done| |by apply let_go_ends].
  intros Hcalls t Hlive Hlt. destruct (wo_kept _ Hok) with t as [?|[?|Hin]]; [by rewrite Hst|done|congruence|done|].
  by destruct (Hcalls _ Hin).
Qed.

(** A call that asked before a stop and goes on after it took the handles
    starts a thread it joins no more; a listener's accepting thread, the
    one that calls, has ended before its stop ([Listener::stop]). *)
Definition late_thread : Workers :=
  {| stopped := true; idle := []; threads := [0]; pcs := [Running 0]; calls := [Ran]; stopping := Joining [];
     started := [0] |}.

Lemma late_thread_reached : rtc (workers_step true) workers_new late_thread.
Proof.
  eapply rtc_l; [by apply workers_asked|]. simpl.
  eapply rtc_l; [by apply workers_stored|]. simpl.
  eapply rtc_l; [by apply workers_cleared|]. simpl.
  eapply rtc_l; [by apply workers_taken|]. simpl.
  eapply rtc_l; [by apply (workers_popped _ _ 0 [] Spawning)|]. simpl.
  eapply rtc_l; [by apply (workers_spawned _ _ 0)|]. simpl.
  eapply rtc_l; [by apply (workers_kept _ _ 0 0)|]. apply rtc_refl.
Qed.

(** One thread that answered and waits, as a stop has cleared it. *)
Definition one_waits : Workers :=
  {| stopped := false; idle := [0]; threads := [0]; pcs := [Waiting []]; calls := [Ran]; stopping := Never;
     started := [0] |}.

Lemma one_waits_reached : rtc (workers_step true) workers_new one_waits.
Proof.
  eapply rtc_l; [by apply workers_asked|]. simpl.
  eapply rtc_l; [by apply (workers_popped _ _ 0 [] Spawning)|]. simpl.
  eapply rtc_l; [by apply (workers_spawned _ _ 0)|]. simpl.
  eapply rtc_l; [by apply (workers_kept _ _ 0 0)|]. simpl.
  eapply rtc_l; [by apply (workers_answered _ _ 0 0)|]. simpl.
  eapply rtc_l; [by apply (workers_entered _ _ 0 [0] (Waiting []))|]. apply rtc_refl.
Qed.

Definition one_let_go : Workers := with_stop (with_stop one_waits true [0] [0] Stored) true [] [0] Cleared.

Lemma one_let_go_reached : rtc (workers_step true) workers_new one_let_go.
Proof.
  eapply rtc_r; [|by apply workers_cleared]. eapply rtc_r; [apply one_waits_reached|]. by apply workers_stored.
Qed.

Lemma work_runs_once_witness : NoDup [0] ∧ 1 ≤ IDLE.
Proof.
  destruct (work_runs_once true one_waits) as (Hnd & Hidle & _); [apply one_waits_reached|]. exact (conj Hnd Hidle).
Defined.

Lemma stop_lets_threads_go_witness : 1 + left (now_runs 0 Ended one_let_go) ≤ left one_let_go.
Proof.
  apply (stop_lets_threads_go one_let_go 1 (now_runs 0 Ended one_let_go)); [apply one_let_go_reached|reflexivity|].
  eapply nsteps_l; [|apply nsteps_O]. by apply (workers_received false one_let_go 0 [] Ended).
Defined.
