(* ===== verification/Deadline.v ===== *)
(** * How long a local call may wait: [src/plane/deadline.rs]

    A call on a named pipe is armed with the moment it may wait until; one
    thread of the process looks at every surface's call, cancels the read
    of one whose moment passed, and again each [AGAIN] until it has ended.
    The thread waits until the earliest moment its last look saw ([looks]),
    and is woken earlier only by a call armed for sooner ([sooner]).

    A surface is a number; its call is where the asking thread is. The lock
    of what is kept is held while the thread looks at each surface in turn,
    each under its own lock; a call is armed and disarmed under the
    surface's. Moments are of one clock that moves on at any time. A wait
    on a condition variable may end for no reason. *)

From stdpp Require Import base numbers list relations gmap option strings pretty.
From S2P Require Import Prelude.
Local Open Scope N_scope.

(** [AGAIN], in milliseconds. *)
Definition AGAIN : N := 1.

(** ** A surface's deadline: [Armed], [Deadline] *)

Record Armed := { until : option N; fired : bool }.

Definition armed_new : Armed := {| until := None; fired := false |}.

(** [Deadline::arm], under its lock. *)
Definition arm (u : N) (a : Armed) : Armed := {| until := Some u; fired := false |}.

(** [Deadline::disarm]: whether its deadline passed first. *)
Definition disarm (a : Armed) : Armed * bool := (armed_new, fired a).

(** [Deadline::passed]. *)
Definition passed (a : Armed) : bool := fired a.

(** [sooner], under the kept's lock: whether the thread is woken. *)
Definition sooner (u : N) (looks : option N) : bool :=
  match looks with None => true | Some l => u <? l end.

(** ** The thread's look: [watch] *)

(** One surface looked at: what its deadline is then, whether its read is
    cancelled, and when it is due to be looked at again. *)
Definition looked (now : N) (a : Armed) : Armed * bool * option N :=
  match fired a, until a with
  | true, _ => (a, true, Some (now + AGAIN))
  | false, Some u =>
      if u <=? now then ({| until := None; fired := true |}, true, Some (now + AGAIN)) else (a, false, Some u)
  | false, None => (a, false, None)
  end.

(** The earlier of when the rest are due and it is. *)
Definition earliest (next due : option N) : option N :=
  match next, due with
  | Some n, Some d => Some (N.min n d)
  | Some n, None => Some n
  | None, due => due
  end.

(** [not_answered], of a wait in milliseconds. *)
Definition not_answered (millis : N) : string :=
  "the node did not answer within " +:+
  (if millis mod 1000 =? 0 then pretty (millis / 1000) +:+ " s" else pretty millis +:+ " ms").

(** ** Interleaved *)

(** Where a surface's asking thread is: a call armed, and then told to the
    thread that looks; in flight; or none. *)
Inductive Call :=
  | None_
  | Telling (u : N)
  | Flying (u : N).

Record Surface := { s_armed : Armed; s_call : Call; s_ended : bool; s_cancelled : list N }.

(** Where the thread is: looking, at what is left, kept so far and the
    earliest due, since [now]; waiting, and whether it was told. *)
Inductive Watch :=
  | Looking (now : N) (todo kept : list nat) (next : option N)
  | Asleep (told : bool).

Record Deadlines := {
  clock : N;
  surfaces : list Surface;
  kept : list nat;
  looks : option N;
  looked_at : N;
  watch : Watch
}.

Definition deadlines_new : Deadlines :=
  {| clock := 0; surfaces := []; kept := []; looks := None; looked_at := 0; watch := Looking 0 [] [] None |}.

Definition with_surface (m : Deadlines) (s : nat) (x : Surface) : Deadlines :=
  {| clock := clock m; surfaces := <[s := x]> (surfaces m); kept := kept m; looks := looks m;
     looked_at := looked_at m; watch := watch m |}.

Definition with_watch (m : Deadlines) (ks : list nat) (w : Watch) : Deadlines :=
  {| clock := clock m; surfaces := surfaces m; kept := ks; looks := looks m; looked_at := looked_at m; watch := w |}.

(** A surface as the thread leaves it, a cancel of its call kept with the
    moment its deadline was. *)
Definition after_look (now : N) (x : Surface) : Surface :=
  let '(a, cancels, _) := looked now (s_armed x) in
  {| s_armed := a; s_call := s_call x; s_ended := s_ended x;
     s_cancelled := s_cancelled x ++ if cancels then [now] else [] |}.

Definition with_call (x : Surface) (a : Armed) (c : Call) : Surface :=
  {| s_armed := a; s_call := c; s_ended := s_ended x; s_cancelled := [] |}.

Inductive deadline_step : Deadlines → Deadlines → Prop :=
  | deadline_ticks m d :
      deadline_step m {| clock := clock m + d; surfaces := surfaces m; kept := kept m; looks := looks m;
                         looked_at := looked_at m; watch := watch m |}
  (** A surface opened, and kept. *)
  | deadline_opens m told :
      watch m = Asleep told →
      deadline_step m
        {| clock := clock m;
           surfaces := surfaces m ++ [{| s_armed := armed_new; s_call := None_; s_ended := false; s_cancelled := [] |}];
           kept := kept m ++ [length (surfaces m)]; looks := looks m; looked_at := looked_at m; watch := watch m |}
  | deadline_arms m s x u :
      surfaces m !! s = Some x → s_call x = None_ →
      deadline_step m (with_surface m s (with_call x (arm u (s_armed x)) (Telling u)))
  | deadline_tells m s x u told :
      surfaces m !! s = Some x → s_call x = Telling u → watch m = Asleep told →
      deadline_step m
        (with_watch (with_surface m s {| s_armed := s_armed x; s_call := Flying u; s_ended := s_ended x;
                                         s_cancelled := s_cancelled x |})
           (kept m) (Asleep (told || sooner u (looks m))))
  | deadline_disarms m s x u :
      surfaces m !! s = Some x → s_call x = Flying u →
      deadline_step m (with_surface m s (with_call x (disarm (s_armed x)).1 None_))
  | deadline_ends m s x :
      surfaces m !! s = Some x →
      deadline_step m
        (with_surface m s {| s_armed := s_armed x; s_call := s_call x; s_ended := true; s_cancelled := s_cancelled x |})
  (** The thread looks at the next surface, or lets it go. *)
  | deadline_looks m now s todo ks next x :
      watch m = Looking now (s :: todo) ks next → surfaces m !! s = Some x → s_ended x = false →
      deadline_step m
        (with_watch (with_surface m s (after_look now x)) (kept m)
           (Looking now todo (ks ++ [s]) (earliest next (looked now (s_armed x)).2)))
  | deadline_lets_go m now s todo ks next x :
      watch m = Looking now (s :: todo) ks next → surfaces m !! s = Some x → s_ended x = true →
      deadline_step m (with_watch m (kept m) (Looking now todo ks next))
  | deadline_sleeps m now ks next :
      watch m = Looking now [] ks next →
      deadline_step m
        {| clock := clock m; surfaces := surfaces m; kept := ks; looks := next; looked_at := now;
           watch := Asleep false |}
  (** It wakes: told, at its time, or for no reason. *)
  | deadline_wakes m told :
      watch m = Asleep told → deadline_step m (with_watch m (kept m) (Looking (clock m) (kept m) [] None)).

(** The thread sleeps on: not told, and not at its time. *)
Definition sleeps (m : Deadlines) : Prop :=
  watch m = Asleep false ∧ match looks m with Some l => clock m < l | None => True end.

(** ** What holds however they interleave *)

(** The moment of the thread's last look. *)
Definition last_look (m : Deadlines) : N :=
  match watch m with Looking now _ _ _ => now | Asleep _ => looked_at m end.

(** A surface's deadline, as its call stands, the last look at [now]. *)
Definition deadline_ok (now : N) (x : Surface) : Prop :=
  match s_call x with
  | None_ => s_armed x = armed_new ∧ s_cancelled x = []
  | Telling u | Flying u =>
      (s_armed x = {| until := Some u; fired := false |} ∧ s_cancelled x = []) ∨
      (s_armed x = {| until := None; fired := true |} ∧ s_cancelled x ≠ [] ∧
       ∀ c, c ∈ s_cancelled x → u ≤ c ∧ c ≤ now)
  end.

(** When a surface is to be looked at again, at the latest, after a look at
    [at_]. *)
Definition owes (at_ : N) (x : Surface) : option N :=
  if fired (s_armed x) then Some (at_ + AGAIN)
  else match s_call x with Flying u => Some u | _ => None end.

Definition reached (next : option N) (d : N) : Prop := match next with Some l => l ≤ d | None => False end.

Definition watched (m : Deadlines) (s : nat) (x : Surface) : Prop :=
  match watch m with
  | Asleep told => s ∈ kept m ∧ ∀ d, owes (looked_at m) x = Some d → told = true ∨ reached (looks m) d
  | Looking now todo ks next => s ∈ todo ∨ (s ∈ ks ∧ ∀ d, owes now x = Some d → reached next d)
  end.

Record deadlines_ok (m : Deadlines) : Prop := {
  do_deadlines : ∀ s x, surfaces m !! s = Some x → deadline_ok (last_look m) x;
  do_watched : ∀ s x, surfaces m !! s = Some x → s_ended x = false → watched m s x;
  do_clock : last_look m ≤ clock m
}.

Lemma reached_earliest next due d : reached next d ∨ reached due d → reached (earliest next due) d.
Proof. destruct next, due; simpl; intros [?|?]; try done; lia. Qed.

Lemma deadline_ok_later n n' x : n ≤ n' → deadline_ok n x → deadline_ok n' x.
Proof.
  unfold deadline_ok. intros Hle. destruct (s_call x); [done| |];
    (intros [?|(? & ? & Hc)]; [by left|right; split_and!; [done..|]; intros c [? ?]%Hc; lia]).
Qed.

(** A look cancels just where the call's moment has passed, and says when
    it is to look again. *)
Lemma look_spec now x : deadline_ok now x →
  deadline_ok now (after_look now x) ∧
  (∀ d, owes now (after_look now x) = Some d → reached (looked now (s_armed x)).2 d) ∧
  (∀ u, s_call x = Flying u → u ≤ now → s_cancelled (after_look now x) = s_cancelled x ++ [now]) ∧
  s_ended (after_look now x) = s_ended x ∧ s_call (after_look now x) = s_call x.
Proof.
  unfold after_look, owes, looked, deadline_ok. destruct x as [a call ended cs]. simpl.
  intros Hd. destruct call as [|u|u].
  { destruct Hd as [-> ->]. simpl. split_and!; naive_solver. }
  all: destruct Hd as [[-> ->]|(-> & Hn & Hc)]; simpl.
  1,3: destruct (N.leb_spec u now) as [Hp|Hp]; simpl; split_and!; try done; try (by left); try (intros d [= <-]; simpl; lia);
    try (right; split_and!; [done..|]; intros c ->%list_elem_of_singleton; lia); intros ? [= <-]; lia.
  all: split_and!; try done; try (intros d [= <-]; simpl; lia); right; (split_and!; [done|by destruct cs|]);
    intros c [?%Hc|Hin]%elem_of_app; [lia|]; apply list_elem_of_singleton in Hin as ->;
    (destruct cs as [|c0 l]; [done|]); destruct (Hc c0) as [? ?]; [by left|]; lia.
Qed.

(** A surface changed: every other as it was. *)
Lemma surface_cases (l : list Surface) s x s' x' : <[s := x]> l !! s' = Some x' →
  (s' = s ∧ x' = x) ∨ (s' ≠ s ∧ l !! s' = Some x').
Proof. intros [(-> & -> & _)|[? ?]]%list_lookup_insert_Some; auto. Qed.

Lemma with_surface_ok m s x x' : deadlines_ok m → surfaces m !! s = Some x → deadline_ok (last_look m) x' →
  (s_ended x' = false → s_ended x = false) → (∀ at_ d, owes at_ x' = Some d → owes at_ x = Some d) →
  deadlines_ok (with_surface m s x').
Proof.
  intros [Hd Hw Hc] Hs Hx' He Ho. split; [| |done].
  - intros s' y [[-> ->]|[_ Hy]]%surface_cases; [done|]. by eapply Hd.
  - intros s' y [[-> ->]|[_ Hy]]%surface_cases Hey; [|by eapply Hw].
    specialize (Hw _ _ Hs (He Hey)). unfold watched in *. simpl.
    destruct (watch m); [destruct Hw as [?|[? Hr]]; [by left|right]|destruct Hw as [? Hr]]; (split; [done|]);
      intros d Hod%Ho; by apply Hr.
Qed.

Lemma deadline_step_ok m m' : deadlines_ok m → deadline_step m m' → deadlines_ok m'.
Proof.
  intros Hok Hstep. pose proof Hok as [Hd Hw Hc].
  destruct Hstep as [m d|m told Ht|m s x u Hs Hcall|m s x u told Hs Hcall Ht|m s x u Hs Hcall|m s x Hs
    |m now s todo ks next x Ht Hs He|m now s todo ks next x Ht Hs He|m now ks next Ht|m told Ht].
  - split; [exact Hd|exact Hw|]. unfold last_look in *. simpl. destruct (watch m); lia.
  - unfold last_look, watched in *. rewrite Ht in Hd, Hw, Hc. split; unfold last_look, watched; simpl; rewrite ?Ht; [| |done].
    + intros s' y [Hy|[_ [_ Hy]%list_lookup_singleton_Some]]%lookup_app_Some; [by eapply Hd|]. subst y. done.
    + intros s' y [Hy|[Hge [Heq Hy]%list_lookup_singleton_Some]]%lookup_app_Some Hey.
      * destruct (Hw _ _ Hy Hey) as [? ?]. split; [apply elem_of_app; by left|done].
      * subst y. split; [|by intros d [=]]. apply elem_of_app. right. apply list_elem_of_singleton. lia.
  - eapply with_surface_ok; [done..| |done|].
    + left. done.
    + intros at_ d [=].
  - specialize (Hd _ _ Hs) as Hx. unfold last_look, watched in *. rewrite Ht in Hd, Hw, Hc, Hx.
    split; unfold last_look, watched; simpl; [| |done].
    + intros s' y [[-> ->]|[_ Hy]]%surface_cases; [|by eapply Hd]. unfold deadline_ok in *. rewrite Hcall in Hx. done.
    + intros s' y [[-> ->]|[_ Hy]]%surface_cases Hey.
      * destruct (Hw _ _ Hs Hey) as [Hin Hr]. split; [done|]. intros d. unfold owes in *. simpl. rewrite Hcall in Hr.
        destruct (fired (s_armed x)); [intros [= <-]; destruct (Hr _ eq_refl) as [-> |?]; auto|].
        intros [= <-]. unfold sooner, reached. destruct (looks m) as [l|]; [|by left; rewrite orb_true_r].
        destruct (N.ltb_spec u l); [by left; rewrite orb_true_r|by right].
      * destruct (Hw _ _ Hy Hey) as [? Hr]. split; [done|]. intros d [-> |?]%Hr; auto.
  - eapply with_surface_ok; [done..| |done|]; [done|intros at_ d [=]].
  - eapply with_surface_ok; [done..| |done|done]. exact (Hd _ _ Hs).
  - pose proof (Hd _ _ Hs) as Hx. unfold last_look, watched in *. rewrite Ht in Hd, Hw, Hc, Hx.
    destruct (look_spec _ _ Hx) as (Hx' & Hr & _ & He' & _).
    split; unfold last_look, watched; simpl; [| |done].
    + intros s' y [[-> ->]|[_ Hy]]%surface_cases; [done|by eapply Hd].
    + intros s' y [[-> ->]|[Hne Hy]]%surface_cases Hey.
      * right. split; [apply elem_of_app; right; by apply list_elem_of_singleton|].
        intros d Hod%Hr. apply reached_earliest. by right.
      * destruct (Hw _ _ Hy Hey) as [Hin|[Hin Hr']].
        -- apply elem_of_cons in Hin as [->|?]; [done|by left].
        -- right. split; [apply elem_of_app; by left|]. intros d Hod%Hr'. apply reached_earliest. by left.
  - unfold last_look, watched in *. rewrite Ht in Hd, Hw, Hc. split; unfold last_look, watched; simpl; [done| |done].
    intros s' y Hy Hey. destruct (Hw _ _ Hy Hey) as [Hin|?]; [|by right].
    apply elem_of_cons in Hin as [->|?]; [|by left]. rewrite Hs in Hy. injection Hy as <-. congruence.
  - unfold last_look, watched in *. rewrite Ht in Hd, Hw, Hc. split; unfold last_look, watched; simpl; [done| |done].
    intros s' y Hy Hey. destruct (Hw _ _ Hy Hey) as [Hin|[? Hr]]; [by apply not_elem_of_nil in Hin|].
    split; [done|]. intros d Hod%Hr. by right.
  - unfold last_look, watched in *. rewrite Ht in Hd, Hw, Hc. split; unfold last_look, watched; simpl; [| |lia].
    + intros s' y Hy. eapply deadline_ok_later; [exact Hc|]. by eapply Hd.
    + intros s' y Hy Hey. left. by destruct (Hw _ _ Hy Hey).
Qed.

Lemma deadlines_run_ok m : rtc deadline_step deadlines_new m → deadlines_ok m.
Proof.
  apply (rtc_invariant _ deadlines_ok); [intros; by eapply deadline_step_ok|]. split; simpl; [by intros s x [=]..|].
  unfold last_look. simpl. lia.
Qed.

(** C27. A call's deadline is kept, however its arming, its end and the one
    thread that looks interleave: the thread never sleeps past the moment
    of a call in flight, nor more than [AGAIN] after a look where one whose
    moment passed has not ended; a look past a call's moment cancels its
    read; a read is cancelled only past the moment of the very call it is
    for; and a call's end says its deadline passed just where it was. *)
Theorem deadline_kept m :
  rtc deadline_step deadlines_new m → ∀ s x, surfaces m !! s = Some x →
  (s_ended x = false → sleeps m → fired (s_armed x) = true → clock m < looked_at m + AGAIN) ∧
  (s_ended x = false → sleeps m → ∀ u, s_call x = Flying u → fired (s_armed x) = false → clock m < u) ∧
  (∀ now todo ks next u, watch m = Looking now (s :: todo) ks next → s_call x = Flying u → u ≤ now →
     s_cancelled (after_look now x) = s_cancelled x ++ [now]) ∧
  (∀ c, c ∈ s_cancelled x → ∃ u, (s_call x = Telling u ∨ s_call x = Flying u) ∧ u ≤ c ∧ c ≤ clock m) ∧
  ((disarm (s_armed x)).2 = true ↔ s_cancelled x ≠ []).
Proof.
  intros [Hd Hw Hc]%deadlines_run_ok s x Hs. pose proof (Hd _ _ Hs) as Hx.
  assert (s_ended x = false → sleeps m → ∀ d, owes (looked_at m) x = Some d → clock m < d) as Hsleeps.
  { intros He [Ha Hl] d Hod. specialize (Hw _ _ Hs He). unfold watched in Hw. rewrite Ha in Hw.
    destruct Hw as [_ Hw]. destruct (Hw _ Hod) as [?|Hr]; [done|]. unfold reached in Hr.
    destruct (looks m); [lia|done]. }
  split_and!.
  - intros He Hsl Hf. apply Hsleeps; [done..|]. unfold owes. by rewrite Hf.
  - intros He Hsl u Hcall Hf. apply Hsleeps; [done..|]. unfold owes. by rewrite Hf, Hcall.
  - intros now todo ks next u Ht Hcall Hle. unfold last_look in Hx. rewrite Ht in Hx.
    by apply (look_spec _ _ Hx) with u.
  - intros c Hin. unfold deadline_ok in Hx. destruct (s_call x) as [|u|u]; [|exists u; split; [by auto|]..].
    + destruct Hx as [_ Hn]. rewrite Hn in Hin. by apply not_elem_of_nil in Hin.
    + destruct Hx as [[_ Hn]|(_ & _ & Hcs)]; [rewrite Hn in Hin; by apply not_elem_of_nil in Hin|].
      destruct (Hcs _ Hin). lia.
    + destruct Hx as [[_ Hn]|(_ & _ & Hcs)]; [rewrite Hn in Hin; by apply not_elem_of_nil in Hin|].
      destruct (Hcs _ Hin). lia.
  - simpl. unfold deadline_ok in Hx. destruct (s_call x); [by destruct Hx as [-> ->]| |];
      by destruct Hx as [[-> ->]|(-> & ? & _)].
Qed.

(** One surface, its call's moment passed while the thread slept on it. *)
Definition one_flying : Deadlines :=
  {| clock := 1; surfaces := [{| s_armed := {| until := Some 5; fired := false |}; s_call := Flying 5;
       s_ended := false; s_cancelled := [] |}]; kept := [0%nat]; looks := Some 5; looked_at := 1; watch := Asleep false |}.

Lemma one_flying_reached : rtc deadline_step deadlines_new one_flying.
Proof.
  eapply rtc_l; [by apply (deadline_sleeps _ 0 [] None)|]. simpl.
  eapply rtc_l; [by apply (deadline_opens _ false)|]. simpl.
  eapply rtc_l; [by eapply (deadline_arms _ 0%nat _ 5)|]. simpl.
  eapply rtc_l; [by eapply (deadline_tells _ 0%nat _ 5 false)|]. simpl.
  eapply rtc_l; [by apply (deadline_ticks _ 1)|]. simpl.
  eapply rtc_l; [by eapply (deadline_wakes _ true)|]. simpl.
  eapply rtc_l; [by eapply (deadline_looks _ 1 0%nat [] [] None)|]. simpl.
  eapply rtc_l; [by eapply (deadline_sleeps _ 1 [0%nat] (Some 5))|]. apply rtc_refl.
Qed.

Lemma deadline_kept_witness : clock one_flying < 5.
Proof.
  apply (deadline_kept one_flying one_flying_reached 0%nat
    {| s_armed := {| until := Some 5; fired := false |}; s_call := Flying 5; s_ended := false; s_cancelled := [] |});
    [reflexivity..|split; [reflexivity|vm_compute; reflexivity]|reflexivity|reflexivity].
Defined.
