(* ===== verification/Validated.v ===== *)
(** * What of a configuration starts: [src/execution_tree.rs]

    Startup phases 2 and 3: a node's document validated, the Xmip
    Applications it names bound, and what starts taken from both. The
    document, a binding and what each technology declares are the
    configuration crate's: its fields are those the source reads, and its
    own checks are [Configure]'s functions. [[tuning]] is held to the
    runtime's declaration of it by [Tuning.read]. *)

From Stdlib Require Import Ascii String.
From stdpp Require Import base numbers list gmap strings.
From S2P Require Import Prelude Text Tuning.
Local Open Scope string_scope.

(** ** The document, as far as it is read here *)

(** What a Module claims to serve, and the host it is written for. *)
Record Claim := { cap_name : string; cap_host : string; cap_trusted : bool }.

Record ModuleConfiguration := {
  m_name : string;
  m_start : bool;
  m_identity : string;
  m_capabilities : list Claim;
  m_symbol : option string;
  m_library_path : option string;
  m_executable_path : option string
}.

Record ExtensionManifest := { x_name : string; x_version : string; x_path : string }.

Record WorkProcessConfiguration := {
  w_name : string;
  w_start : bool;
  w_required_modules : list string;
  w_extensions : list ExtensionManifest
}.

Record ConfiguredLocation := {
  l_name : string;
  l_address : string;
  l_start : bool;
  l_contract : option string;
  l_accept_mechanism : list string;
  l_accept_party : list string
}.

Inductive Applies := Receive | Send.

(** A binding's Locations. *)
Record Binding := { b_receive_locations : list ConfiguredLocation; b_send_ports : list ConfiguredLocation }.

Record XmipApplication := { a_work_processes : list (string * option string) }.

Section validated.
(** What else the document and a bound document hold. *)
Context {Rest Bound : Type}.

Record Document := {
  modules : list ModuleConfiguration;
  work_processes : list WorkProcessConfiguration;
  receive_locations : list ConfiguredLocation;
  send_locations : list ConfiguredLocation;
  applications : list Binding;
  rest : Rest
}.

(** A document with the Applications it names bound. *)
Record BoundDocument := {
  bound_receive_locations : list ConfiguredLocation;
  bound_send_locations : list ConfiguredLocation;
  bound_rest : Bound
}.

(** The configuration crate's checks, each its problems in words, and its
    binding; what of a document [[tuning]] gives. *)
Class Configure := {
  location_problems : ConfiguredLocation → Applies → list string;
  binding_problems : Document → list string;
  step_problems : Document → list string;
  tuning_given : Document → result Read (list string);
  storage_problems : Document → list string;
  database_problems : Document → list string;
  bind : Document → list XmipApplication → result BoundDocument (list string);
  bound_problems : Document → BoundDocument → list (string * string) → list string
}.

Context `{Configure}.

(** ** Validated: [validate_startup_configuration] *)

Record Report := { errors : list string; warnings : list string }.

(** [is_valid]. *)
Definition is_valid (r : Report) : bool := bool_decide (errors r = []).

Definition says (unsaid : bool) (problem : string) : list string := if unsaid then [problem] else [].

Definition module_errors (m : ModuleConfiguration) : list string :=
  says (blank (m_name m)) "configured module requires a name".

Definition module_warnings (m : ModuleConfiguration) : list string :=
  says (bool_decide (m_capabilities m = [])) ("module '" +:+ m_name m +:+ "' declares no capabilities").

Definition configured_modules (d : Document) : list string := m_name <$> modules d.

Definition started_modules (d : Document) : list string := m_name <$> List.filter m_start (modules d).

(** [validate_required_module]: its errors and its warnings. *)
Definition required_errors (configured : list string) (owner required : string) : list string :=
  says (negb (bool_decide (required ∈ configured))) (owner +:+ " requires missing module '" +:+ required +:+ "'").

Definition required_warnings (configured started : list string) (owner required : string) : list string :=
  says (bool_decide (required ∈ configured) && negb (bool_decide (required ∈ started)))
    (owner +:+ " requires module '" +:+ required +:+ "', but it is configured not to start").

(** [verify_extension_manifest]. *)
Definition extension_errors (owner : string) (x : ExtensionManifest) : list string :=
  says (blank (x_name x)) (owner +:+ " references an extension without a name") ++
  says (blank (x_version x)) ("extension '" +:+ x_name x +:+ "' requires a version") ++
  says (blank (x_path x)) ("extension '" +:+ x_name x +:+ "' requires an entrypoint path").

Definition owner_of (w : WorkProcessConfiguration) : string := "Work Process '" +:+ w_name w +:+ "'".

Definition work_process_errors (configured : list string) (w : WorkProcessConfiguration) : list string :=
  says (blank (w_name w)) "configured Work Process requires a name" ++
  (w_required_modules w ≫= required_errors configured (owner_of w)) ++
  (w_extensions w ≫= extension_errors (owner_of w)).

Definition work_process_warnings (configured started : list string) (w : WorkProcessConfiguration) : list string :=
  w_required_modules w ≫= required_warnings configured started (owner_of w).

(** [validate_location]. *)
Definition location_errors (stage : string) (l : ConfiguredLocation) : list string :=
  says (blank (l_name l)) ("configured " +:+ stage +:+ " requires a name") ++
  says (blank (l_address l)) (stage +:+ " '" +:+ l_name l +:+ "' requires an address").

Definition own_location_errors (stage : string) (side : Applies) (l : ConfiguredLocation) : list string :=
  location_errors stage l ++ location_problems l side.

Definition bound_location_errors (b : Binding) : list string :=
  (b_receive_locations b ≫= λ l, location_problems l Receive) ++ (b_send_ports b ≫= λ l, location_problems l Send).

Definition problems_of {A E} (r : result A (list E)) : list E := match r with Ok _ => [] | Err e => e end.

Definition validate_startup_configuration (d : Document) : Report :=
  let configured := configured_modules d in
  let started := started_modules d in
  {| errors :=
       (modules d ≫= module_errors) ++
       (work_processes d ≫= work_process_errors configured) ++
       (receive_locations d ≫= own_location_errors "Receive Location" Receive) ++
       (send_locations d ≫= own_location_errors "Send Location" Send) ++
       (applications d ≫= bound_location_errors) ++
       binding_problems d ++ step_problems d ++ problems_of (Tuning.read (tuning_given d)) ++
       storage_problems d ++ database_problems d;
     warnings := (modules d ≫= module_warnings) ++ (work_processes d ≫= work_process_warnings configured started) |}.

(** ** Built: [build_execution_tree] *)

Record VerifiedExtension := { v_name : string; v_version : string; v_loaded_during_startup : bool }.

(** [verified_extension]. *)
Definition verified_extension (x : ExtensionManifest) : VerifiedExtension :=
  {| v_name := x_name x; v_version := x_version x; v_loaded_during_startup := false |}.

Record ExecutionTree := {
  modules_to_start : list ModuleConfiguration;
  work_processes_to_start : list WorkProcessConfiguration;
  receive_locations_to_start : list ConfiguredLocation;
  receive_locations_not_started : list string;
  send_locations_to_start : list ConfiguredLocation;
  send_locations_not_started : list string;
  verified_extensions : list VerifiedExtension;
  tuning : Tuning.Tuning;
  work_process_sets : list (string * string);
  tree_bound : Bound;
  tree_rest : Rest
}.

(** [starting]. *)
Definition starting (locations : list ConfiguredLocation) : list ConfiguredLocation * list string :=
  (List.filter l_start locations, l_name <$> List.filter (λ l, negb (l_start l)) locations).

(** Each Work Process of the Applications that names a set, with it. *)
Definition sets_of (apps : list XmipApplication) : list (string * string) :=
  omap (λ process, pair (fst process) <$> snd process) (apps ≫= a_work_processes).

Definition build_execution_tree (d : Document) (apps : list XmipApplication) : result (ExecutionTree * Report) Report :=
  let report := validate_startup_configuration d in
  if negb (is_valid report) then Err report
  else
    match bind d apps with
    | Err problems => Err {| errors := errors report ++ problems; warnings := warnings report |}
    | Ok bound =>
        match bound_problems d bound (sets_of apps) with
        | [] =>
            match Tuning.read (tuning_given d) with
            | Err problems => Err {| errors := problems; warnings := [] |}
            | Ok tuning =>
                let processes := List.filter w_start (work_processes d) in
                let '(receive, receive_known) := starting (receive_locations d ++ bound_receive_locations bound) in
                let '(send, send_known) := starting (send_locations d ++ bound_send_locations bound) in
                Ok ({| modules_to_start := List.filter m_start (modules d);
                       work_processes_to_start := processes;
                       receive_locations_to_start := receive;
                       receive_locations_not_started := receive_known;
                       send_locations_to_start := send;
                       send_locations_not_started := send_known;
                       verified_extensions := verified_extension <$> (processes ≫= w_extensions);
                       tuning := tuning;
                       work_process_sets := sets_of apps;
                       tree_bound := bound_rest bound;
                       tree_rest := rest d |}, report)
            end
        | unset => Err {| errors := errors report ++ unset; warnings := warnings report |}
        end
    end.

(** [not_started]: each Location known and not started, by its stage. *)
Definition not_started (tree : ExecutionTree) : list (string * string) :=
  (pair "receive" <$> receive_locations_not_started tree) ++ (pair "send" <$> send_locations_not_started tree).

(** ** What a tree built is *)

(** A refusal names a problem, as each documents. *)
Class ConfigureLaws : Prop := {
  bind_told d apps : bind d apps ≠ Err [];
  tuning_told d : tuning_given d ≠ Err []
}.

Lemma says_nil unsaid problem : says unsaid problem = [] ↔ unsaid = false.
Proof. by destruct unsaid. Qed.

Lemma mbind_nil {A B} (f : A → list B) l x : l ≫= f = [] → x ∈ l → f x = [].
Proof.
  intros Hl Hx. destruct (f x) as [|y r] eqn:Hf; [done|].
  assert (y ∈ l ≫= f) as Hy; [|rewrite Hl in Hy; by apply elem_of_nil in Hy].
  apply list_elem_of_bind. exists x. rewrite Hf. split; [by left|done].
Qed.

Lemma tuning_read_told `{!ConfigureLaws} d e : Tuning.read (tuning_given d) = Err e → e ≠ [].
Proof.
  unfold Tuning.read. pose proof (tuning_told d) as Hd. destruct (tuning_given d) as [r|e'].
  - cbn. case_match; [done|]. by intros [= <-].
  - simpl. intros [= <-]. congruence.
Qed.

(** What a started Work Process of a document that validates has: a name,
    every Module it requires configured — and started, or its warning said —
    and each Extension's name, version and entrypoint. *)
Definition process_ready (d : Document) (w : WorkProcessConfiguration) : Prop :=
  blank (w_name w) = false ∧
  (∀ required, required ∈ w_required_modules w → required ∈ configured_modules d ∧
     (required ∈ started_modules d ∨
      (owner_of w +:+ " requires module '" +:+ required +:+ "', but it is configured not to start") ∈
        warnings (validate_startup_configuration d))) ∧
  (∀ x, x ∈ w_extensions w → blank (x_name x) = false ∧ blank (x_version x) = false ∧ blank (x_path x) = false).

Lemma validated_process d w :
  w ∈ work_processes d → work_process_errors (configured_modules d) w = [] → process_ready d w.
Proof.
  intros Hin (Hn%says_nil & (Hr & Hx)%app_eq_nil)%app_eq_nil. split_and!; [done| |].
  - intros required Hreq. apply (mbind_nil _ _ _ Hr) in Hreq as Hr'. unfold required_errors in Hr'.
    apply says_nil, negb_false_iff, bool_decide_eq_true in Hr'. split; [done|].
    destruct (decide (required ∈ started_modules d)) as [|Hns]; [by left|]. right. simpl.
    apply elem_of_app. right. apply list_elem_of_bind. exists w. split; [|done].
    apply list_elem_of_bind. exists required. split; [|done]. unfold required_warnings.
    rewrite bool_decide_eq_true_2 by done. rewrite bool_decide_eq_false_2 by done. by left.
  - intros x Hxin. apply (mbind_nil _ _ _ Hx) in Hxin. unfold extension_errors in Hxin.
    apply app_eq_nil in Hxin as (?%says_nil & (?%says_nil & ?%says_nil)%app_eq_nil). done.
Qed.

(** A Location of its own that validates. *)
Definition location_ready (side : Applies) (l : ConfiguredLocation) : Prop :=
  blank (l_name l) = false ∧ blank (l_address l) = false ∧ location_problems l side = [].

Lemma validated_location stage side l : own_location_errors stage side l = [] → location_ready side l.
Proof. intros ((?%says_nil & ?%says_nil)%app_eq_nil & ?)%app_eq_nil. done. Qed.

(** What a document that validates says of its own. *)
Lemma validated `{!ConfigureLaws} d : errors (validate_startup_configuration d) = [] →
  (∀ m, m ∈ modules d → blank (m_name m) = false) ∧
  (∀ w, w ∈ work_processes d → process_ready d w) ∧
  (∀ l, l ∈ receive_locations d → location_ready Receive l) ∧
  (∀ l, l ∈ send_locations d → location_ready Send l) ∧
  (∀ b l, b ∈ applications d → (l ∈ b_receive_locations b → location_problems l Receive = []) ∧
     (l ∈ b_send_ports b → location_problems l Send = [])) ∧
  ∃ t, Tuning.read (tuning_given d) = Ok t.
Proof.
  simpl. intros (Hm & (Hw & (Hr & (Hs & (Ha & (_ & (_ & (Ht & _)%app_eq_nil)%app_eq_nil)%app_eq_nil)%app_eq_nil)
    %app_eq_nil)%app_eq_nil)%app_eq_nil)%app_eq_nil.
  split_and!.
  - intros m Hin. by apply (mbind_nil _ _ _ Hm), says_nil in Hin.
  - intros w Hin. apply validated_process; [done|]. by apply (mbind_nil _ _ _ Hw).
  - intros l Hin. by eapply validated_location, (mbind_nil _ _ _ Hr).
  - intros l Hin. by eapply validated_location, (mbind_nil _ _ _ Hs).
  - intros b l Hin. apply (mbind_nil _ _ _ Ha) in Hin. apply app_eq_nil in Hin as [H1 H2].
    split; intros Hl; [exact (mbind_nil _ _ _ H1 Hl)|exact (mbind_nil _ _ _ H2 Hl)].
  - unfold problems_of in Ht. destruct (Tuning.read (tuning_given d)) as [t|e] eqn:He; [by exists t|].
    by apply tuning_read_told in He.
Qed.

(** Every Location in one place or the other, by what its [start] says. *)
Definition parted (all : list ConfiguredLocation) (started : list ConfiguredLocation) (known : list string) : Prop :=
  (∀ l, l ∈ started ↔ l ∈ all ∧ l_start l = true) ∧
  (∀ name, name ∈ known ↔ ∃ l, l ∈ all ∧ l_start l = false ∧ l_name l = name) ∧
  length started + length known = length all.

Lemma starting_parts all : parted all (starting all).1 (starting all).2.
Proof.
  unfold starting. simpl. split_and!.
  - intros l. by rewrite !list_elem_of_In, filter_In.
  - intros name. rewrite list_elem_of_fmap. split.
    + intros (l & -> & Hin). apply list_elem_of_In, filter_In in Hin as [Hin Hs%negb_true_iff].
      exists l. by rewrite list_elem_of_In.
    + intros (l & Hin & Hs & <-). exists l. split; [done|]. apply list_elem_of_In, filter_In.
      by rewrite <-list_elem_of_In, Hs.
  - rewrite length_fmap. induction all as [|l all IH]; simpl; [done|]. destruct (l_start l); simpl; lia.
Qed.

Lemma build_told `{!ConfigureLaws} d apps report : build_execution_tree d apps = Err report → errors report ≠ [].
Proof.
  unfold build_execution_tree, is_valid. case_bool_decide as Hv; cbn [negb]; [|by intros [= <-]].
  destruct (validated d Hv) as (_ & _ & _ & _ & _ & t & Ht).
  destruct (bind d apps) as [bound|why] eqn:Hb.
  - destruct (bound_problems d bound (sets_of apps)) as [|unset0 unset]; [|by intros [= <-] [_ [=]]%app_eq_nil].
    rewrite Ht. by destruct (starting _), (starting _).
  - intros [= <-] [_ ->]%app_eq_nil. by eapply bind_told.
Qed.

(** A tree is built just where the document validates, its Applications
    bind and every set they name is declared, and it is the configuration:
    what starts is what is configured to, each Location starts or is known,
    a started Work Process has every Module it requires configured — started,
    or its warning said — no Extension is said loaded, and the document's
    own Locations have a name, an address and settings their technologies
    take. Otherwise there is a refusal, and it says why. *)
Theorem tree_is_the_configuration `{!ConfigureLaws} d apps :
  match build_execution_tree d apps with
  | Ok (tree, report) =>
      report = validate_startup_configuration d ∧ errors report = [] ∧
      (∀ m, m ∈ modules_to_start tree ↔ m ∈ modules d ∧ m_start m = true) ∧
      (∀ w, w ∈ work_processes_to_start tree ↔ w ∈ work_processes d ∧ w_start w = true) ∧
      (∀ w, w ∈ work_processes_to_start tree → process_ready d w) ∧
      verified_extensions tree = verified_extension <$> (work_processes_to_start tree ≫= w_extensions) ∧
      Tuning.read (tuning_given d) = Ok (tuning tree) ∧
      (∃ bound, bind d apps = Ok bound ∧
         parted (receive_locations d ++ bound_receive_locations bound)
           (receive_locations_to_start tree) (receive_locations_not_started tree) ∧
         parted (send_locations d ++ bound_send_locations bound)
           (send_locations_to_start tree) (send_locations_not_started tree)) ∧
      (∀ l, l ∈ receive_locations d → location_ready Receive l) ∧
      (∀ l, l ∈ send_locations d → location_ready Send l)
  | Err report =>
      errors report ≠ [] ∧
      (errors (validate_startup_configuration d) ≠ [] ∨ (∃ why, bind d apps = Err why) ∨
       ∃ bound, bind d apps = Ok bound ∧ bound_problems d bound (sets_of apps) ≠ [])
  end.
Proof.
  unfold build_execution_tree, is_valid. case_bool_decide as Hv; cbn [negb]; [|by split; [|left]].
  destruct (validated d Hv) as (_ & Hw & Hr & Hs & _ & t & Ht).
  destruct (bind d apps) as [bound|why] eqn:Hb.
  - destruct (bound_problems d bound (sets_of apps)) as [|unset0 unset] eqn:Hu.
    + rewrite Ht. destruct (starting (receive_locations d ++ _)) as [receive known] eqn:H1.
      destruct (starting (send_locations d ++ _)) as [send send_known] eqn:H2.
      pose proof (starting_parts (receive_locations d ++ bound_receive_locations bound)) as P1.
      pose proof (starting_parts (send_locations d ++ bound_send_locations bound)) as P2.
      rewrite H1 in P1. rewrite H2 in P2. cbn [fst snd] in *. split_and!; try done; cbn [modules_to_start work_processes_to_start].
      * intros m. by rewrite !list_elem_of_In, filter_In.
      * intros w. by rewrite !list_elem_of_In, filter_In.
      * intros w Hin. apply Hw. apply list_elem_of_In, filter_In in Hin as [Hin _]. by apply list_elem_of_In.
      * by exists bound.
    + split; [|by right; right; exists bound; rewrite Hu]. by intros [_ [=]]%app_eq_nil.
  - split; [|by right; left; exists why]. intros [_ ->]%app_eq_nil. by eapply bind_told.
Qed.
End validated.

(** A configuration whose every check passes but the binding of an
    Application it does not name. *)
Definition plain_configure : @Configure unit unit :=
  {| location_problems _ _ := []; binding_problems _ := []; step_problems _ := []; storage_problems _ := [];
     tuning_given _ := Ok default_read; database_problems _ := [];
     bind _ apps := match apps with
                    | [] => Ok {| bound_receive_locations := []; bound_send_locations := []; bound_rest := tt |}
                    | _ => Err ["it binds no such Application"]
                    end;
     bound_problems _ _ _ := [] |}.

Lemma plain_laws : @ConfigureLaws unit unit plain_configure.
Proof. split; [by intros d []|done]. Qed.

Definition a_location (name : string) (start : bool) : ConfiguredLocation :=
  {| l_name := name; l_address := "file:///" +:+ name; l_start := start; l_contract := None;
     l_accept_mechanism := []; l_accept_party := [] |}.

(** A Work Process that requires a Module configured not to start, and a
    Location that is known. *)
Definition orders : @Document unit :=
  {| modules := [{| m_name := "file"; m_start := false; m_identity := "file";
                   m_capabilities := [{| cap_name := "transport:file"; cap_host := "native-rust"; cap_trusted := true |}];
                   m_symbol := None; m_library_path := Some "file.so"; m_executable_path := None |}];
     work_processes := [{| w_name := "Billing"; w_start := true; w_required_modules := ["file"]; w_extensions := [] |}];
     receive_locations := [a_location "In" true; a_location "Off" false];
     send_locations := []; applications := []; rest := tt |}.

Example nothing_said : blank (String (ascii_of_N 226) (String (ascii_of_N 128) (String (ascii_of_N 131) " "))) = true.
Proof. reflexivity. Qed.

Lemma tree_is_the_configuration_witness :
  match @build_execution_tree unit unit plain_configure orders [] with
  | Ok (tree, report) => report = @validate_startup_configuration unit unit plain_configure orders ∧
      receive_locations_not_started tree = ["Off"] ∧
      warnings report = ["Work Process 'Billing' requires module 'file', but it is configured not to start"]
  | Err _ => False
  end.
Proof.
  pose proof (@tree_is_the_configuration unit unit plain_configure plain_laws orders []) as Hc.
  destruct (@build_execution_tree unit unit plain_configure orders []) as [[tree report]|why] eqn:Hb;
    [|vm_compute in Hb; discriminate Hb].
  split; [exact (proj1 Hc)|]. vm_compute in Hb. injection Hb as <- <-. split; reflexivity.
Defined.
