(* ===== verification/Mood.v ===== *)
(** * Records a node publishes: health, severity and scope, [src/running/publication.rs]

    What every record of a publication is: the health a part of the node is
    in with its severity ([severity]), at a scope beneath the node's own
    location. Shared by the parts that say how they stand. *)

From Stdlib Require Import Ascii String.
From stdpp Require Import base numbers list strings pretty.
From S2P Require Import Prelude Text.

Local Open Scope string_scope.
Local Open Scope list_scope.

Inductive Health := Fine | Paused | Working | Stressed | Exhausted | Done | Holding.

#[export] Instance health_eq_dec : EqDecision Health.
Proof. solve_decision. Defined.

(** [severity]: none while fine, a deliberate hold's, and the pain's. *)
Definition severity (h : Health) : N := match h with Fine => 0 | Paused => 30 | _ => 90 end.

(** A record at a scope, its health and its evidence, and one with its
    severity too. *)
Definition Standing : Type := Health * N.
Definition HealthRecord : Type := string * Health * string.
Definition StageRecord : Type := string * Standing * string.

Definition with_severity (r : HealthRecord) : StageRecord := (r.1.1, (r.1.2, severity r.1.2), r.2).

(** [location], [cluster_location]. *)
Definition cluster_location (cluster : string) : string := "xmip:///" +:+ cluster.
Definition location (cluster node : string) : string := cluster_location cluster +:+ "/node/" +:+ node.

Definition under (at_ part : string) : string := at_ +:+ "/" +:+ part.

(** [Stage] and [Stage::name]. *)
Inductive Stage := Receive | Process | Send.

#[export] Instance stage_eq_dec : EqDecision Stage.
Proof. solve_decision. Defined.

Definition stage_name (s : Stage) : string :=
  match s with Receive => "receive" | Process => "process" | Send => "send" end.

Definition scope_of (node : string) (s : Stage) (name : string) : string := under (under node (stage_name s)) name.

(** What is counted. *)
Inductive Counted := Streams | Messages | Journeys | Bytes | Retrying | Failed.

#[export] Instance counted_eq_dec : EqDecision Counted.
Proof. solve_decision. Defined.

(** ** Distinct names are distinct scopes *)

Lemma append_cancel p a b : p +:+ a = p +:+ b → a = b.
Proof. induction p as [|c p IH]; simpl; [done|]. intros [= H]. auto. Qed.

Lemma scope_of_name node s a b : scope_of node s a = scope_of node s b → a = b.
Proof. unfold scope_of, under. intros H%append_cancel. by apply (append_cancel "/"). Qed.
