(* ===== verification/StoragePlan.v ===== *)
(** * How a node reaches Xmip Storage: [src/storage.rs], [src/storage/opened.rs], [src/storage/reached.rs]

    Decided at phase 3 ([plan], [kept]) and reached at phase 9 ([open_]): the
    program's own Xmip Storage, the node's own Storage node, or the Storage
    nodes its configuration lists. Role words, what a node presents, a data
    domain's problems and its technology's word are other crates'; so are
    the engines, the key stores, the Storage node and its client, each
    opened by a function of what it is given that may fail. Paths and their
    joining are the platform's. *)

From Stdlib Require Import Ascii String.
From stdpp Require Import base numbers list strings sets pretty.
From S2P Require Import Prelude Keys Configured Mood.
Local Open Scope string_scope.
Local Open Scope list_scope.

(** [PLACE], [FILES], [ENGINE], [ADMINISTRATION], [KEK]. *)
Definition PLACE : string := "storage".
Definition FILES : list string := ["runtime"; "administration.sqlite"; "audit.sqlite"].
Definition ENGINE : string := "xmip-core-persist-rocksdb".
Definition ADMINISTRATION : string := "xmip-core-persist-sqlite".
Definition KEK : string := "storage".

(** The data domains: [Database::ALL], with [Database::word]. *)
Inductive Database := Runtime | Administration | Audit.

Definition ALL : list Database := [Runtime; Administration; Audit].

Definition word (d : Database) : string :=
  match d with Runtime => "runtime" | Administration => "administration" | Audit => "audit" end.

(** A data domain's table, and the table with its database. *)
Record Table := { t_storage : string; t_connection : string }.
Record Domain := { d_database : Database; d_storage : string; d_connection : string }.

Section planned.
Context {Path Identity Role : Type} `{EqDecision Role} (storage_role : Role).
Context (join : Path → string → Path) (display : Path → string).
(** [NodeRole::declared]; what [[storage]] names to present, and the files
    it names read; the problems of the tables; a technology's word where it
    is a database server's. *)
Context (declared : string → result (list Role) string).
Context (identity : string * string * string → result Identity string).
Context (table_problems : list Domain → option string → list string).
Context (server : string → option string).

(** What [plan] reads of the document, its paths resolved. *)
Record Document := {
  roles : option string;
  nodes : list string;
  listen : option string;
  presents : result (option (string * string * string)) string;
  password : option string;
  tables : list (option Table);
  key_store : string;
  keys : Path;
  data : Path;
  base : Path
}.

(** What [plan] reads of what the program linked. *)
Record Linked {Storage Engine KeyStore : Type} := {
  storage : option Storage;
  engine : option Engine;
  administration : option Engine;
  key_stores : list (string * KeyStore)
}.

Record Serving := { s_listen : string; s_identity : Identity; s_listed : list string }.

Inductive Planned {Storage : Type} :=
  | Given (s : Storage)
  | Kept (places : list Path) (key_store : string) (keys : Path) (serving : option Serving)
  | Reaching (listed : list string) (identity : Identity).

Context {Storage Engine KeyStore : Type}.
Implicit Types (d : Document) (l : @Linked Storage Engine KeyStore).

(** [domains]. *)
Definition domains d : list Domain :=
  omap (λ '(database, table), (λ t, {| d_database := database; d_storage := t_storage t; d_connection := t_connection t |})
                                <$> table) (zip ALL (tables d)).

(** [Linked::key_store]. *)
Definition linked_key_store l (technology : string) : option KeyStore :=
  snd <$> find (λ named, bool_decide (fst named = technology)) (key_stores l).

(** The servers no backend is built for yet. *)
Definition server_problems (named : list Domain) : list string :=
  omap (λ one, (λ w, "[" +:+ word (d_database one) +:+ "] storage names " +:+ w +:+ ", and Xmip Storage has no " +:+
                       w +:+ " backend built yet; it follows as its own technology of xmip-core-persist")
                 <$> server (d_storage one)) named.

Definition unbuilt (built : bool) (technology databases : string) : list string :=
  if built then []
  else ["this node keeps Xmip Storage itself (the storage role), and was not built with " +:+ technology +:+
        ", its " +:+ databases +:+ " databases' engine"].

Definition kept_problems d l : list string :=
  table_problems (domains d) (password d) ++ server_problems (domains d) ++
  unbuilt (bool_decide (is_Some (engine l))) ENGINE "runtime" ++
  unbuilt (bool_decide (is_Some (administration l))) ADMINISTRATION "administration and audit" ++
  (if linked_key_store l (key_store d) then []
   else ["[store] names the key store '" +:+ key_store d +:+ "', which this node was not built with"]).

(** Each data domain's place: where its table says, or under the data
    directory. *)
Definition place_of d (at_ : nat) (table : option Table) : Path :=
  match table with
  | Some t => join (base d) (t_connection t)
  | None => join (join (data d) PLACE) (default "" (FILES !! at_))
  end.

(** [kept]. *)
Definition kept d l (serving : option Serving) : result Planned (list string) :=
  match kept_problems d l with
  | [] => Ok (@Kept Storage (imap (place_of d) (tables d)) (key_store d) (keys d) serving)
  | problems => Err problems
  end.

(** What a node presents to the Storage nodes. *)
Definition presented d : result Identity (list string) :=
  match presents d with
  | Err problem => Err [problem]
  | Ok None => Err ["[storage] names no certificate, key and anchors: what this node presents to the Storage nodes and trusts of them over Xmip's mutual TLS"]
  | Ok (Some files) => match identity files with Ok i => Ok i | Err problem => Err [problem] end
  end.

(** [plan]: how it is reached, or the problems phase 3 refuses it with. *)
Definition plan d l : result Planned (list string) :=
  match storage l with
  | Some given => Ok (Given given)
  | None =>
      match declared (default "" (roles d)) with
      | Err problem => Err [problem]
      | Ok declared_roles =>
          if negb (bool_decide (storage_role ∈ declared_roles)) then
            if bool_decide (nodes d = []) then
              Err ["this node does not declare the storage role and [storage] nodes lists no Storage node: only a node with the storage role keeps Xmip Storage, and any other reaches it through [storage] nodes"]
            else
              match presented d with
              | Ok i => Ok (Reaching (nodes d) i)
              | Err problems => Err problems
              end
          else
            match listen d, nodes d with
            | None, [] => kept d l None
            | None, _ => Err ["this node declares the storage role and [storage] nodes lists the cluster's Storage nodes, and [storage] names no listen to serve the others on"]
            | Some at_, listed =>
                match presented d with
                | Ok i => kept d l (Some {| s_listen := at_; s_identity := i; s_listed := listed |})
                | Err problems => Err problems
                end
            end
      end
  end.

(** ** Reached: [Planned::open] *)

(** What is behind the Xmip Storage reached, and whether it serves it. *)
Inductive Behind {Client Node : Type} :=
  | ByProgram
  | Alone (said : string) (versions : list (Database * string))
  | Several (n : Node)
  | ByClient (c : Client).

Context {Client Node Bound Server : Type}.
Context (client : list string → Identity → result Client string).
Context (open_engine : Engine → Path → result Engine string) (open_keys : KeyStore → Path → KeyStore).
Context (directory_of : Path → result unit string).
Context (bound_at : string → result Bound string).
Context (node_of : list Engine → KeyStore → list string → Identity → result Node string).
Context (serve_node : Node → Bound → Identity → result Server string) (start_node : Node → result unit string).
Context (embedded : list Engine → KeyStore → result Storage string).
Context (serve_alone : Storage → Bound → Identity → result Server string).
Context (reached_by : Node → Storage) (asked_by : Client → Storage).
(** The version each database holds, with what it is kept on. *)
Context (versions_of : Storage → list (Database * string)).

(** What opening it does that the world sees, in its order. *)
Inductive Act := OpenedEngine (at_ : Path) | Listens (at_ : string) | Serves.

Record Reached := { r_storage : Storage; r_behind : @Behind Client Node; r_serving : option Server }.

Fixpoint open_each (opens : list (Engine * Path)) (acts : list Act) (opened : list Engine) :
    list Act * result (list Engine) string :=
  match opens with
  | [] => (acts, Ok opened)
  | (e, at_) :: rest =>
      match open_engine e at_ with
      | Ok o => open_each rest (acts ++ [OpenedEngine at_]) (opened ++ [o])
      | Err why => (acts, Err why)
      end
  end.

(** [engines]: the three, opened at their places, and the key store. *)
Definition open_engines l (places : list Path) (store : string) (keys_at : Path) :
    list Act * result (list Engine * KeyStore) string :=
  match engine l, administration l, linked_key_store l store with
  | Some runtime, Some admin, Some ks =>
      match collect (directory_of <$> places) with
      | Err why => ([], Err why)
      | Ok _ =>
          match open_each (zip [runtime; admin; admin] places) [] [] with
          | (acts, Ok opened) => (acts, Ok (opened, open_keys ks keys_at))
          | (acts, Err why) => (acts, Err why)
          end
      end
  | _, _, _ => ([], Err "its engines or its key store are not linked")
  end.

(** Where the three databases are, in words. *)
Definition places_said (places : list Path) : string :=
  let at_ i := default "" (display <$> places !! i) in
  "runtime at " +:+ at_ 0 +:+ ", administration at " +:+ at_ 1 +:+ ", audit at " +:+ at_ 2.

Definition did_not_open (places : list Path) (why : string) : string :=
  "its own Storage node, " +:+ places_said places +:+ ", did not open: " +:+ why.

(** [alone]. *)
Definition alone (places : list Path) (store : string) (versions : list (Database * string)) : string :=
  "its own Storage node, " +:+ places_said places +:+ ", sealed under " +:+ store +:+ ": " +:+
  String.concat ", " ((λ held, word (fst held) +:+ " " +:+ snd held) <$> versions).

Definition quoted (text : string) : string := String "034"%char (text +:+ String "034"%char "").

Definition open_ l (planned : @Planned Storage) : list Act * result Reached string :=
  match planned with
  | Given s => ([], Ok {| r_storage := s; r_behind := ByProgram; r_serving := None |})
  | Reaching listed i =>
      match client listed i with
      | Ok c => ([], Ok {| r_storage := asked_by c; r_behind := ByClient c; r_serving := None |})
      | Err why => ([], Err why)
      end
  | Kept places store keys_at serving =>
      let '(acts, opened) := open_engines l places store keys_at in
      match opened with
      | Err why => (acts, Err (did_not_open places why))
      | Ok (engines, ks) =>
          match serving with
          | None =>
              match embedded engines ks with
              | Ok s => (acts, Ok {| r_storage := s; r_behind := Alone (alone places store (versions_of s)) (versions_of s); r_serving := None |})
              | Err why => (acts, Err (did_not_open places why))
              end
          | Some serving =>
              match bound_at (s_listen serving) with
              | Err why => (acts, Err ("[storage] listen = " +:+ quoted (s_listen serving) +:+ ": " +:+ why))
              | Ok bound =>
                  let acts := acts ++ [Listens (s_listen serving)] in
                  if bool_decide (s_listed serving = []) then
                    match embedded engines ks with
                    | Err why => (acts, Err (did_not_open places why))
                    | Ok s =>
                        match serve_alone s bound (s_identity serving) with
                        | Ok it => (acts ++ [Serves], Ok {| r_storage := s; r_behind := Alone (alone places store (versions_of s)) (versions_of s); r_serving := Some it |})
                        | Err why => (acts, Err why)
                        end
                    end
                  else
                    match node_of engines ks (s_listed serving) (s_identity serving) with
                    | Err why => (acts, Err (did_not_open places why))
                    | Ok n =>
                        match serve_node n bound (s_identity serving) with
                        | Err why => (acts, Err why)
                        | Ok it =>
                            match start_node n with
                            | Err why => (acts ++ [Serves], Err why)
                            | Ok _ => (acts ++ [Serves], Ok {| r_storage := reached_by n; r_behind := Several n; r_serving := Some it |})
                            end
                        end
                    end
              end
          end
      end
  end.

(** ** How it stands: [Reached] *)

(** What the client last came to with a Storage node: whether it answered as
    the primary, and what it said. *)
Record Last := { answered : bool; last_said : string }.

(** [reached]. *)
Definition reached (each : list (string * option Last)) : Health * string :=
  let any_answered := existsb (λ one, match snd one with Some la => answered la | None => false end) each in
  let any_asked := existsb (λ one, match snd one with Some _ => true | None => false end) each in
  (if any_answered || negb any_asked then Fine else Done,
   "the Storage nodes " +:+ String.concat ", " (fst <$> each) +:+ " over Xmip's mutual TLS: " +:+
   String.concat "; " ((λ one, match snd one with
                               | None => fst one +:+ " not asked yet"
                               | Some la => if answered la then fst one +:+ " answered" else fst one +:+ " " +:+ last_said la
                               end) <$> each)).

Context (is_finding : Node → bool) (node_said : Node → string) (node_versions : Node → option (list (Database * string))).
Context (client_reached : Client → list (string * option Last)).

(** [Reached::standing]. *)
Definition standing (b : @Behind Client Node) : Health * string :=
  match b with
  | ByProgram => (Fine, "the Xmip Storage its program opened")
  | Alone said _ => (Fine, said)
  | Several n => (if is_finding n then Done else Fine, "its own Storage node, " +:+ node_said n)
  | ByClient c => reached (client_reached c)
  end.

(** [Reached::versions]. *)
Definition versions (b : @Behind Client Node) : list (Database * string) :=
  match b with
  | Alone _ vs => vs
  | Several n => default [] (node_versions n)
  | ByProgram | ByClient _ => []
  end.

(** [Reached::said] and [Reached::published]: what it reaches, whether it
    serves it where and in what chunks; and each database's version. *)
Context (address_of : Server → string) (evidence_of : Database * string → string).

Definition DATABASES : string := "storage".

Definition said (chunk : N) (r : Reached) : string :=
  (standing (r_behind r)).2 +:+
  match r_serving r with Some s => ", serving the others at " +:+ address_of s | None => "" end +:+
  ", Streams in chunks of " +:+ pretty (chunk / 1024)%N +:+ " KiB".

Definition published (chunk : N) (node : string) (r : Reached) : list HealthRecord :=
  (under node DATABASES, (standing (r_behind r)).1, said chunk r) ::
  ((λ held, (under (under node DATABASES) (word held.1), Fine, evidence_of held)) <$> versions (r_behind r)).

(** [Reached::stop]: its own Storage node's first, so its standbys have what
    it wrote, then what serves it; nothing serves it after. *)
Inductive Stopping := StopsNode (n : Node) | StopsServing (s : Server).

Definition stop (r : Reached) : list Stopping * Reached :=
  (match r_behind r with Several n => [StopsNode n] | _ => [] end ++
   match r_serving r with Some s => [StopsServing s] | None => [] end,
   {| r_storage := r_storage r; r_behind := r_behind r; r_serving := None |}).

(** Stopped again, what serves is not stopped twice. *)
Lemma stop_again r s : StopsServing s ∉ (stop (stop r).2).1.
Proof. unfold stop. simpl. rewrite app_nil_r. destruct (r_behind r); set_solver. Qed.

(** Storage is done just where it was asked and no one answered as the
    primary. *)
Lemma storage_gone c : (standing (ByClient c)).1 = Done ↔
  (∃ at_ la, (at_, Some la) ∈ client_reached c) ∧ ∀ at_ la, (at_, Some la) ∈ client_reached c → answered la = false.
Proof.
  simpl. unfold reached. simpl. destruct (existsb _ _) eqn:Ha; simpl.
  - split; [done|]. intros [_ Hno]. apply existsb_exists in Ha as ([at_ [la|]] & Hin & Hl); [|done].
    apply list_elem_of_In in Hin. simpl in Hl. by rewrite (Hno _ _ Hin) in Hl.
  - destruct (existsb (λ one, match snd one with Some _ => true | None => false end) _) eqn:Hk; simpl.
    + split; [intros _|done]. split.
      * apply existsb_exists in Hk as ([at_ [la|]] & Hin & Hl); [|done]. exists at_, la. by apply list_elem_of_In.
      * intros at_ la Hin. destruct (answered la) eqn:Hl; [|done]. apply not_true_iff_false in Ha. exfalso.
        apply Ha, existsb_exists. exists (at_, Some la). split; [by apply list_elem_of_In|done].
    + split; [done|]. intros [(at_ & la & Hin) _]. apply not_true_iff_false in Hk. exfalso.
      apply Hk, existsb_exists. exists (at_, Some la). split; [by apply list_elem_of_In|done].
Qed.

(** ** What it is planned as *)

Lemma kept_ok d l serving p : kept d l serving = Ok p →
  p = Kept (imap (place_of d) (tables d)) (key_store d) (keys d) serving ∧ kept_problems d l = [].
Proof. unfold kept. destruct (kept_problems d l); [by intros [= <-]|done]. Qed.

Lemma server_problems_none named : server_problems named = [] → ∀ one, one ∈ named → server (d_storage one) = None.
Proof.
  unfold server_problems. intros Hn one Hin. destruct (server (d_storage one)) as [w|] eqn:Hw; [|done].
  assert (∃ text, text ∈ server_problems named) as [text Ht].
  { eexists. apply list_elem_of_omap. exists one. split; [done|]. by rewrite Hw. }
  unfold server_problems in Ht. rewrite Hn in Ht. by apply elem_of_nil in Ht.
Qed.

(** A Storage node of its own that [plan] lets through has what it opens. *)
Definition keeps_itself d l (serving : option Serving) : Prop :=
  is_Some (engine l) ∧ is_Some (administration l) ∧ is_Some (linked_key_store l (key_store d)) ∧
  table_problems (domains d) (password d) = [] ∧
  (∀ one, one ∈ domains d → server (d_storage one) = None) ∧
  match serving with
  | None => listen d = None ∧ nodes d = []
  | Some s => listen d = Some (s_listen s) ∧ s_listed s = nodes d ∧ presented d = Ok (s_identity s)
  end.

Lemma kept_problems_none d l serving :
  kept_problems d l = [] →
  match serving with
  | None => listen d = None ∧ nodes d = []
  | Some s => listen d = Some (s_listen s) ∧ s_listed s = nodes d ∧ presented d = Ok (s_identity s)
  end →
  keeps_itself d l serving.
Proof.
  intros (Ht & (Hs & (He & (Ha & Hk)%app_eq_nil)%app_eq_nil)%app_eq_nil)%app_eq_nil Hserving.
  unfold unbuilt in He, Ha. destruct (engine l) as [e|] eqn:E1; [|done]. destruct (administration l) as [a|] eqn:E2; [|done].
  unfold keeps_itself. rewrite E1, E2. split_and!; [by eexists..| |done|by apply server_problems_none|done].
  by destruct (linked_key_store l (key_store d)).
Qed.

(** Engines and a key store linked are opened each at its place, in order,
    until one does not open. *)
Lemma open_each_acts opens acts opened acts' r : open_each opens acts opened = (acts', r) →
  ∃ done_ left_, opens = done_ ++ left_ ∧ acts' = acts ++ (OpenedEngine ∘ snd <$> done_) ∧
    (is_Some (ok_of r) → left_ = []).
Proof.
  revert acts opened. induction opens as [|[e at_] opens IH]; simpl; intros acts opened.
  - intros [= <- <-]. exists [], []. cbn. rewrite app_nil_r. by split_and!.
  - destruct (open_engine e at_) as [o|why].
    + intros (done_ & left_ & -> & -> & Hl)%IH. exists ((e, at_) :: done_), left_.
      rewrite <-app_assoc. by split_and!.
    + intros [= <- <-]. exists [], ((e, at_) :: opens). cbn. rewrite app_nil_r. split_and!; try done.
Qed.

Lemma open_engines_acts l places store keys_at acts r :
  open_engines l places store keys_at = (acts, r) → ∀ act, act ∈ acts → ∃ at_, act = OpenedEngine at_ ∧ at_ ∈ places.
Proof.
  unfold open_engines. intros Ho act Hin.
  destruct (engine l) as [e|], (administration l) as [a|], (linked_key_store l store) as [ks|];
    try (injection Ho as <- <-; by apply elem_of_nil in Hin).
  destruct (collect _); [|injection Ho as <- <-; by apply elem_of_nil in Hin].
  destruct (open_each _ [] []) as [acts' r'] eqn:He.
  assert (acts = acts') as -> by (by destruct r'; injection Ho).
  apply open_each_acts in He as (done_ & left_ & Hz & -> & _). simpl in Hin.
  apply list_elem_of_fmap in Hin as ([e' at_] & -> & Hin). exists at_. split; [done|].
  assert ((e', at_) ∈ zip [e; a; a] places) as Hz' by (rewrite Hz; apply elem_of_app; by left).
  by eapply elem_of_zip_r.
Qed.

(** What opening a Storage node of its own does, whatever becomes of it. *)
Lemma open_kept_acts l places store keys_at serving acts r :
  open_ l (Kept places store keys_at serving) = (acts, r) →
  (∀ at_, OpenedEngine at_ ∈ acts → at_ ∈ places) ∧ (Serves ∈ acts → is_Some serving) ∧
  match r with Ok reached => is_Some (r_serving reached) ↔ is_Some serving | Err _ => True end.
Proof.
  unfold open_. destruct (open_engines l places store keys_at) as [opens engines] eqn:He.
  pose proof (open_engines_acts _ _ _ _ _ _ He) as Ho.
  assert (∀ more, (∀ at_, OpenedEngine at_ ∉ more) → ∀ at_, OpenedEngine at_ ∈ opens ++ more → at_ ∈ places) as Hmore.
  { intros more Hno at_ [Hin|Hin]%elem_of_app; [|by apply Hno in Hin]. by apply Ho in Hin as (? & [= ->] & ?). }
  assert (∀ at_, OpenedEngine at_ ∈ opens → at_ ∈ places) as Hopens by (intros at_ Hin; by apply Ho in Hin as (? & [= ->] & ?)).
  assert (Serves ∉ opens) as Hs by (intros Hin; by apply Ho in Hin as (? & [=] & _)).
  intros Hr. repeat case_match; simplify_eq; rewrite ?is_Some_alt; simpl; split_and!; try done;
    rewrite <-?app_assoc; try (apply Hmore; intros ? Hin; set_solver).
Qed.

(** What [kept] answers. *)
Lemma kept_spec d l serving :
  match serving with
  | None => listen d = None ∧ nodes d = []
  | Some s => listen d = Some (s_listen s) ∧ s_listed s = nodes d ∧ presented d = Ok (s_identity s)
  end →
  match kept d l serving with
  | Ok p => ∃ places, p = Kept places (key_store d) (keys d) serving ∧ keeps_itself d l serving ∧
      ∀ i table, tables d !! i = Some table → places !! i = Some (place_of d i table)
  | Err problems => problems ≠ []
  end.
Proof.
  intros Hs. unfold kept. destruct (kept_problems d l) as [|problem problems] eqn:Hp; [|done].
  eexists. split; [done|]. split; [by apply kept_problems_none|]. intros i table Hi. by rewrite list_lookup_imap, Hi.
Qed.

(** What a plan says. *)
Definition planned_rightly d l (planned : result (@Planned Storage) (list string)) : Prop :=
  match planned with
  | Ok (Given s) => storage l = Some s
  | Ok (Reaching listed i) =>
      storage l = None ∧ listed = nodes d ∧ listed ≠ [] ∧ presented d = Ok i ∧
      ∃ rs, declared (default "" (roles d)) = Ok rs ∧ storage_role ∉ rs
  | Ok (Kept places store keys_at serving) =>
      storage l = None ∧ (∃ rs, declared (default "" (roles d)) = Ok rs ∧ storage_role ∈ rs) ∧
      keeps_itself d l serving ∧
      (∀ i table, tables d !! i = Some table → places !! i = Some (place_of d i table)) ∧
      ∀ acts r, open_ l (Kept places store keys_at serving) = (acts, r) →
        (∀ at_, OpenedEngine at_ ∈ acts → at_ ∈ places) ∧
        (Serves ∈ acts → is_Some serving) ∧
        match r with
        | Ok reached => is_Some (r_serving reached) ↔ is_Some serving
        | Err _ => True
        end
  | Err problems => problems ≠ []
  end.

(** How a node reaches Xmip Storage is what its configuration and its
    program say: the program's own wherever it opened one; a Storage node of
    its own only with the storage role, both engines, its key store and no
    table refused, each domain where its table says or under the data
    directory, served just where it listens and alone just where none is
    listed; the listed ones for any other node. A refusal says why; and what
    is opened of its own is its databases, at their places. *)
Theorem storage_planned d l : planned_rightly d l (plan d l).
Proof.
  unfold plan. destruct (storage l) as [given|] eqn:Hst; [done|].
  destruct (declared (default "" (roles d))) as [rs|why] eqn:Hroles; [|done].
  destruct (bool_decide (storage_role ∈ rs)) eqn:Hrole; cbn [negb].
  - apply bool_decide_eq_true in Hrole.
    assert (∀ serving, match serving with
      | None => listen d = None ∧ nodes d = []
      | Some s => listen d = Some (s_listen s) ∧ s_listed s = nodes d ∧ presented d = Ok (s_identity s)
      end → planned_rightly d l (kept d l serving)) as Hk.
    { intros serving Hs. pose proof (kept_spec d l serving Hs) as Hp. unfold planned_rightly.
      destruct (kept d l serving) as [p|problems]; [|done]. destruct Hp as (places & -> & Hself & Hplaces).
      split_and!; [done|by exists rs|done|done|]. intros acts r. apply open_kept_acts. }
    destruct (listen d) as [at_|] eqn:Hl.
    + destruct (presented d) as [i|why] eqn:Hp; [by apply Hk|]. unfold presented in Hp.
      destruct (presents d) as [[files|]|]; [destruct (identity files)|..]; by simplify_eq.
    + destruct (nodes d) eqn:Hn; [by apply Hk|done].
  - apply bool_decide_eq_false in Hrole. case_bool_decide as Hn; [done|].
    destruct (presented d) as [i|why] eqn:Hp; [split_and!; try done; by exists rs|]. unfold presented in Hp.
    destruct (presents d) as [[files|]|]; [destruct (identity files)|..]; by simplify_eq.
Qed.
End planned.
