(* ===== verification/Linked.v ===== *)
(** * What a node was built with: [src/linked.rs], [src/capability_registry.rs], [src/host.rs], [src/parties.rs], [src/receiving/gate.rs]

    The transports, authenticators and the rest a program links, and which
    a Location chooses; each capability registered once; the Host Services
    Modules need; the Parties a configuration declares, each identity's
    mechanism a declared one; and the gate a Receive Location declares. What
    a linked technology does is outside: here are its words. *)

From Stdlib Require Import Ascii String.
From stdpp Require Import base numbers list gmap strings.
From S2P Require Import Prelude Points Configured Validated.
Local Open Scope string_scope.
Local Open Scope list_scope.

(** ** Each capability once: [CapabilityRegistry] *)

Inductive Load := LinkedIn | Library (path : string).

Record RegisteredCapability := { rc_capability : string; rc_module : string; rc_load : Load }.

Abbreviation Registry := (gmap string RegisteredCapability).

Definition already (capability module : string) : string :=
  "capability '" +:+ capability +:+ "' is already registered, by '" +:+ module +:+ "'".

(** [register]. *)
Definition register (capability module : string) (load : Load) (r : Registry) : Registry * result unit string :=
  match r !! capability with
  | Some held => (r, Err (already capability (rc_module held)))
  | None => (<[capability := {| rc_capability := capability; rc_module := module; rc_load := load |}]> r, Ok tt)
  end.

(** [register_module]: every one it claims, to the first registered already. *)
Fixpoint register_claims (claims : list Claim) (module : string) (load : Load) (r : Registry) :
    Registry * result unit string :=
  match claims with
  | [] => (r, Ok tt)
  | c :: rest =>
      match register (cap_name c) module load r with
      | (r, Ok _) => register_claims rest module load r
      | (r, Err why) => (r, Err why)
      end
  end.

Definition register_module (m : ModuleConfiguration) (load : Load) (r : Registry) : Registry * result unit string :=
  register_claims (m_capabilities m) (m_identity m) load r.

(** What is registered stays as it was registered, and what is registered
    anew was not: however a capability is claimed it is served once. *)
Lemma register_spec capability module load r r' answer : register capability module load r = (r', answer) →
  r ⊆ r' ∧
  match answer with
  | Ok _ => r !! capability = None ∧ rc_module <$> r' !! capability = Some module
  | Err _ => r' = r ∧ is_Some (r !! capability)
  end.
Proof.
  unfold register. destruct (r !! capability) as [held|] eqn:Hr; intros [= <- <-]; [done|].
  split; [by apply insert_subseteq|]. split; [done|]. by rewrite lookup_insert_eq.
Qed.

Lemma register_claims_grows claims module load r r' answer :
  register_claims claims module load r = (r', answer) → r ⊆ r'.
Proof.
  revert r. induction claims as [|c claims IH]; simpl; intros r; [by intros [= <- _]|].
  destruct (register (cap_name c) module load r) as [r1 [u|why]] eqn:Hr; apply register_spec in Hr as [Hsub _].
  - intros Hrest%IH. by etrans.
  - by intros [= <- _].
Qed.

(** ** The Host Services Modules need: [host.rs] *)

Inductive HostServiceState := Planned_ | Starting_ | Running_ | Stopped_ | Failed_ (why : string).

Record HostServicePlan := { hp_type : string; hp_trusted : bool; hp_modules : list ModuleConfiguration }.

Record HostService := { hs_plan : HostServicePlan; hs_state : HostServiceState }.

(** [IN_PROCESS]. *)
Definition IN_PROCESS : list string := ["native-rust-host"; "c-abi-host"].

(** Sorted as bytes, and each once: [sort_unstable] and [dedup]. *)
Fixpoint put_in (x : string) (l : list string) : list string :=
  match l with
  | [] => [x]
  | y :: rest => match (x ?= y)%string with Lt => x :: l | Eq => l | Gt => y :: put_in x rest end
  end.

Definition sorted_once (l : list string) : list string := foldr put_in [] l.

(** [host_type]: by what its capabilities are written for. *)
Definition host_type (m : ModuleConfiguration) : string :=
  match sorted_once (cap_host <$> m_capabilities m) with
  | [] => "native-rust-host"
  | [only] => only +:+ "-host"
  | many => "mixed-host(" +:+ String.concat "+" many +:+ ")"
  end.

Definition with_module (m : ModuleConfiguration) (p : HostServicePlan) : HostServicePlan :=
  {| hp_type := hp_type p; hp_trusted := hp_trusted p || existsb cap_trusted (m_capabilities m);
     hp_modules := hp_modules p ++ [m] |}.

(** The plan of a type, entered in the types' order. *)
Fixpoint entered (type : string) (m : ModuleConfiguration) (plans : list HostServicePlan) : list HostServicePlan :=
  let fresh := with_module m {| hp_type := type; hp_trusted := false; hp_modules := [] |} in
  match plans with
  | [] => [fresh]
  | p :: rest =>
      match (type ?= hp_type p)%string with
      | Lt => fresh :: plans
      | Eq => with_module m p :: rest
      | Gt => p :: entered type m rest
      end
  end.

(** [plan], startup phase 4. *)
Definition plan (modules : list ModuleConfiguration) : list HostService :=
  (λ p, {| hs_plan := p; hs_state := Planned_ |}) <$>
    foldl (λ plans m, entered (host_type m) m plans) [] modules.

Definition in_process (s : HostService) : bool := bool_decide (hp_type (hs_plan s) ∈ IN_PROCESS).

(** [HostService::start] and [stop]. *)
Definition start (s : HostService) : HostService := {| hs_plan := hs_plan s; hs_state := Running_ |}.
Definition stop (s : HostService) : HostService := {| hs_plan := hs_plan s; hs_state := Stopped_ |}.

(** ** What a program linked: [linked.rs] *)

Section linked.
Context {Transport Mechanism Secret : Type} `{EqDecision Mechanism} (mechanism_name : Mechanism → string).
Context (scheme : ConfiguredLocation → string).

Record LinkedTransport := { technology : string; schemes : list string; transport_of : Transport }.

(** [chosen_by]. *)
Definition chosen_by (t : LinkedTransport) (l : ConfiguredLocation) : bool := bool_decide (scheme l ∈ schemes t).

(** [Linked::transport]. *)
Definition transport (linked : list LinkedTransport) (l : ConfiguredLocation) : option LinkedTransport :=
  find (λ t, chosen_by t l) linked.

Definition declared_twice (first second : LinkedTransport) : list string :=
  (λ s, "the scheme '" +:+ s +:+ "' is declared by both " +:+ technology first +:+ " and " +:+ technology second) <$>
    List.filter (λ s, bool_decide (s ∈ schemes second)) (schemes first).

(** [scheme_problems]. *)
Fixpoint scheme_problems (linked : list LinkedTransport) : list string :=
  match linked with
  | [] => []
  | first :: rest => (rest ≫= declared_twice first) ++ scheme_problems rest
  end.

(** Where no scheme is declared twice, an address chooses one transport. *)
Lemma one_transport linked l t : scheme_problems linked = [] → transport linked l = Some t →
  ∀ t', t' ∈ linked → chosen_by t' l = true → t' = t.
Proof.
  unfold transport. induction linked as [|first rest IH]; cbn; [done|].
  intros [Hfirst Hrest]%app_eq_nil. destruct (chosen_by first l) eqn:Hf.
  - intros [= <-] t' [->|Hin]%elem_of_cons Hc; [done|]. exfalso.
    apply (mbind_nil _ _ _ Hfirst) in Hin as Ht. unfold declared_twice in Ht. apply fmap_nil_inv in Ht.
    apply bool_decide_eq_true in Hf, Hc.
    assert (scheme l ∈ List.filter (λ s, bool_decide (s ∈ schemes t')) (schemes first)) as Hs;
      [|rewrite Ht in Hs; by apply elem_of_nil in Hs].
    apply list_elem_of_In, filter_In. split; [by apply list_elem_of_In|by apply bool_decide_eq_true].
  - intros Ht t' [->|Hin]%elem_of_cons Hc; [congruence|]. by eapply IH.
Qed.

(** ** The Parties declared: [parties.rs] *)

Inductive Purpose := ForReceive | ForOperate | ForProcess | ForSend.

Definition purpose_word (p : Purpose) : string :=
  match p with ForReceive => "receive" | ForOperate => "operate" | ForProcess => "process" | ForSend => "send" end.

Record PartyIdentity := { pi_mechanism : string; pi_purpose : Purpose; pi_value : string; pi_secret : option string }.
Record PartyConfiguration := { pc_id : option N; pc_name : string; pc_identities : list PartyIdentity }.

Record PartyHeld := { i_mechanism : Mechanism; i_purpose : Purpose; i_value : string; i_secret : option Secret }.
Record Party := { p_id : N; p_name : string; p_identities : list PartyHeld }.

(** [xcore::mechanism::named] and [SecretName::new]. *)
Context (named : string → option Mechanism) (secret_name : string → result Secret string).

(** [declared]: by an authenticator, or by Xmip itself. *)
Definition declared_mechanism (authenticators : list Mechanism) (word : string) : option Mechanism :=
  match find (λ m, bool_decide (mechanism_name m = word)) authenticators with
  | Some m => Some m
  | None => named word
  end.

Definition undeclared (word : string) : string :=
  "has an identity under '" +:+ word +:+ "', a mechanism neither this node's authenticators nor Xmip declare".

Definition secret_unread (i : PartyIdentity) (why : string) : string :=
  "has the " +:+ pi_mechanism i +:+ " identity '" +:+ pi_value i +:+ "' for " +:+ purpose_word (pi_purpose i) +:+
  ", whose secret is not one: " +:+ why.

(** [built]. *)
Definition built (authenticators : list Mechanism) (i : PartyIdentity) : result PartyHeld string :=
  match declared_mechanism authenticators (pi_mechanism i) with
  | None => Err (undeclared (pi_mechanism i))
  | Some m =>
      let held secret := {| i_mechanism := m; i_purpose := pi_purpose i; i_value := pi_value i; i_secret := secret |} in
      match pi_purpose i with
      | ForReceive | ForOperate => Ok (held None)
      | ForProcess | ForSend =>
          match secret_name (default "" (pi_secret i)) with
          | Ok s => Ok (held (Some s))
          | Err why => Err (secret_unread i why)
          end
      end
  end.

(** [Parties::of]: those with an identifier, or every problem. *)
Definition party_problems (authenticators : list Mechanism) (p : PartyConfiguration) : list string :=
  match pc_id p with
  | None => []
  | Some _ => (λ why, "the Party '" +:+ pc_name p +:+ "' " +:+ why) <$> omap err_of (built authenticators <$> pc_identities p)
  end.

Definition party_of (authenticators : list Mechanism) (p : PartyConfiguration) : option Party :=
  (λ id, {| p_id := id; p_name := pc_name p; p_identities := omap ok_of (built authenticators <$> pc_identities p) |})
    <$> pc_id p.

Definition parties_of (configured : list PartyConfiguration) (authenticators : list Mechanism) :
    result (list Party) (list string) :=
  match configured ≫= party_problems authenticators with
  | [] => Ok (omap (party_of authenticators) configured)
  | problems => Err problems
  end.

(** [Party::holds]. *)
Definition holds (p : Party) (mechanism : string) (purpose : Purpose) (v : string) : bool :=
  existsb (λ i, bool_decide (mechanism_name (i_mechanism i) = mechanism) &&
                match i_purpose i, purpose with
                | ForReceive, ForReceive | ForOperate, ForOperate | ForProcess, ForProcess | ForSend, ForSend => true
                | _, _ => false
                end && bool_decide (i_value i = v)) (p_identities p).

(** [PartyRegistry::resolve] and [PartyDirectory::party]. *)
Definition resolve (parties : list Party) (mechanism : string) (purpose : Purpose) (v : string) : option N :=
  p_id <$> find (λ p, holds p mechanism purpose v) parties.

Definition party (parties : list Party) (id : N) : option Party := find (λ p, (p_id p =? id)%N) parties.

(** ** The gate a Receive Location declares: [ReceiveGate::of] *)

Record ReceiveGate := {
  g_location : string;
  g_mechanisms : list Mechanism;
  g_parties : list N;
  g_port : string;
  g_points : list Point
}.

(** [configure::party::accepted_problems], and [named]. *)
Context (accepted_problems : list PartyConfiguration → ConfiguredLocation → list string).
Context (party_named : list PartyConfiguration → string → option N).

Definition unverified (l : ConfiguredLocation) (word : string) : string :=
  "the Receive Location '" +:+ l_name l +:+ "' accepts '" +:+ word +:+
  "', and no authenticator this node was built with verifies it".

Definition verifies (authenticators : list Mechanism) (word : string) : option Mechanism :=
  find (λ m, bool_decide (mechanism_name m = word)) authenticators.

Definition gate_of (l : ConfiguredLocation) (authenticators : list Mechanism) (parties : list PartyConfiguration) :
    result ReceiveGate (list string) :=
  match accepted_problems parties l ++
        omap (λ word, match verifies authenticators word with Some _ => None | None => Some (unverified l word) end)
             (l_accept_mechanism l) with
  | [] =>
      Ok {| g_location := l_name l;
            g_mechanisms := omap (verifies authenticators) (l_accept_mechanism l);
            g_parties := omap (party_named parties) (l_accept_party l);
            g_port := "";
            g_points := [receive_location (l_name l)] |}
  | problems => Err problems
  end.
End linked.
