(* ===== verification/Started.v ===== *)
(** * A node started: [src/startup.rs], [src/running.rs]

    Startup phases 3 to 9 over what is configured ([Validated]) and what the
    program linked ([Linked]): [check], [start_host_services], [load] and
    [open_locations], and [Running::start], which runs the phases in order
    and answers the first one's refusal. What each phase does that the
    world sees, in its order, is kept beside the answer ([Act]). Reading the
    configuration, how Xmip Storage is planned and reached ([StoragePlan]),
    the receive certificate, a library's opening, the routes' gathering of
    what filters read, and a transport's own opening are functions it is
    given. *)

From Stdlib Require Import Ascii String.
From stdpp Require Import base numbers list gmap sets strings pretty.
From S2P Require Import Prelude Tuning Keys Points Configured Validated Linked.
Local Open Scope string_scope.
Local Open Scope list_scope.

(** [StartupPhase], and [startup_phases] in their order. *)
Inductive StartupPhase :=
  | ReadConfiguration
  | BuildExecutionTree
  | ValidateStartup
  | PlanHostServices
  | StartHostServices
  | LoadModules
  | RegisterCapabilities
  | VerifyExtensions
  | AcceptWork.

#[export] Instance phase_eq_dec : EqDecision StartupPhase.
Proof. solve_decision. Defined.

Definition id (p : StartupPhase) : string :=
  match p with
  | ReadConfiguration => "read-configuration"
  | BuildExecutionTree => "build-execution-tree"
  | ValidateStartup => "validate-startup"
  | PlanHostServices => "plan-host-services"
  | StartHostServices => "start-host-services"
  | LoadModules => "load-modules"
  | RegisterCapabilities => "register-capabilities"
  | VerifyExtensions => "verify-extensions"
  | AcceptWork => "accept-work"
  end.

Definition startup_phases : list StartupPhase :=
  [ReadConfiguration; BuildExecutionTree; ValidateStartup; PlanHostServices; StartHostServices; LoadModules;
   RegisterCapabilities; VerifyExtensions; AcceptWork].

(** [startup_sequence]. *)
Definition startup_sequence : list string := id <$> startup_phases.

Record Refusal := { phase : StartupPhase; problems : list string }.

Section started.
Context {Rest Bound : Type} `{!@Configure Rest Bound}.
Context {Transport Mechanism Secret Gathering Source Opened : Type} `{EqDecision Mechanism}.
Context (mechanism_name : Mechanism → string) (scheme : ConfiguredLocation → string).
Context (named : string → option Mechanism) (secret_name : string → result Secret string).
Context (accepted_problems : list PartyConfiguration → ConfiguredLocation → list string).
Context (party_named : list PartyConfiguration → string → option N).
Context (keyword_read : string → result KeyWord string).

Abbreviation Tree := (@ExecutionTree Rest Bound).
Abbreviation Gate := (@ReceiveGate Mechanism).

(** What the tree holds that its sequences and its Parties read. *)
Context (sequences_of : Tree → Configured.ExecutionTree) (parties_declared : Tree → list PartyConfiguration).

(** [route]: what the Subscriptions' filters read, the gathering of names,
    the names it cannot read, and the technology each name it reads is of. *)
Context (filters_read : list Source → Tree → list string).
Context (gathering_of : list Source → list string → Gathering).
Context (refusals : Gathering → list string) (technologies_read : Gathering → list string).
Context (source_technology : Source → string).

(** What a program linked. *)
Record Linked := {
  transports : list (@LinkedTransport Transport);
  sources : list Source;
  authenticators : list Mechanism;
  policies : list string;
  location_policies : list (list Gate → list ConfiguredLocation → string);
  transport_identifiers : list string;
  message_identifiers : list string
}.

(** ** Phase 3: [check] *)

(** [started]: every Location the tree starts, with its stage. *)
Definition started (tree : Tree) : list (string * ConfiguredLocation) :=
  (pair "Receive Location" <$> receive_locations_to_start tree) ++
  (pair "Send Location" <$> send_locations_to_start tree).

Definition uncarried (linked : Linked) (stage : string) (l : ConfiguredLocation) : string :=
  "the " +:+ stage +:+ " '" +:+ l_name l +:+ "' is entered as " +:+ l_address l +:+
  ", and this node carries no transport for " +:+ scheme l +:+ "://; it carries " +:+
  String.concat ", " (transports linked ≫= schemes).

Definition contracted (stage : string) (l : ConfiguredLocation) (contract : string) : string :=
  "the " +:+ stage +:+ " '" +:+ l_name l +:+ "' names the contract '" +:+ contract +:+
  "', and this runtime holds no Stream to a contract at arrival yet".

Definition started_problems (linked : Linked) (one : string * ConfiguredLocation) : list string :=
  let '(stage, l) := one in
  match transport scheme (transports linked) l with Some _ => [] | None => [uncarried linked stage l] end ++
  match l_contract l with Some c => [contracted stage l c] | None => [] end.

Definition with_points (g : Gate) (port : string) (points : list Point) : Gate :=
  {| g_location := g_location g; g_mechanisms := g_mechanisms g; g_parties := g_parties g;
     g_port := port; g_points := points |}.

(** A started Receive Location's gate, its Port and its points set. *)
Definition gate_at (linked : Linked) (tree : Tree) (l : ConfiguredLocation) : result Gate (list string) :=
  match gate_of mechanism_name accepted_problems party_named l (authenticators linked) (parties_declared tree) with
  | Ok gate =>
      match received_at keyword_read (sequences_of tree) (l_name l) with
      | Ok (port, points) => Ok (with_points gate port points)
      | Err why => Err [why]
      end
  | Err refused => Err refused
  end.

(** Every destination's points; none where they are not named well. *)
Definition destination_points (tree : Tree) : list Point :=
  match destinations keyword_read (sequences_of tree) with Ok points => points | Err _ => [] end.

Definition gathering (linked : Linked) (tree : Tree) (gates : list Gate) : Gathering :=
  gathering_of (sources linked)
    (filters_read (sources linked) tree ++ all_names ((gates ≫= g_points) ++ destination_points tree)).

Record Checked := { gates : list Gate; gathered : Gathering; parties : list (@Party Mechanism Secret) }.

Definition check (tree : Tree) (linked : Linked) : result Checked (list string) :=
  let held := parties_of mechanism_name named secret_name (parties_declared tree) (authenticators linked) in
  let all := gate_at linked tree <$> receive_locations_to_start tree in
  let gates := omap ok_of all in
  let gathered := gathering linked tree gates in
  match scheme_problems (transports linked) ++ (started tree ≫= started_problems linked) ++
        default [] (err_of held) ++ concat (omap err_of all) ++
        ((λ refused, "a Subscription's filter cannot be read: " +:+ refused) <$> refusals gathered) with
  | [] => Ok {| gates := gates; gathered := gathered; parties := default [] (ok_of held) |}
  | problems => Err problems
  end.

(** ** Phase 5: [start_host_services] *)

Definition elsewhere (s : HostService) : string :=
  pretty (N.of_nat (length (hp_modules (hs_plan s)))) +:+ " Module(s) need a " +:+ hp_type (hs_plan s) +:+
  ", a Host Service in a process of its own, and this node starts none yet".

Definition start_host_services (services : list HostService) : list HostService * list string :=
  ((λ s, if in_process s then Linked.start s else s) <$> services,
   elsewhere <$> List.filter (λ s, negb (in_process s)) services).

(** ** Phases 6 and 7: [load] *)

(** A capability registered, and the problem kept where it was already. *)
Definition registered (one : string * string * Load) (at_ : Registry * list string) : Registry * list string :=
  let '(capability, module, load) := one in
  match register capability module load (fst at_) with
  | (r, Ok _) => (r, snd at_)
  | (r, Err why) => (r, snd at_ ++ [why])
  end.

Definition module_registered (m : ModuleConfiguration) (at_ : Registry * list string) : Registry * list string :=
  match register_module m (Library (default "" (m_library_path m))) (fst at_) with
  | (r, Ok _) => (r, snd at_)
  | (r, Err why) => (r, snd at_ ++ [why])
  end.

(** The technologies the started Locations choose. *)
Definition used (tree : Tree) (linked : Linked) : list string :=
  omap (λ one, technology <$> transport scheme (transports linked) (snd one)) (started tree).

(** Every capability of what was linked, in the order it is registered. *)
Definition linked_capabilities (tree : Tree) (linked : Linked) (policies_set : list string) (g : Gathering) :
    list (string * string * Load) :=
  ((λ t, ("transport:" +:+ technology t, technology t, LinkedIn)) <$>
     List.filter (λ t, bool_decide (technology t ∈ used tree linked)) (transports linked)) ++
  ((λ s, ("route:" +:+ source_technology s, source_technology s, LinkedIn)) <$>
     List.filter (λ s, bool_decide (source_technology s ∈ technologies_read g)) (sources linked)) ++
  ((λ m, ("authenticate:" +:+ m, m, LinkedIn)) <$>
     sorted_once (receive_locations_to_start tree ≫= l_accept_mechanism)) ++
  ((λ p, ("authorize:" +:+ p, p, LinkedIn)) <$> policies_set) ++
  ((λ n, ("identify:transport:" +:+ n, n, LinkedIn)) <$> transport_identifiers linked) ++
  ((λ n, ("identify:message:" +:+ n, n, LinkedIn)) <$> message_identifiers linked).

Definition load (tree : Tree) (linked : Linked) (policies_set : list string) (g : Gathering) :
    result Registry (list string) :=
  let at_ := foldl (λ at_ one, registered one at_) (∅, []) (linked_capabilities tree linked policies_set g) in
  match foldl (λ at_ m, module_registered m at_) at_ (modules_to_start tree) with
  | (r, []) => Ok r
  | (_, problems) => Err problems
  end.

(** ** Phase 9's first half: [open] *)

(** A secret a Location names, its name read; a transport opened for it,
    and whether it serves a direction. *)
Context (location_secret : ConfiguredLocation → option (result Secret string)).
Context (open_transport : Transport → ConfiguredLocation → Applies → option Secret → result Opened string).
Context (serves : Opened → Applies → bool).

Definition direction (side : Applies) : string := match side with Receive => "receive" | Send => "send" end.

(** [built]: the transport, or the problem where there is one. *)
Definition built_for (linked : Linked) (side : Applies) (l : ConfiguredLocation) : option Opened * list string :=
  match transport scheme (transports linked) l with
  | None => (None, [])
  | Some t =>
      match location_secret l with
      | Some (Err refused) => (None, [refused])
      | secret =>
          match open_transport (transport_of t) l side (secret ≫= ok_of) with
          | Err why => (None, ["the Location '" +:+ l_name l +:+ "': " +:+ why])
          | Ok opened =>
              if serves opened side then (Some opened, [])
              else (None, ["the Location '" +:+ l_name l +:+ "': " +:+ technology t +:+ " does not " +:+
                           direction side +:+ " (ADR-0010)"])
          end
      end
  end.

Record Receiving := { r_configured : ConfiguredLocation; r_gate : Gate; r_transport : Opened }.
Record SendingAt := { s_configured : ConfiguredLocation; s_transport : Opened }.

Definition open_locations (tree : Tree) (linked : Linked) (gates : list Gate) :
    result (list Receiving * list SendingAt) (list string) :=
  let receives := (λ '(l, g), (l, g, built_for linked Receive l)) <$> zip (receive_locations_to_start tree) gates in
  let sends := (λ l, (l, built_for linked Send l)) <$> send_locations_to_start tree in
  match (receives ≫= λ one, snd (snd one)) ++ (sends ≫= λ one, snd (snd one)) with
  | [] =>
      Ok (omap (λ '(l, g, b), (λ o, {| r_configured := l; r_gate := g; r_transport := o |}) <$> fst b) receives,
          omap (λ '(l, b), (λ o, {| s_configured := l; s_transport := o |}) <$> fst b) sends)
  | problems => Err problems
  end.

(** ** The phases in order: [Running::start] *)

Context {File Planned Reached Guard Libraries Pickup Flows : Type}.
Abbreviation Document := (@Document Rest).
Context (read_accepted : result (Document * list XmipApplication * list File * option string) string).
Context (plan_storage : Document → result Planned (list string)) (guard : Document → result Guard (list string)).
Context (unrun : Document → list XmipApplication → list string).
Context (open_libraries : list ModuleConfiguration → result Libraries (list string)).
Context (open_storage : Planned → Tuning.Tuning → result Reached string).
Context (open_pickup : Reached → list XmipApplication → result Pickup string).
Context (open_work : Tree → Libraries → result Flows (list string)).

(** What starting does that is undone by stopping. *)
Inductive Act := HostServicesStarted | LibrariesOpened | StorageReached | LocationsOpened | PickupOpened | Serving.

Record Running := {
  capabilities : Registry;
  host_services : list HostService;
  receiving : list Receiving;
  sending : list SendingAt;
  known : list (string * string);
  refused : option string;
  storage : Reached;
  pickup : Pickup;
  flows : Flows
}.

(** A phase's answer, or its refusal with what was done before it. *)
Definition at_phase {A} (acts : list Act) (p : StartupPhase) (r : result A (list string))
    (go_on : A → list Act * result Running Refusal) : list Act * result Running Refusal :=
  match r with
  | Ok a => go_on a
  | Err why => (acts, Err {| phase := p; problems := why |})
  end.

Definition one_problem {A} (r : result A string) : result A (list string) :=
  match r with Ok a => Ok a | Err why => Err [why] end.

Definition none_of (problems : list string) : result unit (list string) :=
  match problems with [] => Ok tt | _ => Err problems end.

Definition errors_of {A} (r : result A Report) : result A (list string) :=
  match r with Ok a => Ok a | Err report => Err (errors report) end.

Definition running_start (linked : Linked) : list Act * result Running Refusal :=
  at_phase [] ReadConfiguration (one_problem read_accepted) (λ '(document, apps, files, refused),
  at_phase [] ValidateStartup (plan_storage document) (λ planned,
  at_phase [] ValidateStartup (guard document) (λ _,
  at_phase [] ValidateStartup (none_of (unrun document apps)) (λ _,
  at_phase [] ValidateStartup (errors_of (build_execution_tree document apps)) (λ '(tree, _),
  at_phase [] ValidateStartup (check tree linked) (λ checked,
  let policies_set :=
    policies linked ++ ((λ policy, policy (gates checked) (send_locations_to_start tree)) <$> location_policies linked) in
  let '(services, unhosted) := start_host_services (plan (modules_to_start tree)) in
  at_phase [HostServicesStarted] StartHostServices (none_of unhosted) (λ _,
  at_phase [HostServicesStarted] LoadModules (open_libraries (modules_to_start tree)) (λ libraries,
  let acts := [HostServicesStarted; LibrariesOpened] in
  at_phase acts RegisterCapabilities (load tree linked policies_set (gathered checked)) (λ registry,
  at_phase acts AcceptWork (one_problem (open_storage planned (tuning tree))) (λ reached,
  let acts := acts ++ [StorageReached] in
  at_phase acts AcceptWork (open_locations tree linked (gates checked)) (λ '(receiving, sending),
  let acts := acts ++ [LocationsOpened] in
  at_phase acts AcceptWork (one_problem (open_pickup reached apps)) (λ held,
  let acts := acts ++ [PickupOpened] in
  at_phase acts LoadModules (open_work tree libraries) (λ flows,
  (acts ++ [Serving],
   Ok {| capabilities := registry; host_services := services; receiving := receiving; sending := sending;
         known := not_started tree; refused := refused; storage := reached; pickup := held; flows := flows |})))))))))))))).

(** ** What a started node is *)

Lemma ok_all {A B E} (f : A → result B E) (l : list A) : omap err_of (f <$> l) = [] →
  Forall2 (λ a b, f a = Ok b) l (omap ok_of (f <$> l)).
Proof. apply omap_results. Qed.

Lemma omap_err_nil {A E} (rs : list (result A (list E))) :
  concat (omap err_of rs) = [] → (∀ r e, r ∈ rs → r = Err e → e ≠ []) → omap err_of rs = [].
Proof.
  intros Hc Hne. destruct (omap err_of rs) as [|e es] eqn:He; [done|]. exfalso.
  assert (e ∈ omap err_of rs) as Hin by (rewrite He; by left).
  apply list_elem_of_omap in Hin as (r & Hr & Her). simpl in Hc. apply app_eq_nil in Hc as [Hc _].
  destruct r as [a|e']; simpl in Her; [done|]. injection Her as ->. by eapply Hne.
Qed.

Lemma gate_at_told linked tree l e : gate_at linked tree l = Err e → e ≠ [].
Proof.
  unfold gate_at, gate_of. case_match eqn:Hg.
  - destruct (received_at _ _ _) as [[port points]|why]; [done|]. by intros [= <-].
  - case_match; [done|]. injection Hg as <-. by intros [= <-].
Qed.

Lemma gate_at_own linked tree l g : gate_at linked tree l = Ok g → g_location g = l_name l.
Proof.
  unfold gate_at, gate_of. case_match eqn:Hg; [|done]. case_match; [|done]. injection Hg as <-.
  destruct (received_at _ _ _) as [[port points]|why]; [|done]. by intros [= <-].
Qed.

(** A tree that checks: its addresses each choose one transport, no Location
    holds a contract, every name is read, and each Receive Location has its
    own gate. *)
Lemma check_ok tree linked checked : check tree linked = Ok checked →
  scheme_problems (transports linked) = [] ∧
  (∀ stage l, (stage, l) ∈ started tree → is_Some (transport scheme (transports linked) l) ∧ l_contract l = None) ∧
  Forall2 (λ l g, gate_at linked tree l = Ok g) (receive_locations_to_start tree) (gates checked) ∧
  refusals (gathered checked) = [].
Proof.
  unfold check. destruct (scheme_problems _ ++ _) eqn:Hall; [|done]. intros [= <-]. simpl.
  apply app_eq_nil in Hall as [Hsch Hall]. apply app_eq_nil in Hall as [Hst Hall].
  apply app_eq_nil in Hall as [_ Hall]. apply app_eq_nil in Hall as [Hg Href].
  split_and!; [done| | |by apply fmap_nil_inv in Href].
  - intros stage l Hin. apply (mbind_nil _ _ _ Hst) in Hin. simpl in Hin. apply app_eq_nil in Hin as [Ht Hc].
    destruct (transport _ _ _); [|done]. by destruct (l_contract l).
  - apply ok_all, omap_err_nil; [done|]. intros r e Hr ->. apply list_elem_of_fmap in Hr as (l & Hr & _).
    symmetry in Hr. by eapply gate_at_told.
Qed.

(** A Location's transport built: chosen by its address, and of its
    direction; or a problem said, where its address chooses one. *)
Lemma built_for_ok linked side l :
  is_Some (transport scheme (transports linked) l) → snd (built_for linked side l) = [] →
  ∃ o t secret, fst (built_for linked side l) = Some o ∧ transport scheme (transports linked) l = Some t ∧
    open_transport (transport_of t) l side secret = Ok o ∧ serves o side = true.
Proof.
  unfold built_for. intros [t Ht]. rewrite Ht.
  destruct (location_secret l) as [[secret|why]|]; [|done|]; simpl;
    (destruct (open_transport _ l side _) as [o|why] eqn:Ho; [|done]);
    (destruct (serves o side) eqn:Hs; [|done]); intros _; simpl; by eauto 10.
Qed.

(** Every Location with what it is given built, in order. *)
Definition received_rightly (linked : Linked) (tree : Tree) (l : ConfiguredLocation) (r : Receiving) : Prop :=
  r_configured r = l ∧ g_location (r_gate r) = l_name l ∧ serves (r_transport r) Receive = true ∧
  ∃ t secret, transport scheme (transports linked) l = Some t ∧
    open_transport (transport_of t) l Receive secret = Ok (r_transport r).

Definition sent_rightly (linked : Linked) (l : ConfiguredLocation) (s : SendingAt) : Prop :=
  s_configured s = l ∧ serves (s_transport s) Send = true ∧
  ∃ t secret, transport scheme (transports linked) l = Some t ∧
    open_transport (transport_of t) l Send secret = Ok (s_transport s).

Lemma receives_rightly linked tree ls gs :
  Forall2 (λ l g, gate_at linked tree l = Ok g) ls gs →
  (∀ l, l ∈ ls → is_Some (transport scheme (transports linked) l)) →
  let receives := (λ '(l, g), (l, g, built_for linked Receive l)) <$> zip ls gs in
  (receives ≫= λ one, snd (snd one)) = [] →
  Forall2 (received_rightly linked tree) ls
    (omap (λ '(l, g, b), (λ o, {| r_configured := l; r_gate := g; r_transport := o |}) <$> fst b) receives).
Proof.
  induction 1 as [|l g ls gs Hg _ IH]; intros Hls; simpl; [constructor|]. intros [Hb Hrest]%app_eq_nil.
  destruct (built_for_ok linked Receive l) as (o & t & secret & Ho & Ht & Hopen & Hs); [apply Hls; by left|done|].
  rewrite Ho. simpl. constructor.
  - split_and!; simpl; [done|by eapply gate_at_own|done|by eauto].
  - apply IH; [|done]. intros l' ?. apply Hls. by right.
Qed.

Lemma sends_rightly linked ls :
  (∀ l, l ∈ ls → is_Some (transport scheme (transports linked) l)) →
  let sends := (λ l, (l, built_for linked Send l)) <$> ls in
  (sends ≫= λ one, snd (snd one)) = [] →
  Forall2 (sent_rightly linked) ls (omap (λ '(l, b), (λ o, {| s_configured := l; s_transport := o |}) <$> fst b) sends).
Proof.
  induction ls as [|l ls IH]; intros Hls; simpl; [constructor|]. intros [Hb Hrest]%app_eq_nil.
  destruct (built_for_ok linked Send l) as (o & t & secret & Ho & Ht & Hopen & Hs); [apply Hls; by left|done|].
  rewrite Ho. simpl. constructor.
  - split_and!; simpl; [done|done|by eauto].
  - apply IH; [|done]. intros l' ?. apply Hls. by right.
Qed.

Lemma open_locations_ok tree linked checked receiving sending :
  check tree linked = Ok checked → open_locations tree linked (gates checked) = Ok (receiving, sending) →
  Forall2 (received_rightly linked tree) (receive_locations_to_start tree) receiving ∧
  Forall2 (sent_rightly linked) (send_locations_to_start tree) sending.
Proof.
  intros (_ & Hst & Hg & _)%check_ok. unfold open_locations.
  destruct (_ ++ _) eqn:Hall; [|done]. apply app_eq_nil in Hall as [Hr Hs]. intros [= <- <-]. split.
  - apply receives_rightly; [done| |done]. intros l Hin.
    destruct (Hst "Receive Location" l) as [? _]; [|done]. apply elem_of_app. left. by apply list_elem_of_fmap_2.
  - apply sends_rightly; [|done]. intros l Hin.
    destruct (Hst "Send Location" l) as [? _]; [|done]. apply elem_of_app. right. by apply list_elem_of_fmap_2.
Qed.

(** ** Each capability registered once *)

Definition serves_as (r : Registry) (one : string * string * Load) : Prop :=
  rc_module <$> r !! one.1.1 = Some one.1.2.

Lemma registered_spec one at_ : let at_' := registered one at_ in
  fst at_ ⊆ fst at_' ∧ ∃ more, snd at_' = snd at_ ++ more ∧ (more = [] → serves_as (fst at_') one).
Proof.
  destruct one as [[capability module] how], at_ as [r ps]. simpl.
  destruct (register capability module how r) as [r' [u|why]] eqn:Hr; apply register_spec in Hr as [Hsub Hr]; simpl.
  - split; [done|]. exists []. rewrite app_nil_r. split; [done|]. intros _. apply Hr.
  - split; [done|]. exists [why]. split; [done|]. done.
Qed.

Lemma serves_as_grows r r' one : r ⊆ r' → serves_as r one → serves_as r' one.
Proof.
  unfold serves_as. intros Hsub Hr. destruct (r !! one.1.1) as [c|] eqn:Hc; [|done].
  by rewrite (lookup_weaken _ _ _ _ Hc Hsub).
Qed.

Lemma all_registered ones at_ : let at_' := foldl (λ at_ one, registered one at_) at_ ones in
  fst at_ ⊆ fst at_' ∧ ∃ more, snd at_' = snd at_ ++ more ∧ (more = [] → ∀ one, one ∈ ones → serves_as (fst at_') one).
Proof.
  revert at_. induction ones as [|one ones IH]; intros at_; simpl.
  - split; [done|]. exists []. rewrite app_nil_r. split; [done|]. intros _ one Hin. by apply elem_of_nil in Hin.
  - destruct (registered_spec one at_) as [Hsub (more & Hmore & Hone)].
    destruct (IH (registered one at_)) as [Hsub' (more' & Hmore' & Hall)]. split; [by etrans|].
    exists (more ++ more'). rewrite Hmore', Hmore, <-app_assoc. split; [done|].
    intros [-> ->]%app_eq_nil one' [->|?]%elem_of_cons; [|by apply Hall]. eapply serves_as_grows; [exact Hsub'|by apply Hone].
Qed.

Lemma modules_registered ms at_ : let at_' := foldl (λ at_ m, module_registered m at_) at_ ms in
  fst at_ ⊆ fst at_' ∧ ∃ more, snd at_' = snd at_ ++ more.
Proof.
  revert at_. induction ms as [|m ms IH]; intros [r ps]; simpl; [split; [done|]; exists []; by rewrite app_nil_r|].
  unfold module_registered at 2 4. simpl. unfold register_module.
  destruct (register_claims _ _ _ r) as [r' [u|why]] eqn:Hr; apply register_claims_grows in Hr.
  - destruct (IH (r', ps)) as [Hsub Hps]. split; [by etrans|done].
  - destruct (IH (r', ps ++ [why])) as [Hsub (more & Hps)]. split; [by etrans|]. exists ([why] ++ more).
    rewrite Hps. simpl. by rewrite <-app_assoc.
Qed.

Lemma load_ok tree linked policies_set g r : load tree linked policies_set g = Ok r →
  ∀ one, one ∈ linked_capabilities tree linked policies_set g → serves_as r one.
Proof.
  unfold load.
  destruct (all_registered (linked_capabilities tree linked policies_set g) (∅, [])) as [_ (more & Hmore & Hall)].
  destruct (modules_registered (modules_to_start tree)
    (foldl (λ at_ one, registered one at_) (∅, []) (linked_capabilities tree linked policies_set g))) as [Hsub (more' & Hmore')].
  destruct (foldl (λ at_ m, module_registered m at_) _ _) as [r' ps] eqn:Hf. simpl in Hsub, Hmore'.
  destruct ps; [|done]. intros [= <-] one Hin. rewrite Hmore in Hmore'. simpl in Hmore'.
  symmetry in Hmore'. apply app_eq_nil in Hmore' as [-> _]. eapply serves_as_grows; [exact Hsub|by apply Hall].
Qed.

(** ** Started, or refused *)

(** A refusal names a problem, as what each phase is given documents. *)
Record PhasesTold : Prop := {
  plan_told d : plan_storage d ≠ Err [];
  guard_told d : guard d ≠ Err [];
  libraries_told ms : open_libraries ms ≠ Err [];
  work_told tree libraries : open_work tree libraries ≠ Err []
}.

(** What an answer of a phase says: a refusal is rightly made. *)
Definition rightly_refused (acts : list Act) (r : Refusal) : Prop :=
  Serving ∉ acts ∧ problems r ≠ [] ∧ (phase r = ReadConfiguration ∨ phase r = ValidateStartup → acts = []).

Lemma at_phase_ok {A} acts p (r : result A (list string)) go_on (P : list Act * result Running Refusal → Prop) :
  (∀ a, r = Ok a → P (go_on a)) →
  (∀ why, r = Err why → P (acts, Err {| phase := p; problems := why |})) → P (at_phase acts p r go_on).
Proof. unfold at_phase. destruct r; auto. Qed.

Lemma none_of_told ps why : none_of ps = Err why → why ≠ [].
Proof. unfold none_of. destruct ps; [done|]. by intros [= <-]. Qed.

Lemma one_problem_told {A} (r : result A string) why : one_problem r = Err why → why ≠ [].
Proof. destruct r; [done|]. by intros [= <-]. Qed.

Lemma one_ok {A} (r : result A string) a : one_problem r = Ok a → r = Ok a.
Proof. destruct r; [|done]. by intros [= ->]. Qed.

Lemma errors_ok {A} (r : result A Report) a : errors_of r = Ok a → r = Ok a.
Proof. destruct r; [|done]. by intros [= ->]. Qed.

Lemma load_told tree linked policies_set g why : load tree linked policies_set g = Err why → why ≠ [].
Proof. unfold load. destruct (foldl _ _ _) as [r [|p ps]]; [done|]. by intros [= <-]. Qed.

Lemma check_told tree linked why : check tree linked = Err why → why ≠ [].
Proof. unfold check. destruct (scheme_problems _ ++ _); [done|]. by intros [= <-]. Qed.

Lemma open_told tree linked gs why : open_locations tree linked gs = Err why → why ≠ [].
Proof. unfold open_locations. destruct (_ ++ _); [done|]. by intros [= <-]. Qed.

Lemma errors_told `{!@ConfigureLaws Rest Bound _} d apps why :
  errors_of (build_execution_tree d apps) = Err why → why ≠ [].
Proof. destruct (build_execution_tree d apps) eqn:Hb; [done|]. intros [= <-]. by eapply build_told. Qed.

Lemma services_started services : none_of (start_host_services services).2 = Ok tt →
  Forall (λ s, hs_state s = Running_ ∧ in_process s = true) (start_host_services services).1.
Proof.
  unfold none_of, start_host_services. simpl. induction services as [|s services IH]; simpl; [constructor|].
  destruct (in_process s) eqn:Hs; simpl; [|done]. intros Hrest. constructor; [|by apply IH]. done.
Qed.

(** A node running as its configuration says. *)
Definition runs_whole (linked : Linked) (running : Running) : Prop :=
  ∃ d apps files tree report,
    read_accepted = Ok (d, apps, files, refused running) ∧ build_execution_tree d apps = Ok (tree, report) ∧
    known running = not_started tree ∧
    Forall2 (received_rightly linked tree) (receive_locations_to_start tree) (receiving running) ∧
    Forall2 (sent_rightly linked) (send_locations_to_start tree) (sending running) ∧
    (∀ t, t ∈ transports linked → technology t ∈ used tree linked →
       serves_as (capabilities running) ("transport:" +:+ technology t, technology t, LinkedIn)) ∧
    Forall (λ s, hs_state s = Running_ ∧ in_process s = true) (host_services running).

End started.

(** ** A node of one Receive Location *)

#[local] Existing Instance plain_configure.
#[local] Existing Instance plain_laws.

Definition no_sequences : Configured.ExecutionTree :=
  {| correlations := []; receive_ports := []; designed_send_ports := []; send_port_groups := [];
     send_location_sets := []; Configured.work_process_sets := [] |}.

Definition file_linked : @Linked string string string :=
  {| transports := [{| technology := "xmip-core-transport-file"; schemes := ["file"]; transport_of := "file" |}];
     sources := []; authenticators := []; policies := []; location_policies := [λ _ _, "location"];
     transport_identifiers := []; message_identifiers := [] |}.

(** Started, its Work Processes' units as they are answered. *)
Definition start_orders (work : result unit (list string)) :=
  running_start (Rest := unit) (Bound := unit) (Secret := string) (Gathering := unit)
    (λ m : string, m) (λ _, "file") (λ _, None) Ok (λ _ _, []) (λ _ _, None) (λ _, Err "no key")
    (λ _, no_sequences) (λ _, []) (λ _ _, []) (λ _ _, tt) (λ _, []) (λ _, []) (λ s : string, s)
    (λ _, None) (λ t l _ _, Ok (t +:+ " at " +:+ l_address l)) (λ _ _, true)
    (File := unit) (Guard := unit)
    (Ok (orders, [], [], None)) (λ _, Ok "alone") (λ _, Ok tt) (λ _ _, []) (λ _, Ok tt)
    (λ planned _, Ok planned) (λ _ _, Ok tt) (λ _ _, work) file_linked.

(** What a Work Process's unit refuses is refused at phase 6 once phase 9 has
    reached Xmip Storage and built the Locations' transports. *)
Lemma refused_after_storage :
  start_orders (Err ["no module 'billing' opened holds the unit 'bill'"]) =
  ([HostServicesStarted; LibrariesOpened; StorageReached; LocationsOpened; PickupOpened],
   Err {| phase := LoadModules; problems := ["no module 'billing' opened holds the unit 'bill'"] |}).
Proof. reflexivity. Qed.

