(* ===== verification/Certified.v ===== *)
(** * When a node's certificates are due for renewal: [src/running/certificate_standing.rs]

    Every certificate a node's configuration names ([configured]), each with
    what its file said when it was read last ([current]: read again only
    once the file changed), and what the node says of each ([publish]). A
    file's change and text, what a certificate is and when its renewal is
    due are the platform's and the certificate crate's. *)

From Stdlib Require Import Ascii String.
From stdpp Require Import base numbers list strings pretty.
From S2P Require Import Prelude Mood.

Local Open Scope string_scope.
Local Open Scope list_scope.

Section standing.
Context {Path Modified : Type} `{!EqDecision Modified}.
Context (display : Path → string) (join : string → Path).

(** A certificate's validity and serial, or why it did not read. *)
Record Leaf := { not_before : Z; not_after : Z; serial : string }.
Abbreviation Read := (result Leaf string).

Record Held := { word : string; path : Path; read : option (option Modified * Read) }.

(** [CertificateStanding::configured]: what the configuration names, each
    not yet read. *)
Definition configured (operate receive storage : option string) : list Held :=
  omap (λ named, (λ p, {| word := named.1; path := join p; read := None |}) <$> named.2)
    [("operate", operate); ("receive", receive); ("storage", storage)].

(** A file now: when it was modified, where its metadata says, and what
    reading and parsing it says. *)
Record File := { modified : option Modified; says : Read }.

(** [Held::current]: what it said, and whether the file was read for it. *)
Definition fresh (h : Held) (f : File) : option Read :=
  match read h with
  | Some (at_, what) => if bool_decide (at_ = modified f) && bool_decide (is_Some (modified f)) then Some what else None
  | None => None
  end.

Definition current (h : Held) (f : File) : Held * Read * bool :=
  match fresh h f with
  | Some what => (h, what, false)
  | None => ({| word := word h; path := path h; read := Some (modified f, says f) |}, says f, true)
  end.

(** What the certificate crate says of a validity at a moment. *)
Record Standing_ := { expired : bool; due : bool; standing_word : string; renew_at : Z }.
Context (between : Z → Z → Z → Standing_) (moment : Z → string).

(** [said]. *)
Definition said (p : Path) (l : Leaf) (now : Z) : Health * string :=
  let s := between (not_before l) (not_after l) now in
  (if expired s then Done else if due s then Stressed else Fine,
   standing_word s +:+ ": " +:+ serial l +:+ " at " +:+ display p +:+ ", valid until " +:+ moment (not_after l) +:+
   ", renewal due from " +:+ moment (renew_at s)).

Definition said_of (p : Path) (r : Read) (now : Z) : Health * string :=
  match r with Ok l => said p l now | Err unread => (Done, unread) end.

(** [CertificateStanding::publish]: whole seconds of its stamp. *)
Definition scope (node word : string) : string := under (under node "certificate") word.

Definition publish (node : string) (now_nanos : Z) (files : Path → File) (held : list Held) : list Held * list HealthRecord :=
  let now := Z.quot now_nanos 1000000000 in
  ((λ h, (current h (files (path h))).1.1) <$> held,
   (λ h, let '(health, evidence) := said_of (path h) (current h (files (path h))).1.2 now in
         (scope node (word h), health, evidence)) <$> held).

(** ** Rounds of publication over a file that changes *)

Fixpoint rounds (h : Held) (l : list File) : Held * list (Read * bool) :=
  match l with
  | [] => (h, [])
  | f :: l =>
      let '(h, what, was_read) := current h f in
      let '(h, rest) := rounds h l in (h, (what, was_read) :: rest)
  end.

(** A file whose content a moment of its modification fixes. *)
Definition steady (content : Modified → Read) (f : File) : Prop := ∀ t, modified f = Some t → says f = content t.

Definition kept_true (content : Modified → Read) (h : Held) : Prop :=
  ∀ t what, read h = Some (Some t, what) → what = content t.

Lemma current_says content h f : steady content f → kept_true content h →
  (current h f).1.2 = says f ∧ kept_true content (current h f).1.1.
Proof.
  intros Hf Hh. unfold current, fresh. destruct (read h) as [[at_ what]|] eqn:Hr; simpl.
  2: { split; [done|]. intros t w [= Hm <-]. by apply Hf. }
  destruct (bool_decide (at_ = modified f)) eqn:Hm, (bool_decide (is_Some (modified f))) eqn:Hs; simpl;
    try (split; [done|]; intros t w [= Hm' <-]; by apply Hf).
  apply bool_decide_eq_true in Hm, Hs. destruct Hs as [t Ht]. split; [|done].
  rewrite (Hf t) by done. apply (Hh t). congruence.
Qed.

(** However many rounds are published, each says what the file says then,
    where its content is fixed by when it was modified; and a file that did
    not change since the round before is not read again. *)
Lemma rounds_say content h l : Forall (steady content) l → kept_true content h → (rounds h l).2.*1 = says <$> l.
Proof.
  intros Hl. revert h. induction Hl as [|f l Hf Hl IH]; intros h Hh; [done|]. simpl.
  destruct (current_says content h f Hf Hh) as [Hw Hk].
  destruct (current h f) as [[h' what] b]. simpl in *.
  specialize (IH h' Hk). destruct (rounds h' l) as [h2 rest]. simpl in IH. csimpl. by f_equal.
Qed.

Lemma not_read_again h f g : modified g = modified f → is_Some (modified f) → (current (current h f).1.1 g).2 = false.
Proof.
  intros Hm [t Ht].
  assert (read (current h f).1.1 = Some (modified f, (current h f).1.2)) as Hr.
  { unfold current. destruct (fresh h f) as [what|] eqn:He; [|done]. simpl. unfold fresh in He.
    destruct (read h) as [[at_ w]|]; [|done].
    destruct (bool_decide (at_ = modified f)) eqn:Ha; [|done]. apply bool_decide_eq_true in Ha.
    destruct (bool_decide (is_Some (modified f))); [|done]. simpl in He. congruence. }
  destruct (current h f) as [[h' w] b]. simpl in *.
  unfold current, fresh. rewrite Hr, Hm, bool_decide_true, bool_decide_true; [done|by eexists|done].
Qed.
End standing.
