(* ===== verification/Snapshot.v ===== *)
(** * What a running node says of itself: [src/running/publication.rs], [src/running/publication/stopped.rs], [src/outcome.rs], [src/running/certificate_standing.rs], [src/storage/reached.rs]

    What a node counted of its Streams and Messages ([Tally]), and its
    publication's parts: the record of each Location and Send Port
    ([stage_records]), the counts at each scope ([counts]), the standing of
    its certificates and its Storage, and what it leaves once stopped
    ([stopped_records]). A record is its scope, its health with a severity,
    and its evidence. How a snapshot keeps them, what draws its topology and
    the moments it is stamped with are another crate's ([observe]). *)

From Stdlib Require Import Ascii String.
From stdpp Require Import base numbers list gmap strings pretty sorting.
From S2P Require Import Prelude Text Arrival Validated SendStep Figures Mood.

Local Open Scope string_scope.
Local Open Scope list_scope.

(** ** What became of every Stream: [Tally], [Outcomes] *)

Record Outcomes := {
  received : N; routed : N; unroutable : N; held : N; refused : N; failed : N; sent : N; not_sent : N
}.

(** The counters, wrapping at their width; why each Receive Location that
    stopped did; and each sent Message's own share, kept by [Own]. *)
Record Tally (Own : Type) := { counted : Outcomes; failures : list (string * string); own : Own }.
Arguments counted {Own} _.
Arguments failures {Own} _.
Arguments own {Own} _.

Definition no_outcomes : Outcomes :=
  {| received := 0; routed := 0; unroutable := 0; held := 0; refused := 0; failed := 0; sent := 0; not_sent := 0 |}.

Section tally.
Context {Presented Identity Alignment Refusal Decision PromotionError Context_ Promoted Routing Stream : Type}.
Abbreviation Arrived := (@Arrived Presented Identity Alignment Refusal Decision PromotionError Context_ Promoted Routing Stream).

(** [retains]: nothing took it. *)
Definition retains (a : Arrived) : bool := match a with ArrivedUnroutable _ _ _ _ => true | _ => false end.

Definition routing_of (a : Arrived) : option Routing :=
  match a with
  | ArrivedRouted _ _ r | ArrivedUnroutable _ _ r _ => Some r
  | ArrivedRefused _ | ArrivedFailed _ => None
  end.

(** [Tally::record]: what became of a Stream, and the matches held. *)
Definition record_arrived (a : Arrived) (held_ : N) (o : Outcomes) : Outcomes :=
  let one (b : bool) (n : N) := if b then u64_add n 1 else n in
  {| received := u64_add (received o) 1;
     routed := one match a with ArrivedRouted _ _ _ => true | _ => false end (routed o);
     unroutable := one (retains a) (unroutable o);
     held := u64_add (held o) held_;
     refused := one match a with ArrivedRefused _ => true | _ => false end (refused o);
     failed := one match a with ArrivedFailed _ => true | _ => false end (failed o);
     sent := sent o; not_sent := not_sent o |}.

(** Every Stream received became one thing. *)
Lemma record_adds_up a h o :
  (received o = routed o + unroutable o + refused o + failed o)%N → (received o < u64_max)%N →
  let o := record_arrived a h o in (received o = routed o + unroutable o + refused o + failed o)%N.
Proof.
  unfold u64_max. intros Hsum Hmax. destruct a; simpl; rewrite !u64_add_small; lia.
Qed.
End tally.

(** [Tally::sent], [not_sent] and [fail], where [push] keeps a share. *)
Section sent.
Context {Own : Type} (push : N → Own → Own).

Definition count_one (done : bool) (o : Outcomes) : Outcomes :=
  {| received := received o; routed := routed o; unroutable := unroutable o; held := held o; refused := refused o;
     failed := failed o; sent := (if done then u64_add (sent o) 1 else sent o);
     not_sent := (if done then not_sent o else u64_add (not_sent o) 1) |}.

Definition tally_sent (share : option N) (t : Tally Own) : Tally Own :=
  {| counted := count_one true (counted t); failures := failures t;
     own := match share with Some share => push share (own t) | None => own t end |}.

Definition tally_not_sent (t : Tally Own) : Tally Own :=
  {| counted := count_one false (counted t); failures := failures t; own := own t |}.

Definition fail (location why : string) (t : Tally Own) : Tally Own :=
  {| counted := counted t; failures := failures t ++ [(location, why)]; own := own t |}.
End sent.

Definition BLOCKED_SEVERITY : N := 95.

Definition fine : Standing := (Fine, severity Fine).
Definition done_ : Standing := (Done, severity Done).

(** ** The Locations and the Send Ports: [stage_records] *)

Section published.
Context (port_says : PortFigures → string).

Definition started_at (address : string) : string := "started at " +:+ address.

Definition location_record (node : string) (failures : list (string * string)) (l : Stage * ConfiguredLocation) : StageRecord :=
  let scope := scope_of node l.1 (l_name l.2) in
  match List.find (λ f, String.eqb (fst f) (l_name l.2)) failures with
  | Some (_, why) => (scope, done_, why)
  | None => (scope, fine, started_at (l_address l.2))
  end.

(** A Port's mood. *)
Definition mood (f : PortFigures) : Standing :=
  if (pf_failing f =? 0)%N && (pf_unconfirmed f =? 0)%N && bool_decide (pf_unread f = None) then fine
  else if (pf_failing f =? 0)%N || negb (pf_blocked f) then done_
  else (Done, BLOCKED_SEVERITY).

(** A Port's record: its Send Location's of the same name where there is
    one, added to while that is fine, else its own. *)
Fixpoint with_port (scope : string) (f : PortFigures) (records : list StageRecord) : list StageRecord :=
  match records with
  | [] => [(scope, mood f, "Send Port; " +:+ port_says f)]
  | (at_, standing, evidence) :: rest =>
      if String.eqb at_ scope then
        (if bool_decide (standing = fine) then (at_, mood f, evidence +:+ "; " +:+ port_says f) else (at_, standing, evidence)) :: rest
      else (at_, standing, evidence) :: with_port scope f rest
  end.

Definition stage_records (node : string) (locations : list (Stage * ConfiguredLocation)) (failures : list (string * string))
    (figures : list (string * PortFigures)) : list StageRecord :=
  foldl (λ records p, with_port (scope_of node Send p.1) p.2 records) (location_record node failures <$> locations) figures.

(** [not_started_records]. *)
Definition NOT_STARTED_severity : Standing := (Done, 0%N).

Definition not_started_records (not_started node : string) (known : list (Stage * string)) : list StageRecord :=
  (λ k, (scope_of node k.1 k.2, NOT_STARTED_severity, not_started)) <$> known.

(** ** The counts: [counts] *)

Abbreviation Counting := (string * Counted * N)%type.

Definition port_counts (node : string) (p : string * PortFigures) : list Counting :=
  let scope := scope_of node Send p.1 in
  [(scope, Messages, pf_sent p.2); (scope, Failed, pf_failed p.2); (scope, Retrying, pf_waiting p.2)].

Definition counts (node : string) (o : Outcomes) (ports : list (string * PortFigures)) : list Counting :=
  let sent_ := (sent o - u64_wrap (sumN ((λ p, pf_sent (snd p)) <$> ports)))%N in
  let failed_ := (u64_add (u64_add (refused o) (failed o)) (not_sent o) - u64_wrap (sumN ((λ p, pf_failed (snd p)) <$> ports)))%N in
  [(under node (stage_name Receive), Streams, received o); (under node (stage_name Process), Journeys, routed o);
   (under node (stage_name Send), Messages, sent_); (node, Failed, failed_)] ++ (ports ≫= port_counts node).

(** A scope's measure is the sum of every count of the kind within it, by
    what scope contains what ([observe]). *)
Section measure.
Context (within : string → string → bool).

Definition measured (at_ : string) (kind : Counted) (l : list Counting) : N :=
  sumN (omap (λ c, if within at_ c.1.1 && bool_decide (c.1.2 = kind) then Some c.2 else None) l).

(** A scope contains itself, and whatever is under what it contains. *)
Definition contains_under : Prop :=
  (∀ a, within a a = true) ∧ (∀ a b part, within a b = true → within a (under b part) = true).

Lemma measured_app at_ kind l k : measured at_ kind (l ++ k) = (measured at_ kind l + measured at_ kind k)%N.
Proof. unfold measured. by rewrite omap_app, sumN_app. Qed.

Lemma measured_cons at_ kind c l : measured at_ kind (c :: l) =
  ((if within at_ c.1.1 && bool_decide (c.1.2 = kind) then c.2 else 0) + measured at_ kind l)%N.
Proof. unfold measured. simpl. by destruct (_ && _); rewrite ?sumN_cons. Qed.

(** What the ports count of a kind, at a scope the send stage is within. *)
Definition port_count (kind : Counted) (f : PortFigures) : N :=
  match kind with Messages => pf_sent f | Failed => pf_failed f | Retrying => pf_waiting f | _ => 0 end.

Lemma measured_ports at_ node kind ports : contains_under → within at_ (under node (stage_name Send)) = true →
  measured at_ kind (ports ≫= port_counts node) = sumN ((λ p, port_count kind (snd p)) <$> ports).
Proof.
  intros [_ Hu] Hs. induction ports as [|[p f] ports IH]; [done|].
  rewrite bind_cons, fmap_cons, sumN_cons, measured_app, IH. f_equal. unfold port_counts. rewrite !measured_cons.
  cbn [fst snd]. unfold scope_of. rewrite Hu by done. unfold measured. simpl.
  destruct kind; simpl; lia.
Qed.
End measure.

(** ** What a node leaves once stopped: [stopped] *)

Definition kept_scope (at_ capability scope : string) : bool :=
  starts_with capability scope || starts_with (under at_ (stage_name Process) +:+ "/") scope.

Definition stopped_record (at_ capability not_started said : string) (r : StageRecord) : StageRecord :=
  let '(scope, standing, evidence) := r in
  if String.eqb evidence not_started || kept_scope at_ capability scope then r
  else (scope, NOT_STARTED_severity, if String.eqb scope at_ then said else "stopped with the node").

Definition stopped_records (at_ capability not_started said : string) (last : list StageRecord) : list StageRecord :=
  stopped_record at_ capability not_started said <$> last.

(** ** The whole of it: [Running::snapshot] *)

(** A Subscription's standing, of which the snapshot says this. *)
Record SubscriptionStanding := { s_name : string; s_paused : bool; s_by : string; s_held : N; s_picked_up : N }.

Definition subscription_record (node : string) (s : SubscriptionStanding) : HealthRecord :=
  let scope := scope_of node Process (s_name s) in
  if s_paused s then (scope, Paused, "paused by " +:+ s_by s +:+ "; holds " +:+ pretty (s_held s) +:+ " Message(s)")
  else (scope, Fine, "active; picked up " +:+ pretty (s_picked_up s)).

(** [declared]: the stages it serves. *)
Definition serves (locations : list (Stage * ConfiguredLocation)) (s : Stage) : bool :=
  existsb (λ l, bool_decide (l.1 = s)) locations.

Definition declared (locations : list (Stage * ConfiguredLocation)) (subscriptions : list SubscriptionStanding) : list Stage :=
  omap (λ s : Stage * bool, if s.2 then Some s.1 else None)
    [(Receive, serves locations Receive); (Process, negb (bool_decide (subscriptions = []))); (Send, serves locations Send)].

(** A capability loaded: its Module, its words, and whether it was linked or
    opened from a library. *)
Record Loaded := { module : string; capability : string; library : option string }.

Definition loaded_record (node : string) (c : Loaded) : HealthRecord :=
  (under node ("module/" +:+ module c), Fine,
   "loaded (" +:+ match library c with None => "linked" | Some path => "from " +:+ path end +:+ "), serving " +:+ capability c).

Section snapshot.
Context (system_process capability_scope : string → string) (alive : string) (pid : N).
Context (evidence_of : list Stage → bool → string) (not_started_said : string).

(** What the node is made of at that moment. *)
Record Node := {
  n_at : string;
  n_online : bool;
  n_capabilities : list Loaded;
  n_locations : list (Stage * ConfiguredLocation);
  n_not_started : list (Stage * string);
  n_failures : list (string * string);
  n_figures : list (string * PortFigures);
  n_subscriptions : list SubscriptionStanding;
  n_storage : list HealthRecord;
  n_certificates : list HealthRecord
}.

Definition node_records (n : Node) : list HealthRecord :=
  [(n_at n, Fine, "running: " +:+ pretty (N.of_nat (length (n_capabilities n))) +:+ " capability(ies) loaded, " +:+
      pretty (N.of_nat (length (n_locations n))) +:+ " Location(s) started");
   (system_process (n_at n), Fine, alive +:+ ": process " +:+ pretty pid);
   (capability_scope (n_at n), Fine, evidence_of (declared (n_locations n) (n_subscriptions n)) (n_online n))].

Definition staged (n : Node) : list StageRecord :=
  not_started_records not_started_said (n_at n) (n_not_started n) ++
  stage_records (n_at n) (n_locations n) (n_failures n) (n_figures n).

Definition snapshot_records (n : Node) : list StageRecord :=
  (with_severity <$> (node_records n ++ (loaded_record (n_at n) <$> n_capabilities n) ++ n_storage n ++ n_certificates n ++
    (subscription_record (n_at n) <$> n_subscriptions n))) ++ staged n.
End snapshot.
End published.

(** ** Counted once *)

Definition sums_fit (o : Outcomes) (ports : list (string * PortFigures)) : Prop :=
  (sumN ((λ p, pf_sent (snd p)) <$> ports) ≤ u64_max)%N ∧ (sumN ((λ p, pf_failed (snd p)) <$> ports) ≤ u64_max)%N ∧
  (refused o + failed o + not_sent o ≤ u64_max)%N.

(** A Message counted by a Send Port and by the node is measured once:
    at the send stage and at the node alike, Messages measure what the
    busier of the tally and the Ports together sent, and at the node what
    failed measures so; Streams are what was received, Journeys what was
    routed, and what waits for a retry what waits at its Ports. *)
Theorem measured_once (within : string → string → bool) node o ports at_ :
  contains_under within → sums_fit o ports → at_ = node ∨ at_ = under node (stage_name Send) →
  let m kind := measured within at_ kind (counts node o ports) in
  let of_ports f := sumN ((λ p, f (snd p)) <$> ports) in
  m Messages = N.max (sent o) (of_ports pf_sent) ∧
  m Retrying = of_ports pf_waiting ∧
  (at_ = node → m Streams = received o ∧ m Journeys = routed o ∧ m Bytes = 0%N ∧
     m Failed = N.max (refused o + failed o + not_sent o) (of_ports pf_failed)).
Proof.
  intros Hw (Hs & Hf & Ho) Hat. pose proof Hw as [Hself Hu]. simpl.
  assert (within at_ (under node (stage_name Send)) = true) as Hin.
  { destruct Hat as [->| ->]; [by apply Hu|done]. }
  unfold counts.
  assert (∀ x, (x ≤ u64_max)%N → u64_wrap x = x) as Hwrap by (intros x Hx; apply u64_wrap_small; unfold u64_max in Hx; lia).
  rewrite !measured_app, !(measured_ports _ _ node) by done.
  assert (u64_add (u64_add (refused o) (failed o)) (not_sent o) = refused o + failed o + not_sent o)%N as ->.
  { unfold u64_max in Ho. rewrite (u64_add_small (refused o)) by lia. apply u64_add_small. lia. }
  rewrite (Hwrap _ Hs), (Hwrap _ Hf), !measured_cons. cbn [fst snd]. rewrite Hin. 
  assert (sumN ((λ _ : string * PortFigures, 0%N) <$> ports) = 0%N) as Hz.
  { clear. induction ports as [|p ports IH]; [done|]. by rewrite fmap_cons, sumN_cons, IH. }
  repeat (rewrite bool_decide_true by done || rewrite bool_decide_false by done).
  unfold measured, port_count. simpl. rewrite ?andb_false_r, ?Hz. split_and!; [lia..|]. intros ->.
  rewrite !Hself, !Hu by done. simpl. split_and!; lia.
Qed.

(** A scope as a path: it contains itself and what is beneath it. *)
Definition prefix_within (a b : string) : bool := String.eqb a b || starts_with (a +:+ "/") b.

Lemma prefix_contains : contains_under prefix_within.
Proof.
  unfold prefix_within. split; [intros a; by rewrite String.eqb_refl|]. intros a b part [->%String.eqb_eq|H]%orb_true_iff.
  - unfold under. rewrite <-string_app_assoc, starts_with_app. by rewrite orb_true_r.
  - unfold starts_with in H. apply bool_decide_eq_true in H as [rest ->%strip_prefix_some].
    unfold under. rewrite !string_app_assoc, <-(string_app_assoc a), starts_with_app. by rewrite orb_true_r.
Qed.

Definition some_figures (sent_ failed_ waiting_ : N) : PortFigures :=
  {| pf_sent := sent_; pf_failed := failed_; pf_waiting := waiting_; pf_last_failure := None; pf_failing := 0; pf_blocked := false;
     pf_oldest_failing := []; pf_unconfirmed := 0; pf_unanswered_since := None; pf_lost := 0; pf_unread := None |}.

Definition some_outcomes : Outcomes :=
  {| received := 4; routed := 3; unroutable := 0; held := 0; refused := 1; failed := 0; sent := 3; not_sent := 1 |}.

Definition some_ports : list (string * PortFigures) := [("Out", some_figures 2 1 0); ("Back", some_figures 1 0 2)].

Lemma measured_once_witness :
  sums_fit some_outcomes some_ports ∧
  let node := location "c" "n" in
  measured prefix_within node Messages (counts node some_outcomes some_ports) = 3%N ∧
  measured prefix_within node Failed (counts node some_outcomes some_ports) = 2%N.
Proof.
  assert (sums_fit some_outcomes some_ports) as Hf by (vm_compute; split_and!; discriminate).
  split; [done|]. simpl.
  destruct (measured_once prefix_within (location "c" "n") some_outcomes some_ports _ prefix_contains Hf (or_introl eq_refl))
    as (Hm & _ & Hf').
  destruct (Hf' eq_refl) as (_ & _ & _ & Hfl). split; [exact Hm|exact Hfl].
Defined.

(** ** Each Port published once *)

Section ports.
Context (port_says : PortFigures → string).

Definition record_at (scope : string) (l : list StageRecord) : option StageRecord := List.find (λ r, String.eqb r.1.1 scope) l.

Lemma record_at_cons q r l : record_at q (r :: l) = if String.eqb r.1.1 q then Some r else record_at q l.
Proof. done. Qed.

Definition own_record (scope : string) (f : PortFigures) (was : option StageRecord) : StageRecord :=
  match was with
  | None => (scope, mood f, "Send Port; " +:+ port_says f)
  | Some (_, standing, evidence) =>
      if bool_decide (standing = fine) then (scope, mood f, evidence +:+ "; " +:+ port_says f) else (scope, standing, evidence)
  end.

Lemma with_port_at scope f l q :
  record_at q (with_port port_says scope f l) = if String.eqb q scope then Some (own_record scope f (record_at scope l)) else record_at q l.
Proof.
  induction l as [|[[at_ st] ev] l IH]; cbn [with_port].
  - rewrite record_at_cons. simpl. by rewrite String.eqb_sym.
  - rewrite !record_at_cons. simpl. destruct (String.eqb_spec at_ scope) as [->|Hne].
    + rewrite (String.eqb_sym q scope). unfold own_record. by destruct (bool_decide _); rewrite record_at_cons; simpl; destruct (String.eqb_spec scope q) as [->|].
    + rewrite record_at_cons, IH. simpl. destruct (String.eqb_spec at_ q) as [->|Haq]; [|done].
      by destruct (String.eqb_spec q scope).
Qed.

Lemma with_port_scopes scope f l :
  (with_port port_says scope f l).*1.*1 = if bool_decide (scope ∈ l.*1.*1) then l.*1.*1 else l.*1.*1 ++ [scope].
Proof.
  induction l as [|[[at_ st] ev] l IH]; csimpl; [done|]. destruct (String.eqb_spec at_ scope) as [->|Hne].
  - rewrite (bool_decide_true (_ ∈ _)) by (apply elem_of_cons; by left). by destruct (bool_decide (st = fine)).
  - csimpl. rewrite IH. case_bool_decide as H1; case_bool_decide as H2; rewrite elem_of_cons in H2; by firstorder.
Qed.

Lemma with_port_nodup scope f l : NoDup l.*1.*1 → NoDup (with_port port_says scope f l).*1.*1.
Proof.
  intros Hn. rewrite with_port_scopes. case_bool_decide; [done|]. apply NoDup_app. split_and!; [done|set_solver|apply NoDup_singleton].
Qed.

Lemma fst_inj {A} (l : list (string * A)) p x y : NoDup l.*1 → (p, x) ∈ l → (p, y) ∈ l → x = y.
Proof.
  intros Hn Hx%(elem_of_list_to_map_1 (M := gmap string)) Hy%(elem_of_list_to_map_1 (M := gmap string)); congruence.
Qed.

Lemma ports_at node (figures : list (string * PortFigures)) l q : NoDup figures.*1 →
  record_at q (foldl (λ records p, with_port port_says (scope_of node Send p.1) p.2 records) l figures) =
  match List.find (λ p, String.eqb (scope_of node Send (fst p)) q) figures with
  | Some (_, f) => Some (own_record q f (record_at q l))
  | None => record_at q l
  end.
Proof.
  revert l. induction figures as [|[p f] figures IH]; intros l; [done|]. csimpl. intros [Hp Hn]%NoDup_cons.
  rewrite IH by done. cbn -[String.eqb]. rewrite with_port_at, (String.eqb_sym q).
  destruct (String.eqb_spec (scope_of node Send p) q) as [<-|Hq]; [|done].
  destruct (List.find _ figures) as [[p' f']|] eqn:Hf; [|done]. exfalso.
  apply find_some in Hf as [Hin He%String.eqb_eq]. simpl in He. apply scope_of_name in He as ->.
  apply Hp. apply list_elem_of_fmap. exists (p, f'). split; [done|by apply list_elem_of_In].
Qed.

(** What a surface finds at a Send Port's scope is that Port: its own
    record where no Location has its name, its figures added to a Location's
    of its name that serves, and that Location's stop left as it is; Done
    just where failed Messages wait in its queue, a claim's renewal is
    unanswered or its queue was not read, and most severe just where failed
    Messages block its sequence; every other scope is its Location's, and
    none is published twice that its Locations did not. *)
Theorem stage_published node locations failures figures p f : NoDup figures.*1 → (p, f) ∈ figures →
  let scope := scope_of node Send p in
  let of_locations := location_record node failures <$> locations in
  let records := stage_records port_says node locations failures figures in
  record_at scope records = Some (own_record scope f (record_at scope of_locations)) ∧
  (∀ q, (∀ p', p' ∈ figures.*1 → scope_of node Send p' ≠ q) → record_at q records = record_at q of_locations) ∧
  ((mood f).1 = Done ↔ (0 < pf_failing f)%N ∨ (0 < pf_unconfirmed f)%N ∨ is_Some (pf_unread f)) ∧
  ((mood f).1 ≠ Done → mood f = fine) ∧
  ((mood f).2 = BLOCKED_SEVERITY ↔ (0 < pf_failing f)%N ∧ pf_blocked f = true) ∧
  (NoDup of_locations.*1.*1 → NoDup records.*1.*1).
Proof.
  intros Hn Hin. simpl. split_and!.
  - unfold stage_records. rewrite ports_at by done.
    destruct (List.find _ figures) as [[p' f']|] eqn:Hf.
    + apply find_some in Hf as [Hin' He%String.eqb_eq]. simpl in He. apply scope_of_name in He as ->.
      apply list_elem_of_In in Hin'. by rewrite (fst_inj figures p f' f Hn Hin' Hin).
    + pose proof (find_none _ _ Hf (p, f)) as H. simpl in H. rewrite String.eqb_refl in H.
      by specialize (H (proj1 (list_elem_of_In _ _) Hin)).
  - intros q Hq. unfold stage_records. rewrite ports_at by done.
    destruct (List.find _ figures) as [[p' f']|] eqn:Hf; [|done]. exfalso.
    apply find_some in Hf as [Hin' He%String.eqb_eq]. apply (Hq p'); [|done].
    apply list_elem_of_fmap. exists (p', f'). split; [done|by apply list_elem_of_In].
  - unfold mood. destruct (N.eqb_spec (pf_failing f) 0) as [Hf|Hf], (N.eqb_spec (pf_unconfirmed f) 0) as [Hu|Hu]; simpl;
      try (destruct (bool_decide (pf_unread f = None)) eqn:Hr; simpl); try destruct (pf_blocked f); simpl;
      try apply bool_decide_eq_true in Hr; try apply bool_decide_eq_false in Hr; try rewrite <-not_eq_None_Some in *;
      try (split; [intros _|done]); try (split; [done|]); intuition (try lia; try done).
  - unfold mood. by destruct (_ && _); [done|]; destruct (_ || _).
  - unfold mood. destruct (N.eqb_spec (pf_failing f) 0) as [Hf|Hf]; simpl.
    + split; [|lia]. by destruct (_ && _).
    + destruct (pf_blocked f); simpl; split; try done; [intros _; split; [lia|done]|by intros []].
  - intros Hl. unfold stage_records. revert Hl. generalize (location_record node failures <$> locations).
    clear. induction figures as [|[p f] figures IH]; intros l Hl; [done|]. simpl. by apply IH, with_port_nodup.
Qed.
End ports.

Definition some_location : Stage * ConfiguredLocation :=
  (Send, {| l_name := "Out"; l_address := "file:///out"; l_start := true; l_contract := None;
            l_accept_mechanism := []; l_accept_party := [] |}).

Lemma stage_published_witness :
  record_at (scope_of "n" Send "Back") (stage_records (λ _, "figures") "n" [some_location] [] some_ports) =
    Some (scope_of "n" Send "Back", fine, "Send Port; figures") ∧
  record_at (scope_of "n" Send "Out") (stage_records (λ _, "figures") "n" [some_location] [] some_ports) =
    Some (scope_of "n" Send "Out", fine, "started at file:///out; figures").
Proof.
  assert (NoDup some_ports.*1) as Hn by (apply (bool_decide_unpack _); vm_compute; done).
  split.
  - destruct (stage_published (λ _, "figures") "n" [some_location] [] some_ports "Back" (some_figures 1 0 2) Hn) as [H _];
      [apply elem_of_cons; right; apply elem_of_cons; by left|exact H].
  - destruct (stage_published (λ _, "figures") "n" [some_location] [] some_ports "Out" (some_figures 2 1 0) Hn) as [H _];
      [apply elem_of_cons; by left|exact H].
Defined.

(** ** Once stopped *)

(** What it leaves published is, at each scope it had, what it was there
    where it declares, stands or was not started, and done with no severity
    anywhere else: nothing says that it runs. *)
Lemma stopped_done at_ capability not_started said last scope standing evidence :
  (scope, standing, evidence) ∈ stopped_records at_ capability not_started said last →
  ((scope, standing, evidence) ∈ last ∧ (evidence = not_started ∨ kept_scope at_ capability scope = true)) ∨
  (standing = NOT_STARTED_severity ∧ evidence = if String.eqb scope at_ then said else "stopped with the node").
Proof.
  unfold stopped_records. intros ([[s st] ev] & Hr & Hin)%list_elem_of_fmap. unfold stopped_record in Hr.
  destruct (String.eqb_spec ev not_started) as [He|]; cbn [orb] in Hr; [simplify_eq; left; auto|].
  destruct (kept_scope at_ capability s) eqn:Hk; simplify_eq; [left; auto|right; auto].
Qed.

Lemma stopped_scopes at_ capability not_started said last :
  (stopped_records at_ capability not_started said last).*1.*1 = last.*1.*1.
Proof.
  unfold stopped_records. induction last as [|[[s st] ev] last IH]; [done|]. csimpl. rewrite IH.
  by destruct (_ || _).
Qed.
