(* ===== verification/Boundary.v ===== *)
(** * Text across the C boundary: [src/ffi/text.rs], [src/ffi/rule.rs], [src/ffi/rule/node.rs]

    A surface's memory, a byte at each address, and what crosses it: a text
    lent and read ([borrow], [scope_text]: refused where it is not UTF-8),
    one written where the surface says there is room ([hand], [refuse]), a
    list of them ([fill]); and the exports that forward a rule of another
    crate's, their texts read and their answers written ([rule.rs]). A
    region a surface states lies within the address space. The rules
    themselves, of scopes, moods, stages and roles, are the crates'
    forwarded to. *)

From Stdlib Require Import Ascii String.
From stdpp Require Import base numbers list strings.
From S2P Require Import Prelude Text Mood.

Local Open Scope string_scope.
Local Open Scope list_scope.

(** ** Memory *)

Definition Memory := N → ascii.

Fixpoint bytes_at (mem : Memory) (p : N) (n : nat) : string :=
  match n with O => "" | S n => String (mem p) (bytes_at mem (p + 1) n) end.

Fixpoint written (mem : Memory) (p : N) (bytes : string) : Memory :=
  match bytes with
  | EmptyString => mem
  | String a rest => written (λ q, if (q =? p)%N then a else mem q) (p + 1) rest
  end.

(** ** UTF-8, as [core::str::from_utf8] takes it *)

Definition tail_byte (a : ascii) : bool := let n := N_of_ascii a in ((128 <=? n) && (n <=? 191))%N.
Definition within_bytes (low high : N) (a : ascii) : bool := let n := N_of_ascii a in ((low <=? n) && (n <=? high))%N.

(** The second byte that may follow a first one of three and of four. *)
Definition second_of_3 (a b : ascii) : bool :=
  let n := N_of_ascii a in
  if (n =? 224)%N then within_bytes 160 191 b
  else if (n =? 237)%N then within_bytes 128 159 b
  else within_bytes 225 239 a && tail_byte b.
Definition second_of_4 (a b : ascii) : bool :=
  let n := N_of_ascii a in
  if (n =? 240)%N then within_bytes 144 191 b
  else if (n =? 244)%N then within_bytes 128 143 b
  else within_bytes 241 243 a && tail_byte b.

Fixpoint utf8 (s : string) : bool :=
  match s with
  | EmptyString => true
  | String a r =>
      if (N_of_ascii a <? 128)%N then utf8 r
      else match r with
           | EmptyString => false
           | String b r =>
               if within_bytes 194 223 a then tail_byte b && utf8 r
               else match r with
                    | EmptyString => false
                    | String c r =>
                        if second_of_3 a b then tail_byte c && utf8 r
                        else match r with
                             | EmptyString => false
                             | String d r => second_of_4 a b && tail_byte c && tail_byte d && utf8 r
                             end
                    end
           end
  end.

(** ** Texts lent and read: [src/ffi/text.rs] *)

Record Str := { ptr : N; len : N }.

(** [borrow]: a text that lies at [at_]. *)
Definition borrow (at_ : N) (text : string) : Str := {| ptr := at_; len := N.of_nat (String.length text) |}.

(** [scope_text], [slice_bytes]. *)
Definition scope_text (mem : Memory) (s : Str) : option string :=
  if (ptr s =? 0)%N then Some ""
  else let bytes := bytes_at mem (ptr s) (N.to_nat (len s)) in if utf8 bytes then Some bytes else None.

Definition slice_bytes (mem : Memory) (s : Str) : string :=
  if (ptr s =? 0)%N then "" else bytes_at mem (ptr s) (N.to_nat (len s)).

(** ** Texts written: [hand], [refuse], [fill] *)

(** The memory after, and the true length. *)
Definition hand (bytes : string) (out cap : N) (mem : Memory) : Memory * N :=
  (if (0 <? cap)%N then written mem out (substring 0 (N.to_nat (N.min (N.of_nat (String.length bytes)) cap)) bytes) else mem,
   N.of_nat (String.length bytes)).

Definition refuse (sentence : string) (said cap : N) (mem : Memory) : Memory * N := hand sentence said cap mem.

(** A surface's array of texts, and those written into it. *)
Definition Slots := N → Str.

Definition fill_one (out cap : N) (s : Slots * N) (item : Str) : Slots * N :=
  (if (s.2 <? cap)%N then (λ i, if (i =? out + s.2)%N then item else s.1 i) else s.1, s.2 + 1)%N.

Definition fill (items : list Str) (out cap : N) (slots : Slots) : Slots * N := foldl (fill_one out cap) (slots, 0%N) items.

(** ** The rules forwarded: [src/ffi/rule.rs] *)

(** The header's statuses, of the C interface's crate. *)
Inductive Status := OK | MALFORMED | INVALID | NOT_FOUND | AUTH | CAPACITY | INTERNAL | STATE | TIMEOUT | UNAVAILABLE | TRUNCATED | IO.

Definition u8_of (b : bool) : N := if b then 1 else 0.

Section rules.
Context (mem : Memory).

(** An export over texts: answered by a rule once they are read, else
    refused and its outs as they were. *)
Definition over_text {O} (s : Str) (out : O) (rule : string → Status * O) : Status * O :=
  match scope_text mem s with Some text => rule text | None => (MALFORMED, out) end.

Definition over_texts {O} (s t : Str) (out : O) (rule : string → string → Status * O) : Status * O :=
  match scope_text mem s, scope_text mem t with
  | Some a, Some b => rule a b
  | _, _ => (MALFORMED, out)
  end.

Definition xmip_scope_contains_v1 (contains : string → string → bool) scope candidate (out : N) : Status * N :=
  over_texts scope candidate out (λ a b, (OK, u8_of (contains a b))).

Definition xmip_scope_matches_v1 (matches : string → string → bool) candidate pattern (out : N) : Status * N :=
  over_texts candidate pattern out (λ a b, (OK, u8_of (matches a b))).

Definition xmip_run_shown_v1 (shown : bool → bool → bool) (hidden including : N) : Status * N :=
  (OK, u8_of (shown (negb (hidden =? 0)%N) (negb (including =? 0)%N))).

(** What of a scope borrows from it is given by its place there. *)
Definition xmip_scope_parts_v1 (segments : Str → string → list Str) scope (out cap : N) (o : Slots * N) : Status * (Slots * N) :=
  over_text scope o (λ text, (OK, fill (segments scope text) out cap o.1)).

Definition xmip_scope_node_v1 (empty : Str) (node_of stage_of : Str → string → option Str) scope (o : Str * Str) : Status * (Str * Str) :=
  over_text scope o (λ text, (OK, (default empty (node_of scope text), default empty (stage_of scope text)))).

(** A mood or a counted kind by the header's integer. *)
Definition static_text {A} (from_wire : Z → option A) (text : A → Str) (value : Z) (out : Str) : Status * Str :=
  match from_wire value with Some a => (OK, text a) | None => (INVALID, out) end.

Definition health_text := @static_text Health.

Definition xmip_health_rolled_v1 (from_wire : Z → option Health) (wire : Health → Z) (rolled : Health → Health)
    (value out : Z) : Status * Z :=
  match from_wire value with Some h => (OK, wire (rolled h)) | None => (INVALID, out) end.

(** What a word names, by the header's integer. *)
Definition xmip_named_v1 {A} (named : string → option A) (wire : A → Z) (word : Str) (out : Z) : Status * Z :=
  over_text word out (λ w, match named w with Some a => (OK, wire a) | None => (NOT_FOUND, out) end).

Definition xmip_stage_counted_v1 {A C} (named : string → option A) (at_ : A → C) (wire : C → Z) (stage : Str) (out : Z) : Status * Z :=
  xmip_named_v1 named (λ s, wire (at_ s)) stage out.

(** [write_declared]: the roles, or why it is refused, and whether it was
    declared online. The state: the roles' array and their number, the
    memory and the refusal's length. *)
Record Declared := { roles : Slots; roles_len : N; memory : Memory; refusal_len : N; online : N; node_out : Str }.

Definition write_declared (said : result (list Str * bool) string) (out cap refusal refusal_cap : N) (d : Declared) :
    Declared * option bool :=
  match said with
  | Ok (words, on) =>
      let '(slots, n) := fill words out cap (roles d) in
      ({| roles := slots; roles_len := n; memory := memory d; refusal_len := 0; online := online d; node_out := node_out d |}, Some on)
  | Err sentence =>
      let '(m, n) := refuse sentence refusal refusal_cap (memory d) in
      ({| roles := roles d; roles_len := 0; memory := m; refusal_len := n; online := online d; node_out := node_out d |}, None)
  end.

Definition with_node (s : Str) (d : Declared) : Declared :=
  {| roles := roles d; roles_len := roles_len d; memory := memory d; refusal_len := refusal_len d; online := online d; node_out := s |}.
Definition with_online (b : bool) (d : Declared) : Declared :=
  {| roles := roles d; roles_len := roles_len d; memory := memory d; refusal_len := refusal_len d; online := u8_of b; node_out := node_out d |}.

Definition said_status (r : Declared * option bool) : Status * Declared :=
  (match r.2 with Some _ => OK | None => INVALID end, r.1).

Definition xmip_capability_published_v1 (declared : Str → string → string → option (Str * result (list Str * bool) string))
    scope evidence (out cap refusal refusal_cap : N) (d : Declared) : Status * Declared :=
  over_texts scope evidence d (λ s e,
    match declared scope s e with
    | None => (NOT_FOUND, d)
    | Some (node, said) =>
        match write_declared said out cap refusal refusal_cap (with_node node d) with
        | (d, Some on) => (OK, with_online on d)
        | (d, None) => (INVALID, d)
        end
    end).

Definition xmip_role_declared_v1 (parse : string → result (list Str * bool) string) declared (out cap refusal refusal_cap : N)
    (d : Declared) : Status * Declared :=
  over_text declared d (λ text, said_status (write_declared (parse text) out cap refusal refusal_cap d)).

Definition xmip_capability_entry_v1 (from_entry : Str → string → Str * result (list Str * bool) string) entry
    (out cap refusal refusal_cap : N) (d : Declared) : Status * Declared :=
  over_text entry d (λ text,
    let '(name, said) := from_entry entry text in
    said_status (write_declared said out cap refusal refusal_cap (with_node name d))).

Definition xmip_words_v1 (words : list Str) (out cap : N) (o : Slots * N) : Status * (Slots * N) := (OK, fill words out cap o.1).

Definition xmip_role_stages_v1 (stages : string → option (list Str)) role (out cap : N) (o : Slots * N) : Status * (Slots * N) :=
  over_text role o (λ w, match stages w with Some l => (OK, fill l out cap o.1) | None => (NOT_FOUND, o) end).

(** [named], and what is asked of the stage named. *)
Definition named_stage {A} (named : string → option A) (stage : Str) : result A Status :=
  match scope_text mem stage with
  | None => Err MALFORMED
  | Some word => match named word with Some s => Ok s | None => Err NOT_FOUND end
  end.

Definition of_stage {A O} (named : string → option A) (answer : A → O) (stage : Str) (out : O) : Status * O :=
  match named_stage named stage with Ok s => (OK, answer s) | Err code => (code, out) end.

Definition xmip_stage_pausable_v1 {A} named (pausable : A → bool) := of_stage named (λ s, u8_of (pausable s)).
Definition xmip_stage_location_v1 {A} named (location : A → Str) := of_stage named location.

(** [xmip_health_order_v1]: each entry read, the first that does not read
    refusing it, and the positions worst first written. *)
Record HealthEntry := { e_health : Z; e_severity : N; e_scope : Str }.

Fixpoint standings (from_wire : Z → option Health) (entries : list HealthEntry) : result (list (Health * N * string)) Status :=
  match entries with
  | [] => Ok []
  | e :: rest =>
      match from_wire (e_health e) with
      | None => Err INVALID
      | Some h =>
          match scope_text mem (e_scope e) with
          | None => Err MALFORMED
          | Some scope =>
              match standings from_wire rest with Ok l => Ok ((h, e_severity e, scope) :: l) | Err code => Err code end
          end
      end
  end.

Definition xmip_health_order_v1 (from_wire : Z → option Health) (worst_first : list (Health * N * string) → list N)
    (entries : option (list HealthEntry)) (n : N) (out : option (list N)) : Status * option (list N) :=
  if (n =? 0)%N then (OK, out)
  else match entries, out with
       | Some l, Some _ =>
           match standings from_wire l with Ok s => (OK, Some (worst_first s)) | Err code => (code, out) end
       | _, _ => (INVALID, out)
       end.
End rules.

(** ** What is written and read *)

Lemma written_outside bytes : ∀ mem p q, (q < p ∨ p + N.of_nat (String.length bytes) ≤ q)%N → written mem p bytes q = mem q.
Proof.
  induction bytes as [|a rest IH]; intros mem p q Hq; [done|]. cbn [written String.length] in *. rewrite IH by lia.
  destruct (N.eqb_spec q p); [lia|done].
Qed.

Lemma bytes_at_ext n : ∀ m m' p, (∀ q, (p ≤ q < p + N.of_nat n)%N → m q = m' q) → bytes_at m p n = bytes_at m' p n.
Proof. induction n as [|n IH]; intros m m' p H; [done|]. cbn [bytes_at]. f_equal; [apply H; lia|apply IH; intros q Hq; apply H; lia]. Qed.

Lemma written_bytes bytes : ∀ mem p, bytes_at (written mem p bytes) p (String.length bytes) = bytes.
Proof.
  induction bytes as [|a rest IH]; intros mem p; [done|]. cbn [written bytes_at String.length]. f_equal; [|apply IH].
  rewrite written_outside by lia. by rewrite N.eqb_refl.
Qed.

Lemma fill_step out cap items : ∀ slots n,
  let s := foldl (fill_one out cap) (slots, n) items in
  s.2 = (n + N.of_nat (length items))%N ∧
  (∀ i, (i < out + n ∨ out + cap ≤ i)%N → s.1 i = slots i) ∧
  (∀ k item, items !! k = Some item → (n + N.of_nat k < cap)%N → s.1 (out + n + N.of_nat k)%N = item).
Proof.
  induction items as [|item items IH]; intros slots n; cbn [foldl length].
  { cbn [fst snd]. split_and!; [lia|done|]. intros k item Hk. by rewrite lookup_nil in Hk. }
  set (slots' := (fill_one out cap (slots, n) item).1). change (fill_one out cap (slots, n) item) with (slots', (n + 1)%N).
  destruct (IH slots' (n + 1)%N) as (Hn & Hout & Hin). subst slots'. split_and!.
  - rewrite Hn. lia.
  - intros i Hi. rewrite Hout by lia. unfold fill_one. simpl. destruct (N.ltb_spec n cap); [|done].
    destruct (N.eqb_spec i (out + n)); [lia|done].
  - intros [|k] it Hk Hc; cbn [lookup] in Hk.
    + injection Hk as ->. rewrite Hout by lia. unfold fill_one. simpl. destruct (N.ltb_spec n cap); [|lia].
      by rewrite N.add_0_r, N.eqb_refl.
    + rewrite <-(Hin k it Hk) by lia. f_equal. lia.
Qed.

(** C32. What is handed a surface stays within the room it gave, and it
    learns how much there is: nothing is written outside its buffer, its
    true length is always told, what fits is its beginning, and whatever it
    asks again with that much room it reads as it was; a list of texts is
    filled the same way, each in its place. *)
Theorem handed_within_room bytes out cap mem items slots :
  let m := hand bytes out cap mem in
  m.2 = N.of_nat (String.length bytes) ∧
  (∀ q, (q < out ∨ out + cap ≤ q)%N → m.1 q = mem q) ∧
  bytes_at m.1 out (N.to_nat (N.min m.2 cap)) = substring 0 (N.to_nat (N.min m.2 cap)) bytes ∧
  (∀ room mem', out ≠ 0%N → utf8 bytes = true → (m.2 ≤ room)%N →
     scope_text (hand bytes out room mem').1 {| ptr := out; len := m.2 |} = Some bytes) ∧
  let f := fill items out cap slots in
  f.2 = N.of_nat (length items) ∧
  (∀ i, (i < out ∨ out + cap ≤ i)%N → f.1 i = slots i) ∧
  (∀ k item, items !! k = Some item → (N.of_nat k < cap)%N → f.1 (out + N.of_nat k)%N = item).
Proof.
  assert (∀ cap, let k := N.to_nat (N.min (N.of_nat (String.length bytes)) cap) in
    String.length (substring 0 k bytes) = k) as Hlen by (intros c; apply length_substring; lia).
  assert (∀ cap mem, (hand bytes out cap mem).1 =
    written mem out (substring 0 (N.to_nat (N.min (N.of_nat (String.length bytes)) cap)) bytes)) as Hhand.
  { intros c m. unfold hand. simpl. destruct (N.ltb_spec 0 c); [done|]. assert (c = 0)%N as -> by lia. rewrite N.min_0_r. by destruct bytes. }
  assert (∀ cap mem, (hand bytes out cap mem).2 = N.of_nat (String.length bytes)) as Hl by done.
  cbv zeta. rewrite !Hl. split_and!.
  - done.
  - intros q Hq. rewrite Hhand, written_outside; [done|]. rewrite Hlen. lia.
  - rewrite Hhand. rewrite <-(Hlen cap) at 2. by rewrite written_bytes.
  - intros room mem' Ho Hu Hr. rewrite Hhand. unfold scope_text. cbn [ptr len]. destruct (N.eqb_spec out 0); [done|].
    rewrite N.min_l, Nat2N.id, substring_whole, written_bytes, Hu by done. done.
  - apply (fill_step out cap items slots 0).
  - intros i Hi. apply (fill_step out cap items slots 0). lia.
  - intros k item Hk Hc. destruct (fill_step out cap items slots 0) as (_ & _ & H). rewrite <-(H k item Hk) by lia. unfold fill. f_equal. lia.
Qed.

Lemma handed_within_room_witness :
  let m := hand "refused" 16 4 (λ _, "."%char) in
  m.2 = 7%N ∧ bytes_at m.1 16 8 = "refu...." ∧
  scope_text (hand "refused" 16 7 m.1).1 {| ptr := 16; len := m.2 |} = Some "refused".
Proof.
  destruct (handed_within_room "refused" 16 4 (λ _, "."%char) [] (λ _, {| ptr := 0; len := 0 |})) as (Hl & _ & _ & Hr & _).
  split_and!; [exact Hl|vm_compute; reflexivity|]. apply Hr; [done|vm_compute; reflexivity|]. rewrite Hl. vm_compute. discriminate.
Defined.

(** A text lent is read as it is, where it lies at no null address. *)
Lemma borrowed_is_read mem at_ text : (0 < at_)%N → utf8 text = true → bytes_at mem at_ (String.length text) = text →
  scope_text mem (borrow at_ text) = Some text.
Proof.
  intros Ha Hu Hb. unfold scope_text, borrow. simpl. destruct (N.eqb_spec at_ 0); [lia|]. by rewrite Nat2N.id, Hb, Hu.
Qed.
