(* ===== verification/Wire.v ===== *)
(** * The header's integers for the crates' enums: [src/wire.rs]

    Every enum that crosses the C boundary, as the header writes it and as
    the header's integer is read. The header's integers are the C
    interface's crate's, given as records of them, and distinct within each
    enum ([header_distinct]). *)

From stdpp Require Import base numbers list.
From S2P Require Import Prelude Mood.

Local Open Scope Z_scope.

(** ** The arms of a match over integers, and a search of an enum's values *)

Fixpoint arms {A} (l : list (Z * A)) (value : Z) : option A :=
  match l with [] => None | (i, a) :: l => if value =? i then Some a else arms l value end.

Definition find_wire {A} (wire : A → Z) (all : list A) (value : Z) : option A := List.find (λ a, wire a =? value) all.

Lemma arms_find {A} (wire : A → Z) all value : arms ((λ a, (wire a, a)) <$> all) value = find_wire wire all value.
Proof. induction all as [|a all IH]; csimpl; [done|]. unfold find_wire in *. simpl. rewrite Z.eqb_sym. by destruct (wire a =? value). Qed.

(** A value found is what its integer says, and every one is found where
    the integers are distinct. *)
Lemma find_wire_spec {A} (wire : A → Z) all : (∀ a, a ∈ all) → NoDup (wire <$> all) →
  ∀ value a, find_wire wire all value = Some a ↔ value = wire a.
Proof.
  intros Hall Hn value a. unfold find_wire. split.
  - intros [_ H]%find_some. by apply Z.eqb_eq in H.
  - intros ->. destruct (List.find _ all) as [b|] eqn:Hf.
    + apply find_some in Hf as [Hin%list_elem_of_In H%Z.eqb_eq]. f_equal.
      apply list_elem_of_lookup in Hin as [i Hi]. destruct (proj1 (list_elem_of_lookup _ _) (Hall a)) as [j Hj].
      assert (i = j) as ->; [|congruence].
      apply (NoDup_lookup _ i j (wire a)) in Hn; [done|by rewrite list_lookup_fmap, Hi, <-H|by rewrite list_lookup_fmap, Hj].
    + pose proof (find_none _ _ Hf a (proj1 (list_elem_of_In _ _) (Hall a))) as H. simpl in H. by rewrite Z.eqb_refl in H.
Qed.

(** ** [Health] *)

Record HealthInts := { health_FINE : Z; health_PAUSED : Z; health_WORKING : Z; health_STRESSED : Z; health_EXHAUSTED : Z; health_DONE : Z; health_HOLDING : Z }.

Definition wire_health (i : HealthInts) (value : Health) : Z :=
  match value with
  | Fine => health_FINE i
  | Paused => health_PAUSED i
  | Working => health_WORKING i
  | Stressed => health_STRESSED i
  | Exhausted => health_EXHAUSTED i
  | Done => health_DONE i
  | Holding => health_HOLDING i
  end.

Definition from_wire_health (i : HealthInts) : Z → option Health :=
  arms [(health_FINE i, Fine);
    (health_PAUSED i, Paused);
    (health_WORKING i, Working);
    (health_STRESSED i, Stressed);
    (health_EXHAUSTED i, Exhausted);
    (health_DONE i, Done);
    (health_HOLDING i, Holding)].

Definition all_health : list Health := [Fine; Paused; Working; Stressed; Exhausted; Done; Holding].

Definition health_distinct (i : HealthInts) : Prop := NoDup [health_FINE i; health_PAUSED i; health_WORKING i; health_STRESSED i; health_EXHAUSTED i; health_DONE i; health_HOLDING i].

(** ** [Counted] *)

Record CountedInts := { counted_STREAMS : Z; counted_MESSAGES : Z; counted_JOURNEYS : Z; counted_BYTES : Z; counted_RETRYING : Z; counted_FAILED : Z }.

Definition wire_counted (i : CountedInts) (value : Counted) : Z :=
  match value with
  | Streams => counted_STREAMS i
  | Messages => counted_MESSAGES i
  | Journeys => counted_JOURNEYS i
  | Bytes => counted_BYTES i
  | Retrying => counted_RETRYING i
  | Failed => counted_FAILED i
  end.

Definition from_wire_counted (i : CountedInts) : Z → option Counted :=
  arms [(counted_STREAMS i, Streams);
    (counted_MESSAGES i, Messages);
    (counted_JOURNEYS i, Journeys);
    (counted_BYTES i, Bytes);
    (counted_RETRYING i, Retrying);
    (counted_FAILED i, Failed)].

Definition all_counted : list Counted := [Streams; Messages; Journeys; Bytes; Retrying; Failed].

Definition counted_distinct (i : CountedInts) : Prop := NoDup [counted_STREAMS i; counted_MESSAGES i; counted_JOURNEYS i; counted_BYTES i; counted_RETRYING i; counted_FAILED i].

(** ** [NodeKind] *)

Module Kind.
Inductive NodeKind := Computer | Server | VirtualMachine | Gateway | Appliance | Service | Process | Interface | Port | Protocol | Location | Cluster | Node | Stage | Endpoint | Party.
End Kind.

Record KindInts := { kind_COMPUTER : Z; kind_SERVER : Z; kind_VIRTUAL_MACHINE : Z; kind_GATEWAY : Z; kind_APPLIANCE : Z; kind_SERVICE : Z; kind_PROCESS : Z; kind_INTERFACE : Z; kind_PORT : Z; kind_PROTOCOL : Z; kind_LOCATION : Z; kind_CLUSTER : Z; kind_NODE : Z; kind_STAGE : Z; kind_ENDPOINT : Z; kind_PARTY : Z }.

Definition wire_kind (i : KindInts) (value : Kind.NodeKind) : Z :=
  match value with
  | Kind.Computer => kind_COMPUTER i
  | Kind.Server => kind_SERVER i
  | Kind.VirtualMachine => kind_VIRTUAL_MACHINE i
  | Kind.Gateway => kind_GATEWAY i
  | Kind.Appliance => kind_APPLIANCE i
  | Kind.Service => kind_SERVICE i
  | Kind.Process => kind_PROCESS i
  | Kind.Interface => kind_INTERFACE i
  | Kind.Port => kind_PORT i
  | Kind.Protocol => kind_PROTOCOL i
  | Kind.Location => kind_LOCATION i
  | Kind.Cluster => kind_CLUSTER i
  | Kind.Node => kind_NODE i
  | Kind.Stage => kind_STAGE i
  | Kind.Endpoint => kind_ENDPOINT i
  | Kind.Party => kind_PARTY i
  end.

(** [NodeKind::ALL], and so for the others searched: every value once. *)
Definition all_kind : list Kind.NodeKind := [Kind.Computer; Kind.Server; Kind.VirtualMachine; Kind.Gateway; Kind.Appliance; Kind.Service; Kind.Process; Kind.Interface; Kind.Port; Kind.Protocol; Kind.Location; Kind.Cluster; Kind.Node; Kind.Stage; Kind.Endpoint; Kind.Party].

Definition from_wire_kind (i : KindInts) : Z → option Kind.NodeKind := find_wire (wire_kind i) all_kind.

Definition kind_distinct (i : KindInts) : Prop := NoDup [kind_COMPUTER i; kind_SERVER i; kind_VIRTUAL_MACHINE i; kind_GATEWAY i; kind_APPLIANCE i; kind_SERVICE i; kind_PROCESS i; kind_INTERFACE i; kind_PORT i; kind_PROTOCOL i; kind_LOCATION i; kind_CLUSTER i; kind_NODE i; kind_STAGE i; kind_ENDPOINT i; kind_PARTY i].

(** ** [Origin] *)

Module Origins.
Inductive Origin := Configured | Observed | Both.
End Origins.

Record OriginInts := { origin_CONFIGURED : Z; origin_OBSERVED : Z; origin_BOTH : Z }.

Definition wire_origin (i : OriginInts) (value : Origins.Origin) : Z :=
  match value with
  | Origins.Configured => origin_CONFIGURED i
  | Origins.Observed => origin_OBSERVED i
  | Origins.Both => origin_BOTH i
  end.

Definition all_origin : list Origins.Origin := [Origins.Configured; Origins.Observed; Origins.Both].

Definition from_wire_origin (i : OriginInts) : Z → option Origins.Origin := find_wire (wire_origin i) all_origin.

Definition origin_distinct (i : OriginInts) : Prop := NoDup [origin_CONFIGURED i; origin_OBSERVED i; origin_BOTH i].

(** ** [Pattern] *)

Module Patterns.
Inductive Pattern := RequestResponse | SendReceive | PublishConsume | Streaming | FireAndForget | Session | Retry.
End Patterns.

Record PatternInts := { pattern_REQUEST_RESPONSE : Z; pattern_SEND_RECEIVE : Z; pattern_PUBLISH_CONSUME : Z; pattern_STREAMING : Z; pattern_FIRE_AND_FORGET : Z; pattern_SESSION : Z; pattern_RETRY : Z }.

Definition wire_pattern (i : PatternInts) (value : Patterns.Pattern) : Z :=
  match value with
  | Patterns.RequestResponse => pattern_REQUEST_RESPONSE i
  | Patterns.SendReceive => pattern_SEND_RECEIVE i
  | Patterns.PublishConsume => pattern_PUBLISH_CONSUME i
  | Patterns.Streaming => pattern_STREAMING i
  | Patterns.FireAndForget => pattern_FIRE_AND_FORGET i
  | Patterns.Session => pattern_SESSION i
  | Patterns.Retry => pattern_RETRY i
  end.

Definition all_pattern : list Patterns.Pattern := [Patterns.RequestResponse; Patterns.SendReceive; Patterns.PublishConsume; Patterns.Streaming; Patterns.FireAndForget; Patterns.Session; Patterns.Retry].

Definition from_wire_pattern (i : PatternInts) : Z → option Patterns.Pattern := find_wire (wire_pattern i) all_pattern.

Definition pattern_distinct (i : PatternInts) : Prop := NoDup [pattern_REQUEST_RESPONSE i; pattern_SEND_RECEIVE i; pattern_PUBLISH_CONSUME i; pattern_STREAMING i; pattern_FIRE_AND_FORGET i; pattern_SESSION i; pattern_RETRY i].

(** ** [ExecutionPhase] *)

Module Phases.
Inductive ExecutionPhase := Begin | Execute | Finished | Failure.
End Phases.

Record PhaseInts := { phase_BEGIN : Z; phase_EXECUTE : Z; phase_FINISHED : Z; phase_FAILURE : Z }.

Definition from_wire_phase (i : PhaseInts) : Z → option Phases.ExecutionPhase :=
  arms [(phase_BEGIN i, Phases.Begin);
    (phase_EXECUTE i, Phases.Execute);
    (phase_FINISHED i, Phases.Finished);
    (phase_FAILURE i, Phases.Failure)].

Definition all_phase : list Phases.ExecutionPhase := [Phases.Begin; Phases.Execute; Phases.Finished; Phases.Failure].

Definition phase_distinct (i : PhaseInts) : Prop := NoDup [phase_BEGIN i; phase_EXECUTE i; phase_FINISHED i; phase_FAILURE i].

(** ** [Severity] *)

Module Severities.
Inductive Severity := Information | Warning | Error.
End Severities.

Record SeverityInts := { severity_INFORMATION : Z; severity_WARNING : Z; severity_ERROR : Z }.

Definition from_wire_severity (i : SeverityInts) : Z → option Severities.Severity :=
  arms [(severity_INFORMATION i, Severities.Information);
    (severity_WARNING i, Severities.Warning);
    (severity_ERROR i, Severities.Error)].

Definition all_severity : list Severities.Severity := [Severities.Information; Severities.Warning; Severities.Error].

Definition severity_distinct (i : SeverityInts) : Prop := NoDup [severity_INFORMATION i; severity_WARNING i; severity_ERROR i].

(** ** [Stage] *)

Record ActionInts := { action_RECEIVE : Z; action_PROCESS : Z; action_SEND : Z }.

Definition wire_stage (i : ActionInts) (value : Stage) : Z :=
  match value with
  | Receive => action_RECEIVE i
  | Process => action_PROCESS i
  | Send => action_SEND i
  end.

Definition stage_of (i : ActionInts) : Z → option Stage :=
  arms [(action_RECEIVE i, Receive);
    (action_PROCESS i, Process);
    (action_SEND i, Send)].

Definition all_action : list Stage := [Receive; Process; Send].

Definition action_distinct (i : ActionInts) : Prop := NoDup [action_RECEIVE i; action_PROCESS i; action_SEND i].

(** ** [Outcome] *)

Module Ended.
Inductive Outcome := Success | Failure | Rejection | Waiting | Pause | Timeout | ExhaustedRetries | Dismissal.
End Ended.

Record OutcomeInts := { outcome_SUCCESS : Z; outcome_FAILURE : Z; outcome_REJECTION : Z; outcome_WAITING : Z; outcome_PAUSE : Z; outcome_TIMEOUT : Z; outcome_EXHAUSTED_RETRIES : Z; outcome_DISMISSAL : Z }.

Definition wire_outcome (i : OutcomeInts) (value : Ended.Outcome) : Z :=
  match value with
  | Ended.Success => outcome_SUCCESS i
  | Ended.Failure => outcome_FAILURE i
  | Ended.Rejection => outcome_REJECTION i
  | Ended.Waiting => outcome_WAITING i
  | Ended.Pause => outcome_PAUSE i
  | Ended.Timeout => outcome_TIMEOUT i
  | Ended.ExhaustedRetries => outcome_EXHAUSTED_RETRIES i
  | Ended.Dismissal => outcome_DISMISSAL i
  end.

Definition outcome_of (i : OutcomeInts) : Z → option Ended.Outcome :=
  arms [(outcome_SUCCESS i, Ended.Success);
    (outcome_FAILURE i, Ended.Failure);
    (outcome_REJECTION i, Ended.Rejection);
    (outcome_WAITING i, Ended.Waiting);
    (outcome_PAUSE i, Ended.Pause);
    (outcome_TIMEOUT i, Ended.Timeout);
    (outcome_EXHAUSTED_RETRIES i, Ended.ExhaustedRetries);
    (outcome_DISMISSAL i, Ended.Dismissal)].

Definition all_outcome : list Ended.Outcome := [Ended.Success; Ended.Failure; Ended.Rejection; Ended.Waiting; Ended.Pause; Ended.Timeout; Ended.ExhaustedRetries; Ended.Dismissal].

Definition outcome_distinct (i : OutcomeInts) : Prop := NoDup [outcome_SUCCESS i; outcome_FAILURE i; outcome_REJECTION i; outcome_WAITING i; outcome_PAUSE i; outcome_TIMEOUT i; outcome_EXHAUSTED_RETRIES i; outcome_DISMISSAL i].

(** ** The header's integers, and what they say *)

Record Header := {
  h_health : HealthInts; h_counted : CountedInts; h_kind : KindInts; h_origin : OriginInts; h_pattern : PatternInts;
  h_phase : PhaseInts; h_severity : SeverityInts; h_action : ActionInts; h_outcome : OutcomeInts
}.

Definition header_distinct (h : Header) : Prop :=
  health_distinct (h_health h) ∧ counted_distinct (h_counted h) ∧ kind_distinct (h_kind h) ∧ origin_distinct (h_origin h) ∧
  pattern_distinct (h_pattern h) ∧ phase_distinct (h_phase h) ∧ severity_distinct (h_severity h) ∧ action_distinct (h_action h) ∧
  outcome_distinct (h_outcome h).

(** A phase's and a severity's integer, which nothing writes. *)
Definition phase_int (i : PhaseInts) (p : Phases.ExecutionPhase) : Z :=
  match p with
  | Phases.Begin => phase_BEGIN i | Phases.Execute => phase_EXECUTE i
  | Phases.Finished => phase_FINISHED i | Phases.Failure => phase_FAILURE i
  end.
Definition severity_int (i : SeverityInts) (s : Severities.Severity) : Z :=
  match s with
  | Severities.Information => severity_INFORMATION i | Severities.Warning => severity_WARNING i | Severities.Error => severity_ERROR i
  end.

(** An enum's reading undoes its writing, both ways. *)
Definition reads_back {A} (wire : A → Z) (from : Z → option A) : Prop := ∀ value a, from value = Some a ↔ value = wire a.

Lemma arms_read {A} (wire : A → Z) all : (∀ a, a ∈ all) → NoDup (wire <$> all) →
  reads_back wire (arms ((λ a, (wire a, a)) <$> all)).
Proof. intros Hall Hn value a. rewrite arms_find. by apply find_wire_spec. Qed.

(** An enum's own values are all there are. *)
Ltac every_value := let a := fresh in intros a; destruct a; repeat (apply elem_of_cons; first [left; reflexivity|right]).

(** Every value of an enum that crosses the boundary is the header's
    integer of its name there and is read back from it as itself, and an
    integer reads as a value just where it is that value's: what the header
    does not name reads as none. *)
Theorem wire_reads_back (h : Header) : header_distinct h →
  reads_back (wire_health (h_health h)) (from_wire_health (h_health h)) ∧
  reads_back (wire_counted (h_counted h)) (from_wire_counted (h_counted h)) ∧
  reads_back (wire_kind (h_kind h)) (from_wire_kind (h_kind h)) ∧
  reads_back (wire_origin (h_origin h)) (from_wire_origin (h_origin h)) ∧
  reads_back (wire_pattern (h_pattern h)) (from_wire_pattern (h_pattern h)) ∧
  reads_back (phase_int (h_phase h)) (from_wire_phase (h_phase h)) ∧
  reads_back (severity_int (h_severity h)) (from_wire_severity (h_severity h)) ∧
  reads_back (wire_stage (h_action h)) (stage_of (h_action h)) ∧
  reads_back (wire_outcome (h_outcome h)) (outcome_of (h_outcome h)).
Proof.
  intros (Hh & Hc & Hk & Ho & Hp & Hph & Hs & Ha & Hou). split_and!.
  - refine (arms_read (wire_health (h_health h)) all_health _ _); [every_value|exact Hh].
  - refine (arms_read (wire_counted (h_counted h)) all_counted _ _); [every_value|exact Hc].
  - refine (find_wire_spec (wire_kind (h_kind h)) all_kind _ _); [every_value|exact Hk].
  - refine (find_wire_spec (wire_origin (h_origin h)) all_origin _ _); [every_value|exact Ho].
  - refine (find_wire_spec (wire_pattern (h_pattern h)) all_pattern _ _); [every_value|exact Hp].
  - refine (arms_read (phase_int (h_phase h)) all_phase _ _); [every_value|exact Hph].
  - refine (arms_read (severity_int (h_severity h)) all_severity _ _); [every_value|exact Hs].
  - refine (arms_read (wire_stage (h_action h)) all_action _ _); [every_value|exact Ha].
  - refine (arms_read (wire_outcome (h_outcome h)) all_outcome _ _); [every_value|exact Hou].
Qed.

(** A header that numbers each enum from nought. *)
Definition a_header : Header :=
  {| h_health := Build_HealthInts 0 1 2 3 4 5 6; h_counted := Build_CountedInts 0 1 2 3 4 5;
     h_kind := Build_KindInts 0 1 2 3 4 5 6 7 8 9 10 11 12 13 14 15; h_origin := Build_OriginInts 0 1 2;
     h_pattern := Build_PatternInts 0 1 2 3 4 5 6; h_phase := Build_PhaseInts 0 1 2 3; h_severity := Build_SeverityInts 0 1 2;
     h_action := Build_ActionInts 0 1 2; h_outcome := Build_OutcomeInts 0 1 2 3 4 5 6 7 |}.

Lemma a_header_distinct : header_distinct a_header.
Proof. unfold header_distinct. split_and!; apply (bool_decide_unpack _); vm_compute; exact I. Qed.

Lemma wire_reads_back_witness : header_distinct a_header ∧ outcome_of (h_outcome a_header) 4 = Some Ended.Pause ∧
  reads_back (wire_outcome (h_outcome a_header)) (outcome_of (h_outcome a_header)).
Proof.
  split; [exact a_header_distinct|]. split; [reflexivity|].
  destruct (wire_reads_back a_header a_header_distinct) as (_ & _ & _ & _ & _ & _ & _ & _ & H). exact H.
Defined.
