(* ===== verification/Crossing.v ===== *)
(** * Events across the C boundary: [src/ffi/event/crossing.rs], [gate.rs]

    An Event and a filter as the header lays them out, read from a program
    and written for one ([event_of], [view_of], [filter_of], [asked]), and
    the hosting program's policy ([decide]). How an identifier is written and
    read, and what a newly raised Event holds, are the crates': a class
    states what is relied on of them. The map of diagnostics is what it holds,
    in any order. *)

From Stdlib Require Import Ascii String.
From stdpp Require Import base numbers list gmap strings.
From S2P Require Import Prelude Mood Boundary Wire.

Local Open Scope string_scope.
Local Open Scope list_scope.

Record Event := {
  id : N; kind : string; time_unix_nanos : Z; action : Stage; outcome : Ended.Outcome; scope : string;
  journey : option N; message : option N; stream : option N;
  endpoint : option string; module : option string; artifact : option string;
  party : option N; diagnostics : gmap string string
}.

(** How the crates write each kind of identifier and read any. *)
Class Ids := {
  event_id : N → string; journey_id : N → string; message_id : N → string; stream_id : N → string; party_id : N → string;
  parse_id : string → option N;
  raised : string → Stage → Ended.Outcome → string → Event
}.

Class IdsLaws `(Ids) := {
  every_read : ∀ n, parse_id (event_id n) = Some n ∧ parse_id (journey_id n) = Some n ∧ parse_id (message_id n) = Some n ∧
    parse_id (stream_id n) = Some n ∧ parse_id (party_id n) = Some n;
  none_empty : ∀ n, event_id n ≠ "" ∧ journey_id n ≠ "" ∧ message_id n ≠ "" ∧ stream_id n ≠ "" ∧ party_id n ≠ "";
  all_utf8 : ∀ n, utf8 (event_id n) = true ∧ utf8 (journey_id n) = true ∧ utf8 (message_id n) = true ∧
    utf8 (stream_id n) = true ∧ utf8 (party_id n) = true;
  as_raised : ∀ k s o c, kind (raised k s o c) = k ∧ action (raised k s o c) = s ∧ outcome (raised k s o c) = o ∧
    scope (raised k s o c) = c
}.

(** ** The header's Event and filter *)

Record WireEvent := {
  w_id : Str; w_kind : Str; w_time : Z; w_action : Z; w_outcome : Z; w_scope : Str;
  w_journey : Str; w_message : Str; w_stream : Str; w_endpoint : Str; w_module : Str; w_artifact : Str; w_party : Str;
  w_diagnostics : option (list Str); w_diagnostics_len : N
}.

(** [slice]: what lies at a pointer, none at null. *)
Definition slice {A} (items : option (list A)) (n : N) : list A :=
  match items with Some l => if (n =? 0)%N then [] else take (N.to_nat n) l | None => [] end.

(** [as_chunks::<2>]. *)
Fixpoint pairs {A} (l : list A) : list (A * A) :=
  match l with a :: b :: l => (a, b) :: pairs l | _ => [] end.

Section crossing.
Context `{Ids} (header : Header) (mem : Memory).

Definition text (s : Str) : result string Status :=
  match scope_text mem s with Some t => Ok t | None => Err MALFORMED end.

Definition given (t : string) : option string := if String.eqb t "" then None else Some t.

Definition optional (s : Str) : result (option string) Status := let? t := text s in Ok (given t).

Definition parsed (s : Str) : result (option N) Status :=
  let? t := optional s in
  match t with
  | None => Ok None
  | Some t => match parse_id t with Some n => Ok (Some n) | None => Err MALFORMED end
  end.

Definition or_invalid {A} (a : option A) : result A Status := match a with Some a => Ok a | None => Err INVALID end.

Fixpoint read_diagnostics (l : list (Str * Str)) (m : gmap string string) : result (gmap string string) Status :=
  match l with
  | [] => Ok m
  | (n, v) :: l => let? name := text n in let? value := text v in read_diagnostics l (<[name := value]> m)
  end.

(** [event_of]. *)
Definition event_of (w : WireEvent) : result Event Status :=
  let? k := text (w_kind w) in
  let? c := text (w_scope w) in
  let? stage := or_invalid (stage_of (h_action header) (w_action w)) in
  let? ended := or_invalid (outcome_of (h_outcome header) (w_outcome w)) in
  if String.eqb k "" || String.eqb c "" || negb (w_diagnostics_len w mod 2 =? 0)%N then Err INVALID
  else
    let e := raised k stage ended c in
    let? given_id := parsed (w_id w) in
    let? j := parsed (w_journey w) in
    let? m := parsed (w_message w) in
    let? s := parsed (w_stream w) in
    let? p := parsed (w_party w) in
    let? en := optional (w_endpoint w) in
    let? mo := optional (w_module w) in
    let? ar := optional (w_artifact w) in
    let? d := read_diagnostics (pairs (slice (w_diagnostics w) (w_diagnostics_len w))) ∅ in
    Ok {| id := default (id e) given_id; kind := kind e; time_unix_nanos := (if (w_time w =? 0)%Z then time_unix_nanos e else w_time w);
          action := action e; outcome := outcome e; scope := scope e; journey := j; message := m; stream := s;
          endpoint := en; module := mo; artifact := ar; party := p; diagnostics := d |}.

(** [texts_of] and [view_of]: the texts of an Event, in the order they lie
    at their places, and the header's Event borrowing from them. *)
Definition texts_of (e : Event) : list string :=
  [event_id (id e); kind e; scope e; default "" (journey_id <$> journey e); default "" (message_id <$> message e);
   default "" (stream_id <$> stream e); default "" (party_id <$> party e);
   default "" (endpoint e); default "" (module e); default "" (artifact e)] ++
  (map_to_list (diagnostics e) ≫= λ p, [p.1; p.2]).

Definition i64_of (t : Z) : Z := if bool_decide (- 2 ^ 63 ≤ t < 2 ^ 63)%Z then t else (2 ^ 63 - 1)%Z.

Definition view_of (empty : Str) (place : nat → N) (e : Event) : WireEvent :=
  let at_ i := borrow (place i) (default "" (texts_of e !! i)) in
  let optional i (o : option string) := match o with Some _ => at_ i | None => empty end in
  {| w_id := at_ 0%nat; w_kind := at_ 1%nat; w_scope := at_ 2%nat; w_time := i64_of (time_unix_nanos e);
     w_action := wire_stage (h_action header) (action e); w_outcome := wire_outcome (h_outcome header) (outcome e);
     w_journey := at_ 3%nat; w_message := at_ 4%nat; w_stream := at_ 5%nat; w_party := at_ 6%nat;
     w_endpoint := optional 7%nat (endpoint e); w_module := optional 8%nat (module e); w_artifact := optional 9%nat (artifact e);
     w_diagnostics := Some (at_ <$> seq 10 (2 * size (diagnostics e)));
     w_diagnostics_len := N.of_nat (2 * size (diagnostics e)) |}.

(** ** Filters and subscribers *)

Record Filter := { f_types : list string; f_outcomes : list Ended.Outcome; f_scope : option string; f_party : option N }.

Record WireFilter := { wf_types : list Str; wf_outcomes : list Z; wf_scope : Str; wf_party : Str }.

Definition everything : Filter := {| f_types := []; f_outcomes := []; f_scope := None; f_party := None |}.

Fixpoint each {A B} (f : A → result B Status) (l : list A) : result (list B) Status :=
  match l with [] => Ok [] | a :: l => let? b := f a in let? r := each f l in Ok (b :: r) end.

Definition filter_of (w : WireFilter) : result Filter Status :=
  let? c := text (wf_scope w) in
  let? p := text (wf_party w) in
  let? types := each text (wf_types w) in
  let? outcomes := each (λ n, or_invalid (outcome_of (h_outcome header) n)) (wf_outcomes w) in
  let? who := match given p with
              | None => Ok None
              | Some p => match parse_id p with Some n => Ok (Some n) | None => Err MALFORMED end
              end in
  Ok {| f_types := types; f_outcomes := outcomes; f_scope := given c; f_party := who |}.

(** [asked]: who subscribes — its Party, its program and the directory
    stated — and to what. *)
Definition asked (program directory subscriber : Str) (filter : option WireFilter) :
    result ((N * string * option string) * Filter) Status :=
  let? pr := text program in
  let? dir := text directory in
  let? who := text subscriber in
  if String.eqb who "" then Err INVALID
  else
    match parse_id who with
    | None => Err MALFORMED
    | Some p =>
        let? f := match filter with None => Ok everything | Some w => filter_of w end in
        Ok ((p, pr, given dir), f)
    end.

(** ** The hosting program's policy: [Hosted::decide] *)

Inductive Decision := Allowed | Denied (by_ why : string).

Definition NAME : string := "hosting-program".

Record Decisions := { decision_ALLOW : Z; decision_DENY : Z }.

Definition decide_ (d : Decisions) (answer : string → string → string → string → string → Z) (party_ : option N)
    (mechanism value artifact_ : string) (contract : option string) : option Decision :=
  let p := default "" (party_id <$> party_) in
  let a := answer p mechanism value artifact_ (default "" contract) in
  if (a =? decision_ALLOW d)%Z then Some Allowed
  else if (a =? decision_DENY d)%Z then
    Some (Denied NAME ("Party " +:+ p +:+ " may not subscribe to '" +:+ artifact_ +:+ "'"))
  else None.
End crossing.

(** ** What crosses is what was raised *)

Section crosses.
Context `{Hids : Ids, !IdsLaws Hids} (header : Header).

Lemma header_reads : header_distinct header →
  reads_back (wire_stage (h_action header)) (stage_of (h_action header)) ∧
  reads_back (wire_outcome (h_outcome header)) (outcome_of (h_outcome header)).
Proof.
  intros (_ & _ & _ & _ & _ & _ & _ & Ha & Ho). split.
  - refine (arms_read (wire_stage (h_action header)) all_action _ _); [every_value|exact Ha].
  - refine (arms_read (wire_outcome (h_outcome header)) all_outcome _ _); [every_value|exact Ho].
Qed.

(** A memory an Event's texts lie in, each at its place, none at null. *)
Definition laid_out (mem : Memory) (place : nat → N) (texts : list string) : Prop :=
  ∀ i t, texts !! i = Some t → (0 < place i)%N ∧ utf8 t = true ∧ bytes_at mem (place i) (String.length t) = t.

(** An Event the header carries whole. *)
Definition carried (e : Event) : Prop :=
  kind e ≠ "" ∧ scope e ≠ "" ∧ (- 2 ^ 63 ≤ time_unix_nanos e < 2 ^ 63)%Z ∧ time_unix_nanos e ≠ 0%Z ∧
  endpoint e ≠ Some "" ∧ module e ≠ Some "" ∧ artifact e ≠ Some "".

Lemma laid_text mem place texts i t : laid_out mem place texts → texts !! i = Some t →
  text mem (borrow (place i) (default "" (texts !! i))) = Ok t.
Proof.
  intros Hl Ht. destruct (Hl i t Ht) as (Hp & Hu & Hb). unfold text. rewrite Ht. simpl. by rewrite borrowed_is_read.
Qed.

Lemma text_empty mem empty : ptr empty = 0%N → text mem empty = Ok "".
Proof. intros He. unfold text, scope_text. by rewrite He. Qed.

Lemma given_empty t : given t = None → t = "".
Proof. unfold given. by destruct (String.eqb_spec t ""). Qed.

Lemma given_text t : t ≠ "" → given t = Some t.
Proof. unfold given. by destruct (String.eqb_spec t ""). Qed.

Lemma parsed_id mem s o (show : N → string) : text mem s = Ok (default "" (show <$> o)) →
  (∀ n, parse_id (show n) = Some n) → (∀ n, show n ≠ "") → parsed mem s = Ok o.
Proof.
  intros Ht Hp Hs. unfold parsed, optional. rewrite Ht. simpl. destruct o as [n|]; simpl; [|done].
  rewrite given_text by done. simpl. by rewrite Hp.
Qed.

Lemma optional_text mem empty s o : ptr empty = 0%N → o ≠ Some "" → text mem s = Ok (default "" o) →
  optional mem (match o with Some _ => s | None => empty end) = Ok o.
Proof.
  intros He Ho Ht. unfold optional. destruct o as [t|]; [|by rewrite (text_empty _ _ He)]. rewrite Ht. simpl.
  rewrite given_text; [done|]. by intros ->.
Qed.

Lemma read_pairs mem (f : nat → Str) (l : list (string * string)) : ∀ k m,
  (∀ i t, (l ≫= λ p, [p.1; p.2]) !! i = Some t → text mem (f (k + i)%nat) = Ok t) →
  read_diagnostics mem (pairs (f <$> seq k (2 * length l))) m = Ok (foldl (λ m p, <[p.1 := p.2]> m) m l).
Proof.
  induction l as [|[n v] l IH]; intros k m Hl; [done|].
  replace (2 * length ((n, v) :: l))%nat with (S (S (2 * length l))) by (simpl; lia). cbn [seq].
  rewrite !fmap_cons. cbn [pairs read_diagnostics].
  pose proof (Hl 0%nat n eq_refl) as H0. pose proof (Hl 1%nat v eq_refl) as H1.
  rewrite Nat.add_0_r in H0. rewrite Nat.add_1_r in H1. rewrite H0, H1. simpl. apply IH.
  intros i t Hi. replace (S (S k) + i)%nat with (k + S (S i))%nat by lia. by apply Hl.
Qed.

Lemma foldl_map (l : list (string * string)) : ∀ m : gmap string string, NoDup l.*1 → (∀ p, p ∈ l → m !! p.1 = None) →
  foldl (λ m p, <[p.1 := p.2]> m) m l = list_to_map l ∪ m.
Proof.
  induction l as [|[k v] l IH]; intros m Hn Hm; [simpl; by rewrite (left_id_L ∅ (∪))|]. csimpl in Hn. apply NoDup_cons in Hn as [Hk Hn].
  cbn [foldl]. rewrite IH; [|done|].
  - simpl. rewrite <-insert_union_r, <-insert_union_l; [done|by apply not_elem_of_list_to_map_1].
  - intros p Hp. cbn [fst]. rewrite lookup_insert_ne; [apply Hm; by apply elem_of_cons; right|].
    intros ->. apply Hk. apply list_elem_of_fmap. eauto.
Qed.

Lemma slice_whole {A} (l : list A) n : length l = n → slice (Some l) (N.of_nat n) = l.
Proof.
  intros Hl. unfold slice. destruct (N.eqb_spec (N.of_nat n) 0) as [H|_]; [by destruct l; [|simpl in Hl; lia]|].
  rewrite Nat2N.id, <-Hl. by apply firstn_all.
Qed.

Lemma diagnostics_back mem place e : laid_out mem place (texts_of e) →
  read_diagnostics mem (pairs ((λ i, borrow (place i) (default "" (texts_of e !! i))) <$> seq 10 (2 * size (diagnostics e)))) ∅ =
  Ok (diagnostics e).
Proof.
  intros Hl. rewrite <-length_map_to_list.
  rewrite (read_pairs mem (λ i, borrow (place i) (default "" (texts_of e !! i))) (map_to_list (diagnostics e)) 10).
  - rewrite foldl_map; [|apply NoDup_fst_map_to_list|intros p _; apply lookup_empty].
    by rewrite (right_id_L ∅ (∪)), list_to_map_to_list.
  - intros i t Hi. apply (laid_text mem place (texts_of e)); [done|]. exact Hi.
Qed.

(** An Event a program is handed across the boundary, raised there
    again, is the Event it was: its identifiers, its moment, its stage and
    outcome, its scope, what it names and every diagnostic, wherever the
    header carries it whole and the memory holds its texts. *)
Theorem event_crosses (mem : Memory) (place : nat → N) (empty : Str) (e : Event) :
  header_distinct header → ptr empty = 0%N → carried e → laid_out mem place (texts_of e) →
  event_of header mem (view_of header empty place e) = Ok e.
Proof.
  intros Hd He (Hk & Hs & Ht & Ht0 & Hen & Hmo & Har) Hl.
  destruct (header_reads Hd) as [Hst Hou].
  assert (∀ i t, texts_of e !! i = Some t → text mem (borrow (place i) (default "" (texts_of e !! i))) = Ok t) as Htext
    by (intros i t; by apply laid_text).
  unfold event_of. cbn [view_of w_kind w_scope w_action w_outcome w_diagnostics_len w_time].
  rewrite (Htext 1%nat (kind e) eq_refl), (Htext 2%nat (scope e) eq_refl). cbn [result_bind].
  rewrite (proj2 (Hst _ (action e)) eq_refl), (proj2 (Hou _ (outcome e)) eq_refl). cbn [result_bind or_invalid].
  destruct (String.eqb_spec (kind e) ""); [done|]. destruct (String.eqb_spec (scope e) ""); [done|]. cbn [orb].
  assert (N.of_nat (2 * size (diagnostics e)) mod 2 = 0)%N as -> by (rewrite Nat2N.inj_mul, N.mul_comm; by apply N.Div0.mod_mul).
  cbn [N.eqb negb].
  destruct (as_raised (kind e) (action e) (outcome e) (scope e)) as (-> & -> & -> & ->).
  cbn [view_of w_id w_journey w_message w_stream w_party w_endpoint w_module w_artifact w_diagnostics].
  rewrite (parsed_id mem _ (Some (id e)) event_id (Htext 0%nat _ eq_refl)) by (intros ?; apply every_read || apply none_empty).
  rewrite (parsed_id mem _ (journey e) journey_id (Htext 3%nat _ eq_refl)) by (intros ?; apply every_read || apply none_empty).
  rewrite (parsed_id mem _ (message e) message_id (Htext 4%nat _ eq_refl)) by (intros ?; apply every_read || apply none_empty).
  rewrite (parsed_id mem _ (stream e) stream_id (Htext 5%nat _ eq_refl)) by (intros ?; apply every_read || apply none_empty).
  rewrite (parsed_id mem _ (party e) party_id (Htext 6%nat _ eq_refl)) by (intros ?; apply every_read || apply none_empty).
  rewrite (optional_text mem empty _ (endpoint e) He Hen (Htext 7%nat _ eq_refl)).
  rewrite (optional_text mem empty _ (module e) He Hmo (Htext 8%nat _ eq_refl)).
  rewrite (optional_text mem empty _ (artifact e) He Har (Htext 9%nat _ eq_refl)).
  rewrite slice_whole by (by rewrite length_fmap, length_seq). rewrite (diagnostics_back mem place e Hl). cbn [result_bind default].
  unfold i64_of. rewrite bool_decide_true by done. destruct (Z.eqb_spec (time_unix_nanos e) 0); [done|]. by destruct e.
Qed.
End crosses.

(** Identifiers written as that many marks after one. *)
Fixpoint marks (n : nat) : string := match n with O => "" | S n => String "i" (marks n) end.

Definition mark_id (n : N) : string := String "#" (marks (N.to_nat n)).

Definition unmarked (s : string) : option N :=
  match s with EmptyString => None | String _ rest => Some (N.of_nat (String.length rest)) end.

#[export] Instance marked_ids : Ids :=
  {| event_id := mark_id; journey_id := mark_id; message_id := mark_id; stream_id := mark_id; party_id := mark_id; parse_id := unmarked;
     raised k s o c := {| id := 1; kind := k; time_unix_nanos := 1; action := s; outcome := o; scope := c; journey := None;
       message := None; stream := None; endpoint := None; module := None; artifact := None; party := None; diagnostics := ∅ |} |}.

#[export] Instance marked_laws : IdsLaws marked_ids.
Proof.
  assert (∀ n, unmarked (mark_id n) = Some n) as Hr.
  { intros n. simpl. f_equal. rewrite <-(N2Nat.id n) at 2. f_equal. induction (N.to_nat n); simpl; auto. }
  assert (∀ n, utf8 (mark_id n) = true) as Hu.
  { intros n. unfold mark_id. cbn [utf8]. change (N_of_ascii "#" <? 128)%N with true. cbn iota. by induction (N.to_nat n). }
  split; intros; split_and!; try apply Hr; try apply Hu; done.
Qed.

Definition an_event : Event :=
  {| id := 3; kind := "Stopped"; time_unix_nanos := 7; action := Send; outcome := Ended.Failure; scope := "xmip:///c";
     journey := Some 2%N; message := None; stream := None; endpoint := Some "out"; module := None; artifact := None; party := None;
     diagnostics := {[ "why" := "refused" ]} |}.

(** A memory with a text at each hundred. *)
Definition hundreds (i : nat) : N := (100 * (N.of_nat i + 1))%N.

Definition holding (texts : list string) : Memory := λ q,
  default "."%char (String.get (N.to_nat (q mod 100)) (default "" (texts !! (N.to_nat (q / 100) - 1)%nat))).

Lemma event_crosses_witness :
  carried an_event ∧
  event_of a_header (holding (texts_of an_event)) (view_of a_header {| ptr := 0; len := 0 |} hundreds an_event) = Ok an_event.
Proof.
  assert (carried an_event) as Hc by (unfold carried; split_and!; done).
  split; [exact Hc|]. apply event_crosses; [exact a_header_distinct|done|exact Hc|].
  intros i t Hi. do 12 (destruct i as [|i]; [vm_compute in Hi; injection Hi as <-; vm_compute; done|]). vm_compute in Hi. discriminate Hi.
Defined.
