(* ===== verification/Handles.v ===== *)
(** * A hub's handles across the C boundary: [src/ffi/event/hub.rs], [subscription.rs], [unheard.rs]

    What a program is handed and hands back: a subscription it drains or is
    called by ([xmip_event_subscribe_v1], [xmip_event_listen_v1]), a drained
    batch that owns its Events ([xmip_event_next_v1]), and their release
    ([xmip_event_batch_free_v1], [xmip_event_unsubscribe_v1]). The boxes
    behind them are cells of a store, a null pointer is none, and taking a
    box that does not live is no answer at all. The hub itself is the event
    crate's: its state and operations are given. *)

From Stdlib Require Import Ascii String.
From stdpp Require Import base numbers list gmap strings.
From S2P Require Import Prelude Boundary.

Local Open Scope string_scope.
Local Open Scope list_scope.

Section hub.
Context {Hub Subscriber Filter Subscription Listener Event Unheard : Type}.

(** What a drain delivers. *)
Record Delivery := { events : list Event; refused : N; unheard : list Unheard; unheard_changed : bool }.

Context (hub_subscribe : Subscriber → Filter → N → Hub → Hub * result Subscription string).
Context (hub_listen : Subscription → Hub → Hub * result Listener unit).
Context (hub_next : Subscription → N → N → Hub → Hub * Delivery).
Context (drop_subscription : Subscription → Hub → Hub) (drop_listener : Listener → Hub → Hub) (settle : Hub → Hub).
Context (hub_publish : Event → Hub → Hub * N).

(** A handle's box and a batch's. *)
Inductive Cell := Held (drained : option Subscription) (listening : option Listener) | Batch (d : Delivery).

Record World := { hub : Hub; cells : gmap positive Cell }.

Definition with_hub (h : Hub) (w : World) : World := {| hub := h; cells := cells w |}.

(** [Box::into_raw] and [Box::from_raw]. *)
Definition boxed (c : Cell) (w : World) : World * positive :=
  let p := fresh (dom (cells w)) in ({| hub := hub w; cells := <[p := c]> (cells w) |}, p).

Definition unboxed (p : positive) (w : World) : option (Cell * World) :=
  match cells w !! p with Some c => Some (c, {| hub := hub w; cells := delete p (cells w) |}) | None => None end.

(** An answer: its status, what it hands out, and what it says. *)
Record Answer := { status : Status; out : option positive; said : string; drained_events : list Event; count : N }.

Definition answer (s : Status) (o : option positive) (sentence : string) : Answer :=
  {| status := s; out := o; said := sentence; drained_events := []; count := 0 |}.

(** [xmip_event_subscribe_v1]. *)
Definition subscribe_v1 (asked : result (Subscriber * Filter) Status) (capacity : N) (w : World) : World * Answer :=
  match asked with
  | Err code => (w, answer code None "")
  | Ok (subscriber, filter) =>
      match hub_subscribe subscriber filter capacity (hub w) with
      | (h, Ok s) => let '(w, p) := boxed (Held (Some s) None) (with_hub h w) in (w, answer OK (Some p) "")
      | (h, Err why) => (with_hub h w, answer AUTH None why)
      end
  end.

(** [xmip_event_listen_v1]. *)
Definition listen_v1 (asked : result (Subscriber * Filter) Status) (capacity : N) (w : World) : option (World * Answer) :=
  let '(w, a) := subscribe_v1 asked capacity w in
  match status a, out a with
  | OK, Some drained =>
      match unboxed drained w with
      | Some (Held (Some s) _, w) =>
          match hub_listen s (hub w) with
          | (h, Ok l) => let '(w, p) := boxed (Held None (Some l)) (with_hub h w) in Some (w, answer OK (Some p) "")
          | (h, Err _) => Some (with_hub h w, answer CAPACITY None "")
          end
      | Some (_, w) => Some (w, answer INTERNAL None "")
      | None => None
      end
  | OK, None => None
  | _, _ => Some (w, answer (status a) None (said a))
  end.

(** [xmip_event_next_v1]. *)
Definition next_v1 (subscription : option positive) (timeout max : N) (w : World) : option (World * Answer) :=
  match subscription with
  | None => Some (w, answer INVALID None "")
  | Some p =>
      match cells w !! p with
      | Some (Held (Some s) _) =>
          let '(h, d) := hub_next s timeout max (hub w) in
          match events d, (refused d =? 0)%N, unheard_changed d with
          | [], true, false => Some (with_hub h w, answer TIMEOUT None "")
          | _, _, _ =>
              let '(w, b) := boxed (Batch d) (with_hub h w) in
              Some (w, {| status := OK; out := Some b; said := ""; drained_events := events d; count := refused d |})
          end
      | Some (Held None _) => Some (w, answer STATE None "")
      | _ => None
      end
  end.

(** [xmip_event_batch_free_v1]. *)
Definition batch_free_v1 (batch : option positive) (w : World) : option World :=
  match batch with
  | None => Some w
  | Some p => match unboxed p w with Some (Batch _, w) => Some w | _ => None end
  end.

(** [xmip_event_unsubscribe_v1]: dropped, and its records kept. *)
Definition dropped (s : option Subscription) (l : option Listener) (h : Hub) : Hub :=
  let h := match s with Some s => drop_subscription s h | None => h end in
  match l with Some l => drop_listener l h | None => h end.

Definition unsubscribe_v1 (subscription : option positive) (w : World) : option World :=
  match subscription with
  | None => Some w
  | Some p =>
      match unboxed p w with
      | Some (Held s l, w) => Some (with_hub (settle (dropped s l (hub w))) w)
      | _ => None
      end
  end.

(** [xmip_event_publish_v1]. *)
Definition publish_v1 (event : option (result Event Status)) (w : World) : World * Answer :=
  match event with
  | None => (w, answer INVALID None "")
  | Some (Err code) => (w, answer code None "")
  | Some (Ok e) =>
      let '(h, n) := hub_publish e (hub w) in
      (with_hub h w, {| status := OK; out := None; said := ""; drained_events := []; count := n |})
  end.

(** [xmip_event_batch_unheard_v1]: read of a batch that lives. *)
Definition batch_unheard_v1 (batch : option positive) (w : World) : option (result (list Unheard * bool) Status) :=
  match batch with
  | None => Some (Err INVALID)
  | Some p => match cells w !! p with Some (Batch d) => Some (Ok (unheard d, unheard_changed d)) | _ => None end
  end.

(** ** An operator's act on a subscription: [xmip_event_subscription_act_v1] *)
Context {Act : Type} (act_named : string → result Act string) (hub_act : N → Act → string → Hub → Hub * result string string).

Definition subscription_act_v1 (id : N) (act who : option string) (w : World) : World * Answer :=
  match act, who with
  | Some act, Some who =>
      match act_named act with
      | Err refusal => (w, answer INVALID None refusal)
      | Ok a =>
          match hub_act id a who (hub w) with
          | (h, Ok done_) => (with_hub h w, answer OK None done_)
          | (h, Err refusal) => (with_hub h w, answer NOT_FOUND None refusal)
          end
      end
  | _, _ => (w, answer MALFORMED None "")
  end.

(** ** A program that keeps to the header *)

Inductive Call :=
  | Subscribes (asked : result (Subscriber * Filter) Status) (capacity : N)
  | Listens (asked : result (Subscriber * Filter) Status) (capacity : N)
  | Drains (subscription : option positive) (timeout max : N)
  | Frees (batch : option positive)
  | Unsubscribes (subscription : option positive)
  | Publishes (event : option (result Event Status))
  | Acts (id : N) (act who : option string).

(** What a program holds: its subscriptions, and its batches with the Events
    it was told were drained into each. *)
Record Program := { handles : gset positive; batches : gmap positive (list Event) }.

Definition call (c : Call) (w : World) : option (World * Answer) :=
  match c with
  | Subscribes a n => Some (subscribe_v1 a n w)
  | Listens a n => listen_v1 a n w
  | Drains p t m => next_v1 p t m w
  | Frees b => (λ w, (w, answer OK None "")) <$> batch_free_v1 b w
  | Unsubscribes p => (λ w, (w, answer OK None "")) <$> unsubscribe_v1 p w
  | Publishes e => Some (publish_v1 e w)
  | Acts id a who => Some (subscription_act_v1 id a who w)
  end.

(** The contract: a pointer is null, or one it was handed and still holds;
    and what was asked is refused by a status that refuses. *)
Definition keeps (pr : Program) (c : Call) : Prop :=
  match c with
  | Drains (Some p) _ _ | Unsubscribes (Some p) => p ∈ handles pr
  | Frees (Some b) => is_Some (batches pr !! b)
  | Subscribes a _ | Listens a _ => a ≠ Err OK
  | _ => True
  end.

(** What it holds after. *)
Definition held_after (c : Call) (a : Answer) (pr : Program) : Program :=
  match c with
  | Subscribes _ _ | Listens _ _ =>
      match out a with Some p => {| handles := {[p]} ∪ handles pr; batches := batches pr |} | None => pr end
  | Drains _ _ _ =>
      match out a with
      | Some b => {| handles := handles pr; batches := <[b := drained_events a]> (batches pr) |}
      | None => pr
      end
  | Frees (Some b) => {| handles := handles pr; batches := delete b (batches pr) |}
  | Unsubscribes (Some p) => {| handles := handles pr ∖ {[p]}; batches := batches pr |}
  | _ => pr
  end.

(** Calls one after another, each answered. *)
Inductive runs : World → Program → list (Call * Answer) → World → Program → Prop :=
  | runs_nil w pr : runs w pr [] w pr
  | runs_cons w pr c w1 a l w2 pr2 : keeps pr c → call c w = Some (w1, a) → runs w1 (held_after c a pr) l w2 pr2 →
      runs w pr ((c, a) :: l) w2 pr2.

(** What a program holds is what lives. *)
Definition as_held (w : World) (pr : Program) : Prop :=
  ∀ p, match cells w !! p with
       | Some (Held s l) => p ∈ handles pr ∧ batches pr !! p = None ∧ (is_Some s ↔ l = None)
       | Some (Batch d) => p ∉ handles pr ∧ batches pr !! p = Some (events d)
       | None => p ∉ handles pr ∧ batches pr !! p = None
       end.

Lemma as_held_hub h w pr : as_held w pr → as_held (with_hub h w) pr.
Proof. done. Qed.

Lemma boxed_held s l w pr : as_held w pr → (is_Some s ↔ l = None) →
  let '(w', p) := boxed (Held s l) w in
  as_held w' {| handles := {[p]} ∪ handles pr; batches := batches pr |} ∧ cells w !! p = None.
Proof.
  intros Hw Hs. unfold boxed. set (p := fresh (dom (cells w))).
  assert (cells w !! p = None) as Hp by (apply not_elem_of_dom, is_fresh). split; [|done].
  intros q. specialize (Hw q). simpl. destruct (decide (p = q)) as [<-|Hne].
  - rewrite lookup_insert_eq. rewrite Hp in Hw. split; [set_solver|]. split; [apply Hw|done].
  - rewrite lookup_insert_ne by done. destruct (cells w !! q) as [[]|]; set_solver.
Qed.

Lemma boxed_batch d w pr : as_held w pr →
  let '(w', p) := boxed (Batch d) w in
  as_held w' {| handles := handles pr; batches := <[p := events d]> (batches pr) |}.
Proof.
  intros Hw. unfold boxed. set (p := fresh (dom (cells w))).
  assert (cells w !! p = None) as Hp by (apply not_elem_of_dom, is_fresh).
  intros q. specialize (Hw q). simpl. destruct (decide (p = q)) as [<-|Hne].
  - rewrite !lookup_insert_eq. rewrite Hp in Hw. split; [apply Hw|done].
  - rewrite !lookup_insert_ne by done. done.
Qed.

Lemma unboxed_boxed c w : let '(w', p) := boxed c w in unboxed p w' = Some (c, {| hub := hub w; cells := cells w |}).
Proof.
  unfold boxed, unboxed. simpl. rewrite lookup_insert_eq, delete_insert_id; [done|]. apply not_elem_of_dom, is_fresh.
Qed.

(** A subscribe is answered OK with a subscription to drain, or refused with
    nothing. *)
Lemma subscribe_answers a n w : a ≠ Err OK →
  (∃ s h, subscribe_v1 a n w = ((boxed (Held (Some s) None) (with_hub h w)).1,
     answer OK (Some (boxed (Held (Some s) None) (with_hub h w)).2) "")) ∨
  (∃ h code why, subscribe_v1 a n w = (with_hub h w, answer code None why) ∧ code ≠ OK).
Proof.
  intros Ha. unfold subscribe_v1. destruct a as [[s f]|code].
  - destruct (hub_subscribe s f n (hub w)) as [h [sub|why]]; [left; by exists sub, h|right; by exists h, AUTH, why].
  - right. exists (hub w), code, "". split; [by destruct w|congruence].
Qed.

Lemma unboxed_held p w pr : as_held w pr → p ∈ handles pr →
  ∃ s l, unboxed p w = Some (Held s l, {| hub := hub w; cells := delete p (cells w) |}) ∧ cells w !! p = Some (Held s l) ∧
    (is_Some s ↔ l = None) ∧
    as_held {| hub := hub w; cells := delete p (cells w) |} {| handles := handles pr ∖ {[p]}; batches := batches pr |}.
Proof.
  intros Hw Hp. pose proof (Hw p) as Hwp. unfold unboxed. destruct (cells w !! p) as [[s l|d]|] eqn:Hc; [|by destruct Hwp..].
  exists s, l. split_and!; [done|done|apply Hwp..|]. intros q. specialize (Hw q). simpl. destruct (decide (p = q)) as [<-|Hne].
  - rewrite lookup_delete_eq. split; [set_solver|apply Hwp].
  - rewrite lookup_delete_ne by done. destruct (cells w !! q) as [[]|]; set_solver.
Qed.

Lemma unboxed_batch b w pr : as_held w pr → is_Some (batches pr !! b) →
  ∃ d, unboxed b w = Some (Batch d, {| hub := hub w; cells := delete b (cells w) |}) ∧
    as_held {| hub := hub w; cells := delete b (cells w) |} {| handles := handles pr; batches := delete b (batches pr) |}.
Proof.
  intros Hw [es Hb]. pose proof (Hw b) as Hwb. unfold unboxed. destruct (cells w !! b) as [[s l|d]|] eqn:Hc.
  - destruct Hwb as (_ & Hwb & _). congruence.
  - exists d. split; [done|]. intros q. specialize (Hw q). simpl. destruct (decide (b = q)) as [<-|Hne].
    + rewrite !lookup_delete_eq. split; [apply Hwb|done].
    + by rewrite !lookup_delete_ne by done.
  - destruct Hwb. congruence.
Qed.

(** One call by a program that keeps to the contract is answered, and what
    lives after it is what the program holds. *)
Lemma call_held w pr c : as_held w pr → keeps pr c → ∃ w' a, call c w = Some (w', a) ∧ as_held w' (held_after c a pr).
Proof.
  intros Hw Hk. destruct c as [a n|a n|[p|] t m|[b|]|[p|]|e|i act who]; cbn [call keeps held_after] in *; try (by eauto).
  - destruct (subscribe_answers a n w Hk) as [(s & h & ->)|(h & code & why & -> & _)]; [|by eauto].
    pose proof (boxed_held (Some s) None (with_hub h w) pr Hw ltac:(by split)) as H.
    destruct (boxed _ _) as [w' p]. simpl. destruct H. eauto.
  - unfold listen_v1. destruct (subscribe_answers a n w Hk) as [(s & h & ->)|(h & code & why & -> & Hc)].
    + pose proof (unboxed_boxed (Held (Some s) None) (with_hub h w)) as Hu. destruct (boxed _ _) as [w' p]. cbn [status out answer fst snd].
      rewrite Hu. cbn [hub]. destruct (hub_listen s (hub (with_hub h w))) as [h2 [l|[]]]; [|by eexists _, _].
      pose proof (boxed_held None (Some l) (with_hub h2 (with_hub h w)) pr Hw ltac:(split; [by intros []|done])) as H.
      unfold with_hub in *. cbn [hub cells] in *. destruct (boxed _ _) as [w2 p2]. destruct H. eauto.
    + cbn [status out answer]. destruct code; try done; by eexists _, _.
  - unfold next_v1. destruct (unboxed_held p w pr Hw Hk) as (s & l & _ & -> & _ & _). destruct s as [s|]; [|by eauto].
    destruct (hub_next s t m (hub w)) as [h d].
    pose proof (boxed_batch d (with_hub h w) pr Hw) as H. destruct (boxed _ _) as [w' b].
    destruct (events d) as [|ev evs] eqn:Hev; [|eexists _, _; (split; [done|]); done].
    destruct (refused d =? 0)%N, (unheard_changed d); eexists _, _; (split; [done|]); done.
  - unfold batch_free_v1. destruct (unboxed_batch b w pr Hw Hk) as (d & -> & H). simpl. eauto.
  - unfold unsubscribe_v1. destruct (unboxed_held p w pr Hw Hk) as (s & l & -> & _ & _ & H). simpl. eauto.
  - unfold publish_v1. destruct e as [[e|code]|]; [|by eauto..]. destruct (hub_publish e (hub w)) as [h k]. by eexists _, _.
  - unfold subscription_act_v1. destruct act as [act|], who as [who|]; try (by eauto).
    destruct (act_named act) as [ac|why]; [|by eauto]. destruct (hub_act i ac who (hub w)) as [h []]; by eexists _, _.
Qed.

Lemma runs_held w pr l w2 pr2 : runs w pr l w2 pr2 → as_held w pr → as_held w2 pr2.
Proof.
  induction 1 as [|w pr c w1 a l w2 pr2 Hk Hc Hr IH]; intros Hw; [done|]. apply IH.
  destruct (call_held w pr c Hw Hk) as (w' & a' & Hc' & H). by simplify_eq.
Qed.

(** C33. Whatever calls a program makes that keeps to the header, none takes
    or reads a box that does not live: each is answered, and what lives is
    just what it holds — a subscription drained or listening until it
    unsubscribes, and a batch with the Events it was told of until it frees
    it, whatever else is freed meanwhile — so one that has freed all it
    was handed leaves nothing. *)
Theorem boxes_live w l w2 pr : cells w = ∅ → runs w {| handles := ∅; batches := ∅ |} l w2 pr →
  (∀ p, p ∈ handles pr ↔ ∃ s l, cells w2 !! p = Some (Held s l)) ∧
  (∀ b es, batches pr !! b = Some es ↔ ∃ d, cells w2 !! b = Some (Batch d) ∧ events d = es) ∧
  (handles pr = ∅ → batches pr = ∅ → cells w2 = ∅) ∧
  (∀ c, keeps pr c → is_Some (call c w2)).
Proof.
  intros Hw Hr. assert (as_held w {| handles := ∅; batches := ∅ |}) as H0 by (intros p; by rewrite Hw, lookup_empty).
  pose proof (runs_held _ _ _ _ _ Hr H0) as H.
  split_and!.
  - intros p. specialize (H p). destruct (cells w2 !! p) as [[s l'|d]|]; split; try naive_solver.
  - intros b es. specialize (H b). destruct (cells w2 !! b) as [[s l'|d]|]; split; naive_solver.
  - intros Hh Hb. apply map_eq. intros p. specialize (H p). rewrite lookup_empty. rewrite Hh, Hb, lookup_empty in H.
    destruct (cells w2 !! p) as [[]|]; [set_solver|by destruct H|done].
  - intros c Hk. destruct (call_held w2 pr c H Hk) as (w' & a & -> & _). eauto.
Qed.
End hub.

(** ** A hub that counts, and a program over it *)

Definition toy_subscribe (s : N) (_ : unit) (_ : N) (h : N) : N * result N string := ((h + 1)%N, Ok h).
Definition toy_listen (s : N) (h : N) : N * result N unit := (h, Ok s).
Definition toy_next (s t m : N) (h : N) : N * Delivery (Event := N) (Unheard := unit) :=
  (h, {| events := [h; 7%N]; refused := 0; unheard := []; unheard_changed := false |}).
Definition toy_act (i : N) (a : unit) (who : string) (h : N) : N * result string string := (h, Ok "done").

Abbreviation toy_runs := (runs toy_subscribe toy_listen toy_next (λ _ h, h) (λ _ h, h) id (λ _ h, (h, 1%N)) (λ _, Ok tt) toy_act).
Abbreviation toy_call := (call toy_subscribe toy_listen toy_next (λ _ h, h) (λ _ h, h) id (λ _ h, (h, 1%N)) (λ _, Ok tt) toy_act).

(** Subscribed, drained, unsubscribed: the batch is still there. *)
Lemma boxes_live_witness : ∃ l w pr,
  toy_runs {| hub := 5%N; cells := ∅ |} {| handles := ∅; batches := ∅ |} l w pr ∧
  (∃ b d, cells w !! b = Some (Batch d) ∧ events d = [6; 7]%N) ∧ handles pr = ∅ ∧
  is_Some (toy_call (Frees (Some 2%positive)) w).
Proof.
  assert (∃ l w pr, toy_runs {| hub := 5%N; cells := ∅ |} {| handles := ∅; batches := ∅ |} l w pr ∧
    batches pr !! 2%positive = Some [6; 7]%N ∧ handles pr = ∅) as (l & w & pr & Hr & Hb & Hh).
  { eexists _, _, _. split; [|split].
    - eapply (runs_cons _ _ _ _ _ _ _ _ _ _ _ (Subscribes (Ok (0%N, tt)) 4)); [done|vm_compute; reflexivity|].
      eapply (runs_cons _ _ _ _ _ _ _ _ _ _ _ (Drains (Some 1%positive) 0 8)); [simpl; apply (bool_decide_unpack _); vm_compute; exact I|vm_compute; reflexivity|].
      eapply (runs_cons _ _ _ _ _ _ _ _ _ _ _ (Unsubscribes (Some 1%positive))); [simpl; apply (bool_decide_unpack _); vm_compute; exact I|vm_compute; reflexivity|].
      apply runs_nil.
    - vm_compute. reflexivity.
    - vm_compute. reflexivity. }
  exists l, w, pr. split; [exact Hr|].
  destruct (boxes_live _ _ _ _ _ _ _ _ _ {| hub := 5%N; cells := ∅ |} l w pr eq_refl Hr) as (_ & Hlive & _ & Hc).
  split; [exists 2%positive; by apply Hlive|]. split; [exact Hh|]. apply Hc. exists [6; 7]%N. exact Hb.
Defined.
