(* ===== verification/Secure.v ===== *)
(** * A web host's HTTPS listener: [src/secure_listener.rs]

    The accepting thread, the handshakes each on a thread of its own, the
    accepts that wait for one to finish and the stop, interleaved at each
    section of the queue's lock ([listener_step]); and one handshake with
    its caller's hold ([handshaken], [drop_session]), a session's read and
    close. TLS, the sockets and the proving of a caller ([secured]) are
    other crates' or modelled elsewhere, each given as what it answers. *)

From Stdlib Require Import Ascii String.
From stdpp Require Import base numbers list strings relations.
From S2P Require Import Prelude.

Local Open Scope string_scope.
Local Open Scope list_scope.

(** ** One handshake: [SecureSession::handshaken] *)

(** What a handshake came to: a session with the caller held for it, or why
    not, by kind ([Unanswered]). *)
Inductive Handshake := Session (caller : N) | HRefused (said : string) | HFailed (said : string).

(** What [accept] hands over. *)
Inductive Accepted := ASession (caller : N) | Refused (said : string) | Failed (said : string) | Stopped.

Definition accepted (h : Handshake) : Accepted :=
  match h with Session c => ASession c | HRefused w => Refused w | HFailed w => Failed w end.

(** Proven by [secured], the session unbounded, its socket held and it split
    in two; the caller let go where any of these fails. The callers let go
    are told beside. *)
Definition handshaken (proven : result N (bool * string)) (unbounded cloned split : result unit string) :
    Handshake * list N :=
  match proven with
  | Err (true, said) => (HRefused said, [])
  | Err (false, said) => (HFailed said, [])
  | Ok caller =>
      match unbounded with
      | Err w => (HFailed ("unbounding the session: " +:+ w), [caller])
      | Ok _ =>
          match cloned with
          | Err w => (HFailed ("holding the socket: " +:+ w), [caller])
          | Ok _ => match split with Err w => (HFailed w, [caller]) | Ok _ => (Session caller, []) end
          end
      end
  end.

(** [SecureSession::drop]: its own hold let go. *)
Definition drop_session (h : Handshake) : list N := match h with Session c => [c] | _ => [] end.

(** A caller proven is let go once: as its handshake fails, or as its
    session is dropped. *)
Lemma caller_let_go_once caller unbounded cloned split :
  let '(h, released) := handshaken (Ok caller) unbounded cloned split in released ++ drop_session h = [caller].
Proof. unfold handshaken. by destruct unbounded, cloned, split. Qed.

(** ** A session's bytes: [read], [close] *)

Inductive ErrorKind := UnexpectedEof | ConnectionReset | ConnectionAborted | NotConnected | OtherError.

(** [ended_by]. *)
Definition ended_by (k : ErrorKind) : bool := match k with OtherError => false | _ => true end.

Definition session_read (r : result N ErrorKind) : result N ErrorKind :=
  match r with Err k => if ended_by k then Ok 0%N else r | Ok _ => r end.

(** [close]: told the client where no write holds the connection, and the
    socket shut either way. *)
Inductive Closing := SaysClosing | ShutsSocket.
Definition session_close (writing_free : bool) : list Closing :=
  (if writing_free then [SaysClosing] else []) ++ [ShutsSocket].

(** ** The listener *)

(** One accept: about to take the lock, under it having seen no stop, waiting
    for a handshake, or answered. *)
Inductive Phase := Looking | Checked | Asleep | Answered (a : Accepted).

(** The accepting thread: waiting for a connection, past its look at the
    stop with one taken, or ended. *)
Inductive Accepting := Listening | Taken | Ended.

(** [Waiting], the accepts and the threads: how far the stop is — asked and
    then told to every accept — and beside them every handshake handed over
    and every one an accept answered, in their orders. *)
Record Listener := {
  finished : list Handshake;
  stopping : bool;
  told : bool;
  accepts : list Phase;
  accepting : Accepting;
  under_way : nat;
  handed : list Handshake;
  taken : list Handshake
}.

Definition listening : Listener :=
  {| finished := []; stopping := false; told := false; accepts := []; accepting := Listening; under_way := 0; handed := []; taken := [] |}.

Definition with_accepts (a : list Phase) (l : Listener) : Listener :=
  {| finished := finished l; stopping := stopping l; told := told l; accepts := a; accepting := accepting l;
     under_way := under_way l; handed := handed l; taken := taken l |}.

Definition with_accepting (a : Accepting) (n : nat) (l : Listener) : Listener :=
  {| finished := finished l; stopping := stopping l; told := told l; accepts := accepts l; accepting := a;
     under_way := n; handed := handed l; taken := taken l |}.

(** [hand]: queued, and one accept that waits woken, where one does. *)
Definition hand (h : Handshake) (woken : list Phase) (l : Listener) : Listener :=
  {| finished := finished l ++ [h]; stopping := stopping l; told := told l; accepts := woken; accepting := accepting l;
     under_way := under_way l; handed := handed l ++ [h]; taken := taken l |}.

Definition notify_one (before after : list Phase) : Prop :=
  (Asleep ∉ before ∧ after = before) ∨ (∃ i, before !! i = Some Asleep ∧ after = <[i := Looking]> before).

Definition woken (p : Phase) : Phase := match p with Asleep => Looking | _ => p end.

(** The first of the queue answered to an accept. *)
Definition answer (i : nat) (h : Handshake) (rest : list Handshake) (l : Listener) : Listener :=
  {| finished := rest; stopping := stopping l; told := told l; accepts := <[i := Answered (accepted h)]> (accepts l);
     accepting := accepting l; under_way := under_way l; handed := handed l; taken := taken l ++ [h] |}.

Definition stop_asked (l : Listener) : Listener :=
  {| finished := finished l; stopping := true; told := told l; accepts := accepts l; accepting := accepting l;
     under_way := under_way l; handed := handed l; taken := taken l |}.

Definition stop_told (l : Listener) : Listener :=
  {| finished := finished l; stopping := stopping l; told := true; accepts := woken <$> accepts l; accepting := accepting l;
     under_way := under_way l; handed := handed l; taken := taken l |}.

(** No accept is under the queue's lock. *)
Definition unlocked (l : Listener) : Prop := Checked ∉ accepts l.

Inductive listener_step : Listener → Listener → Prop :=
  (* an accept called, and its look at the stop under the lock *)
  | step_accept l : listener_step l (with_accepts (accepts l ++ [Looking]) l)
  | step_stopped l i : accepts l !! i = Some Looking → unlocked l → stopping l = true →
      listener_step l (with_accepts (<[i := Answered Stopped]> (accepts l)) l)
  | step_checked l i : accepts l !! i = Some Looking → unlocked l → stopping l = false →
      listener_step l (with_accepts (<[i := Checked]> (accepts l)) l)
  (* the first finished handed over, or the wait *)
  | step_taken l i h rest : accepts l !! i = Some Checked → finished l = h :: rest → listener_step l (answer i h rest l)
  | step_waits l i : accepts l !! i = Some Checked → finished l = [] →
      listener_step l (with_accepts (<[i := Asleep]> (accepts l)) l)
  | step_spurious l i : accepts l !! i = Some Asleep → listener_step l (with_accepts (<[i := Looking]> (accepts l)) l)
  (* the accepting thread: a connection taken, or its end; its handshake
     begun, or failed where no thread starts *)
  | step_connected l : accepting l = Listening → stopping l = false → listener_step l (with_accepting Taken (under_way l) l)
  | step_ends l : accepting l = Listening → stopping l = true → listener_step l (with_accepting Ended (under_way l) l)
  | step_begun l : accepting l = Taken → listener_step l (with_accepting Listening (S (under_way l)) l)
  | step_unbegun l why after : accepting l = Taken → unlocked l → notify_one (accepts l) after →
      listener_step l (hand (HFailed ("starting a handshake's thread: " +:+ why)) after (with_accepting Listening (under_way l) l))
  (* a handshake over *)
  | step_handed l n h after : under_way l = S n → unlocked l → notify_one (accepts l) after →
      listener_step l (hand h after (with_accepting (accepting l) n l))
  (* the stop *)
  | step_stop l : listener_step l (stop_asked l)
  | step_told l : stopping l = true → unlocked l → listener_step l (stop_told l).

(** ** What holds of it *)

Definition awake (p : Phase) : bool := match p with Looking | Checked => true | _ => false end.
Definition asleep (p : Phase) : bool := match p with Asleep => true | _ => false end.
Definition locking (p : Phase) : bool := match p with Checked => true | _ => false end.

Lemma count_insert {A} (f : A → bool) l i x y : l !! i = Some x →
  count f (<[i := y]> l) + Nat.b2n (f x) = count f l + Nat.b2n (f y).
Proof.
  revert i. induction l as [|z l IH]; intros [|i] Hi; [done..| |]; simpl in Hi; cbn [list_insert insert].
  - injection Hi as ->. change (<[0:=y]> (x :: l)) with (y :: l). rewrite !count_cons. destruct (f x), (f y); simpl; lia.
  - change (<[S i:=y]> (z :: l)) with (z :: <[i:=y]> l). rewrite !count_cons. specialize (IH i Hi). rewrite <-!Nat.add_assoc. f_equal. exact IH.
Qed.

(** Every handshake handed over is with an accept or queued, in order; one
    accept at most is under the lock; while none is stopping, an accept waits
    only where as many look as handshakes are queued; told to stop, none
    waits; and every answer is a handshake taken or the stop. *)
Record heard (l : Listener) : Prop := {
  each_once : handed l = taken l ++ finished l;
  one_locked : (count locking (accepts l) ≤ 1)%nat;
  none_missed : stopping l = false → (0 < count asleep (accepts l) → length (finished l) ≤ count awake (accepts l))%nat;
  told_stopping : told l = true → stopping l = true;
  none_waits : told l = true → count asleep (accepts l) = 0%nat ∧ count locking (accepts l) = 0%nat
}.

Lemma unlocked_count l : unlocked l ↔ count locking (accepts l) = 0%nat.
Proof.
  unfold unlocked. split.
  - intros Hu. destruct (count locking (accepts l)) eqn:Hc; [done|]. exfalso.
    assert (0 < count locking (accepts l))%nat as (p & Hp & He)%count_pos by lia. by destruct p.
  - intros Hc Hin. assert (0 < count locking (accepts l))%nat; [apply count_pos; by exists Checked|lia].
Qed.

Lemma woken_counts a : count asleep (woken <$> a) = 0%nat ∧ count locking (woken <$> a) = count locking a.
Proof. induction a as [|p a [IH1 IH2]]; [done|]. rewrite !fmap_cons, !count_cons, IH1, IH2. by destruct p. Qed.

(** What waking one accept changes. *)
Lemma notified before after : notify_one before after →
  count locking after = count locking before ∧
  ((count asleep before = 0 ∧ after = before) ∨
   (count asleep before = S (count asleep after) ∧ count awake after = S (count awake before)))%nat.
Proof.
  intros [[Hno ->]|(i & Hi & ->)].
  - split; [done|]. left. split; [|done]. destruct (count asleep before) eqn:Hc; [done|]. exfalso.
    assert (0 < count asleep before)%nat as (p & Hp & He)%count_pos by lia. by destruct p.
  - pose proof (count_insert locking _ _ _ Looking Hi). pose proof (count_insert asleep _ _ _ Looking Hi).
    pose proof (count_insert awake _ _ _ Looking Hi). simpl in *. split; [lia|]. right. lia.
Qed.

(** An accept moved on. *)
Ltac moved Hi y :=
  pose proof (count_insert locking _ _ _ y Hi); pose proof (count_insert asleep _ _ _ y Hi);
  pose proof (count_insert awake _ _ _ y Hi); simpl in *.

(** What was so of the waiting stays so. *)
Ltac kept_told Hw := let Hto := fresh in intros Hto; specialize (Hw Hto); rewrite ?count_app, ?count_cons, ?count_nil; simpl; lia.
Ltac kept_awake Hn := let Hst := fresh in intros Hst ?; specialize (Hn Hst ltac:(lia)); lia.
Ltac handed_awake Hn Hno :=
  let Hst := fresh in intros Hst ?; rewrite length_app; simpl; destruct Hno as [[? ->]|[? ?]]; [lia|]; specialize (Hn Hst ltac:(lia)); lia.

Lemma heard_step l l' : heard l → listener_step l l' → heard l'.
Proof.
  intros [He Hl Hn Ht Hw] Hs.
  destruct Hs as [l|l i Hi Hu Hs|l i Hi Hu Hs|l i h rest Hi Hf|l i Hi Hf|l i Hi|l Ha Hs|l Ha Hs|l Ha|l why after Ha Hu Hno|
    l n h after Hun Hu Hno|l|l Hs Hu]; try rewrite unlocked_count in Hu.
  - split; simpl; rewrite ?count_app, ?count_cons, ?count_nil; simpl; [done|lia| |done|kept_told Hw].
    kept_awake Hn.
  - moved Hi (Answered Stopped). split; simpl; [done|lia|congruence|done|kept_told Hw].
  - moved Hi Checked. split; simpl; [done|lia|kept_awake Hn|done|intros Hto; apply Ht in Hto; congruence].
  - moved Hi (Answered (accepted h)). split; simpl; [rewrite He, Hf; by rewrite <-(assoc_L (++))|lia| |done|kept_told Hw].
    intros Hst Hpos. specialize (Hn Hst ltac:(lia)). rewrite Hf in Hn. simpl in Hn. lia.
  - moved Hi Asleep. split; simpl; [done|lia|intros; rewrite Hf; simpl; lia|done|kept_told Hw].
  - moved Hi Looking. split; simpl; [done|lia|kept_awake Hn|done|kept_told Hw].
  - by split.
  - by split.
  - by split.
  - apply notified in Hno as [Hk Hno]. split; simpl; [by rewrite He, (assoc_L (++))|lia|handed_awake Hn Hno|done|destruct Hno as [[? ->]|[? ?]]; kept_told Hw].
  - apply notified in Hno as [Hk Hno]. split; simpl; [by rewrite He, (assoc_L (++))|lia|handed_awake Hn Hno|done|destruct Hno as [[? ->]|[? ?]]; kept_told Hw].
  - by split.
  - destruct (woken_counts (accepts l)) as [H1 H2]. split; simpl; [done|lia|congruence|done|lia].
Qed.

(** ** What each accept is answered *)

Definition answer_of (p : Phase) : option Accepted :=
  match p with Answered Stopped => None | Answered a => Some a | _ => None end.

Lemma omap_insert_none {A B} (g : A → option B) (l : list A) i x y : l !! i = Some x → g x = None → g y = None →
  omap g (<[i := y]> l) = omap g l.
Proof.
  intros Hi Hx Hy. rewrite <-(take_drop_middle l i x Hi) at 2. rewrite insert_take_drop by (by eapply lookup_lt_Some).
  rewrite !omap_app. simpl. by rewrite Hx, Hy.
Qed.

Lemma omap_insert_some {A B} (g : A → option B) (l : list A) i x y b : l !! i = Some x → g x = None → g y = Some b →
  omap g (<[i := y]> l) ≡ₚ omap g l ++ [b].
Proof.
  intros Hi Hx Hy. rewrite <-(take_drop_middle l i x Hi) at 2. rewrite insert_take_drop by (by eapply lookup_lt_Some).
  rewrite !omap_app. simpl. rewrite Hx, Hy. rewrite <-(assoc_L (++)). f_equiv. by rewrite Permutation_cons_append.
Qed.

Lemma answered_step l l' : listener_step l l' → omap answer_of (accepts l) ≡ₚ accepted <$> taken l →
  omap answer_of (accepts l') ≡ₚ accepted <$> taken l'.
Proof.
  intros Hs Ha.
  assert (∀ before after, notify_one before after → omap answer_of after = omap answer_of before) as Hno.
  { intros before after [[_ ->]|(i & Hi & ->)]; [done|]. by eapply omap_insert_none. }
  destruct Hs; simpl; try done; try (by erewrite omap_insert_none); try (by erewrite Hno).
  - rewrite omap_app. simpl. by rewrite app_nil_r.
  - rewrite fmap_app, <-Ha. eapply omap_insert_some; [done|done|]. by destruct h.
  - assert (∀ a, omap answer_of (woken <$> a) = omap answer_of a) as ->; [|done].
    intros a. induction a as [|p a IH]; [done|]. destruct p; csimpl; by rewrite ?IH.
Qed.

(** C34. However accepts, handshakes, the accepting thread and a stop
    interleave, every handshake over is handed to one accept or still
    queued, in the order they were over, and no accept is answered another;
    no accept waits on while a handshake over has no accept looking for it;
    and once a stop has told them none waits, nothing is handed over any
    more, and each that looks is answered that it stopped. *)
Theorem accept_hears l : rtc listener_step listening l →
  handed l = taken l ++ finished l ∧
  omap answer_of (accepts l) ≡ₚ accepted <$> taken l ∧
  (stopping l = false → Asleep ∈ accepts l → (length (finished l) ≤ count awake (accepts l))%nat) ∧
  (told l = true → Asleep ∉ accepts l ∧ (∀ l', listener_step l l' → taken l' = taken l) ∧
     ∀ i, accepts l !! i = Some Looking → listener_step l (with_accepts (<[i := Answered Stopped]> (accepts l)) l)).
Proof.
  intros Hr. assert (heard l ∧ omap answer_of (accepts l) ≡ₚ accepted <$> taken l) as [[He Hl Hn Ht Hw] Ha].
  { revert l Hr. apply (rtc_ind_r (R := listener_step) (λ l, heard l ∧ omap answer_of (accepts l) ≡ₚ accepted <$> taken l)).
    - split; [|done]. split; try done; simpl; rewrite ?count_nil; lia.
    - intros l l' _ Hs [H Ha]. split; [by eapply heard_step|by eapply answered_step]. }
  assert (∀ f p, f p = true → p ∈ accepts l → (0 < count f (accepts l))%nat) as Hin by (intros f p Hf Hp; apply count_pos; eauto).
  split_and!; [done|done|intros Hs Hp; apply Hn; [done|by apply (Hin _ Asleep)]|]. intros Hto. destruct (Hw Hto) as [H0 H1]. split_and!.
  - intros Hp. apply (Hin asleep) in Hp; [lia|done].
  - intros l' Hs. destruct Hs; try done. apply list_elem_of_lookup_2, (Hin locking) in H; [lia|done].
  - intros i Hi. apply step_stopped; [done|by apply unlocked_count|by apply Ht].
Qed.

(** Two accepts wait, one handshake ends and is handed over, and the stop
    tells the other. *)
Definition an_accept_told : Listener :=
  {| finished := []; stopping := true; told := true; accepts := [Answered (ASession 4); Looking]; accepting := Listening;
     under_way := 0; handed := [Session 4]; taken := [Session 4] |}.

Lemma an_accept_told_run : rtc listener_step listening an_accept_told.
Proof.
  eapply rtc_l; [apply step_accept|]. eapply rtc_l; [apply step_accept|].
  eapply rtc_l; [apply (step_checked _ 0); [done|apply unlocked_count; reflexivity|done]|].
  eapply rtc_l; [apply (step_waits _ 0); done|].
  eapply rtc_l; [apply (step_checked _ 1); [done|apply unlocked_count; reflexivity|done]|].
  eapply rtc_l; [apply (step_waits _ 1); done|].
  eapply rtc_l; [apply step_connected; done|]. eapply rtc_l; [apply step_begun; done|].
  eapply rtc_l; [eapply (step_handed _ 0 (Session 4)); [done|apply unlocked_count; reflexivity|right; exists 0%nat; split; reflexivity]|].
  eapply rtc_l; [apply (step_checked _ 0); [done|apply unlocked_count; reflexivity|done]|].
  eapply rtc_l; [eapply (step_taken _ 0); reflexivity|].
  eapply rtc_l; [apply step_stop|].
  eapply rtc_l; [apply step_told; [done|apply unlocked_count; reflexivity]|]. apply rtc_refl.
Qed.

Lemma accept_hears_witness : told an_accept_told = true ∧ Asleep ∉ accepts an_accept_told ∧
  handed an_accept_told = taken an_accept_told ++ finished an_accept_told.
Proof.
  destruct (accept_hears an_accept_told an_accept_told_run) as (Hh & _ & _ & Ht).
  split; [reflexivity|]. split; [exact (proj1 (Ht eq_refl))|exact Hh].
Defined.
