(* ===== verification/Signed.v ===== *)
(** * A slice signed by its cluster's authority: [src/signed.rs]

    A node's slice signed as its cluster's file is sliced ([sign],
    [delivered]), and checked as the node starts ([verified], [accepted]):
    its file's own where it verifies, which is kept, else the one it accepted
    last. Files are a map from paths to texts, each write of one may fail.
    Signatures, digests, certificates, how a slice carries its signature and
    what node and data directory a text names are other crates', a class of
    them with what is relied on. *)

From Stdlib Require Import Ascii String.
From stdpp Require Import base numbers list gmap strings.
From S2P Require Import Prelude.

Local Open Scope string_scope.
Local Open Scope list_scope.

Definition AUTHORITY : string := "authority".
Definition ACCEPTED : string := "accepted.xmip".

(** [configure::signed::Signature]. *)
Record Signature := { cluster : string; by_ : string; value : string }.

(** The crates': digests, keys and certificates; a slice's signature table
    ([split], [joined], [message]), what a text names ([named]), and paths. *)
Class Crates := {
  Key : Type; Certificate : Type;
  digest : string → string;
  der : string → result string string;
  key_sign : Key → string → result string string;
  parsed : string → result Certificate string;
  verifies : Certificate → string → string → result bool string;
  encode : string → string; decode : string → option string;
  split : string → result (string * option Signature) string;
  joined : string → Signature → string;
  message : string → string → string;
  named : string → option string * option string;
  data_directory : option string → string → string;
  parent : string → option string; join : string → string → string; CERTIFICATE : string
}.

Abbreviation Files := (gmap string string).

Section signed.
Context `{Crates}.

Record Issuer := { certificate : string; key : Key }.

(** [sign]. *)
Definition sign (authority : Issuer) (of_cluster slice : string) : result string string :=
  let? s := split slice in
  let? v := key_sign (key authority) (message s.1 (digest of_cluster)) in
  let? d := der (certificate authority) in
  Ok (joined s.1 {| cluster := digest of_cluster; by_ := digest d; value := encode v |}).

(** [signed_by_kept], [signed_beside]: by the authority kept in a place, made
    there where none is. *)
Definition signed_by_kept (kept : string → string → result Issuer string) (place name of_cluster slice : string) : result string string :=
  let? authority := kept place name in sign authority of_cluster slice.

Definition signed_beside (kept : string → string → result Issuer string) (configuration name of_cluster slice : string) :
    result string string :=
  signed_by_kept kept (join (default "." (parent configuration)) AUTHORITY) name of_cluster slice.

(** [verified]. *)
Definition verified (file anchor : string) : result (string * Signature) string :=
  let? s := split file in
  match s.2 with
  | None => Err "it is not signed"
  | Some signature =>
      let? d := der anchor in
      if negb (String.eqb (by_ signature) (digest d)) then Err "it is signed by an authority other than this node's"
      else
        match decode (value signature) with
        | None => Err "its signature is not base64"
        | Some v =>
            let? c := parsed anchor in
            let? ok := verifies c (message s.1 (cluster signature)) v in
            if ok then Ok (s.1, signature)
            else Err "its signature does not verify: it was changed after it was signed"
        end
  end.

(** ** Files *)

Definition authority_place (path : string) : string := join (default "." (parent path)) AUTHORITY.
Definition anchor_place (path : string) : string := join (authority_place path) CERTIFICATE.

(** [anchor]. *)
Definition anchor (path : string) (files : Files) : result string string :=
  match files !! anchor_place path with
  | Some text => Ok text
  | None => Err ("no cluster authority's certificate at " +:+ anchor_place path +:+
      "; a node runs only a slice its cluster's authority signed")
  end.

(** [delivered]: the authority's certificate written, then the slice; the
    folder made and each write done by the platform, which may refuse. *)
Definition written (files : Files) (at_ text : string) (done_ : result unit string) : result Files (Files * string) :=
  match done_ with Ok _ => Ok (<[at_ := text]> files) | Err e => Err (files, at_ +:+ ": " +:+ e) end.

Definition delivered (path : string) (authority : Issuer) (of_cluster slice : string) (made wrote_anchor wrote : result unit string)
    (files : Files) : Files * result unit string :=
  match sign authority of_cluster slice with
  | Err why => (files, Err why)
  | Ok signed =>
      match made with
      | Err e => (files, Err (authority_place path +:+ ": " +:+ e))
      | Ok _ =>
          match written files (anchor_place path) (certificate authority) wrote_anchor with
          | Err (files, why) => (files, Err why)
          | Ok files =>
              match written files path signed wrote with
              | Err (files, why) => (files, Err why)
              | Ok files => (files, Ok tt)
              end
          end
      end
  end.

(** [named], and where the accepted slice of the node a text names is. *)
Definition kept_at (path file : string) : string :=
  let '(node, data) := named file in
  join (data_directory data path) (default "node" node +:+ "." +:+ ACCEPTED).

(** [accepted]: what it runs, and why its file was refused where it was;
    keeping it may be refused by the platform. *)
Definition refused (path why : string) : string := path +:+ " is refused: " +:+ why.

Definition accepted (path file : string) (kept_ : result unit string) (files : Files) :
    Files * result (string * option string) string :=
  match anchor path files with
  | Err why => (files, Err why)
  | Ok anchor =>
      let at_ := kept_at path file in
      match verified file anchor with
      | Ok (text, _) =>
          if bool_decide (files !! at_ = Some file) then (files, Ok (text, None))
          else
            match kept_ with
            | Ok _ => (<[at_ := file]> files, Ok (text, None))
            | Err e => (files, Err ("cannot keep the accepted slice at " +:+ at_ +:+ ": " +:+ e))
            end
      | Err why =>
          match files !! at_ with
          | Some kept =>
              match verified kept anchor with
              | Ok (text, _) =>
                  (files, Ok (text, Some (refused path why +:+ "; the node runs its accepted slice, " +:+ at_)))
              | Err _ => (files, Err (refused path why +:+ ", and the node has no accepted slice to run"))
              end
          | None => (files, Err (refused path why +:+ ", and the node has no accepted slice to run"))
          end
      end
  end.
End signed.

(** ** What is relied on of the crates *)

(** A slice's signature is read back as it was joined, and what is left of
    one is its text; base64 is read back; a value the authority's key made of
    a message verifies by its certificate; and nothing else does. *)
Class CratesLaws `{Crates} := {
  split_joined : ∀ slice text s signature, split slice = Ok (text, s) → split (joined text signature) = Ok (text, Some signature);
  decode_encode : ∀ v, decode (encode v) = Some v
}.

(** An authority whose certificate is its key's. *)
Record its_own `{Crates} (a : Issuer) (c : Certificate) : Prop := {
  reads : parsed (certificate a) = Ok c;
  made_verifies : ∀ m v, key_sign (key a) m = Ok v → verifies c m v = Ok true
}.

(** Only what its key was asked to sign verifies. *)
Definition unforged `{Crates} (a : Issuer) (c : Certificate) (asked : string → Prop) : Prop :=
  ∀ m v, verifies c m v = Ok true → asked m.

Section verified.
Context `{Hc : Crates, !CratesLaws (H := Hc)}.

(** What an authority signs verifies by its certificate, as the text it
    signed. *)
Lemma signed_verifies a c of_cluster slice file : its_own a c → sign a of_cluster slice = Ok file →
  ∃ text s signature, split slice = Ok (text, s) ∧ verified file (certificate a) = Ok (text, signature).
Proof.
  intros [Hr Hm] Hs. unfold sign in Hs. destruct (split slice) as [[text s]|] eqn:Hsp; [|done]. simpl in Hs.
  destruct (key_sign (key a) _) as [v|] eqn:Hk; [|done]. simpl in Hs. destruct (der (certificate a)) as [d|] eqn:Hd; [|done].
  simpl in Hs. injection Hs as <-. eexists text, s, _. split; [done|]. unfold verified.
  rewrite (split_joined _ _ _ _ Hsp). simpl. rewrite Hd. simpl. rewrite String.eqb_refl. simpl.
  rewrite decode_encode, Hr. simpl. rewrite (Hm _ _ Hk). simpl. done.
Qed.

(** What verifies by an anchor was signed under it. *)
Lemma verified_signed file anchor_ text signature : verified file anchor_ = Ok (text, signature) →
  ∃ c v, parsed anchor_ = Ok c ∧ verifies c (message text (cluster signature)) v = Ok true ∧ split file = Ok (text, Some signature).
Proof.
  unfold verified. intros Hv. destruct (split file) as [[t s]|] eqn:Hs; [|done]. simpl in Hv. destruct s as [sg|]; [|done].
  destruct (der anchor_) as [d|]; [|done]. simpl in Hv. destruct (negb _); [done|]. destruct (decode _) as [v|]; [|done].
  destruct (parsed anchor_) as [c|] eqn:Hp; [|done]. simpl in Hv. destruct (verifies _ _ _) as [[]|] eqn:Hve; try done.
  injection Hv as <- <-. eauto.
Qed.

(** ** Starts over files *)

(** What a node is given over its starts: another file at its configuration,
    by whatever hand, or a start that reads it, whose keeping the platform
    does or not. *)
Inductive Life := Given (file : string) | Starts (kept_ : result unit string).

Definition lived (path : string) (l : Life) (files : Files) : Files * option (result (string * option string) string) :=
  match l with
  | Given file => (<[path := file]> files, None)
  | Starts kept_ =>
      match files !! path with
      | None => (files, None)
      | Some file => let '(files, r) := accepted path file kept_ files in (files, Some r)
      end
  end.

Fixpoint lives (path : string) (l : list Life) (files : Files) : Files :=
  match l with [] => files | x :: l => lives path l (lived path x files).1 end.

(** C35. Whatever files a node is given, by whatever hand, and however often
    it starts, what it runs is a text the authority whose certificate is
    beside it signed; and where its file is one the authority delivered, it
    runs that text, and keeps it for when its file is refused. *)
Theorem runs_only_signed path a c asked l files : 
  its_own a c → unforged a c asked → files !! anchor_place path = Some (certificate a) → anchor_place path ≠ path →
  (∀ file, kept_at path file ≠ path ∧ kept_at path file ≠ anchor_place path) →
  let now := lives path l files in
  (∀ file kept_ text why, (accepted path file kept_ now).2 = Ok (text, why) →
     ∃ signature, asked (message text (cluster signature))) ∧
  (∀ file text signature, verified file (certificate a) = Ok (text, signature) →
     (accepted path file (Ok tt) now).2 = Ok (text, None) ∧
     let kept_now := (accepted path file (Ok tt) now).1 in
     kept_now !! kept_at path file = Some file ∧
     ∀ changed kept_ why, kept_at path changed = kept_at path file → verified changed (certificate a) = Err why →
       ∃ said, (accepted path changed kept_ kept_now).2 = Ok (text, Some said)).
Proof.
  intros [Hr Hm] Hun Hanchor Hne Hat now.
  assert (now !! anchor_place path = Some (certificate a)) as Ha.
  { subst now. revert files Hanchor. induction l as [|x l IH]; intros files Hf; [done|]. cbn [lives]. apply IH.
    destruct x as [file|kept_]; cbn [lived]; [by cbn [fst]; rewrite lookup_insert_ne|].
    destruct (files !! path) as [file|]; [|done]. unfold accepted. destruct (anchor path files) as [an|]; [|done].
    destruct (verified file an) as [[]|].
    - destruct (bool_decide _); [done|]. destruct kept_; [|done]. cbn [fst]. rewrite lookup_insert_ne; [done|]. apply Hat.
    - destruct (files !! kept_at path file) as [k|]; [|done]. by destruct (verified k an) as [[]|]. }
  assert (∀ f, f !! anchor_place path = Some (certificate a) → anchor path f = Ok (certificate a)) as Hanc
    by (intros f Hf; unfold anchor; by rewrite Hf).
  assert (∀ file text signature, verified file (certificate a) = Ok (text, signature) → asked (message text (cluster signature))) as Hasked.
  { intros file text sg Hv. apply verified_signed in Hv as (c' & v & Hp & Hve & _). rewrite Hr in Hp. injection Hp as <-. by eapply Hun. }
  split.
  - intros file kept_ text why. unfold accepted. rewrite Hanc by done. destruct (verified file (certificate a)) as [[t sg]|w] eqn:Hv.
    + destruct (bool_decide _); simpl; [|destruct kept_; simpl; [|done]]; intros [= <- _]; exists sg; by eapply Hasked.
    + destruct (now !! kept_at path file) as [k|]; [|done]. destruct (verified k (certificate a)) as [[t sg]|] eqn:Hk; [|done].
      simpl. intros [= <- _]. exists sg. by eapply Hasked.
  - intros file text sg Hv.
    assert ((accepted path file (Ok tt) now).2 = Ok (text, None) ∧ (accepted path file (Ok tt) now).1 !! kept_at path file = Some file ∧
      (accepted path file (Ok tt) now).1 !! anchor_place path = Some (certificate a)) as (H1 & H2 & H3).
    { unfold accepted. rewrite Hanc, Hv by done. case_bool_decide as Hk; [done|]. cbn [fst snd]. rewrite lookup_insert_eq.
      split_and!; [done|done|]. rewrite lookup_insert_ne; [done|]. apply Hat. }
    split; [done|]. split; [done|]. intros changed kept_ why Hkat Hw. set (kn := (accepted path file (Ok tt) now).1) in *.
    unfold accepted. rewrite (Hanc kn) by done. rewrite Hw, Hkat, H2, Hv. simpl. eauto.
Qed.
End verified.

(** ** A slice carried with its signature, and an authority of two slices *)

Fixpoint marked (n : nat) (s : string) : string := match n with O => String "." s | S n => String "i" (marked n s) end.

Fixpoint taken (n : nat) (s : string) : string * string :=
  match n, s with
  | S n, String a s => let '(t, r) := taken n s in (String a t, r)
  | _, _ => ("", s)
  end.

Definition put (s rest : string) : string := marked (String.length s) (s +:+ rest).

Fixpoint got (n : nat) (s : string) : option (string * string) :=
  match s with
  | EmptyString => None
  | String a s => if Ascii.eqb a "i" then got (S n) s else Some (taken n s)
  end.

Lemma got_put n s rest : got n (marked (String.length s) (s +:+ rest)) = Some (taken (n + String.length s) (s +:+ rest)).
Proof.
  generalize (s +:+ rest) as t. generalize (String.length s) as k. intros k. revert n.
  induction k as [|k IH]; intros n t; cbn [marked got]; [by rewrite Nat.add_0_r|].
  change (Ascii.eqb "i" "i") with true. cbn iota. rewrite IH. f_equal. f_equal. lia.
Qed.

Lemma taken_all s rest : taken (String.length s) (s +:+ rest) = (s, rest).
Proof. induction s as [|a s IH]; [by destruct rest|].
  change (String a s +:+ rest) with (String a (s +:+ rest)). cbn [taken String.length]. by rewrite IH. Qed.

Definition toy_split (s : string) : result (string * option Signature) string :=
  match s with
  | String "!" s =>
      match got 0 s with
      | Some (text, s) =>
          match got 0 s with
          | Some (cl, s) => match got 0 s with Some (b, v) => Ok (text, Some {| cluster := cl; by_ := b; value := v |}) | None => Err "" end
          | None => Err ""
          end
      | None => Err ""
      end
  | _ => Ok (s, None)
  end.

Definition toy_message (text cl : string) : string := cl +:+ ":" +:+ text.

Definition asked_two (m : string) : bool := String.eqb m (toy_message "a slice" "c") || String.eqb m (toy_message "b slice" "c").

#[export] Instance toy_crates : Crates :=
  {| Key := unit; Certificate := unit; digest s := s; der := Ok; key_sign _ m := if asked_two m then Ok ("ok " +:+ m) else Err "";
     parsed _ := Ok tt; verifies _ m v := Ok (asked_two m && String.eqb v ("ok " +:+ m)); encode s := s; decode := Some;
     split := toy_split; message := toy_message;
     joined text sg := String "!" (put text (put (cluster sg) (put (by_ sg) (value sg))));
     named f := match toy_split f with Ok (String a _, _) => (Some (String a ""), None) | _ => (None, None) end;
     data_directory _ _ := "data"; parent _ := Some "etc"; join a b := a +:+ "/" +:+ b; CERTIFICATE := "authority.pem" |}.

#[export] Instance toy_crates_laws : CratesLaws.
Proof.
  split; [|done]. intros slice text s [cl b v] _. cbn. unfold toy_split, put. rewrite !got_put, !Nat.add_0_l.
  rewrite taken_all. cbn iota. rewrite got_put, Nat.add_0_l, taken_all. cbn iota. by rewrite got_put, Nat.add_0_l, taken_all.
Qed.

Definition the_authority : Issuer := {| certificate := "pem"; key := tt |}.

Lemma its_own_two : its_own the_authority tt.
Proof. split; [done|]. intros m v. cbn. destruct (asked_two m); [|done]. intros [= <-]. by rewrite String.eqb_refl. Qed.

Definition signed_as (slice : string) : string := match sign the_authority "c" slice with Ok s => s | Err _ => "" end.

(** A node given its slice, then a changed one. *)
Lemma runs_only_signed_witness :
  let files := {[ anchor_place "etc/b" := "pem" ]} in
  (accepted "etc/b" (signed_as "b slice") (Ok tt) (lives "etc/b" [Given "b other"; Starts (Ok tt)] files)).2 = Ok ("b slice", None) ∧
  ∃ said, (accepted "etc/b" "b other" (Ok tt)
     (accepted "etc/b" (signed_as "b slice") (Ok tt) (lives "etc/b" [Given "b other"; Starts (Ok tt)] files)).1).2 = Ok ("b slice", Some said).
Proof.
  simpl.
  assert (unforged the_authority tt (λ m, asked_two m = true)) as Hu.
  { intros m v. cbn. destruct (asked_two m); [done|]. simpl. congruence. }
  assert (∀ file, kept_at "etc/b" file ≠ "etc/b" ∧ kept_at "etc/b" file ≠ anchor_place "etc/b") as Hat.
  { intros file. unfold kept_at. destruct (named file). by split. }
  destruct (runs_only_signed "etc/b" the_authority tt (λ m, asked_two m = true) [Given "b other"; Starts (Ok tt)]
    {[ anchor_place "etc/b" := "pem" ]} its_own_two Hu (lookup_singleton_eq _ _) ltac:(done) Hat) as [_ H].
  edestruct (H (signed_as "b slice") "b slice") as (Hr & _ & Hc); [vm_compute; reflexivity|].
  split; [exact Hr|]. eapply (Hc "b other"); [reflexivity|vm_compute; reflexivity].
Defined.

(** Where its slice was kept is read of the file just refused: a node whose
    file, changed, names another node or data directory does not find the
    slice it accepted, and runs another node's where that is kept there. *)
Lemma anothers_slice_run :
  let files := {[ anchor_place "etc/b" := "pem"; "data/b.accepted.xmip" := signed_as "b slice"; "data/a.accepted.xmip" := signed_as "a slice" ]} in
  ∃ said, (accepted "etc/b" "a changed" (Ok tt) files).2 = Ok ("a slice", Some said).
Proof. eexists. vm_compute. reflexivity. Qed.
