(* ===== verification/Registration.v ===== *)
(** * A node's service registered and controlled: [src/registration.rs], [src/registration/windows_scm.rs], [src/service_control.rs]

    What the operating system's service manager is told about a service: the
    definition ([for_node], [for_host]), a systemd unit, the launchd lists,
    the Windows arguments and settings; and a node's service asked to start
    or stop ([asking], [control]). Running the manager's program is the
    platform's: it answers or does not run. *)

From Stdlib Require Import Ascii String.
From stdpp Require Import base numbers list strings pretty.
From S2P Require Import Prelude Text.

Local Open Scope string_scope.
Local Open Scope list_scope.

Definition dq : string := String "034"%char EmptyString.
Definition newline : string := String "010"%char EmptyString.
Definition tab : string := String "009"%char EmptyString.

(** A text of lines, each ended. *)
Definition lines (l : list string) : string := String.concat "" ((λ s, s +:+ newline) <$> l).

Record ServiceDefinition := {
  name : string; display_name : string; description : string; executable : string; arguments : list string;
  service_identity : option string; working_directory : string; environment : list (string * string)
}.

(** [node_service_name]. *)
Definition node_service_name (node : string) : string := "xmip-" +:+ node.

Definition for_node (node executable_ configuration working : string) : ServiceDefinition :=
  {| name := node_service_name node; display_name := "Xmip Service (" +:+ node +:+ ")";
     description := "Starts node " +:+ node +:+ " from its configuration, runs its in-process Host Service, and drains it when the service manager stops it.";
     executable := executable_; arguments := ["--configuration"; configuration]; service_identity := None;
     working_directory := working; environment := [] |}.

Definition for_host (node host_type : string) (hosts : list string) (executable_ working : string) : ServiceDefinition :=
  {| name := "xmip-" +:+ node +:+ "-" +:+ host_type; display_name := "Xmip Host Service (" +:+ node +:+ "/" +:+ host_type +:+ ")";
     description := "Hosts " +:+ (match hosts with [] => "nothing yet" | _ => String.concat ", " hosts end) +:+ " for node " +:+ node +:+ ".";
     executable := executable_; arguments := ["host"; "--node=" +:+ node; "--host=" +:+ host_type]; service_identity := None;
     working_directory := working; environment := [] |}.

Definition running_as (identity : string) (d : ServiceDefinition) : ServiceDefinition :=
  {| name := name d; display_name := display_name d; description := description d; executable := executable d;
     arguments := arguments d; service_identity := Some identity; working_directory := working_directory d; environment := environment d |}.

Definition with_variable (n v : string) (d : ServiceDefinition) : ServiceDefinition :=
  {| name := name d; display_name := display_name d; description := description d; executable := executable d;
     arguments := arguments d; service_identity := service_identity d; working_directory := working_directory d;
     environment := environment d ++ [(n, v)] |}.

(** [quoted]: where it has a space. *)
Fixpoint has (c : ascii) (s : string) : bool :=
  match s with EmptyString => false | String a s => Ascii.eqb a c || has c s end.

Definition quoted (text : string) : string := if has " " text then dq +:+ text +:+ dq else text.

(** [systemd_unit]; the folder as [trim_start_matches] and [trim_end_matches]
    leave it is given. *)
Definition REFUSED : N := 2.

Definition given_line (before : string) (o : option string) : string :=
  match o with Some v => before +:+ v +:+ newline | None => "" end.

Definition systemd_unit (runtime : string) (d : ServiceDefinition) : string :=
  lines ["[Unit]"; "Description=" +:+ description d; "After=network-online.target"; "Wants=network-online.target"; "";
         "[Service]"; "Type=notify";
         "ExecStart=" +:+ quoted (executable d) +:+ " " +:+ String.concat " " (quoted <$> arguments d);
         "WorkingDirectory=" +:+ working_directory d] +:+
  given_line "User=" (service_identity d) +:+
  lines ((λ v, "Environment=" +:+ dq +:+ v.1 +:+ "=" +:+ v.2 +:+ dq) <$> environment d) +:+
  lines ["RuntimeDirectory=" +:+ runtime; "RuntimeDirectoryMode=0755"; "RuntimeDirectoryPreserve=yes"; "Restart=on-failure";
         "RestartPreventExitStatus=" +:+ pretty REFUSED; "RestartSec=5"; ""; "[Install]"; "WantedBy=multi-user.target"].

(** [launchd_run_directory] and [launchd_plist]. *)
Definition xml_head : list string :=
  ["<?xml version=" +:+ dq +:+ "1.0" +:+ dq +:+ " encoding=" +:+ dq +:+ "UTF-8" +:+ dq +:+ "?>";
   "<plist version=" +:+ dq +:+ "1.0" +:+ dq +:+ ">"; "<dict>"].

Definition xml_string (depth text : string) : string := depth +:+ "<string>" +:+ text +:+ "</string>".
Definition xml_key (depth text : string) : string := depth +:+ "<key>" +:+ text +:+ "</key>".
Definition tabs : string := tab +:+ tab.

Definition launchd_run_directory (folder : string) (d : ServiceDefinition) : string :=
  lines (xml_head ++
    [xml_key tab "Label"; xml_string tab (name d +:+ ".run"); xml_key tab "ProgramArguments"; tab +:+ "<array>";
     xml_string tabs "/bin/sh"; xml_string tabs "-c";
     xml_string tabs ("mkdir -p -m 0755 " +:+ folder +:+
       match service_identity d with Some user => " &amp;&amp; chown " +:+ user +:+ " " +:+ folder | None => "" end);
     tab +:+ "</array>"; xml_key tab "RunAtLoad"; tab +:+ "<true/>"; "</dict>"; "</plist>"]).

Definition launchd_plist (d : ServiceDefinition) : string :=
  lines (xml_head ++ [xml_key tab "Label"; xml_string tab (name d); xml_key tab "ProgramArguments"; tab +:+ "<array>"]) +:+
  lines (xml_string tabs <$> (executable d :: arguments d)) +:+
  lines [tab +:+ "</array>"; xml_key tab "WorkingDirectory"; xml_string tab (working_directory d)] +:+
  match service_identity d with Some user => lines [xml_key tab "UserName"; xml_string tab user] | None => "" end +:+
  match environment d with
  | [] => ""
  | vars => lines [xml_key tab "EnvironmentVariables"; tab +:+ "<dict>"] +:+
      lines (vars ≫= λ v, [xml_key tabs v.1; xml_string tabs v.2]) +:+ lines [tab +:+ "</dict>"]
  end +:+
  lines [xml_key tab "RunAtLoad"; tab +:+ "<true/>"; xml_key tab "KeepAlive"; tab +:+ "<dict>";
         xml_key tabs "SuccessfulExit"; tabs +:+ "<false/>"; tab +:+ "</dict>"; "</dict>"; "</plist>"].

(** [windows_service_arguments] and [windows_service_settings]. *)
Definition windows_service_arguments (d : ServiceDefinition) : list string :=
  ["create"; name d;
   "binPath= " +:+ quoted (executable d) +:+ String.concat "" ((λ a, " " +:+ quoted a) <$> arguments d);
   "DisplayName= " +:+ display_name d; "start= auto"] ++
  match service_identity d with Some user => ["obj= " +:+ user] | None => [] end.

Definition windows_service_settings (d : ServiceDefinition) : list (string * list string) :=
  ("sc.exe", ["description"; name d; description d]) ::
  match environment d with
  | [] => []
  | vars => [("reg.exe", ["add"; "HKLM\SYSTEM\CurrentControlSet\Services\" +:+ name d; "/v"; "Environment"; "/t"; "REG_MULTI_SZ"; "/d";
                String.concat "\0" ((λ v, v.1 +:+ "=" +:+ v.2) <$> vars); "/f"])]
  end.

(** ** Start and stop: [src/service_control.rs] *)

Inductive ServiceManager := WindowsScm | Systemd | Launchd | NoManager.

#[export] Instance manager_eq_dec : EqDecision ServiceManager.
Proof. solve_decision. Defined.

Definition registers (m : ServiceManager) : bool := negb (bool_decide (m = NoManager)).

Inductive Act := Start | Stop.
Definition word (a : Act) : string := match a with Start => "start" | Stop => "stop" end.
Definition settled (a : Act) : string := match a with Start => "running" | Stop => "stopped" end.

Definition asking (m : ServiceManager) (a : Act) (node : string) : option (string * list string) :=
  let n := node_service_name node in
  match m with
  | WindowsScm => Some ("sc.exe", [word a; n])
  | Systemd => Some ("systemctl", [word a; "--no-block"; n +:+ ".service"])
  | Launchd => Some ("launchctl", match a with Start => ["kickstart"; "system/" +:+ n] | Stop => ["kill"; "SIGTERM"; "system/" +:+ n] end)
  | NoManager => None
  end.

Definition already (a : Act) (code : option Z) : bool :=
  match a, code with Start, Some c => (c =? 1056)%Z | Stop, Some c => (c =? 1062)%Z | _, None => false end.

(** What running the program came to: its exit code, none where a signal
    ended it, and what it said. *)
Record Ran := { code : option Z; stderr : string; stdout : string }.

Definition succeeded (r : Ran) : bool := bool_decide (code r = Some 0%Z).

Definition control (m : ServiceManager) (run : string → list string → result Ran string) (a : Act) (node : string) :
    result string string :=
  let n := node_service_name node in
  match asking m a node with
  | None => Err ("cannot " +:+ word a +:+ " " +:+ n +:+ ": this platform has no service manager")
  | Some (program, args) =>
      match run program args with
      | Err e => Err ("cannot " +:+ word a +:+ " " +:+ n +:+ ": " +:+ program +:+ " did not run: " +:+ e)
      | Ok r =>
          if succeeded r then Ok ("asked " +:+ program +:+ " to " +:+ word a +:+ " " +:+ n)
          else if bool_decide (m = WindowsScm) && already a (code r) then Ok (n +:+ " was already " +:+ settled a)
          else
            Err (program +:+ " refused to " +:+ word a +:+ " " +:+ n +:+ " (exit " +:+
                 match code r with Some c => pretty c | None => "none" end +:+ "): " +:+
                 String.concat " " (List.filter (λ t, negb (String.eqb t "")) [trim (stderr r); trim (stdout r)]))
      end
  end.

(** ** What is asked of whom *)

(** A node's service is asked of by the name it is registered by, and is
    answered done just where its manager did it or, on Windows, said it
    needed no doing. *)
Lemma control_asks m run a node exe conf dir s : control m run a node = Ok s →
  ∃ program args r, asking m a node = Some (program, args) ∧ run program args = Ok r ∧
    (code r = Some 0%Z ∨ m = WindowsScm ∧ already a (code r) = true) ∧
    ∃ pre post, last args = Some (pre +:+ name (for_node node exe conf dir) +:+ post).
Proof.
  unfold control. destruct (asking m a node) as [[program args]|] eqn:Ha; [|done].
  destruct (run program args) as [r|] eqn:Hr; [|done]. intros Hs.
  exists program, args, r. split_and!; [done|done| |].
  - unfold succeeded in Hs. destruct (bool_decide (code r = Some 0%Z)) eqn:Hc; [left; by apply bool_decide_eq_true in Hc|].
    destruct (bool_decide (m = WindowsScm)) eqn:Hm; [|done]. destruct (already a (code r)) eqn:Hal; [|done].
    right. by apply bool_decide_eq_true in Hm.
  - assert (∀ x : string, x +:+ "" = x) as Hx by (intros x; induction x as [|c x IH]; [done|]; change (String c x +:+ "") with (String c (x +:+ "")); by rewrite IH).
    unfold asking in Ha. destruct m, a; simplify_eq;
      [exists "", ""|exists "", ""|exists "", ".service"|exists "", ".service"|exists "system/", ""|exists "system/", ""];
      cbn [last]; rewrite ?Hx; done.
Qed.

(** A path with an ampersand is written into a launchd list as it is, which
    no reader of XML takes. *)
Lemma plist_unescaped dir : ∃ before after,
  launchd_plist (for_node "n" "/opt/R&D/xmip" "/etc/n.xmip" dir) = before +:+ "<string>/opt/R&D/xmip</string>" +:+ after.
Proof.
  eexists (lines (xml_head ++ [xml_key tab "Label"; xml_string tab (name (for_node "n" "/opt/R&D/xmip" "/etc/n.xmip" dir));
    xml_key tab "ProgramArguments"; tab +:+ "<array>"]) +:+ tabs), _.
  unfold launchd_plist. rewrite string_app_assoc. f_equal.
Qed.
