(* ===== verification/Ending.v ===== *)
(** * A node's serving and its end: [src/running/serving.rs], [src/running.rs]

    The serving thread of a node ([serve]): the dispatching of its sends and
    of its Work Processes in one scope, every Receive Location and the pickup
    of held Messages in another within it, both steps closed once the inner
    scope is over; and the end of it all ([Running::halt]). Each thread is a
    step of its own, ending as the parts modelled elsewhere say it does: a
    Location's at the stop or for a reason of its own, the dispatching once
    its step is closed. A scope is over once every thread it started is, and
    passes on a panic of one. *)

From Stdlib Require Import Ascii String.
From stdpp Require Import base numbers list strings relations.
From S2P Require Import Prelude.

Local Open Scope string_scope.
Local Open Scope list_scope.

(** A thread: at work, over, or ended by a panic. *)
Inductive Thread := Runs | Over | Panicked.

Definition running (t : Thread) : bool := match t with Runs => true | _ => false end.
Definition panicked (t : Thread) : bool := match t with Panicked => true | _ => false end.

(** How far the end is: not begun, the stop raised and the serving thread
    waited for, that ended, and then each thing let go in its order. *)
Inductive Halt := Serving | Raised | Joined | HostsStopped | StorageStopped | LibrariesGone.

Definition halted (h : Halt) : nat :=
  match h with Serving => 0 | Raised => 1 | Joined => 2 | HostsStopped => 3 | StorageStopped => 4 | LibrariesGone => 5 end.

(** The inner scope: its threads at work, over, or over by a panic that
    unwinds. *)
Inductive Inner := Within | Passed | Unwinding.

Record Node := {
  locations : list (string * Thread);
  pickup : Thread;
  inner : Inner;
  send_closed : bool;
  work_closed : bool;
  sending : Thread;
  working : Thread;
  serving : Thread;
  halt : Halt;
  failures : list (string * string)
}.

Definition started (names : list string) : Node :=
  {| locations := (λ n, (n, Runs)) <$> names; pickup := Runs; inner := Within; send_closed := false; work_closed := false;
     sending := Runs; working := Runs; serving := Runs; halt := Serving; failures := [] |}.

Definition with_locations (ls : list (string * Thread)) (fs : list (string * string)) (n : Node) : Node :=
  {| locations := ls; pickup := pickup n; inner := inner n; send_closed := send_closed n; work_closed := work_closed n;
     sending := sending n; working := working n; serving := serving n; halt := halt n; failures := failures n ++ fs |}.
Definition with_pickup (t : Thread) (n : Node) : Node :=
  {| locations := locations n; pickup := t; inner := inner n; send_closed := send_closed n; work_closed := work_closed n;
     sending := sending n; working := working n; serving := serving n; halt := halt n; failures := failures n |}.
Definition with_inner (i : Inner) (n : Node) : Node :=
  {| locations := locations n; pickup := pickup n; inner := i; send_closed := send_closed n; work_closed := work_closed n;
     sending := sending n; working := working n; serving := serving n; halt := halt n; failures := failures n |}.
Definition with_closed (s w : bool) (n : Node) : Node :=
  {| locations := locations n; pickup := pickup n; inner := inner n; send_closed := s; work_closed := w;
     sending := sending n; working := working n; serving := serving n; halt := halt n; failures := failures n |}.
Definition with_dispatch (s w : Thread) (n : Node) : Node :=
  {| locations := locations n; pickup := pickup n; inner := inner n; send_closed := send_closed n; work_closed := work_closed n;
     sending := s; working := w; serving := serving n; halt := halt n; failures := failures n |}.
Definition with_serving (t : Thread) (n : Node) : Node :=
  {| locations := locations n; pickup := pickup n; inner := inner n; send_closed := send_closed n; work_closed := work_closed n;
     sending := sending n; working := working n; serving := t; halt := halt n; failures := failures n |}.
Definition with_halt (h : Halt) (fs : list (string * string)) (n : Node) : Node :=
  {| locations := locations n; pickup := pickup n; inner := inner n; send_closed := send_closed n; work_closed := work_closed n;
     sending := sending n; working := working n; serving := serving n; halt := h; failures := failures n ++ fs |}.

(** Every thread the inner scope started is over; and one was ended by a
    panic. *)
Definition inner_over (n : Node) : bool := forallb (λ l, negb (running (snd l))) (locations n) && negb (running (pickup n)).
Definition inner_panicked (n : Node) : bool := existsb (λ l, panicked (snd l)) (locations n) || panicked (pickup n).

Definition raised (n : Node) : bool := (1 <=? halted (halt n))%nat.

(** The outer scope's own thread is through, and those it started are. *)
Definition outer_through (n : Node) : bool := work_closed n || match inner n with Unwinding => true | _ => false end.

Section steps.
(** Whether any thread may panic. *)
Context (panics : bool) (name : string).

Inductive node_step : Node → Node → Prop :=
  (* the inner scope's threads *)
  | step_location_over n i at_ : locations n !! i = Some (at_, Runs) → raised n = true →
      node_step n (with_locations (<[i := (at_, Over)]> (locations n)) [] n)
  | step_location_failed n i at_ why : locations n !! i = Some (at_, Runs) →
      node_step n (with_locations (<[i := (at_, Over)]> (locations n)) [(at_, why)] n)
  | step_location_panics n i at_ : panics = true → locations n !! i = Some (at_, Runs) →
      node_step n (with_locations (<[i := (at_, Panicked)]> (locations n)) [] n)
  | step_pickup_over n : pickup n = Runs → raised n = true → node_step n (with_pickup Over n)
  | step_pickup_panics n : panics = true → pickup n = Runs → node_step n (with_pickup Panicked n)
  (* the inner scope over, and the steps closed, or its panic passed on *)
  | step_inner n : inner n = Within → inner_over n = true →
      node_step n (with_inner (if inner_panicked n then Unwinding else Passed) n)
  | step_close_send n : inner n = Passed → send_closed n = false → node_step n (with_closed true (work_closed n) n)
  | step_close_work n : send_closed n = true → work_closed n = false → node_step n (with_closed true true n)
  (* the dispatching, over once its step is closed *)
  | step_sending_over n : sending n = Runs → send_closed n = true → node_step n (with_dispatch Over (working n) n)
  | step_working_over n : working n = Runs → work_closed n = true → node_step n (with_dispatch (sending n) Over n)
  | step_sending_panics n : panics = true → sending n = Runs → node_step n (with_dispatch Panicked (working n) n)
  | step_working_panics n : panics = true → working n = Runs → node_step n (with_dispatch (sending n) Panicked n)
  (* the serving thread *)
  | step_serving_over n : serving n = Runs → outer_through n = true → running (sending n) = false → running (working n) = false →
      node_step n (with_serving (if match inner n with Unwinding => true | _ => false end || panicked (sending n) || panicked (working n)
                                 then Panicked else Over) n)
  (* the end *)
  | step_raise n : halt n = Serving → node_step n (with_halt Raised [] n)
  | step_joined n : halt n = Raised → running (serving n) = false →
      node_step n (with_halt Joined (if panicked (serving n) then [(name, "the node's serving thread panicked")] else []) n)
  | step_hosts n : halt n = Joined → node_step n (with_halt HostsStopped [] n)
  | step_storage n : halt n = HostsStopped → node_step n (with_halt StorageStopped [] n)
  | step_libraries n : halt n = StorageStopped → node_step n (with_halt LibrariesGone [] n).
End steps.

(** ** In what order it ends *)

Record ordered (n : Node) : Prop := {
  inner_first : inner n ≠ Within → inner_over n = true;
  inner_unwinds : inner n = Unwinding ↔ inner n ≠ Within ∧ inner_panicked n = true;
  closed_after : send_closed n = true → inner n = Passed;
  send_before_work : work_closed n = true → send_closed n = true;
  served_last : running (serving n) = false → outer_through n = true ∧ running (sending n) = false ∧ running (working n) = false;
  joined_last : (2 ≤ halted (halt n))%nat → running (serving n) = false
}.

Lemma still_runs (ls : list (string * Thread)) (i : nat) at_ : ls !! i = Some (at_, Runs) → forallb (λ l : string * Thread, negb (running l.2)) ls = false.
Proof.
  intros Hi. apply not_true_iff_false. intros Hf. rewrite forallb_forall in Hf.
  specialize (Hf (at_, Runs)). simpl in Hf. enough (false = true) by done. apply Hf. apply list_elem_of_In. by eapply list_elem_of_lookup_2.
Qed.

Lemma not_over n i at_ : locations n !! i = Some (at_, Runs) → inner_over n = false.
Proof. intros Hi. unfold inner_over. by rewrite (still_runs _ i at_ Hi). Qed.

(** A step of the inner scope's threads leaves the rest as it was. *)
Ltac by_within tac :=
  let Hwi := fresh in
  match goal with n : Node |- _ => assert (inner n = Within) as Hwi by tac end;
  split; simpl; try assumption; rewrite ?Hwi; [congruence|split; [congruence|intros []; congruence]].

Lemma ordered_step panics name n n' : ordered n → node_step panics name n n' → ordered n'.
Proof.
  intros [Hi Hu Hc Hw Hs Hj] Hst.
  assert (∀ i at_, locations n !! i = Some (at_, Runs) → inner n = Within) as Hin.
  { intros i at_ Hl. destruct (inner n) eqn:He; [done|..]; rewrite (not_over n i at_ Hl) in Hi; by discriminate Hi. }
  assert (pickup n = Runs → inner n = Within) as Hpi.
  { intros Hp. destruct (inner n) eqn:He; [done|..]; unfold inner_over in Hi; rewrite Hp, andb_false_r in Hi; by discriminate Hi. }
  destruct Hst as [n i at_ Hl Hr|n i at_ why Hl|n i at_ Hp Hl|n Hp Hr|n Hpa Hp|n Hwi Ho|n Hpa Hcl|n Hcl Hwo|n Hse Hcl|n Hwk Hwo|n Hpa Hse|
    n Hpa Hwk|n Hsv Ho Hse Hwk|n Hh|n Hh Hsv|n Hh|n Hh|n Hh].
  1-5: by_within ltac:(eauto).
  - assert (send_closed n = false) as Hcf by (destruct (send_closed n); [by rewrite Hc in Hwi|done]).
    assert (work_closed n = false) as Hwf by (destruct (work_closed n); [by rewrite Hw in Hcf|done]).
    split; simpl; [done|unfold inner_panicked; simpl; fold (inner_panicked n); destruct (inner_panicked n); naive_solver|congruence|congruence| |done].
    intros Hr. apply Hs in Hr as [Hr _]. unfold outer_through in Hr. by rewrite Hwi, Hwf in Hr.
  - by split.
  - split; try done; [intros _; exact (Hc Hcl)|]. intros Hr. split; [done|by apply Hs].
  - split; try done. simpl. intros Hr. apply Hs in Hr as (? & ? & ?). done.
  - split; try done. simpl. intros Hr. apply Hs in Hr as (? & ? & ?). done.
  - split; try done. simpl. intros Hr. apply Hs in Hr as (? & ? & ?). done.
  - split; try done. simpl. intros Hr. apply Hs in Hr as (? & ? & ?). done.
  - split; try done. simpl. by destruct (_ || _).
  - split; try done. simpl. lia.
  - by split.
  - split; try done. intros _. apply Hj. rewrite Hh. simpl. lia.
  - split; try done. intros _. apply Hj. rewrite Hh. simpl. lia.
  - split; try done. intros _. apply Hj. rewrite Hh. simpl. lia.
Qed.

Lemma started_ordered names : ordered (started names).
Proof. split; simpl; try done; try lia. by split; [|intros []]. Qed.

Lemma reached_ordered panics name names n : rtc (node_step panics name) (started names) n → ordered n.
Proof.
  intros Hr. remember (started names) as m eqn:Hm. assert (ordered m) as Ho by (subst; apply started_ordered). clear Hm.
  induction Hr as [|m k n Hs Hr IH]; [done|]. by eapply IH, ordered_step.
Qed.

(** ** That it ends *)

Definition bit (b : bool) : nat := if b then 1 else 0.

(** What is left to be over: threads, the inner scope, both steps, and the
    end's own steps. *)
Definition left_over (n : Node) : nat :=
  count (λ l, running (snd l)) (locations n) + bit (running (pickup n)) + bit (running (sending n)) + bit (running (working n)) +
  bit (running (serving n)) + bit (match inner n with Within => true | _ => false end) + bit (negb (send_closed n)) +
  bit (negb (work_closed n)) + (5 - halted (halt n)).

Lemma count_over (ls : list (string * Thread)) i at_ t : ls !! i = Some (at_, Runs) → running t = false →
  count (λ l, running (snd l)) ls = S (count (λ l, running (snd l)) (<[i := (at_, t)]> ls)).
Proof.
  revert i. induction ls as [|x ls IH]; intros [|i] Hi Ht; [done..| |]; simpl in Hi.
  - injection Hi as ->. change (<[0%nat := (at_, t)]> ((at_, Runs) :: ls)) with ((at_, t) :: ls). rewrite !count_cons. simpl. by rewrite Ht.
  - change (<[S i := (at_, t)]> (x :: ls)) with (x :: <[i := (at_, t)]> ls). rewrite !count_cons, (IH i Hi Ht). lia.
Qed.

(** Every step but the beginning of one brings the end nearer. *)
Lemma step_nearer panics name n n' : node_step panics name n n' → (left_over n' < left_over n)%nat.
Proof.
  destruct 1 as [n i at_ Hl Hr|n i at_ why Hl|n i at_ Hp Hl|n Hp Hr|n Hpa Hp|n Hwi Ho|n Hpa Hcl|n Hcl Hwo|n Hse Hcl|n Hwk Hwo|n Hpa Hse|
    n Hpa Hwk|n Hsv Ho Hse Hwk|n Hh|n Hh Hsv|n Hh|n Hh|n Hh]; unfold left_over; simpl;
    rewrite ?Hp, ?Hwi, ?Hcl, ?Hwo, ?Hse, ?Hwk, ?Hsv, ?Hh; simpl;
    try (pose proof (count_over _ i at_ Over Hl eq_refl); pose proof (count_over _ i at_ Panicked Hl eq_refl)); try (destruct (inner_panicked n); simpl); try (destruct (_ || _); simpl);
    try destruct (send_closed n); simpl; lia.
Qed.

(** Where no thread panics, none is found panicked. *)
Definition calm (n : Node) : Prop :=
  inner_panicked n = false ∧ panicked (sending n) = false ∧ panicked (working n) = false ∧ panicked (serving n) = false ∧
  inner n ≠ Unwinding.

Lemma calm_over (ls : list (string * Thread)) i at_ : existsb (λ l, panicked (snd l)) ls = false →
  existsb (λ l, panicked (snd l)) (<[i := (at_, Over)]> ls) = false.
Proof.
  revert i. induction ls as [|x ls IH]; intros [|i] Hp; [done..| |]; simpl in Hp; apply orb_false_iff in Hp as [Hx Hp].
  - change (<[0%nat := (at_, Over)]> (x :: ls)) with ((at_, Over) :: ls). simpl. done.
  - change (<[S i := (at_, Over)]> (x :: ls)) with (x :: <[i := (at_, Over)]> ls). simpl. by rewrite Hx, IH.
Qed.

Lemma calm_step name n n' : calm n → node_step false name n n' → calm n'.
Proof.
  intros (Hi & Hs & Hw & Hv & Hu) Hst. unfold inner_panicked in Hi. apply orb_false_iff in Hi as [Hl Hp].
  destruct Hst; try done; unfold calm, inner_panicked; simpl; rewrite ?Hl, ?Hp, ?Hs, ?Hw, ?Hv, ?calm_over by done; simpl; try done.
  split_and!; try done. by destruct (inner n).
Qed.

Lemma reached_calm name names n : rtc (node_step false name) (started names) n → calm n.
Proof.
  intros Hr. remember (started names) as m eqn:Hm. assert (calm m) as Hc.
  { subst. unfold calm, inner_panicked. simpl. split_and!; try done. rewrite orb_false_r. clear. induction names as [|x l IH]; csimpl; done. }
  clear Hm. induction Hr as [|m k n Hs Hr IH]; [done|]. by eapply IH, calm_step.
Qed.

Lemma one_runs (ls : list (string * Thread)) : forallb (λ l, negb (running (snd l))) ls = false →
  ∃ at_ t, (at_, t) ∈ ls ∧ running t = true.
Proof.
  induction ls as [|[at_ t] ls IH]; [done|]. simpl. destruct (running t) eqn:Ht.
  - intros _. exists at_, t. split; [apply elem_of_cons; by left|done].
  - intros H. destruct (IH H) as (a & u & Hin & Hu). exists a, u. split; [apply elem_of_cons; by right|done].
Qed.

(** Raised, something is always next until all of it is over. *)
Lemma raised_steps name n : ordered n → calm n → raised n = true → halt n ≠ LibrariesGone → ∃ n', node_step false name n n'.
Proof.
  intros [Hi Hu Hc Hw Hs Hj] (Hpi & Hps & Hpw & Hpv & Hun) Hr Hh.
  destruct (halt n) eqn:Hhn; [by unfold raised in Hr; rewrite Hhn in Hr| |eexists; by econstructor..|done].
  destruct (running (serving n)) eqn:Hsv; [|eexists; by eapply step_joined].
  assert (serving n = Runs) as Hse by (by destruct (serving n)).
  destruct (inner n) eqn:Hin.
  - destruct (inner_over n) eqn:Ho; [eexists; by eapply step_inner|]. unfold inner_over in Ho. apply andb_false_iff in Ho as [Ho|Ho].
    + destruct (one_runs _ Ho) as (at_ & t & Hl & Hrt).
      simpl in Hrt. destruct t; [|done..]. apply list_elem_of_lookup in Hl as [i Hl]. eexists. by eapply step_location_over.
    + destruct (pickup n) eqn:Hp; [|done..]. eexists. by eapply step_pickup_over.
  - destruct (send_closed n) eqn:Hcl; [|eexists; by eapply step_close_send].
    destruct (work_closed n) eqn:Hwo; [|eexists; by eapply step_close_work].
    destruct (sending n) eqn:Hsn; [eexists; by eapply step_sending_over| |done].
    destruct (working n) eqn:Hwn; [eexists; by eapply step_working_over| |done].
    eexists. eapply step_serving_over; [done| |by rewrite Hsn|by rewrite Hwn]. unfold outer_through. by rewrite Hwo.
  - done.
Qed.

(** What dispatches is over only once its step is closed. *)
Lemma reached_closed name names n : rtc (node_step false name) (started names) n →
  running (sending n) = false ∨ running (working n) = false → send_closed n = true.
Proof.
  revert n. apply (rtc_ind_r (R := node_step false name) (λ n, running (sending n) = false ∨ running (working n) = false → send_closed n = true)).
  - by intros [].
  - intros n n' Hr Hs IH. pose proof (reached_ordered _ _ _ _ Hr) as Ho. destruct Hs; simpl; try done; try (by auto).
    intros _. by apply Ho.
Qed.


(** A node of one Location, stopped and all let go. *)
Definition let_go : Node :=
  {| locations := [("In", Over)]; pickup := Over; inner := Passed; send_closed := true; work_closed := true; sending := Over;
     working := Over; serving := Over; halt := LibrariesGone; failures := [("In", "its port is taken")] |}.

Lemma let_go_run : rtc (node_step false "n") (started ["In"]) let_go.
Proof.
  eapply rtc_l; [eapply (step_location_failed _ _ _ 0 "In" "its port is taken"); reflexivity|].
  eapply rtc_l; [eapply step_raise; reflexivity|]. eapply rtc_l; [eapply step_pickup_over; reflexivity|].
  eapply rtc_l; [eapply step_inner; reflexivity|]. eapply rtc_l; [eapply step_close_send; reflexivity|].
  eapply rtc_l; [eapply step_close_work; reflexivity|]. eapply rtc_l; [eapply step_sending_over; reflexivity|].
  eapply rtc_l; [eapply step_working_over; reflexivity|]. eapply rtc_l; [eapply step_serving_over; reflexivity|].
  eapply rtc_l; [eapply step_joined; reflexivity|]. eapply rtc_l; [eapply step_hosts; reflexivity|].
  eapply rtc_l; [eapply step_storage; reflexivity|]. eapply rtc_l; [eapply step_libraries; reflexivity|]. apply rtc_refl.
Qed.


(** A Location whose thread panics keeps the node from ever ending: the
    inner scope passes the panic on over the closing of both steps, and the
    outer one waits for the dispatching, which no one closes. *)
Definition hanging (n : Node) : Prop := inner n = Unwinding ∧ send_closed n = false ∧ sending n = Runs ∧ serving n = Runs.

Lemma panic_hangs : ∃ n, rtc (node_step true "n") (started ["In"]) n ∧ raised n = true ∧
  ∀ n', rtc (node_step false "n") n n' → serving n' = Runs ∧ halt n' = Raised.
Proof.
  eexists. split; [|split].
  - eapply rtc_l; [eapply (step_location_panics _ _ _ 0 "In"); reflexivity|].
    eapply rtc_l; [eapply step_raise; reflexivity|]. eapply rtc_l; [eapply step_pickup_over; reflexivity|].
    eapply rtc_l; [eapply step_inner; reflexivity|]. apply rtc_refl.
  - reflexivity.
  - intros n' Hr. match type of Hr with rtc _ ?m _ => assert (hanging m ∧ halt m = Raised) as Hh by done; revert Hh; generalize dependent m end.
    intros m Hr. induction Hr as [m|m k n Hs Hr IH]; [by intros [(? & ? & ? & ?) ?]|]. intros [(Hi & Hc & Hse & Hsv) Hh]. apply IH.
    destruct Hs; unfold hanging; simpl in *; try (by split_and!); try congruence.
    + rewrite Hse in *. done.
    + rewrite Hsv in *. done.
Qed.
