(* ===== verification/Facts.v ===== *)
(** * What the Ledger keeps beside a record's form: [src/ledger/record.rs]

    A Journey's facts, and whether it still keeps the places its Stream and
    its delivery hold ([open]); a Message's; what an audit record carries of
    a Message, each Stream once ([audited]); and an audit record's facts
    ([audit_entry]). The forms themselves, the words of states, phases and
    treatments, and a location's node and cluster are other crates'. *)

From Stdlib Require Import Ascii String.
From stdpp Require Import base numbers list strings sets.
From S2P Require Import Prelude Journey.

Local Open Scope string_scope.
Local Open Scope list_scope.

(** ** Journeys *)

Record JourneyFacts := {
  f_state : string; previous_journey : option N; subscription : option string; cause_work_process : option string; f_depth : N;
  f_work_process : option string; f_send_port : option string; send_location : N; f_attempts : N; f_message : option N;
  origin : option N; f_open : bool; group_delivery_ : option N; group_open : bool
}.

(** [held]: where its Stream came in, where it holds a place. *)
Definition held (j : Journey) : option Received :=
  match received j with
  | Some r => if bool_decide (rec_sequences r = []) then None else Some r
  | None => None
  end.

(** [open]. *)
Definition open (s : JourneyState) (skips : bool) : bool :=
  match s with Completed | Dismissed => false | Failed => negb skips | _ => true end.

(** [journey_record], where the Journey crate says a state's word, its depth
    and its cause's Subscription and Work Process. *)
Definition journey_facts (word : JourneyState → string) (depth : Journey → N) (cause_of : Journey → option (string * option string))
    (j : Journey) : JourneyFacts :=
  {| f_state := word (state j); previous_journey := previous j; subscription := fst <$> cause_of j;
     cause_work_process := cause_of j ≫= snd; f_depth := depth j; f_work_process := current_work_process j;
     f_send_port := send_port j; send_location := att_location (attempts j); f_attempts := att_tries (attempts j);
     f_message := last (messages j); origin := rec_origin <$> held j;
     f_open := match held j with Some r => open (state j) (rec_skips r) | None => false end;
     group_delivery_ := group_delivery <$> group j;
     group_open := match group j with Some g => open (state j) (group_skips g) | None => false end |}.

(** Its places are open just where it holds one and is neither done nor, by
    a sequence that skips, failed: a Journey that starts again where it
    failed is open again. *)
Lemma open_again word depth cause_of j :
  f_open (journey_facts word depth cause_of j) = true ↔
    ∃ r, received j = Some r ∧ rec_sequences r ≠ [] ∧ state j ≠ Completed ∧ state j ≠ Dismissed ∧
      (state j = Failed → rec_skips r = false).
Proof.
  unfold journey_facts, held. simpl. destruct (received j) as [r|]; [|split; [done|by intros (? & ? & _)]].
  case_bool_decide as Hs; [split; [done|intros (r' & [= <-] & H & _); congruence]|].
  destruct (state j); simpl; try (split; [intros _; exists r; by split_and!|done]);
    try (split; [done|intros (? & _ & _ & ? & ? & _); congruence]).
  rewrite negb_true_iff. split; [intros H; exists r; by split_and!|intros (r' & [= <-] & _ & _ & _ & H); auto].
Qed.

(** ** Messages *)

Record Section_ := { s_contract : option string; s_stream : N; s_length : N }.

(** A Message as its crate gives it: what it came from, its making and
    treatment in words, its Sections and the Party its context says. *)
Record MessageForm := {
  m_previous : option N; m_generation : N; m_created_by : string; m_priority : string; m_profile : string; m_durability : string;
  m_sections : list Section_; m_party : option string
}.

Record MessageFacts := {
  previous_message : option N; generation : N; created_by : string; priority : string; execution_profile : string;
  durability : string; size_bytes : N; party : option string; contract : option string; stream : option N
}.

Definition message_facts (m : MessageForm) : MessageFacts :=
  {| previous_message := m_previous m; generation := m_generation m; created_by := m_created_by m; priority := m_priority m;
     execution_profile := m_profile m; durability := m_durability m; size_bytes := u64_wrap (sumN (s_length <$> m_sections m));
     party := m_party m; contract := head (m_sections m) ≫= s_contract; stream := s_stream <$> head (m_sections m) |}.

(** [audited]: every Stream its Sections are over, in order, each once. *)
Definition seen (l : list N) (s : N) : list N := if bool_decide (s ∈ l) then l else l ++ [s].

Definition audited (m : MessageForm) : list N := foldl seen [] (s_stream <$> m_sections m).

Lemma seen_fold l : ∀ k, NoDup k → NoDup (foldl seen k l) ∧ (∀ s, s ∈ foldl seen k l ↔ s ∈ k ∨ s ∈ l) ∧ k `prefix_of` foldl seen k l.
Proof.
  induction l as [|x l IH]; intros k Hk; simpl; [split_and!; [done|intros s; rewrite elem_of_nil; tauto|done]|].
  assert (NoDup (seen k x) ∧ (∀ s, s ∈ seen k x ↔ s ∈ k ∨ s = x) ∧ k `prefix_of` seen k x) as (Hn & He & Hp).
  { unfold seen. case_bool_decide as Hx; split_and!; try done; [set_solver| |set_solver|by eexists].
    apply NoDup_app. split_and!; [done|set_solver|apply NoDup_singleton]. }
  destruct (IH _ Hn) as (Hn' & He' & Hp'). split_and!; [done| |by etrans].
  intros s. rewrite He', He, elem_of_cons. tauto.
Qed.

(** Each Stream of the Message is carried once, and no other. *)
Lemma audited_once m : NoDup (audited m) ∧ ∀ s, s ∈ audited m ↔ s ∈ s_stream <$> m_sections m.
Proof.
  unfold audited. destruct (seen_fold (s_stream <$> m_sections m) [] (NoDup_nil_2)) as (Hn & He & _).
  split; [done|]. intros s. rewrite He, elem_of_nil. tauto.
Qed.

(** ** Audit records *)

(** What an execution's scope says, and an audit record as its crate gives
    it. *)
Record Artifact := { a_kind : string; a_name : string; a_version : option string }.
Record ExecutionScope := { x_execution : N; x_journey : N; x_message : N; x_artifact : Artifact }.
Record Origin := { o_program : string; o_host : string; o_process : N; o_location : option string; o_hidden : bool }.
Record AuditRecord := {
  r_timestamp : Z; r_action : string; r_phase : string; r_severity : string; r_failure : bool; r_text : option string;
  r_origin : Origin; r_scope : option ExecutionScope
}.

Record AuditFacts := {
  occurred_unix_nanos : N; f_action : string; f_phase : string; f_severity : string; f_failed : bool; f_text : option string;
  f_program : string; f_host : string; f_process : N; f_location : option string; f_hidden : bool;
  f_execution : option N; f_journey : option N; f_of_message : option N;
  artifact_kind : option string; artifact_name : option string; artifact_version : option string;
  f_node : option string; f_cluster : option string; writer : string
}.

(** A moment as a [u64]: none before the epoch, and the last where it does
    not fit. *)
Definition nanos (t : Z) : N := if (Z.max t 0 <? 2 ^ 64)%Z then Z.to_N (Z.max t 0) else u64_max.

Definition audit_entry (node_of cluster_of : string → option string) (writer_of : Origin → string) (r : AuditRecord) : AuditFacts :=
  let o := r_origin r in
  {| occurred_unix_nanos := nanos (r_timestamp r); f_action := r_action r; f_phase := r_phase r; f_severity := r_severity r;
     f_failed := r_failure r; f_text := r_text r; f_program := o_program o; f_host := o_host o; f_process := o_process o;
     f_location := o_location o; f_hidden := o_hidden o; f_execution := x_execution <$> r_scope r; f_journey := x_journey <$> r_scope r;
     f_of_message := x_message <$> r_scope r; artifact_kind := a_kind ∘ x_artifact <$> r_scope r;
     artifact_name := a_name ∘ x_artifact <$> r_scope r; artifact_version := r_scope r ≫= a_version ∘ x_artifact;
     f_node := o_location o ≫= node_of; f_cluster := o_location o ≫= cluster_of; writer := writer_of o |}.

Lemma nanos_fits t : (nanos t ≤ u64_max)%N ∧ ((0 ≤ t < 2 ^ 64)%Z → Z.of_N (nanos t) = t).
Proof.
  unfold nanos, u64_max. destruct (Z.ltb_spec (Z.max t 0) (2 ^ 64)); split; lia.
Qed.
