(* ===== verification/AuditChain.v ===== *)
(** * A writer's audit chain read from Xmip Storage: [src/ledger/audit_chain.rs]

    The kept records of one writer in the order of their numbers, each with
    its Streams' rows and its body read whole ([verify_audit_chain]), handed
    to the audit capability's walk. Xmip Storage's answers, the digest of a
    record and the walk are other crates'. *)

From Stdlib Require Import Ascii String.
From stdpp Require Import base numbers list strings sets.
From S2P Require Import Prelude.

Local Open Scope string_scope.
Local Open Scope list_scope.

Section chain.
Context {PersistError Row Digest Verdict : Type}.

Record Kept := {
  k_id : N; k_position : N; k_previous : Digest; k_digest : Digest; k_body_digest : Digest; k_body_length : N; k_streams : list N
}.

(** Xmip Storage as it answers: the records of a writer's index, one's record
    and a Stream's row of it where they are, and its body read through. *)
Inductive Body := Whole | NotAsKept | NotAnswered (e : PersistError).

Record Storage := {
  query : string → result (list N) PersistError;
  read_kept_audit : N → result (option Kept) PersistError;
  read_kept_audit_stream : N → N → result (option Row) PersistError;
  read_body : Kept → Body
}.

Record Link := { l_record : N; l_position : N; l_previous : Digest; l_digest : Digest; l_computed : Digest }.

Context (chain_digest : Kept → list Row → Digest) (FIRST : Digest) (walk : string → list Link → Verdict).

Fixpoint rows (s : Storage) (id : N) (streams : list N) : result (list Row) PersistError :=
  match streams with
  | [] => Ok []
  | stream :: rest =>
      let? r := read_kept_audit_stream s id stream in
      let? more := rows s id rest in
      Ok (match r with Some r => r :: more | None => more end)
  end.

Definition link_of (k : Kept) (whole : bool) (streams : list Row) : Link :=
  {| l_record := k_id k; l_position := k_position k; l_previous := k_previous k; l_digest := k_digest k;
     l_computed := if whole then chain_digest k streams else FIRST |}.

Fixpoint links (s : Storage) (ids : list N) : result (list Link) PersistError :=
  match ids with
  | [] => Ok []
  | id :: rest =>
      let? kept := read_kept_audit s id in
      match kept with
      | None => links s rest
      | Some k =>
          let? streams := rows s (k_id k) (k_streams k) in
          let? whole := match read_body s k with Whole => Ok true | NotAsKept => Ok false | NotAnswered e => Err e end in
          let? more := links s rest in
          Ok (link_of k whole streams :: more)
      end
  end.

Definition verify_audit_chain (s : Storage) (writer : string) : result Verdict PersistError :=
  let? ids := query s writer in
  let? l := links s ids in
  Ok (walk writer l).

(** ** What it says *)

(** Xmip Storage answers every ask of a writer's chain. *)
Definition answers (s : Storage) (ids : list N) : Prop :=
  ∀ id, id ∈ ids → ∃ kept, read_kept_audit s id = Ok kept ∧
    ∀ k, kept = Some k → (∀ e, read_body s k ≠ NotAnswered e) ∧
      ∀ stream, stream ∈ k_streams k → is_ok (read_kept_audit_stream s (k_id k) stream) = true.

Lemma rows_answered s id streams :
  (∀ stream, stream ∈ streams → is_ok (read_kept_audit_stream s id stream) = true) ↔
  is_ok (rows s id streams) = true.
Proof.
  induction streams as [|stream rest IH]; simpl; [split; [done|intros _ st Hst; by apply elem_of_nil in Hst]|].
  destruct (read_kept_audit_stream s id stream) as [r|e] eqn:Hr; simpl.
  - destruct (rows s id rest) as [more|e]; simpl in *.
    + split; [done|]. intros _ st [->|Hst]%elem_of_cons; [by rewrite Hr|by apply IH].
    + split; [|done]. intros H. apply IH. intros st Hst. apply H. apply elem_of_cons. by right.
  - split; [|done]. intros H. specialize (H stream). rewrite Hr in H. apply H. apply elem_of_cons. by left.
Qed.

Lemma links_answered s ids : answers s ids ↔ ∃ l, links s ids = Ok l.
Proof.
  induction ids as [|id rest IH]; simpl; [split; [by eexists|intros _ i Hi; by apply elem_of_nil in Hi]|].
  assert (answers s (id :: rest) ↔ answers s [id] ∧ answers s rest) as ->.
  { unfold answers. split; [intros H; split; intros i Hi; apply H; rewrite elem_of_cons in *; rewrite ?elem_of_nil in Hi; tauto|].
    intros [H1 H2] i [->|Hi]%elem_of_cons; [apply H1; apply elem_of_cons; by left|by apply H2]. }
  rewrite IH. assert (answers s [id] ↔ ∃ kept, read_kept_audit s id = Ok kept ∧ ∀ k, kept = Some k → (∀ e, read_body s k ≠ NotAnswered e) ∧
      is_ok (rows s (k_id k) (k_streams k)) = true) as ->.
  { unfold answers. split.
    - intros H. destruct (H id) as (kept & Hk & Hr); [apply elem_of_cons; by left|]. exists kept. split; [done|].
      intros k Hkk. destruct (Hr k Hkk). split; [done|by apply rows_answered].
    - intros (kept & Hk & Hr) i [->|Hi]%elem_of_cons; [|by apply elem_of_nil in Hi]. exists kept. split; [done|].
      intros k Hkk. destruct (Hr k Hkk). split; [done|by apply rows_answered]. }
  destruct (read_kept_audit s id) as [[k|]|e]; simpl.
  - destruct (rows s (k_id k) (k_streams k)) as [streams|e] eqn:Hrow; simpl.
    + destruct (read_body s k) as [| |e] eqn:Hb; simpl;
        [..|split; [intros [(kept & [= <-] & H) _]; destruct (H k eq_refl) as [H' _]; exact (False_ind _ (H' e Hb))|by intros [? ?]]].
      all: destruct (links s rest) as [more|e']; simpl; (split; [intros [_ [? ?]]; (done || by eexists)|]);
        intros [? ?]; try done; split; [|by eexists]; exists (Some k); split; [done|]; intros k' [= <-]; by rewrite Hb, Hrow.
    + split; [intros [(kept & [= <-] & H) _]; destruct (H k eq_refl) as [_ H']; by rewrite Hrow in H'|by intros [? ?]].
  - split; [by intros [_ H]|]. intros H. split; [|done]. eexists. split; [done|]. done.
  - split; [intros [(kept & H & _) _]; done|by intros [? ?]].
Qed.

(** A writer's chain is given a verdict just where Xmip Storage answered
    every ask of it — its index, each record, each Stream's row and each
    body — so that an outage never reads as a chain broken; and it is the
    walk's over each record that is there, in the index's order, digested
    where its body is as it was kept. *)
Theorem outage_no_verdict s writer :
  ((∃ v, verify_audit_chain s writer = Ok v) ↔ ∃ ids, query s writer = Ok ids ∧ answers s ids) ∧
  (∀ v, verify_audit_chain s writer = Ok v → ∃ ids l, query s writer = Ok ids ∧ links s ids = Ok l ∧ v = walk writer l).
Proof.
  unfold verify_audit_chain. destruct (query s writer) as [ids|e]; simpl.
  - split.
    + split.
      * intros [v Hv]. exists ids. split; [done|]. apply links_answered. destruct (links s ids) as [l|]; [eauto|done].
      * intros (ids' & [= <-] & H). apply links_answered in H as [l ->]. simpl. eauto.
    + intros v. destruct (links s ids) as [l|] eqn:Hl; [|done]. simpl. intros [= <-]. eauto.
  - split; [split; [by intros []|by intros (? & ? & _)]|done].
Qed.
End chain.
