(* ===== verification/Catalogue.v ===== *)
(** * Technologies carried and Subscriptions configured: [src/catalogue.rs], [src/configured_subscription.rs]

    The process's catalogue of the technologies it carries ([carry],
    [declarations], [catalogue]), kept in the order of their names, and the
    Subscriptions a node routes by, each with where it is configured and the
    Send Ports it reaches ([configured], [reached]). A technology's
    declaration and an entry's text are other crates'. *)

From Stdlib Require Import Ascii String.
From stdpp Require Import base numbers list strings sets sorting.
From S2P Require Import Prelude Journey.

Local Open Scope string_scope.
Local Open Scope list_scope.

Inductive Capability := Transport | Contract.

Section catalogue.
Context {Settings : Type} (technology : Settings → string).
(** Names compared as their bytes. *)
Context (le : string → string → Prop) `{!TotalOrder le, !RelDecision le}.

Record Carried := { capability : Capability; schemes : list string; settings : Settings }.

Definition name_of (c : Carried) : string := technology (settings c).
Definition by_name (a b : Carried) : Prop := le (name_of a) (name_of b).
#[local] Instance by_name_dec : RelDecision by_name := λ a b, decide (le (name_of a) (name_of b)).

(** [carry]: once a technology, sorted by its name. *)
Definition carry (c : Carried) (l : list Carried) : list Carried :=
  if forallb (λ held, negb (String.eqb (name_of held) (name_of c))) l then merge_sort by_name (l ++ [c]) else l.

(** [declarations]. *)
Definition declarations (l : list Carried) : list (string * Settings) :=
  l ≫= λ c, match capability c with
            | Transport => (λ s, (s, settings c)) <$> schemes c
            | Contract => [(name_of c, settings c)]
            end.

(** [catalogue]: every one, or that one alone. *)
Definition catalogue (t : string) (l : list Carried) : result (list Carried) string :=
  let found := List.filter (λ c, String.eqb t "" || String.eqb (name_of c) t) l in
  if bool_decide (found = []) && negb (String.eqb t "") then Err ("this runtime carries no technology '" +:+ t +:+ "'") else Ok found.

Lemma carry_names c l : name_of <$> carry c l ≡ₚ (if bool_decide (name_of c ∈ name_of <$> l) then name_of <$> l else (name_of <$> l) ++ [name_of c]).
Proof.
  unfold carry. destruct (forallb _ l) eqn:Hf.
  - rewrite bool_decide_false; [|].
    + by rewrite merge_sort_Permutation, fmap_app.
    + rewrite forallb_forall in Hf. intros (d & Hd & Hin)%list_elem_of_fmap. specialize (Hf d (proj1 (list_elem_of_In _ _) Hin)).
      by rewrite Hd, String.eqb_refl in Hf.
  - rewrite bool_decide_true; [done|]. apply not_true_iff_false in Hf. destruct (decide (name_of c ∈ name_of <$> l)) as [|Hno]; [done|].
    exfalso. apply Hf. apply forallb_forall. intros d Hd%list_elem_of_In. apply negb_true_iff, String.eqb_neq. intros He. apply Hno.
    apply list_elem_of_fmap. eauto.
Qed.

(** However technologies are carried, each is once, in order of its name,
    and carrying one again changes nothing. *)
Lemma carried_once l : let held := foldl (λ h c, carry c h) [] l in
  NoDup (name_of <$> held) ∧ Sorted by_name held ∧ ∀ c, c ∈ l → carry c held = held.
Proof.
  assert (∀ c k, NoDup (name_of <$> k) → Sorted by_name k → NoDup (name_of <$> carry c k) ∧ Sorted by_name (carry c k)) as Hstep.
  { intros c k Hn Hs. split.
    - rewrite carry_names. case_bool_decide as Hc; [done|]. apply NoDup_app. split_and!; [done|set_solver|apply NoDup_singleton].
    - unfold carry. destruct (forallb _ k); [|done]. apply Sorted_merge_sort. intros a b. unfold by_name.
      destruct (total le (name_of a) (name_of b)); auto. }
  assert (∀ c k, name_of c ∈ name_of <$> k → carry c k = k) as Hagain.
  { intros c k (d & Hd & Hin)%list_elem_of_fmap. unfold carry. destruct (forallb _ k) eqn:Hf; [|done]. rewrite forallb_forall in Hf.
    specialize (Hf d (proj1 (list_elem_of_In _ _) Hin)). by rewrite Hd, String.eqb_refl in Hf. }
  assert (∀ k, NoDup (name_of <$> k) → Sorted by_name k → let held := foldl (λ h c, carry c h) k l in
    NoDup (name_of <$> held) ∧ Sorted by_name held ∧ (∀ n, n ∈ name_of <$> k ∨ n ∈ name_of <$> l → n ∈ name_of <$> held)) as Hall.
  { induction l as [|c l IH]; intros k Hn Hs; simpl; [split_and!; [done|done|intros n [H|H]; [done|by apply elem_of_nil in H]]|].
    destruct (Hstep c k Hn Hs) as [Hn' Hs']. destruct (IH _ Hn' Hs') as (H1 & H2 & H3). split_and!; [done|done|].
    intros n Hin. apply H3. csimpl in Hin. rewrite elem_of_cons in Hin. rewrite carry_names. case_bool_decide as Hc; [|set_solver].
    destruct Hin as [Hin|[->|Hin]]; auto. }
  destruct (Hall [] (NoDup_nil_2) (Sorted_nil _)) as (H1 & H2 & H3). split_and!; [done|done|].
  intros c Hc. apply Hagain, H3. right. apply list_elem_of_fmap. eauto.
Qed.
End catalogue.

(** ** Subscriptions configured *)

Section subscriptions.
Context {Filter : Type}.

Record Subscription := { sub_id : string; sub_destination : Subscriber; sub_filter : Filter }.
Record SendPortGroup := { g_name : string; g_ports : list string }.
Record Application := { a_subscriptions : list Subscription; a_groups : list SendPortGroup }.
Record ApplicationFile := { file_name : string; file_path : string; file_text : string }.

Record ConfiguredSubscription := {
  subscription : Subscription; application : string; file : string; entry : string; ports : list string
}.

(** [reached]. *)
Definition reached (to : Subscriber) (a : Application) : list string :=
  match to with
  | SendPort p => [p]
  | SendGroup g => match List.find (λ d, String.eqb (g_name d) g) (a_groups a) with Some d => g_ports d | None => [] end
  | WorkProcess _ => []
  end.

(** [ConfiguredSubscription::of]: the entry as the file's text says it. *)
Context (entry_of : string → string → string → option string).

Definition configured (applications : list Application) (files : list ApplicationFile) : list ConfiguredSubscription :=
  zip applications files ≫= λ af,
    (λ s, {| subscription := s; application := file_name af.2; file := file_path af.2;
             entry := default "" (entry_of (file_text af.2) (file_name af.2) (sub_id s)); ports := reached (sub_destination s) af.1 |}) <$>
      a_subscriptions af.1.

(** [unfiled]. *)
Definition unfiled (s : Subscription) : ConfiguredSubscription :=
  {| subscription := s; application := ""; file := ""; entry := "";
     ports := match sub_destination s with SendPort p => [p] | _ => [] end |}.

(** Routing asks them in the order the node binds its Applications, each
    where it is drawn. *)
Lemma configured_order applications files : length applications = length files →
  subscription <$> configured applications files = applications ≫= a_subscriptions.
Proof.
  revert files. induction applications as [|a l IH]; intros [|f files] Hl; simpl in Hl; [done..|].
  unfold configured in *. change (zip (a :: l) (f :: files)) with ((a, f) :: zip l files).
  rewrite !bind_cons, fmap_app, IH by lia. f_equal. rewrite <-list_fmap_compose. apply list_fmap_id.
Qed.
End subscriptions.
