(* ===== verification/Loading.v ===== *)
(** * Modules opened from their libraries: [src/ffi/loaded_module.rs], [loaded_contract.rs], [loaded_work_process.rs], [src/library.rs]

    A library opened, an instance of its module created, judged and let go
    ([open_module], [drop_module]); its contract table driven, and its Work
    Process unit's; every Module a node starts opened once and held
    ([open_all], [drop_libraries]). What crosses to a module is kept as the
    trace of the calls made of each instance, with the status each answered:
    what a library answers is any function of the calls before
    ([Foreign]). What the header asks of a host is an automaton over one
    instance's calls ([next], [life]), and a node that takes flows, asks
    them turns and lets them and its libraries go is [node_step].

    The descriptor's compatibility rule and its text are the abi crate's, a
    turn's and a declaration's form the process crate's. A path is its
    text. *)

From Stdlib Require Import Ascii String.
From stdpp Require Import base numbers list gmap strings pretty relations.
From S2P Require Import Prelude Text Validated.
From S2P Require Boundary.

Local Open Scope string_scope.
Local Open Scope list_scope.

(** ** What a module lends: [read_str] *)

Definition REPLACEMENT : string := String "239" (String "191" (String "189" "")).

(** [String::from_utf8_lossy]: each longest run of bytes that begin a
    character and are none is one replacement character. *)
Fixpoint lossy (s : string) : string :=
  match s with
  | EmptyString => ""
  | String a r =>
      if (N_of_ascii a <? 128)%N then String a (lossy r)
      else match r with
           | EmptyString => REPLACEMENT
           | String b r1 =>
               if Boundary.within_bytes 194 223 a then
                 if Boundary.tail_byte b then String a (String b (lossy r1)) else REPLACEMENT +:+ lossy r
               else if Boundary.second_of_3 a b then
                 match r1 with
                 | EmptyString => REPLACEMENT
                 | String c r2 =>
                     if Boundary.tail_byte c then String a (String b (String c (lossy r2))) else REPLACEMENT +:+ lossy r1
                 end
               else if Boundary.second_of_4 a b then
                 match r1 with
                 | EmptyString => REPLACEMENT
                 | String c r2 =>
                     if Boundary.tail_byte c then
                       match r2 with
                       | EmptyString => REPLACEMENT
                       | String d r3 =>
                           if Boundary.tail_byte d then String a (String b (String c (String d (lossy r3))))
                           else REPLACEMENT +:+ lossy r2
                       end
                     else REPLACEMENT +:+ lossy r1
                 end
               else REPLACEMENT +:+ lossy r
           end
  end.

(** Bytes a module points at; none where it points nowhere. *)
Abbreviation Lent := (option string).

(** [read_str]. *)
Definition read_str (text : Lent) : string := match text with None => "" | Some bytes => lossy bytes end.

(** ** A module's descriptor and its table *)

Record Wire := {
  wire_abi_version : N; wire_provider : Lent; wire_module : Lent; wire_standard : Lent;
  wire_trait : N * N; wire_version : N * N * N
}.

Record ModuleDescriptor := {
  abi_version : N; provider : string; module : string; standard : string;
  trait_ : N * N; version : N * N * N
}.

(** [read_descriptor]. *)
Definition read_descriptor (w : Wire) : ModuleDescriptor :=
  {| abi_version := wire_abi_version w; provider := read_str (wire_provider w); module := read_str (wire_module w);
     standard := read_str (wire_standard w); trait_ := wire_trait w; version := wire_version w |}.

(** The functions a table carries; [None] of the header's is false. *)
Record ContractVtable := {
  c_trait : N * N; has_configure : bool; has_start : bool; has_stop : bool;
  has_load : bool; has_validate : bool; has_implies : bool; has_release : bool
}.

Record WorkProcessVtable := { has_declared : bool; has_advance : bool }.

(** What lies at a module's table, as either trait reads it. *)
Record Vtable := { as_contract : ContractVtable; as_work_process : WorkProcessVtable }.

Record Module_ := { wire : Wire; vtable : option Vtable; has_destroy : bool; has_last_error : bool }.

(** ** What crosses *)

Inductive Call :=
  | Opens (path : string)
  | Creates (out : Module_)
  | Configures (toml : string) | Starts | Stops
  | Loads (named : string) | Validates (handle : N) (content : string) | Implies (handle : N) (key : string) | Releases (handle : N)
  | Declares | Advances (turn : string) (room : N)
  | SaysError
  | Destroys | Unloads.

(** Each call with the instance it is of and the status it answered; one of
    no status answers [XMIP_OK]. *)
Abbreviation Trace := (list (nat * Call * Z)).

(** [abi::ffi::status]: those tested. *)
Class AbiStatus := { OK : Z; CAPACITY : Z; INVALID : Z; distinct : OK ≠ CAPACITY }.

(** The platform's loader and the libraries' own code: what each answers
    after the calls before. *)
Class Foreign := {
  library_opened : Trace → string → result unit string;
  symbol_found : Trace → string → result unit string;
  filled : Trace → Module_;
  status_of : Trace → nat → Call → Z;
  error_said : Trace → nat → Lent;
  declared_lent : Trace → nat → Lent;
  handle_given : Trace → nat → option N;
  diagnostics_lent : Trace → nat → option (list (Lent * Lent * Z));
  implied : Trace → nat → Lent;
  (* what [advance] says it wrote, and the room it leaves *)
  advanced : Trace → nat → string → string → N * string
}.

(** The abi crate's rule and texts; the process crate's forms. *)
Class Crates := {
  XMIP_ENTRYPOINT : string;
  Declared : Type; declared_name : Declared → string;
  shown : ModuleDescriptor → string;
  accepts : ModuleDescriptor → string * N * N → result unit string;
  read_declared : string → result Declared string
}.

Section loading.
Context `{AbiStatus, Foreign, Crates}.

(** A call made of an instance. *)
Definition call (i : nat) (c : Call) (t : Trace) : Trace * Z := let s := status_of t i c in (t ++ [(i, c, s)], s).
Definition void (i : nat) (c : Call) (t : Trace) : Trace := t ++ [(i, c, OK)].

Definition is_open (e : nat * Call * Z) : bool := match e.1.2 with Opens _ => true | _ => false end.

(** How many libraries were opened: the next instance's number. *)
Definition opens (t : Trace) : nat := count is_open t.

(** ** One module: [LoadedModule] *)

Record LoadedModule := { lm_id : nat; lm_path : string; lm_descriptor : ModuleDescriptor; lm_module : Module_ }.

(** [LoadedModule::drop], and its library's after. *)
Definition drop_module (m : LoadedModule) (t : Trace) : Trace :=
  void (lm_id m) Unloads (if has_destroy (lm_module m) then void (lm_id m) Destroys t else t).

(** [create]. *)
Definition create (i : nat) (path : string) (expected : string * N * N) : asks Trace LoadedModule := λ t,
  let out := filled t in
  let '(t, answer) := call i (Creates out) t in
  if negb (answer =? OK)%Z then
    (void i Unloads t,
     Err (path +:+ " refused to create a module: status " +:+ pretty answer +:+
          ", and *out was left untouched as header section 7 requires"))
  else
    let loaded := {| lm_id := i; lm_path := path; lm_descriptor := read_descriptor (wire out); lm_module := out |} in
    match accepts (lm_descriptor loaded) expected with
    | Err why => (drop_module loaded t, Err why)
    | Ok _ => (t, Ok loaded)
    end.

(** [LoadedModule::open], [resolve]. *)
Definition open_module (path : string) (expected : string * N * N) : asks Trace LoadedModule := λ t,
  match library_opened t path with
  | Err why => (t, Err (path +:+ " would not open: " +:+ why))
  | Ok _ =>
      let i := opens t in
      let t := void i (Opens path) t in
      match symbol_found t path with
      | Err why =>
          (void i Unloads t,
           Err (path +:+ " exports no " +:+ XMIP_ENTRYPOINT +:+ ": " +:+ why +:+ ". Every conforming module exports exactly that symbol"))
      | Ok _ => create i path expected t
      end
  end.

(** [LoadedModule::last_error]. *)
Definition last_error (m : LoadedModule) (t : Trace) : Trace * string :=
  if has_last_error (lm_module m) then (void (lm_id m) SaysError t, read_str (error_said t (lm_id m))) else (t, "").

(** ** The contract trait: [LoadedContract] *)

Definition CONTRACT : string := "contract".

Definition contract_expected : string * N * N := (CONTRACT, 1%N, 0%N).

Definition dotted (v : N * N) : string := pretty v.1 +:+ "." +:+ pretty v.2.

(** [LoadedContract::of]. *)
Definition contract_of (m : LoadedModule) : result ContractVtable string :=
  let d := lm_descriptor m in
  if negb (String.eqb (module d) CONTRACT) then
    Err (shown d +:+ " answers the '" +:+ module d +:+ "' trait, and only '" +:+ CONTRACT +:+ "' can be driven from here")
  else
    match vtable (lm_module m) with
    | None => Err (shown d +:+ " names the '" +:+ CONTRACT +:+ "' trait and carries no table")
    | Some v =>
        let table := as_contract v in
        if negb (bool_decide (c_trait table = trait_ d)) then
          Err (shown d +:+ " declares trait " +:+ dotted (trait_ d) +:+ " and its table says " +:+ dotted (c_trait table) +:+
               ": a module that disagrees with itself is not driven")
        else Ok table
    end.

(** [judge]. *)
Definition judge (m : LoadedModule) (what : string) (s : Z) : asks Trace unit := λ t,
  if (s =? OK)%Z then (t, Ok tt)
  else let '(t, why) := last_error m t in
       (t, Err (shown (lm_descriptor m) +:+ " answered status " +:+ pretty s +:+ " to " +:+ what +:+ ": " +:+ why)).

Definition carries_no (m : LoadedModule) (what : string) : string := shown (lm_descriptor m) +:+ " carries no " +:+ what.

(** [lifecycle], and [configure] before it. *)
Definition lifecycle (m : LoadedModule) (what : string) (carried : bool) (c : Call) : asks Trace unit := λ t,
  if carried then let '(t, s) := call (lm_id m) c t in judge m what s t else (t, Err (carries_no m what)).

Definition configure (m : LoadedModule) (v : ContractVtable) (toml : string) : asks Trace unit :=
  lifecycle m "configure" (has_configure v) (Configures toml).
Definition start (m : LoadedModule) (v : ContractVtable) : asks Trace unit := lifecycle m "start" (has_start v) Starts.
Definition stop (m : LoadedModule) (v : ContractVtable) : asks Trace unit := lifecycle m "stop" (has_stop v) Stops.

(** [bind]: the handle the module gave. *)
Definition bind (m : LoadedModule) (v : ContractVtable) (named : string) : asks Trace N := λ t,
  if has_load v then
    let given := handle_given t (lm_id m) in
    let '(t, s) := call (lm_id m) (Loads named) t in
    match given with
    | Some h => if (s =? OK)%Z then (t, Ok h)
                else (t, Err (shown (lm_descriptor m) +:+ " would not bind '" +:+ named +:+ "': status " +:+ pretty s))
    | None => (t, Err (shown (lm_descriptor m) +:+ " would not bind '" +:+ named +:+ "': status " +:+ pretty s))
    end
  else (t, Err (carries_no m "load")).

(** [BoundContract::drop]. *)
Definition release (m : LoadedModule) (v : ContractVtable) (h : N) (t : Trace) : Trace :=
  if has_release v then void (lm_id m) (Releases h) t else t.

(** [read_diagnostics]. *)
Definition diagnostic (d : Lent * Lent * Z) : string :=
  let location := read_str d.1.1 in let message := read_str d.1.2 in
  if String.eqb location "" then "[" +:+ pretty d.2 +:+ "] " +:+ message
  else "[" +:+ pretty d.2 +:+ "] " +:+ location +:+ ": " +:+ message.

Definition read_diagnostics (run : option (list (Lent * Lent * Z))) : list string := diagnostic <$> default [] run.

Record Verdict := { status : Z; diagnostics : list string }.

(** [Verdict::held]. *)
Definition held (v : Verdict) : bool := (status v =? OK)%Z && bool_decide (diagnostics v = []).

(** [BoundContract::validate], [implies]. *)
Definition validate (m : LoadedModule) (v : ContractVtable) (h : N) (content : string) : asks Trace Verdict := λ t,
  if has_validate v then
    let lent := diagnostics_lent t (lm_id m) in
    let '(t, s) := call (lm_id m) (Validates h content) t in
    (t, Ok {| status := s; diagnostics := read_diagnostics lent |})
  else (t, Err (carries_no m "validate")).

Definition implies (m : LoadedModule) (v : ContractVtable) (h : N) (key : string) (t : Trace) : Trace * option string :=
  if has_implies v then
    let lent := implied t (lm_id m) in
    let '(t, s) := call (lm_id m) (Implies h key) t in
    (t, if (s =? OK)%Z then Some (read_str lent) else None)
  else (t, None).

(** [read_source]: a read of the content a module asks, what is left of it,
    and what it is handed; the room it reads into is there or not. *)
Definition read_source (room : option N) (len : N) (remaining : string) : string * result string Z :=
  match room, (0 <? len)%N with
  | None, true => (remaining, Err INVALID)
  | _, _ =>
      let n := N.to_nat (N.min (N.of_nat (String.length remaining)) len) in
      (substring n (String.length remaining - n) remaining, Ok (substring 0 n remaining))
  end.

(** ** The work process trait: [LoadedFlow] *)

Definition WORK_PROCESS : string := "work-process".

Definition work_process_expected : string * N * N := (WORK_PROCESS, 1%N, 0%N).

Record LoadedFlow := { f_unit : LoadedModule; f_table : WorkProcessVtable; f_declared : Declared }.

(** [LoadedFlow::of]. *)
Definition flow_of (m : LoadedModule) : asks Trace LoadedFlow := λ t,
  let d := lm_descriptor m in
  if negb (String.eqb (module d) WORK_PROCESS) then (t, Err (shown d +:+ " does not answer the '" +:+ WORK_PROCESS +:+ "' trait"))
  else
    match vtable (lm_module m) with
    | None => (t, Err (shown d +:+ " names '" +:+ WORK_PROCESS +:+ "' and carries no table"))
    | Some v =>
        let table := as_work_process v in
        if has_declared table then
          let lent := declared_lent t (lm_id m) in
          let '(t, answer) := call (lm_id m) Declares t in
          match lent with
          | Some bytes =>
              if (answer =? OK)%Z then
                match read_declared bytes with
                | Ok declared => (t, Ok {| f_unit := m; f_table := table; f_declared := declared |})
                | Err why => (t, Err (shown d +:+ ": " +:+ why))
                end
              else (t, Err (shown d +:+ " did not say what it declares: " +:+ pretty answer))
          | None => (t, Err (shown d +:+ " did not say what it declares: " +:+ pretty answer))
          end
        else (t, Err (shown d +:+ " carries no 'declared'"))
    end.

Definition FIRST_ROOM : N := 4096.

(** [Vec::resize]: more room, what was in it kept. *)
Fixpoint zeros (n : nat) : string := match n with O => "" | S n => String "000" (zeros n) end.
Definition resized (room : string) (n : N) : string := room +:+ zeros (N.to_nat n - String.length room).

(** [LoadedFlow::turn]: one ask of [advance], and again with the room it
    said it needs. *)
Fixpoint turn_in (fuel : nat) (f : LoadedFlow) (bytes room : string) (t : Trace) : option (Trace * result string string) :=
  match fuel with
  | O => None
  | S fuel =>
      let i := lm_id (f_unit f) in
      let '(written, room) := advanced t i bytes room in
      let '(t, answer) := call i (Advances bytes (N.of_nat (String.length room))) t in
      if (answer =? OK)%Z then Some (t, Ok (substring 0 (N.to_nat written) room))
      else if (answer =? CAPACITY)%Z && (N.of_nat (String.length room) <? written)%N then
        turn_in fuel f bytes (resized room written) t
      else
        let '(t, why) := last_error (f_unit f) t in
        Some (t, Err ("the unit '" +:+ declared_name (f_declared f) +:+ "' answered " +:+ pretty answer +:+ ": " +:+ why))
  end.

Definition turn (fuel : nat) (f : LoadedFlow) (bytes : string) (t : Trace) : option (Trace * result string string) :=
  if has_advance (f_table f) then turn_in fuel f bytes (zeros (N.to_nat FIRST_ROOM)) t
  else Some (t, Err "the unit carries no 'advance'").

(** ** Every Module a node starts: [Libraries] *)

(** The manifest's units that are Work Processes', by name. *)
Context (work_units : ModuleConfiguration → list string).

(** [library]. *)
Definition library (m : ModuleConfiguration) : result string string :=
  let named := match m_symbol m with Some symbol => negb (String.eqb symbol XMIP_ENTRYPOINT) | None => false end in
  if named then
    Err ("the module '" +:+ m_name m +:+ "' names the entrypoint '" +:+ default "" (m_symbol m) +:+
         "'; a conforming module exports exactly " +:+ XMIP_ENTRYPOINT +:+ " (header section 7)")
  else
    match m_library_path m with
    | Some path => if blank path then
          match m_executable_path m with
          | Some _ => Err ("the module '" +:+ m_name m +:+ "' runs as its own executable, and this runtime starts no Module out of process yet")
          | None => Err ("the module '" +:+ m_name m +:+ "' names no library to load")
          end
        else Ok path
    | None =>
        match m_executable_path m with
        | Some _ => Err ("the module '" +:+ m_name m +:+ "' runs as its own executable, and this runtime starts no Module out of process yet")
        | None => Err ("the module '" +:+ m_name m +:+ "' names no library to load")
        end
    end.

(** [refuse]: a runtime built without loading. *)
Definition refuse (modules : list ModuleConfiguration) : result unit (list string) :=
  match (λ m, match library m with
              | Ok path => "the module '" +:+ m_name m +:+ "' is a library (" +:+ path +:+
                  "), and this runtime was built without the dynamic-loading feature that opens one"
              | Err problem => problem
              end) <$> modules with
  | [] => Ok tt
  | problems => Err problems
  end.

Fixpoint before_colon (s : string) : string :=
  match s with EmptyString => "" | String a r => if Ascii.eqb a ":" then "" else String a (before_colon r) end.

(** [claimed_trait]. *)
Definition claimed_trait (capability : string) : string := before_colon capability.

Definition traits (m : ModuleConfiguration) : list string := (λ c, claimed_trait (cap_name c)) <$> m_capabilities m.

(** A list of texts as [Debug] writes them; what it escapes no claim has. *)
Definition debugged (l : list string) : string :=
  "[" +:+ String.concat ", " ((λ s, String "034" (s +:+ String "034" "")) <$> l) +:+ "]".

Record Libraries := { opened : list LoadedModule; flows : list (string * string * LoadedModule) }.

Definition about (m : ModuleConfiguration) (why : string) : string := "the module '" +:+ m_name m +:+ "': " +:+ why.

(** A contract opened and started; where it is not, it is let go of. *)
Definition open_contract (path : string) : asks Trace LoadedModule := λ t,
  match open_module path contract_expected t with
  | (t, Err why) => (t, Err why)
  | (t, Ok loaded) =>
      match (let! v := of_result (contract_of loaded) in let! _ := configure loaded v "" in start loaded v) t with
      | (t, Ok _) => (t, Ok loaded)
      | (t, Err why) => (drop_module loaded t, Err why)
      end
  end.

(** A Work Process unit opened, where its manifest declares it. *)
Definition open_unit (m : ModuleConfiguration) (path : string) : asks Trace (string * LoadedModule) := λ t,
  match open_module path work_process_expected t with
  | (t, Err why) => (t, Err (about m why))
  | (t, Ok loaded) =>
      let unit := standard (lm_descriptor loaded) in
      if bool_decide (unit ∈ work_units m) then (t, Ok (unit, loaded))
      else (drop_module loaded t,
            Err ("the module '" +:+ m_name m +:+ "' holds the unit '" +:+ unit +:+ "', which its manifest does not declare as a " +:+
                 WORK_PROCESS +:+ " unit"))
  end.

(** One Module of [Libraries::open]'s loop. *)
Definition open_one (m : ModuleConfiguration) (at_ : Trace * Libraries * list string) : Trace * Libraries * list string :=
  let '(t, l, problems) := at_ in
  match library m with
  | Err problem => (t, l, problems ++ [problem])
  | Ok path =>
      if bool_decide (traits m = [WORK_PROCESS]) then
        match open_unit m path t with
        | (t, Ok (unit, loaded)) => (t, {| opened := opened l; flows := flows l ++ [(m_name m, unit, loaded)] |}, problems)
        | (t, Err problem) => (t, l, problems ++ [problem])
        end
      else if negb (bool_decide (traits m = [CONTRACT])) then
        (t, l, problems ++ ["the module '" +:+ m_name m +:+ "' claims " +:+ debugged (traits m) +:+ "; this runtime drives the '" +:+
                            CONTRACT +:+ "' and '" +:+ WORK_PROCESS +:+ "' tables of a loaded module and no other yet"])
      else
        match open_contract path t with
        | (t, Ok loaded) => (t, {| opened := opened l ++ [loaded]; flows := flows l |}, problems)
        | (t, Err why) => (t, l, problems ++ [about m why])
        end
  end.

(** A unit let go of by one holder, [others] holding units still. *)
Definition drop_unit (others : list LoadedModule) (u : LoadedModule) (t : Trace) : Trace :=
  if bool_decide (lm_id u ∈ lm_id <$> others) then t else drop_module u t.

Fixpoint drop_units (units out : list LoadedModule) (t : Trace) : Trace :=
  match units with [] => t | u :: rest => drop_units rest out (drop_unit (rest ++ out) u t) end.

Definition stopped (m : LoadedModule) (t : Trace) : Trace :=
  match contract_of m with Ok v => (stop m v t).1 | Err _ => t end.

(** [Libraries::drop], and its fields' after: the modules, then each flow
    some turn does not hold still ([out]). *)
Definition drop_libraries (l : Libraries) (out : list LoadedModule) (t : Trace) : Trace :=
  let t := foldl (λ t m, stopped m t) t (opened l) in
  let t := foldl (λ t m, drop_module m t) t (opened l) in
  drop_units (flows l).*2 out t.

(** [Libraries::open]. *)
Definition open_all (modules : list ModuleConfiguration) (t : Trace) : Trace * result Libraries (list string) :=
  let '(t, l, problems) := foldl (λ at_ m, open_one m at_) (t, {| opened := []; flows := [] |}, []) modules in
  match problems with [] => (t, Ok l) | _ => (drop_libraries l [] t, Err problems) end.

(** [Libraries::modules], [flow]. *)
Definition modules_opened (l : Libraries) : list LoadedModule := opened l ++ (flows l).*2.

Definition flow (l : Libraries) (module_ unit : string) : asks Trace LoadedFlow :=
  match List.find (λ f, String.eqb f.1.1 module_ && String.eqb f.1.2 unit) (flows l) with
  | None => Prelude.refuse ("no module '" +:+ module_ +:+ "' opened holds the unit '" +:+ unit +:+ "'")
  | Some f => flow_of f.2
  end.

(** ** What the header asks: one instance's calls *)

Inductive Phase := Absent | Mapped | Refused | Created (m : Module_) | Configured (m : Module_) | Started (m : Module_)
  | Failed (m : Module_) | Stopped (m : Module_) | Destroyed | Gone.

(** The instance's module while it is one to call, and whether it may be
    destroyed: never one that was started and not stopped, its table
    carrying a stop. *)
Definition stops (m : Module_) : bool := match vtable m with Some v => has_stop (as_contract v) | None => false end.

Definition live (p : Phase) : option Module_ :=
  match p with Created m | Configured m | Started m | Failed m | Stopped m => Some m | _ => None end.

Definition endable (p : Phase) : bool := match p with Started m => negb (stops m) | _ => true end.

Definition next (p : Phase) (c : Call) (s : Z) : option Phase :=
  match c, p with
  | Opens _, Absent => Some Mapped
  | Creates m, Mapped => Some (if (s =? OK)%Z then Created m else Refused)
  | Configures _, Created m => Some (if (s =? OK)%Z then Configured m else Failed m)
  | Starts, Configured m => Some (if (s =? OK)%Z then Started m else Failed m)
  | Stops, Started m => Some (Stopped m)
  | (Loads _ | Validates _ _ | Implies _ _ | Releases _), Started _ => Some p
  | (Declares | Advances _ _), Created _ => Some p
  | SaysError, (Created _ | Failed _ | Stopped _ | Started _) => Some p
  | Destroys, _ =>
      match live p with Some m => if has_destroy m && endable p then Some Destroyed else None | None => None end
  | Unloads, (Mapped | Refused | Destroyed) => Some Gone
  | Unloads, _ =>
      match live p with Some m => if negb (has_destroy m) && endable p then Some Gone else None | None => None end
  | _, _ => None
  end.

Definition lived (i : nat) (p : option Phase) (e : nat * Call * Z) : option Phase :=
  if Nat.eqb e.1.1 i then match p with Some p => next p e.1.2 e.2 | None => None end else p.

(** Where an instance is in its life, where its calls so far keep to it. *)
Definition life (i : nat) (t : Trace) : option Phase := foldl (lived i) (Some Absent) t.

(** ** A node's libraries over its run *)

Record Node := { tr : Trace; libs : option Libraries; out : list LoadedFlow }.

Inductive node_step (n : Node) : Node → Prop :=
  | step_take l module_ unit t f : libs n = Some l → flow l module_ unit (tr n) = (t, Ok f) →
      node_step n {| tr := t; libs := libs n; out := out n ++ [f] |}
  | step_take_refused l module_ unit t why : libs n = Some l → flow l module_ unit (tr n) = (t, Err why) →
      node_step n {| tr := t; libs := libs n; out := out n |}
  | step_turn f bytes fuel t r : f ∈ out n → turn fuel f bytes (tr n) = Some (t, r) →
      node_step n {| tr := t; libs := libs n; out := out n |}
  | step_flow_dropped before f after : out n = before ++ f :: after →
      node_step n {| tr := drop_unit (default [] ((λ l, (flows l).*2) <$> libs n) ++ (f_unit <$> before ++ after)) (f_unit f) (tr n);
                     libs := libs n; out := before ++ after |}
  | step_libraries_dropped l : libs n = Some l →
      node_step n {| tr := drop_libraries l (f_unit <$> out n) (tr n); libs := None; out := out n |}.

(** What a node holds: contracts started, and units. *)
Definition contracts (n : Node) : list LoadedModule := default [] (opened <$> libs n).
Definition units (n : Node) : list LoadedModule := default [] ((λ l, (flows l).*2) <$> libs n) ++ (f_unit <$> out n).

(** ** Where every instance is *)

(** Each instance is where [at_] says, those it does not name let go of. *)
Definition elsewhere (t : Trace) (i : nat) : Phase := if (i <? opens t)%nat then Gone else Absent.

Record phased (t : Trace) (at_ : gmap nat Phase) : Prop := {
  lives_at i : life i t = Some (default (elsewhere t i) (at_ !! i));
  known_at i : is_Some (at_ !! i) → (i < opens t)%nat
}.

Lemma life_snoc i t e : life i (t ++ [e]) = lived i (life i t) e.
Proof. unfold life. by rewrite foldl_app. Qed.

Lemma opens_snoc t e : opens (t ++ [e]) = (opens t + if is_open e then 1 else 0)%nat.
Proof. unfold opens. rewrite count_app, count_cons. simpl. rewrite count_nil. by destruct (is_open e); simpl; lia. Qed.

Lemma phased_call t at_ i c s p p' : phased t at_ → at_ !! i = Some p → next p c s = Some p' →
  is_open (i, c, s) = false → phased (t ++ [(i, c, s)]) (<[i := p']> at_).
Proof.
  intros [Hl Hk] Hi Hn Ho. split.
  - intros j. rewrite life_snoc, Hl. unfold lived, elsewhere. rewrite opens_snoc, Ho, Nat.add_0_r. simpl.
    destruct (Nat.eqb_spec i j) as [<-|Hne]; [by rewrite Hi, lookup_insert_eq|by rewrite lookup_insert_ne].
  - intros j. rewrite opens_snoc, Ho, Nat.add_0_r. destruct (decide (i = j)) as [<-|Hne]; [by intros _; apply Hk|].
    rewrite lookup_insert_ne by done. apply Hk.
Qed.

(** A call that leaves an instance where it is. *)
Lemma phased_stays t at_ i c s p : phased t at_ → at_ !! i = Some p → next p c s = Some p →
  is_open (i, c, s) = false → phased (t ++ [(i, c, s)]) at_.
Proof. intros Ht Hi Hn Ho. rewrite <-(insert_id at_ i p Hi). by eapply phased_call. Qed.

Lemma phased_gone t at_ i : phased t (<[i := Gone]> at_) → phased t (delete i at_).
Proof.
  intros [Hl Hk]. split.
  - intros j. rewrite Hl. unfold elsewhere. destruct (decide (i = j)) as [<-|Hne].
    + rewrite lookup_insert_eq, lookup_delete_eq. simpl. rewrite (proj2 (Nat.ltb_lt _ _)); [done|].
      apply Hk. rewrite lookup_insert_eq. by eexists.
    + by rewrite lookup_insert_ne, lookup_delete_ne.
  - intros j. destruct (decide (i = j)) as [<-|Hne]; [rewrite lookup_delete_eq; by intros []|].
    rewrite lookup_delete_ne by done. intros Hj. apply Hk. by rewrite lookup_insert_ne.
Qed.

Lemma phased_fresh t at_ : phased t at_ → at_ !! opens t = None.
Proof. intros [_ Hk]. destruct (at_ !! opens t) eqn:Hi; [|done]. assert (opens t < opens t)%nat by (apply Hk; by rewrite Hi); lia. Qed.

Lemma phased_opens t at_ path : phased t at_ → phased (void (opens t) (Opens path) t) (<[opens t := Mapped]> at_).
Proof.
  intros Ht. pose proof (phased_fresh _ _ Ht) as Hf. destruct Ht as [Hl Hk]. unfold void. split.
  - intros j. rewrite life_snoc, Hl. unfold lived, elsewhere. rewrite opens_snoc. simpl.
    destruct (Nat.eqb_spec (opens t) j) as [<-|Hne].
    + rewrite Hf, lookup_insert_eq. simpl. by rewrite (proj2 (Nat.ltb_nlt _ _)) by lia.
    + rewrite lookup_insert_ne by done. f_equal. f_equal. destruct (Nat.ltb_spec j (opens t)), (Nat.ltb_spec j (opens t + 1)); lia || done.
  - intros j. rewrite opens_snoc. simpl. destruct (decide (opens t = j)) as [<-|Hne]; [lia|].
    rewrite lookup_insert_ne by done. intros Hj%Hk. lia.
Qed.

(** ** One module *)

Lemma drop_module_gone m t at_ p : phased t at_ → at_ !! lm_id m = Some p → live p = Some (lm_module m) → endable p = true →
  phased (drop_module m t) (delete (lm_id m) at_).
Proof.
  intros Ht Hi Hl He. apply phased_gone. unfold drop_module, void. destruct (has_destroy (lm_module m)) eqn:Hd.
  - rewrite <-(insert_insert_eq at_ (lm_id m) Gone Destroyed). eapply phased_call; [|by rewrite lookup_insert_eq|done|done].
    eapply phased_call; [done|done| |done]. simpl. rewrite Hl, Hd, He. by destruct p.
  - eapply phased_call; [done|done| |done]. simpl. destruct p; simpl in *; try done; injection Hl as ->; by rewrite Hd, ?He.
Qed.

Lemma open_module_phased path expected t at_ t' r : phased t at_ → open_module path expected t = (t', r) →
  match r with
  | Ok m => at_ !! lm_id m = None ∧ phased t' (<[lm_id m := Created (lm_module m)]> at_)
  | Err _ => phased t' at_
  end.
Proof.
  intros Ht. pose proof (phased_fresh _ _ Ht) as Hf. unfold open_module. destruct (library_opened t path); [|by intros [= <- <-]].
  pose proof (phased_opens _ _ path Ht) as Ho. revert Ho. generalize (void (opens t) (Opens path) t). generalize dependent (opens t).
  intros i Hf u Ho. assert (∀ v p, phased v (<[i := p]> at_) → next p Unloads OK = Some Gone → phased (void i Unloads v) at_) as Hun.
  { intros v p Hv Hn. rewrite <-(delete_id at_ i Hf). apply phased_gone. rewrite <-(insert_insert_eq at_ i Gone p).
    eapply phased_call; [done|by rewrite lookup_insert_eq|done|done]. }
  destruct (symbol_found u path); [|intros [= <- <-]; by eapply Hun].
  unfold create, call. set (s := status_of _ _ _). cbn [fst snd]. 
  assert (phased (u ++ [(i, Creates (filled u), s)]) (<[i := if (s =? OK)%Z then Created (filled u) else Refused]> at_)) as Hc.
  { rewrite <-(insert_insert_eq at_ i (if (s =? OK)%Z then _ else _) Mapped). eapply phased_call; [done|by rewrite lookup_insert_eq|done|done]. }
  destruct (s =? OK)%Z; simpl.
  - destruct (accepts _ expected); intros [= <- <-]; simpl; [done|].
    rewrite <-(delete_id at_ i Hf), <-(delete_insert_eq at_ i (Created (filled u))).
    eapply (drop_module_gone {| lm_id := i |}); [done|by rewrite lookup_insert_eq|done|done].
  - intros [= <- <-]. by eapply Hun.
Qed.

(** What a module that can be called says of its error. *)
Definition answers_errors (p : Phase) : Prop := match p with Created _ | Failed _ | Stopped _ | Started _ => True | _ => False end.

Lemma last_error_phased m t at_ p : phased t at_ → at_ !! lm_id m = Some p → answers_errors p → phased (last_error m t).1 at_.
Proof.
  intros Ht Hi Hp. unfold last_error. destruct (has_last_error _); [|done]. simpl. eapply phased_stays; [done|done| |done]. by destruct p.
Qed.

Lemma judge_phased m what s t at_ p : phased t at_ → at_ !! lm_id m = Some p → ((s =? OK)%Z = false → answers_errors p) →
  phased (judge m what s t).1 at_ ∧ is_ok (judge m what s t).2 = (s =? OK)%Z.
Proof.
  intros Ht Hi Hp. unfold judge. destruct (s =? OK)%Z; [done|]. pose proof (last_error_phased m t at_ p Ht Hi (Hp eq_refl)) as Hl.
  destruct (last_error m t) as [t' why]. done.
Qed.

(** A lifecycle call of a table: where it leaves the instance. *)
Lemma lifecycle_phased m what carried c t at_ p t' r : phased t at_ → at_ !! lm_id m = Some p → is_open (lm_id m, c, 0%Z) = false →
  (∀ s, ∃ q, next p c s = Some q ∧ ((s =? OK)%Z = false → answers_errors q)) →
  lifecycle m what carried c t = (t', r) →
  (carried = false ∧ t' = t ∧ is_ok r = false) ∨
  (carried = true ∧ ∃ s q, next p c s = Some q ∧ is_ok r = (s =? OK)%Z ∧ phased t' (<[lm_id m := q]> at_)).
Proof.
  intros Ht Hi Ho Hn. unfold lifecycle. destruct carried; [|intros [= <- <-]; by left]. intros Hr. right. split; [done|].
  unfold call in Hr. set (s := status_of _ _ _) in *. destruct (Hn s) as (q & Hq & Hq'). exists s, q.
  assert (phased (t ++ [(lm_id m, c, s)]) (<[lm_id m := q]> at_)) as Hc by by eapply phased_call.
  destruct (judge_phased m what s _ _ q Hc) as [Hj Hok]; [by rewrite lookup_insert_eq|done|].
  destruct (judge m what s _) as [u r'] eqn:Hjd. simpl in *. injection Hr as <- <-. done.
Qed.

Lemma contract_of_stops m v : contract_of m = Ok v → stops (lm_module m) = has_stop v.
Proof.
  unfold contract_of, stops. destruct (negb _); [done|]. destruct (vtable (lm_module m)) as [w|]; [|done].
  destruct (negb _); [done|]. by intros [= <-].
Qed.

Lemma open_contract_phased path t at_ t' r : phased t at_ → open_contract path t = (t', r) →
  match r with
  | Ok m => at_ !! lm_id m = None ∧ phased t' (<[lm_id m := Started (lm_module m)]> at_) ∧ is_ok (contract_of m) = true
  | Err _ => phased t' at_
  end.
Proof.
  intros Ht. unfold open_contract. destruct (open_module path contract_expected t) as [u [m|why]] eqn:Ho;
    apply (open_module_phased _ _ _ at_) in Ho; [|done| |done]; [|by intros [= <- <-]].
  destruct Ho as [Hf Hu].
  assert (∀ v p, phased v (<[lm_id m := p]> at_) → live p = Some (lm_module m) → endable p = true → phased (drop_module m v) at_) as Hdrop.
  { intros v p Hv Hl He. rewrite <-(delete_id at_ (lm_id m) Hf), <-(delete_insert_eq at_ (lm_id m) p).
    eapply drop_module_gone; [done|by rewrite lookup_insert_eq|done|done]. }
  unfold asks_bind, of_result. destruct (contract_of m) as [v|why] eqn:Hv; [|intros [= <- <-]; by eapply Hdrop].
  unfold configure. destruct (lifecycle m "configure" _ _ u) as [u1 r1] eqn:Hc.
  eapply lifecycle_phased in Hc; [|done|by rewrite lookup_insert_eq|done|intros s; eexists; split; [done|by intros ->]].
  destruct Hc as [(_ & -> & Hr)|(_ & s & q & [= <-] & Hr & Hq)]; [destruct r1; [done|]; intros [= <- <-]; by eapply Hdrop|].
  rewrite insert_insert_eq in Hq. destruct r1 as [[]|why]; simpl in Hr; rewrite <-Hr in Hq; [|intros [= <- <-]; by eapply Hdrop].
  unfold start. destruct (lifecycle m "start" _ _ u1) as [u2 r2] eqn:Hc.
  eapply lifecycle_phased in Hc; [|done|by rewrite lookup_insert_eq|done|intros s'; eexists; split; [done|by intros ->]].
  destruct Hc as [(_ & -> & Hr2)|(_ & s' & q' & [= <-] & Hr2 & Hq2)]; [destruct r2; [done|]; intros [= <- <-]; by eapply Hdrop|].
  rewrite insert_insert_eq in Hq2. destruct r2 as [[]|why]; simpl in Hr2; rewrite <-Hr2 in Hq2; intros [= <- <-];
    [split_and!; [done|done|by rewrite Hv]|by eapply Hdrop].
Qed.

Lemma open_unit_phased m path t at_ t' r : phased t at_ → open_unit m path t = (t', r) →
  match r with
  | Ok (unit, u) => at_ !! lm_id u = None ∧ phased t' (<[lm_id u := Created (lm_module u)]> at_)
  | Err _ => phased t' at_
  end.
Proof.
  intros Ht. unfold open_unit. destruct (open_module path work_process_expected t) as [v [u|why]] eqn:Ho;
    apply (open_module_phased _ _ _ at_) in Ho; [|done| |done]; [|by intros [= <- <-]].
  destruct Ho as [Hf Hu]. case_bool_decide; intros [= <- <-]; [done|].
  rewrite <-(delete_id at_ (lm_id u) Hf), <-(delete_insert_eq at_ (lm_id u) (Created (lm_module u))).
  eapply drop_module_gone; [done|by rewrite lookup_insert_eq|done|done].
Qed.

(** ** What is held *)

(** Contracts, each once, started; units, of one holder or more. *)
Record holding (cs us : list LoadedModule) (at_ : gmap nat Phase) : Prop := {
  held_at i p : at_ !! i = Some p ↔
    (∃ m, m ∈ cs ∧ lm_id m = i ∧ p = Started (lm_module m)) ∨ (∃ m, m ∈ us ∧ lm_id m = i ∧ p = Created (lm_module m));
  once : NoDup (lm_id <$> cs);
  driven m : m ∈ cs → is_ok (contract_of m) = true
}.

Definition keeps (t : Trace) (cs us : list LoadedModule) : Prop := ∃ at_, phased t at_ ∧ holding cs us at_.

Lemma holding_units cs us us' at_ : (∀ m, m ∈ us ↔ m ∈ us') → holding cs us at_ → holding cs us' at_.
Proof. intros Hus [Hh Ho Hd]. split; [|done|done]. intros i p. rewrite Hh. by setoid_rewrite Hus. Qed.

Lemma keeps_units t cs us us' : (∀ m, m ∈ us ↔ m ∈ us') → keeps t cs us → keeps t cs us'.
Proof. intros Hus (at_ & Ht & Hh). exists at_. split; [done|]. by eapply holding_units. Qed.

Lemma holding_started cs us at_ m : holding cs us at_ → m ∈ cs → at_ !! lm_id m = Some (Started (lm_module m)).
Proof. intros [Hh _ _] Hm. apply Hh. left. exists m. done. Qed.

Lemma holding_created cs us at_ m : holding cs us at_ → m ∈ us → at_ !! lm_id m = Some (Created (lm_module m)).
Proof. intros [Hh _ _] Hm. apply Hh. right. exists m. done. Qed.

Lemma holding_contract cs us at_ m : holding cs us at_ → at_ !! lm_id m = None → is_ok (contract_of m) = true →
  holding (cs ++ [m]) us (<[lm_id m := Started (lm_module m)]> at_).
Proof.
  intros Hhh Hf Hm. pose proof Hhh as [Hh Ho Hd]. split.
  - intros i p. rewrite lookup_insert_Some, Hh. setoid_rewrite elem_of_app. setoid_rewrite list_elem_of_singleton. split.
    + intros [[<- <-]|[Hne [(n & Hn & Hr)|Hu]]]; [left; exists m; eauto|left; exists n; eauto|by right].
    + intros [(n & [Hn| ->] & <- & ->)|(n & Hn & <- & ->)]; [right|by left|right];
        (split; [intros Heq; rewrite Heq in Hf; first [rewrite (holding_started _ _ _ n Hhh Hn) in Hf|rewrite (holding_created _ _ _ n Hhh Hn) in Hf]; done|eauto]).
  - rewrite fmap_app, NoDup_app. split_and!; [done| |by apply NoDup_singleton]. intros i (n & -> & Hn)%list_elem_of_fmap Hi.
    simpl in Hi. apply list_elem_of_singleton in Hi. rewrite <-Hi, (holding_started _ _ _ n Hhh Hn) in Hf. done.
  - intros n [Hn|Hn%list_elem_of_singleton]%elem_of_app; [by apply Hd|by subst].
Qed.

Lemma holding_unit cs us at_ m : holding cs us at_ → at_ !! lm_id m = None →
  holding cs (us ++ [m]) (<[lm_id m := Created (lm_module m)]> at_).
Proof.
  intros Hhh Hf. pose proof Hhh as [Hh Ho Hd]. split; [|done|done]. intros i p. rewrite lookup_insert_Some, Hh. setoid_rewrite elem_of_app.
  setoid_rewrite list_elem_of_singleton. split.
  - intros [[<- <-]|[Hne [Hc|(n & Hn & Hr)]]]; [right; exists m; eauto|by left|right; exists n; eauto].
  - intros [(n & Hn & <- & ->)|(n & [Hn| ->] & <- & ->)]; [right|right|by left];
      (split; [intros Heq; rewrite Heq in Hf; first [rewrite (holding_started _ _ _ n Hhh Hn) in Hf|rewrite (holding_created _ _ _ n Hhh Hn) in Hf]; done|eauto]).
Qed.

(** A unit let go of. *)
Lemma keeps_drop_unit t cs us u : keeps t cs (u :: us) → keeps (drop_unit us u t) cs us.
Proof.
  intros (at_ & Ht & Hh). assert (at_ !! lm_id u = Some (Created (lm_module u))) as Hu
    by (apply (held_at _ _ _ Hh); right; exists u; split; [by left|done]).
  unfold drop_unit. case_bool_decide as Hin.
  - exists at_. split; [done|]. destruct Hh as [Hh Ho Hd]. split; [|done|done]. intros i p. rewrite Hh. split.
    + intros [Hc|(n & [->|Hn]%elem_of_cons & <- & ->)]; [by left| |right; by eauto].
      right. apply list_elem_of_fmap in Hin as (k & Hk & Hin). exists k. split_and!; [done|done|].
      assert (at_ !! lm_id k = Some (Created (lm_module k))) as Hk' by (apply Hh; right; exists k; split; [by right|done]).
      rewrite <-Hk, Hu in Hk'. congruence.
    + intros [Hc|(n & Hn & Hr)]; [by left|right; exists n; split; [by right|done]].
  - exists (delete (lm_id u) at_). split; [by eapply drop_module_gone|]. destruct Hh as [Hh Ho Hd]. split; [|done|done].
    intros i p. rewrite lookup_delete_Some, Hh. split.
    + intros [Hne [Hc|(n & [->|Hn]%elem_of_cons & Hr & ->)]]; [by left|done|right; by eauto].
    + intros [(n & Hn & <- & ->)|(n & Hn & <- & ->)].
      * split; [|left; by eauto]. intros Heq. assert (at_ !! lm_id n = Some (Started (lm_module n))) as Hs by (apply Hh; left; by eauto).
        rewrite <-Heq, Hu in Hs. done.
      * split; [|right; exists n; split; [by right|done]]. intros Heq. apply Hin, list_elem_of_fmap. eauto.
Qed.

Lemma keeps_drop_units units out : ∀ t cs, keeps t cs (units ++ out) → keeps (drop_units units out t) cs out.
Proof. induction units as [|u units IH]; intros t cs Hk; simpl; [done|]. by apply IH, keeps_drop_unit. Qed.

(** A contract stopped, and one let go of. *)
Lemma stopped_phased m t at_ : phased t at_ → at_ !! lm_id m = Some (Started (lm_module m)) → is_ok (contract_of m) = true →
  ∃ p, phased (stopped m t) (<[lm_id m := p]> at_) ∧ live p = Some (lm_module m) ∧ endable p = true.
Proof.
  intros Ht Hi Hm. unfold stopped. destruct (contract_of m) as [v|] eqn:Hv; [|done]. apply contract_of_stops in Hv.
  unfold stop. destruct (lifecycle m "stop" _ _ t) as [u r] eqn:Hc. eapply lifecycle_phased in Hc; [|done|done|done|].
  - destruct Hc as [(Hs & -> & _)|(_ & s & q & [= <-] & _ & Hq)]; [|by exists (Stopped (lm_module m))].
    exists (Started (lm_module m)). simpl. by rewrite insert_id, Hv, Hs.
  - intros s. by eexists.
Qed.

(** Steps of the modules of a list, each over one of its own. *)
Lemma over_each (f : LoadedModule → Trace → Trace) (P : LoadedModule → option Phase → Prop) (Q : LoadedModule → option Phase → Prop) :
  (∀ m t at_, phased t at_ → P m (at_ !! lm_id m) →
     ∃ at', phased (f m t) at' ∧ Q m (at' !! lm_id m) ∧ ∀ i, i ≠ lm_id m → at' !! i = at_ !! i) →
  ∀ cs t at_, phased t at_ → NoDup (lm_id <$> cs) → (∀ m, m ∈ cs → P m (at_ !! lm_id m)) →
  ∃ at', phased (foldl (λ t m, f m t) t cs) at' ∧ (∀ m, m ∈ cs → Q m (at' !! lm_id m)) ∧ ∀ i, i ∉ lm_id <$> cs → at' !! i = at_ !! i.
Proof.
  intros Hf cs. induction cs as [|m cs IH]; intros t at_ Ht Hnd HP; simpl; [exists at_; split_and!; [done|by intros m []%elem_of_nil|done]|].
  apply NoDup_cons in Hnd as [Hm Hnd]. destruct (Hf m t at_ Ht (HP m (list_elem_of_here _ _))) as (a1 & Ht1 & HQ & Hs1).
  destruct (IH (f m t) a1 Ht1 Hnd) as (a2 & Ht2 & HQ2 & Hs2).
  { intros n Hn. rewrite Hs1; [by apply HP; right|]. intros Heq. apply Hm. rewrite <-Heq. by apply list_elem_of_fmap_2. }
  exists a2. split_and!; [done| |].
  - intros n [->|Hn]%elem_of_cons; [by rewrite Hs2|by apply HQ2].
  - intros i [Hi Hni]%not_elem_of_cons. by rewrite Hs2, Hs1.
Qed.

Definition started_one (m : LoadedModule) (p : option Phase) : Prop := p = Some (Started (lm_module m)) ∧ is_ok (contract_of m) = true.
Definition ready_one (m : LoadedModule) (p : option Phase) : Prop :=
  ∃ q, p = Some q ∧ live q = Some (lm_module m) ∧ endable q = true.

(** Every contract stopped, then let go of. *)
Lemma keeps_drop_contracts t cs us : keeps t cs us →
  keeps (foldl (λ t m, drop_module m t) (foldl (λ t m, stopped m t) t cs) cs) [] us.
Proof.
  intros (at_ & Ht & Hh). pose proof Hh as [Hat Ho Hd].
  destruct (over_each stopped started_one ready_one) with (cs := cs) (t := t) (at_ := at_) as (a1 & Ht1 & Hr1 & Hs1); [|done|done| |].
  { intros m u a Hu [Hm Hok]. destruct (stopped_phased m u a Hu Hm Hok) as (p & Hp & Hl & He). exists (<[lm_id m := p]> a).
    split_and!; [done|exists p; by rewrite lookup_insert_eq|]. intros i Hi. by rewrite lookup_insert_ne. }
  { intros m Hm. split; [by eapply holding_started|by apply Hd]. }
  destruct (over_each drop_module ready_one (λ _ p, p = None)) with (cs := cs) (t := foldl (λ t m, stopped m t) t cs) (at_ := a1)
    as (a2 & Ht2 & Hr2 & Hs2); [|done|done|done|].
  { intros m u a Hu (q & Hq & Hl & He). exists (delete (lm_id m) a).
    split_and!; [by eapply drop_module_gone|by rewrite lookup_delete_eq|]. intros i Hi. by rewrite lookup_delete_ne. }
  exists a2. split; [done|]. split; [|by constructor|by intros m []%elem_of_nil]. intros i p.
  destruct (decide (i ∈ lm_id <$> cs)) as [(m & -> & Hm)%list_elem_of_fmap|Hi].
  - rewrite Hr2 by done. split; [done|]. intros [(n & []%elem_of_nil & _)|(n & Hn & Hi & ->)].
    pose proof (holding_started _ _ _ m Hh Hm) as Hsm. rewrite <-Hi, (holding_created _ _ _ n Hh Hn) in Hsm. done.
  - rewrite Hs2, Hs1, Hat by done. split; [|intros [(n & []%elem_of_nil & _)|Hu]; by right].
    intros [(n & Hn & <- & ->)|Hu]; [destruct Hi; by apply list_elem_of_fmap_2|by right].
Qed.

Lemma keeps_drop_libraries l out t : keeps t (opened l) ((flows l).*2 ++ out) → keeps (drop_libraries l out t) [] out.
Proof. intros Hk. apply keeps_drop_units. by apply keeps_drop_contracts. Qed.

Lemma keeps_open_one m t l ps t' l' ps' : keeps t (opened l) (flows l).*2 → open_one m (t, l, ps) = (t', l', ps') →
  keeps t' (opened l') (flows l').*2 ∧ (length (modules_opened l') + length ps' = S (length (modules_opened l) + length ps))%nat.
Proof.
  intros (at_ & Ht & Hh). unfold open_one, modules_opened.
  destruct (library m) as [path|why]; [|intros [= <- <- <-]; split; [by exists at_|rewrite !length_app; simpl; lia]].
  case_bool_decide.
  - destruct (open_unit m path t) as [u [[unit n]|why]] eqn:Ho; eapply open_unit_phased in Ho; [|done| |done]; intros [= <- <- <-].
    + destruct Ho as [Hf Hu]. split; [|simpl; rewrite !length_app, !length_fmap, length_app; simpl; lia]. simpl.
      rewrite fmap_app. eexists. split; [done|by apply holding_unit].
    + split; [by exists at_|rewrite !length_app; simpl; lia].
  - destruct (negb _); [intros [= <- <- <-]; split; [by exists at_|rewrite !length_app; simpl; lia]|].
    destruct (open_contract path t) as [u [n|why]] eqn:Ho; eapply open_contract_phased in Ho; [|done| |done]; intros [= <- <- <-].
    + destruct Ho as (Hf & Hu & Hok). split; [|simpl; rewrite !length_app; simpl; lia]. simpl. eexists. split; [done|by apply holding_contract].
    + split; [by exists at_|rewrite !length_app; simpl; lia].
Qed.

Lemma keeps_open_each modules : ∀ t l ps t' l' ps', keeps t (opened l) (flows l).*2 →
  foldl (λ at_ m, open_one m at_) (t, l, ps) modules = (t', l', ps') →
  keeps t' (opened l') (flows l').*2 ∧
  (length (modules_opened l') + length ps' = length modules + (length (modules_opened l) + length ps))%nat.
Proof.
  induction modules as [|m modules IH]; intros t l ps t' l' ps' Hk; cbn [foldl]; [by intros [= <- <- <-]|].
  destruct (open_one m (t, l, ps)) as [[t1 l1] ps1] eqn:Ho. eapply keeps_open_one in Ho as [Hk1 Hl1]; [|done].
  intros Hr. apply IH in Hr as [Hk2 Hl2]; [|done]. split; [done|simpl; lia].
Qed.

(** ** Flows taken and asked *)

Lemma keeps_stays t cs us m c s : keeps t cs us → m ∈ us → (∀ p, p = Created (lm_module m) → next p c s = Some p) →
  is_open (lm_id m, c, s) = false → keeps (t ++ [(lm_id m, c, s)]) cs us.
Proof.
  intros (at_ & Ht & Hh) Hm Hn Ho. exists at_. split; [|done]. eapply phased_stays; [done|by eapply holding_created|by apply Hn|done].
Qed.

Lemma flow_kept l module_ unit t t' r cs us : keeps t cs us → (∀ u, u ∈ (flows l).*2 → u ∈ us) → flow l module_ unit t = (t', r) →
  keeps t' cs us ∧ ∀ f, r = Ok f → f_unit f ∈ (flows l).*2.
Proof.
  intros Hk Hin. unfold flow. destruct (List.find _ _) as [[[mn un] u]|] eqn:Hf; [|by intros [= <- <-]].
  apply find_some in Hf as [Hf _]. apply list_elem_of_In, (list_elem_of_fmap_2 snd) in Hf. simpl in Hf. unfold flow_of, call.
  simpl. destruct (negb _); [by intros [= <- <-]|]. destruct (vtable _) as [v|]; [|by intros [= <- <-]].
  destruct (has_declared _); [|by intros [= <- <-]]. set (s := status_of _ _ _).
  assert (keeps (t ++ [(lm_id u, Declares, s)]) cs us) as Hk' by (eapply keeps_stays; eauto; by intros p ->).
  destruct (declared_lent _ _); [|by intros [= <- <-]]. destruct (s =? OK)%Z; [|by intros [= <- <-]].
  destruct (read_declared _); intros [= <- <-]; split; try done. by intros f [= <-].
Qed.

Lemma turn_in_kept fuel : ∀ f bytes room t t' r cs us, keeps t cs us → f_unit f ∈ us →
  turn_in fuel f bytes room t = Some (t', r) → keeps t' cs us.
Proof.
  induction fuel as [|fuel IH]; intros f bytes room t t' r cs us Hk Hin; [done|]. cbn [turn_in].
  destruct (advanced _ _ _ _) as [w room']. unfold call. set (s := status_of _ _ _). cbn zeta iota.
  assert (keeps (t ++ [(lm_id (f_unit f), Advances bytes (N.of_nat (String.length room')), s)]) cs us) as Hk'
    by (eapply keeps_stays; eauto; by intros p ->).
  destruct (s =? OK)%Z; [by intros [= <- <-]|]. destruct (_ && _); [by eapply IH|]. unfold last_error.
  destruct (has_last_error _); intros [= <- <-]; [|done]. eapply keeps_stays; eauto. by intros p ->.
Qed.

Lemma keeps_step n n' : keeps (tr n) (contracts n) (units n) → node_step n n' → keeps (tr n') (contracts n') (units n').
Proof.
  intros Hk Hs. destruct Hs as [l mn un t f Hl Hf|l mn un t why Hl Hf|f bytes fuel t r Hin Ht|before f after Ho|l Hl]; unfold contracts, units in *; simpl in *.
  - rewrite Hl in *. simpl in *. eapply flow_kept in Hf as [Hk' Hf]; [|done|intros u Hu; apply elem_of_app; by left].
    rewrite fmap_app, assoc by apply _. eapply keeps_units; [|done]. intros m.
    change (f_unit <$> [f]) with [f_unit f]. rewrite (elem_of_app _ [f_unit f]), list_elem_of_singleton. split; [by left|]. intros [?| ->]; [done|]. apply elem_of_app. left. by apply Hf.
  - rewrite Hl in *. simpl in *. eapply flow_kept in Hf as [Hk' _]; [done|done|intros u Hu; apply elem_of_app; by left].
  - unfold turn in Ht. destruct (has_advance _); [|by injection Ht as <- <-]. eapply turn_in_kept; [done| |done].
    apply elem_of_app. right. by apply list_elem_of_fmap_2.
  - apply keeps_drop_unit. eapply keeps_units; [|done]. rewrite Ho. intros m. rewrite !fmap_app, fmap_cons, elem_of_cons, !elem_of_app, elem_of_cons. naive_solver.
  - rewrite Hl in *. simpl in *. by apply keeps_drop_libraries.
Qed.

(** Every library opened was let go of, each instance's calls as the header
    asks. *)
Definition let_go (t : Trace) : Prop := ∀ i, life i t = Some (elsewhere t i).

Lemma let_go_keeps t : let_go t ↔ keeps t [] [].
Proof.
  split.
  - intros Ht. exists ∅. split; split; [by intros i; rewrite lookup_empty|by intros i; rewrite lookup_empty; intros []| |constructor|by intros m []%elem_of_nil].
    intros i p. rewrite lookup_empty. split; [done|]. by intros [(m & []%elem_of_nil & _)|(m & []%elem_of_nil & _)].
  - intros (at_ & [Hl _] & [Hh _ _]) i. rewrite Hl. destruct (at_ !! i) as [p|] eqn:Hp; [|done].
    apply Hh in Hp as [(m & []%elem_of_nil & _)|(m & []%elem_of_nil & _)].
Qed.

(** Where each instance a node has is: a contract it holds serves, a unit it
    or a flow holds is there to ask, and any other is let go of. *)
Definition held_rightly (n : Node) : Prop :=
  (∀ m, m ∈ contracts n → life (lm_id m) (tr n) = Some (Started (lm_module m))) ∧
  (∀ m, m ∈ units n → life (lm_id m) (tr n) = Some (Created (lm_module m))) ∧
  (∀ i, i ∉ lm_id <$> contracts n ++ units n → life i (tr n) = Some (elsewhere (tr n) i)).

Lemma keeps_held n : keeps (tr n) (contracts n) (units n) → held_rightly n.
Proof.
  intros (at_ & [Hl _] & Hh). split_and!.
  - intros m Hm. by rewrite Hl, (holding_started _ _ _ m Hh Hm).
  - intros m Hm. by rewrite Hl, (holding_created _ _ _ m Hh Hm).
  - intros i Hi. rewrite Hl. destruct (at_ !! i) as [p|] eqn:Hp; [|done]. destruct Hi. apply list_elem_of_fmap.
    setoid_rewrite elem_of_app. apply (held_at _ _ _ Hh) in Hp as [(m & Hm & <- & _)|(m & Hm & <- & _)]; eauto.
Qed.

(** C37. However the libraries of a node's Modules answer, what is opened is
    opened as a whole or let go of as a whole: a refusal says why and every
    library opened was let go of; else each Module is held, and while flows
    are taken of it, asked turns and dropped, and the libraries let go at
    any moment of that, every instance's calls are the header's in their
    order — created, configured and started once each, stopped where it was
    started and carries a stop, destroyed once and only then unloaded, and
    called never after — what is held is there to call, and what no one
    holds is gone. *)
Theorem modules_let_go modules t t' r : let_go t → open_all modules t = (t', r) →
  match r with
  | Err problems => problems ≠ [] ∧ let_go t'
  | Ok l =>
      length (modules_opened l) = length modules ∧
      ∀ n, rtc node_step {| tr := t'; libs := Some l; out := [] |} n →
        held_rightly n ∧ (libs n = None → out n = [] → let_go (tr n))
  end.
Proof.
  intros Ht%let_go_keeps. unfold open_all. destruct (foldl _ _ modules) as [[u l] ps] eqn:Hf.
  apply keeps_open_each in Hf as [Hk Hl]; [|done]. destruct ps as [|p ps]; intros [= <- <-].
  - split; [simpl in Hl; lia|]. intros n Hr.
    assert (keeps (tr n) (contracts n) (units n)) as Hn.
    { revert Hr. assert (keeps u (opened l) ((flows l).*2 ++ [])) as Hk' by by rewrite app_nil_r. revert Hk'.
      change u with (tr {| tr := u; libs := Some l; out := [] |}) at 1. 
      change (opened l) with (contracts {| tr := u; libs := Some l; out := [] |}).
      change ((flows l).*2 ++ []) with (units {| tr := u; libs := Some l; out := [] |}).
      generalize ({| tr := u; libs := Some l; out := [] |}) at 1 2 3 4. intros m Hm Hr. induction Hr as [|m k n Hs Hr IH]; [done|].
      apply IH. by eapply keeps_step. }
    split; [by apply keeps_held|]. intros Hlib Hout. apply let_go_keeps. unfold contracts, units in Hn. by rewrite Hlib, Hout in Hn.
  - split; [done|]. apply let_go_keeps. apply keeps_drop_libraries. by rewrite app_nil_r.
Qed.

(** ** A turn's answer *)

(** What header section 13 says of [advance]: the room is written within,
    what it says it wrote is a size; and a unit that answers [a] to a turn
    writes it where it fits, and asks for its room where it does not. *)
Class ForeignLaws : Prop := {
  within_room t i bytes room : String.length (advanced t i bytes room).2 = String.length room;
  a_size t i bytes room : ((advanced t i bytes room).1 < 2 ^ 64)%N
}.

Record answers_with (i : nat) (bytes a : string) : Prop := {
  needed t room : (advanced t i bytes room).1 = N.of_nat (String.length a);
  put t room : (String.length a ≤ String.length room)%nat → substring 0 (String.length a) (advanced t i bytes room).2 = a;
  said t room : status_of t i (Advances bytes room) = if (N.of_nat (String.length a) <=? room)%N then OK else CAPACITY
}.

Lemma zeros_length n : String.length (zeros n) = n.
Proof. induction n; simpl; auto. Qed.

Lemma resized_length room n : (N.of_nat (String.length room) ≤ n)%N → N.of_nat (String.length (resized room n)) = n.
Proof. intros Hn. unfold resized. rewrite append_length, zeros_length. lia. Qed.

Lemma turn_in_ends `{!ForeignLaws} f bytes : ∀ room t, ∃ fuel, is_Some (turn_in fuel f bytes room t).
Proof.
  intros room. remember (N.to_nat (2 ^ 64 - N.of_nat (String.length room))) as k eqn:Hk. revert room Hk.
  induction k as [k IH] using lt_wf_ind. intros room -> t.
  pose proof (within_room t (lm_id (f_unit f)) bytes room) as Hw. pose proof (a_size t (lm_id (f_unit f)) bytes room) as Hs.
  destruct (advanced t (lm_id (f_unit f)) bytes room) as [w room'] eqn:Ha. simpl in Hw, Hs.
  set (c := Advances bytes (N.of_nat (String.length room'))). set (s := status_of t (lm_id (f_unit f)) c).
  destruct ((s =? CAPACITY)%Z && (N.of_nat (String.length room') <? w)%N) eqn:Hc.
  - pose proof Hc as [_ Hlt%N.ltb_lt]%andb_true_iff.
    destruct (IH (N.to_nat (2 ^ 64 - N.of_nat (String.length (resized room' w))))) with (room := resized room' w)
      (t := t ++ [(lm_id (f_unit f), c, s)]) as [fuel Hfuel]; [rewrite resized_length; lia|done|].
    exists (S fuel). cbn [turn_in]. rewrite Ha. unfold call. fold c s. destruct (s =? OK)%Z; [by eexists|]. by rewrite Hc.
  - exists 1. cbn [turn_in]. rewrite Ha. unfold call. fold c s. destruct (s =? OK)%Z; [by eexists|]. rewrite Hc.
    destruct (last_error _ _). by eexists.
Qed.

(** A turn asked of a unit ends, whatever room the unit asks for each
    time; and from a unit that keeps to the header its answer comes back
    whole, the unit asked once where it fits the first room and twice where
    it does not. *)
Theorem turn_answered `{!ForeignLaws} f bytes t :
  (∃ fuel, is_Some (turn fuel f bytes t)) ∧
  ∀ a fuel, has_advance (f_table f) = true → answers_with (lm_id (f_unit f)) bytes a →
    ∃ calls, turn (S (S fuel)) f bytes t = Some (t ++ calls, Ok a) ∧
      length calls = (if (N.of_nat (String.length a) <=? FIRST_ROOM)%N then 1 else 2)%nat.
Proof.
  assert (N.of_nat (String.length (zeros (N.to_nat FIRST_ROOM))) = FIRST_ROOM) as Hz by (rewrite zeros_length; lia).
  split; unfold turn.
  - destruct (has_advance _); [apply turn_in_ends|]. exists 0. by eexists.
  - intros a fuel -> Ha. revert Hz. generalize (zeros (N.to_nat FIRST_ROOM)). intros room Hz.
    destruct Ha as [Hn Hp Hs]. set (i := lm_id (f_unit f)) in *. remember (S fuel) as more. cbn [turn_in]. fold i.
    pose proof (Hn t room) as Hw. pose proof (Hp t room) as Hput. pose proof (within_room t i bytes room) as Hlen.
    destruct (advanced t i bytes room) as [w room'] eqn:Hadv. simpl in Hw, Hput, Hlen. unfold call. rewrite Hs, Hlen, Hz, <-Hw.
    destruct (N.leb_spec w FIRST_ROOM) as [Hle|Hgt].
    + rewrite Z.eqb_refl, Hw, Nat2N.id, Hput by lia. by eexists [_].
    + destruct (Z.eqb_spec CAPACITY OK) as [Heq|_]; [by destruct distinct|]. rewrite Z.eqb_refl.
      rewrite (proj2 (N.ltb_lt _ _)) by lia. cbn [andb]. subst more. cbn [turn_in]. fold i. set (t2 := t ++ _).
      assert (N.of_nat (String.length (resized room' w)) = w) as Hr by (apply resized_length; lia). revert Hr. generalize (resized room' w).
      intros big Hr. pose proof (Hn t2 big) as Hw2. pose proof (Hp t2 big) as Hput2. pose proof (within_room t2 i bytes big) as Hlen2.
      destruct (advanced t2 i bytes big) as [w2 big'] eqn:Hadv2. simpl in Hw2, Hput2, Hlen2. unfold call. rewrite Hs, Hlen2, Hr.
      rewrite (proj2 (N.leb_le _ _)) by lia. rewrite Z.eqb_refl, Hw2, Nat2N.id, Hput2 by lia.
      eexists [_; _]. unfold t2. by rewrite <-app_assoc.
Qed.

End loading.

(** ** Texts and content across *)

(** Valid text is copied as it is. *)
Lemma lossy_utf8 s : Boundary.utf8 s = true → lossy s = s.
Proof.
  remember (String.length s) as n eqn:Hn. revert s Hn. induction n as [n IH] using lt_wf_ind.
  intros [|a r] -> Hs; [done|]. cbn [lossy Boundary.utf8] in *.
  destruct (N_of_ascii a <? 128)%N; [f_equal; apply (IH (String.length r)); simpl; auto with lia|].
  destruct r as [|b r1]; [done|]. destruct (Boundary.within_bytes 194 223 a).
  { apply andb_true_iff in Hs as [-> Hs]. do 2 f_equal. apply (IH (String.length r1)); simpl; auto with lia. }
  destruct r1 as [|c r2]; [done|]. destruct (Boundary.second_of_3 a b).
  { apply andb_true_iff in Hs as [-> Hs]. do 3 f_equal. apply (IH (String.length r2)); simpl; auto with lia. }
  destruct r2 as [|d r3]; [done|]. apply andb_true_iff in Hs as [[[-> ->]%andb_true_iff ->]%andb_true_iff Hs].
  do 4 f_equal. apply (IH (String.length r3)); simpl; auto with lia.
Qed.

(** Reads of a contract's content, one after another, each of a room that is
    there. *)
Fixpoint reads `{AbiStatus} (rooms : list N) (remaining : string) : list string * string :=
  match rooms with
  | [] => ([], remaining)
  | len :: rooms =>
      let '(remaining, r) := read_source (Some 0%N) len remaining in
      let '(l, unread) := reads rooms remaining in (match r with Ok bytes => bytes :: l | Err _ => l end, unread)
  end.

(** A module that reads its content in whatever rooms is handed it in order,
    each read the most its room takes, nothing only once all was read. *)
Lemma content_read `{AbiStatus} rooms content :
  let '(l, unread) := reads rooms content in String.concat "" l +:+ unread = content ∧ Forall2 (λ len bytes, N.of_nat (String.length bytes) ≤ len)%N rooms l.
Proof.
  revert content. induction rooms as [|len rooms IH]; intros content; cbn [reads]; [done|].
  unfold read_source. destruct (reads rooms _) as [l unread] eqn:Hr. specialize (IH (substring (N.to_nat (N.min (N.of_nat (String.length content)) len)) (String.length content - N.to_nat (N.min (N.of_nat (String.length content)) len)) content)).
  rewrite Hr in IH. destruct IH as [IH1 IH2]. set (n := N.to_nat _) in *.
  assert (n ≤ String.length content)%nat as Hn by lia. split.
  - assert (∀ x l, String.concat "" (x :: l) = x +:+ String.concat "" l) as Hc.
    { intros x [|y k]; [|done]. simpl. clear. induction x as [|c x IHx]; [done|]. exact (f_equal (String c) IHx). }
    rewrite Hc, string_app_assoc, IH1. by apply substring_split.
  - constructor; [|done]. rewrite length_substring; lia.
Qed.

(** ** Two Modules opened and let go *)

Module Toy.
#[local] Instance toy_status : AbiStatus := {| OK := 0; CAPACITY := 3; INVALID := 1; distinct := ltac:(done) |}.

Definition table : Vtable :=
  {| as_contract := {| c_trait := (1, 0)%N; has_configure := true; has_start := true; has_stop := true;
       has_load := true; has_validate := true; has_implies := true; has_release := true |};
     as_work_process := {| has_declared := true; has_advance := true |} |}.

Definition a_module (trait : string) : Module_ :=
  {| wire := {| wire_abi_version := 1; wire_provider := Some "p"; wire_module := Some trait; wire_standard := Some "Approval";
       wire_trait := (1, 0)%N; wire_version := (0, 1, 0)%N |}; vtable := Some table; has_destroy := true; has_last_error := true |}.

(** A library of a contract and one of a unit, which answers ["acts"]; a
    third file is none. *)
#[local] Instance toy_foreign : Foreign := {|
  library_opened _ path := if String.eqb path "gone.so" then Err "no such file" else Ok tt;
  symbol_found _ _ := Ok tt;
  filled t := match last t with Some (_, Opens path, _) => a_module (if String.eqb path "unit.so" then WORK_PROCESS else CONTRACT) | _ => a_module "" end;
  status_of _ _ c := match c with Advances _ room => if (4 <=? room)%N then 0%Z else 3%Z | _ => 0%Z end;
  error_said _ _ := None; declared_lent _ _ := Some "Approval"; handle_given _ _ := Some 1%N;
  diagnostics_lent _ _ := None; implied _ _ := None;
  advanced _ _ _ room := (4%N, if Nat.leb 4 (String.length room) then "acts" +:+ zeros (String.length room - 4) else room)
|}.

#[local] Instance toy_crates : Crates := {|
  XMIP_ENTRYPOINT := "xmip_create_module_v1"; Declared := string; declared_name := id; shown := module;
  accepts d e := if String.eqb (module d) e.1.1 then Ok tt else Err "another trait"; read_declared := Ok
|}.

#[local] Instance toy_laws : ForeignLaws.
Proof.
  split; [|by intros]. intros t i bytes room. cbn [advanced toy_foreign snd]. destruct (Nat.leb_spec 4 (String.length room)); [|done].
  rewrite append_length, zeros_length. simpl. lia.
Qed.

Definition configured (name claim path : string) : ModuleConfiguration :=
  {| m_name := name; m_start := true; m_identity := ""; m_capabilities := [{| cap_name := claim; cap_host := ""; cap_trusted := true |}];
     m_symbol := None; m_library_path := Some path; m_executable_path := None |}.

Definition two : list ModuleConfiguration := [configured "orders" "contract:xsd" "orders.so"; configured "approval" WORK_PROCESS "unit.so"].
Definition declares (_ : ModuleConfiguration) : list string := ["Approval"].

Definition open_two : Trace * result Libraries (list string) := open_all declares two [].
Definition two_libraries : Libraries := match open_two.2 with Ok l => l | Err _ => {| opened := []; flows := [] |} end.
Definition a_flow : Trace * result LoadedFlow string := flow two_libraries "approval" "Approval" open_two.1.
Definition the_flow : LoadedFlow :=
  match a_flow.2 with Ok f => f | Err _ => {| f_unit := default {| lm_id := 0; lm_path := ""; lm_descriptor := read_descriptor (wire (a_module "")); lm_module := a_module "" |} (head (flows two_libraries).*2);
    f_table := as_work_process table; f_declared := "" |} end.

(** A flow taken, the libraries let go while it is held, then the flow. *)
Definition after : Node :=
  {| tr := drop_unit [] (f_unit the_flow) (drop_libraries two_libraries [f_unit the_flow] a_flow.1); libs := None; out := [] |}.

Lemma after_run : rtc node_step {| tr := open_two.1; libs := Some two_libraries; out := [] |} after.
Proof.
  eapply rtc_l; [apply (step_take _ two_libraries "approval" "Approval" a_flow.1 the_flow); vm_compute; reflexivity|].
  eapply rtc_l; [apply (step_libraries_dropped _ two_libraries); reflexivity|].
  eapply rtc_l; [apply (step_flow_dropped _ [] the_flow []); reflexivity|]. apply rtc_refl.
Qed.

Lemma modules_let_go_witness :
  (length (modules_opened two_libraries) = 2%nat ∧ life 1 (tr after) = Some Gone) ∧
  let_go (open_all declares (two ++ [configured "gone" "contract" "gone.so"]) []).1.
Proof.
  split.
  - destruct (modules_let_go declares two [] open_two.1 (Ok two_libraries)) as [Hl Hr]; [done|vm_compute; reflexivity|].
    split; [exact Hl|]. destruct (Hr after after_run) as [_ Hg]. exact (Hg eq_refl eq_refl 1%nat).
  - refine (proj2 (modules_let_go declares (two ++ [configured "gone" "contract" "gone.so"]) [] _
      (Err ["the module 'gone': gone.so would not open: no such file"]) _ _)); [done|vm_compute; reflexivity].
Defined.

Lemma turn_answered_witness :
  ∃ calls, turn 2 the_flow "turn" [] = Some ([] ++ calls, Ok "acts") ∧ length calls = 1%nat.
Proof.
  destruct (turn_answered the_flow "turn" []) as [_ Ht].
  destruct (Ht "acts" 0%nat) as (calls & Hc & Hl); [reflexivity| |exists calls; split; [exact Hc|exact Hl]].
  split; [reflexivity| |].
  - intros t room Hroom. cbn [advanced toy_foreign snd]. change (String.length "acts") with 4%nat in *.
    rewrite (proj2 (Nat.leb_le 4 (String.length room)) Hroom). by destruct (zeros _).
  - reflexivity.
Defined.
End Toy.
