(* ===== verification/Planned.v ===== *)
(** * A configuration read, planned and validated for a surface: [src/start.rs], [src/operator.rs], [src/ffi/start.rs]

    Startup phase 1 over files ([read_accepted]: the file, or the slice the
    node accepted last, parsed, with its Applications' sections); the first
    three phases as a surface asks them ([start]), what is published of them
    and what the surface is answered ([start_published]); a document
    validated alone ([validate]); and the publication a process's surfaces
    read ([Operator]). A record is its scope, its standing and its evidence;
    the moment it was observed is left out. Parsing, a cluster's slices, a
    binding's section and how a snapshot is asked for its records are the
    configuration and observe crates'. *)

From Stdlib Require Import Ascii String.
From stdpp Require Import base numbers list gmap strings pretty.
From S2P Require Import Prelude Text Tuning Validated Mood.
From S2P Require Signed Boundary.

Local Open Scope string_scope.
Local Open Scope list_scope.

Definition ROOT : string := "xmip:///".

Definition record (scope : string) (health : Health) (severity : N) (evidence : string) : StageRecord :=
  (scope, (health, severity), evidence).

(** [unconfigured]. *)
Definition unconfigured : list StageRecord :=
  [record ROOT Stressed 50 "runtime loaded, no node started — give xmip_start_v1 a node TOML"].

(** ** What a process publishes: [src/operator.rs] *)

Section operator.
Context {Snapshot : Type} (nothing : Snapshot).

(** [PUBLISHED] and how often [CHANGED] was raised. *)
Record Published := { published : option Snapshot; raised : N }.

(** [Source]: an [Operator]'s, over a snapshot of its own or what is
    published. *)
Inductive Source := Fixed (s : Snapshot) | Live.

(** [publish]. *)
Definition publish (s : Snapshot) (p : Published) : Published := {| published := Some s; raised := raised p + 1 |}.

(** [Operator::snapshot]. *)
Definition snapshot (o : Source) (p : Published) : Snapshot :=
  match o with Fixed s => s | Live => default nothing (published p) end.

(** [Source::mutate]: in place, what another holds of it left as it was. *)
Definition mutate {R} (o : Source) (change : Snapshot → Snapshot * R) (p : Published) : Source * Published * R :=
  match o with
  | Fixed s => let '(s, r) := change s in (Fixed s, p, r)
  | Live => let '(s, r) := change (default nothing (published p)) in (Live, {| published := Some s; raised := raised p |}, r)
  end.

(** A table over what is published reads the last that was, and a change of
    it is what every such table reads; one over its own is unmoved. *)
Lemma tables_read_last {R} s own o (change : Snapshot → Snapshot * R) p :
  snapshot Live (publish s p) = s ∧ snapshot (Fixed own) (publish s p) = own ∧
  (let '(o', p', r) := mutate o change p in
   (snapshot o' p', r) = change (snapshot o p) ∧ (∀ s', o = Fixed s' → snapshot Live p' = snapshot Live p) ∧
   snapshot (Fixed own) p' = own ∧ raised p' = raised p).
Proof.
  split_and!; [done|done|]. destruct o as [s'|]; simpl.
  - destruct (change s') as [s2 r]. by split_and!.
  - destruct (change _) as [s2 r]. by split_and!.
Qed.
End operator.

(** ** Read: startup phase 1 *)

Section planned.
Context {Rest Bound Section_ : Type} `{Signed.Crates} `{!@Configure Rest Bound}.

Abbreviation Document := (@Document Rest).
Abbreviation Tree := (@ExecutionTree Rest Bound).
Abbreviation Files := (gmap string string).

(** The configuration crate's: a text parsed, what a document names, each
    section of an Application and the Application in it. *)
Context (parse_toml : string → result Document string) (PARSE_FAILED : string).
Context (node_name cluster_name : Document → string) (binding_names : Document → list string).
Context (section : Document → string → option Section_) (application : Section_ → result XmipApplication string).
(** What the platform says of a file it cannot read. *)
Context (read_error : string → string).

Record Unread := { u_scope : string; u_reason : string }.
Record ApplicationFile := { af_name : string; af_file : string; af_text : string }.
Abbreviation Read := (Document * list XmipApplication * list ApplicationFile)%type.

(** [service::read_node]. *)
Definition read_node (source : string) : result Document Report :=
  match parse_toml source with
  | Ok d => Ok d
  | Err error => Err {| errors := [PARSE_FAILED +:+ ": " +:+ error]; warnings := [] |}
  end.

Fixpoint results {A B} (f : A → result B string) (l : list A) : result (list B) string :=
  match l with
  | [] => Ok []
  | a :: l => let? b := f a in let? bs := results f l in Ok (b :: bs)
  end.

(** [bound_applications]. *)
Definition bound_application (path source : string) (d : Document) (name : string) : result (XmipApplication * ApplicationFile) string :=
  match section d name with
  | None => Err (path +:+ " binds the Xmip Application '" +:+ name +:+ "' and holds no section of it")
  | Some held => let? app := application held in Ok (app, {| af_name := name; af_file := path; af_text := source |})
  end.

Definition bound_applications (path source : string) (d : Document) : result (list XmipApplication * list ApplicationFile) string :=
  let? all := results (bound_application path source d) (binding_names d) in Ok (all.*1, all.*2).

Definition root (reason : string) : Unread := {| u_scope := ROOT; u_reason := reason |}.

Definition at_root {A} (r : result A string) : result A Unread := match r with Ok a => Ok a | Err why => Err (root why) end.

(** [read_accepted], keeping the slice as the platform does ([kept_]);
    [read] is it without why a file was refused. *)
Definition read_accepted (path : string) (kept_ : result unit string) (files : Files) : Files * result (Read * option string) Unread :=
  match files !! path with
  | None => (files, Err (root ("cannot read " +:+ path +:+ ": " +:+ read_error path)))
  | Some file =>
      let '(files, accepted) := Signed.accepted path file kept_ files in
      (files,
       let? slice := at_root accepted in
       match read_node slice.1 with
       | Err report => Err (root (path +:+ " does not parse: " +:+ String.concat "; " (errors report)))
       | Ok d =>
           match bound_applications path slice.1 d with
           | Err reason => Err {| u_scope := ROOT +:+ node_name d; u_reason := "configuration refused: " +:+ reason |}
           | Ok (apps, read) => Ok ((d, apps, read), slice.2)
           end
       end)
  end.

Definition read (path : string) (kept_ : result unit string) (files : Files) : Files * result Read Unread :=
  let '(files, r) := read_accepted path kept_ files in (files, let? r := r in Ok r.1).

(** ** Planned: [start] *)

(** How many Subscriptions a tree has, and a Module's version. *)
Context (subscriptions_of : Tree → nat) (version_of : ModuleConfiguration → string) (NOT_STARTED : string).

Definition count_of (n : nat) : string := pretty (N.of_nat n).

Definition refused_record (scope evidence : string) : StageRecord := record scope Done 90 evidence.

(** A record of what is planned. *)
Definition planned (scope evidence : string) : StageRecord := record scope Stressed 50 evidence.

Definition node_record (node : string) (tree : Tree) : StageRecord :=
  planned node (count_of (length (modules_to_start tree)) +:+ " module(s), " +:+ count_of (length (work_processes_to_start tree)) +:+
    " process(es), " +:+ count_of (subscriptions_of tree) +:+
    " Subscription(s) validated and planned; not running — a node runs in the program that links its technologies").

Definition module_record (node : string) (m : ModuleConfiguration) : StageRecord :=
  planned (node +:+ "/module/" +:+ m_name m) ("planned, not loaded (" +:+ version_of m +:+ ")").

Definition process_record (node : string) (w : WorkProcessConfiguration) : StageRecord :=
  planned (node +:+ "/process/" +:+ w_name w) ("planned, not started; needs " +:+ String.concat ", " (w_required_modules w)).

Definition stage_record (node stage : string) (l : ConfiguredLocation) : StageRecord :=
  planned (node +:+ "/" +:+ stage +:+ "/" +:+ l_name l) ("planned, not started at " +:+ l_address l).

Definition known_record (node : string) (known : string * string) : StageRecord :=
  record (node +:+ "/" +:+ known.1 +:+ "/" +:+ known.2) Done 0 NOT_STARTED.

(** What a tree planned is recorded as. *)
Definition plan_records (node : string) (tree : Tree) : list StageRecord :=
  node_record node tree ::
  (module_record node <$> modules_to_start tree) ++
  (process_record node <$> work_processes_to_start tree) ++
  (stage_record node "receive" <$> receive_locations_to_start tree) ++
  (stage_record node "send" <$> send_locations_to_start tree) ++
  (known_record node <$> not_started tree).

Definition started_from (r : result Read Unread) : list StageRecord :=
  match r with
  | Err u => [refused_record (u_scope u) (u_reason u)]
  | Ok (d, apps, _) =>
      let node := ROOT +:+ node_name d in
      match build_execution_tree d apps with
      | Err report => [refused_record node ("configuration refused: " +:+ String.concat "; " (errors report))]
      | Ok (tree, _) => plan_records node tree
      end
  end.

Definition start (path : string) (kept_ : result unit string) (files : Files) : Files * list StageRecord :=
  let '(files, r) := read path kept_ files in (files, started_from r).

(** ** What a surface is answered: [start_published], [xmip_start_v1] *)

(** A snapshot's records within a scope, as observe keeps them. *)
Context (health : list StageRecord → string → list StageRecord).

Definition any_done (l : list StageRecord) : bool := existsb (λ r, bool_decide (r.1.2.1 = Done)) (health l ROOT).

Definition start_published (path : string) (kept_ : result unit string) (files : Files) (p : @Published (list StageRecord)) :
    Files * @Published (list StageRecord) * bool :=
  let '(files, snapshot) := start path kept_ files in (files, publish snapshot p, negb (any_done snapshot)).

Definition xmip_start_v1 (mem : Boundary.Memory) (path : Boundary.Str) (kept_ : result unit string) (files : Files)
    (p : @Published (list StageRecord)) : Files * @Published (list StageRecord) * Boundary.Status :=
  match Boundary.scope_text mem path with
  | None => (files, p, Boundary.MALFORMED)
  | Some text => let '(files, p, valid) := start_published text kept_ files p in
                 (files, p, if valid : bool then Boundary.OK else Boundary.INVALID)
  end.

(** ** A document validated alone: [validate], [xmip_validate_v1] *)

Inductive DocumentKind := OfNode | OfCluster.
Context (document_kind : string → DocumentKind) (slices : string → result (list (string * string)) string).

Definition validate_node (source : string) : list string :=
  match read_node source with Ok d => errors (validate_startup_configuration d) | Err report => errors report end.

Definition slice_problems (slice : string * string) : list string :=
  let cluster := match parse_toml slice.2 with Ok d => cluster_name d | Err _ => "" end in
  (λ problem, location cluster slice.1 +:+ ": " +:+ problem) <$> validate_node slice.2.

Definition validate (source : string) : list string :=
  match document_kind source with
  | OfNode => validate_node source
  | OfCluster => match slices source with Ok all => all ≫= slice_problems | Err problem => [problem] end
  end.

(** A new line. *)
Definition LINE : string := String "010" "".

Definition xmip_validate_v1 (mem : Boundary.Memory) (configuration : Boundary.Str) (report cap : N) :
    Boundary.Memory * option N * Boundary.Status :=
  match Boundary.scope_text mem configuration with
  | None => (mem, None, Boundary.MALFORMED)
  | Some text =>
      let problems := validate text in
      let '(mem, len) := Boundary.hand (String.concat LINE problems) report cap mem in
      (mem, Some len, if bool_decide (problems = []) then Boundary.OK else Boundary.INVALID)
  end.

(** ** What holds of them *)

(** Of a snapshot asked for all its records: none it was not told, and the
    last it was told of each scope. *)
Class HealthLaws : Prop := {
  health_told l r : r ∈ health l ROOT → r ∈ l;
  health_last l r k : (∀ r', r' ∈ k → r'.1.1 ≠ r.1.1) → r ∈ health (l ++ r :: k) ROOT
}.

Lemma any_done_iff `{!HealthLaws} l : any_done l = true → ∃ r, r ∈ l ∧ r.1.2.1 = Done.
Proof.
  unfold any_done. rewrite existsb_exists. intros (r & Hr%list_elem_of_In & Hd%bool_decide_eq_true). exists r. split; [by apply health_told|done].
Qed.

Lemma any_done_last `{!HealthLaws} l r : r.1.2.1 = Done → any_done (l ++ [r]) = true.
Proof.
  intros Hd. unfold any_done. apply existsb_exists. exists r. split; [|by apply bool_decide_eq_true].
  apply list_elem_of_In, health_last. by intros r' []%elem_of_nil.
Qed.

Lemma planned_not_done node (tree : Tree) : not_started tree = [] → ∀ r, r ∈ plan_records node tree → r.1.2.1 = Stressed.
Proof.
  intros Hn r. unfold plan_records. rewrite Hn. simpl. rewrite app_nil_r, elem_of_cons, !elem_of_app.
  intros [->|[Hr|[Hr|[Hr|Hr]]]]; [done|..]; by apply list_elem_of_fmap in Hr as (x & -> & _).
Qed.

(** What a node's file is read as, and the tree it is planned as. *)
Definition plans (path : string) (kept_ : result unit string) (files : Files) (d : Document) (tree : Tree) : Prop :=
  ∃ apps read_ report, (read path kept_ files).2 = Ok (d, apps, read_) ∧ build_execution_tree d apps = Ok (tree, report).

(** A surface that starts a node is told the truth of its file: nothing
    is recorded as fine; a file that cannot be read or does not validate is
    one record, its reason the evidence and nothing of it planned; else
    each Module, Work Process and Location the configuration starts has its
    record, planned and not running, and each known and not started its own.
    It is answered that the node validated exactly where it did and every
    Location it names is started. *)
Theorem plan_told `{!HealthLaws} path kept_ files p :
  let '(files', snapshot) := start path kept_ files in
  let '(_, p', valid) := start_published path kept_ files p in
  p' = publish snapshot p ∧ (∀ r, r ∈ snapshot → r.1.2.1 ≠ Fine) ∧
  ((∃ scope why, snapshot = [refused_record scope why] ∧ valid = false ∧ ∀ d tree, ¬ plans path kept_ files d tree) ∨
   (∃ d tree, plans path kept_ files d tree ∧ valid = bool_decide (not_started tree = []) ∧
      let node := ROOT +:+ node_name d in
      (∀ m, m ∈ modules_to_start tree → module_record node m ∈ snapshot) ∧
      (∀ w, w ∈ work_processes_to_start tree → process_record node w ∈ snapshot) ∧
      (∀ l, l ∈ receive_locations_to_start tree → stage_record node "receive" l ∈ snapshot) ∧
      (∀ l, l ∈ send_locations_to_start tree → stage_record node "send" l ∈ snapshot) ∧
      (∀ k, k ∈ not_started tree → known_record node k ∈ snapshot))).
Proof.
  unfold start_published, start, plans. destruct (read path kept_ files) as [files' r]. simpl.
  assert (∀ scope why, ∀ r, r ∈ [refused_record scope why] → r.1.2.1 ≠ Fine) as Href by (intros scope why q ->%list_elem_of_singleton; done).
  assert (∀ scope why, any_done [refused_record scope why] = true) as Hdone by (intros scope why; by apply (any_done_last [])).
  destruct r as [[[d apps] read_]|u]; cbn [started_from].
  - destruct (build_execution_tree d apps) as [[tree report]|report] eqn:Hb.
    + split_and!; [done| |].
      * intros r. unfold plan_records. rewrite elem_of_cons, !elem_of_app.
        intros [->|[Hr|[Hr|[Hr|[Hr|Hr]]]]]; [done|..]; by apply list_elem_of_fmap in Hr as (x & -> & _).
      * right. exists d, tree. split; [by eexists _, _, _|]. split.
        -- case_bool_decide as Hn.
           ++ apply negb_true_iff. destruct (any_done _) eqn:Ha; [|done]. apply any_done_iff in Ha as (r & Hr & Hd).
              by rewrite (planned_not_done _ _ Hn _ Hr) in Hd.
           ++ apply negb_false_iff. destruct (exists_last Hn) as (l & k & Hl). unfold plan_records. rewrite Hl, fmap_app, !app_assoc.
              apply (any_done_last (_ :: _)). done.
        -- cbn zeta. unfold plan_records.
           split_and!; intros x Hx; apply elem_of_cons; right; rewrite !elem_of_app; eauto 10 using list_elem_of_fmap_2.
    + split_and!; [done|by apply Href|]. left. eexists _, _. split; [done|]. split; [by rewrite Hdone|].
      intros d' tree (apps' & read' & report' & [= <- <- <-] & Hb'). congruence.
  - split_and!; [done|by apply Href|]. left. eexists _, _. split; [done|]. split; [by rewrite Hdone|]. by intros d' tree (apps' & read' & report' & ? & _).
Qed.

(** What a surface starts, a surface's validate finds no problem in, whatever
    file of the node's it was read from. *)
Lemma planned_validates path kept_ files d tree : plans path kept_ files d tree →
  ∃ source, parse_toml source = Ok d ∧ validate_node source = [].
Proof.
  intros (apps & read_ & report & Hr & Hb). unfold read, read_accepted in Hr.
  destruct (files !! path) as [file|]; [|done]. destruct (Signed.accepted path file kept_ files) as [files' [[source refused]|why]]; [|done].
  simpl in Hr. unfold read_node in Hr. destruct (parse_toml source) as [d'|] eqn:Hp; [|done].
  destruct (bound_applications path source d') as [[apps' read']|]; [|done]. injection Hr as -> -> ->.
  exists source. split; [done|]. unfold validate_node, read_node. rewrite Hp. unfold build_execution_tree, is_valid in Hb.
  case_bool_decide as Hv; [|done]. exact Hv.
Qed.

(** A cluster's file has no problem just where it is sliced and no slice
    has; and each problem names its node. *)
Lemma cluster_validates source : document_kind source = OfCluster →
  (validate source = [] ↔ ∃ all, slices source = Ok all ∧ ∀ s, s ∈ all → validate_node s.2 = []) ∧
  ∀ all s problem, slices source = Ok all → s ∈ all → problem ∈ validate_node s.2 →
    ∃ cluster, location cluster s.1 +:+ ": " +:+ problem ∈ validate source.
Proof.
  intros Hk. unfold validate. rewrite Hk. split.
  - destruct (slices source) as [all|why]; [|split; [done|by intros (? & ? & _)]]. split.
    + intros Hn. exists all. split; [done|]. intros s Hs. pose proof (mbind_nil _ _ _ Hn Hs) as Hp. by apply fmap_nil_inv in Hp.
    + intros (all' & [= <-] & Ha). clear Hk. induction all as [|s all IH]; [done|]. rewrite bind_cons, IH by (intros; apply Ha; by right).
      unfold slice_problems. by rewrite (Ha s) by left.
  - intros all s problem Hs Hin Hp. rewrite Hs. eexists. apply list_elem_of_bind. exists s. split; [|done].
    apply list_elem_of_fmap. eexists. split; [done|done].
Qed.
End planned.

(** ** A node with a Location known and not started *)

Module Toy.
#[local] Existing Instance Signed.toy_crates.
#[local] Existing Instance plain_configure.

(** Two nodes' slices: all of the one's Locations start; the other's [Off]
    does not. *)
Definition all_start : @Document unit :=
  {| modules := modules orders; work_processes := work_processes orders; receive_locations := [a_location "In" true];
     send_locations := []; applications := []; rest := tt |}.

Definition parse (source : string) : result (@Document unit) string :=
  if String.eqb source "a slice" then Ok all_start else if String.eqb source "b slice" then Ok orders else Err "no TOML".

Definition files (slice : string) : gmap string string := {[ Signed.anchor_place "etc/n" := "pem"; "etc/n" := Signed.signed_as slice ]}.

Definition all_health (l : list StageRecord) (_ : string) : list StageRecord := l.

#[local] Instance all_health_laws : HealthLaws all_health.
Proof. split; [done|]. intros l r k _. apply elem_of_app. right. by left. Qed.

Definition toy_plans (slice : string) : @Document unit → @ExecutionTree unit unit → Prop :=
  plans (Section_ := unit) parse "the document does not parse" (λ _, "n") (λ _, []) (λ _ _, None) (λ _, Err "") (λ _, "missing")
    "etc/n" (Ok tt) (files slice).

Definition toy_published (slice : string) : gmap string string * @Published (list StageRecord) * bool :=
  start_published (Section_ := unit) parse "the document does not parse" (λ _, "n") (λ _, []) (λ _ _, None) (λ _, Err "") (λ _, "missing")
    (λ _, 0%nat) (λ _, "0.1.0") "not started" all_health "etc/n" (Ok tt) (files slice) {| published := None; raised := 0 |}.

Lemma plan_told_witness :
  (toy_published "a slice").2 = true ∧ ∃ d tree, toy_plans "a slice" d tree ∧ not_started tree = [].
Proof.
  pose proof (plan_told (Section_ := unit) parse "the document does not parse" (λ _, "n") (λ _, []) (λ _ _, None) (λ _, Err "")
    (λ _, "missing") (λ _, 0%nat) (λ _, "0.1.0") "not started" all_health "etc/n" (Ok tt) (files "a slice")
    {| published := None; raised := 0 |}) as H.
  assert ((toy_published "a slice").2 = true) as Hv by (vm_compute; reflexivity). split; [exact Hv|].
  unfold toy_published in Hv. destruct (start _ _ _ _ _ _ _ _ _ _ _ _ _) as [f' snapshot] in H.
  destruct (start_published _ _ _ _ _ _ _ _ _ _ _ _ _ _ _) as [[f2 p'] valid]. simpl in Hv. subst valid.
  destruct H as (_ & _ & [(scope & why & _ & [=] & _)|(d & tree & Hp & Hv & _)]). exists d, tree. split; [exact Hp|].
  symmetry in Hv. by apply bool_decide_eq_true in Hv.
Defined.

(** A node whose configuration validates and is planned, one of its
    Locations known and not started: the surface is answered that it did
    not validate. *)
Lemma planned_is_refused : (∃ d tree, toy_plans "b slice" d tree) ∧ (toy_published "b slice").2 = false.
Proof. split; [|vm_compute; reflexivity]. eexists orders, _, [], [], _. split; vm_compute; reflexivity. Qed.
End Toy.
