(* ===== verification/LocalEnd.v ===== *)
(** * A node's local endpoint: [src/plane/local.rs], [src/plane/local/unix.rs]

    Where an endpoint of a name is ([place_in]); whom a node admits to it
    ([named], [admits]); its socket made in its folder ([guarded],
    [acceptor_bind]) and the caller of each connection ([caller]). A file is its owner, its group, its mode and
    whether a node answers on it; users and groups are as the system numbers
    them ([System]), and each of its acts is done or refused. *)

From Stdlib Require Import Ascii String.
From stdpp Require Import base numbers list gmap strings pretty.
From S2P Require Import Prelude Text.

Local Open Scope string_scope.
Local Open Scope list_scope.

(** ** Where it is: [place_in] *)

Fixpoint any_char (f : ascii → bool) (s : string) : bool :=
  match s with EmptyString => false | String a r => f a || any_char f r end.

(** What parts a path, names a drive or ends a name. *)
Definition parts (a : ascii) : bool := Ascii.eqb a "/" || Ascii.eqb a "\" || Ascii.eqb a ":" || Ascii.eqb a "000".

Definition leaves (bare : string) : bool := blank bare || String.eqb bare "." || String.eqb bare ".." || any_char parts bare.

Definition bare_of (folder suffix name : string) : string :=
  match strip_prefix folder name with
  | None => name
  | Some inside => default inside (strip_suffix suffix inside)
  end.

(** [place_in]. *)
Definition place_in (folder suffix name : string) : result string string :=
  let bare := bare_of folder suffix name in
  if leaves bare then
    Err ("the local endpoint " +:+ String "034" name +:+ String "034" " is no name in " +:+ folder +:+ "; it is a name like xmip-node1")
  else Ok (folder +:+ bare +:+ suffix).

Definition WINDOWS_FOLDER : string := "\\.\pipe\".
Definition LINUX_FOLDER : string := "/run/xmip/".
Definition MACOS_FOLDER : string := "/var/run/xmip/".

(** [FOLDER], [SUFFIX] on each system. *)
Inductive Os := Windows | Linux | Macos.
Definition folder_on (os : Os) : string := match os with Windows => WINDOWS_FOLDER | Linux => LINUX_FOLDER | Macos => MACOS_FOLDER end.
Definition suffix_on (os : Os) : string := match os with Windows => "" | _ => ".sock" end.

(** [place]. *)
Definition place (os : Os) (name : string) : result string string := place_in (folder_on os) (suffix_on os) name.

(** ** Whom it admits *)

Class System := {
  user_of_name : string → option N;
  group_of_name : string → option (N * string);
  name_of_user : N → option string;
  group_of : N → option (string * list string)
}.

Section local.
Context `{System}.

(** The source's [Admitted]. *)
Record MayOpen := { users : list N; groups : list N }.

#[export] Instance admitted_eq_dec : EqDecision MayOpen.
Proof. solve_decision. Defined.

Definition nobody : MayOpen := {| users := []; groups := [] |}.

(** Whom [admit] names: [Admitted::named]. *)
Fixpoint named (names : list string) (a : MayOpen) : result MayOpen string :=
  match names with
  | [] => Ok a
  | name :: names =>
      match user_of_name name, group_of_name name with
      | None, None => Err ("the system knows no user or group called " +:+ String "034" name +:+ String "034" "")
      | user, group =>
          named names {| users := users a ++ option_list user; groups := groups a ++ option_list (fst <$> group) |}
      end
  end.

(** [member]: of a group beyond the account's primary one. *)
Definition member (uid gid : N) : bool :=
  match name_of_user uid with
  | None => false
  | Some name => match group_of gid with Some (_, mem) => bool_decide (name ∈ mem) | None => false end
  end.

(** [Admitted::admits]. *)
Definition admits (a : MayOpen) (uid gid node : N) : bool :=
  (uid =? node)%N || (uid =? 0)%N || bool_decide (uid ∈ users a) ||
  existsb (λ group, (group =? gid)%N || member uid group) (groups a).

(** [socket_group]: of a node whose own group is [own]. *)
Definition socket_group (own : N) (name : option string) : result (N * string) string :=
  match name with
  | None => Ok (own, match group_of own with Some g => g.1 | None => "gid " +:+ pretty own end)
  | Some name =>
      match group_of_name name with
      | Some g => Ok g
      | None => Err ("[operate] group: the system knows no group called " +:+ String "034" name +:+ String "034" "")
      end
  end.

(** ** Its socket *)

Record File := { f_uid : N; f_gid : N; f_mode : N; f_listens : bool }.

(** What a process may write, and so connect to: its own, the superuser's
    anything, its groups', and others'. *)
Definition writes (uid : N) (in_group : N → bool) (f : File) : bool :=
  (uid =? 0)%N ||
  (if (uid =? f_uid f)%N then N.testbit (f_mode f) 7
   else if in_group (f_gid f) then N.testbit (f_mode f) 4
   else N.testbit (f_mode f) 1).

(** The node's account, and what the system answers each act with; a socket
    is made as the process's mask lets it ([made_mode]). *)
Record Platform := {
  node : N; node_group : N; node_in : N → bool; made_mode : N;
  removed : result unit string; bound : result unit string; given : result unit string; set_mode : result unit string
}.

Record Admitting := { admit_names : list string; group : option string }.

(** [guarded], of the folder's owner and mode. *)
Definition guarded (folder : string) (found : result (N * N) string) (at_ : Platform) : result unit string :=
  match found with
  | Err error => Err (folder +:+ ": " +:+ error +:+ "; the service manager makes it for the node's account")
  | Ok (uid, mode) =>
      if negb (uid =? node at_)%N && negb (uid =? 0)%N then
        Err (folder +:+ " belongs to uid " +:+ pretty uid +:+ ", not the node's account or the superuser")
      else if negb (N.land mode 18 =? 0)%N then
        Err (folder +:+ " may be written by others; a local endpoint is made only in a folder only its owner writes")
      else Ok tt
  end.

Abbreviation Files := (gmap string File).

Record Acceptor := { a_path : string; a_admitted : MayOpen }.

(** [UnixStream::connect] of a process. *)
Definition connects (uid : N) (in_group : N → bool) (path : string) (files : Files) : bool :=
  match files !! path with Some f => f_listens f && writes uid in_group f | None => false end.

Definition shared (a : MayOpen) : bool := negb (bool_decide (a = nobody)).

Definition done_at (path : string) (r : result unit string) : result unit string :=
  match r with Ok _ => Ok tt | Err e => Err (path +:+ ": " +:+ e) end.

(** The file there before: one answered on is kept, one left behind goes. *)
Definition cleared (path : string) (at_ : Platform) (files : Files) : Files * result unit string :=
  match files !! path with
  | None => (files, Ok tt)
  | Some _ =>
      if connects (node at_) (node_in at_) path files then (files, Err (path +:+ ": another node listens there"))
      else match done_at path (removed at_) with Ok _ => (delete path files, Ok tt) | Err e => (files, Err e) end
  end.

(** The socket made, given its group where it is shared, and its mode. *)
Definition socketed (path : string) (to : option (N * string)) (at_ : Platform) (files : Files) : Files * result unit string :=
  match done_at path (bound at_) with
  | Err e => (files, Err e)
  | Ok _ =>
      let made gid mode := <[path := {| f_uid := node at_; f_gid := gid; f_mode := mode; f_listens := true |}]> files in
      let left gid mode := <[path := {| f_uid := node at_; f_gid := gid; f_mode := mode; f_listens := false |}]> files in
      let gave := match to with
                  | None => Ok (node_group at_)
                  | Some (gid, name) =>
                      match given at_ with
                      | Ok _ => Ok gid
                      | Err error => Err (path +:+ ": the node's account may not give its socket to the group " +:+ String "034" name +:+
                          String "034" ": " +:+ error +:+ "; it must be a member of the group [operate] group names")
                      end
                  end in
      match gave with
      | Err e => (left (node_group at_) (made_mode at_), Err e)
      | Ok gid =>
          match done_at path (set_mode at_) with
          | Err e => (left gid (made_mode at_), Err e)
          | Ok _ => (made gid (match to with Some _ => 432 | None => 384 end)%N, Ok tt)
          end
      end
  end.

(** [Acceptor::bind]. *)
Definition acceptor_bind (path folder : string) (found : result (N * N) string) (who : Admitting) (at_ : Platform) (files : Files) :
    Files * result Acceptor string :=
  match named (admit_names who) nobody with
  | Err e => (files, Err e)
  | Ok admitted =>
      match (if shared admitted then let? g := socket_group (node_group at_) (group who) in Ok (Some g) else Ok None) with
      | Err e => (files, Err e)
      | Ok to =>
          match guarded folder found at_ with
          | Err e => (files, Err e)
          | Ok _ =>
              match cleared path at_ files with
              | (files, Err e) => (files, Err e)
              | (files, Ok _) =>
                  match socketed path to at_ files with
                  | (files, Err e) => (files, Err e)
                  | (files, Ok _) => (files, Ok {| a_path := path; a_admitted := admitted |})
                  end
              end
          end
      end
  end.

(** [Acceptor::drop]. *)
Definition acceptor_drop (a : Acceptor) (at_ : Platform) (files : Files) : Files :=
  match removed at_ with Ok _ => delete (a_path a) files | Err _ => files end.

(** [named] of an account. *)
Definition account (uid : N) : string := default ("uid " +:+ pretty uid) (name_of_user uid).

(** [running_as]. *)
Definition running_as (at_ : Platform) : result string string := Ok (account (node at_)).

(** [Stream::caller], of the account the kernel says connected. *)
Definition caller (admitted : option MayOpen) (peer : result (N * N) string) (at_ : Platform) : result string string :=
  match peer with
  | Err error => Err ("the caller is not known: " +:+ error)
  | Ok (uid, gid) =>
      if match admitted with Some a => admits a uid gid (node at_) | None => false end then Ok (account uid)
      else Err ("REFUSED. " +:+ account uid +:+
        " is not admitted to this node's local endpoint: [operate] admit names who may open it beside the node's account")
  end.

(** ** Whom a name admits *)

(** An account a name of [admit] is the user of, or whose group it is. *)
Definition admitted_by (names : list string) (uid gid : N) : Prop :=
  ∃ name, name ∈ names ∧ (user_of_name name = Some uid ∨ ∃ g, fst <$> group_of_name name = Some g ∧ (g = gid ∨ member uid g = true)).

Lemma told_by {A} (f : string → option A) l name names x :
  x ∈ l ++ option_list (f name) ∨ (∃ n, n ∈ names ∧ f n = Some x) ↔ x ∈ l ∨ ∃ n, n ∈ name :: names ∧ f n = Some x.
Proof.
  rewrite elem_of_app. setoid_rewrite elem_of_cons.
  assert (x ∈ option_list (f name) ↔ f name = Some x) as -> by
    (destruct (f name) as [y|]; simpl; [rewrite list_elem_of_singleton; split; [by intros ->|by intros [= ->]]|rewrite elem_of_nil; split; done]).
  naive_solver.
Qed.

Lemma named_members names : ∀ a b, named names a = Ok b →
  (∀ uid, uid ∈ users b ↔ uid ∈ users a ∨ ∃ name, name ∈ names ∧ user_of_name name = Some uid) ∧
  (∀ g, g ∈ groups b ↔ g ∈ groups a ∨ ∃ name, name ∈ names ∧ fst <$> group_of_name name = Some g).
Proof.
  induction names as [|name names IH]; intros a b; cbn [named].
  - intros [= <-]. split; intros x; (split; [by left|]); by intros [?|(n & []%elem_of_nil & _)].
  - intros Hn. assert (named names {| users := users a ++ option_list (user_of_name name); groups := groups a ++ option_list (fst <$> group_of_name name) |} = Ok b) as Hn'
      by (destruct (user_of_name name), (group_of_name name); done).
    apply IH in Hn' as [Hu Hg]. split; intros x; [rewrite Hu|rewrite Hg].
    + apply (told_by user_of_name).
    + apply (told_by (λ n, fst <$> group_of_name n)).
Qed.

Lemma admits_iff names a uid gid at_ : named names nobody = Ok a →
  admits a uid gid at_ = true ↔ uid = at_ ∨ uid = 0%N ∨ admitted_by names uid gid.
Proof.
  intros Hn. apply named_members in Hn as [Hu Hg]. unfold admits, admitted_by.
  rewrite !orb_true_iff, !N.eqb_eq, bool_decide_eq_true, existsb_exists, Hu. setoid_rewrite <-list_elem_of_In. setoid_rewrite Hg.
  setoid_rewrite orb_true_iff. setoid_rewrite N.eqb_eq. simpl. setoid_rewrite elem_of_nil. naive_solver.
Qed.

Lemma shared_none names a : named names nobody = Ok a → shared a = false ↔ names = [].
Proof.
  unfold shared. destruct names as [|name names]; cbn [named]; [by intros [= <-]|]. intros Hn.
  assert (is_Some (user_of_name name) ∨ is_Some (group_of_name name)) as Hk by (destruct (user_of_name name), (group_of_name name); eauto; done).
  split; [|done]. intros Hs%negb_false_iff%bool_decide_eq_true. subst a.
  destruct (named_members (name :: names) nobody nobody Hn) as [Hu Hg]. destruct Hk as [[u Hk]|[[g gn] Hk]]; exfalso.
  - eapply (elem_of_nil u). apply Hu. right. exists name. split; [by left|done].
  - eapply (elem_of_nil g). apply Hg. right. exists name. rewrite Hk. split; [by left|done].
Qed.

Lemma unwritten mode : N.land mode 18 = 0%N → N.testbit mode 4 = false ∧ N.testbit mode 1 = false.
Proof.
  intros Hm. split; [pose proof (f_equal (λ n, N.testbit n 4) Hm) as Hb|pose proof (f_equal (λ n, N.testbit n 1) Hm) as Hb];
    cbn beta in Hb; rewrite N.land_spec in Hb; [change (N.testbit 18 4) with true in Hb|change (N.testbit 18 1) with true in Hb];
    by rewrite andb_true_r, N.bits_0 in Hb.
Qed.

Lemma guarded_folder folder found at_ : guarded folder found at_ = Ok tt →
  ∃ uid mode, found = Ok (uid, mode) ∧ (uid = node at_ ∨ uid = 0%N) ∧ N.testbit mode 4 = false ∧ N.testbit mode 1 = false.
Proof.
  unfold guarded. destruct found as [[uid mode]|]; [|done].
  destruct (N.eqb_spec uid (node at_)), (N.eqb_spec uid 0); simpl; try done;
    (destruct (N.eqb_spec (N.land mode 18) 0) as [Hm|]; [|done]); intros _; apply unwritten in Hm; eauto 6.
Qed.

Lemma cleared_kept path at_ files files' : cleared path at_ files = (files', Ok tt) →
  connects (node at_) (node_in at_) path files = false ∧ ∀ other, other ≠ path → files' !! other = files !! other.
Proof.
  unfold cleared. destruct (files !! path) as [f|] eqn:Hf.
  - destruct (connects _ _ _ _); [done|]. destruct (done_at _ _); [|done]. intros [= <-]. split; [done|].
    intros other Ho. by rewrite lookup_delete_ne.
  - intros [= <-]. unfold connects. by rewrite Hf.
Qed.

Lemma socketed_made path to at_ files files' : socketed path to at_ files = (files', Ok tt) →
  ∃ gid, (∀ g name, to = Some (g, name) → g = gid) ∧
    files' = <[path := {| f_uid := node at_; f_gid := gid; f_mode := (match to with Some _ => 432 | None => 384 end)%N; f_listens := true |}]> files.
Proof.
  unfold socketed. destruct (done_at path (bound at_)); [|done]. destruct to as [[g name]|].
  - destruct (given at_); [|done]. destruct (done_at path (set_mode at_)); [|done]. intros [= <-]. exists g. split; [by intros ?? [= <-]|done].
  - destruct (done_at path (set_mode at_)); [|done]. intros [= <-]. eexists. split; [done|done].
Qed.

(** C38. A node's local endpoint, once made, lies in a folder only its
    owner, the node's account or the superuser, writes; no node answered
    there, and nothing else in the files changed; and whose call is answered
    on it — that the file system lets connect and the kernel's word admits —
    is the node's account, the superuser, or one whom [admit] names and
    whose process is of the socket's group, which is the group named, or
    the node's own; and every such one is. Where no one is named, no one
    else even connects. *)
Theorem endpoint_opens_for path folder found who at_ files files' a :
  acceptor_bind path folder found who at_ files = (files', Ok a) →
  (∃ uid mode, found = Ok (uid, mode) ∧ (uid = node at_ ∨ uid = 0%N) ∧ N.testbit mode 4 = false ∧ N.testbit mode 1 = false) ∧
  connects (node at_) (node_in at_) path files = false ∧ (∀ other, other ≠ path → files' !! other = files !! other) ∧
  ∃ gid, (admit_names who ≠ [] → ∃ name, socket_group (node_group at_) (group who) = Ok (gid, name)) ∧
    ∀ uid primary in_group,
      (connects uid in_group path files' && is_ok (caller (Some (a_admitted a)) (Ok (uid, primary)) at_) = true ↔
       uid = node at_ ∨ uid = 0%N ∨ (admitted_by (admit_names who) uid primary ∧ in_group gid = true)) ∧
      (admit_names who = [] → connects uid in_group path files' = true → uid = node at_ ∨ uid = 0%N).
Proof.
  unfold acceptor_bind. destruct (named (admit_names who) nobody) as [admitted|] eqn:Hn; [|done].
  destruct (if shared admitted then _ else _) as [to|] eqn:Hto; [|done].
  destruct (guarded folder found at_) as [[]|] eqn:Hg; [|done].
  destruct (cleared path at_ files) as [files1 [[]|]] eqn:Hc; [|done].
  destruct (socketed path to at_ files1) as [files2 [[]|]] eqn:Hs; [|done]. intros [= <- <-]. simpl.
  apply guarded_folder in Hg. apply cleared_kept in Hc as [Hc1 Hc2]. apply socketed_made in Hs as (gid & Hgid & Hs).
  split_and!; [done|done|intros other Ho; rewrite Hs, lookup_insert_ne by done; by apply Hc2|].
  exists gid. split.
  { intros Hne. destruct (shared admitted) eqn:Hsh; [|by apply (shared_none _ _ Hn) in Hsh].
    destruct (socket_group _ _) as [[g name]|]; [|done]. injection Hto as <-. exists name. by rewrite <-(Hgid g name). }
  intros uid primary in_group. unfold connects, caller. rewrite Hs, lookup_insert_eq. simpl.
  assert (to = None ↔ admit_names who = []) as Hnone.
  { rewrite <-(shared_none _ _ Hn). destruct (shared admitted); [|injection Hto as <-; done].
    destruct (socket_group _ _); [|done]. injection Hto as <-. done. }
  unfold writes. simpl. split.
  - rewrite andb_true_iff. destruct (admits admitted uid primary (node at_)) eqn:Ha; simpl.
    + apply (admits_iff _ _ _ _ _ Hn) in Ha. destruct (N.eqb_spec uid 0) as [->|Hz]; simpl; [naive_solver|].
      destruct (N.eqb_spec uid (node at_)) as [->|Hne]; [destruct to; naive_solver|].
      destruct (in_group gid) eqn:Hig; destruct to as [[g name]|]; simpl; try naive_solver.
      assert (admit_names who = []) as He by by apply Hnone. rewrite He in Ha. unfold admitted_by in Ha. set_solver.
    + split; [by intros [_ [=]]|]. intros Hw. assert (admits admitted uid primary (node at_) = true) as Ha'; [|congruence].
      apply (admits_iff _ _ _ _ _ Hn). naive_solver.
  - intros He%Hnone. subst to. destruct (N.eqb_spec uid 0) as [->|Hz]; simpl; [by right|].
    destruct (N.eqb_spec uid (node at_)) as [->|Hne]; [by left|]. by destruct (in_group gid).
Qed.
End local.

(** ** A name's place *)

(** An endpoint's place is one name in its folder, and the same place where
    it is named by it: a surface connects where the node binds. *)
Lemma placed_in_folder folder suffix name p : place_in folder suffix name = Ok p →
  ∃ bare, p = folder +:+ bare +:+ suffix ∧ blank bare = false ∧ bare ≠ "." ∧ bare ≠ ".." ∧ any_char parts bare = false ∧
    place_in folder suffix p = Ok p.
Proof.
  unfold place_in. destruct (leaves (bare_of folder suffix name)) eqn:Hl; [done|]. intros [= <-].
  remember (bare_of folder suffix name) as bare. exists bare. pose proof Hl as Hl'.
  unfold leaves in Hl. rewrite !orb_false_iff, !String.eqb_neq in Hl. destruct Hl as [[[Hb H1] H2] Hp]. split_and!; [done..|].
  assert (bare_of folder suffix (folder +:+ bare +:+ suffix) = bare) as ->; [|by rewrite Hl'].
  unfold bare_of. by rewrite strip_prefix_app, strip_suffix_app.
Qed.

(** ** A node of one named account *)

Module Toy.
#[local] Instance toy_system : System :=
  {| user_of_name n := if String.eqb n "ann" then Some 1001%N else None;
     group_of_name n := if String.eqb n "ops" then Some (2000%N, "ops") else None;
     name_of_user u := if (u =? 1001)%N then Some "ann" else if (u =? 1002)%N then Some "bob" else None;
     group_of g := if (g =? 2000)%N then Some ("ops", ["bob"]) else None |}.

Definition a_node : Platform :=
  {| node := 900; node_group := 900; node_in g := (g =? 900)%N; made_mode := 493; removed := Ok tt; bound := Ok tt; given := Ok tt; set_mode := Ok tt |}.

Definition made (names : list string) : (gmap string File) * result Acceptor string :=
  acceptor_bind "/run/xmip/n.sock" "/run/xmip" (Ok (900, 493)%N) {| admit_names := names; group := Some "ops" |} a_node ∅.

Definition the_acceptor (names : list string) : Acceptor :=
  match (made names).2 with Ok a => a | Err _ => {| a_path := ""; a_admitted := nobody |} end.

(** The socket is the group [ops]'s: [bob], a member, is answered where
    [ops] is admitted; [ann], admitted and of no such group, does not
    connect. *)
Lemma endpoint_opens_for_witness :
  connects 1002 (λ g, (g =? 2000)%N) "/run/xmip/n.sock" (made ["ann"; "ops"]).1 &&
    is_ok (caller (Some (a_admitted (the_acceptor ["ann"; "ops"]))) (Ok (1002, 1002)%N) a_node) = true ∧
  connects 1001 (λ g, (g =? 1001)%N) "/run/xmip/n.sock" (made ["ann"; "ops"]).1 = false.
Proof.
  destruct (endpoint_opens_for "/run/xmip/n.sock" "/run/xmip" (Ok (900, 493)%N) {| admit_names := ["ann"; "ops"]; group := Some "ops" |} a_node ∅
    (made ["ann"; "ops"]).1 (the_acceptor ["ann"; "ops"])) as (_ & _ & _ & gid & Hg & Ha); [vm_compute; reflexivity|].
  destruct Hg as (name & Hg); [discriminate|]. simpl in Hg. injection Hg as <- _. split; [|vm_compute; reflexivity].
  apply Ha. right. right. split; [|reflexivity]. exists "ops". split; [apply elem_of_cons; right; by left|].
  right. exists 2000%N. split; [reflexivity|]. right. vm_compute. reflexivity.
Defined.

Example places : place Linux "xmip-n1" = Ok "/run/xmip/xmip-n1.sock" ∧ place Linux "/run/xmip/xmip-n1.sock" = Ok "/run/xmip/xmip-n1.sock" ∧
  is_ok (place Linux "../etc/x") = false ∧ place Windows "\\.\pipe\xmip-n1" = Ok "\\.\pipe\xmip-n1".
Proof. vm_compute. by split_and!. Qed.
End Toy.
