(* ===== verification/Listening.v ===== *)
(** * A node's operate listeners: [src/plane/listener.rs], [src/running/operate.rs]

    One listener's accepting thread, the connections its threads answer and
    its stop, interleaved ([listener_step]); and the listeners a node's
    configuration names, all started or none ([operate]). What a connection
    is answered is [Served]'s, the threads are [Workers]'; sockets,
    certificates and the knock that wakes the accepting thread are the
    platform's and other crates'. *)

From Stdlib Require Import Ascii String.
From stdpp Require Import base numbers list strings relations.
From S2P Require Import Prelude Role.
From S2P Require Registration LocalEnd.

Local Open Scope string_scope.
Local Open Scope list_scope.

(** ** One listener *)

(** The accepting thread: waiting for a connection; with one taken, or a
    failed accept, to look at the stop; past it with a connection; ended. *)
Inductive Accepting := Waits | Took (connected : bool) | Answers | Ended.

(** The stop: never; raised; every wait woken; the accepting thread heard;
    the connections taken, those left to end; all done. *)
Inductive Stop := Serving | Raised | Woken | Heard | Ending (left_ : list nat) | Stopped.

(** [Served] and [Serve::stopping]; beside them each connection answered, by
    number, while it is and once it ended, and those the stop left. *)
Record Listener := {
  stopping : bool;
  accepting : Accepting;
  connections : list nat;
  answering : list nat;
  ended : list nat;
  accepted : nat;
  stop : Stop;
  overdue : list nat
}.

(** [Listener::begin]. *)
Definition begun : Listener :=
  {| stopping := false; accepting := Waits; connections := []; answering := []; ended := []; accepted := 0; stop := Serving; overdue := [] |}.

Definition with_accepting (a : Accepting) (l : Listener) : Listener :=
  {| stopping := stopping l; accepting := a; connections := connections l; answering := answering l; ended := ended l;
     accepted := accepted l; stop := stop l; overdue := overdue l |}.

(** The accepting thread's look: [serve.stopped()], then its accept's
    answer. *)
Definition looked (connected : bool) (l : Listener) : Listener :=
  with_accepting (if stopping l then Ended else if connected then Answers else Waits) l.

(** Those not done: [connections.retain]. *)
Definition retained (l : Listener) : list nat := List.filter (λ c, negb (bool_decide (c ∈ ended l))) (connections l).

(** [answered]: kept where a thread answers it. *)
Definition answered (runs : bool) (l : Listener) : Listener :=
  {| stopping := stopping l; accepting := Waits;
     connections := retained l ++ if runs then [accepted l] else [];
     answering := answering l ++ if runs then [accepted l] else [];
     ended := ended l; accepted := S (accepted l); stop := stop l; overdue := overdue l |}.

(** A connection's work is over: its [done] stored. *)
Definition over (c : nat) (l : Listener) : Listener :=
  {| stopping := stopping l; accepting := accepting l; connections := connections l;
     answering := List.filter (λ x, negb (Nat.eqb x c)) (answering l); ended := ended l ++ [c];
     accepted := accepted l; stop := stop l; overdue := overdue l |}.

Definition with_stop (s : Stop) (kept : list nat) (late : list nat) (l : Listener) : Listener :=
  {| stopping := true; accepting := accepting l; connections := kept; answering := answering l; ended := ended l;
     accepted := accepted l; stop := s; overdue := overdue l ++ late |}.

(** Where [gives_up], the knocking ends unheard. *)
Inductive listener_step (gives_up : bool) (l : Listener) : Listener → Prop :=
  | step_accepts connected : accepting l = Waits → listener_step gives_up l (with_accepting (Took connected) l)
  | step_looks connected : accepting l = Took connected → listener_step gives_up l (looked connected l)
  | step_answers runs : accepting l = Answers → listener_step gives_up l (answered runs l)
  | step_over c : c ∈ answering l → listener_step gives_up l (over c l)
  (* [Listener::stop] *)
  | step_raise : stop l = Serving → listener_step gives_up l (with_stop Raised (connections l) [] l)
  | step_wake : stop l = Raised → listener_step gives_up l (with_stop Woken (connections l) [] l)
  | step_heard : stop l = Woken → accepting l = Ended → listener_step gives_up l (with_stop Heard (connections l) [] l)
  | step_unheard : gives_up = true → stop l = Woken → listener_step gives_up l (with_stop Heard (connections l) [] l)
  | step_take : stop l = Heard → listener_step gives_up l (with_stop (Ending (connections l)) [] [] l)
  | step_ended c rest : stop l = Ending (c :: rest) → c ∈ ended l → listener_step gives_up l (with_stop (Ending rest) (connections l) [] l)
  | step_late c rest : stop l = Ending (c :: rest) → listener_step gives_up l (with_stop (Ending rest) (connections l) [c] l)
  | step_stopped : stop l = Ending [] → listener_step gives_up l (with_stop Stopped (connections l) [] l).

(** Whether the stop has heard the accepting thread end. *)
Definition heard (l : Listener) : bool := match stop l with Heard | Ending _ | Stopped => true | _ => false end.

(** Those the stop has taken and not gone past. *)
Definition waited (l : Listener) : list nat := match stop l with Ending rest => rest | _ => [] end.

Definition took (l : Listener) : bool := match stop l with Ending _ | Stopped => true | _ => false end.

Record accounted (l : Listener) : Prop := {
  told : stop l ≠ Serving → stopping l = true;
  serving : stop l = Serving → stopping l = false;
  joined : heard l = true → accepting l = Ended;
  ends_told : accepting l = Ended → stopping l = true;
  none_missed c : c ∈ answering l → c ∈ connections l ∨ c ∈ waited l ∨ c ∈ overdue l;
  fresh c : c ∈ answering l ∨ c ∈ ended l → c < accepted l;
  emptied : took l = true → connections l = [];
  once c : c ∈ answering l → c ∉ ended l
}.

Lemma accounted_begun : accounted begun.
Proof.
  split; simpl; try done; intros c; [by intros ?%elem_of_nil|by intros [?%elem_of_nil|?%elem_of_nil]|by intros ?%elem_of_nil].
Qed.

Lemma retained_elem l c : c ∈ retained l ↔ c ∈ connections l ∧ c ∉ ended l.
Proof.
  unfold retained. rewrite !list_elem_of_In, filter_In, <-!list_elem_of_In, negb_true_iff, bool_decide_eq_false. done.
Qed.

Lemma over_elem l c x : x ∈ answering (over c l) ↔ x ∈ answering l ∧ x ≠ c.
Proof. simpl. rewrite !list_elem_of_In, filter_In, negb_true_iff, Nat.eqb_neq, <-list_elem_of_In. done. Qed.

Lemma accounted_answered runs l : accounted l → accepting l = Answers → accounted (answered runs l).
Proof.
  intros [Ht Hs Hj He Hn Hf Hm Ho] Ha. split; simpl; try done.
  - intros Hh. rewrite (Hj Hh) in Ha. done.
  - intros c [Hc|Hc]%elem_of_app.
    + destruct (Hn c Hc) as [?|?]; [|by right]. left. apply elem_of_app. left. apply retained_elem. split; [done|by apply Ho].
    + left. apply elem_of_app. by right.
  - intros c [[Hc|Hc]%elem_of_app|Hc].
    + specialize (Hf c (or_introl Hc)). lia.
    + destruct runs; [|by apply elem_of_nil in Hc]. apply list_elem_of_singleton in Hc. lia.
    + specialize (Hf c (or_intror Hc)). lia.
  - intros Htk. assert (heard l = true) as Hh by (unfold took, heard in *; simpl in *; by destruct (stop l)). rewrite (Hj Hh) in Ha. done.
  - intros c [Hc|Hc]%elem_of_app; [by apply Ho|]. destruct runs; [|by apply elem_of_nil in Hc]. apply list_elem_of_singleton in Hc as ->.
    intros Hc. specialize (Hf _ (or_intror Hc)). lia.
Qed.

Lemma accounted_over c l : accounted l → c ∈ answering l → accounted (over c l).
Proof.
  intros [Ht Hs Hj He Hn Hf Hm Ho] Hc. split; try done.
  - intros x [Hx _]%over_elem. by apply Hn.
  - intros x. simpl. intros [[Hx _]%(over_elem l c)|[Hx|Hx%list_elem_of_singleton]%elem_of_app]; apply Hf; subst; auto.
  - intros x [Hx Hne]%over_elem. simpl. intros [?|?%list_elem_of_singleton]%elem_of_app; [by apply (Ho x)|done].
Qed.

(** The stop's own step: what is kept, waited for and overdue accounts for
    what is answered. *)
Lemma accounted_stop s kept late l : accounted l → s ≠ Serving →
  (heard (with_stop s kept late l) = true → accepting l = Ended) →
  (∀ c, c ∈ answering l → c ∈ kept ∨ c ∈ waited (with_stop s kept late l) ∨ c ∈ overdue l ++ late) →
  (took (with_stop s kept late l) = true → kept = []) → accounted (with_stop s kept late l).
Proof. intros [Ht Hs Hj He Hn Hf Hm Ho] Hne Hh Hc Hk. by split. Qed.

Lemma accounted_step l l' : accounted l → listener_step false l l' → accounted l'.
Proof.
  intros Ha Hs. pose proof Ha as [Ht Hsv Hj He Hn Hf Hm Ho].
  destruct Hs as [connected Hac|connected Hac|runs Hac|c Hc|Hst|Hst|Hst Hac|Hg Hst|Hst|c rest Hst Hc|c rest Hst|Hst]; try done;
    try (unfold heard, waited, took in *; rewrite Hst in * ).
  - split; try done; simpl; try (intros Hh; rewrite (Hj Hh) in Hac; done).
  - split; try done; simpl; try (intros Hh; rewrite (Hj Hh) in Hac; done). destruct (stopping l); [done|by destruct connected].
  - by apply accounted_answered.
  - by apply accounted_over.
  - apply accounted_stop; try done. intros c Hc. destruct (Hn c Hc) as [?|[?%elem_of_nil|?]]; [by left|done|right; right; apply elem_of_app; by left].
  - apply accounted_stop; try done. intros c Hc. destruct (Hn c Hc) as [?|[?%elem_of_nil|?]]; [by left|done|right; right; apply elem_of_app; by left].
  - apply accounted_stop; try done. intros c Hc. destruct (Hn c Hc) as [?|[?%elem_of_nil|?]]; [by left|done|right; right; apply elem_of_app; by left].
  - apply accounted_stop; try done; try (by intros _; apply Hj); try (by intros _; apply Hm).
    intros c Hc. destruct (Hn c Hc) as [?|[?%elem_of_nil|?]]; [right; by left|done|right; right; apply elem_of_app; by left].
  - apply accounted_stop; try done; try (by intros _; apply Hj); try (by intros _; apply Hm).
    intros x Hx. destruct (Hn x Hx) as [?|[[->|?]%elem_of_cons|?]]; [by left|by apply Ho in Hx|right; by left|right; right; apply elem_of_app; by left].
  - apply accounted_stop; try done; try (by intros _; apply Hj); try (by intros _; apply Hm).
    intros x Hx. destruct (Hn x Hx) as [?|[[->|?]%elem_of_cons|?]]; [by left|right; right; apply elem_of_app; right; by left|right; by left|right; right; apply elem_of_app; by left].
  - apply accounted_stop; try done; try (by intros _; apply Hj); try (by intros _; apply Hm).
    intros x Hx. destruct (Hn x Hx) as [?|[?%elem_of_nil|?]]; [by left|done|right; right; apply elem_of_app; by left].
Qed.


(** What a listener told to stop has to do yet: each of its steps, of its
    accepting thread and of its connections brings it nearer. *)
Definition stop_left (l : Listener) : nat :=
  match stop l with
  | Serving | Raised => (6 + length (connections l))
  | Woken => (5 + length (connections l))
  | Heard => (4 + length (connections l))
  | Ending rest => 1 + length rest
  | Stopped => 0
  end.

Definition left_to_do (l : Listener) : nat :=
  2 * stop_left l + length (answering l) + match accepting l with Answers => 7 | Waits => 3 | Took _ => 2 | Ended => 1 end.

Lemma retained_length l : (length (retained l) ≤ length (connections l))%nat.
Proof. apply List.filter_length_le. Qed.

Lemma over_length c l : c ∈ answering l → (length (answering (over c l)) < length (answering l))%nat.
Proof.
  simpl. generalize (answering l). intros k. induction k as [|x k IH]; [by intros ?%elem_of_nil|]. simpl.
  pose proof (List.filter_length_le (λ x, negb (Nat.eqb x c)) k). destruct (Nat.eqb_spec x c) as [->|Hne]; simpl; [lia|].
  intros [?|Hc]%elem_of_cons; [done|]. specialize (IH Hc). lia.
Qed.

Lemma left_falls l l' : accounted l → stop l ≠ Serving → listener_step false l l' → (left_to_do l' < left_to_do l)%nat.
Proof.
  intros [Ht Hsv Hj He Hn Hf Hm Ho] Hst Hs. specialize (Ht Hst). unfold left_to_do.
  destruct Hs as [connected Hac|connected Hac|runs Hac|c Hc|Hs'|Hs'|Hs' Hac|Hg Hs'|Hs'|c rest Hs' Hc|c rest Hs'|Hs']; try done.
  - simpl. rewrite Hac. unfold stop_left. simpl. lia.
  - unfold looked. rewrite Ht. simpl. rewrite Hac. unfold stop_left. simpl. lia.
  - assert (heard l = false) as Hh by (destruct (heard l); [by rewrite (Hj eq_refl) in Hac|done]).
    unfold stop_left, heard in *. simpl. rewrite Hac, !length_app. pose proof (retained_length l).
    destruct (stop l), runs; simpl; try done; lia.
  - pose proof (over_length c l Hc). unfold stop_left in *. simpl in *. lia.
  - unfold stop_left. simpl. rewrite Hs'. lia.
  - unfold stop_left. simpl. rewrite Hs'. lia.
  - unfold stop_left. simpl. rewrite Hs'. lia.
  - unfold stop_left. simpl. rewrite Hs'. simpl. lia.
  - unfold stop_left. simpl. rewrite Hs'. simpl. lia.
  - unfold stop_left. simpl. rewrite Hs'. simpl. lia.
Qed.

(** However connections come and end, a listener told to stop accepts none
    once its accepting thread was heard; of all it answered each has ended
    or was waited for its whole time, none passed over; and the stop ends:
    until it has there is a step to take — a knock taken and found stopped,
    a connection ended or its time — and every step brings it nearer. *)
Theorem stop_misses_none l : rtc (listener_step false) begun l →
  (∀ c, c ∈ answering l → c ∈ connections l ∨ c ∈ waited l ∨ c ∈ overdue l) ∧
  (heard l = true → ∀ l', listener_step false l l' → accepted l' = accepted l) ∧
  (stop l = Stopped → ∀ c, c ∈ answering l → c ∈ overdue l) ∧
  (stop l ≠ Serving → (∀ l', listener_step false l l' → (left_to_do l' < left_to_do l)%nat) ∧
     (stop l ≠ Stopped → ∃ l', listener_step false l l')).
Proof.
  intros Hr. assert (accounted l) as Ha.
  { revert l Hr. apply (rtc_ind_r (R := listener_step false)); [apply accounted_begun|]. intros l l' _ Hs Ha. by eapply accounted_step. }
  pose proof Ha as [Ht Hsv Hj He Hn Hf Hm Ho]. split_and!.
  - done.
  - intros Hh l' Hs. destruct Hs; try done. rewrite (Hj Hh) in *. done.
  - intros Hs c Hc. destruct (Hn c Hc) as [H|[H|H]]; [|unfold waited in H; rewrite Hs in H; by apply elem_of_nil in H|done].
    rewrite Hm in H by (unfold took; by rewrite Hs). by apply elem_of_nil in H.
  - intros Hst. split; [intros l' Hs; by apply left_falls|]. intros Hne. destruct (stop l) as [| | | |[|c rest]|] eqn:Hs; try done.
    + eexists. by apply step_wake.
    + destruct (accepting l) as [|connected| |] eqn:Hac; eexists;
        [by apply (step_accepts _ _ true)|by apply step_looks|by apply (step_answers _ _ true)|by apply step_heard].
    + eexists. by apply step_take.
    + eexists. by eapply step_stopped.
    + eexists. by eapply step_late.
Qed.

(** A connection answered, the stop raised while it is, and ended. *)
Definition a_listener_stopped : Listener :=
  {| stopping := true; accepting := Ended; connections := []; answering := []; ended := [0]; accepted := 1; stop := Stopped; overdue := [] |}.

Lemma a_listener_stopped_run : rtc (listener_step false) begun a_listener_stopped.
Proof.
  eapply rtc_l; [by apply (step_accepts _ _ true)|]. eapply rtc_l; [by apply step_looks|].
  eapply rtc_l; [by apply (step_answers _ _ true)|]. eapply rtc_l; [by apply step_raise|]. eapply rtc_l; [by apply step_wake|].
  eapply rtc_l; [by apply (step_accepts _ _ true)|]. eapply rtc_l; [by apply step_looks|]. eapply rtc_l; [by apply step_heard|].
  eapply rtc_l; [by apply step_take|]. eapply rtc_l; [apply (step_over _ _ 0); by left|].
  eapply rtc_l; [eapply step_ended; [reflexivity|by left]|]. eapply rtc_l; [by eapply step_stopped|]. apply rtc_refl.
Qed.

Lemma stop_misses_none_witness : stop a_listener_stopped = Stopped ∧ ∀ c, c ∈ answering a_listener_stopped → c ∈ overdue a_listener_stopped.
Proof.
  destruct (stop_misses_none a_listener_stopped a_listener_stopped_run) as (_ & _ & Hs & _). split; [reflexivity|exact (Hs eq_refl)].
Defined.

(** ** A node's listeners: [Running::operate] *)

(** Where one listens: the node's local endpoint, or the network. *)
Inductive Place := Local (endpoint : string) | Network (listen : string).

(** What starting and letting go of them does, in order. *)
Inductive Did := Starts (p : Place) (role : option Role) | Relays (p : Place) | Stops (p : Place).

(** [[operate]], as the configuration crate reads it. *)
Record Operate := {
  role : option string;
  local : option string;
  admits_names : list string;
  group : option string;
  network : result (option string) string;
  relaying : result (option (list string * string)) string
}.

Definition no_operate : Operate := {| role := None; local := None; admits_names := []; group := None; network := Ok None; relaying := Ok None |}.

Section operate.
(** Whether each is made: the local endpoint, the identity and the network's
    bound listener; the anchors' file read, and what relaying is over them. *)
Context (local_made : string → LocalEnd.Admitting → result unit string) (network_made : string → result unit string).
Context (anchors_read : string → result string string) (relaying_made : list string → string → result unit string).

(** [Running::local_endpoint]. *)
Definition local_endpoint (o : option Operate) (node : string) : string :=
  default (Registration.node_service_name node) (o ≫= local).

Definition place_of (d : Did) : list Place := match d with Starts p _ => [p] | _ => [] end.

(** [Running::operate]: what was done, and the listeners; those begun before
    an error are let go of. *)
Definition operate (configured : option Operate) (node : string) : list Did * result (list Place) string :=
  let o := default no_operate configured in
  let stated := Role.named <$> role o in
  let endpoint := local_endpoint configured node in
  let here := Local endpoint in
  match local_made endpoint {| LocalEnd.admit_names := admits_names o; LocalEnd.group := group o |} with
  | Err why => ([], Err ("[operate] local = " +:+ String "034" endpoint +:+ String "034" ": " +:+ why))
  | Ok _ =>
      let did := [Starts here stated] in
      let made := match network o with
                  | Err why => Err why
                  | Ok None => Ok []
                  | Ok (Some listen) => match network_made listen with Ok _ => Ok [Network listen] | Err why => Err why end
                  end in
      match made with
      | Err why => (did ++ [Stops here], Err why)
      | Ok more =>
          let listeners := here :: more in
          let did := did ++ ((λ p, Starts p stated) <$> more) in
          let relays := match relaying o with
                        | Err why => Err why
                        | Ok None => Ok []
                        | Ok (Some (relay, anchors)) =>
                            let? text := anchors_read anchors in
                            match relaying_made relay text with
                            | Err why => Err ("[operate] relay: " +:+ why)
                            | Ok _ => Ok (Relays <$> listeners)
                            end
                        end in
          match relays with
          | Err why => (did ++ (Stops <$> listeners), Err why)
          | Ok relayed => (did ++ relayed, Ok listeners)
          end
      end
  end.

(** Those begun and not let go of. *)
Fixpoint serving_after (did : list Did) (at_ : list Place) : list Place :=
  match did with
  | [] => at_
  | Starts p _ :: did => serving_after did (at_ ++ [p])
  | Relays _ :: did => serving_after did at_
  | Stops _ :: did => serving_after did (tail at_)
  end.

(** A node's listeners all serve, the local endpoint's always the first and
    every one by the one role stated, relaying all or none — or none serves
    any more, and why is said. *)
Lemma operate_whole configured node :
  let '(did, r) := operate configured node in
  match r with
  | Ok listeners => serving_after did [] = listeners ∧ head listeners = Some (Local (local_endpoint configured node)) ∧
      (∀ p role_, Starts p role_ ∈ did → role_ = Role.named <$> role (default no_operate configured)) ∧
      ((∀ p, Relays p ∈ did ↔ p ∈ listeners) ∨ ∀ p, Relays p ∉ did)
  | Err _ => serving_after did [] = []
  end.
Proof.
  unfold operate. destruct (local_made _ _); [|done]. destruct (network _) as [[listen|]|]; [destruct (network_made listen)| |]; try done;
    (destruct (relaying _) as [[[relay anchors]|]|]; [destruct (anchors_read anchors) as [text|]; simpl; [destruct (relaying_made relay text)|]| |]; simpl; try done);
    split_and!; try done; try (intros p role_; rewrite !elem_of_cons, ?elem_of_nil; intuition congruence);
    try (left; intros p; rewrite !elem_of_cons, !elem_of_nil; intuition congruence);
    right; intros p; rewrite !elem_of_cons, ?elem_of_nil; intuition congruence.
Qed.
End operate.
