(* ===== verification/Opened.v ===== *)
(** * The Work Processes a node runs, opened: [src/work_step/opened.rs], [src/work_step/running.rs]

    Each Work Process that names its unit, taken of the libraries a node
    opened ([Loading.flow]) with the Correlations it follows ([running_new]);
    all of them, or every problem ([opened]). The libraries' calls are
    [Loading]'s: opening is a run of its steps, so what is held after is
    held rightly. Names compiled through the route technologies and a
    queue's number are other crates' and [Sending]'s. *)

From Stdlib Require Import Ascii String.
From stdpp Require Import base numbers list gmap strings relations.
From S2P Require Import Prelude Keys Loading.

Local Open Scope string_scope.
Local Open Scope list_scope.

Section opened.
Context `{AbiStatus, Foreign, Crates}.

(** The sets a declared program follows and the names it reads; the names
    compiled, and why one is refused; a Work Process's queue. *)
Context (declared_sets declared_reads : Declared → list string) {Gathering : Type}.
Context (gathering_new : list string → Gathering) (refusals : Gathering → list string).
Context (queue : string → string → N) (keyword_read : string → Prelude.result KeyWord string).

(** A Work Process the node starts, and what names its unit. *)
Record WorkProcess := { wp_name : string; wp_module : option string; wp_unit : option string }.

(** [Running]. *)
Record Running := {
  r_name : string; r_flow : LoadedFlow; r_sets : list ResolvedSet; r_gathering : Gathering; r_queue : N
}.

(** ** One: [Running::new] *)

Definition found (name : string) (sets : list ResolvedSet) (set : string) : Prelude.result ResolvedSet string :=
  match List.find (λ known, String.eqb (set_name known) set) sets with
  | Some known => Ok known
  | None => Err ("the Work Process '" +:+ name +:+ "' follows the Correlation '" +:+ set +:+ "', which the cluster does not declare")
  end.

Definition running_new (cluster name : string) (f : LoadedFlow) (sets : list ResolvedSet) : Prelude.result Running string :=
  let? followed := collect (found name sets <$> declared_sets (f_declared f)) in
  let gathering := gathering_new (declared_reads (f_declared f) ++ (followed ≫= Keys.names)) in
  match refusals gathering with
  | refused :: _ => Err ("the Work Process '" +:+ name +:+ "': " +:+ refused)
  | [] => Ok {| r_name := name; r_flow := f; r_sets := followed; r_gathering := gathering; r_queue := queue cluster name |}
  end.

(** ** All: [opened] *)

(** The cluster's Correlations read, and each that does not. *)
Definition sets_read (correlations : list (string * list string)) : list ResolvedSet * list string :=
  (omap (λ c, match Keys.read keyword_read c.1 c.2 with Ok s => Some s | Err _ => None end) correlations,
   omap (λ c, match Keys.read keyword_read c.1 c.2 with Ok _ => None | Err why => Some why end) correlations).

(** A flow dropped, others of it and the libraries' own holding units. *)
Definition flow_dropped (l : Libraries) (others : list LoadedFlow) (f : LoadedFlow) (t : Trace) : Trace :=
  drop_unit ((flows l).*2 ++ (f_unit <$> others)) (f_unit f) t.

Fixpoint flows_dropped (l : Libraries) (fs : list LoadedFlow) (t : Trace) : Trace :=
  match fs with [] => t | f :: rest => flows_dropped l rest (flow_dropped l rest f t) end.

Definition about (p : WorkProcess) (why : string) : string := "the Work Process '" +:+ wp_name p +:+ "': " +:+ why.

(** One Work Process of the loop: [None] where it names no unit. *)
Definition open_one (cluster : string) (l : Libraries) (sets : list ResolvedSet) (p : WorkProcess)
    (at_ : Trace * list Running * list string) : Trace * list Running * list string :=
  let '(t, running, problems) := at_ in
  match wp_module p, wp_unit p with
  | None, None => at_
  | Some module_, Some unit =>
      match flow l module_ unit t with
      | (t, Err why) => (t, running, problems ++ [about p why])
      | (t, Ok f) =>
          match running_new cluster (wp_name p) f sets with
          | Ok one => (t, running ++ [one], problems)
          | Err why => (flow_dropped l (r_flow <$> running) f t, running, problems ++ [about p why])
          end
      end
  | _, _ => (t, running, problems ++ ["the Work Process '" +:+ wp_name p +:+ "' names its unit by module and unit, both"])
  end.

Definition opened (cluster : string) (correlations : list (string * list string)) (processes : list WorkProcess) (l : Libraries)
    (t : Trace) : Trace * Prelude.result (list Running) (list string) :=
  let '(sets, problems) := sets_read correlations in
  let '(t, running, problems) := foldl (λ at_ p, open_one cluster l sets p at_) (t, [], problems) processes in
  match problems with
  | [] => (t, Ok running)
  | _ => (flows_dropped l (r_flow <$> running) t, Err problems)
  end.

(** ** What is open *)

(** What one that runs has: the unit it names, and the Correlations its
    program declares, each the cluster's of that name, all its names read. *)
Record runs_as (cluster : string) (sets : list ResolvedSet) (p : WorkProcess) (r : Running) : Prop := {
  named_so : r_name r = wp_name p ∧ r_queue r = queue cluster (wp_name p);
  follows : set_name <$> r_sets r = declared_sets (f_declared (r_flow r));
  declared_in s : s ∈ r_sets r → s ∈ sets;
  reads_all : refusals (r_gathering r) = []
}.

(** Those that name their unit. *)
Definition names_unit (p : WorkProcess) : bool := match wp_module p, wp_unit p with Some _, Some _ => true | _, _ => false end.
Definition names_half (p : WorkProcess) : bool := match wp_module p, wp_unit p with Some _, None | None, Some _ => true | _, _ => false end.

Lemma found_set name sets set s : found name sets set = Ok s → s ∈ sets ∧ set_name s = set.
Proof.
  unfold found. destruct (List.find _ _) as [k|] eqn:Hf; [|done]. intros [= <-].
  apply find_some in Hf as [Hin ->%String.eqb_eq]. by rewrite list_elem_of_In.
Qed.

Lemma collect_found name sets l : ∀ ss, collect (found name sets <$> l) = Ok ss → set_name <$> ss = l ∧ ∀ s, s ∈ ss → s ∈ sets.
Proof.
  induction l as [|set l IH]; intros ss; simpl; [intros [= <-]; split; [done|by intros s []%elem_of_nil]|].
  destruct (found name sets set) as [s|] eqn:Hf; [|done]. simpl. destruct (collect _) as [rest|]; [|done]. intros [= <-].
  destruct (IH rest eq_refl) as [Hn Hin]. apply found_set in Hf as [Hs <-]. csimpl. rewrite Hn. split; [done|].
  intros x [->|Hx]%elem_of_cons; [done|by apply Hin].
Qed.

Lemma running_new_runs cluster p f sets r : running_new cluster (wp_name p) f sets = Ok r →
  runs_as cluster sets p r ∧ r_flow r = f.
Proof.
  unfold running_new. destruct (collect _) as [ss|] eqn:Hc; [|done]. simpl. destruct (refusals _) eqn:Hr; [|done]. intros [= <-].
  apply collect_found in Hc as [Hn Hin]. by split.
Qed.

(** The loop: what is open so far, and the steps taken. *)
Definition so_far (l : Libraries) (at_ : Trace * list Running * list string) : Node :=
  {| tr := at_.1.1; libs := Some l; out := r_flow <$> at_.1.2 |}.

Lemma open_one_steps cluster l sets p at_ : rtc node_step (so_far l at_) (so_far l (open_one cluster l sets p at_)).
Proof.
  destruct at_ as [[t running] problems]. unfold open_one, so_far. destruct (wp_module p) as [m|], (wp_unit p) as [u|]; simpl; try apply rtc_refl.
  destruct (flow l m u t) as [t' [f|why]] eqn:Hf; simpl.
  - assert (node_step {| tr := t; libs := Some l; out := r_flow <$> running |} {| tr := t'; libs := Some l; out := (r_flow <$> running) ++ [f] |}) as Hs
      by exact (step_take {| tr := t; libs := Some l; out := r_flow <$> running |} l m u t' f eq_refl Hf).
    eapply rtc_l; [exact Hs|]. destruct (running_new _ _ _ _) as [r|why] eqn:Hr; simpl.
    + apply running_new_runs in Hr as [_ <-]. rewrite fmap_app. apply rtc_refl.
    + apply rtc_once. pose proof (step_flow_dropped {| tr := t'; libs := Some l; out := (r_flow <$> running) ++ [f] |} (r_flow <$> running) f [] eq_refl) as Hd.
      simpl in Hd. rewrite app_nil_r in Hd. exact Hd.
  - apply rtc_once. exact (step_take_refused {| tr := t; libs := Some l; out := r_flow <$> running |} l m u t' why eq_refl Hf).
Qed.

Lemma open_each_steps cluster l sets processes : ∀ at_,
  rtc node_step (so_far l at_) (so_far l (foldl (λ at_ p, open_one cluster l sets p at_) at_ processes)).
Proof.
  induction processes as [|p processes IH]; intros at_; cbn [foldl]; [apply rtc_refl|].
  etransitivity; [apply (open_one_steps cluster l sets p)|apply IH].
Qed.

Lemma flows_dropped_steps l fs : ∀ t, rtc node_step {| tr := t; libs := Some l; out := fs |} {| tr := flows_dropped l fs t; libs := Some l; out := [] |}.
Proof.
  induction fs as [|f fs IH]; intros t; simpl; [apply rtc_refl|]. eapply rtc_l; [|apply IH].
  exact (step_flow_dropped {| tr := t; libs := Some l; out := f :: fs |} [] f fs eq_refl).
Qed.

(** Problems are never taken back; and while there is none, what is open is
    each that names its unit, in order. *)
Lemma open_one_names cluster l sets p t running problems t' running' :
  open_one cluster l sets p (t, running, problems) = (t', running', []) →
  problems = [] ∧ names_half p = false ∧ ∃ more, running' = running ++ more ∧ Forall2 (runs_as cluster sets) (if names_unit p then [p] else []) more.
Proof.
  unfold open_one, names_half, names_unit. destruct (wp_module p) as [m|], (wp_unit p) as [u|].
  - destruct (flow l m u t) as [t1 [f|why]]; [|by intros [= _ _ [_ [=]]%app_nil]].
    destruct (running_new _ _ _ _) as [r|why] eqn:Hr; [|by intros [= _ _ [_ [=]]%app_nil]]. intros [= _ <- ->].
    apply running_new_runs in Hr as [Hr _]. split_and!; [done|done|]. exists [r]. split; [done|]. constructor; [done|constructor].
  - by intros [= _ _ [_ [=]]%app_nil].
  - by intros [= _ _ [_ [=]]%app_nil].
  - intros [= _ <- ->]. split_and!; [done|done|]. exists []. split; [by rewrite app_nil_r|constructor].
Qed.

Lemma open_each_names cluster l sets processes : ∀ t running problems t' running',
  foldl (λ at_ p, open_one cluster l sets p at_) (t, running, problems) processes = (t', running', []) →
  problems = [] ∧ (∀ p, p ∈ processes → names_half p = false) ∧
  ∃ more, running' = running ++ more ∧ Forall2 (runs_as cluster sets) (List.filter names_unit processes) more.
Proof.
  induction processes as [|p processes IH]; intros t running problems t' running'; cbn [foldl].
  { intros [= _ <- ->]. split_and!; [done|by intros p []%elem_of_nil|]. exists []. split; [by rewrite app_nil_r|constructor]. }
  destruct (open_one cluster l sets p (t, running, problems)) as [[t1 r1] p1] eqn:Ho. intros Hr.
  apply IH in Hr as (-> & Hhalf & more & -> & Hmore). apply open_one_names in Ho as (-> & Hp & more1 & -> & Hmore1).
  split_and!; [done|intros q [->|Hq]%elem_of_cons; [done|by apply Hhalf]|]. exists (more1 ++ more). split; [by rewrite app_assoc|].
  simpl. destruct (names_unit p); simpl; [exact (Forall2_app Hmore1 Hmore)|]. by apply Forall2_nil_inv_l in Hmore1 as ->.
Qed.

(** However the libraries' units answer, a node's Work Processes are opened
    as a run of what a node may do with its libraries ([modules_let_go]
    says what holds after each): all that name their unit, in order, each
    following just the Correlations its program declares, of those the
    cluster declares; or a refusal that says why, no flow held after it. *)
Theorem units_opened cluster correlations processes l t t' r : opened cluster correlations processes l t = (t', r) →
  rtc node_step {| tr := t; libs := Some l; out := [] |}
    {| tr := t'; libs := Some l; out := match r with Ok running => r_flow <$> running | Err _ => [] end |} ∧
  match r with
  | Ok running => (∀ p, p ∈ processes → names_half p = false) ∧ (sets_read correlations).2 = [] ∧
      Forall2 (runs_as cluster (sets_read correlations).1) (List.filter names_unit processes) running
  | Err problems => problems ≠ []
  end.
Proof.
  unfold opened. destruct (sets_read correlations) as [sets problems] eqn:Hsets.
  destruct (foldl _ _ processes) as [[t1 running] problems1] eqn:Hf.
  pose proof (open_each_steps cluster l sets processes (t, [], problems)) as Hsteps. rewrite Hf in Hsteps. unfold so_far in Hsteps. simpl in Hsteps.
  destruct problems1 as [|why problems1]; intros [= <- <-].
  - split; [exact Hsteps|]. apply open_each_names in Hf as (-> & Hhalf & more & -> & Hmore). done.
  - split; [|done]. etransitivity; [exact Hsteps|apply flows_dropped_steps].
Qed.
End opened.

(** One that names its unit, opened of [Loading]'s two Modules, and one that
    names half of it. *)
Module Toy.
#[local] Existing Instance Loading.Toy.toy_status.
#[local] Existing Instance Loading.Toy.toy_foreign.
#[local] Existing Instance Loading.Toy.toy_crates.

Definition a_process (unit : option string) : WorkProcess := {| wp_name := "Approval"; wp_module := Some "approval"; wp_unit := unit |}.

Definition open_process (unit : option string) : Trace * Prelude.result (list (Running (Gathering := list string))) (list string) :=
  opened (λ _, ["Order"]) (λ _, []) id (λ _, []) (λ _ _, 7%N) (λ k, Ok (Context k)) "c" [("Order", ["Id"])] [a_process unit]
    Loading.Toy.two_libraries Loading.Toy.open_two.1.

Lemma units_opened_witness :
  (∃ r, (open_process (Some "Approval")).2 = Ok [r] ∧ set_name <$> r_sets r = ["Order"]) ∧
  (∃ why, (open_process None).2 = Err [why]).
Proof.
  pose proof (units_opened (λ _, ["Order"]) (λ _, []) id (λ _, []) (λ _ _, 7%N) (λ k, Ok (Context k)) "c" [("Order", ["Id"])]
    [a_process (Some "Approval")] Loading.Toy.two_libraries Loading.Toy.open_two.1 (open_process (Some "Approval")).1
    (open_process (Some "Approval")).2 (surjective_pairing _)) as [_ Hr].
  split; [|eexists; vm_compute; reflexivity].
  destruct (open_process (Some "Approval")).2 as [running|why] eqn:Ho; [|vm_compute in Ho; discriminate Ho].
  destruct Hr as (_ & _ & Hr). inversion Hr as [|p r ps rs Hp Hrs Heq1 Heq2]; subst. inversion Hrs; subst. exists r. split; [reflexivity|].
  exact (follows _ _ _ _ _ _ _ Hp).
Defined.
End Toy.
