(* ===== verification/Exports.v ===== *)
(** * Acts, orders and remotes across the C boundary: [src/ffi/message.rs], [subscription.rs], [dead_message.rs], [order.rs], [remote.rs], [event/subscription.rs], [src/send_step/registered.rs]

    What a program that hosts nodes asks of them through the header: an
    operator's act on a Message, a dead Message, a Subscription or an Event
    subscription of a node of this process, an order left for another's, and
    a node reached through a remote: its publication, handed whole however
    little room a call gives, an act and a secret asked of it. The acts
    themselves are [Applied]'s; a remote's answers are given, and what it
    asks at its node is [Served]'s. Words of acts, scopes and orders' files
    are the observe crate's. *)

From Stdlib Require Import Ascii String.
From stdpp Require Import base numbers list strings.
From S2P Require Import Boundary Prelude Text Journey Storage Fresh Vouched Held Role Call Applied Served Relayed.

Local Open Scope string_scope.
Local Open Scope list_scope.

(** ** The send steps a process holds: [registered.rs] *)

(** [register], [registered]: a step is held weakly, and gone once let go. *)
Definition register (live : N → bool) (step : N) (registered : list N) : list N := List.filter live registered ++ [step].
Definition registered (live : N → bool) (kept : list N) : list N := List.filter live kept.

(** Those alive, in the order they were registered. *)
Lemma registered_in_order live live' step kept :
  (∀ s, live' s = true → live s = true) → live' step = true →
  registered live' (register live step kept) = registered live' kept ++ [step].
Proof.
  intros Hl Hs. unfold registered, register. rewrite List.filter_app. simpl. rewrite Hs. f_equal.
  induction kept as [|s kept IH]; [done|]. simpl. destruct (live s) eqn:Ha; simpl.
  - by rewrite IH.
  - destruct (live' s) eqn:Hb; [|done]. apply Hl in Hb. congruence.
Qed.

(** ** What an export answers *)

Record Answered := { a_code : Status; a_memory : Memory; a_len : option N }.

Definition unwritten (code : Status) (mem : Memory) : Answered := {| a_code := code; a_memory := mem; a_len := None |}.

Definition says (came : Status * string) (out cap : N) (mem : Memory) : Answered :=
  let '(m, n) := Boundary.refuse came.2 out cap mem in {| a_code := came.1; a_memory := m; a_len := Some n |}.

(** Texts of a call, read together. *)
Definition texts (mem : Memory) (l : list Str) : option (list string) := mapM (scope_text mem) l.

(** ** An act on a node of this process *)

Section acts.
Context `{ObserveWords} `{SecretWords} {W : Type} `{!Nodes W}.
(** An act by its word, and the two a Message takes. *)
Context (act_named : string → option Act) (Retry Dismiss : Act).

Definition no_node (node : string) : Status * string := (NOT_FOUND, "REFUSED: no node at " +:+ node +:+ " runs in this process").

(** A node's answer to an act, by how it begins. *)
Definition came_back (answer : result string string) : Status * string :=
  match answer with
  | Ok done => (OK, done)
  | Err said => if starts_with "FAILED" said then (IO, said) else (NOT_FOUND, said)
  end.

Definition found_pickup (node : string) (w : W) : option (PickupOps W) := List.find (λ p, String.eqb (pk_node p) node) (pickups w).

(** An ask of a node, and how it came back. *)
Definition asking (came : result string string → Status * string) (a : asks W string) (w : W) : W * (Status * string) :=
  let '(w, answer) := a w in (w, came answer).

(** [acted] of [message.rs]. *)
Definition acted_on_message (node journey word who : string) (w : W) : W * (Status * string) :=
  match (match act_named word with Some act => if bool_decide (act = Retry ∨ act = Dismiss) then Some act else None | None => None end) with
  | None => (w, (INVALID, match noun_act Message_ word with Err refused => refused | Ok _ => "" end))
  | Some act =>
      match List.find (λ s, String.eqb (st_node s) node) (sends w) with
      | None => (w, no_node node)
      | Some s => asking came_back (st_act s journey act who) w
      end
  end.

(** What [xmip_dead_message_replay_v1] does. *)
Definition replayed (node message who : string) (w : W) : W * (Status * string) :=
  match found_pickup node w with
  | None => (w, no_node node)
  | Some p => asking came_back (pk_replay p message who) w
  end.

(** What [xmip_subscription_act_v1] does. *)
Definition acted_on_subscription (node name word who : string) (w : W) : W * (Status * string) :=
  match noun_act Subscription_ word, found_pickup node w with
  | Err refused, _ => (w, (INVALID, refused))
  | Ok _, None => (w, no_node node)
  | Ok act, Some p => asking (λ answer, match answer with Ok done => (OK, done) | Err refused => (NOT_FOUND, refused) end) (pk_act p name act who) w
  end.

(** What [xmip_event_subscription_act_v1] does, the hub's act the event
    crate's. *)
Definition acted_on_event (hub_act : N → Act → string → asks W string) (id : N) (word who : string) (w : W) : W * (Status * string) :=
  match noun_act EventSubscription word with
  | Err refused => (w, (INVALID, refused))
  | Ok act => asking (λ answer, match answer with Ok done => (OK, done) | Err refused => (NOT_FOUND, refused) end) (hub_act id act who) w
  end.

(** The exports: their texts read, or nothing done. *)
Definition xmip_message_act_v1 (mem : Memory) (node journey act who : Str) (out cap : N) (w : W) : W * Answered :=
  match texts mem [node; journey; act; who] with
  | Some [node; journey; act; who] =>
      let '(w, came) := acted_on_message node journey act who w in (w, says came out cap mem)
  | _ => (w, unwritten MALFORMED mem)
  end.

Definition xmip_dead_message_replay_v1 (mem : Memory) (node message who : Str) (out cap : N) (w : W) : W * Answered :=
  match texts mem [node; message; who] with
  | Some [node; message; who] => let '(w, came) := replayed node message who w in (w, says came out cap mem)
  | _ => (w, unwritten MALFORMED mem)
  end.

Definition xmip_subscription_act_v1 (mem : Memory) (node name act who : Str) (out cap : N) (w : W) : W * Answered :=
  match texts mem [node; name; act; who] with
  | Some [node; name; act; who] =>
      let '(w, came) := acted_on_subscription node name act who w in (w, says came out cap mem)
  | _ => (w, unwritten MALFORMED mem)
  end.

Definition xmip_event_subscription_act_v1 hub_act (mem : Memory) (id : N) (act who : Str) (out cap : N) (w : W) : W * Answered :=
  match texts mem [act; who] with
  | Some [act; who] => let '(w, came) := acted_on_event hub_act id act who w in (w, says came out cap mem)
  | _ => (w, unwritten MALFORMED mem)
  end.

(** ** An order left: [order.rs] *)

(** [Order::leave], the observe crate's: the file written. *)
Context (leave : string → Order → result string string).

Definition left_order (orders node noun target act who : string) : result string string :=
  if String.eqb orders "" then Err "REFUSED: the publication says nowhere its publisher takes orders"
  else
    match noun_named noun with
    | None => Err ("REFUSED: '" +:+ noun +:+ "' is nothing an operator acts on")
    | Some n =>
        let? act := noun_act n act in
        leave orders {| o_node := node; o_noun := n; o_target := target; o_act := act; o_who := who |}
    end.

Definition ordered (answer : result string string) : Status * string :=
  match answer with
  | Ok file => (OK, file)
  | Err said => if starts_with "REFUSED" said then (INVALID, said) else (IO, said)
  end.

Definition xmip_order_v1 (mem : Memory) (orders node noun target act who : Str) (out cap : N) : Answered :=
  match texts mem [orders; node; noun; target; act; who] with
  | Some [orders; node; noun; target; act; who] => says (ordered (left_order orders node noun target act who)) out cap mem
  | _ => unwritten MALFORMED mem
  end.
End acts.

(** ** A node reached through a remote: [remote.rs] *)

(** [Held]: the remote is the plane's, beside a publication read whole but
    not yet handed over whole. *)
Record Handle := { pending : option (N * string) }.

(** [handed]: a handle made, or why not. *)
Definition handed (opened : result unit string) (report cap : N) (mem : Memory) : option Handle * Answered :=
  match opened with
  | Ok _ => (Some {| pending := None |}, {| a_code := OK; a_memory := mem; a_len := Some 0%N |})
  | Err said => (None, says (INVALID, said) report cap mem)
  end.

(** [xmip_remote_publication_v1], where the node asked now answers
    [answer]: the revision, where it is written. *)
Definition xmip_remote_publication_v1 (h : option Handle) (answer : result (N * string) string) (mem : Memory) (out cap : N) :
    option Handle * Answered * option N :=
  match h with
  | None => (None, unwritten INVALID mem, None)
  | Some h =>
      match (match pending h with Some kept => Ok kept | None => answer end) with
      | Err said => (Some {| pending := None |}, says (UNAVAILABLE, said) out cap mem, None)
      | Ok (revision, text) =>
          if (cap <? N.of_nat (String.length text))%N
          then (Some {| pending := Some (revision, text) |}, says (TRUNCATED, text) out cap mem, Some revision)
          else (Some {| pending := None |}, says (OK, text) out cap mem, Some revision)
      end
  end.

(** [status_of]. *)
Definition status_of (o : Outcome) : Status :=
  match o with OTaken => OK | ODenied => AUTH | ORefused => NOT_FOUND | OInvalid => INVALID | OFailed => IO end.

Section remote.
Context `{Json}.

(** [Remote::act], [Remote::set_secret]: what is asked of the node, and
    what is read of its answer. *)
Definition act_message (node noun target act : string) : value :=
  object [("node", JText node); ("noun", JText noun); ("target", JText target); ("act", JText act)].

Definition secret_message (node name kind v : string) : value :=
  object [("node", JText node); ("name", JText name); ("kind", JText kind); ("value", JText v)].

Definition outcome_told (answer : result value string) : Status * string :=
  match answer with
  | Ok v => let '(outcome, sentence) := came_of v in (status_of outcome, sentence)
  | Err why => (UNAVAILABLE, why)
  end.

(** [xmip_remote_act_v1], [xmip_secret_v1]; [asked] is [relayed] for the
    caller named. *)
Definition xmip_remote_act_v1 (h : option Handle) (asked : value → result value string) (mem : Memory) (node noun target act : Str)
    (out cap : N) : Answered :=
  match h with
  | None => unwritten INVALID mem
  | Some _ =>
      match texts mem [node; noun; target; act] with
      | Some [node; noun; target; act] => says (outcome_told (asked (act_message node noun target act))) out cap mem
      | _ => unwritten MALFORMED mem
      end
  end.

Definition xmip_secret_v1 (h : option Handle) (asked : value → result value string) (mem : Memory) (node name kind v : Str)
    (out cap : N) : Answered :=
  match h with
  | None => unwritten INVALID mem
  | Some _ =>
      match texts mem [node; name; kind; v] with
      | Some [node; name; kind; v] => says (outcome_told (asked (secret_message node name kind v))) out cap mem
      | _ => unwritten MALFORMED mem
      end
  end.

(** [xmip_secrets_v1]: why a listing was refused, by how it begins. *)
Definition unlisted (why : string) : Status :=
  if starts_with "REFUSED." why then AUTH
  else if starts_with "REFUSED" why then NOT_FOUND
  else if starts_with "FAILED" why then IO
  else UNAVAILABLE.

Definition secrets_told (answer : result value string) (cap : N) : Status * string :=
  match (let? a := answer in Relayed.secrets a) with
  | Ok listed =>
      let text := shown listed in
      (if (cap <? N.of_nat (String.length text))%N then TRUNCATED else OK, text)
  | Err why => (unlisted why, why)
  end.

Definition xmip_secrets_v1 (h : option Handle) (asked : value → result value string) (mem : Memory) (node : Str) (out cap : N) : Answered :=
  match h with
  | None => unwritten INVALID mem
  | Some _ =>
      match scope_text mem node with
      | Some node => says (secrets_told (asked (object [("node", JText node)])) cap) out cap mem
      | None => unwritten MALFORMED mem
      end
  end.
End remote.

(** ** A publication is handed whole *)

(** What a surface has of a call: the revision and the text in its buffer,
    where it was told that was all. *)
Definition whole (a : Answered) (revision : option N) (out : N) : list (N * string) :=
  match a_code a, revision, a_len a with
  | OK, Some r, Some n => [(r, bytes_at (a_memory a) out (N.to_nat n))]
  | _, _, _ => []
  end.

(** What a node answered at a call: asked only where nothing is pending. *)
Definition newly (h : Handle) (answer : result (N * string) string) : list (N * string) :=
  match pending h, answer with None, Ok read => [read] | _, _ => [] end.

(** Calls one after another, each with its buffer, its room and what the
    node would answer then: what was handed whole and what was read. *)
Fixpoint publications (h : Handle) (mem : Memory) (calls : list (N * N * result (N * string) string)) :
    Handle * Memory * list (N * string) * list (N * string) :=
  match calls with
  | [] => (h, mem, [], [])
  | (out, cap, answer) :: calls =>
      let '(h', a, revision) := xmip_remote_publication_v1 (Some h) answer mem out cap in
      let '(h2, mem, got, read) := publications (default h h') (a_memory a) calls in
      (h2, mem, whole a revision out ++ got, newly h answer ++ read)
  end.

Lemma handed_all text out cap mem : (N.of_nat (String.length text) ≤ cap)%N →
  bytes_at (Boundary.refuse text out cap mem).1 out (String.length text) = text.
Proof.
  intros Hc. unfold Boundary.refuse, Boundary.hand. simpl. rewrite N.min_l, Nat2N.id, substring_whole by done.
  destruct (N.ltb_spec 0 cap) as [_|Hz]; [apply written_bytes|]. assert (cap = 0%N) as -> by lia. by destruct text.
Qed.

Lemma publication_step h answer mem out cap :
  let '(h', a, revision) := xmip_remote_publication_v1 (Some h) answer mem out cap in
  option_list (pending h) ++ newly h answer = whole a revision out ++ option_list (pending (default h h')).
Proof.
  unfold xmip_remote_publication_v1, newly, says. destruct (pending h) as [[r text]|]; [|destruct answer as [[r text]|why]]; [..|done];
    destruct (N.ltb_spec cap (N.of_nat (String.length text))) as [|Hc]; try done;
    pose proof (handed_all text out cap mem Hc) as Ht; unfold Boundary.refuse, Boundary.hand in *; unfold whole;
    cbn [a_code a_len a_memory fst snd] in *; by rewrite Nat2N.id, Ht.
Qed.

(** Whatever room each call gives, every publication a node answers is
    handed its surface whole, once and in order, the last alone perhaps
    waiting for room: one told that its room was short keeps what it was
    told of, its length and its revision, and the next call with that room
    has all of it, whatever the node would answer by then. *)
Theorem publication_handed_whole h mem calls :
  (let '(h', _, got, read) := publications h mem calls in
   option_list (pending h) ++ read = got ++ option_list (pending h')) ∧
  (∀ answer out cap h' a revision, xmip_remote_publication_v1 (Some h) answer mem out cap = (h', a, revision) → a_code a = TRUNCATED →
   ∃ r text, revision = Some r ∧ a_len a = Some (N.of_nat (String.length text)) ∧ (cap < N.of_nat (String.length text))%N ∧
     ∀ answer' mem' out' cap', (N.of_nat (String.length text) ≤ cap')%N →
       let '(_, a', revision') := xmip_remote_publication_v1 h' answer' mem' out' cap' in
       whole a' revision' out' = [(r, text)]).
Proof.
  split.
  - revert h mem. induction calls as [|[[out cap] answer] calls IH]; intros h mem; cbn [publications]; [by rewrite app_nil_r|].
    pose proof (publication_step h answer mem out cap) as Hs.
    destruct (xmip_remote_publication_v1 _ _ _ _ _) as [[h' a] revision]. specialize (IH (default h h') (a_memory a)).
    destruct (publications _ _ _) as [[[h2 mem'] got] read]. by rewrite app_assoc, Hs, <-!app_assoc, IH.
  - intros answer out cap h' a revision Hp Hc. unfold xmip_remote_publication_v1 in Hp.
    destruct (match pending h with Some kept => Ok kept | None => answer end) as [[r text]|why]; [|by injection Hp as <- <- <-].
    destruct (N.ltb_spec cap (N.of_nat (String.length text))); injection Hp as <- <- <-; [|done].
    exists r, text. split_and!; [done..|]. intros answer' mem' out' cap' Hroom.
    pose proof (publication_step {| pending := Some (r, text) |} answer' mem' out' cap') as Hs.
    unfold xmip_remote_publication_v1 in *. cbn [pending] in *. destruct (N.ltb_spec cap' (N.of_nat (String.length text))); [lia|].
    cbn [pending default] in Hs. by rewrite app_nil_r in Hs.
Qed.

(** ** An act is answered alike here and over a listener *)

Section alike.
Context `{JsonLaws} `{GrpcLaws} `{ObserveWords} `{SecretWords} `{AdmissionLaws} `{Gate} `{Codecs}.
Context {W : Type} `{!Nodes W} `{!Published W}.
Context (act_named : string → option Act) (Retry Dismiss : Act).

(** The acts each noun takes, as the observe crate has them. *)
Class TakesLaws : Prop := {
  message_takes word act : noun_act Message_ word = Ok act ↔ act_named word = Some act ∧ (act = Retry ∨ act = Dismiss);
  subscription_takes word : noun_act Subscription_ word ≠ Ok Replay
}.

(** The act asked of a node of this process, by the noun's export. *)
Definition done_here (noun : Noun) (node target word who : string) (w : W) : W * (Status * string) :=
  match noun with
  | Message_ => acted_on_message act_named Retry Dismiss node target word who w
  | DeadMessage_ => replayed node target who w
  | _ => acted_on_subscription node target word who w
  end.

(** The statuses the two exports answer one coming of an act by. *)
Definition told_alike (noun : Noun) (here there : Status) : Prop :=
  here = there ∨ (noun = Subscription_ ∧ here = NOT_FOUND ∧ there = IO).

Lemma outcome_told_of word text v : answered (outcome word text) = Ok v → outcome_told (Ok v) = (status_of (outcome_of word), text).
Proof.
  unfold outcome. rewrite answered_answer. destruct (frame _); [|done]. intros [= <-]. unfold outcome_told, came_of. by rewrite !text_built.
Qed.

Lemma came_back_alike answer v : answered (came_to (applied_of answer)) = Ok v → outcome_told (Ok v) = came_back answer.
Proof.
  unfold came_to, applied_of, came_back. destruct answer as [text|text]; [|destruct (starts_with "FAILED" text)]; intros Hv;
    by rewrite (outcome_told_of _ _ _ Hv).
Qed.

(** What the node's world is once an act came to [came] over the listener. *)
Definition world_after (came : Applied) (w : W) : W := match came with Taken _ => published_acted w | _ => w end.

Lemma acted_applied s a node noun_word noun target word act :
  noun_named noun_word = Some noun → noun_act noun word = Ok act →
  let '(w, came) := apply {| o_node := node; o_noun := noun; o_target := target; o_act := act; o_who := who a |} (sv_world s) in
  ∃ did, Served.acted s a (act_message node noun_word target word) = (with_world s (world_after came w), did, came_to came).
Proof.
  intros Hn Ha. unfold Served.acted, text_in, act_message. rewrite !text_built. simpl. rewrite Hn, Ha.
  destruct (apply _ _) as [w came]. destruct came; by eexists.
Qed.

(** An answer of a node, told here by [came] and there by [applied_of]. *)
Definition alike (noun : Noun) (here : W * (Status * string)) (there : W * Applied) : Prop :=
  ∀ v, answered (came_to there.2) = Ok v →
    here.2.2 = (outcome_told (Ok v)).2 ∧ told_alike noun here.2.1 (outcome_told (Ok v)).1 ∧
    (world_after there.2 there.1 = here.1 ∨ here.2.1 = OK ∧ world_after there.2 there.1 = published_acted here.1).

Lemma alike_refused noun w node : alike noun (w, no_node node) (w, absent node).
Proof. intros v Hv. apply outcome_told_of in Hv as ->. split; [done|]. split; [by left|by left]. Qed.

Lemma alike_answering noun (ask : asks W string) w : alike noun (asking came_back ask w) (answering ask w).
Proof.
  unfold asking, answering, alike. destruct (ask w) as [w' answer]. cbn [fst snd]. intros v Hv. rewrite (came_back_alike _ _ Hv).
  split; [done|]. split; [by left|]. unfold applied_of, came_back.
  destruct answer as [text|text]; [by right|]. destruct (starts_with "FAILED" text); by left.
Qed.

Lemma alike_subscription (ask : asks W string) w :
  alike Subscription_ (asking (λ answer, match answer with Ok done => (OK, done) | Err refused => (NOT_FOUND, refused) end) ask w) (answering ask w).
Proof.
  unfold asking, answering, alike. destruct (ask w) as [w' answer]. cbn [fst snd]. intros v Hv. rewrite (came_back_alike _ _ Hv).
  unfold applied_of, came_back, told_alike.
  destruct answer as [text|text]; [split; [done|]; split; [by left|by right]|].
  destruct (starts_with "FAILED" text); (split; [done|]); (split; [auto|by left]).
Qed.


(** A listing of secrets refused is told as what refused it: the caller's
    role, the node that is not there, or its Xmip Storage. *)
Lemma secrets_told_apart caller r asked node (w w' : W) why :
  (admitted is_proven name_of caller r SECRETS asked = Err why → unlisted why = AUTH) ∧
  (listed node w = (w', Err why) → unlisted why = match storage_of node w with Ok _ => IO | Err _ => NOT_FOUND end).
Proof.
  split.
  - unfold admitted. destruct (plane_admit _ _ _ _); [done|]. intros [= <-]. by destruct (asker _ _).
  - unfold listed. destruct (storage_of node w) as [p|refused] eqn:Hs.
    + destruct (pk_list_secrets p w) as [w2 [entries|failed]]; [done|]. by intros [= _ <-].
    + intros [= _ <-]. unfold storage_of in Hs. destruct (if _ && _ then _ else _); [done|]. injection Hs as <-.
      by destruct (String.eqb node "").
Qed.
End alike.

(** ** A node of this process, asked here and over its listener *)

Module Toy.
#[local] Existing Instances fields_json plain_grpc by_rules by_rules_laws fields_json_laws plain_grpc_laws
  toy_secrets toy_gate toy_codecs toy_published.

#[local] Instance words : ObserveWords := {|
  Act := string; act_eq_dec := _; Replay := "replay"; act_word := id;
  noun_named n := if String.eqb n "subscription" then Some Subscription_ else if String.eqb n "message" then Some Message_
                  else if String.eqb n "dead-message" then Some DeadMessage_ else None;
  noun_called _ := "noun";
  noun_act n a := if bool_decide (a ∈ match n with Subscription_ => ["pause"; "resume"] | DeadMessage_ => ["replay"]
                                      | Message_ => ["retry"; "dismiss"] | EventSubscription => [] end)
                  then Ok a else Err ("REFUSED: no act " +:+ a) |}.

#[local] Instance words_laws : TakesLaws Some "retry" "dismiss".
Proof.
  split; intros word.
  - intros act. cbn. case_bool_decide as Hin.
    + rewrite !elem_of_cons, elem_of_nil in Hin. split; [intros [= <-]|intros [[= ->] _]; done]. split; [done|]. tauto.
    + split; [done|]. intros [[= ->] Ha]. exfalso. apply Hin. rewrite !elem_of_cons. tauto.
  - cbn. case_bool_decide as Hin; [|done]. intros [= ->]. rewrite !elem_of_cons, elem_of_nil in Hin. intuition discriminate.
Qed.

(** One node, whose Xmip Storage does not take what is asked of [lost]. *)
Definition takes (did target : string) : asks (list string) string := λ w,
  if String.eqb target "lost" then (w, Err "FAILED: Xmip Storage did not answer")
  else if String.eqb target "none" then (w, Err "REFUSED: none is kept") else (w ++ [did +:+ " " +:+ target], Ok did).

#[local] Instance nodes : Nodes (list string) := {|
  pickups _ := [{| pk_node := "n1"; pk_replay target _ := takes "replay" target; pk_act target act _ := takes act target;
                   pk_write_secret _ _ w := (w, Ok tt); pk_list_secrets w := (w, Ok []) |}];
  sends _ := [{| st_node := "n1"; st_act target act _ := takes act target |}] |}.

Definition told_here (noun : Noun) (node target word : string) : list string * (Status * string) :=
  done_here Some "retry" "dismiss" noun node target word "ana" [].

(** The same asked over the listener. *)
Definition told_there (noun node target word : string) : Status * string :=
  outcome_told (answered (Served.acted toy_serve {| who := "ana"; through := None |} (act_message node noun target word)).2).


(** A Subscription whose standing Xmip Storage did not take: not found, said
    here, where the listener says that it failed. *)
Lemma failure_unfound :
  told_here Subscription_ "n1" "lost" "pause" = ([], (NOT_FOUND, "FAILED: Xmip Storage did not answer")) ∧
  told_there "subscription" "n1" "lost" "pause" = (IO, "FAILED: Xmip Storage did not answer").
Proof. split; vm_compute; reflexivity. Qed.

(** A publication of eight bytes, asked for with room for three. *)
Lemma handed_at_last :
  publications {| pending := None |} (λ _, "."%char) [(16%N, 3%N, Ok (7%N, "eight by")); (16%N, 8%N, Ok (9%N, "later"))] =
    ({| pending := None |}, (publications {| pending := None |} (λ _, "."%char)
       [(16%N, 3%N, Ok (7%N, "eight by")); (16%N, 8%N, Ok (9%N, "later"))]).1.1.2, [(7%N, "eight by")], [(7%N, "eight by")]).
Proof. reflexivity. Qed.
End Toy.
