(* ===== verification/Watching.v ===== *)
(** * A drop directory watched: [src/directory_watch.rs], [src/directory_watch/inotify.rs], [kqueue.rs], [src/ffi/directory_watch.rs], [src/receiving/watched.rs]

    The thread that waits in the kernel for a directory's changes, and the
    Location it tells ([Stopping]): each listing of the directory, each rest
    after it, every change and the thread's own steps, interleaved
    ([watch_step]). The kernel keeps that something changed since it was
    last read, whichever system's it is; a file that lands is one change,
    and a listing sees those that landed before it. One that landed between
    a listing and the watch's beginning tells nothing: the Location's rest,
    its sweep, ends in its time. *)

From stdpp Require Import base numbers list relations.
From S2P Require Import Prelude Stopping.

(** ** The states *)

(** The watching thread: waiting, its wait over and the events to read, to
    call what it was given, and ended. *)
Inductive Watcher := Polls | Reads | Calls | Over.

#[export] Instance watcher_eq_dec : EqDecision Watcher.
Proof. solve_decision. Defined.

(** [Changes]: what the kernel keeps, and its end. *)
Record Watch := { at_ : Watcher; kept : bool; ended : bool; since : nat }.

(** Whether the Location lists next, has listed, or has left its loop. *)
Inductive Phase := Lists | Listed | Left.

Record Watched := {
  changes : nat;
  listed : nat;
  watch : option Watch;
  phase : Phase;
  location : Stopping
}.

Definition watched_new : Watched :=
  {| changes := 0; listed := 0; watch := None; phase := Lists; location := stopping_new |}.

Definition with_watch (w : Watch) (s : Watched) : Watched :=
  {| changes := changes s; listed := listed s; watch := Some w; phase := phase s; location := location s |}.

Definition with_location (p : Phase) (l : Stopping) (s : Watched) : Watched :=
  {| changes := changes s; listed := listed s; watch := watch s; phase := p; location := l |}.

Definition moved (p : Watcher) (keeps : bool) (w : Watch) : Watch := {| at_ := p; kept := keeps; ended := ended w; since := since w |}.

(** ** The operations *)

(** A file lands. *)
Definition change (s : Watched) : Watched :=
  {| changes := changes s + 1; listed := listed s; watch := (λ w, moved (at_ w) true w) <$> watch s; phase := phase s; location := location s |}.

(** A receive that lists the directory. *)
Definition lists (s : Watched) : Watched :=
  {| changes := changes s; listed := changes s; watch := watch s; phase := Listed; location := location s |}.

(** [Watched::asking] where the watch begins: [Changes::new]. *)
Definition begins (s : Watched) : Watched := with_watch {| at_ := Polls; kept := false; ended := false; since := changes s |} s.

(** [Watched::nudge]: with a word where the directory is watched. *)
Definition nudged (s : Watched) : bool := bool_decide (is_Some (watch s)).

(** [Changes::next], its wait over: whether it was ended is asked first. *)
Definition woken_up (w : Watch) : Watch := moved (if ended w then Over else Reads) (kept w) w.

(** Every event waiting read. *)
Definition read_all (w : Watch) : Watch := moved Calls false w.

(** [Nudge::tell], which the thread calls. *)
Definition tells (w : Watch) (s : Watched) : Watched := with_watch (moved Polls (kept w) w) (with_location (phase s) (tell (location s)) s).

(** [DirectoryWatch::drop], to its join. *)
Definition leaves (s : Watched) : Watched :=
  {| changes := changes s; listed := listed s;
     watch := (λ w, {| at_ := at_ w; kept := kept w; ended := true; since := since w |}) <$> watch s;
     phase := Left; location := location s |}.

(** The watching thread's own steps. *)
Inductive thread_step (s : Watched) : Watched → Prop :=
  | step_wakes w : watch s = Some w → at_ w = Polls → kept w = true ∨ ended w = true → thread_step s (with_watch (woken_up w) s)
  (* the kernel refuses the wait *)
  | step_refused w : watch s = Some w → at_ w = Polls → thread_step s (with_watch (moved Over (kept w) w) s)
  | step_reads w : watch s = Some w → at_ w = Reads → thread_step s (with_watch (read_all w) s)
  | step_calls w : watch s = Some w → at_ w = Calls → thread_step s (tells w s).

Inductive watch_step (s : Watched) : Watched → Prop :=
  | step_change : watch_step s (change s)
  | step_lists : phase s = Lists → watch_step s (lists s)
  | step_begins : phase s = Listed → resting (location s) = Away → watch s = None → watch_step s (begins s)
  | step_rests l : phase s = Listed → own_step (nudged s) (location s) l →
      watch_step s (with_location (match resting (location s) with Ends => Lists | _ => Listed end) l s)
  | step_raise : watch_step s (with_location (phase s) (raise (location s)) s)
  | step_leaves : phase s = Lists → watch_step s (leaves s)
  | step_thread s' : thread_step s s' → watch_step s s'.

(** ** What is not told yet is on its way *)

(** The thread has something to tell. *)
Definition telling (w : Watch) : Prop := kept w = true ∨ at_ w = Reads ∨ at_ w = Calls.

(** The Location is to list again. *)
Definition to_list (s : Watched) : Prop := phase s ≠ Listed ∨ resting (location s) = Ends ∨ told (location s) = true.

Record watch_ok (s : Watched) : Prop := {
  ok_location : rest_ok (nudged s) (location s);
  ok_away : phase s ≠ Listed → resting (location s) = Away;
  ok_ended w : watch s = Some w → ended w = true ↔ phase s = Left;
  ok_unseen w : watch s = Some w → at_ w ≠ Over → listed s `max` since w < changes s → telling w ∨ to_list s
}.

Lemma rest_ok_away n n' l : rest_ok n l → resting l = Away → rest_ok n' l.
Proof. intros [Hw Hh Ht Hn] Ha. split; [congruence|done..]. Qed.

Lemma own_from_away n l l' : own_step n l l' → resting l = Ends → resting l' = Away.
Proof. intros Hs He. inversion Hs; subst; congruence || done. Qed.

Lemma rest_ok_tell n l : rest_ok n l → rest_ok n (tell l).
Proof. intros Hl. eapply rest_step_ok; [exact Hl|apply rest_tell]. Qed.

Lemma rest_ok_raise n l : rest_ok n l → rest_ok n (raise l).
Proof. intros Hl. eapply rest_step_ok; [exact Hl|apply rest_raise]. Qed.

(** A word told is heard by what ends the rest, or still there. *)
Lemma own_word n l l' : own_step n l l' → told l = true → resting l' = Ends ∨ told l' = true.
Proof.
  intros Hs Ht. inversion Hs; subst; simpl; auto; unfold rest_begins, rest_looks, take_word.
  - destruct zero; [by left|]. destruct (n && told l); simpl; auto.
  - destruct (raised l); [by left|]. destruct (n && told l); simpl; auto.
Qed.

Lemma watcher_step_ok s s' : watch_ok s → thread_step s s' → watch_ok s'.
Proof.
  intros [Hl Ha He Hu] Hs. inversion Hs as [w Hw Hat Hk|w Hw Hat|w Hw Hat|w Hw Hat]; subst; unfold nudged, to_list, telling in *; simpl in *;
    rewrite Hw in Hl; split; unfold nudged, to_list, telling; simpl; try done;
    try (intros w' [= <-]; exact (He w Hw)).
  - intros w' [= <-]. unfold woken_up, moved. simpl. destruct (ended w); [done|]. auto.
  - intros w' [= <-]. done.
  - intros w' [= <-]. simpl. auto.
  - by apply rest_ok_tell.
  - intros Hp. specialize (Ha Hp). by rewrite Ha.
  - intros w' [= <-] _ _. auto.
Qed.

Lemma watch_step_ok s s' : watch_ok s → watch_step s s' → watch_ok s'.
Proof.
  intros Hok Hs. pose proof Hok as [Hl Ha He Hu]. destruct Hs as [|Hp|Hp Hr Hw|l Hp Hl'| |Hp|s' Hs].
  - split; unfold nudged, to_list, telling in *; simpl; [by destruct (watch s)|done|..];
      intros w' Hw'; destruct (watch s) as [w|] eqn:Hw; simpl in Hw'; try done; injection Hw' as <-; simpl; [exact (He w eq_refl)|auto].
  - split; unfold nudged, to_list, telling in *; simpl; [done|done| |intros; lia].
    intros w Hw. rewrite (He _ Hw), Hp. done.
  - split; unfold nudged in *; simpl; [by eapply rest_ok_away|congruence| |]; intros w [= <-]; simpl; [by rewrite Hp|lia].
  - split; unfold nudged, to_list, telling in *; simpl.
    + eapply rest_step_ok; [exact Hl|]. by apply rest_own.
    + destruct (resting (location s)) eqn:Hr; try done. intros _. by eapply own_from_away.
    + intros w Hw. rewrite (He _ Hw), Hp. by destruct (resting (location s)).
    + intros w Hw Hat Hlt. destruct (Hu w Hw Hat Hlt) as [|[Hne|[Hends|Ht]]]; [by left|done| |].
      * right. left. by rewrite Hends.
      * destruct (own_word _ _ _ Hl' Ht); auto.
  - split; unfold nudged, to_list, telling in *; simpl; [by apply rest_ok_raise| |done|].
    + intros Hp. by rewrite (Ha Hp).
    + intros w Hw Hat Hlt. destruct (Hu w Hw Hat Hlt) as [|[|[Hends|]]]; auto. rewrite Hends. auto.
  - split; unfold nudged, to_list, telling in *; simpl; [by destruct (watch s)| | |]; [intros _; apply Ha; congruence|..].
    + intros w Hw. destruct (watch s) as [w'|]; [|done]. by injection Hw as <-.
    + intros w _ _ _. right. by left.
  - by eapply watcher_step_ok.
Qed.

Lemma watched_ok s : rtc watch_step watched_new s → watch_ok s.
Proof.
  intros Hrun. assert (watch_ok watched_new) as Hnew.
  { split; unfold nudged; simpl; [split; simpl; [done|lia|lia|done]|done..]. }
  induction Hrun as [|s1 s2 s3 Hs _ IH]; [done|]. apply IH. by eapply watch_step_ok.
Qed.

(** How many of its own steps the thread is from telling. *)
Definition to_tell (w : Watch) : nat := match at_ w with Calls => 1 | Reads => 2 | _ => 3 end.

Definition to_end (w : Watch) : nat := match at_ w with Over => 0 | Polls => 1 | Calls => 2 | Reads => 3 end.

(** One step of the thread: what it leaves it to do, and of the Location. *)
Lemma thread_stepped s s' w : watch s = Some w → thread_step s s' →
  ∃ w', watch s' = Some w' ∧ ended w' = ended w ∧
    (at_ w = Polls ∧ at_ w' ∈ [Over; Reads] ∧ (ended w = false → at_ w' = Reads ∨ at_ w' = Over) ∧ (ended w = true → at_ w' = Over) ∧ location s' = location s ∨
     at_ w = Reads ∧ at_ w' = Calls ∧ location s' = location s ∨
     at_ w = Calls ∧ at_ w' = Polls ∧ location s' = tell (location s)).
Proof.
  intros Hw Hs. inversion Hs as [w' Hw' Hat Hk|w' Hw' Hat|w' Hw' Hat|w' Hw' Hat]; subst; rewrite Hw in Hw'; injection Hw' as <-;
    eexists; (split; [done|]); (split; [done|]); [left|left|right; left|right; right]; simpl; split_and!; auto; destruct (ended w); set_solver.
Qed.

(** An ended thread has no step. *)
Lemma over_stays s s' w : watch s = Some w → at_ w = Over → ¬ thread_step s s'.
Proof. intros Hw Hat Hs. destruct (thread_stepped _ _ _ Hw Hs) as (w' & _ & _ & [(Hn & _)|[(Hn & _)|(Hn & _)]]); congruence. Qed.

(** It goes on wherever it has something to do. *)
Lemma thread_goes s w : watch s = Some w → at_ w ≠ Over → (at_ w = Polls → kept w = true ∨ ended w = true) → ∃ s', thread_step s s'.
Proof.
  intros Hw Hat Hk. destruct (at_ w) eqn:Hp; [|eexists; by eapply step_reads|eexists; by eapply step_calls|done].
  eexists. eapply step_wakes; [done|done|by apply Hk].
Qed.

(** A Location waiting is told within the thread's steps to it. *)
Definition told_within (n : nat) (s : Watched) : Prop :=
  (∃ s', nsteps thread_step n s s') ∧
  ∀ s', nsteps thread_step n s s' → resting (location s') = Looks ∧ told (location s') = true.

Lemma told_after n s s1 : thread_step s s1 → told_within n s1 →
  (∀ s2, thread_step s s2 → told_within n s2 ∨ n ≠ 0 ∧ ∀ s3, ¬ thread_step s2 s3) → told_within (S n) s.
Proof.
  intros H1 [[s' Hn] _] Hall. split; [exists s'; by eapply nsteps_l|].
  intros s2 Hs. inversion Hs as [|? ? s3 ? H3 Hn3]; subst. destruct (Hall _ H3) as [[_ Ht]|[Hz Hstuck]]; [by apply Ht|].
  inversion Hn3 as [|? ? s4 ? H4 _]; subst; [done|by apply Hstuck in H4].
Qed.

Lemma told_in_time n : ∀ s w, watch s = Some w → ended w = false → at_ w ≠ Over → to_tell w = n →
  resting (location s) = Waits → telling w → told_within n s.
Proof.
  induction n as [|n IH]; intros s w Hw Hen Hat Hn Hr Ht; [unfold to_tell in Hn; by destruct (at_ w)|].
  destruct (thread_goes s w Hw Hat) as [s1 H1]; [intros Hp; destruct Ht as [|[|]]; [by left|congruence..]|].
  assert (∀ s2, thread_step s s2 → told_within n s2 ∨ n ≠ 0 ∧ ∀ s3, ¬ thread_step s2 s3) as Hall.
  { intros s2 H2. destruct (thread_stepped _ _ _ Hw H2) as (w2 & Hw2 & Hen2 & [(Hp & _ & Hor & _ & Hl)|[(Hp & Hp2 & Hl)|(Hp & Hp2 & Hl)]]);
      unfold to_tell in Hn; rewrite Hp in Hn.
    - destruct (Hor Hen) as [Hp2|Hp2].
      + left. eapply IH; [done|congruence|congruence|unfold to_tell; rewrite Hp2; congruence|by rewrite Hl|right; by left].
      + right. split; [congruence|]. intros s3. by eapply over_stays.
    - left. eapply IH; [done|congruence|congruence|unfold to_tell; rewrite Hp2; congruence|by rewrite Hl|right; by right].
    - left. injection Hn as <-. assert (resting (location s2) = Looks ∧ told (location s2) = true) as Hd by (rewrite Hl; simpl; by rewrite Hr).
      split; [by exists s2; constructor|]. intros s3 H3. by inversion H3; subst. }
  destruct (Hall s1 H1) as [Hin|[Hz Hstuck]]; [by eapply told_after|].
  (* the kernel's refusal is not the only step there is *)
  assert (at_ w = Polls) as Hp by (unfold to_tell in Hn; destruct (at_ w) eqn:Hp; [done|..|done];
    destruct (thread_stepped _ _ _ Hw H1) as (w2 & Hw2 & _ & Hc); exfalso;
    (destruct (thread_goes s1 w2 Hw2) as [s3 H3]; [..|by apply Hstuck in H3]); destruct Hc as [(? & _)|[(? & ? & _)|(? & ? & _)]]; congruence).
  assert (thread_step s (with_watch (woken_up w) s)) as H2 by (apply step_wakes; [done..|]; destruct Ht as [|[|]]; [by left|congruence..]).
  destruct (Hall _ H2) as [Hin|[_ Hs2]]; [by eapply told_after|].
  exfalso. destruct (thread_goes (with_watch (woken_up w) s) (woken_up w)) as [s3 H3]; [done|..|by apply Hs2 in H3];
    unfold woken_up; rewrite Hen; done.
Qed.


(** ** A file lands while its Location rests *)

Module Toy.
Definition waiting : Watched :=
  with_location Listed (resting_at stopping_new Waits) (begins (lists watched_new)).

Definition dropped : Watched := change waiting.
Definition its_watch : Watch := {| at_ := Polls; kept := true; ended := false; since := 0 |}.

Lemma dropped_reached : rtc watch_step watched_new dropped.
Proof.
  eapply rtc_l; [by apply step_lists|].
  eapply rtc_l; [by apply step_begins|].
  eapply rtc_l; [apply step_rests; [done|by apply (rest_begin _ _ false)]|].
  eapply rtc_l; [apply step_rests; [done|by apply rest_lock]|].
  eapply rtc_l; [apply step_rests; [done|by apply rest_look]|].
  eapply rtc_once. exact (step_change waiting).
Qed.

End Toy.
