(* ===== verification/Sessions.v ===== *)
(** * A browser's session and the caller it proves: [src/secured.rs], [src/plane/held.rs] ([hold], [again]), [src/ffi/secure_listener.rs] ([xmip_caller_proven_v1])

    A browser's handshake done, from the certificate it presented to the
    caller held for its session and what every node it was bound to made of
    it ([session]); another holder's own handle on that caller
    ([caller_proven]); and the session freed ([freed]). Each is what one
    thread does of the table of callers ([Held]), and a run of its steps, so
    that what holds of the table however threads interleave holds here. The
    handshake is TLS's, the gate [Served]'s, a node's answer given. *)

From Stdlib Require Import Ascii String.
From stdpp Require Import base numbers list gmap strings relations.
From S2P Require Import Prelude Text Journey Storage Fresh Vouched Held Role Call Applied Served Relayed.

Local Open Scope string_scope.
Local Open Scope list_scope.
Local Open Scope Z_scope.

#[local] Opaque Held.MOST.

Section sessions.
Context `{Json} `{Grpc} `{ObserveWords} `{SecretWords} `{Admission} `{Gate} `{Codecs}.
(** [authenticate::x509::not_after_of]. *)
Context (not_after_of : bytes → option Z).

Abbreviation Store := (Store (Identity := Identity)).
Abbreviation Proof_ := (Proof_ (Identity := Identity)).
Abbreviation step := (held_step (Identity := Identity) is_proven).

(** ** One thread of the table's *)

(** References a thread has in hand dropped one by one, those it keeps
    before them. *)
Fixpoint drop_refs (keeps refs : list nat) (s : Store) : Store :=
  match refs with [] => s | p :: refs => drop_refs keeps refs (dropping s p (keeps ++ refs)) end.

(** A caller's proof made, in hand. *)
Definition proof_made (pf : Proof_) (until : option Z) (by_ : option N) (s : Store) : Store :=
  {| s_held := s_held s; s_proofs := <[s_next s := pf]> (s_proofs s); s_next := S (s_next s); s_lent := s_lent s;
     s_asking := s_asking s; s_proved := <[s_next s := (until, by_)]> (s_proved s); s_made := s_made s; s_told := s_told s |}.

(** [held_again] with a proof in hand, and what it let go of dropped. *)
Definition holding_again (p : nat) (until : option Z) (by_ : option N) (now : Z) (drawn : N) (s : Store) : Store * N :=
  let '(h, dropped, handle) := Held.held_again p until by_ now drawn (s_held s) in
  let gone := dropped ++ (if (handle =? 0)%N then [p] else []) in
  (drop_refs (s_lent s) gone (with_held s h (s_lent s ++ gone) (s_asking s)), handle).

(** [hold]. *)
Definition hold (identity : Identity) (until : option Z) (by_ : option N) (leaf : option bytes) (now : Z) (drawn : N) (s : Store) :
    Store * N :=
  if is_proven identity then
    let p := s_next s in
    holding_again p until by_ now drawn
      (proof_made {| pf_identity := identity; pf_leaf := leaf; pf_vouched := []; pf_refusals := [] |} until by_ s)
  else (s, 0%N).

(** [again]. *)
Definition again (handle : N) (now : Z) (drawn : N) (s : Store) : Store * N :=
  match again_of handle now (s_held s) with
  | None => (s, 0%N)
  | Some c => holding_again (h_proof c) (h_until c) (h_by c) now drawn s
  end.

(** [release]. *)
Definition releasing (handle : N) (s : Store) : Store :=
  let '(h, _, dropped) := Held.release handle (s_held s) in
  drop_refs (s_lent s) dropped (with_held s h (s_lent s ++ dropped) (s_asking s)).

(** ** A handshake handed to the nodes it was bound to *)

(** One node's answer kept on a proof in hand ([vouched_by]). *)
Definition vouch_kept (p : nat) (s : Store) (a : N * result value string) : Store :=
  match s_proofs s !! p with
  | None => s
  | Some pf =>
      let '(pf', replaced) := vouched_by pf a.1 a.2 in
      {| s_held := s_held s; s_proofs := <[p := pf']> (s_proofs s); s_next := s_next s; s_lent := s_lent s; s_asking := s_asking s;
         s_proved := s_proved s;
         s_made := s_made s ++ match a.2 with
                               | Ok v => match at_number v "caller" with Some node => [(p, (a.1, node))] | None => [] end
                               | Err _ => []
                               end;
         s_told := s_told s ++ ((λ was, (p, (a.1, was))) <$> option_list replaced) |}
  end.

(** [held::proof] of a handle, for as long as what is done with it. *)
Definition with_proof (handle : N) (now : Z) (f : nat → Store → Store) (s : Store) : Store :=
  let '(h, found, dropped) := Held.proof handle now (s_held s) in
  let lent := option_list found ++ dropped in
  let s1 := with_held s h (s_lent s ++ lent) (s_asking s) in
  drop_refs (s_lent s) lent (match found with Some p => f p s1 | None => s1 end).

(** [proven]: the session's caller, 0 for no one. [prover] is what revokes
    it with its listener; [answers] are the nodes', each of a surface the
    handshake was bound to; [transcript] is whether it was recovered. *)
Definition session (leaf : option bytes) (prover : N) (transcript : bool) (answers : list (N * result value string))
    (now later : Z) (drawn : N) (s : Store) : Store * N :=
  match leaf with
  | None => (s, 0%N)
  | Some cert =>
      match certificate cert with
      | Err _ => (s, 0%N)
      | Ok identity =>
          let '(s, handle) := hold identity (not_after_of cert) (Some prover) (Some cert) now drawn s in
          (with_proof handle later (λ p s, if transcript && negb (bool_decide (answers = [])) then foldl (vouch_kept p) s answers else s) s,
           handle)
      end
  end.

(** [xmip_caller_proven_v1]: a handle of the asker's own, and the caller's
    name. *)
Definition caller_proven (caller : N) (now later : Z) (drawn : N) (s : Store) : Store * N * string :=
  let '(s, handle) := again caller now drawn s in
  let '(h, found, dropped) := Held.proof handle later (s_held s) in
  let lent := option_list found ++ dropped in
  (drop_refs (s_lent s) lent (with_held s h (s_lent s ++ lent) (s_asking s)), handle,
   default "" ((λ pf, name_of (pf_identity pf)) <$> (found ≫= λ p, s_proofs s !! p))).

(** [SecureSession::drop]. *)
Definition freed (caller : N) (s : Store) : Store := releasing caller s.

(** ** Each is a run of the table's steps *)

Lemma drop_refs_steps keeps refs : ∀ s, s_lent s = keeps ++ refs → rtc step s (drop_refs keeps refs s).
Proof.
  induction refs as [|p refs IH]; intros s Hl; [done|]. cbn [drop_refs]. eapply rtc_l; [by apply held_drops|].
  apply IH. unfold dropping. by case_bool_decide.
Qed.

Lemma drop_refs_same keeps refs : ∀ s, s_held (drop_refs keeps refs s) = s_held s ∧ s_asking (drop_refs keeps refs s) = s_asking s ∧
  (s_lent s = keeps ++ refs → s_lent (drop_refs keeps refs s) = keeps) ∧ s_made (drop_refs keeps refs s) = s_made s ∧
  (∀ p pf, s_proofs (drop_refs keeps refs s) !! p = Some pf → s_proofs s !! p = Some pf).
Proof.
  induction refs as [|q refs IH]; intros s; cbn [drop_refs]; [rewrite app_nil_r; by split_and!|].
  destruct (IH (dropping s q (keeps ++ refs))) as (Hh & Ha & Hl & Hm & Hp). rewrite Hh, Ha, Hm.
  unfold dropping in *. case_bool_decide; cbn in *; split_and!; try done; [by auto|by auto|].
  intros p pf Hpf%Hp. by apply lookup_delete_Some in Hpf as [_ ?].
Qed.

Lemma drop_refs_held keeps refs s : s_held (drop_refs keeps refs s) = s_held s.
Proof. by destruct (drop_refs_same keeps refs s). Qed.

(** A proof a caller of the table has stays, whatever is dropped. *)
Lemma drop_refs_keeps keeps refs p : ∀ s, in_table (s_held s) p → s_proofs (drop_refs keeps refs s) !! p = s_proofs s !! p.
Proof.
  induction refs as [|q refs IH]; intros s Hp; cbn [drop_refs]; [done|].
  rewrite IH by (unfold dropping; by case_bool_decide). unfold dropping. case_bool_decide as Hr; cbn; [done|].
  destruct (decide (q = p)) as [->|Hne]; [|by rewrite lookup_delete_ne]. destruct Hr. apply references_refers. by left.
Qed.

(** What the random handle drawn is, under the lock it is drawn in: not 0,
    and of no caller held. *)
Definition drawable (drawn : N) (now : Z) (s : Store) : Prop := drawn ≠ 0%N ∧ beside now (s_held s) !! drawn = None.

Lemma holding_again_steps p until by_ now drawn s : drawable drawn now s →
  rtc step (with_held s (s_held s) (s_lent s) (s_asking s ++ [(p, (until, by_))])) (holding_again p until by_ now drawn s).1.
Proof.
  intros [Hnz Hfree]. unfold holding_again. destruct (held_again _ _ _ _ _ _) as [[h dropped] handle] eqn:Hh.
  eapply rtc_l; [by eapply (held_held _ _ (s_asking s) p until by_ []); [done..|exact Hh]|].
  rewrite app_nil_r. by apply drop_refs_steps.
Qed.

Lemma hold_steps identity until by_ leaf now drawn s : drawable drawn now s → rtc step s (hold identity until by_ leaf now drawn s).1.
Proof.
  intros Hd. unfold hold. destruct (is_proven identity) eqn:Hp; [|done].
  eapply rtc_l; [by apply (held_holds _ s identity until by_ leaf)|]. exact (holding_again_steps _ _ _ _ _ (proof_made _ _ _ s) Hd).
Qed.

Lemma again_steps handle now drawn s : drawable drawn now s → rtc step s (again handle now drawn s).1.
Proof.
  intros Hd. unfold again. destruct (again_of handle now (s_held s)) as [c|] eqn:Hc; [|done].
  eapply rtc_l; [by eapply held_asks_again|]. by apply holding_again_steps.
Qed.

Lemma releasing_steps handle s : rtc step s (releasing handle s).
Proof.
  unfold releasing. destruct (release _ _) as [[h was] dropped] eqn:Hr. eapply rtc_l; [by eapply held_released|]. by apply drop_refs_steps.
Qed.

Lemma vouch_kept_same p s a : s_held (vouch_kept p s a) = s_held s ∧ s_lent (vouch_kept p s a) = s_lent s ∧
  (∀ pf, s_proofs s !! p = Some pf → s_proofs (vouch_kept p s a) !! p = Some (vouched_by pf a.1 a.2).1).
Proof.
  unfold vouch_kept. destruct (s_proofs s !! p) as [pf|] eqn:Hp; [|done]. destruct (vouched_by pf a.1 a.2) as [pf' replaced] eqn:Hv. simpl.
  split_and!; [done..|]. intros ? [= <-]. by rewrite Hv, lookup_insert_eq.
Qed.

Lemma vouch_kept_steps p s a : p ∈ s_lent s → rtc step s (vouch_kept p s a).
Proof.
  intros Hin. unfold vouch_kept. destruct (s_proofs s !! p) as [pf|] eqn:Hp; [|done].
  unfold vouched_by. destruct a as [at_ [v|why]]; cbn [fst snd]; [destruct (at_number v "caller") as [node|]|].
  - destruct (Held.vouched at_ node pf) as [pf' replaced] eqn:Hv. eapply rtc_once. by eapply held_vouched.
  - rewrite !app_nil_r. eapply rtc_once. by eapply held_refused.
  - rewrite !app_nil_r. eapply rtc_once. by eapply held_refused.
Qed.

Lemma vouches_kept p answers : ∀ s, p ∈ s_lent s →
  let s' := foldl (vouch_kept p) s answers in
  rtc step s s' ∧ s_held s' = s_held s ∧ s_lent s' = s_lent s ∧
  (∀ pf, s_proofs s !! p = Some pf → s_proofs s' !! p = Some (vouched_everywhere pf answers)).
Proof.
  induction answers as [|a answers IH]; intros s Hin; cbn [foldl]; [done|].
  destruct (vouch_kept_same p s a) as (Hh & Hl & Hp). destruct (IH (vouch_kept p s a)) as (Hs & Hh' & Hl' & Hp'); [by rewrite Hl|].
  split_and!; [by etrans; [apply vouch_kept_steps|]|congruence..|]. intros pf Hpf. exact (Hp' _ (Hp _ Hpf)).
Qed.

Lemma with_proof_steps handle now f s :
  (∀ p s, p ∈ s_lent s → rtc step s (f p s) ∧ s_lent (f p s) = s_lent s) → rtc step s (with_proof handle now f s).
Proof.
  intros Hf. unfold with_proof. destruct (Held.proof handle now (s_held s)) as [[h found] dropped] eqn:Hp.
  eapply rtc_l; [by eapply held_found|]. destruct found as [p|]; [|by apply drop_refs_steps].
  set (s1 := with_held _ _ _ _). destruct (Hf p s1) as [Hs Hl]; [unfold s1; simpl; set_solver|].
  etrans; [exact Hs|]. apply drop_refs_steps. by rewrite Hl.
Qed.
Lemma session_steps leaf prover transcript answers now later drawn s : drawable drawn now s →
  rtc step s (session leaf prover transcript answers now later drawn s).1.
Proof.
  intros Hd. unfold session. destruct leaf as [cert|]; [|done]. destruct (certificate cert) as [identity|]; [|done].
  pose proof (hold_steps identity (not_after_of cert) (Some prover) (Some cert) now drawn s Hd) as Hh.
  destruct (hold _ _ _ _ _ _ _) as [s1 handle]. etrans; [exact Hh|]. apply with_proof_steps. intros p s2 Hin.
  destruct (transcript && _); [|done]. by destruct (vouches_kept p answers s2 Hin) as (? & _ & ? & _).
Qed.

(** ** What a session's caller is *)

Lemma holding_again_held p until by_ now drawn s s' handle :
  holding_again p until by_ now drawn s = (s', handle) →
  s_made s' = s_made s ∧ s_lent s' = s_lent s ∧
  (handle ≠ 0%N → handle = drawn ∧ callers (s_held s') = <[drawn := {| h_proof := p; h_until := until; h_by := by_ |}]> (beside now (s_held s)) ∧
     s_proofs s' !! p = s_proofs s !! p).
Proof.
  unfold holding_again. destruct (held_again _ _ _ _ _ _) as [[h dropped] k] eqn:Hh. intros [= <- <-].
  set (gone := dropped ++ _). destruct (drop_refs_same (s_lent s) gone (with_held s h (s_lent s ++ gone) (s_asking s))) as (Hheld & _ & Hl & Hm & _).
  split_and!; [done|by apply Hl|]. intros Hnz.
  assert (k = drawn ∧ callers h = <[drawn := {| h_proof := p; h_until := until; h_by := by_ |}]> (beside now (s_held s))) as [-> Hc].
  { unfold held_again in Hh. destruct (match until with Some _ => _ | None => _ end); [by injection Hh as <- <- <-|].
    destruct (match by_ with Some _ => _ | None => _ end); [by injection Hh as <- <- <-|].
    destruct (full _ && _); injection Hh as <- <- <-; done. }
  rewrite Hheld. split_and!; [done..|]. rewrite drop_refs_keeps; [done|]. exists drawn. eexists. cbn. rewrite Hc, lookup_insert_eq. by split.
Qed.

(** Why a proof is not held: its time is past, what proved it is revoked,
    or as many live callers as there may be are held. *)
Definition not_held (until : option Z) (by_ : option N) (now : Z) (s : Store) : Prop :=
  (∃ t, until = Some t ∧ t ≤ now) ∨ (∃ b, by_ = Some b ∧ b ∈ revoked (s_held s)) ∨ (Held.MOST ≤ size (beside now (s_held s)))%nat.

Lemma full_beside now h : full h && bool_decide (Held.MOST ≤ size (beside now h))%nat = true ↔ (Held.MOST ≤ size (beside now h))%nat.
Proof.
  rewrite andb_true_iff, bool_decide_eq_true. split; [by intros [_ ?]|]. intros Hm. split; [|done].
  unfold beside in Hm. destruct (full h) eqn:Hf; [done|]. unfold full in Hf. by apply bool_decide_eq_false in Hf.
Qed.

Lemma holding_again_none p until by_ now drawn s :
  drawn ≠ 0%N → (holding_again p until by_ now drawn s).2 = 0%N ↔ not_held until by_ now s.
Proof.
  intros Hnz. unfold holding_again, held_again, not_held. pose proof (full_beside now (s_held s)) as Hfull. revert Hfull.
  assert (match until with Some t => t <=? now | None => false end = true ↔ ∃ t, until = Some t ∧ t ≤ now) as Hu.
  { destruct until as [t|]; [rewrite Z.leb_le|]; naive_solver. }
  assert (match by_ with Some b => bool_decide (b ∈ revoked (s_held s)) | None => false end = true ↔ ∃ b, by_ = Some b ∧ b ∈ revoked (s_held s)) as Hb.
  { destruct by_ as [b|]; [rewrite bool_decide_eq_true|]; naive_solver. }
  revert Hu Hb. destruct (match until with Some _ => _ | None => _ end); [cbn; tauto|].
  destruct (match by_ with Some _ => _ | None => _ end); [cbn; tauto|].
  destruct (full (s_held s) && _); cbn; intuition congruence.
Qed.

Lemma with_proof_found handle now f s p c :
  handle ≠ 0%N → callers (s_held s) !! handle = Some c → live c now = true → h_proof c = p →
  (∀ s, p ∈ s_lent s → s_held (f p s) = s_held s ∧ s_lent (f p s) = s_lent s) →
  let s1 := with_held s (s_held s) (s_lent s ++ [p]) (s_asking s) in
  s_held (with_proof handle now f s) = s_held s ∧ s_proofs (with_proof handle now f s) !! p = s_proofs (f p s1) !! p.
Proof.
  intros Hnz Hc Hlive <- Hf. unfold with_proof, Held.proof. rewrite (proj2 (N.eqb_neq _ _) Hnz), Hc, Hlive. change (option_list (Some (h_proof c)) ++ []) with [h_proof c].
  set (s1 := with_held _ _ _ _). destruct (Hf s1) as [Hh Hl]; [unfold s1; simpl; set_solver|].
  destruct (drop_refs_same (s_lent s) [h_proof c] (f (h_proof c) s1)) as (Hd & _). split; [by rewrite Hd, Hh|].
  apply drop_refs_keeps. rewrite Hh. by exists handle, c.
Qed.

Lemma vouched_everywhere_who (pf : Proof_) answers :
  pf_identity (vouched_everywhere pf answers) = pf_identity pf ∧ pf_leaf (vouched_everywhere pf answers) = pf_leaf pf.
Proof.
  revert pf. induction answers as [|[a answer] rest IH]; intros pf; [done|]. unfold vouched_everywhere in *. simpl.
  destruct (IH (vouched_by pf a answer).1) as [-> ->]. unfold vouched_by, Held.vouched. by repeat case_match.
Qed.

(** The caller a browser's session is held for is who its certificate
    proves, and no one else: a handle is given only where the gate proved
    the certificate presented, for no longer than that certificate and
    revoked with its listener, and what every node its handshake was bound
    to answered, its handle or its refusal, is kept on that caller's proof.
    A browser that presented none, or was refused, is no one, and no node's
    handle is kept for it; one the gate proved is no one only where its
    certificate's time is past, its listener is gone or the table is full.
    All of it is a run of the table's own steps. *)
Theorem session_proven s leaf prover transcript answers now later drawn s' caller :
  drawable drawn now s → NoDup answers.*1 →
  (∀ cert until, leaf = Some cert → not_after_of cert = Some until → later < until) →
  session leaf prover transcript answers now later drawn s = (s', caller) →
  rtc step s s' ∧
  (caller = 0%N → s_made s' = s_made s ∧
     ∀ cert identity, leaf = Some cert → certificate cert = Ok identity → is_proven identity = true →
       not_held (not_after_of cert) (Some prover) now s) ∧
  (caller ≠ 0%N → ∃ cert identity p pf,
     leaf = Some cert ∧ certificate cert = Ok identity ∧ is_proven identity = true ∧
     callers (s_held s') !! caller = Some {| h_proof := p; h_until := not_after_of cert; h_by := Some prover |} ∧
     s_proofs s' !! p = Some pf ∧ pf_identity pf = identity ∧ pf_leaf pf = Some cert ∧
     ∀ at_, told_of at_ pf =
       match List.find (λ a, bool_decide (fst a = at_)) (if transcript then answers else []) with Some a => heard a.2 | None => (None, None) end).
Proof.
  intros Hd Hnd Hlater Hs. split; [pose proof (session_steps leaf prover transcript answers now later drawn s Hd) as Hrun; by rewrite Hs in Hrun|].
  unfold session in Hs. destruct leaf as [cert|]; [|by injection Hs as <- <-].
  destruct (certificate cert) as [identity|] eqn:Hcert; [|injection Hs as <- <-; by split; [split; [|intros ?? [= <-]; congruence]|]].
  destruct (hold _ _ _ _ _ _ _) as [s1 handle] eqn:Hh. injection Hs as <- <-.
  unfold hold in Hh. destruct (is_proven identity) eqn:Hp; [|injection Hh as <- <-; by split; [split; [|intros ?? [= <-]; congruence]|]].
  pose proof (holding_again_held _ _ _ _ _ _ _ _ Hh) as (Hm & Hl & Hk). split.
  - intros ->. split; [unfold with_proof, Held.proof; simpl; by rewrite Hm|]. intros ? i [= <-] _ _.
    apply (f_equal snd) in Hh. apply holding_again_none in Hh; [exact Hh|apply Hd].
  - intros Hnz. destruct (Hk Hnz) as (-> & Hc & Hpf). set (p := s_next s) in *. simpl in Hpf. rewrite lookup_insert_eq in Hpf.
    set (c := {| h_proof := p; h_until := not_after_of cert; h_by := Some prover |}) in *.
    set (pf0 := {| pf_identity := identity; pf_leaf := Some cert; pf_vouched := []; pf_refusals := [] |}) in *.
    set (f := λ p s, _). assert (∀ s, p ∈ s_lent s → s_held (f p s) = s_held s ∧ s_lent (f p s) = s_lent s) as Hf.
    { intros s2 Hin. unfold f. destruct (transcript && _); [|done]. by destruct (vouches_kept p answers s2 Hin) as (_ & ? & ? & _). }
    assert (callers (s_held s1) !! drawn = Some c) as Hin by (by rewrite Hc, lookup_insert_eq).
    assert (live c later = true) as Hlive.
    { unfold live, c. simpl. destruct (not_after_of cert) as [until|] eqn:Hu; [|done]. apply Z.ltb_lt. by eapply Hlater. }
    destruct (with_proof_found drawn later f s1 p c Hnz Hin Hlive eq_refl Hf) as [Hheld Hproof].
    exists cert, identity, p, (if transcript then vouched_everywhere pf0 answers else pf0). rewrite Hheld, Hproof.
    assert (s_proofs (f p (with_held s1 (s_held s1) (s_lent s1 ++ [p]) (s_asking s1))) !! p =
      Some (if transcript then vouched_everywhere pf0 answers else pf0)) as Hkept.
    { unfold f. destruct transcript; cbn [andb]; [|done]. case_bool_decide as Ha; cbn [negb]; [by rewrite Ha|].
      apply (vouches_kept p answers); [simpl; set_solver|done]. }
    destruct (vouched_everywhere_who pf0 answers) as [Hi Hleaf].
    split_and!; try done; [by destruct transcript; rewrite ?Hi|by destruct transcript; rewrite ?Hleaf|].
    intros at_. destruct transcript; [|done]. by rewrite vouched_everywhere_told.
Qed.
(** A handle [caller_proven] gave is the asker's own: for the same proof, as
    long, under the name its gate proved, and it stays when the session it
    was asked of is freed, which ends the session's alone. *)
Theorem own_handle_outlives s caller c pf now later drawn s' own name :
  drawable drawn now s → callers (s_held s) !! caller = Some c → s_proofs s !! h_proof c = Some pf →
  (∀ t, h_until c = Some t → later < t) →
  caller_proven caller now later drawn s = (s', own, name) → own ≠ 0%N →
  own ≠ caller ∧ name = name_of (pf_identity pf) ∧
  callers (s_held (freed caller s')) !! caller = None ∧
  callers (s_held (freed caller s')) !! own = Some c ∧
  s_proofs (freed caller s') !! h_proof c = Some pf.
Proof.
  intros Hd Hc Hpf Hlater Hp Hnz. unfold caller_proven, again, again_of in Hp. rewrite Hc in Hp. destruct (live c now) eqn:Hlive; [|by simpl in Hp; injection Hp].
  destruct (holding_again _ _ _ _ _ _) as [s1 handle] eqn:Hh. pose proof (holding_again_held _ _ _ _ _ _ _ _ Hh) as (_ & Hl & Hk).
  destruct (Held.proof _ _ _) as [[h found] dropped] eqn:Hf. injection Hp as <- <- <-. destruct (Hk Hnz) as (-> & Hcs & Hps).
  assert (live c later = true) as Hlive'.
  { unfold live. destruct (h_until c) as [t|]; [|done]. apply Z.ltb_lt. by apply Hlater. }
  assert (drawn ≠ caller) as Hne.
  { intros ->. destruct Hd as [_ Hfree]. unfold beside in Hfree. destruct (full _); [|congruence].
    assert (kept (λ c, live c now) (callers (s_held s)) !! caller = Some c) as Hkept by (by apply kept_some). congruence. }
  assert (c = {| h_proof := h_proof c; h_until := h_until c; h_by := h_by c |}) as Hself by (by destruct c).
  unfold Held.proof in Hf. rewrite (proj2 (N.eqb_neq _ _) (proj1 Hd)), Hcs, lookup_insert_eq in Hf. rewrite <- Hself, Hlive' in Hf.
  injection Hf as <- <- <-. set (s2 := drop_refs _ _ _).
  assert (s_held s2 = s_held s1 ∧ s_proofs s2 !! h_proof c = Some pf) as [Hheld Hps2].
  { split; [exact (drop_refs_held _ _ _)|]. unfold s2. rewrite drop_refs_keeps; [cbn; by rewrite Hps|]. exists drawn, c. cbn. by rewrite Hcs, lookup_insert_eq, <- Hself. }
  split_and!; [done|cbn; by rewrite Hps, Hpf|..]; unfold freed, releasing, Held.release; rewrite Hheld, Hcs.
  - rewrite drop_refs_held. cbn. by rewrite lookup_delete_eq.
  - rewrite drop_refs_held. cbn. by rewrite lookup_delete_ne, lookup_insert_eq, <- Hself by done.
  - rewrite drop_refs_keeps; [done|]. exists drawn, c. cbn. by rewrite lookup_delete_ne, lookup_insert_eq, <- Hself by done.
Qed.
End sessions.

(** ** A session that runs *)

Module Toy.
(** A gate that names a leaf of one byte by its subject, and knows no other. *)
#[local] Instance naming_gate : Gate := {|
  Identity := string; is_proven := λ i, negb (String.eqb i "guess"); name_of := id; mechanism_of := λ _, "mutual-tls";
  mutual_tls := "mutual-tls"; peer_credentials := "peer-credentials"; mutual_tls_handshake := "handshake";
  peer_credentials_system := "system"; subject_of := λ leaf, if bool_decide (length leaf = 1%nat) then Ok "jane" else Err "no name";
  issuer_of := λ _, None; authenticate := λ _ claim, Ok (cl_value claim) |}.

#[local] Existing Instances fields_json plain_grpc by_rules toy_words toy_secrets toy_codecs.

Definition empty : Store (Identity := Identity) :=
  {| s_held := {| callers := ∅; revoked := ∅ |}; s_proofs := ∅; s_next := 0; s_lent := []; s_asking := []; s_proved := ∅; s_made := []; s_told := [] |}.

(** Node 1 answered handle 9, node 2 refused. *)
Definition answered : list (N * result value string) :=
  [(2%N, Ok (object [("refused", JText "REFUSED. full")])); (1%N, Ok (object [("caller", JNumber 9)]))].

Definition jane : bytes := [Byte.x01].

Definition janes : Proof_ (Identity := Identity) :=
  {| pf_identity := "jane"; pf_leaf := Some jane; pf_vouched := []; pf_refusals := [] |}.

(** Handshaken at 5 with a certificate good until 100, its listener 3, its
    handle drawn 7. *)
Definition run : Store * N := session (λ _, Some 100) (Some jane) 3 true answered 5 6 7 empty.

Lemma session_proven_witness : run.2 = 7%N ∧ ∃ p pf,
  callers (s_held run.1) !! 7%N = Some {| h_proof := p; h_until := Some 100; h_by := Some 3%N |} ∧ s_proofs run.1 !! p = Some pf ∧
  pf_identity pf = "jane" ∧ told_of 1%N pf = (Some 9%N, None) ∧ told_of 2%N pf = (None, Some "REFUSED. full") ∧ told_of 4%N pf = (None, None).
Proof.
  assert (run.2 = 7%N) as H7 by (vm_compute; reflexivity). split; [exact H7|].
  destruct (session_proven (λ _, Some 100) empty (Some jane) 3 true answered 5 6 7 run.1 run.2) as (_ & _ & Hsome).
  - by split; [|vm_compute].
  - apply (bool_decide_eq_true_1 (NoDup _)). vm_compute. reflexivity.
  - by intros _ ? _ [= <-].
  - reflexivity.
  - destruct Hsome as (cert & i & p & pf & [= <-] & [= <-] & _ & Hc & Hp & Hi & _ & Ht); [by rewrite H7|].
    rewrite H7 in Hc. exists p, pf. split_and!; [exact Hc|exact Hp|exact Hi|exact (Ht 1%N)|exact (Ht 2%N)|exact (Ht 4%N)].
Defined.

(** The session freed, a web host that asked of it still has its own. *)
Definition asked : Store * N * string := caller_proven 7 8 9 11 run.1.

Lemma own_handle_outlives_witness : asked.2 = "jane" ∧
  callers (s_held (freed 7 asked.1.1)) !! 7%N = None ∧ is_Some (callers (s_held (freed 7 asked.1.1)) !! 11%N).
Proof.
  destruct (own_handle_outlives run.1 7 {| h_proof := 0; h_until := Some 100; h_by := Some 3%N |} (vouched_everywhere janes answered) 8 9 11 asked.1.1 11 asked.2)
    as (_ & Hn & Hg & Ho & _).
  - by split; [|vm_compute].
  - by vm_compute.
  - by vm_compute.
  - by intros ? [= <-].
  - by vm_compute.
  - done.
  - split_and!; [exact Hn|exact Hg|]. rewrite Ho. by eexists.
Defined.
End Toy.
